(* ===== verification/_CoqProject ===== *)
-Q . S2P
Prelude.v
Heap.v
Ms.v
State.v
Monad.v
JobList.v
JobHash.v
Tube.v
Job.v
Wal.v
Conn.v
HeapSpec.v
Queue.v
Frames.v
TableSpec.v
QueueRep.v
QueueOps.v
QueueConn.v
QueueProc.v
Process.v
Runs.v
Owners.v
QueueCmds.v
QueueLoops.v
Refs.v
Life.v
Sound.v
QueueSpec.v
Parse.v
Options.v
ParseSpec.v
OptionsSpec.v
Sockets.v
Stats.v
Dispatch.v
Commands.v
Reserving.v
Showing.v
Naming.v
Putting.v
Tame.v
Safety.v
Server.v
Handlers.v
Loop.v
Pending.v
Closing.v
Accepting.v
Events.v
Waning.v
Timeouts.v
Ticks.v
Turns.v
ServerSpec.v
Findings.v
Recover.v
Startup.v
StartupSpec.v
Codec.v
