(* ===== verification/Prelude.v ===== *)
(** * beanstalkd: a verification development

    beanstalkd is a work queue: producers put jobs in tubes, workers reserve
    them by priority, and a job that is not deleted in time is ready again.
    The server is one event loop over non-blocking sockets; everything below is
    sequential.

    ** The program and the files that model it

    The C program keeps all its state in memory reachable from a few static
    variables, and optionally writes a log.  The model is a state-and-error
    monad [M] over one record [St] (State.v, Monad.v): every struct of [dat.h]
    is a record, every heap object an entry of a map from addresses to records,
    so aliasing is as in the program.  [M] stops on undefined behaviour (NULL,
    dangling or out-of-bounds accesses), on [exit], and when the fuel of a loop
    runs out; [wp m Q s] says that [m] does none of these from [s] and ends with
    [Q].  The clock, [malloc] and the system calls are functions of a counter
    ([Env], and [SysInfo], [Net], [Disk], [Sys], [Host] for statistics,
    sockets, the log directory and start-up), about which nothing is assumed.

    - Heap.v: [heap.c], the binary heap, over any [less] and [setpos].
    - Ms.v: [ms.c], the multiset with round-robin [ms_take].
    - JobList.v: the circular lists of [job.c].
    - JobHash.v: the hash table of all jobs, [job.c] and [primes.c].
    - Tube.v, Job.v, Conn.v: [tube.c], the rest of [job.c], [conn.c].
    - Wal.v: the writing half of [file.c] and [walg.c]; Recover.v the reading
      half, and [srv_acquire_wal] of [serv.c].
    - Queue.v: [prot.c] from the epoll queue to [wait_for_job]; the life of a
      connection ([make_conn], [connclose]).
    - Parse.v: numbers, names, lines and command names of [prot.c].
    - Stats.v: the formatting of statistics.
    - Dispatch.v: [dispatch_cmd], a definition per command, and the body of
      [put].
    - Server.v: the input and output of a connection, timeouts, [prottick],
      [h_accept], start-up, and one turn of [srvserve].
    - Options.v: [optparse] of [util.c].  Sockets.v: [net.c], over a table of
      descriptors.  Startup.v: [main.c], from the command line to the first
      turns of the event loop.

    The definitions keep the names of the C functions; a loop is a [Fixpoint]
    [f_loop].  The [case]s of [dispatch_cmd] are the [cmd_*] of Dispatch.v,
    those of [conn_process_io] the [io_*] of Server.v.

    ** What is proved

    - Heap.v, HeapSpec.v: a heap with a total order sorts and removes exactly
      the element asked for; with any order it stays in its array and
      terminates.  The heaps of jobs are total (by id); that of connections is
      not.
    - Ms.v: taking from a multiset hands out every element once.
    - JobHash.v, TableSpec.v: the hash table implements a finite map, across
      growing and shrinking; the lists are queues.
    - QueueRep.v: the abstraction.  [queue_rep P ids X s] says that the heaps,
      lists and records of [s] represent the map [P] from jobs to places
      (ready, delayed, buried, reserved); [wait_rep] relates the waiting sets
      of the tubes to the connections.  Both are stable under the frames
      [queue_sim] and [wait_sim], and one lemma per kind of container moves a
      job.
    - QueueOps.v, QueueConn.v, QueueProc.v, Process.v, QueueCmds.v: the
      procedures of the queue as updates of [P].  [serving] is the
      specification of [process_queue] as a rule-defined relation.
    - QueueSpec.v: the theorems of the queue, and an example state in which
      they apply.
    - Runs.v, QueueLoops.v: what loops do to many jobs and connections.
      [stays X D] says that only the jobs of [D] move, but for jobs that are
      handed to connections that wait, and what connections say.
    - Owners.v: the jobs that connections receive and send ([in_job],
      [out_job]), and the command buffer.
    - Refs.v, Life.v: [srv_inv], the invariant of the whole server: the queue,
      the table of jobs, the reference counts of tubes, the owners; kept when
      jobs, copies of jobs and tubes are made and freed.  It is indexed by what
      the running handler holds in local variables ([local]).
    - Sound.v, Commands.v, Reserving.v, Showing.v, Naming.v, Putting.v: every
      command keeps [srv_inv]; Safety.v: so does [dispatch_cmd], whatever the
      line, and it neither follows a bad pointer nor loops nor exits.
    - Frames.v, Tame.v: what an operation leaves alone whatever the state.
      [Keeps R n m] is a type class: one instance per operation proves, for every
      relation [R] that is a [Frame], that a run of [m] is in [R n], where [n]
      counts the objects allocated.  [tame], [steady], [modest] and [away] are
      the frames that the proofs about events need.
    - Handlers.v, Loop.v, Pending.v, Closing.v, Accepting.v, Events.v: the events.
      The input and output of a connection, the loop over the commands that one
      buffer holds, the queue of epoll updates (also when it is circular), and
      the end and the start of a connection keep [srv_inv]; so does [sock_f].
    - Ticks.v: [tick_delayed_loop] makes the jobs ready whose delay is over.
    - Waning.v, Timeouts.v, Turns.v: a turn of [srvserve].  Each timeout of a
      connection gives jobs back, which may wake other connections and set their
      timers; Waning.v shows that every operation of the turn keeps the bound
      [energy] on the work left, and [conn_timeout] and the three loops of
      [prottick] use it up.  [srvserve_step] keeps [srv_inv].
    - ParseSpec.v: what the parser accepts, against grammars.
    - Codec.v: the records of the log decode to what was encoded.
    - ServerSpec.v: the byte stream is split without loss; a session.
    - OptionsSpec.v: every spelling of the options is parsed alike, parsing ends
      and the settings are in range.  Sockets.v: no descriptor is leaked.
    - StartupSpec.v: a run, and the next one that reads its log, from [main] on.
    - Findings.v: behaviours that differ from what the code means to do: a
      dangling pointer, lost updates, silent reservations.

    ** Bounds and fuel

    Fuel is a bound on the length of the structure a loop walks: the number of
    jobs for chains, lists of reserved jobs and [process_queue], of files for
    the log, of connections for the epoll queue.  [process_queue] terminates
    because every round takes a job out of the ready heaps
    ([ready_size_serve]).  The rehashing of the table recurses at most once per
    prime.  [conn_timeout] and the last loop of [prottick] end because each turn
    lowers [energy] (Server.v), which is their fuel: it counts the timers, the
    jobs, those reserved more than the others, and the connections that wait.
    Machine integers wrap where the code relies on it: counters, hash
    indices, sizes; times are unbounded.  The hash table is specified up to the
    18th prime, beyond which [_get_job_hash_index] truncates.

    ** What is not modelled

    [darwin.c], [sunos.c] and [freebsd.c] repeat [linux.c]; the messages of
    [verbose] mode and [twarn] are left out.  The theorems about
    the queue are for a server without a log: the log is modelled, and its
    record format proved, but not the space reservations.

    The theorems on events and turns assume what holds in a server in normal
    operation and is not checked by the code: every update of the epoll set
    succeeds; descriptor 0 is in use; there is room for the objects that the
    commands of one buffer create ([EVENT_OBJECTS]); for a turn, that a copy of a
    job can be allocated, and that no connection that waits holds an overdue job
    ([prompt]: the timer of such a connection is set to fire before).  A closed
    connection whose timer is tied with another's may stay in the heap of timers
    (Findings.v): the theorems then say so, and nothing about the next turn.

    [room] says that a counter of references, the next id and the hash table
    have room for one more job.  [wait_rep] does not say that a connection that
    waits is listed in all the tubes it watches, because [ms_append] may run out
    of memory; a tube that could not be listed is leaked, as in the program. *)
From Stdlib Require Export ZArith Lia Ascii String.
From stdpp Require Export prelude gmap strings list fin_maps sorting.
#[global] Open Scope Z_scope.
#[global] Open Scope nat_scope.

(** The facts that carry the invariants of the queue across steps: QueueOps.v
    and QueueCmds.v fill it. *)
Create HintDb queue.

(** * Functional record update *)

(** [Settable R] gives the eta-expansion of a record, [Setter p] the update of
    the field read by the projection [p]; [solve_setter] derives the second
    from the first by abstracting the projection in the eta-expansion. *)
Class Settable (R : Type) := reta : R → R.
Class Setter {R T : Type} (p : R → T) := rupd : (T → T) → R → R.
#[global] Hint Mode Setter - - + : typeclass_instances.
Arguments rupd {R T} p {_} _ _.

Ltac solve_setter :=
  match goal with
  | |- @Setter ?R ?T ?p =>
      let e := constr:(@reta R _) in
      let e := eval hnf in e in
      let e := eval pattern p in e in
      match e with
      | ?g p => let t := eval cbv beta in (fun (u : T → T) => g (fun r => u (p r))) in
                exact t
      end
  end.

Declare Scope upd_scope.
Delimit Scope upd_scope with upd.
Notation "r <| p ::= f |>" := (rupd p f r)
  (at level 1, left associativity, format "r  <| p  ::=  f |>") : upd_scope.
Notation "r <| p := v |>" := (rupd p (fun _ => v) r)
  (at level 1, left associativity, format "r  <| p  :=  v |>") : upd_scope.
#[global] Open Scope upd_scope.

(** [rsimpl] computes every projection of an updated record, in the goal and
    in the hypotheses, without unfolding anything else. *)
Ltac rsimpl1 :=
  match goal with
  | |- context [?g (@rupd _ _ ?f ?i ?u ?r)] =>
    first [ constr_eq g f; change (g (@rupd _ _ f i u r)) with (u (f r)) 
          | let _ := constr:(_ : Setter g) in change (g (@rupd _ _ f i u r)) with (g r) ]
  | H: context [?g (@rupd _ _ ?f ?i ?u ?r)] |- _ =>
    first [ constr_eq g f; change (g (@rupd _ _ f i u r)) with (u (f r)) in H
          | let _ := constr:(_ : Setter g) in change (g (@rupd _ _ f i u r)) with (g r) in H]
  end.
Ltac rsimpl := repeat (rsimpl1; cbv beta).
Ltac rsimpl_in H :=
  repeat (match type of H with
  | context [?g (@rupd _ _ ?f ?i ?u ?r)] =>
    first [ constr_eq g f; change (g (@rupd _ _ f i u r)) with (u (f r)) in H
          | let _ := constr:(_ : Setter g) in
            change (g (@rupd _ _ f i u r)) with (g r) in H ]
  end; cbv beta in H).

(** * Machine integers *)

(** Conversions to the fixed-width types of [dat.h]: unsigned types reduce
    modulo [2^w], signed ones to the two's complement representative. *)
Definition wrap_u32 (z : Z) : Z := (z mod 4294967296)%Z.
Definition wrap_u64 (z : Z) : Z := (z mod 18446744073709551616)%Z.
Definition wrap_i32 (z : Z) : Z :=
  let m := (z mod 4294967296)%Z in
  if (m <? 2147483648)%Z then m else (m - 4294967296)%Z.
Definition wrap_i64 (z : Z) : Z :=
  let m := (z mod 18446744073709551616)%Z in
  if (m <? 9223372036854775808)%Z then m else (m - 18446744073709551616)%Z.

Definition UINT32_MAX : Z := 4294967295.
Definition UINT64_MAX : Z := 18446744073709551615.
Definition INT32_MAX : Z := 2147483647.
Definition INT64_MAX : Z := 9223372036854775807.

(** * Arrays *)

(** The initialised prefix of a C array: writing at its end extends it. *)
Definition arr_set {A} (k : nat) (x : A) (l : list A) : list A :=
  if k <? length l then <[k:=x]> l else l ++ [x].

Section arrays.
Context {A : Type}.
Implicit Types (l : list A) (k n : nat) (x : A).

Lemma arr_set_lt k x l : k < length l → arr_set k x l = <[k:=x]> l.
Proof. intros H. unfold arr_set. by rewrite (proj2 (Nat.ltb_lt _ _) H). Qed.

Lemma take_arr_set_lt n k x l :
  k < n → n ≤ length l → take n (arr_set k x l) = <[k:=x]> (take n l).
Proof. intros ??. rewrite arr_set_lt by lia. by rewrite take_insert_lt. Qed.

(** Writing just past the first [n] elements appends to them. *)
Lemma take_arr_set_end n x l :
  n ≤ length l → take (S n) (arr_set n x l) = take n l ++ [x].
Proof.
  intros H. unfold arr_set. destruct (Nat.ltb_spec n (length l)).
  - rewrite insert_take_drop, take_app, length_take by done.
    rewrite Nat.min_l by lia. replace (S n - n) with 1 by lia.
    simpl. rewrite take_0, take_take. f_equal. f_equal. lia.
  - assert (n = length l) as -> by lia.
    rewrite (take_ge (l ++ [x])), take_ge; rewrite ?length_app; simpl; auto; lia.
Qed.

Lemma length_arr_set_ge k x l : length l ≤ length (arr_set k x l).
Proof.
  unfold arr_set. case_match; rewrite ?length_insert, ?length_app; simpl; lia.
Qed.

Lemma length_arr_set_end n x l : n ≤ length l → n < length (arr_set n x l).
Proof.
  intros. unfold arr_set. destruct (Nat.ltb_spec n (length l));
    rewrite ?length_insert, ?length_app; simpl; lia.
Qed.

Lemma lookup_swap l i j x y k :
  l !! i = Some x → l !! j = Some y →
  <[j:=x]> (<[i:=y]> l) !! k =
    if decide (k = j) then Some x else if decide (k = i) then Some y else l !! k.
Proof.
  intros Hi Hj. apply lookup_lt_Some in Hi as ?, Hj as ?.
  repeat case_decide; subst.
  - rewrite list_lookup_insert_eq; [done|]. by rewrite length_insert.
  - rewrite list_lookup_insert_ne by done. by rewrite list_lookup_insert_eq.
  - rewrite !list_lookup_insert_ne by done. done.
Qed.

Lemma lookup_take_le n m l i x :
  n ≤ m → take n l !! i = Some x → take m l !! i = Some x.
Proof. rewrite !lookup_take_Some. intros ? [? ?]. split; [done|lia]. Qed.

Lemma elem_of_take_le n m l x : n ≤ m → x ∈ take n l → x ∈ take m l.
Proof. rewrite !list_elem_of_lookup. intros ? [i ?]. eauto using lookup_take_le. Qed.
End arrays.

(** * Maps that agree up to some fields *)

(** [same_but e m m']: the maps have the same keys, and values that agree once
    [e] has erased the fields that may differ. *)
Definition same_but {V} (e : V → V) (m m' : gmap positive V) : Prop :=
  e <$> m' = e <$> m.

Section same_but.
Context {V : Type} (e : V → V).
Implicit Types m : gmap positive V.

#[export] Instance same_but_equiv : Equivalence (same_but e).
Proof.
  unfold same_but. split; [done|by intros ???|]. intros ??? H1 H2. by rewrite H2.
Qed.

Lemma same_but_lookup m m' k v :
  same_but e m m' → m !! k = Some v → ∃ v', m' !! k = Some v' ∧ e v' = e v.
Proof.
  intros H Hk. assert (e <$> m' !! k = Some (e v)) as Hk'.
  { rewrite <- lookup_fmap, H, lookup_fmap, Hk. done. }
  destruct (m' !! k); naive_solver.
Qed.

Lemma same_but_lookup_inv m m' k v' :
  same_but e m m' → m' !! k = Some v' → ∃ v, m !! k = Some v ∧ e v' = e v.
Proof.
  intros H Hk. destruct (same_but_lookup m' m k v') as (v & ? & ?); [by symmetry|done|].
  eauto.
Qed.

Lemma same_but_insert m m' k v v' :
  same_but e m m' → m !! k = Some v → e v' = e v → same_but e m (<[k := v']> m').
Proof.
  intros H Hk He. unfold same_but. rewrite fmap_insert, He, H.
  apply insert_id. by rewrite lookup_fmap, Hk.
Qed.

Lemma same_but_insert_2 m m' k v v' :
  same_but e m m' → e v' = e v → same_but e (<[k := v]> m) (<[k := v']> m').
Proof. intros H He. unfold same_but. by rewrite !fmap_insert, He, H. Qed.

Lemma same_but_dom m m' : same_but e m m' → dom m' = dom m.
Proof. intros H. rewrite <- (dom_fmap_L e m'), H. apply dom_fmap_L. Qed.

Lemma same_but_size m m' : same_but e m m' → size m' = size m.
Proof. intros H. rewrite <- (map_size_fmap e m'), H. apply map_size_fmap. Qed.
End same_but.

(** Erasing more fields only makes the relation coarser. *)
Lemma same_but_mono {V} (e e' : V → V) (m m' : gmap positive V) :
  (∀ v, e' v = e' (e v)) → same_but e m m' → same_but e' m m'.
Proof.
  intros He H. unfold same_but in *. apply map_eq. intros k. rewrite !lookup_fmap.
  assert (e <$> m' !! k = e <$> m !! k) as Hk by (rewrite <- !lookup_fmap; by rewrite H).
  destruct (m' !! k), (m !! k); simpl in *; try done. simplify_eq.
  f_equal. rewrite He. symmetry. rewrite He. congruence.
Qed.

(** * Counting the entries of a map *)

Definition count {V} (f : V → Prop) `{!∀ v, Decision (f v)} (m : gmap positive V) : Z :=
  Z.of_nat (size (filter (λ kv : positive * V, f kv.2) m)).

Section count.
Context {V : Type} (f : V → Prop) `{!∀ v, Decision (f v)}.
Implicit Types (m : gmap positive V) (k : positive) (v : V).

Lemma count_nonneg m : (0 <= count f m)%Z.
Proof. unfold count. lia. Qed.

Lemma count_le m : (count f m <= Z.of_nat (size m))%Z.
Proof.
  unfold count. rewrite <- !size_dom. apply inj_le, subseteq_size.
  intros k. rewrite !elem_of_dom. intros [v [? _]%map_lookup_filter_Some]. eauto.
Qed.

Lemma count_insert m k v :
  m !! k = None → count f (<[k := v]> m) = (Z.b2z (bool_decide (f v)) + count f m)%Z.
Proof.
  intros Hk. unfold count. destruct (bool_decide_reflect (f v)) as [Hf|Hf].
  - rewrite map_filter_insert_True, map_size_insert_None by
      (done || (apply map_lookup_filter_None; by left)). simpl. lia.
  - rewrite map_filter_insert_not' by (done || (intros ??; by simplify_eq)). simpl. lia.
Qed.

Lemma count_delete m k v :
  m !! k = Some v → count f m = (Z.b2z (bool_decide (f v)) + count f (delete k m))%Z.
Proof.
  intros Hk. rewrite <- (insert_delete_id m k v) at 1 by done.
  apply count_insert, lookup_delete_eq.
Qed.

Lemma count_update m k v v' :
  m !! k = Some v →
  count f (<[k := v']> m) =
    (count f m - Z.b2z (bool_decide (f v)) + Z.b2z (bool_decide (f v')))%Z.
Proof.
  intros Hk. rewrite (count_delete m k v) by done. rewrite <- insert_delete_eq.
  rewrite count_insert by apply lookup_delete_eq. lia.
Qed.

Lemma count_zero m : (∀ k v, m !! k = Some v → ¬ f v) → count f m = 0%Z.
Proof.
  intros Hm. unfold count. replace (filter _ m) with (∅ : gmap positive V); [by rewrite map_size_empty|]. symmetry. apply map_empty. intros k. apply map_lookup_filter_None. right.
  intros v Hk. by eapply Hm.
Qed.

Lemma count_pos m k v : m !! k = Some v → f v → (0 < count f m)%Z.
Proof.
  intros Hk Hf. rewrite (count_delete m k v) by done.
  pose proof (count_nonneg (delete k m)). rewrite bool_decide_eq_true_2 by done. simpl. lia.
Qed.

Lemma count_same_but e m m' :
  (∀ v v', e v' = e v → f v ↔ f v') → same_but e m m' → count f m' = count f m.
Proof.
  intros He Hm. unfold count. f_equal. rewrite <- !size_dom. f_equal. apply set_eq. intros k.
  rewrite !elem_of_dom. unfold is_Some. setoid_rewrite map_lookup_filter_Some. split.
  - intros (v' & Hk & Hf). destruct (same_but_lookup_inv _ _ _ _ _ Hm Hk) as (v & ? & ?).
    exists v. split; [done|]. by apply (He v v').
  - intros (v & Hk & Hf). destruct (same_but_lookup _ _ _ _ _ Hm Hk) as (v' & ? & ?).
    exists v'. split; [done|]. by apply (He v v').
Qed.
End count.

(** * Adding up the entries of a map *)

Definition total {V} (f : V → Z) (m : gmap positive V) : Z :=
  map_fold (λ _ v n, (f v + n)%Z) 0%Z m.

Section total.
Context {V : Type} (f : V → Z).
Implicit Types (m : gmap positive V) (k : positive) (v : V).

Lemma total_insert m k v : m !! k = None → total f (<[k := v]> m) = (f v + total f m)%Z.
Proof. intros Hk. unfold total. apply (map_fold_insert_L (λ _ v n, (f v + n)%Z)); [intros; lia|done]. Qed.
Lemma total_delete m k v : m !! k = Some v → total f m = (f v + total f (delete k m))%Z.
Proof.
  intros Hk. rewrite <- (insert_delete_id m k v) at 1 by done. apply total_insert, lookup_delete_eq.
Qed.
Lemma total_update m k v v' : m !! k = Some v → total f (<[k := v']> m) = (total f m - f v + f v')%Z.
Proof.
  intros Hk. rewrite (total_delete m k v) by done. rewrite <- insert_delete_eq.
  rewrite total_insert by apply lookup_delete_eq. lia.
Qed.
Lemma total_size m n : (∀ v, (n <= f v)%Z) → (n * Z.of_nat (size m) <= total f m)%Z.
Proof.
  intros Hf. induction m as [|k v m Hk IH] using map_ind.
  - rewrite map_size_empty. unfold total. rewrite map_fold_empty. lia.
  - rewrite total_insert, map_size_insert_None by done. specialize (Hf v). lia.
Qed.
Lemma total_same_but e m m' :
  (∀ v v', e v' = e v → f v' = f v) → same_but e m m' → total f m' = total f m.
Proof.
  intros He. revert m'. induction m as [|k v m Hk IH] using map_ind; intros m' Hm; unfold same_but in Hm.
  - rewrite fmap_empty in Hm. apply fmap_empty_inv in Hm. by subst.
  - rewrite fmap_insert in Hm. pose proof (f_equal (lookup k) Hm) as Hk'. rewrite lookup_fmap, lookup_insert_eq in Hk'.
    destruct (m' !! k) as [v'|] eqn:Hv'; simpl in Hk'; [|done]. apply (inj Some) in Hk'.
    rewrite (total_delete m' k v'), (total_insert m k v) by done. rewrite (He v v' Hk'). f_equal.
    apply IH. unfold same_but. rewrite fmap_delete, Hm, delete_insert_id; [done|]. by rewrite lookup_fmap, Hk.
Qed.
End total.
