(* ===== verification/Heap.v ===== *)
(** The binary heap of [heap.c].

    A heap stores pointers; the order is the callback [less] and every move of
    an element is reported through the callback [setpos], which writes the new
    index into the element itself.  Both callbacks work on a store [E] that is
    threaded through the operations.  [heapinsert] and [heapremove] return
    [None] only when they would read outside the initialised part of the
    array; the theorems show that they never do. *)
From S2P Require Import Prelude.

(** ** Data *)

Record heap_ops (E X : Type) := HeapOps {
  less_fn : E → X → X → bool;
  setpos_fn : X → nat → E → E;
}.
Arguments HeapOps {E X} _ _.
Arguments less_fn {E X} _ _ _ _.
Arguments setpos_fn {E X} _ _ _ _.

(** [struct Heap]; [h_data] is the initialised prefix of the array, which may
    be longer than [h_len] after a removal. *)
Record Heap (X : Type) := mkHeap {
  h_cap : nat;
  h_len : nat;
  h_data : list X;
}.
Arguments mkHeap {X} _ _ _.
Arguments h_cap {X} _.
Arguments h_len {X} _.
Arguments h_data {X} _.
#[export] Instance Heap_settable X : Settable (Heap X) :=
  fun h => mkHeap (h_cap h) (h_len h) (h_data h).
#[export] Instance set_h_cap X : Setter (@h_cap X) := ltac:(solve_setter).
#[export] Instance set_h_len X : Setter (@h_len X) := ltac:(solve_setter).
#[export] Instance set_h_data X : Setter (@h_data X) := ltac:(solve_setter).

Definition heap_empty {X} : Heap X := mkHeap 0 0 [].

(** The elements of the heap, without the stale slots. *)
Definition elems {X} (h : Heap X) : list X := take (h_len h) (h_data h).

Definition parent (k : nat) : nat := (k - 1) / 2.

(** ** Operations *)
Section operations.
Context {E X : Type} (ops : heap_ops E X).

Definition set (k : nat) (x : X) (hs : Heap X * E) : Heap X * E :=
  (hs.1 <| h_data ::= arr_set k x |>, setpos_fn ops x k hs.2).

Definition swap (a b : nat) (hs : Heap X * E) : option (Heap X * E) :=
  tmp ← h_data hs.1 !! a;
  y ← h_data hs.1 !! b;
  Some (set b tmp (set a y hs)).

Definition less (hs : Heap X * E) (a b : nat) : option bool :=
  x ← h_data hs.1 !! a;
  y ← h_data hs.1 !! b;
  Some (less_fn ops hs.2 x y).

Fixpoint siftdown_loop (fuel k : nat) (hs : Heap X * E) : option (Heap X * E) :=
  match fuel with
  | O => None
  | S fuel =>
      let p := parent k in
      if k =? 0 then Some hs
      else
        b ← less hs p k;
        if b : bool then Some hs
        else hs ← swap k p hs; siftdown_loop fuel p hs
  end.

Definition siftdown (k : nat) (hs : Heap X * E) : option (Heap X * E) :=
  siftdown_loop (S k) k hs.

(** [if (c < h->len && less(h, c, s)) s = c;] *)
Definition smaller (hs : Heap X * E) (c s : nat) : option nat :=
  if c <? h_len hs.1 then
    b ← less hs c s; Some (if b : bool then c else s)
  else Some s.

Fixpoint siftup_loop (fuel k : nat) (hs : Heap X * E) : option (Heap X * E) :=
  match fuel with
  | O => None
  | S fuel =>
      let l := k * 2 + 1 in
      let r := k * 2 + 2 in
      s ← smaller hs l k;
      s ← smaller hs r s;
      if s =? k then Some hs
      else hs ← swap k s hs; siftup_loop fuel s hs
  end.

Definition siftup (k : nat) (hs : Heap X * E) : option (Heap X * E) :=
  siftup_loop (S (h_len hs.1)) k hs.

(** [grow_ok] is the outcome of [malloc], consulted when the array is full.
    The result is 1 ([true]) on success. *)
Definition heapinsert (grow_ok : bool) (x : X) (hs : Heap X * E)
    : option (bool * (Heap X * E)) :=
  let '(h, e) := hs in
  if (h_len h =? h_cap h) && negb grow_ok then Some (false, (h, e))
  else
    let h := if h_len h =? h_cap h
             then h <| h_data := take (h_len h) (h_data h) |>
                    <| h_cap := (h_len h + 1) * 2 |>
             else h in
    let k := h_len h in
    let h := h <| h_len ::= S |> in
    hs ← siftdown k (set k x (h, e));
    Some (true, hs).

(** [None] as the first component is the NULL of an index out of range. *)
Definition heapremove (k : nat) (hs : Heap X * E)
    : option (option X * (Heap X * E)) :=
  let '(h, e) := hs in
  if h_len h <=? k then Some (None, (h, e))
  else
    x ← h_data h !! k;
    let h := h <| h_len ::= pred |> in
    y ← h_data h !! h_len h;
    hs ← siftdown k (set k y (h, e));
    hs ← siftup k hs;
    Some (Some x, hs).
End operations.

(** ** Specification *)

(** What the callbacks promise: [hpos e x] is the index recorded in [x], [None]
    when [x] is not a live object of the store. *)
Class HeapLaws {E X : Type} (ops : heap_ops E X) (hpos : E → X → option nat) := {
  setpos_less x k e a b : less_fn ops (setpos_fn ops x k e) a b = less_fn ops e a b;
  setpos_same x k e : is_Some (hpos e x) → hpos (setpos_fn ops x k e) x = Some k;
  setpos_other x y k e : x ≠ y → hpos (setpos_fn ops x k e) y = hpos e y;
}.

(** [less] is a strict weak order on the elements satisfying [P]. *)
Record weak_order {X} (P : X → Prop) (lt : X → X → bool) : Prop := {
  wo_asym a b : P a → P b → lt a b = true → lt b a = false;
  wo_trans a b c : P a → P b → P c → lt b a = false → lt c b = false → lt c a = false;
}.

(** In addition two elements that are not ordered are equal. *)
Record total_order {X} (P : X → Prop) (lt : X → X → bool) : Prop := {
  to_weak : weak_order P lt;
  to_tri a b : P a → P b → lt a b = false → lt b a = false → a = b;
}.

Lemma weak_order_mono {X} (P Q : X → Prop) lt :
  (∀ x, Q x → P x) → weak_order P lt → weak_order Q lt.
Proof. intros H [Ha Ht]. split; eauto. Qed.

Lemma total_order_mono {X} (P Q : X → Prop) lt :
  (∀ x, Q x → P x) → total_order P lt → total_order Q lt.
Proof. intros H [Ha Ht]. split; eauto using weak_order_mono. Qed.

Definition edge {X} (lt : X → X → bool) (l : list X) (i : nat) : Prop :=
  ∀ a b, l !! parent i = Some a → l !! i = Some b → lt b a = false.

(** Every element is at least its parent. *)
Definition heap_ordered {X} (lt : X → X → bool) (l : list X) : Prop :=
  ∀ i, 0 < i → edge lt l i.

(** Each element records its own index. *)
Definition pos_ok {E X} (hpos : E → X → option nat) (l : list X) (e : E) : Prop :=
  ∀ i x, l !! i = Some x → hpos e x = Some i.

(** The store changed only by [setpos] calls on elements of [l]. *)
Definition setpos_steps {E X} (ops : heap_ops E X) (l : list X) : relation E :=
  rtc (λ e e', ∃ x k, x ∈ l ∧ e' = setpos_fn ops x k e).

Section list_heaps.
Context {X : Type} (lt : X → X → bool).
Implicit Types (l : list X) (i k c : nat).

(** Children of [k] against the parent of [k]. *)
Definition grand l k : Prop :=
  ∀ c a b, 0 < k → 0 < c → parent c = k →
    l !! parent k = Some a → l !! c = Some b → lt b a = false.

Definition hole_inv l k : Prop :=
  (∀ i, 0 < i → i ≠ k → parent i ≠ k → edge lt l i) ∧ grand l k.
Definition up_inv l k : Prop :=
  (∀ i, 0 < i → i ≠ k → edge lt l i) ∧ grand l k.
Definition down_inv l k : Prop :=
  (∀ i, 0 < i → parent i ≠ k → edge lt l i) ∧ grand l k.

Lemma parent_lt i : 0 < i → parent i < i.
Proof. unfold parent. intros. pose proof (Nat.Div0.div_le_upper_bound (i - 1) 2 (i - 1)). lia. Qed.

Lemma parent_cases i k : 0 < i → parent i = k → i = k * 2 + 1 ∨ i = k * 2 + 2.
Proof. unfold parent. intros ? <-. pose proof (Nat.div_mod_eq (i - 1) 2).
  pose proof (Nat.mod_upper_bound (i - 1) 2). lia. Qed.

Lemma parent_child1 k : parent (k * 2 + 1) = k.
Proof. unfold parent. replace (k * 2 + 1 - 1) with (k * 2) by lia.
  by apply Nat.div_mul. Qed.
Lemma parent_child2 k : parent (k * 2 + 2) = k.
Proof. unfold parent. replace (k * 2 + 2 - 1) with (1 + k * 2) by lia.
  by rewrite Nat.div_add. Qed.

Lemma ordered_grand l k :
  weak_order (λ x, x ∈ l) lt → heap_ordered lt l → grand l k.
Proof.
  intros Ho Hl c a b Hk Hc Hp Ha Hb. pose proof (parent_lt c Hc).
  destruct (lookup_lt_is_Some_2 l k) as [y Hy].
  { apply lookup_lt_Some in Hb. lia. }
  eapply (wo_trans _ _ Ho a y b); eauto using list_elem_of_lookup_2.
  - eapply (Hl k); eauto.
  - eapply (Hl c); eauto. by rewrite Hp.
Qed.

Lemma ordered_down_inv l k :
  weak_order (λ x, x ∈ l) lt → heap_ordered lt l → down_inv l k.
Proof. intros Ho Hl. split; [|by apply ordered_grand]. intros i ??. by apply Hl. Qed.

(** Replacing one element keeps every edge that does not touch it. *)
Lemma ordered_hole l k x :
  weak_order (λ x, x ∈ l) lt → heap_ordered lt l → hole_inv (<[k:=x]> l) k.
Proof.
  intros Ho Hl. split.
  - intros i Hi Hik Hpk a b. rewrite !list_lookup_insert_ne by done.
    apply (Hl i Hi).
  - intros c a b Hk Hc Hp. pose proof (parent_lt c Hc). pose proof (parent_lt k Hk).
    rewrite !list_lookup_insert_ne by lia. by apply ordered_grand.
Qed.

Lemma append_up_inv l x :
  heap_ordered lt l → up_inv (l ++ [x]) (length l).
Proof.
  intros Hl. split.
  - intros i Hi Hne a b Ha Hb. pose proof (parent_lt i Hi).
    apply lookup_lt_Some in Hb as Hlt. rewrite length_app in Hlt. simpl in Hlt.
    rewrite lookup_app_l in Ha, Hb by lia. by eapply (Hl i Hi).
  - intros c a b Hk Hc Hp Ha Hb. apply lookup_lt_Some in Hb as Hlt.
    rewrite length_app in Hlt. simpl in Hlt. pose proof (parent_lt c Hc). lia.
Qed.

Lemma up_inv_hole l k : up_inv l k → hole_inv l k.
Proof. intros [He Hg]. split; auto. Qed.

Lemma up_inv_ordered l k : up_inv l k → (0 < k → edge lt l k) → heap_ordered lt l.
Proof. intros [Hi _] He i ?. destruct (decide (i = k)); subst; auto. Qed.

(** Moving an element up past a parent that is not smaller. *)
Lemma up_step l k x y :
  weak_order (λ x, x ∈ l) lt → 0 < k → l !! k = Some x → l !! parent k = Some y →
  lt y x = false → hole_inv l k →
  up_inv (<[parent k:=x]> (<[k:=y]> l)) (parent k).
Proof.
  intros Ho Hk Hx Hy Hlt [He Hg]. pose proof (parent_lt k Hk) as Hpk.
  assert (∀ i z, l !! i = Some z → z ∈ l) as Hin by eauto using list_elem_of_lookup_2.
  split.
  - intros i Hi Hip a b. pose proof (parent_lt i Hi).
    rewrite !(lookup_swap l k (parent k) x y) by done.
    destruct (decide (i = parent k)) as [->|]; [done|].
    destruct (decide (i = k)) as [->|].
    { rewrite decide_True by done. intros ??; by simplify_eq. }
    destruct (decide (parent i = parent k)) as [Hpp|].
    { intros Ha Hb. simplify_eq.
      eapply (wo_trans _ _ Ho a y b); eauto.
      eapply (He i); eauto; [lia|by rewrite Hpp]. }
    destruct (decide (parent i = k)) as [Hpp|].
    { intros Ha Hb. simplify_eq. by eapply (Hg i). }
    by apply He.
  - intros c a b Hk' Hc Hp. pose proof (parent_lt _ Hk'). pose proof (parent_lt c Hc).
    rewrite !(lookup_swap l k (parent k) x y) by done.
    rewrite !decide_False by lia. intros Ha.
    assert (lt y a = false) as Hya.
    { eapply (He (parent k)); eauto; lia. }
    destruct (decide (c = k)) as [->|]; [by intros; simplify_eq|].
    intros Hb. eapply (wo_trans _ _ Ho a y b); eauto.
    eapply (He c); eauto; [lia|by rewrite Hp].
Qed.

(** Moving an element down below its smallest child [s]. *)
Lemma down_step l k s x y :
  weak_order (λ x, x ∈ l) lt → 0 < s → parent s = k →
  l !! k = Some x → l !! s = Some y → lt x y = false →
  (∀ c z, 0 < c → parent c = k → l !! c = Some z → lt z y = false) →
  down_inv l k → down_inv (<[s:=x]> (<[k:=y]> l)) s.
Proof.
  intros Ho Hs Hp Hx Hy Hlt Hmin [He Hg]. pose proof (parent_lt s Hs) as Hps.
  assert (∀ i z, l !! i = Some z → z ∈ l) as Hin by eauto using list_elem_of_lookup_2.
  split.
  - intros i Hi Hip a b. pose proof (parent_lt i Hi).
    rewrite !(lookup_swap l k s x y) by done.
    rewrite (decide_False (P := parent i = s)) by done.
    destruct (decide (i = s)) as [->|].
    { rewrite decide_True by done. intros ??; by simplify_eq. }
    destruct (decide (parent i = k)) as [Hpk|].
    { rewrite decide_False by lia. intros ??; simplify_eq. by eapply (Hmin i). }
    destruct (decide (i = k)) as [->|].
    { intros Ha Hb. simplify_eq. by eapply (Hg s). }
    by apply He.
  - intros c a b _ Hc Hps'. pose proof (parent_lt c Hc).
    rewrite !(lookup_swap l k s x y) by done. rewrite Hp.
    rewrite (decide_False (P := c = s)) by lia.
    rewrite (decide_False (P := c = k)) by lia.
    rewrite (decide_False (P := k = s)), decide_True by lia.
    intros Ha Hb. simplify_eq. eapply (He c); eauto; try lia; by rewrite Hps'.
Qed.
End list_heaps.

Section correctness.
Context {E X : Type} (ops : heap_ops E X) (hpos : E → X → option nat).
Context `{!HeapLaws ops hpos, !EqDecision X}.
Implicit Types (h : Heap X) (e : E) (L : list X).

(** The part of the state every step of an operation keeps: the heap holds
    the elements [L] of the heap [h0], each knows its index, and the store
    [e0] changed only by [setpos] calls. *)
Record heap_good (L : list X) (h0 : Heap X) (e0 : E) (hs : Heap X * E) : Prop := {
  hg_cap : h_cap hs.1 = h_cap h0;
  hg_len : h_len hs.1 = length L;
  hg_data : h_len hs.1 ≤ length (h_data hs.1);
  hg_perm : elems hs.1 ≡ₚ L;
  hg_pos : pos_ok hpos (elems hs.1) hs.2;
  hg_steps : setpos_steps ops L e0 hs.2;
}.

Lemma length_elems h : h_len h ≤ length (h_data h) → length (elems h) = h_len h.
Proof. intros. unfold elems. rewrite length_take. lia. Qed.

Lemma elems_lookup h i x : elems h !! i = Some x → h_data h !! i = Some x.
Proof. unfold elems. by intros [? _]%lookup_take_Some. Qed.

Lemma steps_less L e e' a b :
  setpos_steps ops L e e' → less_fn ops e' a b = less_fn ops e a b.
Proof.
  induction 1 as [|e1 e2 e3 (x & k & _ & ->) _ IH]; [done|].
  by rewrite IH, setpos_less.
Qed.

Lemma steps_trans L e1 e2 e3 :
  setpos_steps ops L e1 e2 → setpos_steps ops L e2 e3 → setpos_steps ops L e1 e3.
Proof. unfold setpos_steps. intros. by etrans. Qed.

Lemma steps_mono L L' e1 e2 :
  (∀ x, x ∈ L → x ∈ L') → setpos_steps ops L e1 e2 → setpos_steps ops L' e1 e2.
Proof.
  intros HL H. unfold setpos_steps. eapply rtc_subrel; [|exact H].
  intros ? ? (x & k & ? & ->). eauto.
Qed.

Lemma step_one L x k e : x ∈ L → setpos_steps ops L e (setpos_fn ops x k e).
Proof. intros. apply rtc_once. eauto. Qed.

(** Elements outside the heap keep their recorded index. *)
Lemma steps_other L e e' y :
  y ∉ L → setpos_steps ops L e e' → hpos e' y = hpos e y.
Proof.
  intros Hy. induction 1 as [|e1 e2 e3 (x & k & Hx & ->) _ IH]; [done|].
  rewrite IH. apply setpos_other. by intros ->.
Qed.

Lemma pos_ok_inj l e i j x :
  pos_ok hpos l e → l !! i = Some x → l !! j = Some x → i = j.
Proof. intros Hp Hi%Hp Hj%Hp. congruence. Qed.

Lemma less_good L h0 e0 hs i j x y :
  heap_good L h0 e0 hs → elems hs.1 !! i = Some x → elems hs.1 !! j = Some y →
  less ops hs i j = Some (less_fn ops e0 x y).
Proof.
  intros Hg Hi%elems_lookup Hj%elems_lookup. unfold less. rewrite Hi, Hj. simpl.
  f_equal. eapply steps_less, Hg.
Qed.

Lemma swap_good L h0 e0 hs i j x y :
  heap_good L h0 e0 hs → i ≠ j →
  elems hs.1 !! i = Some x → elems hs.1 !! j = Some y →
  ∃ hs', swap ops i j hs = Some hs' ∧ heap_good L h0 e0 hs' ∧
    elems hs'.1 = <[j:=x]> (<[i:=y]> (elems hs.1)).
Proof.
  intros [Hc Hl Hd Hp Hpos Hst] Hij Hi Hj. destruct hs as [h e]; simpl in *.
  assert (x ∈ L ∧ y ∈ L) as [HxL HyL].
  { split; rewrite <- Hp; eapply list_elem_of_lookup_2; eauto. }
  assert (x ≠ y) as Hxy by (intros ->; apply Hij; eapply pos_ok_inj; eauto).
  apply elems_lookup in Hi as Hi'. apply elems_lookup in Hj as Hj'.
  apply lookup_lt_Some in Hi as Hil, Hj as Hjl. rewrite length_elems in Hil, Hjl by done.
  eexists. unfold swap. simpl. rewrite Hi'; simpl. rewrite Hj'; simpl. split; [done|].
  assert (elems (h <| h_data ::= arr_set i y |> <| h_data ::= arr_set j x |>)
          = <[j:=x]> (<[i:=y]> (elems h))) as Hel.
  { unfold elems. rsimpl.
    rewrite take_arr_set_lt by (rewrite ?arr_set_lt, ?length_insert by lia; lia).
    by rewrite take_arr_set_lt by lia. }
  split; [|exact Hel]. split; simpl; rewrite ?Hel.
  - done.
  - done.
  - rsimpl. rewrite !arr_set_lt, !length_insert; rewrite ?arr_set_lt, ?length_insert; lia.
  - rewrite <- Hp. by apply Permutation_insert_swap.
  - intros k z. rewrite (lookup_swap _ i j x y) by done.
    apply Hpos in Hi as Hxp. apply Hpos in Hj as Hyp.
    destruct (decide (k = j)) as [->|]; [|destruct (decide (k = i)) as [->|]].
    + intros [= <-]. apply setpos_same. rewrite setpos_other by done. by rewrite Hxp.
    + intros [= <-]. rewrite setpos_other by done. apply setpos_same. by rewrite Hyp.
    + intros Hz. rewrite !setpos_other by (intros ->; eauto using pos_ok_inj). eauto.
  - eapply steps_trans; [exact Hst|]. eapply steps_trans; by apply step_one.
Qed.

(** [siftdown] moves the element up to its place. *)
Lemma siftdown_loop_good L h0 e0 fuel k hs :
  k < fuel → k < length L →
  weak_order (λ x, x ∈ L) (less_fn ops e0) →
  heap_good L h0 e0 hs → up_inv (less_fn ops e0) (elems hs.1) k →
  ∃ hs', siftdown_loop ops fuel k hs = Some hs' ∧ heap_good L h0 e0 hs' ∧
    heap_ordered (less_fn ops e0) (elems hs'.1).
Proof.
  revert k hs. induction fuel as [|fuel IH]; intros k hs Hf Hk Ho Hg Hi; [lia|].
  simpl. destruct (Nat.eqb_spec k 0) as [->|Hk0].
  { eexists; split_and!; eauto. eapply up_inv_ordered; eauto. lia. }
  pose proof (parent_lt k) as Hpk.
  assert (length (elems hs.1) = length L) as Hlen by (by rewrite (hg_perm _ _ _ _ Hg)).
  destruct (lookup_lt_is_Some_2 (elems hs.1) k) as [x Hx]; [lia|].
  destruct (lookup_lt_is_Some_2 (elems hs.1) (parent k)) as [y Hy]; [lia|].
  rewrite (less_good L h0 e0 hs (parent k) k y x) by done. simpl.
  assert (∀ z, z ∈ elems hs.1 ↔ z ∈ L) as Hin.
  { intros z. by rewrite (hg_perm _ _ _ _ Hg). }
  destruct (less_fn ops e0 y x) eqn:Hlt.
  - eexists; split_and!; eauto. eapply up_inv_ordered; eauto.
    intros _ a b Ha Hb. simplify_eq.
    eapply (wo_asym _ _ Ho); eauto; apply Hin; eauto using list_elem_of_lookup_2.
  - destruct (swap_good L h0 e0 hs k (parent k) x y) as (hs' & -> & Hg' & Hel);
      [done|lia|done|done|]. simpl.
    apply IH; [lia|lia|done|done|]. rewrite Hel.
    apply up_step; auto using up_inv_hole; [|lia].
    eapply weak_order_mono; [|exact Ho]. intros z. by rewrite Hin.
Qed.

Lemma smaller_good L h0 e0 hs c s y :
  heap_good L h0 e0 hs → elems hs.1 !! s = Some y →
  smaller ops hs c s = Some (match elems hs.1 !! c with
                             | Some z => if less_fn ops e0 z y then c else s
                             | None => s
                             end).
Proof.
  intros Hg Hs. unfold smaller.
  assert (length (elems hs.1) = h_len hs.1) as Hlen.
  { apply length_elems, Hg. }
  destruct (Nat.ltb_spec c (h_len hs.1)).
  - destruct (lookup_lt_is_Some_2 (elems hs.1) c) as [z Hz]; [lia|].
    rewrite (less_good L h0 e0 hs c s z y) by done. simpl. by rewrite Hz.
  - by rewrite lookup_ge_None_2 by lia.
Qed.

(** One comparison of [siftup]: the smaller of [s] and [c]. *)
Lemma pick_smaller lt (l : list X) c s y :
  weak_order (λ x, x ∈ l) lt → l !! s = Some y →
  let s' := match l !! c with
            | Some z => if lt z y : bool then c else s
            | None => s
            end in
  ∃ y', l !! s' = Some y' ∧ (s' = s ∧ y' = y ∨ s' = c ∧ s' ≠ s) ∧
    lt y y' = false ∧ ∀ z, l !! c = Some z → lt z y' = false.
Proof.
  intros Ho Hs s'. pose proof (list_elem_of_lookup_2 _ _ _ Hs) as Hsl.
  assert (∀ a, a ∈ l → lt a a = false) as Hirr.
  { intros a Ha. destruct (lt a a) eqn:Haa; [|done].
    rewrite <- Haa. eapply (wo_asym _ _ Ho); eauto. }
  subst s'. destruct (l !! c) as [z|] eqn:Hc.
  2:{ exists y; split_and!; eauto. naive_solver. }
  pose proof (list_elem_of_lookup_2 _ _ _ Hc) as Hcl.
  destruct (lt z y) eqn:Hzy.
  - exists z; split_and!; eauto; [|by eapply (wo_asym _ _ Ho)|naive_solver].
    right; split; [done|]. intros ->. simplify_eq. by rewrite Hirr in Hzy.
  - exists y; split_and!; eauto. naive_solver.
Qed.

(** [siftup] moves the element down to its place. *)
Lemma siftup_loop_good L h0 e0 fuel k hs :
  length L < k + fuel → k < length L →
  weak_order (λ x, x ∈ L) (less_fn ops e0) →
  heap_good L h0 e0 hs → down_inv (less_fn ops e0) (elems hs.1) k →
  ∃ hs', siftup_loop ops fuel k hs = Some hs' ∧ heap_good L h0 e0 hs' ∧
    heap_ordered (less_fn ops e0) (elems hs'.1).
Proof.
  revert k hs. induction fuel as [|fuel IH]; intros k hs Hf Hk Ho Hg Hi; [lia|].
  cbn [siftup_loop].
  assert (length (elems hs.1) = length L) as Hlen by (by rewrite (hg_perm _ _ _ _ Hg)).
  assert (weak_order (λ x, x ∈ elems hs.1) (less_fn ops e0)) as Ho'.
  { eapply weak_order_mono; [|exact Ho]. intros z. by rewrite (hg_perm _ _ _ _ Hg). }
  destruct (lookup_lt_is_Some_2 (elems hs.1) k) as [x Hx]; [lia|].
  rewrite (smaller_good L h0 e0 hs (k * 2 + 1) k x) by done. simpl.
  destruct (pick_smaller _ _ (k * 2 + 1) k x Ho' Hx) as (y1 & Hy1 & Hs1 & Hx1 & Hm1).
  revert Hy1 Hs1. generalize (match elems hs.1 !! (k * 2 + 1) with
    | Some z => if less_fn ops e0 z x then k * 2 + 1 else k | None => k end).
  intros s1 Hy1 Hs1.
  rewrite (smaller_good L h0 e0 hs (k * 2 + 2) s1 y1) by done. simpl.
  destruct (pick_smaller _ _ (k * 2 + 2) s1 y1 Ho' Hy1) as (y2 & Hy2 & Hs2 & Hx2 & Hm2).
  revert Hy2 Hs2. generalize (match elems hs.1 !! (k * 2 + 2) with
    | Some z => if less_fn ops e0 z y1 then k * 2 + 2 else s1 | None => s1 end).
  intros s2 Hy2 Hs2.
  assert (∀ i z, elems hs.1 !! i = Some z → z ∈ elems hs.1) as Hin
    by eauto using list_elem_of_lookup_2.
  assert (∀ c z, 0 < c → parent c = k → elems hs.1 !! c = Some z →
    less_fn ops e0 z y2 = false) as Hmin.
  { intros c z Hc Hpc Hz. destruct (parent_cases c k) as [->| ->]; auto.
    eapply (wo_trans _ _ Ho' y2 y1 z); eauto. }
  destruct (Nat.eqb_spec s2 k) as [->|Hne].
  - eexists; split_and!; eauto. intros i Hi0.
    destruct (decide (parent i = k)) as [Hpi|]; [|by apply Hi].
    intros a b Ha Hb. rewrite Hpi in Ha. simplify_eq. by eapply Hmin.
  - assert (parent s2 = k ∧ k < s2) as [Hp2 Hks].
    { destruct Hs2 as [[-> ->]|[-> _]]; [destruct Hs1 as [[-> _]|[-> _]]|];
        auto using parent_child1, parent_child2 with lia. }
    destruct (swap_good L h0 e0 hs k s2 x y2) as (hs' & -> & Hg' & Hel);
      [done|lia|done|done|]. simpl.
    apply lookup_lt_Some in Hy2 as ?.
    apply IH; [lia|lia|done|done|]. rewrite Hel.
    eapply down_step; eauto; [lia|]. eapply (wo_trans _ _ Ho' y2 y1 x); eauto.
Qed.

(** ** The invariant of a heap and the two operations *)

Record heap_wf (h : Heap X) (e : E) : Prop := {
  hw_data : h_len h ≤ length (h_data h);
  hw_cap : h_len h ≤ h_cap h;
  hw_pos : pos_ok hpos (elems h) e;
  hw_ord : heap_ordered (less_fn ops e) (elems h);
}.

Lemma heap_empty_wf e : heap_wf heap_empty e.
Proof. by split. Qed.

Lemma pos_ok_NoDup l e : pos_ok hpos l e → NoDup l.
Proof. intros Hp. apply NoDup_alt. eauto using pos_ok_inj. Qed.

Lemma heap_ordered_ext lt lt' (l : list X) :
  (∀ a b, lt a b = lt' a b) → heap_ordered lt l → heap_ordered lt' l.
Proof. intros H Ho i Hi a b. rewrite <- H. by apply Ho. Qed.

Lemma weak_order_ext lt lt' (P : X → Prop) :
  (∀ a b, lt a b = lt' a b) → weak_order P lt → weak_order P lt'.
Proof. intros H [Ha Ht]. split; intros *; rewrite <- ?H; eauto. Qed.

Lemma heap_good_wf L h0 e0 hs :
  heap_good L h0 e0 hs → length L ≤ h_cap h0 →
  heap_ordered (less_fn ops e0) (elems hs.1) → heap_wf hs.1 hs.2.
Proof.
  intros [Hc Hl Hd Hp Hpos Hst] Hcap Ho. split; [done|lia|done|].
  eapply heap_ordered_ext; [|exact Ho]. intros. symmetry. by eapply steps_less.
Qed.

(** A store step outside the heap keeps it well formed. *)
Lemma heap_wf_steps L h e e' :
  (∀ x, x ∈ L → x ∉ elems h) → setpos_steps ops L e e' → heap_wf h e → heap_wf h e'.
Proof.
  intros HL Hst [Hd Hc Hp Ho]. split; auto.
  - intros i x Hi. rewrite (steps_other L e); eauto.
    intros ?. eapply HL; eauto using list_elem_of_lookup_2.
  - eapply heap_ordered_ext; [|exact Ho]. intros. symmetry. by eapply steps_less.
Qed.

Lemma insert_good h e x (h1 := h <| h_len ::= S |>) :
  h_len h ≤ length (h_data h) → pos_ok hpos (elems h) e →
  x ∉ elems h → is_Some (hpos e x) →
  let hs := set ops (h_len h) x (h1, e) in
  elems hs.1 = elems h ++ [x] ∧
  heap_good (elems h ++ [x]) h (setpos_fn ops x (h_len h) e) hs.
Proof.
  intros Hd Hp Hx Hs hs.
  assert (elems hs.1 = elems h ++ [x]) as Hel.
  { unfold elems, hs, set, h1; simpl; rsimpl. by apply take_arr_set_end. }
  split; [done|].
  split; rewrite ?Hel; unfold hs, set, h1; simpl; rsimpl; try done.
  - rewrite length_app, length_elems by done. simpl. lia.
  - by apply length_arr_set_end.
  - intros i z [Hz|(Hi & Hz)]%lookup_app_Some.
    + rewrite setpos_other; [by apply Hp|]. intros ->.
      eauto using list_elem_of_lookup_2.
    + rewrite length_elems in Hi, Hz by done.
      apply list_lookup_singleton_Some in Hz as [? <-].
      rewrite setpos_same by done. f_equal. lia.
Qed.

Lemma heapinsert_good h e x grow_ok :
  heap_wf h e → x ∉ elems h → is_Some (hpos e x) →
  weak_order (λ y, y ∈ x :: elems h) (less_fn ops e) →
  (h_len h = h_cap h → grow_ok = true) →
  ∃ h' e', heapinsert ops grow_ok x (h, e) = Some (true, (h', e')) ∧
    heap_wf h' e' ∧ elems h' ≡ₚ x :: elems h ∧ setpos_steps ops (x :: elems h) e e'.
Proof.
  intros [Hd Hc Hp Ho] Hx Hs Hw Hgrow. unfold heapinsert.
  set (h1 := if _ =? _ then _ else h).
  assert (elems h1 = elems h ∧ h_len h1 = h_len h ∧ h_len h1 < h_cap h1 ∧
          h_len h1 ≤ length (h_data h1)) as (Hel & Hlen & Hcap & Hd1).
  { unfold h1, elems. destruct (Nat.eqb_spec (h_len h) (h_cap h)); rsimpl; [|split_and!; auto; lia].
    split_and!; try done; try lia; rewrite ?take_take, ?length_take; [f_equal; lia|lia]. }
  replace (_ && _) with false.
  2:{ destruct (Nat.eqb_spec (h_len h) (h_cap h)); simpl; [by rewrite Hgrow|done]. }
  destruct (insert_good h1 e x) as [Hel2 Hg]; [done|by rewrite Hel..|done|].
  rewrite Hel in Hel2, Hg.
  set (hs := set ops (h_len h1) x (h1 <| h_len ::= S |>, e)) in *.
  set (e1 := setpos_fn ops x (h_len h1) e) in *.
  assert (∀ a b, less_fn ops e a b = less_fn ops e1 a b) as Hext.
  { intros. unfold e1. by rewrite setpos_less. }
  destruct (siftdown_loop_good (elems h ++ [x]) h1 e1 (S (h_len h1)) (h_len h1) hs) as (hs' & Heq & Hg' & Ho'); eauto.
  - rewrite length_app, length_elems by done. simpl. lia.
  - eapply weak_order_ext; [exact Hext|]. eapply weak_order_mono; [|exact Hw]. set_solver.
  - rewrite Hel2, Hlen, <- (length_elems h) by done. apply append_up_inv.
    eapply heap_ordered_ext; [exact Hext|done].
  - exists hs'.1, hs'.2. split.
    { unfold siftdown. rewrite Heq. simpl. by destruct hs'. }
    split; [|split].
    + eapply heap_good_wf; eauto. rewrite length_app, length_elems by done. simpl. lia.
    + rewrite (hg_perm _ _ _ _ Hg'). by rewrite Permutation_app_comm.
    + eapply steps_trans; [apply (step_one _ x); set_solver|].
      eapply steps_mono; [|apply Hg']. set_solver.
Qed.

(** Removing an inner element puts the last one in its place. *)
Lemma remove_good h e k x y (h1 := h <| h_len ::= pred |>) :
  heap_wf h e → k < h_len h1 → elems h !! k = Some x →
  h_data h !! h_len h1 = Some y →
  let hs := set ops k y (h1, e) in
  elems hs.1 = <[k:=y]> (elems h1) ∧ x :: elems hs.1 ≡ₚ elems h ∧
  heap_good (elems hs.1) h (setpos_fn ops y k e) hs.
Proof.
  intros [Hd Hc Hp Ho] Hk Hx Hy hs. unfold h1 in *. rsimpl.
  assert (elems hs.1 = <[k:=y]> (elems h1)) as Hel.
  { unfold elems, hs, set; simpl; rsimpl. apply take_arr_set_lt; rsimpl; lia. }
  assert (elems h = elems h1 ++ [y]) as Hsplit.
  { unfold elems, h1. rsimpl. replace (h_len h) with (S (pred (h_len h))) at 1 by lia.
    by erewrite take_S_r. }
  assert (length (elems h1) = pred (h_len h)) as Hl1.
  { unfold elems, h1; rsimpl. rewrite length_take. lia. }
  rewrite Hsplit in Hx. rewrite lookup_app_l in Hx by lia.
  assert (x :: elems hs.1 ≡ₚ elems h) as Hperm.
  { rewrite Hel, Hsplit. rewrite insert_take_drop by lia.
    rewrite <- (take_drop_middle (elems h1) k x) at 3 by done. solve_Permutation. }
  split_and!; [done|done|].
  assert (pos_ok hpos (elems h1) e) as Hp1.
  { intros i z Hi. apply Hp. rewrite Hsplit. by apply lookup_app_l_Some. }
  split; try done.
  - rewrite Hel, length_insert, Hl1. done.
  - unfold hs, set; simpl; rsimpl. rewrite arr_set_lt, length_insert; lia.
  - rewrite Hel. intros i z Hi. destruct (decide (i = k)) as [->|Hne].
    + rewrite list_lookup_insert_eq in Hi by lia. simplify_eq.
      apply setpos_same. rewrite (Hp (pred (h_len h))); [done|].
      rewrite Hsplit. apply list_lookup_middle. lia.
    + rewrite list_lookup_insert_ne in Hi by done.
      unfold hs, set; simpl. rewrite setpos_other; [by apply Hp1|].
      intros ->. apply lookup_lt_Some in Hi as ?.
      assert (i = length (elems h1)); [|lia].
      apply (pos_ok_inj _ e i (length (elems h1)) z Hp); rewrite Hsplit.
      * by apply lookup_app_l_Some.
      * by apply list_lookup_middle.
Qed.

(** [siftdown] then [siftup] repair a heap whose element [k] is arbitrary. *)
Lemma sift_hole L h0 e0 k hs :
  k < length L → weak_order (λ x, x ∈ L) (less_fn ops e0) →
  heap_good L h0 e0 hs → hole_inv (less_fn ops e0) (elems hs.1) k →
  ∃ hs1 hs2, siftdown ops k hs = Some hs1 ∧ siftup ops k hs1 = Some hs2 ∧
    heap_good L h0 e0 hs2 ∧ heap_ordered (less_fn ops e0) (elems hs2.1).
Proof.
  intros Hk Ho Hg [He Hgr].
  assert (length (elems hs.1) = length L) as Hlen by (by rewrite (hg_perm _ _ _ _ Hg)).
  assert (∀ hs1, heap_good L h0 e0 hs1 → weak_order (λ z, z ∈ elems hs1.1) (less_fn ops e0)) as Hw.
  { intros hs1 Hg1. eapply weak_order_mono; [|exact Ho].
    intros z. by rewrite (hg_perm _ _ _ _ Hg1). }
  assert (∀ hs1, heap_good L h0 e0 hs1 → down_inv (less_fn ops e0) (elems hs1.1) k →
    ∃ hs2, siftup ops k hs1 = Some hs2 ∧ heap_good L h0 e0 hs2 ∧
      heap_ordered (less_fn ops e0) (elems hs2.1)) as Hup.
  { intros hs1 Hg1 Hi. apply siftup_loop_good; auto. rewrite (hg_len _ _ _ _ Hg1). lia. }
  unfold siftdown. cbn [siftdown_loop]. destruct (Nat.eqb_spec k 0) as [->|Hk0].
  { destruct (Hup hs) as (hs2 & ? & ? & ?); eauto 10.
    split; [|done]. intros i ??. apply He; auto; lia. }
  pose proof (parent_lt k) as Hpk.
  destruct (lookup_lt_is_Some_2 (elems hs.1) k) as [x Hx]; [lia|].
  destruct (lookup_lt_is_Some_2 (elems hs.1) (parent k)) as [y Hy]; [lia|].
  rewrite (less_good L h0 e0 hs (parent k) k y x) by done. cbn [mbind option_bind].
  destruct (less_fn ops e0 y x) eqn:Hlt.
  - destruct (Hup hs) as (hs2 & ? & ? & ?); eauto 10. split; [|done].
    intros i Hi Hpi. destruct (decide (i = k)) as [->|]; [|by apply He].
    intros a b ??. simplify_eq.
    eapply (wo_asym _ _ (Hw _ Hg)); eauto using list_elem_of_lookup_2.
  - destruct (swap_good L h0 e0 hs k (parent k) x y) as (hs' & -> & Hg' & Hel);
      [done|lia|done|done|]. cbn [mbind option_bind].
    destruct (siftdown_loop_good L h0 e0 k (parent k) hs') as (hs1 & ? & Hg1 & Ho1);
      auto; [lia|lia|rewrite Hel; apply up_step; auto; [lia|by split]|].
    destruct (Hup hs1) as (hs2 & ? & ? & ?); eauto 10 using ordered_down_inv.
Qed.

(** [parent k] is smaller than [k]: the comparison that stops [siftdown]. *)
Definition parent_less h e k : Prop :=
  ∀ a b, 0 < k → elems h !! parent k = Some a → elems h !! k = Some b →
    less_fn ops e a b = true.

Lemma total_parent_less h e k :
  heap_wf h e → total_order (λ x, x ∈ elems h) (less_fn ops e) → parent_less h e k.
Proof.
  intros Hwf Ht a b Hk Ha Hb. pose proof (hw_ord _ _ Hwf k Hk a b Ha Hb) as Hba.
  destruct (less_fn ops e a b) eqn:Hab; [done|].
  assert (a = b) as ->.
  { eapply (to_tri _ _ Ht); eauto using list_elem_of_lookup_2. }
  pose proof (parent_lt k Hk).
  assert (parent k = k); [|lia]. eapply pos_ok_inj; eauto using hw_pos.
Qed.

Lemma heapremove_inner h e k x :
  heap_wf h e → elems h !! k = Some x → S k < h_len h →
  weak_order (λ y, y ∈ elems h) (less_fn ops e) →
  ∃ h' e', heapremove ops k (h, e) = Some (Some x, (h', e')) ∧
    heap_wf h' e' ∧ x :: elems h' ≡ₚ elems h ∧ setpos_steps ops (elems h) e e'.
Proof.
  intros Hwf Hx Hk Hw. pose proof Hwf as [Hd Hc Hp Ho]. unfold heapremove.
  destruct (Nat.leb_spec (h_len h) k); [lia|].
  rewrite (elems_lookup _ _ _ Hx). cbn [mbind option_bind].
  set (h1 := h <| h_len ::= pred |>).
  destruct (lookup_lt_is_Some_2 (h_data h) (h_len h1)) as [y Hy]; [subst h1; rsimpl; lia|].
  change (h_data h1) with (h_data h). rewrite Hy. cbn [mbind option_bind].
  destruct (remove_good h e k x y Hwf) as (Hel & Hperm & Hg); auto; [subst h1; rsimpl; lia|].
  fold h1 in Hel, Hg, Hperm. set (hs := set ops k y (h1, e)) in *.
  set (L := elems hs.1) in *. set (e1 := setpos_fn ops y k e) in *.
  assert (∀ a b, less_fn ops e a b = less_fn ops e1 a b) as Hext.
  { intros. unfold e1. by rewrite setpos_less. }
  assert (weak_order (λ z, z ∈ L) (less_fn ops e1)) as Hw1.
  { eapply weak_order_ext; [exact Hext|]. eapply weak_order_mono; [|exact Hw].
    intros z Hz. cbv beta. rewrite <- Hperm. by right. }
  assert (y ∈ elems h ∧ ∀ z, z ∈ L → z ∈ elems h) as [Hyl HL].
  { split; [|intros z Hz; rewrite <- Hperm; by right].
    apply (list_elem_of_lookup_2 _ (h_len h1)). unfold elems, h1; rsimpl.
    rewrite lookup_take_lt by lia. done. }
  assert (k < length L) as HkL.
  { rewrite <- (hg_len _ _ _ _ Hg). unfold hs, h1; simpl; rsimpl. lia. }
  assert (hole_inv (less_fn ops e1) L k) as Hhole.
  { rewrite Hel. apply ordered_hole.
    - eapply weak_order_ext; [exact Hext|]. eapply weak_order_mono; [|exact Hw].
      unfold elems, h1; rsimpl. intros z. apply elem_of_take_le. lia.
    - eapply heap_ordered_ext; [exact Hext|]. intros i Hi a b Ha Hb.
      unfold elems, h1 in Ha, Hb. rsimpl.
      apply (Ho i Hi); (eapply lookup_take_le; [|eassumption]; lia). }
  destruct (sift_hole L h e1 k hs) as (hs1 & hs2 & -> & Heq & Hg2 & Ho2); auto.
  cbn [mbind option_bind]. rewrite Heq. cbn [mbind option_bind].
  exists hs2.1, hs2.2. split; [by destruct hs2|]. split; [|split].
  - eapply heap_good_wf; eauto. rewrite <- (hg_len _ _ _ _ Hg).
    unfold hs, h1; simpl; rsimpl. lia.
  - rewrite <- Hperm. f_equiv. apply Hg2.
  - eapply steps_trans; [by apply (step_one _ y)|]. eapply steps_mono; [exact HL|apply Hg2].
Qed.

(** Removing the last element moves nothing, provided the comparison with
    its parent stops [siftdown]. *)
Lemma heapremove_last h e k x :
  heap_wf h e → elems h !! k = Some x → S k = h_len h → parent_less h e k →
  ∃ h' e', heapremove ops k (h, e) = Some (Some x, (h', e')) ∧
    heap_wf h' e' ∧ x :: elems h' ≡ₚ elems h ∧ setpos_steps ops (elems h) e e'.
Proof.
  intros [Hd Hc Hp Ho] Hx Hk Hpl. unfold heapremove.
  destruct (Nat.leb_spec (h_len h) k); [lia|].
  rewrite (elems_lookup _ _ _ Hx). cbn [mbind option_bind].
  set (h1 := h <| h_len ::= pred |>).
  assert (h_len h1 = k) as Hl1 by (subst h1; rsimpl; lia). rewrite Hl1.
  change (h_data h1) with (h_data h).
  rewrite (elems_lookup _ _ _ Hx). cbn [mbind option_bind].
  set (e1 := setpos_fn ops x k e).
  set (hs := set ops k x (h1, e)).
  assert (h_data hs.1 = h_data h) as Hdata.
  { unfold hs, set, h1; simpl; rsimpl. rewrite arr_set_lt by lia.
    apply list_insert_id. by apply elems_lookup. }
  assert (siftdown ops k hs = Some hs) as ->.
  { unfold siftdown. cbn [siftdown_loop]. destruct (Nat.eqb_spec k 0); [done|].
    unfold less. rewrite Hdata. pose proof (parent_lt k).
    destruct (lookup_lt_is_Some_2 (elems h) (parent k)) as [y Hy].
    { rewrite length_elems by done. lia. }
    rewrite (elems_lookup _ _ _ Hy), (elems_lookup _ _ _ Hx). cbn [mbind option_bind].
    unfold hs, set; simpl. rewrite setpos_less. rewrite Hpl; auto. lia. }
  cbn [mbind option_bind].
  assert (siftup ops k hs = Some hs) as ->.
  { unfold siftup. cbn [siftup_loop]. unfold smaller.
    assert (h_len hs.1 = k) as -> by done.
    do 2 (rewrite (proj2 (Nat.ltb_ge _ _)) by lia; cbn [mbind option_bind]).
    by rewrite Nat.eqb_refl. }
  cbn [mbind option_bind].
  assert (elems hs.1 = take k (elems h)) as Hel.
  { unfold elems. rewrite Hdata, take_take. f_equal.
    unfold hs, set, h1; simpl; rsimpl. lia. }
  assert (elems h = elems hs.1 ++ [x]) as Hsplit.
  { rewrite Hel, <- (take_S_r _ _ x) by done. rewrite take_ge; [done|].
    rewrite length_elems by done. lia. }
  exists hs.1, hs.2. split; [by destruct hs|].
  assert (x ∈ elems h) by eauto using list_elem_of_lookup_2.
  split; [|split].
  - split.
    + rewrite Hdata. change (h_len h1 ≤ length (h_data h)). lia.
    + change (h_len h1 ≤ h_cap h1). unfold h1; rsimpl. lia.
    + intros i z Hi. apply lookup_lt_Some in Hi as Hil.
      unfold hs, set; simpl. rewrite setpos_other.
      * apply Hp. rewrite Hsplit. by apply lookup_app_l_Some.
      * intros ->. rewrite Hel, length_take in Hil.
        assert (i = k); [|lia]. eapply (pos_ok_inj (elems h)); eauto.
        rewrite Hsplit. by apply lookup_app_l_Some.
    + intros i Hi a b Ha Hb. unfold hs, set; simpl. rewrite setpos_less.
      apply (Ho i Hi); rewrite Hsplit; by apply lookup_app_l_Some.
  - rewrite Hsplit. solve_Permutation.
  - unfold hs, set; simpl. by apply (step_one _ x).
Qed.

Lemma heapremove_good h e k x :
  heap_wf h e → elems h !! k = Some x →
  weak_order (λ y, y ∈ elems h) (less_fn ops e) →
  (S k = h_len h → parent_less h e k) →
  ∃ h' e', heapremove ops k (h, e) = Some (Some x, (h', e')) ∧
    heap_wf h' e' ∧ x :: elems h' ≡ₚ elems h ∧ setpos_steps ops (elems h) e e'.
Proof.
  intros Hwf Hx Hw Hl. pose proof (hw_data _ _ Hwf).
  apply lookup_lt_Some in Hx as Hlt. rewrite length_elems in Hlt by done.
  destruct (decide (S k = h_len h)); [apply heapremove_last; auto|].
  apply heapremove_inner; auto. lia.
Qed.

(** The root is a minimum. *)
Lemma heap_min h e x y :
  heap_wf h e → weak_order (λ y, y ∈ elems h) (less_fn ops e) →
  elems h !! 0 = Some x → y ∈ elems h → less_fn ops e y x = false.
Proof.
  intros [Hd Hc Hp Ho] Hw Hx Hy. apply list_elem_of_lookup in Hy as [i Hi].
  revert y Hi. induction (lt_wf i) as [i _ IH]. intros y Hi.
  assert (∀ a, a ∈ elems h → less_fn ops e a a = false) as Hirr.
  { intros a Ha. destruct (less_fn ops e a a) eqn:Haa; [|done].
    rewrite <- Haa. eapply (wo_asym _ _ Hw); eauto. }
  destruct (decide (i = 0)) as [->|Hi0].
  { simplify_eq. apply Hirr. eauto using list_elem_of_lookup_2. }
  pose proof (parent_lt i). apply lookup_lt_Some in Hi as ?.
  destruct (lookup_lt_is_Some_2 (elems h) (parent i)) as [z Hz]; [lia|].
  eapply (wo_trans _ _ Hw x z y); eauto using list_elem_of_lookup_2.
  - eapply IH; eauto. lia.
  - eapply (Ho i); eauto. lia.
Qed.
End correctness.

(** ** Memory safety without any order

    The connection heap is used with a comparison that has ties, for which the
    order is not maintained by every removal.  The operations still stay in
    the array, terminate, and call [setpos] only. *)
Section safety.
Context {E X : Type} (ops : heap_ops E X).
Implicit Types (h : Heap X) (hs : Heap X * E) (k : nat).

Record heap_shape (h : Heap X) : Prop := {
  hsh_data : h_len h ≤ length (h_data h);
  hsh_cap : h_len h ≤ h_cap h;
}.

(** What any sequence of swaps keeps. *)
Record swapped (hs hs' : Heap X * E) : Prop := {
  sw_len : h_len hs'.1 = h_len hs.1;
  sw_cap : h_cap hs'.1 = h_cap hs.1;
  sw_data : length (h_data hs'.1) = length (h_data hs.1);
  sw_elem x : x ∈ h_data hs'.1 → x ∈ h_data hs.1;
  sw_steps : setpos_steps ops (h_data hs.1) hs.2 hs'.2;
}.

Lemma swapped_refl hs : swapped hs hs.
Proof. split; auto. apply rtc_refl. Qed.

Lemma swapped_trans hs1 hs2 hs3 : swapped hs1 hs2 → swapped hs2 hs3 → swapped hs1 hs3.
Proof.
  intros [Hl1 Hc1 Hd1 He1 Hs1] [Hl2 Hc2 Hd2 He2 Hs2]. split; try congruence; auto.
  etrans; [exact Hs1|]. eapply steps_mono; [|exact Hs2]. exact He1.
Qed.

Lemma swap_safe a b hs :
  a < length (h_data hs.1) → b < length (h_data hs.1) →
  ∃ hs', swap ops a b hs = Some hs' ∧ swapped hs hs'.
Proof.
  intros Ha Hb. destruct (lookup_lt_is_Some_2 _ _ Ha) as [x Hx].
  destruct (lookup_lt_is_Some_2 _ _ Hb) as [y Hy].
  unfold swap. rewrite Hx, Hy. eexists; split; [done|].
  assert (∀ z, z ∈ <[b:=x]> (<[a:=y]> (h_data hs.1)) → z ∈ h_data hs.1) as Hin.
  { intros z Hz. rewrite <- (Permutation_insert_swap _ _ _ _ _ Hx Hy). exact Hz. }
  split; unfold set; simpl; rsimpl; rewrite ?arr_set_lt by (rewrite ?arr_set_lt, ?length_insert by done; done);
    rewrite ?length_insert; try done.
  etrans; apply rtc_once; eauto 10 using list_elem_of_lookup_2.
Qed.

Lemma less_safe hs a b :
  a < length (h_data hs.1) → b < length (h_data hs.1) → is_Some (less ops hs a b).
Proof.
  intros Ha Hb. destruct (lookup_lt_is_Some_2 _ _ Ha) as [x Hx].
  destruct (lookup_lt_is_Some_2 _ _ Hb) as [y Hy]. unfold less. rewrite Hx, Hy. eauto.
Qed.

Lemma siftdown_safe fuel k hs :
  k < fuel → k < length (h_data hs.1) →
  ∃ hs', siftdown_loop ops fuel k hs = Some hs' ∧ swapped hs hs'.
Proof.
  revert k hs. induction fuel as [|fuel IH]; intros k hs Hf Hk; [lia|]. simpl.
  destruct (Nat.eqb_spec k 0); [eauto using swapped_refl|].
  pose proof (parent_lt k). destruct (less_safe hs (parent k) k) as [[] ->]; [lia..| |];
    simpl; [eauto using swapped_refl|].
  destruct (swap_safe k (parent k) hs) as (hs1 & -> & Hs1); [lia..|]. simpl.
  destruct (IH (parent k) hs1) as (hs2 & -> & Hs2); [lia|rewrite (sw_data _ _ Hs1); lia|].
  eauto using swapped_trans.
Qed.

Lemma smaller_safe hs c s :
  h_len hs.1 ≤ length (h_data hs.1) → s < length (h_data hs.1) →
  ∃ s', smaller ops hs c s = Some s' ∧ (s' = s ∨ s' = c ∧ c < h_len hs.1).
Proof.
  intros Hd Hs. unfold smaller. destruct (Nat.ltb_spec c (h_len hs.1)); [|eauto].
  destruct (less_safe hs c s) as [[] ->]; [lia..| |]; simpl; eauto.
Qed.

Lemma siftup_safe fuel k hs :
  h_len hs.1 < k + fuel → 0 < fuel → k < length (h_data hs.1) →
  h_len hs.1 ≤ length (h_data hs.1) →
  ∃ hs', siftup_loop ops fuel k hs = Some hs' ∧ swapped hs hs'.
Proof.
  revert k hs. induction fuel as [|fuel IH]; intros k hs Hf Hf0 Hk Hd; [lia|].
  cbn [siftup_loop].
  destruct (smaller_safe hs (k * 2 + 1) k) as (s1 & -> & Hs1); [lia..|]. simpl.
  destruct (smaller_safe hs (k * 2 + 2) s1) as (s2 & -> & Hs2); [lia..|]. simpl.
  destruct (Nat.eqb_spec s2 k); [eauto using swapped_refl|].
  destruct (swap_safe k s2 hs) as (hs1 & -> & Hs'); [lia..|]. simpl.
  destruct (IH s2 hs1) as (hs2 & -> & Hs2');
    rewrite ?(sw_len _ _ Hs'), ?(sw_data _ _ Hs'); try lia.
  eauto using swapped_trans.
Qed.

(** What the operations do to any array with any callbacks. *)
Record heap_op_safe (L : list X) (h : Heap X) (e : E) (h' : Heap X) (e' : E) : Prop := {
  hos_shape : heap_shape h';
  hos_elem x : x ∈ h_data h' → x ∈ L;
  hos_steps : setpos_steps ops L e e';
}.

Lemma elem_of_insert_inv (l : list X) k x z : z ∈ <[k:=x]> l → z = x ∨ z ∈ l.
Proof.
  rewrite list_elem_of_lookup. intros [i Hi]. destruct (decide (i = k)) as [->|].
  - apply list_lookup_insert_Some in Hi as [(_ & -> & _)|(? & ?)]; [by left|].
    right. eauto using list_elem_of_lookup_2.
  - rewrite list_lookup_insert_ne in Hi by done. right. eauto using list_elem_of_lookup_2.
Qed.

Lemma set_safe k x h e :
  k ≤ length (h_data h) →
  let hs := set ops k x (h, e) in
  k < length (h_data hs.1) ∧ length (h_data h) ≤ length (h_data hs.1) ∧
  h_len hs.1 = h_len h ∧ h_cap hs.1 = h_cap h ∧
  (∀ z, z ∈ h_data hs.1 → z ∈ x :: h_data h) ∧
  setpos_steps ops (x :: h_data h) e hs.2.
Proof.
  intros Hk hs. subst hs. unfold set, arr_set; simpl; rsimpl. split_and!; try done.
  - destruct (Nat.ltb_spec k (length (h_data h))); rewrite ?length_insert, ?length_app; simpl; lia.
  - case_match; rewrite ?length_insert, ?length_app; simpl; lia.
  - intros z. case_match; [intros [->|?]%elem_of_insert_inv|]; set_solver.
  - apply rtc_once. exists x, k. split; [left|done].
Qed.

Lemma swapped_op L h e hs hs' :
  swapped hs hs' → setpos_steps ops L e hs.2 → (∀ z, z ∈ h_data hs.1 → z ∈ L) →
  h_len hs.1 ≤ length (h_data hs.1) → h_len hs.1 ≤ h_cap hs.1 →
  heap_op_safe L h e hs'.1 hs'.2.
Proof.
  intros [Hl Hc Hd He Hs] H0 Hin Hlen Hcap. split.
  - split; rewrite ?Hl, ?Hd, ?Hc; done.
  - eauto.
  - etrans; [exact H0|]. eapply steps_mono; [|exact Hs]. done.
Qed.

Lemma heapinsert_safe ok x h e :
  heap_shape h → h_len h < h_cap h ∨ ok = true →
  ∃ h' e', heapinsert ops ok x (h, e) = Some (true, (h', e')) ∧
    heap_op_safe (x :: h_data h) h e h' e' ∧ h_len h' = S (h_len h).
Proof.
  intros [Hd Hc] Hok. unfold heapinsert.
  set (h1 := if h_len h =? h_cap h then _ else h).
  assert (h_len h1 = h_len h ∧ h_len h < h_cap h1 ∧ h_len h ≤ length (h_data h1) ∧
          ∀ z, z ∈ h_data h1 → z ∈ h_data h) as (Hl & Hc1 & Hd1 & Hin).
  { subst h1. destruct (Nat.eqb_spec (h_len h) (h_cap h)); rsimpl;
      [|split_and!; auto; lia]. split_and!; [done|lia|rewrite length_take; lia|].
    intros z (i & Hi & _)%elem_of_take. eauto using list_elem_of_lookup_2. }
  replace (_ && _) with false.
  2:{ destruct (Nat.eqb_spec (h_len h) (h_cap h)), ok; simpl; try done. lia. }
  destruct (set_safe (h_len h1) x (h1 <| h_len ::= S |>) e) as (Hk & _ & Hl2 & Hc2 & Hin2 & Hst);
    [rsimpl; lia|]. rsimpl.
  set (hs := set ops (h_len h1) x _) in *.
  destruct (siftdown_safe (S (h_len h1)) (h_len h1) hs) as (hs' & Heq & Hs); [lia..|].
  unfold siftdown. rewrite Heq. simpl. exists hs'.1, hs'.2. split; [by destruct hs'|].
  split; [|rewrite (sw_len _ _ Hs), Hl2; lia].
  eapply (swapped_op _ h); [exact Hs| | |lia|lia].
  - eapply steps_mono; [|exact Hst]. set_solver.
  - set_solver.
Qed.

Lemma heapremove_safe k h e :
  heap_shape h → k < h_len h →
  ∃ x h' e', heapremove ops k (h, e) = Some (Some x, (h', e')) ∧ h_data h !! k = Some x ∧
    heap_op_safe (h_data h) h e h' e' ∧ S (h_len h') = h_len h.
Proof.
  intros [Hd Hc] Hk. unfold heapremove. destruct (Nat.leb_spec (h_len h) k); [lia|].
  destruct (lookup_lt_is_Some_2 (h_data h) k) as [x Hx]; [lia|].
  set (h1 := h <| h_len ::= pred |>). rewrite Hx. cbn [mbind option_bind].
  assert (h_len h1 = pred (h_len h) ∧ h_data h1 = h_data h ∧ h_cap h1 = h_cap h)
    as (Hl & Hd1 & Hc1) by done.
  destruct (lookup_lt_is_Some_2 (h_data h1) (h_len h1)) as [y Hy]; [rewrite Hl, Hd1; lia|].
  rewrite Hy. cbn [mbind option_bind]. rewrite Hd1 in Hy.
  destruct (set_safe k y h1 e) as (Hk' & Hle & Hl2 & Hc2 & Hin2 & Hst); [rewrite Hd1; lia|].
  set (hs := set ops k y (h1, e)) in *. rewrite Hd1 in Hle, Hin2, Hst.
  destruct (siftdown_safe (S k) k hs) as (hs1 & Heq1 & Hs1); [lia..|].
  unfold siftdown. rewrite Heq1. cbn [mbind option_bind].
  pose proof (sw_len _ _ Hs1) as Hl3. pose proof (sw_data _ _ Hs1) as Hd3.
  destruct (siftup_safe (S (h_len hs1.1)) k hs1) as (hs2 & Heq2 & Hs2); [lia..|].
  unfold siftup. rewrite Heq2. cbn [mbind option_bind].
  assert (swapped hs hs2) as Hs by eauto using swapped_trans.
  exists x, hs2.1, hs2.2. split; [by destruct hs2|]. split; [done|]. split.
  - assert (∀ z, z ∈ y :: h_data h → z ∈ h_data h) as Hsub.
    { intros z [->|?]%elem_of_cons; eauto using list_elem_of_lookup_2. }
    eapply (swapped_op _ h); [exact Hs| | |lia|lia]; [|set_solver].
    eapply steps_mono; [exact Hsub|exact Hst].
  - rewrite (sw_len _ _ Hs), Hl2, Hl. lia.
Qed.
End safety.

(** ** What is kept whatever the heap *)

(** [Re] relates the stores before and after the callbacks; the elements of the
    first [n] slots stay in them. *)
Section partial.
Local Open Scope nat_scope.
Context {E X : Type} (ops : heap_ops E X) (Re : relation E) `{!PreOrder Re}.
Context (Hpos : ∀ x k e, Re e (setpos_fn ops x k e)).
Implicit Types (h : Heap X) (hs : Heap X * E) (k n : nat).

Record within n hs hs' : Prop := {
  wi_len : h_len hs'.1 = h_len hs.1;
  wi_elem x : x ∈ take n (h_data hs'.1) → x ∈ take n (h_data hs.1);
  wi_store : Re hs.2 hs'.2;
}.
#[local] Instance within_pre n : PreOrder (within n).
Proof.
  split; [by split|]. intros hs1 hs2 hs3 [L1 E1 S1] [L2 E2 S2].
  split; [congruence|auto|by etrans].
Qed.

Lemma elem_of_take_lookup (l : list X) n k x : l !! k = Some x → k < n → x ∈ take n l.
Proof. intros Hx Hk. apply elem_of_take. by exists k. Qed.

Lemma elem_of_take_set (l : list X) n k x z :
  k < n → z ∈ take n (arr_set k x l) → z = x ∨ z ∈ take n l.
Proof.
  intros Hk (i & Hi & Hin)%elem_of_take. unfold arr_set in Hi.
  assert (∀ y, l !! i = Some y → y ∈ take n l) as Hl by (intros y Hy; by eapply elem_of_take_lookup).
  destruct (k <? length l).
  - apply list_lookup_insert_Some in Hi as [(_ & -> & _)|[_ Hi]]; [by left|right; auto].
  - apply lookup_app_Some in Hi as [Hi|[_ Hi]]; [right; auto|].
    left. by apply list_lookup_singleton_Some in Hi as [_ ->].
Qed.

Lemma set_within n k x hs :
  k < n → x ∈ take n (h_data hs.1) → within n hs (set ops k x hs).
Proof.
  intros Hk Hx. split; [done| |apply Hpos].
  intros z [->|Hz]%elem_of_take_set; [|done..]. done.
Qed.

Lemma swap_within n a b hs hs' :
  a < n → b < n → swap ops a b hs = Some hs' → within n hs hs'.
Proof.
  intros Ha Hb. unfold swap. destruct (h_data hs.1 !! a) as [x|] eqn:Hx; [|done]. simpl.
  destruct (h_data hs.1 !! b) as [y|] eqn:Hy; [|done]. simpl. intros [= <-].
  pose proof (elem_of_take_lookup _ n _ _ Hx Ha). pose proof (elem_of_take_lookup _ n _ _ Hy Hb).
  split; [done| |etrans; apply Hpos].
  intros z [->|[->|?]%elem_of_take_set]%elem_of_take_set; done.
Qed.

Lemma siftdown_within n fuel k hs hs' :
  k < n → siftdown_loop ops fuel k hs = Some hs' → within n hs hs'.
Proof.
  revert k hs. induction fuel as [|fuel IH]; intros k hs Hk; simpl; [done|].
  destruct (k =? 0) eqn:Hk0; [by intros [= <-]|]. apply Nat.eqb_neq in Hk0.
  destruct (less ops hs (parent k) k) as [[]|]; simpl; [by intros [= <-]| |done].
  pose proof (parent_lt k ltac:(lia)).
  destruct (swap ops k (parent k) hs) as [hs1|] eqn:Hs; simpl; [|done]. intros Hd.
  etrans; [eapply swap_within, Hs; lia|]. eapply IH, Hd. lia.
Qed.

Lemma smaller_bound hs c s s' : smaller ops hs c s = Some s' → s' = s ∨ s' = c ∧ c < h_len hs.1.
Proof.
  unfold smaller. destruct (Nat.ltb_spec c (h_len hs.1)).
  - destruct (less ops hs c s) as [[]|]; simpl; intros [= <-]; auto.
  - intros [= <-]. auto.
Qed.

Lemma siftup_within n fuel k hs hs' :
  k < n → h_len hs.1 <= n → siftup_loop ops fuel k hs = Some hs' → within n hs hs'.
Proof.
  revert k hs. induction fuel as [|fuel IH]; intros k hs Hk Hn; [done|]. cbn [siftup_loop].
  destruct (smaller ops hs (k * 2 + 1) k) as [s1|] eqn:H1; simpl; [|done].
  destruct (smaller ops hs (k * 2 + 2) s1) as [s2|] eqn:H2; simpl; [|done].
  destruct (s2 =? k); [by intros [= <-]|].
  assert (s2 < n) as Hs2.
  { apply smaller_bound in H1, H2. destruct H2 as [->|[-> ?]]; [destruct H1 as [->|[-> ?]]|]; lia. }
  destruct (swap ops k s2 hs) as [hs1|] eqn:Hs; simpl; [|done]. intros Hu.
  pose proof (swap_within n _ _ _ _ Hk Hs2 Hs) as Hw. etrans; [exact Hw|].
  eapply IH, Hu; [done|]. by rewrite (wi_len _ _ _ Hw).
Qed.

Lemma heapinsert_keeps ok x h e r h' e' :
  heapinsert ops ok x (h, e) = Some (r, (h', e')) →
  Re e e' ∧ ∀ z, z ∈ elems h' → z ∈ x :: elems h.
Proof.
  unfold heapinsert. case_match; [intros [= <- <- <-]; split; [done|set_solver]|].
  set (h1 := if h_len h =? h_cap h then _ else h).
  assert (h_len h1 = h_len h ∧ ∀ z, z ∈ elems h1 → z ∈ elems h) as [Hl He].
  { subst h1. case_match; [|done]. split; [done|]. unfold elems. rsimpl. by rewrite take_take, Nat.min_id. }
  clearbody h1. destruct (siftdown ops (h_len h1) _) as [[h2 e2]|] eqn:Hd; simpl; [|done]. intros [= <- <- <-].
  apply (siftdown_within (S (h_len h1))) in Hd as [Hl2 He2 Hst]; [|lia]. rsimpl_in Hl2. simpl in *.
  split; [etrans; [apply Hpos|exact Hst]|]. intros z Hz. unfold elems in Hz. rewrite Hl2 in Hz.
  apply He2 in Hz. unfold set in Hz. simpl in Hz. rsimpl_in Hz.
  apply elem_of_take in Hz as (i & Hi & Hin). unfold arr_set in Hi.
  apply elem_of_cons. destruct (Nat.ltb_spec (h_len h1) (length (h_data h1))) as [Hlt|Hge].
  - apply list_lookup_insert_Some in Hi as [(_ & -> & _)|[Hne Hi]]; [by left|right].
    apply He. eapply elem_of_take_lookup; [done|lia].
  - apply lookup_app_Some in Hi as [Hi|[_ Hi]].
    + right. apply He. eapply elem_of_take_lookup; [done|]. apply lookup_lt_Some in Hi. lia.
    + left. by apply list_lookup_singleton_Some in Hi as [_ ->].
Qed.

Lemma heapremove_keeps k h e r h' e' :
  heapremove ops k (h, e) = Some (r, (h', e')) →
  Re e e' ∧ ∀ z, z ∈ elems h' → z ∈ elems h.
Proof.
  unfold heapremove. destruct (Nat.leb_spec (h_len h) k) as [|Hk]; [by intros [= <- <- <-]|].
  destruct (h_data h !! k) as [x|] eqn:Hx; cbn [mbind option_bind]; [|done].
  set (h1 := h <| h_len ::= pred |>).
  assert (h_data h1 = h_data h ∧ S (h_len h1) = h_len h) as [Hd Hl] by (subst h1; rsimpl; split; [done|lia]).
  destruct (h_data h1 !! h_len h1) as [y|] eqn:Hy; cbn [mbind option_bind]; [|done].
  destruct (siftdown ops k _) as [hs1|] eqn:H1; cbn [mbind option_bind]; [|done].
  destruct (siftup ops k hs1) as [hs2|] eqn:H2; cbn [mbind option_bind]; [|done].
  intros [= <- ->].
  assert (within (h_len h) (h1, e) (set ops k y (h1, e))) as W0.
  { apply set_within; [done|]. eapply elem_of_take_lookup; [exact Hy|lia]. }
  apply (siftdown_within (h_len h)) in H1; [|done].
  assert (h_len hs1.1 = h_len h1) as Hl1 by exact (eq_trans (wi_len _ _ _ H1) (wi_len _ _ _ W0)).
  apply (siftup_within (h_len h)) in H2; [|done|lia].
  assert (within (h_len h) (h1, e) (h', e')) as [W1 W2 W3] by (etrans; [exact W0|]; by etrans; [exact H1|]).
  split; [done|]. intros z Hz. unfold elems in *. simpl in W1, W2. rewrite W1 in Hz. 
  apply W2. apply elem_of_take in Hz as (i & Hi & Hin). eapply elem_of_take_lookup; [exact Hi|lia].
Qed.

(** The number of elements, likewise. *)
Lemma heapinsert_len ok x h e r h' e' :
  heapinsert ops ok x (h, e) = Some (r, (h', e')) → h_len h' <= S (h_len h).
Proof.
  unfold heapinsert. case_match; [intros [= <- <- <-]; lia|].
  set (h1 := if h_len h =? h_cap h then _ else h).
  assert (h_len h1 = h_len h) as Hl by (subst h1; by case_match).
  clearbody h1. destruct (siftdown ops (h_len h1) _) as [[h2 e2]|] eqn:Hd; simpl; [|done]. intros [= <- <- <-].
  apply (siftdown_within (S (h_len h1))) in Hd as [Hl2 _ _]; [|lia]. rsimpl_in Hl2. simpl in Hl2. lia.
Qed.
Lemma heapremove_len k h e r h' e' :
  heapremove ops k (h, e) = Some (r, (h', e')) →
  if h_len h <=? k then h_len h' = h_len h else S (h_len h') = h_len h.
Proof.
  unfold heapremove. destruct (Nat.leb_spec (h_len h) k) as [|Hk]; [by intros [= <- <- <-]|].
  destruct (h_data h !! k) as [x|] eqn:Hx; cbn [mbind option_bind]; [|done].
  set (h1 := h <| h_len ::= pred |>).
  assert (h_data h1 = h_data h ∧ S (h_len h1) = h_len h) as [Hd Hl] by (subst h1; rsimpl; split; [done|lia]).
  destruct (h_data h1 !! h_len h1) as [y|] eqn:Hy; cbn [mbind option_bind]; [|done].
  destruct (siftdown ops k _) as [hs1|] eqn:H1; cbn [mbind option_bind]; [|done].
  destruct (siftup ops k hs1) as [hs2|] eqn:H2; cbn [mbind option_bind]; [|done].
  intros [= <- ->]. apply (siftdown_within (h_len h)) in H1; [|done].
  assert (h_len hs1.1 = h_len h1) as Hl1 by exact (wi_len _ _ _ H1).
  apply (siftup_within (h_len h)) in H2; [|done|lia]. pose proof (wi_len _ _ _ H2) as Hl2. simpl in Hl2. lia.
Qed.
End partial.
