(* ===== verification/Ms.v ===== *)
(** The resizable multiset of [ms.c].

    [ms_items] are the [len] elements in array order.  The callbacks
    [oninsert]/[onremove] are run by the caller on the elements the operations
    report as inserted or removed, in that order: the two callbacks of the
    program ([on_watch], [on_ignore] of [conn.c]) use neither the multiset nor
    the index they are given. *)
From S2P Require Import Prelude.

Record Ms (X : Type) := mkMs {
  ms_items : list X;
  ms_cap : nat;
  ms_last : nat;
}.
Arguments mkMs {X} _ _ _.
Arguments ms_items {X} _.
Arguments ms_cap {X} _.
Arguments ms_last {X} _.
#[export] Instance Ms_settable X : Settable (Ms X) :=
  fun a => mkMs (ms_items a) (ms_cap a) (ms_last a).
#[export] Instance set_ms_items X : Setter (@ms_items X) := ltac:(solve_setter).
#[export] Instance set_ms_cap X : Setter (@ms_cap X) := ltac:(solve_setter).
#[export] Instance set_ms_last X : Setter (@ms_last X) := ltac:(solve_setter).

Definition ms_len {X} (a : Ms X) : nat := length (ms_items a).

(** ** Operations *)
Section operations.
Context {X : Type} `{!EqDecision X}.
Implicit Types (a : Ms X) (item : X) (i : nat).

Definition ms_init : Ms X := mkMs [] 0 0.

(** [malloc_ok] is the outcome of the allocation. *)
Definition grow (malloc_ok : bool) a : option (Ms X) :=
  let ncap := ms_cap a * 2 in
  let ncap := if ncap =? 0 then 1 else ncap in
  if malloc_ok then Some (a <| ms_cap := ncap |>) else None.

(** [true] when the item was inserted (and [oninsert] is called on it). *)
Definition ms_append (malloc_ok : bool) item a : bool * Ms X :=
  let push a := a <| ms_items ::= fun l => l ++ [item] |> in
  if ms_cap a <=? ms_len a then
    match grow malloc_ok a with
    | None => (false, a)
    | Some a => (true, push a)
    end
  else (true, push a).

(** The removed item, on which [onremove] is called; [None] when the index
    is out of range. *)
Definition ms_delete i a : option (X * Ms X) :=
  if ms_len a <=? i then None
  else
    item ← ms_items a !! i;
    lst ← last (ms_items a);
    Some (item, a <| ms_items ::= fun l => take (pred (length l)) (<[i:=lst]> l) |>).

Fixpoint ms_clear_loop (fuel : nat) a : list X * Ms X :=
  match fuel with
  | O => ([], a)
  | S fuel =>
      match ms_delete 0 a with
      | None => ([], a)
      | Some (item, a) =>
          let '(removed, a) := ms_clear_loop fuel a in (item :: removed, a)
      end
  end.

Definition ms_clear a : list X * Ms X :=
  let '(removed, _) := ms_clear_loop (S (ms_len a)) a in (removed, ms_init).

(** [for (i = 0; i < a->len; i++) if (a->items[i] == item) ...] *)
Fixpoint ms_index (l : list X) item : option nat :=
  match l with
  | [] => None
  | x :: l => if decide (x = item) then Some 0 else S <$> ms_index l item
  end.

Definition ms_remove item a : option (X * Ms X) :=
  i ← ms_index (ms_items a) item; ms_delete i a.

Definition ms_contains item a : bool :=
  match ms_index (ms_items a) item with Some _ => true | None => false end.

Definition ms_take a : option X * Ms X :=
  if ms_len a =? 0 then (None, a)
  else
    let a := a <| ms_last := Nat.modulo (ms_last a) (ms_len a) |> in
    match ms_delete (ms_last a) a with
    | None => (None, a)
    | Some (item, a) => (Some item, a <| ms_last ::= S |>)
    end.
End operations.

(** ** Correctness *)
Section correctness.
Context {X : Type} `{!EqDecision X}.
Implicit Types (a : Ms X) (item x y : X) (i : nat) (l : list X).

Lemma take_insert_last l i x y :
  l !! i = Some x → last l = Some y →
  x :: take (pred (length l)) (<[i:=y]> l) ≡ₚ l.
Proof.
  intros Hi Hl. destruct l as [|z l' _] using rev_ind; [done|].
  rewrite last_snoc in Hl. simplify_eq. rewrite length_app. simpl.
  replace (pred (length l' + 1)) with (length l') by lia.
  apply lookup_app_Some in Hi as [Hi|[Hge Hi]].
  - apply lookup_lt_Some in Hi as ?. rewrite insert_app_l, take_app_length'
      by (rewrite ?length_insert; lia).
    rewrite insert_take_drop by done.
    rewrite <- (take_drop_middle l' i x) at 3 by done. solve_Permutation.
  - apply list_lookup_singleton_Some in Hi as [? ->].
    assert (i = length l') as -> by lia.
    rewrite insert_app_r_alt, take_app_length by lia. solve_Permutation.
Qed.

Lemma ms_delete_Some i a :
  i < ms_len a →
  ∃ x a', ms_delete i a = Some (x, a') ∧ ms_items a !! i = Some x ∧
    x :: ms_items a' ≡ₚ ms_items a ∧ ms_cap a' = ms_cap a ∧ ms_last a' = ms_last a.
Proof.
  intros Hi. unfold ms_delete, ms_len in *.
  destruct (Nat.leb_spec (length (ms_items a)) i); [lia|].
  destruct (lookup_lt_is_Some_2 (ms_items a) i) as [x Hx]; [done|].
  destruct (last (ms_items a)) as [y|] eqn:Hl.
  2:{ apply last_None in Hl. rewrite Hl in Hi. simpl in Hi. lia. }
  rewrite Hx. simpl. do 2 eexists; split_and!; [done|done|..]; rsimpl; try done.
  by apply take_insert_last.
Qed.

Lemma ms_delete_None i a : ms_len a ≤ i → ms_delete i a = None.
Proof. intros. unfold ms_delete. by rewrite (proj2 (Nat.leb_le _ _)). Qed.

Lemma ms_index_Some l x i : ms_index l x = Some i → l !! i = Some x.
Proof.
  revert i. induction l as [|y l IH]; intros i; simpl; [done|].
  case_decide; [by intros [= <-]; subst|].
  destruct (ms_index l x) eqn:E; simpl; [|done]. intros [= <-]. by apply IH.
Qed.

Lemma ms_index_None l x : ms_index l x = None ↔ x ∉ l.
Proof.
  induction l as [|y l IH]; simpl; [split; [set_solver|done]|].
  rewrite not_elem_of_cons. case_decide; [naive_solver|].
  destruct (ms_index l x); simpl; naive_solver.
Qed.

Lemma ms_append_spec ok x a :
  match ms_append ok x a with
  | (true, a') => ms_items a' = ms_items a ++ [x] ∧ ms_last a' = ms_last a
  | (false, a') => a' = a ∧ ok = false
  end.
Proof.
  unfold ms_append, grow. destruct (_ <=? _), ok; rsimpl; done.
Qed.

Lemma ms_append_ok x a :
  ∃ a', ms_append true x a = (true, a') ∧ ms_items a' = ms_items a ++ [x].
Proof.
  pose proof (ms_append_spec true x a). destruct (ms_append true x a) as [[] a'];
    naive_solver.
Qed.

Lemma ms_contains_spec x a : ms_contains x a = true ↔ x ∈ ms_items a.
Proof.
  unfold ms_contains. destruct (ms_index _ _) eqn:E.
  - apply ms_index_Some in E. split; eauto using list_elem_of_lookup_2.
  - apply ms_index_None in E. split; [done|tauto].
Qed.

(** [ms_remove] takes out exactly one occurrence of the item. *)
Lemma ms_remove_Some x a :
  x ∈ ms_items a →
  ∃ a', ms_remove x a = Some (x, a') ∧ x :: ms_items a' ≡ₚ ms_items a ∧
    ms_last a' = ms_last a.
Proof.
  intros Hx. unfold ms_remove.
  destruct (ms_index (ms_items a) x) as [i|] eqn:E.
  2:{ by apply ms_index_None in E. }
  apply ms_index_Some in E. apply lookup_lt_Some in E as ?.
  destruct (ms_delete_Some i a) as (y & a' & Hd & ? & ? & ? & ?); [done|].
  simplify_eq. simpl. rewrite Hd. eauto.
Qed.

Lemma ms_remove_None x a : x ∉ ms_items a → ms_remove x a = None.
Proof. intros Hx%ms_index_None. unfold ms_remove. by rewrite Hx. Qed.

Lemma ms_take_Some a :
  ms_items a ≠ [] →
  ∃ x a', ms_take a = (Some x, a') ∧ x :: ms_items a' ≡ₚ ms_items a ∧
    ms_items a !! (Nat.modulo (ms_last a) (ms_len a)) = Some x ∧
    ms_last a' = S (Nat.modulo (ms_last a) (ms_len a)).
Proof.
  intros Hne. assert (ms_len a ≠ 0) as Hlen.
  { unfold ms_len. by destruct (ms_items a). }
  unfold ms_take. rewrite (proj2 (Nat.eqb_neq _ _)) by done.
  set (a0 := a <| ms_last := _ |>).
  pose proof (Nat.mod_upper_bound (ms_last a) (ms_len a) Hlen).
  destruct (ms_delete_Some (ms_last a0) a0) as (x & a' & -> & ? & ? & ? & Hlast).
  { done. }
  do 2 eexists. split; [done|]. rsimpl. rewrite Hlast. done.
Qed.

Lemma ms_take_None a : ms_items a = [] → ms_take a = (None, a).
Proof. intros H. unfold ms_take, ms_len. by rewrite H. Qed.

Lemma ms_clear_spec a :
  ∃ removed, ms_clear a = (removed, ms_init) ∧ removed ≡ₚ ms_items a.
Proof.
  unfold ms_clear.
  assert (∀ fuel a, ms_len a < fuel →
    ∃ r a', ms_clear_loop fuel a = (r, a') ∧ r ≡ₚ ms_items a) as H.
  { intros fuel. induction fuel as [|fuel IH]; intros b Hb; [lia|]. simpl.
    destruct (decide (ms_len b = 0)) as [H0|].
    - rewrite ms_delete_None by lia. do 2 eexists; split; [done|].
      by apply length_zero_iff_nil in H0 as ->.
    - destruct (ms_delete_Some 0 b) as (x & b' & -> & ? & Hp & ? & ?); [lia|].
      destruct (IH b') as (r & b'' & -> & ?).
      { apply Permutation_length in Hp. unfold ms_len in *. simpl in Hp. lia. }
      do 2 eexists; split; [done|]. rewrite <- Hp. by constructor. }
  destruct (H (S (ms_len a)) a) as (r & a' & -> & ?); [lia|]. eauto.
Qed.

(** [n] successive takes. *)
Fixpoint ms_takes (n : nat) a : list X :=
  match n with
  | O => []
  | S n => match ms_take a with
           | (Some x, a) => x :: ms_takes n a
           | (None, _) => []
           end
  end.

Lemma ms_takes_Permutation n a : ms_len a ≤ n → ms_takes n a ≡ₚ ms_items a.
Proof.
  revert a. induction n as [|n IH]; intros a Hn; simpl.
  { destruct (ms_items a) eqn:E; [done|]. unfold ms_len in Hn. rewrite E in Hn. simpl in Hn. lia. }
  destruct (decide (ms_items a = [])) as [Hnil|Hne].
  { by rewrite ms_take_None, Hnil. }
  destruct (ms_take_Some a Hne) as (x & a' & -> & Hp & _).
  rewrite <- Hp. constructor. apply IH.
  apply Permutation_length in Hp. unfold ms_len in *. simpl in Hp. lia.
Qed.
End correctness.

(** ** Properties *)

(** C25: [len] calls of [ms_take] hand out every element of the multiset exactly
    once, in whatever state the cursor [last] is: no waiting connection is
    starved and none is served twice. *)
Theorem ms_takes_all {X} `{!EqDecision X} (a : Ms X) :
  ms_takes (ms_len a) a ≡ₚ ms_items a.
Proof. by apply ms_takes_Permutation. Qed.
