(* ===== verification/State.v ===== *)
(** The data of [dat.h] and the state of the process.

    Every struct is a record.  An object on the heap is an entry of a map from
    addresses to records, so aliasing is modelled as it is in the program; a
    pointer that can be NULL is an [option].  [M] is the monad of the code:
    state passing with an early stop for undefined behaviour (a NULL or
    dangling dereference), for [exit] and for a loop that uses up its fuel. *)
From S2P Require Import Prelude Heap Ms.

Abbreviation bytes := (list ascii).
Abbreviation jobp := positive.
Abbreviation tubep := positive.
Abbreviation connp := positive.
Abbreviation filep := positive.

(** ** Structures *)

(** The [state] byte of [struct Jobrec]. *)
Inductive jobstate := Invalid | Ready | Reserved | Buried | Delayed | Copy.
#[export] Instance jobstate_eq_dec : EqDecision jobstate.
Proof. solve_decision. Defined.

(** [struct Jobrec]: the persistent fields of a job. *)
Record Jobrec := mkJobrec {
  r_id : Z;
  r_pri : Z;
  r_delay : Z;
  r_ttr : Z;
  r_body_size : Z;
  r_created_at : Z;
  r_deadline_at : Z;
  r_reserve_ct : Z;
  r_timeout_ct : Z;
  r_release_ct : Z;
  r_bury_ct : Z;
  r_kick_ct : Z;
  r_state : jobstate;
}.
#[export] Instance Jobrec_settable : Settable Jobrec :=
  fun r => mkJobrec (r_id r)
    (r_pri r) (r_delay r) (r_ttr r) (r_body_size r) (r_created_at r) (r_deadline_at r)
    (r_reserve_ct r) (r_timeout_ct r) (r_release_ct r) (r_bury_ct r) (r_kick_ct r)
    (r_state r).
#[export] Instance set_r_id : Setter r_id := ltac:(solve_setter).
#[export] Instance set_r_pri : Setter r_pri := ltac:(solve_setter).
#[export] Instance set_r_delay : Setter r_delay := ltac:(solve_setter).
#[export] Instance set_r_ttr : Setter r_ttr := ltac:(solve_setter).
#[export] Instance set_r_body_size : Setter r_body_size := ltac:(solve_setter).
#[export] Instance set_r_created_at : Setter r_created_at := ltac:(solve_setter).
#[export] Instance set_r_deadline_at : Setter r_deadline_at := ltac:(solve_setter).
#[export] Instance set_r_reserve_ct : Setter r_reserve_ct := ltac:(solve_setter).
#[export] Instance set_r_timeout_ct : Setter r_timeout_ct := ltac:(solve_setter).
#[export] Instance set_r_release_ct : Setter r_release_ct := ltac:(solve_setter).
#[export] Instance set_r_bury_ct : Setter r_bury_ct := ltac:(solve_setter).
#[export] Instance set_r_kick_ct : Setter r_kick_ct := ltac:(solve_setter).
#[export] Instance set_r_state : Setter r_state := ltac:(solve_setter).

(** [struct Job].  The list fields [prev]/[next] and [fprev]/[fnext] live in
    the link maps of the state, because the same fields exist in the list
    headers embedded in tubes, connections and files.  [j_body] holds the
    bytes of the body written so far, [j_cap] is the size it was allocated with. *)
Record Job := mkJob {
  j_r : Jobrec;
  j_tube : option tubep;
  j_ht_next : option jobp;
  j_heap_index : nat;
  j_file : option filep;
  j_reserver : option connp;
  j_walresv : Z;
  j_walused : Z;
  j_body : bytes;
  j_cap : Z;
}.
#[export] Instance Job_settable : Settable Job :=
  fun r => mkJob (j_r r) (j_tube r)
    (j_ht_next r) (j_heap_index r) (j_file r) (j_reserver r) (j_walresv r) (j_walused r)
    (j_body r) (j_cap r).
#[export] Instance set_j_r : Setter j_r := ltac:(solve_setter).
#[export] Instance set_j_tube : Setter j_tube := ltac:(solve_setter).
#[export] Instance set_j_ht_next : Setter j_ht_next := ltac:(solve_setter).
#[export] Instance set_j_heap_index : Setter j_heap_index := ltac:(solve_setter).
#[export] Instance set_j_file : Setter j_file := ltac:(solve_setter).
#[export] Instance set_j_reserver : Setter j_reserver := ltac:(solve_setter).
#[export] Instance set_j_walresv : Setter j_walresv := ltac:(solve_setter).
#[export] Instance set_j_walused : Setter j_walused := ltac:(solve_setter).
#[export] Instance set_j_body : Setter j_body := ltac:(solve_setter).
#[export] Instance set_j_cap : Setter j_cap := ltac:(solve_setter).

(** [struct stats] *)
Record stats := mkStats {
  urgent_ct : Z;
  waiting_ct : Z;
  buried_ct : Z;
  reserved_ct : Z;
  pause_ct : Z;
  total_delete_ct : Z;
  total_jobs_ct : Z;
}.
#[export] Instance stats_settable : Settable stats :=
  fun r => mkStats (urgent_ct r)
    (waiting_ct r) (buried_ct r) (reserved_ct r) (pause_ct r) (total_delete_ct r)
    (total_jobs_ct r).
#[export] Instance set_urgent_ct : Setter urgent_ct := ltac:(solve_setter).
#[export] Instance set_waiting_ct : Setter waiting_ct := ltac:(solve_setter).
#[export] Instance set_buried_ct : Setter buried_ct := ltac:(solve_setter).
#[export] Instance set_reserved_ct : Setter reserved_ct := ltac:(solve_setter).
#[export] Instance set_pause_ct : Setter pause_ct := ltac:(solve_setter).
#[export] Instance set_total_delete_ct : Setter total_delete_ct := ltac:(solve_setter).
#[export] Instance set_total_jobs_ct : Setter total_jobs_ct := ltac:(solve_setter).
Definition stats_zero : stats := mkStats 0 0 0 0 0 0 0.

(** [struct Tube]; the header of its buried list is the node [NBuried]. *)
Record Tube := mkTube {
  t_refs : Z;
  t_name : bytes;
  t_ready : Heap jobp;
  t_delay : Heap jobp;
  t_waiting_conns : Ms connp;
  t_stat : stats;
  t_using_ct : Z;
  t_watching_ct : Z;
  t_pause : Z;
  t_unpause_at : Z;
}.
#[export] Instance Tube_settable : Settable Tube :=
  fun r => mkTube (t_refs r) (t_name
    r) (t_ready r) (t_delay r) (t_waiting_conns r) (t_stat r) (t_using_ct r)
    (t_watching_ct r) (t_pause r) (t_unpause_at r).
#[export] Instance set_t_refs : Setter t_refs := ltac:(solve_setter).
#[export] Instance set_t_name : Setter t_name := ltac:(solve_setter).
#[export] Instance set_t_ready : Setter t_ready := ltac:(solve_setter).
#[export] Instance set_t_delay : Setter t_delay := ltac:(solve_setter).
#[export] Instance set_t_waiting_conns : Setter t_waiting_conns := ltac:(solve_setter).
#[export] Instance set_t_stat : Setter t_stat := ltac:(solve_setter).
#[export] Instance set_t_using_ct : Setter t_using_ct := ltac:(solve_setter).
#[export] Instance set_t_watching_ct : Setter t_watching_ct := ltac:(solve_setter).
#[export] Instance set_t_pause : Setter t_pause := ltac:(solve_setter).
#[export] Instance set_t_unpause_at : Setter t_unpause_at := ltac:(solve_setter).

(** [STATE_*] of [prot.c] *)
Inductive connstate :=
  | STATE_WANT_COMMAND | STATE_WANT_DATA | STATE_SEND_JOB | STATE_SEND_WORD
  | STATE_WAIT | STATE_BITBUCKET | STATE_CLOSE | STATE_WANT_ENDLINE.
#[export] Instance connstate_eq_dec : EqDecision connstate.
Proof. solve_decision. Defined.

Definition CONN_TYPE_PRODUCER : Z := 1.
Definition CONN_TYPE_WORKER : Z := 2.
Definition CONN_TYPE_WAITING : Z := 4.

Definition MAX_TUBE_NAME_LEN : nat := 201.
Definition LINE_BUF_SIZE : nat := 11 + MAX_TUBE_NAME_LEN + 12.
Definition URGENT_THRESHOLD : Z := 1024.
Definition JOB_DATA_SIZE_LIMIT_DEFAULT : Z := 65535.
Definition JOB_DATA_SIZE_LIMIT_MAX : Z := 1073741824.

(** [struct Conn]; the header of its list of reserved jobs is the node
    [NReserved].  [c_reply] is the string [reply] points to. *)
Record Conn := mkConn {
  c_fd : Z;
  c_added : bool;
  c_state : connstate;
  c_type : Z;
  c_next : option connp;
  c_use : option tubep;
  c_tickat : Z;
  c_tickpos : nat;
  c_in_conns : bool;
  c_soonest_job : option jobp;
  c_rw : ascii;
  c_pending_timeout : Z;
  c_halfclosed : bool;
  c_cmd : bytes;
  c_cmd_len : nat;
  c_cmd_read : nat;
  c_reply : bytes;
  c_reply_len : nat;
  c_reply_sent : nat;
  c_in_job_read : Z;
  c_in_job : option jobp;
  c_out_job : option jobp;
  c_out_job_sent : nat;
  c_watch : Ms tubep;
}.
#[export] Instance Conn_settable : Settable Conn :=
  fun r => mkConn (c_fd r) (c_added
    r) (c_state r) (c_type r) (c_next r) (c_use r) (c_tickat r) (c_tickpos r) (c_in_conns
    r) (c_soonest_job r) (c_rw r) (c_pending_timeout r) (c_halfclosed r) (c_cmd r)
    (c_cmd_len r) (c_cmd_read r) (c_reply r) (c_reply_len r) (c_reply_sent r)
    (c_in_job_read r) (c_in_job r) (c_out_job r) (c_out_job_sent r) (c_watch r).
#[export] Instance set_c_fd : Setter c_fd := ltac:(solve_setter).
#[export] Instance set_c_added : Setter c_added := ltac:(solve_setter).
#[export] Instance set_c_state : Setter c_state := ltac:(solve_setter).
#[export] Instance set_c_type : Setter c_type := ltac:(solve_setter).
#[export] Instance set_c_next : Setter c_next := ltac:(solve_setter).
#[export] Instance set_c_use : Setter c_use := ltac:(solve_setter).
#[export] Instance set_c_tickat : Setter c_tickat := ltac:(solve_setter).
#[export] Instance set_c_tickpos : Setter c_tickpos := ltac:(solve_setter).
#[export] Instance set_c_in_conns : Setter c_in_conns := ltac:(solve_setter).
#[export] Instance set_c_soonest_job : Setter c_soonest_job := ltac:(solve_setter).
#[export] Instance set_c_rw : Setter c_rw := ltac:(solve_setter).
#[export] Instance set_c_pending_timeout : Setter c_pending_timeout := ltac:(solve_setter).
#[export] Instance set_c_halfclosed : Setter c_halfclosed := ltac:(solve_setter).
#[export] Instance set_c_cmd : Setter c_cmd := ltac:(solve_setter).
#[export] Instance set_c_cmd_len : Setter c_cmd_len := ltac:(solve_setter).
#[export] Instance set_c_cmd_read : Setter c_cmd_read := ltac:(solve_setter).
#[export] Instance set_c_reply : Setter c_reply := ltac:(solve_setter).
#[export] Instance set_c_reply_len : Setter c_reply_len := ltac:(solve_setter).
#[export] Instance set_c_reply_sent : Setter c_reply_sent := ltac:(solve_setter).
#[export] Instance set_c_in_job_read : Setter c_in_job_read := ltac:(solve_setter).
#[export] Instance set_c_in_job : Setter c_in_job := ltac:(solve_setter).
#[export] Instance set_c_out_job : Setter c_out_job := ltac:(solve_setter).
#[export] Instance set_c_out_job_sent : Setter c_out_job_sent := ltac:(solve_setter).
#[export] Instance set_c_watch : Setter c_watch := ltac:(solve_setter).

(** [struct File]; the header of its job list is the node [FHead]. *)
Record File := mkFile {
  f_next : option filep;
  f_refs : Z;
  f_seq : Z;
  f_iswopen : bool;
  f_fd : Z;
  f_free : Z;
  f_resv : Z;
}.
#[export] Instance File_settable : Settable File :=
  fun r => mkFile (f_next r) (f_refs
    r) (f_seq r) (f_iswopen r) (f_fd r) (f_free r) (f_resv r).
#[export] Instance set_f_next : Setter f_next := ltac:(solve_setter).
#[export] Instance set_f_refs : Setter f_refs := ltac:(solve_setter).
#[export] Instance set_f_seq : Setter f_seq := ltac:(solve_setter).
#[export] Instance set_f_iswopen : Setter f_iswopen := ltac:(solve_setter).
#[export] Instance set_f_fd : Setter f_fd := ltac:(solve_setter).
#[export] Instance set_f_free : Setter f_free := ltac:(solve_setter).
#[export] Instance set_f_resv : Setter f_resv := ltac:(solve_setter).

(** [struct Wal] *)
Record Wal := mkWal {
  w_filesize : Z;
  w_use : bool;
  w_head : option filep;
  w_cur : option filep;
  w_tail : option filep;
  w_nfile : Z;
  w_next : Z;
  w_resv : Z;
  w_alive : Z;
  w_nmig : Z;
  w_nrec : Z;
  w_wantsync : bool;
  w_syncrate : Z;
  w_lastsync : Z;
}.
#[export] Instance Wal_settable : Settable Wal :=
  fun r => mkWal (w_filesize r) (w_use
    r) (w_head r) (w_cur r) (w_tail r) (w_nfile r) (w_next r) (w_resv r) (w_alive r)
    (w_nmig r) (w_nrec r) (w_wantsync r) (w_syncrate r) (w_lastsync r).
#[export] Instance set_w_filesize : Setter w_filesize := ltac:(solve_setter).
#[export] Instance set_w_use : Setter w_use := ltac:(solve_setter).
#[export] Instance set_w_head : Setter w_head := ltac:(solve_setter).
#[export] Instance set_w_cur : Setter w_cur := ltac:(solve_setter).
#[export] Instance set_w_tail : Setter w_tail := ltac:(solve_setter).
#[export] Instance set_w_nfile : Setter w_nfile := ltac:(solve_setter).
#[export] Instance set_w_next : Setter w_next := ltac:(solve_setter).
#[export] Instance set_w_resv : Setter w_resv := ltac:(solve_setter).
#[export] Instance set_w_alive : Setter w_alive := ltac:(solve_setter).
#[export] Instance set_w_nmig : Setter w_nmig := ltac:(solve_setter).
#[export] Instance set_w_nrec : Setter w_nrec := ltac:(solve_setter).
#[export] Instance set_w_wantsync : Setter w_wantsync := ltac:(solve_setter).
#[export] Instance set_w_syncrate : Setter w_syncrate := ltac:(solve_setter).
#[export] Instance set_w_lastsync : Setter w_lastsync := ltac:(solve_setter).

(** The static variables of [job.c]: the hash table of all jobs.  A bucket
    missing from [all_jobs] is NULL. *)
Record JobTable := mkJobTable {
  next_id : Z;
  cur_prime : Z;
  all_jobs : gmap Z jobp;
  all_jobs_cap : Z;
  all_jobs_used : Z;
  hash_table_was_oom : bool;
}.
#[export] Instance JobTable_settable : Settable JobTable :=
  fun r => mkJobTable
    (next_id r) (cur_prime r) (all_jobs r) (all_jobs_cap r) (all_jobs_used r)
    (hash_table_was_oom r).
#[export] Instance set_next_id : Setter next_id := ltac:(solve_setter).
#[export] Instance set_cur_prime : Setter cur_prime := ltac:(solve_setter).
#[export] Instance set_all_jobs : Setter all_jobs := ltac:(solve_setter).
#[export] Instance set_all_jobs_cap : Setter all_jobs_cap := ltac:(solve_setter).
#[export] Instance set_all_jobs_used : Setter all_jobs_used := ltac:(solve_setter).
#[export] Instance set_hash_table_was_oom : Setter hash_table_was_oom := ltac:(solve_setter).

(** The static counters of [conn.c]. *)
Record ConnCounts := mkConnCounts {
  cur_conn_ct : Z;
  cur_worker_ct : Z;
  cur_producer_ct : Z;
  tot_conn_ct : Z;
}.
#[export] Instance ConnCounts_settable : Settable ConnCounts :=
  fun r => mkConnCounts
    (cur_conn_ct r) (cur_worker_ct r) (cur_producer_ct r) (tot_conn_ct r).
#[export] Instance set_cur_conn_ct : Setter cur_conn_ct := ltac:(solve_setter).
#[export] Instance set_cur_worker_ct : Setter cur_worker_ct := ltac:(solve_setter).
#[export] Instance set_cur_producer_ct : Setter cur_producer_ct := ltac:(solve_setter).
#[export] Instance set_tot_conn_ct : Setter tot_conn_ct := ltac:(solve_setter).

(** Nodes of the lists linked by [prev]/[next]: a job, or the header embedded
    in a tube, in a connection, or on the stack during recovery. *)
Inductive node :=
  | NJob (j : jobp)
  | NBuried (t : tubep)
  | NReserved (c : connp)
  | NReplay.
#[export] Instance node_eq_dec : EqDecision node.
Proof. solve_decision. Defined.
#[export] Instance node_countable : Countable node.
Proof.
  apply (inj_countable'
    (fun n => match n with
              | NJob j => inl (inl j) | NBuried t => inl (inr t)
              | NReserved c => inr (inl c) | NReplay => inr (inr tt) end)
    (fun s => match s with
              | inl (inl j) => NJob j | inl (inr t) => NBuried t
              | inr (inl c) => NReserved c | inr (inr _) => NReplay end)).
  by intros [].
Defined.

(** Nodes of the lists linked by [fprev]/[fnext]: the jobs of a log file. *)
Inductive fnode := FJob (j : jobp) | FHead (f : filep).
#[export] Instance fnode_eq_dec : EqDecision fnode.
Proof. solve_decision. Defined.
#[export] Instance fnode_countable : Countable fnode.
Proof.
  apply (inj_countable'
    (fun n => match n with FJob j => inl j | FHead f => inr f end)
    (fun s => match s with inl j => FJob j | inr f => FHead f end)).
  by intros [].
Defined.

(** What the process has asked of the operating system: bytes written to a
    descriptor, descriptors closed, log files removed. *)
Inductive event :=
  | EvWrite (fd : Z) (data : bytes)
  | EvClose (fd : Z)
  | EvUnlink (seq : Z).

(** The state of the process. *)
Record St := mkSt {
  st_jobs : gmap jobp Job;
  st_tubes : gmap tubep Tube;
  st_conns : gmap connp Conn;
  st_files : gmap filep File;
  st_links : gmap node (node * node);
  st_flinks : gmap fnode (option fnode * option fnode);
  st_table : JobTable;
  st_counts : ConnCounts;
  tubes : Ms tubep;
  default_tube : option tubep;
  ready_ct : Z;
  timeout_ct : Z;
  op_ct : list Z;
  global_stat : stats;
  drain_mode : bool;
  started_at : Z;
  epollq : option connp;
  job_data_size_limit : Z;
  srv_wal : Wal;
  srv_conns : Heap connp;
  st_trace : list event;
  st_tick : nat;
}.
#[export] Instance St_settable : Settable St :=
  fun r => mkSt (st_jobs r) (st_tubes r)
    (st_conns r) (st_files r) (st_links r) (st_flinks r) (st_table r) (st_counts r)
    (tubes r) (default_tube r) (ready_ct r) (timeout_ct r) (op_ct r) (global_stat r)
    (drain_mode r) (started_at r) (epollq r) (job_data_size_limit r) (srv_wal r)
    (srv_conns r) (st_trace r) (st_tick r).
#[export] Instance set_st_jobs : Setter st_jobs := ltac:(solve_setter).
#[export] Instance set_st_tubes : Setter st_tubes := ltac:(solve_setter).
#[export] Instance set_st_conns : Setter st_conns := ltac:(solve_setter).
#[export] Instance set_st_files : Setter st_files := ltac:(solve_setter).
#[export] Instance set_st_links : Setter st_links := ltac:(solve_setter).
#[export] Instance set_st_flinks : Setter st_flinks := ltac:(solve_setter).
#[export] Instance set_st_table : Setter st_table := ltac:(solve_setter).
#[export] Instance set_st_counts : Setter st_counts := ltac:(solve_setter).
#[export] Instance set_tubes : Setter tubes := ltac:(solve_setter).
#[export] Instance set_default_tube : Setter default_tube := ltac:(solve_setter).
#[export] Instance set_ready_ct : Setter ready_ct := ltac:(solve_setter).
#[export] Instance set_timeout_ct : Setter timeout_ct := ltac:(solve_setter).
#[export] Instance set_op_ct : Setter op_ct := ltac:(solve_setter).
#[export] Instance set_global_stat : Setter global_stat := ltac:(solve_setter).
#[export] Instance set_drain_mode : Setter drain_mode := ltac:(solve_setter).
#[export] Instance set_started_at : Setter started_at := ltac:(solve_setter).
#[export] Instance set_epollq : Setter epollq := ltac:(solve_setter).
#[export] Instance set_job_data_size_limit : Setter job_data_size_limit := ltac:(solve_setter).
#[export] Instance set_srv_wal : Setter srv_wal := ltac:(solve_setter).
#[export] Instance set_srv_conns : Setter srv_conns := ltac:(solve_setter).
#[export] Instance set_st_trace : Setter st_trace := ltac:(solve_setter).
#[export] Instance set_st_tick : Setter st_tick := ltac:(solve_setter).

(** States are equal when all their components are. *)
Lemma St_eq (s s' : St) :
  st_jobs s = st_jobs s' → st_tubes s = st_tubes s' → st_conns s = st_conns s' →
  st_files s = st_files s' → st_links s = st_links s' → st_flinks s = st_flinks s' →
  st_table s = st_table s' → st_counts s = st_counts s' → tubes s = tubes s' →
  default_tube s = default_tube s' → ready_ct s = ready_ct s' → timeout_ct s = timeout_ct s' →
  op_ct s = op_ct s' → global_stat s = global_stat s' → drain_mode s = drain_mode s' →
  started_at s = started_at s' → epollq s = epollq s' → job_data_size_limit s = job_data_size_limit s' →
  srv_wal s = srv_wal s' → srv_conns s = srv_conns s' → st_trace s = st_trace s' →
  st_tick s = st_tick s' → s = s'.
Proof. destruct s, s'. simpl. intros. by subst. Qed.
