(* ===== verification/Monad.v ===== *)
(** The monad of the code and its program logic.

    [Env] is the operating system: the clock, the allocator and the results of
    system calls, as functions of a counter that every call advances.  [wp m Q
    s] says that [m] run from [s] neither is undefined nor exits nor loops, and
    ends in a state and with a value satisfying [Q]. *)
From S2P Require Import Prelude Heap Ms State.

(** ** The operating system *)

Inductive errno := EAGAIN | EINTR | EWOULDBLOCK | EOTHER.

(** A system call returns -1 and sets [errno], or succeeds. *)
Inductive ioresult (A : Type) := IoErr (e : errno) | IoOk (a : A).
Arguments IoErr {A} e.
Arguments IoOk {A} a.

Class Env := {
  e_clock : nat → Z;
  (** NULL, or a hint for the address of the new object *)
  e_malloc : nat → option positive;
  e_read : nat → Z → nat → ioresult bytes;
  e_write : nat → Z → bytes → ioresult nat;
  (** [epoll_ctl] succeeds *)
  e_epoll_ctl : nat → Z → bool;
  (** creation of a log file: open, falloc and the header write succeed *)
  e_falloc : nat → Z → bool;
}.

(** ** The monad *)

Inductive stop := Undefined | Exit (code : Z) | OutOfFuel.
Inductive res (A : Type) := Ret (a : A) (s : St) | Stop (r : stop).
Arguments Ret {A} a s.
Arguments Stop {A} r.

Definition M (A : Type) : Type := St → res A.
#[export] Instance M_ret : MRet M := fun A a s => Ret a s.
#[export] Instance M_bind : MBind M := fun A B k m s =>
  match m s with Ret a s' => k a s' | Stop r => Stop r end.

Definition ub {A} : M A := fun _ => Stop Undefined.
Definition out_of_fuel {A} : M A := fun _ => Stop OutOfFuel.
Definition exit {A} (code : Z) : M A := fun _ => Stop (Exit code).
Definition gets {A} (f : St → A) : M A := fun s => Ret (f s) s.
Definition modify (f : St → St) : M unit := fun s => Ret tt (f s).
Definition emit (e : event) : M unit := modify (fun s => s <| st_trace ::= cons e |>).

(** A partial read: [None] is an access out of the bounds of an object. *)
Definition from_option {A} (o : option A) : M A :=
  match o with Some a => mret a | None => ub end.

(** The object a pointer points to; NULL and dangling pointers are undefined. *)
Definition deref {V} (m : St → gmap positive V) (p : positive) : M V :=
  s ← gets id; from_option (m s !! p).
Definition nonnull {A} (p : option A) : M A := from_option p.

(** [p->... = ...] *)
Definition update {V} (m : St → gmap positive V) `{!Setter m} (p : positive)
    (f : V → V) : M unit :=
  v ← deref m p; modify (fun s => s <| m ::= <[p := f v]> |>).

Section os.
Context {E : Env}.

Definition tick : M nat :=
  fun s => Ret (st_tick s) (s <| st_tick ::= S |>).

(** [time.c] *)
Definition nanoseconds : M Z := n ← tick; mret (e_clock n).

(** [malloc] of an array: only whether it succeeds matters. *)
Definition malloc_ok : M bool :=
  n ← tick; mret (match e_malloc n with Some _ => true | None => false end).

(** [malloc] of an object: any address that is not in use. *)
Definition malloc {V} (m : St → gmap positive V) `{!Setter m} (v : V)
    : M (option positive) :=
  n ← tick;
  s ← gets id;
  match e_malloc n with
  | None => mret None
  | Some hint =>
      let p := match m s !! hint with
               | None => hint
               | Some _ => fresh (dom (m s))
               end in
      modify (fun s => s <| m ::= <[p := v]> |>);;
      mret (Some p)
  end.
End os.

Definition free {V} (m : St → gmap positive V) `{!Setter m} (p : positive) : M unit :=
  _ ← deref m p; modify (fun s => s <| m ::= delete p |>).

(** Run [f] on the elements of a list, in order. *)
Fixpoint forM {A} (l : list A) (f : A → M unit) : M unit :=
  match l with
  | [] => mret tt
  | x :: l => f x;; forM l f
  end.

(** ** Weakest preconditions *)

Definition wp {A} (m : M A) (Q : A → St → Prop) (s : St) : Prop :=
  match m s with Ret a s' => Q a s' | Stop _ => False end.

Section wp.
Context {A B V : Type}.
Implicit Types (s : St).

Lemma wp_Ret (m : M A) Q s : wp m Q s ↔ ∃ a s', m s = Ret a s' ∧ Q a s'.
Proof. unfold wp. destruct (m s); naive_solver. Qed.

Lemma wp_ret (a : A) Q s : Q a s → wp (mret a) Q s.
Proof. done. Qed.

Lemma wp_bind (m : M A) (k : A → M B) Q s :
  wp m (fun a => wp (k a) Q) s → wp (m ≫= k) Q s.
Proof. unfold wp, mbind, M_bind. by destruct (m s). Qed.

Lemma wp_bind_inv (m : M A) (k : A → M B) Q s :
  wp (m ≫= k) Q s → wp m (fun a => wp (k a) Q) s.
Proof. unfold wp, mbind, M_bind. by destruct (m s). Qed.

Lemma wp_mono (m : M A) (Q Q' : A → St → Prop) s :
  wp m Q s → (∀ a s', Q a s' → Q' a s') → wp m Q' s.
Proof. unfold wp. destruct (m s); auto. Qed.

Lemma wp_and (m : M A) (Q Q' : A → St → Prop) s :
  wp m Q s → wp m Q' s → wp m (fun a s' => Q a s' ∧ Q' a s') s.
Proof. unfold wp. by destruct (m s). Qed.

Lemma wp_gets (f : St → A) Q s : Q (f s) s → wp (gets f) Q s.
Proof. done. Qed.

Lemma wp_modify f (Q : unit → St → Prop) s : Q tt (f s) → wp (modify f) Q s.
Proof. done. Qed.

Lemma wp_from_option (o : option A) a Q s :
  o = Some a → Q a s → wp (from_option o) Q s.
Proof. by intros ->. Qed.

Lemma wp_deref (m : St → gmap positive V) p v Q s :
  m s !! p = Some v → Q v s → wp (deref m p) Q s.
Proof. intros Hp HQ. unfold wp, deref, gets, mbind, M_bind. simpl. by rewrite Hp. Qed.

Lemma wp_update (m : St → gmap positive V) `{!Setter m} p f v (Q : unit → St → Prop) s :
  m s !! p = Some v → Q tt (s <| m ::= <[p := f v]> |>) → wp (update m p f) Q s.
Proof.
  intros Hp HQ. unfold wp, update, deref, gets, mbind, M_bind. simpl. by rewrite Hp.
Qed.

Lemma wp_free (m : St → gmap positive V) `{!Setter m} p v (Q : unit → St → Prop) s :
  m s !! p = Some v → Q tt (s <| m ::= delete p |>) → wp (free m p) Q s.
Proof.
  intros Hp HQ. unfold wp, free, deref, gets, mbind, M_bind. simpl. by rewrite Hp.
Qed.

Lemma wp_tick Q s : Q (st_tick s) (s <| st_tick ::= S |>) → wp tick Q s.
Proof. done. Qed.

Lemma wp_nanoseconds {E : Env} Q s :
  (∀ t, Q t (s <| st_tick ::= S |>)) → wp nanoseconds Q s.
Proof. intros HQ. apply HQ. Qed.

Lemma wp_malloc_ok {E : Env} Q s :
  (∀ b, Q b (s <| st_tick ::= S |>)) → wp malloc_ok Q s.
Proof. intros HQ. apply HQ. Qed.

Lemma wp_if (b : bool) (m1 m2 : M A) Q s :
  (b = true → wp m1 Q s) → (b = false → wp m2 Q s) →
  wp (if b then m1 else m2) Q s.
Proof. destruct b; auto. Qed.
End wp.

Lemma wp_malloc {E : Env} {V} (m : St → gmap positive V) `{!Setter m} v Q s
    (s1 := s <| st_tick ::= S |>) :
  m s1 = m s →
  Q None s1 →
  (∀ p, m s !! p = None → Q (Some p) (s1 <| m ::= <[p := v]> |>)) →
  wp (malloc m v) Q s.
Proof.
  intros Hm HN HS. unfold malloc. do 2 apply wp_bind. apply wp_gets. fold s1.
  change (wp (match e_malloc (st_tick s) with
    | None => mret None
    | Some hint =>
        let p := match m s1 !! hint with None => hint | Some _ => fresh (dom (m s1)) end in
        modify (fun s => s <| m ::= <[p := v]> |>);; mret (Some p)
    end) Q s1).
  destruct (e_malloc (st_tick s)) as [hint|]; [|done].
  cbv zeta. apply HS. rewrite Hm. destruct (m s !! hint) eqn:Hh; [|done].
  apply not_elem_of_dom. apply is_fresh.
Qed.

(** A loop over a list keeps an invariant indexed by what remains to do. *)
Lemma wp_forM {A} (l : list A) f (I : list A → St → Prop) (Q : unit → St → Prop) s :
  I l s →
  (∀ x l s, I (x :: l) s → wp (f x) (λ _ s', I l s') s) →
  (∀ s, I [] s → Q tt s) →
  wp (forM l f) Q s.
Proof.
  intros HI Hf HQ. revert s HI. induction l as [|x l IH]; intros s HI; simpl; [by apply HQ|].
  apply wp_bind. eapply wp_mono; [by apply Hf|]. intros [] s' HI'. by apply IH.
Qed.

(** ** Symbolic execution *)

(** The value of a map of an updated state at an address. *)
Ltac wlookup :=
  rsimpl;
  first
    [ eassumption
    | rewrite lookup_insert_eq; reflexivity
    | rewrite lookup_insert_ne by (assumption || (intros ->; congruence)); wlookup ].

(** One step of a straight-line program. *)
Ltac wstep :=
  lazymatch goal with
  | |- wp (mbind _ _) _ _ => apply wp_bind
  | |- wp (mret _) _ _ => apply wp_ret
  | |- wp (gets _) _ _ => apply wp_gets
  | |- wp (modify _) _ _ => apply wp_modify
  | |- wp (emit _) _ _ => apply wp_modify
  | |- wp (deref _ _) _ _ => eapply wp_deref; [wlookup|]
  | |- wp (nonnull _) _ _ => eapply wp_from_option; [rsimpl; eassumption || reflexivity|]
  | |- wp (update _ _ _) _ _ => eapply wp_update; [wlookup|]
  | |- wp (free _ _) _ _ => eapply wp_free; [wlookup|]
  | |- wp nanoseconds _ _ => apply wp_nanoseconds; intros ?
  | |- wp malloc_ok _ _ => apply wp_malloc_ok; intros ?
  end; cbv beta; unfold Datatypes.id.
Ltac wsteps := repeat wstep.
