(* ===== verification/JobList.v ===== *)
(** The circular doubly linked lists of jobs of [job.c].

    The same [prev]/[next] fields chain the buried jobs of a tube, the reserved
    jobs of a connection and the jobs read from the log.  [dll L h l] says that
    in the link map [L] the header [h] starts the list [l]; the operations are
    shown to insert at the end, to remove and to test emptiness, and to leave
    alone every node outside the lists they work on. *)
From S2P Require Import Prelude State Monad.

(** ** Operations *)

Definition get_link (n : node) : M (node * node) :=
  s ← gets id; from_option (st_links s !! n).
Definition get_prev (n : node) : M node := pn ← get_link n; mret pn.1.
Definition get_next (n : node) : M node := pn ← get_link n; mret pn.2.
Definition put_link (n : node) (pn : node * node) : M unit :=
  modify (fun s => s <| st_links ::= <[n := pn]> |>).
Definition set_prev (n v : node) : M unit := pn ← get_link n; put_link n (v, pn.2).
Definition set_next (n v : node) : M unit := pn ← get_link n; put_link n (pn.1, v).

Definition job_list_reset (head : node) : M unit := put_link head (head, head).

Definition job_list_is_empty (head : node) : M bool :=
  pn ← get_link head;
  mret (bool_decide (pn.2 = head) && bool_decide (pn.1 = head)).

Definition job_list_remove (j : option node) : M (option node) :=
  match j with
  | None => mret None
  | Some j =>
      e ← job_list_is_empty j;
      if e : bool then mret None
      else
        p ← get_prev j;
        x ← get_next j;
        set_prev x p;;
        set_next p x;;
        job_list_reset j;;
        mret (Some j)
  end.

Definition job_list_insert (head j : node) : M unit :=
  e ← job_list_is_empty j;
  if negb e then mret tt
  else
    last ← get_prev head;
    put_link j (last, head);;
    set_next last j;;
    set_prev head j.

(** ** Lists in the link map *)

Abbreviation linkmap := (gmap node (node * node)).

Definition lprev (L : linkmap) (n : node) : option node := fst <$> L !! n.
Definition lnext (L : linkmap) (n : node) : option node := snd <$> L !! n.

(** [a] is linked to [b] through the nodes [l]. *)
Fixpoint seg (L : linkmap) (a : node) (l : list node) (b : node) : Prop :=
  match l with
  | [] => lnext L a = Some b ∧ lprev L b = Some a
  | x :: l => lnext L a = Some x ∧ lprev L x = Some a ∧ seg L x l b
  end.

Definition dll (L : linkmap) (h : node) (l : list node) : Prop :=
  NoDup (h :: l) ∧ seg L h l h.

(** A node in no list. *)
Definition isolated (L : linkmap) (n : node) : Prop := L !! n = Some (n, n).

Section links.
Implicit Types (L : linkmap) (a b h n p x : node) (l : list node).

Lemma seg_ext L L' a l b :
  (∀ n, n ∈ a :: l → lnext L' n = lnext L n) →
  (∀ n, n ∈ l ++ [b] → lprev L' n = lprev L n) →
  seg L a l b → seg L' a l b.
Proof.
  revert a. induction l as [|x l IH]; intros a Hn Hp; simpl.
  - intros [??]. rewrite Hn, Hp by set_solver. done.
  - intros (?&?&?). rewrite Hn, Hp by set_solver. split_and!; [done..|].
    apply IH; [set_solver..|done].
Qed.

Lemma seg_app L a l1 x l2 b :
  seg L a (l1 ++ x :: l2) b ↔ seg L a l1 x ∧ seg L x l2 b.
Proof.
  revert a. induction l1 as [|y l1 IH]; intros a; simpl; [tauto|].
  rewrite IH. tauto.
Qed.

Lemma seg_lprev L a l b : seg L a l b → lprev L b = Some (default a (last l)).
Proof.
  destruct l as [|x l _] using rev_ind; simpl; [naive_solver|].
  rewrite seg_app, last_snoc. simpl. naive_solver.
Qed.

Lemma seg_lnext L a l b : seg L a l b → lnext L a = Some (default b (head l)).
Proof. destruct l; simpl; naive_solver. Qed.

Lemma dll_link L h l : dll L h l → L !! h = Some (default h (last l), default h (head l)).
Proof.
  intros [_ Hs]. pose proof (seg_lprev _ _ _ _ Hs) as Hp.
  pose proof (seg_lnext _ _ _ _ Hs) as Hn. unfold lprev, lnext in *.
  destruct (L !! h) as [[p x]|]; simpl in *; naive_solver.
Qed.

Lemma dll_nil L h : isolated L h → dll L h [].
Proof.
  intros Hi. split; [apply NoDup_singleton|]. simpl. unfold lnext, lprev.
  by rewrite Hi.
Qed.

Lemma dll_ext L L' h l :
  (∀ n, n ∈ h :: l → L' !! n = L !! n) → dll L h l → dll L' h l.
Proof.
  intros HL [Hnd Hs]. split; [done|]. eapply seg_ext; [..|exact Hs];
    intros n Hn; unfold lnext, lprev; rewrite HL; set_solver.
Qed.

(** A member of a non-empty list is not isolated. *)
Lemma dll_not_isolated L h l n : dll L h l → n ∈ l → ¬ isolated L n.
Proof.
  intros [Hnd Hs] (l1 & l2 & ->)%list_elem_of_split Hi.
  apply seg_app in Hs as [H1 _]. apply seg_lprev in H1.
  unfold lprev in H1. rewrite Hi in H1. simpl in H1. simplify_eq.
  destruct l1 as [|y l1 _] using rev_ind; simpl in *.
  - apply NoDup_cons in Hnd as [Hnd _]. set_solver.
  - rewrite last_snoc in *. simpl in *. subst.
    apply NoDup_cons in Hnd as [_ Hnd]. rewrite <- app_assoc in Hnd. simpl in Hnd.
    apply NoDup_app in Hnd as (_ & _ & Hnd). apply NoDup_cons in Hnd as [Hnd _].
    set_solver.
Qed.

(** The link map after [job_list_insert]. *)
Definition link_insert h n L : linkmap :=
  let p := default h (lprev L h) in
  let L := <[n := (p, h)]> L in
  let L := <[p := (default p (lprev L p), n)]> L in
  <[h := (n, default h (lnext L h))]> L.

Lemma link_insert_dll L h l n :
  dll L h l → isolated L n → n ∉ h :: l →
  dll (link_insert h n L) h (l ++ [n]) ∧
  ∀ m, m ∉ n :: h :: l → link_insert h n L !! m = L !! m.
Proof.
  intros [Hnd Hs] Hn Hin. pose proof (seg_lprev _ _ _ _ Hs) as Hp.
  unfold link_insert. rewrite Hp. simpl. set (p := default h (last l)) in *.
  assert (p ∈ h :: l) as Hpl.
  { subst p. destruct (last l) eqn:E; simpl; [|left].
    right. by apply last_Some_elem_of in E. }
  assert (n ≠ h ∧ n ≠ p) as [Hnh Hnp] by (split; intros ->; set_solver).
  set (L1 := <[n := _]> L). set (L2 := <[p := _]> L1).
  set (L3 := <[h := _]> L2).
  assert (∀ m, lnext L3 m = if decide (m = p) then Some n
    else if decide (m = n) then Some h else lnext L m) as Hnext.
  { intros m. unfold lnext, L3. rewrite lookup_insert.
    destruct (decide (h = m)) as [<-|Hhm]; simpl.
    - unfold lnext, L2. rewrite lookup_insert.
      destruct (decide (p = h)) as [->|].
      + simpl. by rewrite decide_True.
      + rewrite !decide_False by congruence. unfold L1.
        rewrite lookup_insert_ne by done.
        apply seg_lnext in Hs. unfold lnext in Hs. rewrite Hs. done.
    - unfold L2. rewrite lookup_insert. destruct (decide (p = m)) as [<-|].
      + by rewrite decide_True.
      + rewrite decide_False by congruence. unfold L1. rewrite lookup_insert.
        repeat case_decide; congruence || done. }
  assert (∀ m, lprev L3 m = if decide (m = h) then Some n
    else if decide (m = n) then Some p else lprev L m) as Hprev.
  { intros m. unfold lprev at 1, L3. rewrite lookup_insert.
    destruct (decide (h = m)) as [<-|Hhm]; simpl; [by rewrite decide_True|].
    rewrite decide_False by congruence.
    assert (lprev L1 p = lprev L p) as HL1.
    { unfold lprev, L1. by rewrite lookup_insert_ne. }
    unfold L2. rewrite lookup_insert. destruct (decide (p = m)) as [<-|]; simpl.
    - rewrite decide_False by congruence. rewrite HL1.
      destruct (last l) as [z|] eqn:E; simpl in p; [|done]. subst p.
      apply last_Some in E as [l' ->]. apply seg_app in Hs as [Hs1 _].
      apply seg_lprev in Hs1. by rewrite Hs1.
    - unfold L1. rewrite lookup_insert. by repeat case_decide; congruence || done. }
  split.
  - split.
    { rewrite app_comm_cons. apply NoDup_app. split_and!; [done|set_solver|].
      apply NoDup_singleton. }
    apply seg_app. split.
    + destruct l as [|z l' _] using rev_ind; simpl in *.
      { subst p. rewrite Hnext, Hprev, decide_True, decide_False, decide_True by done. done. }
      assert (p = z) as Hpz by (subst p; by rewrite last_snoc).
      clearbody p. subst p.
      apply seg_app in Hs as [Hs1 _]. apply seg_app. split.
      * eapply seg_ext; [..|exact Hs1]; intros m Hm.
        -- rewrite Hnext, !decide_False; [done|set_solver|].
           intros ->. apply NoDup_cons in Hnd as [Hnd1 Hnd].
           apply elem_of_cons in Hm as [->|Hm]; [set_solver|].
           apply NoDup_app in Hnd as (_ & Hnd & _). eapply Hnd; set_solver.
        -- rewrite Hprev, !decide_False; [done|set_solver|].
           intros ->. apply NoDup_cons in Hnd as [Hnd1 _]. done.
      * simpl. rewrite Hnext, Hprev, decide_True, decide_False, decide_True by done. done.
    + simpl. rewrite Hnext, Hprev, decide_False, !decide_True by done. done.
  - intros m Hm. unfold L3, L2, L1. rewrite !lookup_insert_ne; [done|..]; set_solver.
Qed.

(** The link map after [job_list_remove]. *)
Definition link_remove n L : linkmap :=
  let p := default n (lprev L n) in
  let x := default n (lnext L n) in
  let L := <[x := (p, default x (lnext L x))]> L in
  let L := <[p := (default p (lprev L p), x)]> L in
  <[n := (n, n)]> L.

Lemma link_remove_dll L h l1 n l2 :
  dll L h (l1 ++ n :: l2) →
  dll (link_remove n L) h (l1 ++ l2) ∧ isolated (link_remove n L) n ∧
  ∀ m, m ∉ h :: l1 ++ n :: l2 → link_remove n L !! m = L !! m.
Proof.
  intros [Hnd Hs]. apply seg_app in Hs as [Hs1 Hs2].
  pose proof (seg_lprev _ _ _ _ Hs1) as Hp. pose proof (seg_lnext _ _ _ _ Hs2) as Hx.
  unfold link_remove. rewrite Hp, Hx. simpl.
  set (p := default h (last l1)) in *. set (x := default h (head l2)) in *.
  assert (p ∈ h :: l1) as Hpl.
  { subst p. destruct (last l1) eqn:E; simpl; [|left].
    right. by apply last_Some_elem_of in E. }
  assert (x ∈ l2 ++ [h]) as Hxl.
  { subst x. destruct l2; simpl; set_solver. }
  assert (NoDup (n :: h :: l1 ++ l2)) as Hnd'.
  { revert Hnd. apply NoDup_Permutation_proper. solve_Permutation. }
  apply NoDup_cons in Hnd' as [Hnn Hnd'].
  assert (n ≠ p ∧ n ≠ x) as [Hnp Hnx] by (split; intros ->; set_solver).
  set (L1 := <[x := _]> L). set (L2 := <[p := _]> L1). set (L3 := <[n := _]> L2).
  assert (∀ m, m ≠ n → lnext L3 m = if decide (m = p) then Some x else lnext L m) as Hnext.
  { intros m Hm. unfold lnext at 1, L3. rewrite lookup_insert_ne by done.
    unfold L2. rewrite lookup_insert. destruct (decide (p = m)) as [<-|].
    { by rewrite decide_True. }
    rewrite decide_False by congruence. unfold L1. rewrite lookup_insert.
    destruct (decide (x = m)) as [<-|]; [|done]. simpl.
    assert (is_Some (lnext L x)) as [y ->]; [|done].
    subst x. destruct l2 as [|z l2]; simpl in *.
    - rewrite (seg_lnext _ _ _ _ Hs1). eauto.
    - destruct Hs2 as (_ & _ & Hs2). rewrite (seg_lnext _ _ _ _ Hs2). eauto. }
  assert (∀ m, m ≠ n → lprev L3 m = if decide (m = x) then Some p else lprev L m) as Hprev.
  { intros m Hm. unfold lprev at 1, L3. rewrite lookup_insert_ne by done.
    assert (lprev L1 p = if decide (p = x) then Some p else lprev L p) as HL1.
    { unfold lprev, L1. rewrite lookup_insert. repeat case_decide; congruence || done. }
    unfold L2. rewrite lookup_insert. destruct (decide (p = m)) as [<-|]; simpl.
    - rewrite HL1. case_decide; [done|].
      assert (is_Some (lprev L p)) as [y ->]; [|done].
      subst p. destruct (last l1) as [z|] eqn:E; simpl in *.
      + apply last_Some in E as [l' ->]. apply seg_app in Hs1 as [Hs1 _].
        rewrite (seg_lprev _ _ _ _ Hs1). eauto.
      + rewrite (seg_lprev _ _ _ _ Hs2). eauto.
    - unfold L1. rewrite lookup_insert. repeat case_decide; congruence || done. }
  split; [split; [done|]|split].
  - assert (lnext L3 p = Some x ∧ lprev L3 x = Some p) as [Hjn Hjp].
    { rewrite Hnext, Hprev, !decide_True by done. done. }
    assert (seg L3 h l1 x) as Hs1'.
    { destruct l1 as [|z l' _] using rev_ind; simpl in *; [done|].
      assert (p = z) as Hpz by (subst p; by rewrite last_snoc).
      clearbody p. subst p.
      apply seg_app in Hs1 as [Hs1 _]. apply seg_app. split; [|done].
      rewrite !NoDup_cons, !NoDup_app in Hnd'.
      destruct Hnd' as (Hh & (_ & Hz & _) & Hd & _).
      eapply seg_ext; [..|exact Hs1]; intros m Hm.
      - rewrite Hnext, decide_False; [done| |set_solver].
        intros ->. apply elem_of_cons in Hm as [->|Hm]; [set_solver|].
        eapply Hz; set_solver.
      - rewrite Hprev, decide_False; [done| |set_solver].
        intros ->. apply elem_of_app in Hxl as [Hxl|Hxl].
        + eapply Hd; [|exact Hxl]. set_solver.
        + apply list_elem_of_singleton in Hxl as ->. set_solver. }
    destruct l2 as [|z l2]; simpl in *.
    { by rewrite app_nil_r. }
    apply seg_app. subst x. split; [done|]. destruct Hs2 as (_ & _ & Hs2).
    rewrite !NoDup_cons, !NoDup_app, NoDup_cons in Hnd'.
    destruct Hnd' as (Hh & _ & Hd & Hz & _).
    eapply seg_ext; [..|exact Hs2]; intros m Hm.
    + rewrite Hnext, decide_False; [done| |set_solver].
      intros ->. apply elem_of_cons in Hpl as [Hpl|Hpl].
      * apply Hh. rewrite <- Hpl. apply elem_of_app. by right.
      * by eapply Hd; [exact Hpl|].
    + rewrite Hprev, decide_False; [done| |].
      * simpl. intros ->. apply elem_of_app in Hm as [Hm|Hm]; [done|].
        apply list_elem_of_singleton in Hm as ->. apply Hh. set_solver.
      * intros ->. apply Hnn. clear -Hm. set_solver.
  - unfold isolated, L3. by rewrite lookup_insert_eq.
  - intros m Hm. unfold L3, L2, L1. rewrite !lookup_insert_ne; [done|..]; set_solver.
Qed.
End links.

(** ** The operations on the state *)
Section specs.
Implicit Types (s : St) (h n : node) (l : list node).

Lemma get_link_eq s n pn : st_links s !! n = Some pn → get_link n s = Ret pn s.
Proof. intros H. unfold get_link, gets, mbind, M_bind. simpl. by rewrite H. Qed.

Lemma wp_job_list_reset h (Q : unit → St → Prop) s :
  Q tt (s <| st_links ::= <[h := (h, h)]> |>) → wp (job_list_reset h) Q s.
Proof. done. Qed.

Lemma wp_job_list_is_empty h l (Q : bool → St → Prop) s :
  dll (st_links s) h l → Q (bool_decide (l = [])) s → wp (job_list_is_empty h) Q s.
Proof.
  intros Hd HQ. pose proof (dll_link _ _ _ Hd) as Hl. destruct Hd as [Hnd _].
  unfold job_list_is_empty, wp, mbind, M_bind. rewrite (get_link_eq _ _ _ Hl). simpl.
  replace (_ && _) with (bool_decide (l = [])); [done|].
  apply NoDup_cons in Hnd as [Hnd _].
  destruct l as [|x l]; simpl; [by rewrite !bool_decide_eq_true_2|].
  rewrite (bool_decide_eq_false_2 (x = h)); [done|]. intros ->. apply Hnd. left.
Qed.

Lemma wp_job_list_insert h l n (Q : unit → St → Prop) s :
  dll (st_links s) h l → isolated (st_links s) n → n ∉ h :: l →
  Q tt (s <| st_links ::= link_insert h n |>) → wp (job_list_insert h n) Q s.
Proof.
  intros Hd Hi Hn HQ. pose proof (dll_link _ _ _ Hd) as Hh.
  set (p := default h (last l)) in *.
  assert (p ∈ h :: l) as Hpl.
  { subst p. destruct (last l) eqn:E; simpl; [|left].
    right. by apply last_Some_elem_of in E. }
  assert (is_Some (st_links s !! p)) as [pp Hp].
  { subst p. destruct Hd as [_ Hs]. destruct l as [|z l _] using rev_ind; simpl; [eauto|].
    rewrite last_snoc. simpl. apply seg_app in Hs as [_ [Hs _]].
    unfold lnext in Hs. destruct (st_links s !! z); [eauto|done]. }
  unfold job_list_insert, job_list_is_empty, get_prev, set_prev, set_next,
    put_link, modify, wp, mbind, M_bind.
  rewrite (get_link_eq _ _ _ Hi). simpl. rewrite bool_decide_eq_true_2 by done. simpl.
  rewrite (get_link_eq _ _ _ Hh). simpl.
  erewrite get_link_eq.
  2:{ rsimpl. rewrite lookup_insert_ne; [done|]. intros ->. done. }
  simpl. unfold mret, M_ret.
  set (s2 := rupd st_links (insert p _) _).
  assert (∃ hp hn, st_links s2 !! h = Some (hp, hn) ∧
    hn = default h (lnext (st_links s2) h)) as (hp & hn & Hh2 & Hhn).
  { unfold s2, lnext. rsimpl. destruct (decide (p = h)) as [->|].
    - rewrite lookup_insert_eq. eauto.
    - rewrite !lookup_insert_ne by (set_solver || done). rewrite Hh. simpl. eauto. }
  rewrite (get_link_eq _ _ _ Hh2). simpl.
  replace (s <| st_links ::= link_insert h n |>) with
    (s2 <| st_links ::= <[h := (n, hn)]> |>) in HQ; [exact HQ|].
  rewrite Hhn. destruct s. unfold s2, rupd, set_st_links. simpl in *. f_equal.
  unfold link_insert, lprev. rewrite Hh. simpl.
  rewrite lookup_insert_ne, Hp; [done|]. intros ->. done.
Qed.

Lemma wp_job_list_remove h l1 n l2 (Q : option node → St → Prop) s :
  dll (st_links s) h (l1 ++ n :: l2) →
  Q (Some n) (s <| st_links ::= link_remove n |>) →
  wp (job_list_remove (Some n)) Q s.
Proof.
  intros Hd HQ.
  assert (∃ p x, st_links s !! n = Some (p, x) ∧ p ≠ n ∧ x ≠ n ∧
    is_Some (st_links s !! p) ∧ is_Some (st_links s !! x)) as (p & x & Hn & Hpn & Hxn & [pp Hp] & [px Hx]).
  { destruct Hd as [Hnd Hs]. apply seg_app in Hs as [Hs1 Hs2].
    pose proof (seg_lprev _ _ _ _ Hs1) as Hp. pose proof (seg_lnext _ _ _ _ Hs2) as Hx.
    assert ((n ∉ h :: l1) ∧ (n ∉ l2 ++ [h])) as [Hn1 Hn2].
    { rewrite app_comm_cons in Hnd. apply NoDup_app in Hnd as (_ & Hd & Hnd).
      apply NoDup_cons in Hnd as [Hnd _]. split; [intros ?; eapply (Hd n); [done|left]|].
      intros [?|Hi]%elem_of_app; [done|]. apply list_elem_of_singleton in Hi as ->.
      by apply (Hd h); left. }
    unfold lprev, lnext in Hp, Hx. destruct (st_links s !! n) as [[p x]|] eqn:E; [|done].
    simpl in *. simplify_eq. do 2 eexists; split_and!; [done|..].
    - intros <-. apply Hn1. destruct (last l1) eqn:El; simpl; [right|by left].
      by apply last_Some_elem_of in El.
    - intros <-. apply Hn2. destruct l2; simpl; set_solver.
    - destruct l1 as [|z l' _] using rev_ind; simpl in *.
      + destruct Hs1 as [Hs1 _]. unfold lnext in Hs1. destruct (st_links s !! h); [eauto|done].
      + rewrite last_snoc. simpl. apply seg_app in Hs1 as [_ [Hs1 _]].
        unfold lnext in Hs1. destruct (st_links s !! z); [eauto|done].
    - destruct l2 as [|z l2]; simpl in *.
      + destruct Hs2 as [_ Hs2]. unfold lprev in Hs2. destruct (st_links s !! h); [eauto|done].
      + destruct Hs2 as (_ & Hs2 & _). unfold lprev in Hs2.
        destruct (st_links s !! z); [eauto|done]. }
  assert (st_links s !! n ≠ Some (n, n)) as Hni by congruence.
  replace (s <| st_links ::= link_remove n |>) with
    (s <| st_links ::= <[x := (p, px.2)]> |>
       <| st_links ::= <[p := ((default pp (<[x := (p, px.2)]> (st_links s) !! p)).1, x)]> |>
       <| st_links ::= <[n := (n, n)]> |>) in HQ.
  2:{ destruct s. unfold rupd, set_st_links. simpl in *. f_equal.
      unfold link_remove, lprev, lnext. rewrite Hn. simpl. rewrite Hx. simpl.
      f_equal. f_equal.
      destruct (decide (p = x)) as [->|Hne].
      - by rewrite !lookup_insert_eq.
      - rewrite !lookup_insert_ne, Hp by done. done. }
  unfold job_list_remove, job_list_is_empty, get_prev, get_next, set_prev, set_next,
    put_link, job_list_reset, modify, wp, mbind, M_bind.
  rewrite (get_link_eq _ _ _ Hn). simpl.
  rewrite (bool_decide_eq_false_2 (x = n)) by done. simpl.
  do 2 (rewrite (get_link_eq _ _ _ Hn); simpl). rewrite (get_link_eq _ _ _ Hx). simpl.
  erewrite get_link_eq; [exact HQ|]. rsimpl.
  destruct (decide (x = p)) as [->|].
  - by rewrite lookup_insert_eq.
  - by rewrite lookup_insert_ne, Hp by done.
Qed.
End specs.

(** ** Lists as sets of jobs *)

Definition list_rep (L : linkmap) (h : node) (M : jobp → Prop) : Prop :=
  ∃ l : list jobp, dll L h (NJob <$> l) ∧ ∀ j, j ∈ l ↔ M j.

Section list_rep.
Implicit Types (L : linkmap) (h : node) (M : jobp → Prop) (j x : jobp) (s : St).

(** The nodes of the list. *)
Definition in_list h M (n : node) : Prop := n = h ∨ ∃ x, n = NJob x ∧ M x.

Lemma list_rep_ext L L' h M :
  (∀ n, in_list h M n → L' !! n = L !! n) → list_rep L h M → list_rep L' h M.
Proof.
  intros HL (l & Hd & Hm). exists l. split; [|done].
  eapply dll_ext; [|exact Hd]. intros n [->|(x & -> & Hx)%list_elem_of_fmap]%elem_of_cons;
    apply HL; [by left|right]. exists x. split; [done|by apply Hm].
Qed.

Lemma list_rep_iff L h M M' : (∀ x, M x ↔ M' x) → list_rep L h M → list_rep L h M'.
Proof. intros H (l & Hd & Hm). exists l. split; [done|]. intros x. by rewrite Hm. Qed.

Lemma list_rep_not_isolated L h M j : list_rep L h M → M j → ¬ isolated L (NJob j).
Proof.
  intros (l & Hd & Hm) Mj. eapply dll_not_isolated; [done|].
  apply list_elem_of_fmap. exists j. split; [done|]. by apply Hm.
Qed.

Lemma wp_list_rep_empty h M (Q : bool → St → Prop) s :
  list_rep (st_links s) h M →
  ((∀ j, ¬ M j) → Q true s) → (∀ j, M j → Q false s) → wp (job_list_is_empty h) Q s.
Proof.
  intros (l & Hd & Hm) Ht Hf. eapply wp_job_list_is_empty; [done|].
  destruct l as [|x l]; simpl.
  - apply Ht. intros j Mj%Hm. set_solver.
  - apply (Hf x), Hm. left.
Qed.

Lemma list_rep_insert L h M j :
  list_rep L h M → isolated L (NJob j) → ¬ M j → h ≠ NJob j →
  list_rep (link_insert h (NJob j) L) h (λ x, x = j ∨ M x) ∧
  ∀ n, ¬ in_list h M n → n ≠ NJob j → link_insert h (NJob j) L !! n = L !! n.
Proof.
  intros (l & Hd & Hm) Hi Mj Hh.
  assert (∀ n, n ∈ h :: (NJob <$> l) ↔ in_list h M n) as Hin.
  { intros n. unfold in_list. rewrite elem_of_cons, list_elem_of_fmap. naive_solver. }
  destruct (link_insert_dll L h (NJob <$> l) (NJob j)) as [Hd' Ho]; [done|done| |].
  { rewrite Hin. intros [?|(x & [= <-] & ?)]; congruence || done. }
  split.
  - exists (l ++ [j]). rewrite fmap_app. split; [done|].
    intros x. rewrite elem_of_app, list_elem_of_singleton, Hm. tauto.
  - intros n Hn Hnj. apply Ho. rewrite elem_of_cons, Hin. tauto.
Qed.

Lemma wp_list_rep_insert h M j (Q : unit → St → Prop) s :
  list_rep (st_links s) h M → isolated (st_links s) (NJob j) → ¬ M j → h ≠ NJob j →
  Q tt (s <| st_links ::= link_insert h (NJob j) |>) → wp (job_list_insert h (NJob j)) Q s.
Proof.
  intros (l & Hd & Hm) Hi Mj Hh HQ. eapply wp_job_list_insert; [done|done| |done].
  rewrite elem_of_cons, list_elem_of_fmap. naive_solver.
Qed.

Lemma list_rep_remove L h M j :
  list_rep L h M → M j →
  list_rep (link_remove (NJob j) L) h (λ x, M x ∧ x ≠ j) ∧
  isolated (link_remove (NJob j) L) (NJob j) ∧
  ∀ n, ¬ in_list h M n → link_remove (NJob j) L !! n = L !! n.
Proof.
  intros (l & Hd & Hm) Mj. apply Hm, list_elem_of_split in Mj as (l1 & l2 & ->).
  assert (∀ n, n ∈ h :: (NJob <$> l1 ++ j :: l2) ↔ in_list h M n) as Hin.
  { intros n. unfold in_list. rewrite elem_of_cons, list_elem_of_fmap. naive_solver. }
  pose proof (proj1 Hd) as [_ Hnd]%NoDup_cons. apply NoDup_fmap_1 in Hnd.
  rewrite fmap_app in Hd, Hin. simpl in Hd, Hin.
  destruct (link_remove_dll L h _ _ _ Hd) as (Hd' & Hi & Ho).
  split; [|split; [done|intros n Hn; apply Ho; by rewrite Hin]].
  exists (l1 ++ l2). rewrite fmap_app. split; [done|].
  assert (NoDup (j :: l1 ++ l2)) as [Hnj _]%NoDup_cons.
  { revert Hnd. apply NoDup_Permutation_proper. solve_Permutation. }
  intros x. rewrite <- Hm. split.
  - intros Hx. split; [set_solver|]. by intros ->.
  - intros [Hx Hne]. set_solver.
Qed.

Lemma wp_list_rep_remove h M j (Q : option node → St → Prop) s :
  list_rep (st_links s) h M → M j →
  Q (Some (NJob j)) (s <| st_links ::= link_remove (NJob j) |>) →
  wp (job_list_remove (Some (NJob j))) Q s.
Proof.
  intros (l & Hd & Hm) Mj HQ. apply Hm, list_elem_of_split in Mj as (l1 & l2 & ->).
  rewrite fmap_app in Hd. by eapply wp_job_list_remove.
Qed.

(** The first job of a list that is not empty. *)
Lemma wp_list_rep_next h M j0 (Q : node → St → Prop) s :
  list_rep (st_links s) h M → M j0 →
  (∀ j, M j → Q (NJob j) s) → wp (get_next h) Q s.
Proof.
  intros (l & Hd & Hm) Mj HQ. apply Hm in Mj. destruct l as [|j l]; [set_solver|].
  apply dll_link in Hd. simpl in Hd. unfold get_next. apply wp_bind.
  unfold wp. rewrite (get_link_eq _ _ _ Hd). simpl. apply HQ, Hm. left.
Qed.

(** An isolated node is not removed. *)
Lemma wp_job_list_remove_isolated n (Q : option node → St → Prop) s :
  isolated (st_links s) n → Q None s → wp (job_list_remove (Some n)) Q s.
Proof.
  intros Hi HQ. simpl. apply wp_bind. unfold job_list_is_empty. apply wp_bind.
  unfold wp at 1. rewrite (get_link_eq _ _ _ Hi). apply wp_ret. simpl.
  by rewrite bool_decide_eq_true_2.
Qed.
End list_rep.
