(* ===== verification/JobHash.v ===== *)
(** The hash table of all jobs ([job.c], [primes.c]).

    Buckets are chains through the [ht_next] field of the jobs.  [table_rep s m]
    says that the table of the state [s] represents the finite map [m] from ids
    to jobs; the operations are shown to implement lookup, insertion and
    deletion on that map, including the rehashing they trigger. *)
From S2P Require Import Prelude State Monad.
#[local] Open Scope Z_scope.

Definition NUM_PRIMES : Z := 48.

Definition primes : list Z := [
  12289; 24593; 49193; 98387; 196799; 393611; 787243; 1574491; 3148987;
  6297979; 12595991; 25191989; 50383981; 100767977; 201535967; 403071937;
  806143879; 1612287763; 3224575537; 6449151103; 12898302233; 25796604473;
  51593208973; 103186417951; 206372835917; 412745671837; 825491343683;
  1650982687391; 3301965374803; 6603930749621; 13207861499251;
  26415722998507; 52831445997037; 105662891994103; 211325783988211;
  422651567976461; 845303135952931; 1690606271905871; 3381212543811743;
  6762425087623523; 13524850175247127; 27049700350494287; 54099400700988593;
  108198801401977301; 216397602803954641; 432795205607909293;
  865590411215818597; 1731180822431637217
].

Definition table_init : JobTable := mkJobTable 1 0 ∅ 12289 0 false.

(** ** Operations *)
Section operations.
Context {E : Env}.

(** The remainder is returned as an [int]. *)
Definition _get_job_hash_index (job_id : Z) : M Z :=
  s ← gets id; mret (wrap_i32 (job_id mod all_jobs_cap (st_table s))).

(** [all_jobs[index]]: outside the array it is undefined. *)
Definition check_index (index : Z) : M unit :=
  s ← gets id;
  if (0 <=? index) && (index <? all_jobs_cap (st_table s)) then mret tt else ub.

Definition get_bucket (index : Z) : M (option jobp) :=
  check_index index;;
  s ← gets id; mret (all_jobs (st_table s) !! index).
Definition put_bucket (index : Z) (p : option jobp) : M unit :=
  check_index index;;
  modify (fun s => s <| st_table ::= fun T =>
    T <| all_jobs ::= partial_alter (fun _ => p) index |> |>).
Definition set_ht_next (j : jobp) (p : option jobp) : M unit :=
  update st_jobs j (fun J => J <| j_ht_next := p |>).

(** The end of [store_job], [rehash(1)], is the argument. *)
Definition store_job_with (rehash_up : M unit) (j : jobp) : M unit :=
  J ← deref st_jobs j;
  index ← _get_job_hash_index (r_id (j_r J));
  head ← get_bucket index;
  set_ht_next j head;;
  put_bucket index (Some j);;
  modify (fun s => s <| st_table ::= fun T => T <| all_jobs_used ::= Z.succ |> |>);;
  s ← gets id;
  if Z.shiftl (all_jobs_cap (st_table s)) 2 <? all_jobs_used (st_table s)
  then rehash_up else mret tt.

(** [while (old[i]) { j = old[i]; old[i] = j->ht_next; j->ht_next = NULL;
    store_job(j); }]; nothing else reads [old]. *)
Fixpoint rehash_bucket (fuel : nat) (store : jobp → M unit) (b : option jobp) : M unit :=
  match b with
  | None => mret tt
  | Some j =>
      match fuel with
      | O => out_of_fuel
      | S fuel =>
          J ← deref st_jobs j;
          set_ht_next j None;;
          store j;;
          rehash_bucket fuel store (j_ht_next J)
      end
  end.

(** [for (i = 0; i < old_cap; i++)], [n] iterations from [i]. *)
Fixpoint rehash_loop (fuel : nat) (store : jobp → M unit) (old : gmap Z jobp)
    (n : nat) (i : Z) : M unit :=
  match n with
  | O => mret tt
  | S n =>
      rehash_bucket fuel store (old !! i);;
      rehash_loop fuel store old n (i + 1)
  end.

Definition rehash_with (store : jobp → M unit) (is_upscaling : bool) : M unit :=
  s ← gets id;
  let T := st_table s in
  let d := if is_upscaling then 1 else -1 in
  if NUM_PRIMES <=? cur_prime T + d then mret tt
  else if cur_prime T + d <? 0 then mret tt
  else if is_upscaling && hash_table_was_oom T then mret tt
  else
    cap ← from_option (primes !! Z.to_nat (cur_prime T + d));
    ok ← malloc_ok;
    if negb ok then
      modify (fun s => s <| st_table ::= fun T => T <| hash_table_was_oom := true |> |>)
    else
      modify (fun s => s <| st_table ::= fun T =>
        T <| cur_prime := cur_prime T + d |> <| all_jobs_cap := cap |>
          <| all_jobs := ∅ |> <| all_jobs_used := 0 |>
          <| hash_table_was_oom := false |> |>);;
      rehash_loop (S (size (st_jobs s))) store (all_jobs T)
        (Z.to_nat (all_jobs_cap T)) 0.

(** [store_job] and [rehash] are mutually recursive; the fuel bounds the
    nesting, which the proofs show to be at most one. *)
Fixpoint store_job_fuel (fuel : nat) (j : jobp) : M unit :=
  store_job_with
    match fuel with
    | O => out_of_fuel
    | S fuel => rehash_with (store_job_fuel fuel) true
    end j.

Definition rehash_fuel : nat := 48.
Definition store_job : jobp → M unit := store_job_fuel rehash_fuel.
Definition rehash : bool → M unit := rehash_with store_job.

(** [while (jh && jh->r.id != job_id) jh = jh->ht_next;] *)
Fixpoint job_find_loop (fuel : nat) (jh : option jobp) (job_id : Z) : M (option jobp) :=
  match jh with
  | None => mret None
  | Some j =>
      J ← deref st_jobs j;
      if r_id (j_r J) =? job_id then mret (Some j)
      else match fuel with
           | O => out_of_fuel
           | S fuel => job_find_loop fuel (j_ht_next J) job_id
           end
  end.

Definition job_find (job_id : Z) : M (option jobp) :=
  index ← _get_job_hash_index job_id;
  jh ← get_bucket index;
  s ← gets id;
  job_find_loop (size (st_jobs s)) jh job_id.

(** The walk of [job_hash_free]: [slot] is the content of the bucket
    ([prev = None]) or of the [ht_next] field of [prev]; the slot that holds
    [j] is overwritten with the rest of the chain. *)
Fixpoint job_unlink_loop (fuel : nat) (index : Z) (prev : option jobp)
    (slot : option jobp) (j : jobp) : M unit :=
  match slot with
  | None => mret tt
  | Some x =>
      X ← deref st_jobs x;
      if decide (x = j) then
        match prev with
        | None => put_bucket index (j_ht_next X)
        | Some p => set_ht_next p (j_ht_next X)
        end;;
        modify (fun s => s <| st_table ::= fun T => T <| all_jobs_used ::= Z.pred |> |>)
      else match fuel with
           | O => out_of_fuel
           | S fuel => job_unlink_loop fuel index (Some x) (j_ht_next X) j
           end
  end.

Definition job_hash_free (j : jobp) : M unit :=
  J ← deref st_jobs j;
  index ← _get_job_hash_index (r_id (j_r J));
  slot ← get_bucket index;
  s ← gets id;
  job_unlink_loop (size (st_jobs s)) index None slot j;;
  s ← gets id;
  if all_jobs_used (st_table s) <? Z.shiftr (all_jobs_cap (st_table s)) 4
  then rehash false else mret tt.

Definition get_all_jobs_used : M Z := gets (fun s => all_jobs_used (st_table s)).
End operations.

(** ** The table as a finite map *)

(** The chain of [ht_next] pointers from [p]. *)
Fixpoint hchain (J : gmap jobp Job) (p : option jobp) (l : list jobp) : Prop :=
  match l with
  | [] => p = None
  | j :: l => p = Some j ∧ ∃ Jb, J !! j = Some Jb ∧ hchain J (j_ht_next Jb) l
  end.

(** Above the 18th prime the remainder may not fit the [int] that
    [_get_job_hash_index] returns, so the representation stops there: it takes
    more than [4 * 1612287763] jobs to get further. *)

(** The jobs of the map [m] that hash to bucket [i]. *)
Definition bucket_of (m : gmap Z jobp) (cap i : Z) (j : jobp) : Prop :=
  ∃ id, m !! id = Some j ∧ id mod cap = i.

Record table_rep (J : gmap jobp Job) (T : JobTable) (m : gmap Z jobp) : Prop := {
  tr_cap : primes !! Z.to_nat (cur_prime T) = Some (all_jobs_cap T);
  tr_prime : 0 <= cur_prime T <= 17;
  tr_chain i : 0 <= i < all_jobs_cap T →
    ∃ l, hchain J (all_jobs T !! i) l ∧ NoDup l ∧
      ∀ j, j ∈ l ↔ bucket_of m (all_jobs_cap T) i j;
  tr_id id j : m !! id = Some j → 0 <= id ∧ ∃ Jb, J !! j = Some Jb ∧ r_id (j_r Jb) = id;
  tr_used : all_jobs_used T = Z.of_nat (size m);
  tr_load : hash_table_was_oom T = false → all_jobs_used T <= 4 * all_jobs_cap T;
}.

(** Only the [ht_next] fields differ. *)
Definition erase_ht (J : Job) : Job := J <| j_ht_next := None |>.
Abbreviation same_but_ht := (same_but erase_ht).

Section chains.
Implicit Types (J : gmap jobp Job) (T : JobTable) (m : gmap Z jobp) (l : list jobp).

Lemma hchain_lookup J p l j : hchain J p l → j ∈ l → is_Some (J !! j).
Proof.
  revert p. induction l as [|x l IH]; intros p; [set_solver|].
  intros (_ & Jb & ? & Hc) [->|Hj]%elem_of_cons; eauto.
Qed.

Lemma hchain_ext J J' p l :
  (∀ j, j ∈ l → J' !! j = J !! j) → hchain J p l → hchain J' p l.
Proof.
  revert p. induction l as [|x l IH]; intros p HJ; [done|].
  intros (? & Jb & Hx & Hc). split; [done|]. exists Jb. rewrite HJ by left.
  split; [done|]. apply IH; [|done]. intros j ?. apply HJ. by right.
Qed.

Lemma hchain_length J p l : hchain J p l → NoDup l → (length l ≤ size J)%nat.
Proof.
  intros Hc Hnd. rewrite <- size_dom, <- (size_list_to_set (C := gset positive) l) by done.
  apply subseteq_size. intros j Hj%elem_of_list_to_set. apply elem_of_dom.
  by eapply hchain_lookup.
Qed.

Lemma same_but_ht_insert J j Jb p :
  J !! j = Some Jb → same_but_ht J (<[j := Jb <| j_ht_next := p |>]> J).
Proof. intros Hj. by eapply same_but_insert. Qed.

Lemma same_but_ht_lookup J J' j Jb :
  same_but_ht J J' → J !! j = Some Jb →
  ∃ p, J' !! j = Some (Jb <| j_ht_next := p |>).
Proof.
  intros H Hj. destruct (same_but_lookup _ _ _ _ _ H Hj) as (Jb' & ? & He).
  exists (j_ht_next Jb').
  destruct Jb, Jb'. unfold erase_ht, rupd, set_j_ht_next in *. simpl in *. congruence.
Qed.

Lemma bucket_of_insert m cap i id j x :
  m !! id = None →
  bucket_of (<[id := j]> m) cap i x ↔ (x = j ∧ id mod cap = i) ∨ bucket_of m cap i x.
Proof.
  intros Hid. unfold bucket_of. split.
  - intros (id' & Hl & ?). apply lookup_insert_Some in Hl as [[-> ->]|[? ?]]; eauto.
  - intros [[-> ?]|(id' & ? & ?)]; [exists id; by rewrite lookup_insert_eq|].
    exists id'. rewrite lookup_insert_ne; [done|]. congruence.
Qed.

Lemma primes_pos i p : primes !! i = Some p → 0 < p.
Proof.
  intros Hi. assert (Forall (λ p, 0 < p) primes) as H.
  { apply (bool_decide_unpack _). vm_compute. exact I. }
  rewrite Forall_lookup in H. eauto.
Qed.

Lemma primes_small i p : primes !! i = Some p → (i <= 17)%nat → p < 2147483648.
Proof.
  intros Hi Hle. assert (Forall (λ p, p < 2147483648) (take 18 primes)) as H.
  { apply (bool_decide_unpack _). vm_compute. exact I. }
  rewrite Forall_lookup in H. apply (H i). rewrite lookup_take_lt by lia. done.
Qed.

(** Consecutive primes: strictly increasing, by less than a factor 64. *)
Lemma primes_step i p q :
  primes !! i = Some p → primes !! S i = Some q → p < q <= 64 * p.
Proof.
  intros Hp Hq.
  assert (Forall (λ pq, pq.1 < pq.2 <= 64 * pq.1) (zip primes (tail primes))) as H.
  { apply (bool_decide_unpack _). vm_compute. exact I. }
  rewrite Forall_lookup in H. apply (H i (p, q)).
  apply lookup_zip_with_Some. exists p, q. split_and!; [done|done|].
  by rewrite lookup_tail.
Qed.

Lemma table_cap J T m :
  table_rep J T m → 0 < all_jobs_cap T < 2147483648.
Proof.
  intros Ht. pose proof (tr_cap _ _ _ Ht). pose proof (tr_prime _ _ _ Ht).
  split; [by eapply primes_pos|]. eapply primes_small; [done|lia].
Qed.

Lemma table_same J J' T m :
  (∀ j, J' !! j = J !! j ∨ ∀ id, m !! id ≠ Some j) →
  table_rep J T m → table_rep J' T m.
Proof.
  intros HJ [Hc Hp Hch Hid Hu Hl]. split; auto.
  - intros i Hi. destruct (Hch i Hi) as (l & Hl1 & ? & Hb). exists l. split_and!; auto.
    eapply hchain_ext; [|done]. intros j Hj. destruct (HJ j) as [|Hn]; [done|].
    apply Hb in Hj as (id & ? & _). by destruct (Hn id).
  - intros id j Hm. destruct (Hid _ _ Hm) as (? & Jb & ? & ?). split; [done|].
    destruct (HJ j) as [->|Hn]; [eauto|]. by destruct (Hn id).
Qed.

(** Inserting at the head of a bucket. *)
Lemma table_insert J T m j Jb id (i := id mod all_jobs_cap T)
    (J' := <[j := Jb <| j_ht_next := all_jobs T !! i |>]> J)
    (T' := T <| all_jobs ::= partial_alter (fun _ => Some j) i |>
             <| all_jobs_used ::= Z.succ |>) :
  table_rep J T m → J !! j = Some Jb → r_id (j_r Jb) = id → 0 <= id →
  m !! id = None → (∀ id', m !! id' ≠ Some j) →
  (hash_table_was_oom T = false → all_jobs_used T + 1 <= 4 * all_jobs_cap T) →
  table_rep J' T' (<[id := j]> m).
Proof.
  intros Ht Hj Hid Hid0 Hm Hnj Hld. pose proof (table_cap _ _ _ Ht) as Hcap.
  destruct Ht as [Hc Hp Hch Hids Hu Hl]. subst J' T'. split; rsimpl; auto.
  - intros i' Hi'. destruct (Hch i' Hi') as (l & Hl1 & Hnd & Hb).
    assert (j ∉ l) as Hjl.
    { intros (id' & ? & _)%Hb. by destruct (Hnj id'). }
    assert (hchain (<[j := Jb <| j_ht_next := all_jobs T !! i |>]> J) (all_jobs T !! i') l).
    { eapply hchain_ext; [|done]. intros x Hx. rewrite lookup_insert_ne; [done|]. by intros ->. }
    destruct (decide (i' = i)) as [->|Hne].
    + exists (j :: l). rewrite lookup_partial_alter_eq. split_and!; [|by constructor|].
      * split; [done|]. eexists. rewrite lookup_insert_eq. split; [done|]. done.
      * intros x. rewrite bucket_of_insert, elem_of_cons, Hb by done. naive_solver.
    + exists l. rewrite lookup_partial_alter_ne by done. split_and!; [done..|].
      intros x. rewrite bucket_of_insert, Hb by done. naive_solver.
  - intros id' x. rewrite lookup_insert_Some. intros [[<- <-]|[Hne Hx]].
    + split; [done|]. eexists. rewrite lookup_insert_eq. split; [done|]. rsimpl. done.
    + destruct (Hids _ _ Hx) as (? & Xb & ? & ?). split; [done|]. exists Xb.
      rewrite lookup_insert_ne; [done|]. intros ->. by destruct (Hnj id').
  - rewrite map_size_insert_None, Hu by done. lia.
Qed.
End chains.

(** The state after an operation of the table. *)
Definition table_upd (s : St) (J : gmap jobp Job) (T : JobTable) (n : nat) : St :=
  s <| st_jobs := J |> <| st_table := T |> <| st_tick := n |>.

Lemma table_upd_id s : table_upd s (st_jobs s) (st_table s) (st_tick s) = s.
Proof. by destruct s. Qed.

Lemma table_upd_upd s J T n J' T' n' :
  table_upd (table_upd s J T n) J' T' n' = table_upd s J' T' n'.
Proof. done. Qed.

Section specs.
Context {E : Env}.
Implicit Types (s : St) (m : gmap Z jobp) (J : gmap jobp Job) (T : JobTable).

Lemma job_hash_index_eq s m id (Q : Z → St → Prop) :
  table_rep (st_jobs s) (st_table s) m → 0 <= id →
  Q (id mod all_jobs_cap (st_table s)) s → wp (_get_job_hash_index id) Q s.
Proof.
  intros Ht Hid HQ. pose proof (table_cap _ _ _ Ht) as Hcap.
  unfold _get_job_hash_index, wp, mbind, M_bind, gets. simpl.
  set (cap := all_jobs_cap (st_table s)) in *.
  pose proof (Z.mod_pos_bound id cap ltac:(lia)).
  unfold wrap_i32. rewrite (Z.mod_small _ 4294967296) by lia.
  by rewrite (proj2 (Z.ltb_lt _ _)) by lia.
Qed.

Lemma wp_get_bucket s i (Q : option jobp → St → Prop) :
  0 <= i < all_jobs_cap (st_table s) →
  Q (all_jobs (st_table s) !! i) s → wp (get_bucket i) Q s.
Proof.
  intros Hi HQ. unfold get_bucket, check_index, wp, mbind, M_bind, gets. simpl.
  by rewrite (proj2 (Z.leb_le _ _)), (proj2 (Z.ltb_lt _ _)) by lia.
Qed.

Lemma wp_put_bucket s i p (Q : unit → St → Prop) :
  0 <= i < all_jobs_cap (st_table s) →
  Q tt (s <| st_table ::= fun T =>
    T <| all_jobs ::= partial_alter (fun _ => p) i |> |>) → wp (put_bucket i p) Q s.
Proof.
  intros Hi HQ. unfold put_bucket, check_index, wp, mbind, M_bind, gets. simpl.
  by rewrite (proj2 (Z.leb_le _ _)), (proj2 (Z.ltb_lt _ _)) by lia.
Qed.

(** What storing [j] under [id] does, up to the choice of the rehashing. *)
Definition stored s m (id : Z) j (Q : unit → St → Prop) : Prop :=
  ∀ J T n, table_rep J T (<[id := j]> m) → same_but_ht (st_jobs s) J →
    Q tt (table_upd s J T n).

(** The part of [store_job] before the rehash. *)
Lemma wp_store_job_with s m j Jb up (Q : unit → St → Prop)
    (id := r_id (j_r Jb)) (i := id mod all_jobs_cap (st_table s)) :
  table_rep (st_jobs s) (st_table s) m →
  st_jobs s !! j = Some Jb → 0 <= id → m !! id = None →
  (let J := <[j := Jb <| j_ht_next := all_jobs (st_table s) !! i |>]> (st_jobs s) in
   let T := (st_table s) <| all_jobs ::= partial_alter (fun _ => Some j) i |>
                       <| all_jobs_used ::= Z.succ |> in
   let s' := table_upd s J T (st_tick s) in
   if 4 * all_jobs_cap (st_table s) <? all_jobs_used (st_table s) + 1
   then wp up Q s' else Q tt s') →
  wp (store_job_with up j) Q s.
Proof.
  intros Ht Hj Hid Hm HQ. pose proof (table_cap _ _ _ Ht) as Hcap.
  assert (0 <= i < all_jobs_cap (st_table s)) as Hi by (apply Z.mod_pos_bound; lia).
  unfold store_job_with. apply wp_bind. eapply wp_deref; [done|].
  apply wp_bind. eapply job_hash_index_eq; [done|done|]. fold id i.
  apply wp_bind. apply wp_get_bucket; [done|].
  apply wp_bind. eapply wp_update; [done|].
  apply wp_bind. apply wp_put_bucket; [done|].
  apply wp_bind. apply wp_modify. apply wp_bind. apply wp_gets.
  revert HQ. cbv zeta. set (s' := table_upd _ _ _ _).
  assert (s <| st_jobs ::= <[j := Jb <| j_ht_next := all_jobs (st_table s) !! i |>]> |>
    <| st_table ::= fun T => T <| all_jobs ::= partial_alter (fun _ => Some j) i |> |>
    <| st_table ::= fun T => T <| all_jobs_used ::= Z.succ |> |> = s') as ->.
  { by destruct s as [?????? []]. }
  unfold id. cbv beta.
  rewrite (Z.mul_comm 4). change 4 with (2 ^ 2). rewrite <- Z.shiftl_mul_pow2 by lia.
  match goal with
  | |- (if ?b then _ else _) → wp (if ?c then _ else _) _ _ => change c with b; by destruct b
  end.
Qed.

(** Storing without rehashing: used inside [rehash]. *)
Lemma wp_store_no_rehash s m j Jb up (Q : unit → St → Prop)
    (id := r_id (j_r Jb)) :
  table_rep (st_jobs s) (st_table s) m →
  st_jobs s !! j = Some Jb → 0 <= id → m !! id = None → (∀ id', m !! id' ≠ Some j) →
  all_jobs_used (st_table s) + 1 <= 4 * all_jobs_cap (st_table s) →
  (∀ J T, table_rep J T (<[id := j]> m) →
    all_jobs_cap T = all_jobs_cap (st_table s) →
    hash_table_was_oom T = hash_table_was_oom (st_table s) →
    cur_prime T = cur_prime (st_table s) →
    next_id T = next_id (st_table s) →
    (∀ x, x ≠ j → J !! x = st_jobs s !! x) → same_but_ht (st_jobs s) J →
    Q tt (table_upd s J T (st_tick s))) →
  wp (store_job_with up j) Q s.
Proof.
  intros Ht Hj Hid Hm Hnj Hle HQ. eapply wp_store_job_with; [done..|].
  cbv zeta. rewrite (proj2 (Z.ltb_ge _ _)) by lia. apply HQ; try done.
  - by apply table_insert.
  - intros x Hx. by rewrite lookup_insert_ne.
  - by apply same_but_ht_insert.
Qed.

(** [rehash] moves the jobs of the old table, represented by [mf], into the
    new one, which represents the part [m] moved so far. *)
Definition moving mf J T m : Prop :=
  table_rep J T m ∧ m ⊆ mf ∧ Z.of_nat (size mf) <= 4 * all_jobs_cap T ∧
  (∀ id j, mf !! id = Some j → 0 <= id ∧ ∃ Jb, J !! j = Some Jb ∧ r_id (j_r Jb) = id).

Definition same_table_shape T T' : Prop :=
  all_jobs_cap T' = all_jobs_cap T ∧ cur_prime T' = cur_prime T ∧
  hash_table_was_oom T' = hash_table_was_oom T ∧ next_id T' = next_id T.

Lemma moving_ids mf J T m id id' j :
  moving mf J T m → mf !! id = Some j → mf !! id' = Some j → id = id'.
Proof.
  intros (_ & _ & _ & H) Hid Hid'. destruct (H _ _ Hid) as (_ & ? & ? & ?).
  destruct (H _ _ Hid') as (_ & ? & ? & ?). congruence.
Qed.

Lemma same_but_ht_ids (mf : gmap Z jobp) J J' :
  same_but_ht J J' →
  (∀ id j, mf !! id = Some j → 0 <= id ∧ ∃ Jb, J !! j = Some Jb ∧ r_id (j_r Jb) = id) →
  (∀ id j, mf !! id = Some j → 0 <= id ∧ ∃ Jb, J' !! j = Some Jb ∧ r_id (j_r Jb) = id).
Proof.
  intros HJ H id j Hid. destruct (H _ _ Hid) as (? & Jb & Hj & <-). split; [done|].
  destruct (same_but_ht_lookup _ _ _ _ HJ Hj) as [p ->]. eexists. by split.
Qed.

Lemma wp_rehash_bucket up fuel mf l b m s (Q : unit → St → Prop) :
  moving mf (st_jobs s) (st_table s) m →
  hchain (st_jobs s) b l → NoDup l → (length l <= fuel)%nat →
  (∀ j, j ∈ l → ∃ id, mf !! id = Some j ∧ m !! id = None) →
  (∀ J T m', moving mf J T m' → same_table_shape (st_table s) T →
    (∀ id j, m' !! id = Some j ↔ m !! id = Some j ∨ (mf !! id = Some j ∧ j ∈ l)) →
    (∀ x, x ∉ l → J !! x = st_jobs s !! x) → same_but_ht (st_jobs s) J →
    Q tt (table_upd s J T (st_tick s))) →
  wp (rehash_bucket fuel (store_job_with up) b) Q s.
Proof.
  revert fuel b m s. induction l as [|j l IH]; intros fuel b m s Hmv Hc Hnd Hf Hl HQ.
  { simpl in Hc. subst b. destruct fuel; simpl; apply wp_ret; rewrite <- (table_upd_id s);
      (eapply HQ; [done|done|set_solver|done|done]). }
  destruct Hc as (-> & Jb & Hj & Hc). destruct fuel as [|fuel]; simpl in Hf; [lia|].
  apply NoDup_cons in Hnd as [Hjl Hnd]. cbn [rehash_bucket].
  apply wp_bind. eapply wp_deref; [done|].
  apply wp_bind. eapply wp_update; [done|].
  set (s1 := s <| st_jobs ::= _ |>).
  pose proof Hmv as (Ht & Hsub & Hsz & Hids).
  destruct (Hl j) as (id & Hid & Hm); [by left|].
  destruct (Hids _ _ Hid) as (Hid0 & Jb' & ? & Hid'). simplify_eq.
  assert (∀ id', m !! id' ≠ Some j) as Hnj.
  { intros id' Hm'. eapply lookup_weaken in Hm' as Hmf; [|exact Hsub].
    rewrite (moving_ids _ _ _ _ _ _ _ Hmv Hmf Hid) in Hm'. congruence. }
  assert (same_but_ht (st_jobs s) (st_jobs s1)) as Hs1.
  { unfold s1. rsimpl. by apply same_but_ht_insert. }
  assert (table_rep (st_jobs s1) (st_table s1) m) as Ht1.
  { eapply table_same; [|exact Ht]. intros x. unfold s1. rsimpl.
    destruct (decide (x = j)) as [->|]; [right; exact Hnj|left].
    by rewrite lookup_insert_ne. }
  assert (<[r_id (j_r Jb) := j]> m ⊆ mf) as Hsub'.
  { by apply insert_subseteq_l. }
  apply wp_bind. eapply (wp_store_no_rehash s1 m j (Jb <| j_ht_next := None |>)); try done.
  { unfold s1. rsimpl. by rewrite lookup_insert_eq. }
  { apply map_subseteq_size in Hsub'. rewrite map_size_insert_None in Hsub' by done.
    rewrite (tr_used _ _ _ Ht1). unfold s1. rsimpl. lia. }
  rsimpl. intros J T HT Hcap Hoom Hpr Hnx HJ HJs.
  change (st_table s1) with (st_table s) in *.
  assert (same_but_ht (st_jobs s) J) as HJs' by (by etrans).
  eapply IH; rsimpl; try done; try lia.
  - split; [done|]. split; [done|]. split; [unfold table_upd; rsimpl; by rewrite Hcap|].
    eapply same_but_ht_ids; [exact HJs'|done].
  - eapply hchain_ext; [|exact Hc]. intros x Hx. unfold table_upd. rsimpl.
    rewrite HJ by (by intros ->). unfold s1. rsimpl. rewrite lookup_insert_ne; [done|].
    by intros ->.
  - intros x Hx. destruct (Hl x) as (idx & Hidx & Hmx); [by right|].
    exists idx. split; [done|]. rewrite lookup_insert_ne; [done|].
    intros <-. rewrite Hid in Hidx. by simplify_eq.
  - intros J2 T2 m2 Hmv2 (?&?&?&?) Hm2 HJ2 HJs2. unfold table_upd in *. rsimpl.
    apply (HQ J2 T2 m2); [done| | | |].
    + unfold same_table_shape. by split_and!; etrans.
    + intros id' x. rewrite Hm2, lookup_insert_Some, elem_of_cons.
      destruct (decide (id' = r_id (j_r Jb))) as [->|]; naive_solver.
    + intros x Hx. rewrite not_elem_of_cons in Hx. destruct Hx as [Hx1 Hx2].
      rewrite HJ2, HJ by done. unfold s1. rsimpl. by rewrite lookup_insert_ne.
    + by etrans.
Qed.

(** The buckets [i], [i+1], ... of the old table [old] still hold their jobs
    of [mf]; those below [i] have been moved. *)
Definition old_chains mf (old : gmap Z jobp) (cap i : Z) J : Prop :=
  ∀ i', i <= i' < cap → ∃ l, hchain J (old !! i') l ∧ NoDup l ∧
    ∀ j, j ∈ l ↔ bucket_of mf cap i' j.

Lemma wp_rehash_loop up fuel mf old cap n i m s (Q : unit → St → Prop) :
  0 < cap → 0 <= i → i + Z.of_nat n = cap → (size (st_jobs s) <= fuel)%nat →
  moving mf (st_jobs s) (st_table s) m →
  old_chains mf old cap i (st_jobs s) →
  (∀ id j, m !! id = Some j ↔ mf !! id = Some j ∧ id mod cap < i) →
  (∀ J T, moving mf J T mf → same_table_shape (st_table s) T →
    same_but_ht (st_jobs s) J → Q tt (table_upd s J T (st_tick s))) →
  wp (rehash_loop fuel (store_job_with up) old n i) Q s.
Proof.
  intros Hcap. revert i m s. induction n as [|n IH]; intros i m s Hi Hin Hf Hmv Hold Hm HQ.
  { simpl. apply wp_ret. rewrite <- (table_upd_id s). apply HQ; [|done|done].
    replace mf with m at 2; [done|]. apply map_eq. intros id. apply option_eq. intros j.
    rewrite Hm. pose proof (Z.mod_pos_bound id cap Hcap). intuition lia. }
  cbn [rehash_loop]. destruct (Hold i) as (l & Hl & Hnd & Hb); [lia|].
  apply wp_bind. eapply wp_rehash_bucket; [done|done|done| |..].
  { etrans; [|exact Hf]. by eapply hchain_length. }
  { intros j (id & Hid & Hmod)%Hb. exists id. split; [done|].
    destruct (m !! id) eqn:Hmid; [|done]. apply Hm in Hmid. lia. }
  intros J T m' Hmv' Hsh Hm' HJ HJs.
  apply (IH (i + 1) m'); [lia|lia| |done| |..].
  - unfold table_upd. rsimpl. by rewrite (same_but_size _ _ _ HJs).
  - intros i' Hi'. destruct (Hold i') as (l' & Hl' & Hnd' & Hb'); [lia|].
    exists l'. split_and!; [|done|done]. eapply hchain_ext; [|exact Hl'].
    intros x Hx'. unfold table_upd. rsimpl. apply HJ. intros Hx.
    apply Hb in Hx as (id & Hid & ?). apply Hb' in Hx' as (id' & Hid' & ?).
    rewrite (moving_ids _ _ _ _ _ _ _ Hmv Hid Hid') in *. lia.
  - intros id x. rewrite Hm', Hm, Hb. split.
    + intros [[? ?]|[? (id' & Hid' & ?)]]; [split; [done|lia]|]. split; [done|].
      rewrite (moving_ids mf (st_jobs s) (st_table s) m id id' x) by done. lia.
    + intros [? ?]. destruct (decide (id mod cap = i)); [right|left].
      * split; [done|]. by exists id.
      * split; [done|lia].
  - intros J2 T2 Hmv2 (?&?&?&?) HJs2. destruct Hsh as (?&?&?&?).
    unfold table_upd in *. rsimpl. apply (HQ J2 T2); [done| |].
    + unfold same_table_shape. by split_and!; etrans.
    + by etrans.
Qed.

(** The representation without the bound on the load factor. *)
Definition table_core J T m : Prop := table_rep J (T <| hash_table_was_oom := true |>) m.

Lemma table_rep_core J T m : table_rep J T m → table_core J T m.
Proof. intros [Hc Hp Hch Hid Hu Hl]. by split. Qed.

Lemma table_core_oom J T m :
  hash_table_was_oom T = true → table_core J T m → table_rep J T m.
Proof. intros Ho [Hc Hp Hch Hid Hu Hl]. split; rsimpl; try done. congruence. Qed.

Lemma hchain_nil J p : p = None → hchain J p [].
Proof. done. Qed.

Lemma table_empty J T cap' :
  primes !! Z.to_nat (cur_prime T) = Some cap' → 0 <= cur_prime T <= 17 →
  table_rep J (T <| all_jobs_cap := cap' |> <| all_jobs := ∅ |> <| all_jobs_used := 0 |>) ∅.
Proof.
  intros Hc Hp. apply primes_pos in Hc as Hpos. split; rsimpl; auto; try done; try lia.
  intros i Hi. exists []. split; [by rewrite lookup_empty|]. split; [constructor|].
  intros j. split; [set_solver|]. intros (id & ? & _). done.
Qed.

Lemma wp_rehash_with up (upscaling : bool) m s (Q : unit → St → Prop)
    (d := if upscaling then 1 else -1) :
  table_core (st_jobs s) (st_table s) m →
  0 <= cur_prime (st_table s) + d <= 17 →
  (upscaling && hash_table_was_oom (st_table s) = false → ∀ cap',
    primes !! Z.to_nat (cur_prime (st_table s) + d) = Some cap' →
    Z.of_nat (size m) <= 4 * cap') →
  (∀ J T n, table_rep J T m → same_but_ht (st_jobs s) J →
    next_id T = next_id (st_table s) → Q tt (table_upd s J T n)) →
  wp (rehash_with (store_job_with up) upscaling) Q s.
Proof.
  intros Ht Hd Hsz HQ. unfold rehash_with. apply wp_bind, wp_gets. cbv zeta. fold d.
  unfold id. rewrite (proj2 (Z.leb_gt _ _)) by (unfold NUM_PRIMES; lia).
  rewrite (proj2 (Z.ltb_ge _ _)) by lia.
  destruct (upscaling && _) eqn:Hoom.
  { apply wp_ret. rewrite <- (table_upd_id s). apply andb_true_iff in Hoom as [_ ?].
    apply HQ; [by apply table_core_oom|done|done]. }
  destruct (lookup_lt_is_Some_2 primes (Z.to_nat (cur_prime (st_table s) + d))) as [cap' Hcap'].
  { change (length primes) with 48%nat. lia. }
  apply wp_bind. eapply wp_from_option; [done|].
  apply wp_bind. apply wp_malloc_ok. intros ok. destruct ok; simpl.
  2:{ apply (HQ _ _ (S (st_tick s))); [|done|done]. exact Ht. }
  pose proof (table_cap _ _ _ Ht) as Hcap. rsimpl.
  destruct Ht as [Hc Hp Hch Hid Hu Hl]. rsimpl.
  apply wp_bind. apply wp_modify. rsimpl.
  eapply (wp_rehash_loop up _ m _ (all_jobs_cap (st_table s)) _ _ ∅); try lia; rsimpl.
  - lia.
  - split; [|split; [apply map_empty_subseteq|split; [rsimpl; auto|done]]].
    apply (table_empty _ (mkJobTable (next_id (st_table s)) (cur_prime (st_table s) + d)
      ∅ 0 0 false)); [done|done].
  - intros i' Hi'. by apply Hch.
  - intros id j. rewrite lookup_empty. split; [done|]. intros [_ ?].
    pose proof (Z.mod_pos_bound id (all_jobs_cap (st_table s))). lia.
  - intros J T (HT & _) (?&?&?&Hnx) HJ. apply (HQ J T (S (st_tick s))); [done|done|exact Hnx].
Qed.
End specs.

(** ** The contract of the table *)
Section contract.
Context {E : Env}.
Implicit Types (s : St) (m : gmap Z jobp).

(** The number of jobs with which the table stays below its 18th prime. *)
Definition table_max : Z := 4 * 1612287763.

Lemma prime_17 J T m : table_rep J T m → cur_prime T = 17 → all_jobs_cap T = 1612287763.
Proof. intros Ht Hc. pose proof (tr_cap _ _ _ Ht) as Hp. rewrite Hc in Hp. by simplify_eq/=. Qed.

Lemma wp_store_job s m j Jb (Q : unit → St → Prop) (id := r_id (j_r Jb)) :
  table_rep (st_jobs s) (st_table s) m →
  st_jobs s !! j = Some Jb → 0 <= id → m !! id = None → (∀ id', m !! id' ≠ Some j) →
  Z.of_nat (size m) < table_max →
  (∀ J T n, table_rep J T (<[id := j]> m) → same_but_ht (st_jobs s) J →
    next_id T = next_id (st_table s) → Q tt (table_upd s J T n)) →
  wp (store_job j) Q s.
Proof.
  intros Ht Hj Hid Hm Hnj Hmax HQ. unfold store_job, rehash_fuel. cbn [store_job_fuel].
  eapply wp_store_job_with; [done..|]. cbv zeta.
  pose proof (table_cap _ _ _ Ht) as Hcap.
  set (J := <[j := _]> (st_jobs s)). set (T := rupd all_jobs_used _ _).
  assert (table_core J T (<[id := j]> m)) as Hcore.
  { unfold table_core, T, J.
    refine (table_insert (st_jobs s) ((st_table s) <| hash_table_was_oom := true |>) m j Jb id
      _ Hj eq_refl Hid Hm Hnj _); [by apply table_rep_core|]. rsimpl. done. }
  assert (same_but_ht (st_jobs s) J) as HJ by (by apply same_but_ht_insert).
  destruct (Z.ltb_spec (4 * all_jobs_cap (st_table s)) (all_jobs_used (st_table s) + 1)) as [Hlt|Hle].
  - assert (cur_prime (st_table s) + 1 <= 17).
    { pose proof (tr_prime _ _ _ Ht). destruct (decide (cur_prime (st_table s) = 17)) as [H17|]; [|lia].
      rewrite (prime_17 _ _ _ Ht H17), (tr_used _ _ _ Ht) in Hlt. unfold table_max in Hmax. lia. }
    pose proof (tr_prime _ _ _ Ht).
    eapply (wp_rehash_with _ true (<[id := j]> m)); unfold table_upd; rsimpl;
      change (cur_prime T) with (cur_prime (st_table s)) in *; [done|lia| |].
    + cbn [andb]. intros Hoom cap' Hcap'. rewrite map_size_insert_None by done.
      pose proof (tr_load _ _ _ Ht Hoom) as Hload. rewrite (tr_used _ _ _ Ht) in Hload, Hlt.
      pose proof (tr_cap _ _ _ Ht) as Hc.
      replace (Z.to_nat (cur_prime (st_table s) + 1)) with (S (Z.to_nat (cur_prime (st_table s))))
        in Hcap' by lia.
      pose proof (primes_step _ _ _ Hc Hcap'). lia.
    + intros J' T' n HT' HJ' Hn'. apply HQ; [done|by etrans|exact Hn'].
  - apply HQ; [|done|done]. unfold table_core in Hcore.
    destruct Hcore as [Hc Hp Hch Hids Hu Hl]. by split.
Qed.

Lemma job_find_loop_spec s fuel p l id (Q : option jobp → St → Prop) :
  hchain (st_jobs s) p l → (length l <= fuel)%nat →
  (∀ j Jb, j ∈ l → st_jobs s !! j = Some Jb → r_id (j_r Jb) = id → Q (Some j) s) →
  ((∀ j Jb, j ∈ l → st_jobs s !! j = Some Jb → r_id (j_r Jb) ≠ id) → Q None s) →
  wp (job_find_loop fuel p id) Q s.
Proof.
  revert fuel p. induction l as [|x l IH]; intros fuel p Hc Hf HS HN.
  { simpl in Hc. subst p. destruct fuel; simpl; apply wp_ret, HN; set_solver. }
  destruct Hc as (-> & Xb & Hx & Hc). destruct fuel as [|fuel]; simpl in Hf; [lia|].
  cbn [job_find_loop]. apply wp_bind. eapply wp_deref; [done|].
  destruct (Z.eqb_spec (r_id (j_r Xb)) id).
  - apply wp_ret. apply (HS x Xb); [left|done|done].
  - eapply IH; [done|lia|..].
    + intros j Jb Hj. apply HS. by right.
    + intros H. apply HN. intros j Jb [->|Hj]%elem_of_cons Hl; [congruence|eauto].
Qed.

(** [job_find] is the lookup of the map. *)
Lemma wp_job_find s m id (Q : option jobp → St → Prop) :
  table_rep (st_jobs s) (st_table s) m → 0 <= id →
  Q (m !! id) s → wp (job_find id) Q s.
Proof.
  intros Ht Hid HQ. pose proof (table_cap _ _ _ Ht) as Hcap.
  set (i := id mod all_jobs_cap (st_table s)).
  assert (0 <= i < all_jobs_cap (st_table s)) as Hi by (apply Z.mod_pos_bound; lia).
  unfold job_find. apply wp_bind. eapply job_hash_index_eq; [done|done|]. fold i.
  apply wp_bind, wp_get_bucket; [done|]. apply wp_bind, wp_gets.
  destruct (tr_chain _ _ _ Ht i Hi) as (l & Hl & Hnd & Hb).
  eapply job_find_loop_spec; [done|by eapply hchain_length| |].
  - intros j Jb (id' & Hid' & _)%Hb Hj <-.
    destruct (tr_id _ _ _ Ht _ _ Hid') as (_ & ? & ? & <-). simplify_eq.
    by rewrite Hid' in HQ.
  - intros Hno. destruct (m !! id) as [j|] eqn:Hm; [|done].
    destruct (tr_id _ _ _ Ht _ _ Hm) as (_ & Jb & Hj & He).
    destruct (Hno j Jb); [|done|done]. apply Hb. by exists id.
Qed.

(** The slot that holds [j] after a walk over [l1] from [prev]. *)
Definition unlinked s i (prev : option jobp) (l1 : list jobp) (next : option jobp) : St :=
  (match match last l1 with Some p => Some p | None => prev end with
   | None => s <| st_table ::= fun T =>
               T <| all_jobs ::= partial_alter (fun _ => next) i |> |>
   | Some p => s <| st_jobs ::= alter (fun P => P <| j_ht_next := next |>) p |>
   end) <| st_table ::= fun T => T <| all_jobs_used ::= Z.pred |> |>.

Lemma alter_insert_job (J : gmap jobp Job) p P f :
  J !! p = Some P → alter f p J = <[p := f P]> J.
Proof.
  intros HP. apply map_eq. intros x. rewrite lookup_alter, lookup_insert.
  case_decide; subst; [by rewrite HP|done].
Qed.

Lemma wp_job_unlink s fuel i prev slot l1 j l2 Jb (Q : unit → St → Prop) :
  0 <= i < all_jobs_cap (st_table s) →
  hchain (st_jobs s) slot (l1 ++ j :: l2) → j ∉ l1 → (length l1 <= fuel)%nat →
  st_jobs s !! j = Some Jb →
  (∀ p, prev = Some p → is_Some (st_jobs s !! p)) →
  Q tt (unlinked s i prev l1 (j_ht_next Jb)) →
  wp (job_unlink_loop fuel i prev slot j) Q s.
Proof.
  intros Hi. revert fuel prev slot.
  induction l1 as [|x l1 IH]; intros fuel prev slot Hc Hj Hf HJb Hprev HQ.
  - destruct Hc as (-> & ? & ? & Hc). simplify_eq.
    destruct fuel; cbn [job_unlink_loop]; apply wp_bind; (eapply wp_deref; [done|]);
      rewrite decide_True by done; (destruct prev as [p|];
      [destruct (Hprev p eq_refl) as [P HP]; apply wp_bind; eapply wp_update; [done|];
       apply wp_modify; unfold unlinked in HQ; simpl in HQ;
       destruct s; unfold rupd, set_st_jobs in *; simpl in *;
       by rewrite (alter_insert_job _ _ _ _ HP) in HQ
      |apply wp_bind, wp_put_bucket; [done|]; by apply wp_modify]).
  - destruct Hc as (-> & Xb & Hx & Hc). destruct fuel as [|fuel]; simpl in Hf; [lia|].
    apply not_elem_of_cons in Hj as [Hne Hj].
    cbn [job_unlink_loop]. apply wp_bind. eapply wp_deref; [done|].
    rewrite decide_False by congruence.
    apply IH; [done|done|lia|done|by intros p [= <-]|].
    unfold unlinked in *. rewrite last_cons in HQ. by destruct (last l1).
Qed.

Lemma hchain_unlink J b l1 p P j Jb l2 :
  NoDup (l1 ++ p :: j :: l2) → J !! p = Some P → J !! j = Some Jb →
  hchain J b (l1 ++ p :: j :: l2) →
  hchain (<[p := P <| j_ht_next := j_ht_next Jb |>]> J) b (l1 ++ p :: l2).
Proof.
  intros Hnd HP Hj. revert b. induction l1 as [|x l1 IH]; intros b Hc.
  - simpl in *. destruct Hc as (-> & ? & ? & ? & ? & ? & Hc). simplify_eq.
    split; [done|]. eexists. rewrite lookup_insert_eq. split; [done|]. rsimpl.
    apply NoDup_cons in Hnd as [Hnd _].
    eapply hchain_ext; [|exact Hc]. intros y Hy. rewrite lookup_insert_ne; [done|].
    intros ->. apply Hnd. by right.
  - simpl in *. apply NoDup_cons in Hnd as [Hx Hnd]. destruct Hc as (-> & Xb & HX & Hc).
    split; [done|]. exists Xb. rewrite lookup_insert_ne; [split; [done|by apply IH]|].
    intros ->. apply Hx. set_solver.
Qed.

(** The tables before the check of the load factor. *)
Lemma table_delete s m id j Jb l1 l2 (i := id mod all_jobs_cap (st_table s))
    (s' := unlinked s i None l1 (j_ht_next Jb)) :
  table_rep (st_jobs s) (st_table s) m → m !! id = Some j → st_jobs s !! j = Some Jb →
  hchain (st_jobs s) (all_jobs (st_table s) !! i) (l1 ++ j :: l2) →
  NoDup (l1 ++ j :: l2) →
  (∀ x, x ∈ l1 ++ j :: l2 ↔ bucket_of m (all_jobs_cap (st_table s)) i x) →
  table_rep (st_jobs s') (st_table s') (delete id m) ∧
  same_but_ht (st_jobs s) (st_jobs s') ∧ s' = table_upd s (st_jobs s') (st_table s') (st_tick s).
Proof.
  intros Ht Hid HJb Hc Hnd Hb. pose proof Ht as [Hcp Hp Hch Hids Hu Hl].
  assert (∀ id', m !! id' = Some j → id' = id) as Huniq.
  { intros id' Hid'. destruct (Hids _ _ Hid) as (_ & ? & ? & ?).
    destruct (Hids _ _ Hid') as (_ & ? & ? & ?). congruence. }
  assert (∀ i' x, bucket_of (delete id m) (all_jobs_cap (st_table s)) i' x ↔
    bucket_of m (all_jobs_cap (st_table s)) i' x ∧ x ≠ j) as Hbd.
  { intros i' x. unfold bucket_of. setoid_rewrite lookup_delete_Some. split.
    - intros (id' & [Hne Hm] & ?). split; [eauto|]. intros ->. by destruct Hne; rewrite (Huniq id').
    - intros [(id' & ? & ?) Hne]. exists id'. split_and!; [congruence|done|done]. }
  assert (all_jobs_cap (st_table s') = all_jobs_cap (st_table s) ∧
    cur_prime (st_table s') = cur_prime (st_table s) ∧
    hash_table_was_oom (st_table s') = hash_table_was_oom (st_table s) ∧
    all_jobs_used (st_table s') = all_jobs_used (st_table s) - 1) as (E1 & E2 & E3 & E4).
  { unfold s', unlinked. destruct (last l1); rsimpl; done. }
  assert (same_but_ht (st_jobs s) (st_jobs s')) as Hsame.
  { unfold s', unlinked. destruct (last l1) as [p|] eqn:El; rsimpl; [|done].
    assert (is_Some (st_jobs s !! p)) as [P HP].
    { eapply hchain_lookup; [exact Hc|]. apply elem_of_app. left. by apply last_Some_elem_of in El. }
    rewrite (alter_insert_job _ _ _ _ HP). by apply same_but_ht_insert. }
  split; [|split; [done|]].
  2:{ unfold s', unlinked. by destruct (last l1), s. }
  split; rewrite ?E1, ?E2, ?E3, ?E4; try done.
  - intros i' Hi'. destruct (decide (i' = i)) as [->|Hne].
    + exists (l1 ++ l2). split_and!.
      * unfold s', unlinked. destruct l1 as [|p l1' _] using rev_ind.
        -- cbn [last]. rsimpl. rewrite lookup_partial_alter_eq. simpl in Hc.
           destruct Hc as (_ & ? & ? & Hc). by simplify_eq.
        -- rewrite last_snoc. rsimpl. rewrite <- !app_assoc in *. simpl in *.
           assert (is_Some (st_jobs s !! p)) as [P HP].
           { eapply hchain_lookup; [exact Hc|]. set_solver. }
           rewrite (alter_insert_job _ _ _ _ HP).
           by apply (hchain_unlink _ _ _ _ _ j).
      * revert Hnd. rewrite !NoDup_app, NoDup_cons. set_solver.
      * intros x. rewrite Hbd, <- Hb.
        apply NoDup_app in Hnd as (_ & Hd & Hnd%NoDup_cons). set_solver.
    + destruct (Hch i' Hi') as (l & Hl1 & Hnd' & Hb'). exists l. split_and!; [|done|].
      * assert (∀ x, x ∈ l → x ∉ l1) as Hdisj.
        { intros x (id1 & Hm1 & H1)%Hb' Hx.
          assert (x ∈ l1 ++ j :: l2) as (id2 & Hm2 & H2)%Hb by set_solver.
          destruct (Hids _ _ Hm1) as (_ & ? & ? & ?). destruct (Hids _ _ Hm2) as (_ & ? & ? & ?).
          simplify_eq. }
        unfold s', unlinked. destruct (last l1) as [p|] eqn:El; rsimpl.
        -- eapply hchain_ext; [|done]. intros x Hx. rewrite lookup_alter_ne; [done|].
           intros ->. apply last_Some_elem_of in El. by eapply Hdisj.
        -- by rewrite lookup_partial_alter_ne.
      * intros x. rewrite Hbd, <- Hb'. split; [|naive_solver]. intros Hx. split; [done|].
        intros ->. apply Hb' in Hx as (id' & Hm' & ?). by rewrite (Huniq _ Hm') in *.
  - intros id' x Hx. apply lookup_delete_Some in Hx as [Hne Hx].
    destruct (Hids _ _ Hx) as (? & Xb & HX & ?). split; [done|].
    destruct (same_but_ht_lookup _ _ _ _ Hsame HX) as [q ->]. eexists. by split.
  - rewrite map_size_delete, Hid, Hu.
    assert (size m ≠ 0%nat). { intros H0%map_size_empty_inv. by subst. }
    lia.
  - intros Ho. specialize (Hl Ho). lia.
Qed.

Lemma rehash_with_bottom store s :
  cur_prime (st_table s) = 0 → rehash_with store false s = Ret tt s.
Proof. intros H. unfold rehash_with, gets, mbind, M_bind, Datatypes.id. by rewrite H. Qed.

Lemma wp_job_hash_free s m id j Jb (Q : unit → St → Prop) :
  table_rep (st_jobs s) (st_table s) m → m !! id = Some j → st_jobs s !! j = Some Jb →
  (∀ J T n, table_rep J T (delete id m) → same_but_ht (st_jobs s) J →
    next_id T = next_id (st_table s) → Q tt (table_upd s J T n)) →
  wp (job_hash_free j) Q s.
Proof.
  intros Ht Hid HJb HQ. pose proof (table_cap _ _ _ Ht) as Hcap.
  destruct (tr_id _ _ _ Ht _ _ Hid) as (Hid0 & ? & ? & Hr). simplify_eq.
  set (i := r_id (j_r Jb) mod all_jobs_cap (st_table s)).
  assert (0 <= i < all_jobs_cap (st_table s)) as Hi by (apply Z.mod_pos_bound; lia).
  unfold job_hash_free. apply wp_bind. eapply wp_deref; [done|].
  apply wp_bind. eapply job_hash_index_eq; [done|done|]. fold i.
  apply wp_bind, wp_get_bucket; [done|]. apply wp_bind, wp_gets.
  destruct (tr_chain _ _ _ Ht i Hi) as (l & Hl & Hnd & Hb).
  assert (j ∈ l) as Hjl by (apply Hb; by eexists).
  apply list_elem_of_split in Hjl as (l1 & l2 & ->).
  assert (j ∉ l1). { apply NoDup_app in Hnd as (_ & Hd & _). intros ?. eapply Hd; [done|left]. }
  apply wp_bind. eapply wp_job_unlink; [done|done|done| |done|done|].
  { apply hchain_length in Hl; [|done]. rewrite length_app in Hl. unfold Datatypes.id. lia. }
  destruct (table_delete s m _ j Jb l1 l2 Ht Hid HJb Hl Hnd Hb) as (Ht' & Hsame & Heq).
  fold i in Ht', Hsame, Heq. set (s' := unlinked s i None l1 (j_ht_next Jb)) in *.
  apply wp_bind, wp_gets. unfold Datatypes.id.
  assert (next_id (st_table s') = next_id (st_table s)) as Hnx.
  { unfold s', unlinked. by destruct (last l1); rsimpl. }
  destruct (Z.ltb_spec (all_jobs_used (st_table s')) (Z.shiftr (all_jobs_cap (st_table s')) 4))
    as [Hlt|_].
  2:{ apply wp_ret. rewrite Heq. by apply HQ. }
  pose proof (tr_prime _ _ _ Ht') as Hp. pose proof (tr_cap _ _ _ Ht') as Hc.
  destruct (decide (cur_prime (st_table s') = 0)) as [H0|H0].
  { unfold wp, rehash. rewrite rehash_with_bottom, Heq by done. by apply HQ. }
  eapply (wp_rehash_with _ false); [by apply table_rep_core|lia| |].
  - intros _ cap' Hcap'. rewrite <- (tr_used _ _ _ Ht').
    replace (Z.to_nat (cur_prime (st_table s'))) with
      (S (Z.to_nat (cur_prime (st_table s') + -1))) in Hc by lia.
    pose proof (primes_step _ _ _ Hcap' Hc).
    rewrite Z.shiftr_div_pow2 in Hlt by lia. change (2 ^ 4) with 16 in Hlt.
    pose proof (Z.mul_div_le (all_jobs_cap (st_table s')) 16 ltac:(lia)). lia.
  - intros J T n HT HJ Hn. rewrite Heq, table_upd_upd. apply HQ; [done| |].
    + by etrans.
    + by rewrite Hn.
Qed.
End contract.
