(* ===== verification/Tube.v ===== *)
(** Tubes ([tube.c]): the global set of tubes, whose references are weak, and
    the reference counts that decide when a tube is freed. *)
From S2P Require Import Prelude Heap Ms State Monad JobList.
#[local] Open Scope Z_scope.

(** [strncmp(a, b, n) == 0] on strings without NUL. *)
Definition strncmp_eq (n : nat) (a b : bytes) : bool :=
  bool_decide (take n a = take n b).

Section operations.
Context {E : Env}.

(** [ms_append], where [malloc] is consulted only to grow the array. *)
Definition ms_append_M {X} (item : X) (a : Ms X) : M (bool * Ms X) :=
  ok ← (if (ms_cap a <=? ms_len a)%nat then malloc_ok else mret true);
  mret (ms_append ok item a).

Definition tube_zero : Tube :=
  mkTube 0 [] heap_empty heap_empty ms_init stats_zero 0 0 0 0.

(** Names longer than [MAX_TUBE_NAME_LEN - 1] are truncated. *)
Definition make_tube (name : bytes) : M (option tubep) :=
  t ← malloc st_tubes tube_zero;
  match t with
  | None => mret None
  | Some t =>
      update st_tubes t (fun T => T <| t_name := take (MAX_TUBE_NAME_LEN - 1) name |>);;
      job_list_reset (NBuried t);;
      update st_tubes t (fun T => T <| t_waiting_conns := ms_init |>);;
      mret (Some t)
  end.

Definition tube_free (t : tubep) : M unit :=
  s ← gets id;
  (match ms_remove t (tubes s) with
   | Some (_, a) => modify (fun s => s <| tubes := a |>)
   | None => mret tt
   end);;
  update st_tubes t (fun T => T <| t_waiting_conns := ms_init |>);;
  modify (fun s => s <| st_links ::= delete (NBuried t) |>);;
  free st_tubes t.

Definition tube_dref (t : option tubep) : M unit :=
  match t with
  | None => mret tt
  | Some t =>
      T ← deref st_tubes t;
      if t_refs T <? 1 then mret tt
      else
        update st_tubes t (fun T => T <| t_refs ::= Z.pred |>);;
        if t_refs T - 1 <? 1 then tube_free t else mret tt
  end.

Definition tube_iref (t : option tubep) : M unit :=
  match t with
  | None => mret tt
  | Some t => update st_tubes t (fun T => T <| t_refs ::= fun n => wrap_u32 (n + 1) |>)
  end.

(** [TUBE_ASSIGN(a, b)]: [a] is the old pointer, [set] stores the new one. *)
Definition TUBE_ASSIGN (a : option tubep) (set : M unit) (b : option tubep) : M unit :=
  tube_dref a;; set;; tube_iref b.

Definition make_and_insert_tube (name : bytes) : M (option tubep) :=
  t ← make_tube name;
  match t with
  | None => mret None
  | Some t =>
      s ← gets id;
      '(r, a) ← ms_append_M t (tubes s);
      modify (fun s => s <| tubes := a |>);;
      if r : bool then mret (Some t)
      else tube_dref (Some t);; mret None
  end.

Fixpoint tube_find_loop (items : list tubep) (name : bytes) : M (option tubep) :=
  match items with
  | [] => mret None
  | t :: items =>
      T ← deref st_tubes t;
      if strncmp_eq MAX_TUBE_NAME_LEN (t_name T) name then mret (Some t)
      else tube_find_loop items name
  end.
Definition tube_find (tubeset : Ms tubep) (name : bytes) : M (option tubep) :=
  tube_find_loop (ms_items tubeset) name.

Definition tube_find_or_make (name : bytes) : M (option tubep) :=
  s ← gets id;
  t ← tube_find (tubes s) name;
  match t with
  | Some t => mret (Some t)
  | None => make_and_insert_tube name
  end.
End operations.
