(* ===== verification/Job.v ===== *)
(** Jobs ([job.c]): allocation, copies, deallocation, and the two orders of
    the job heaps. *)
From S2P Require Import Prelude Heap Ms State Monad JobList JobHash Tube.
#[local] Open Scope Z_scope.

(** ** The orders of the job heaps *)

Definition job_pri_less (a b : Job) : bool :=
  if r_pri (j_r a) <? r_pri (j_r b) then true
  else if r_pri (j_r b) <? r_pri (j_r a) then false
  else r_id (j_r a) <? r_id (j_r b).

Definition job_delay_less (a b : Job) : bool :=
  if r_deadline_at (j_r a) <? r_deadline_at (j_r b) then true
  else if r_deadline_at (j_r b) <? r_deadline_at (j_r a) then false
  else r_id (j_r a) <? r_id (j_r b).

Definition job_setpos (j : jobp) (pos : nat) (J : gmap jobp Job) : gmap jobp Job :=
  alter (fun Jb => Jb <| j_heap_index := pos |>) j J.

(** [less] and [setpos] of a heap of jobs, on the store of jobs. *)
Definition job_ops (lt : Job → Job → bool) : heap_ops (gmap jobp Job) jobp :=
  HeapOps
    (fun J a b => match J !! a, J !! b with
                  | Some A, Some B => lt A B
                  | _, _ => false
                  end)
    job_setpos.
Definition job_pri_ops := job_ops job_pri_less.
Definition job_delay_ops := job_ops job_delay_less.

Section operations.
Context {E : Env}.

(** [heapinsert] and [heapremove] on a heap of a tube. *)
Definition tube_heapinsert (sel : Tube → Heap jobp) `{!Setter sel}
    (ops : heap_ops (gmap jobp Job) jobp) (t : tubep) (j : jobp) : M bool :=
  T ← deref st_tubes t;
  ok ← (if (h_len (sel T) =? h_cap (sel T))%nat then malloc_ok else mret true);
  s ← gets id;
  '(r, (h, J)) ← from_option (heapinsert ops ok j (sel T, st_jobs s));
  modify (fun s => s <| st_jobs := J |> <| st_tubes ::= <[t := T <| sel := h |>]> |>);;
  mret r.

Definition tube_heapremove (sel : Tube → Heap jobp) `{!Setter sel}
    (ops : heap_ops (gmap jobp Job) jobp) (t : tubep) (k : nat) : M (option jobp) :=
  T ← deref st_tubes t;
  s ← gets id;
  '(r, (h, J)) ← from_option (heapremove ops k (sel T, st_jobs s));
  modify (fun s => s <| st_jobs := J |> <| st_tubes ::= <[t := T <| sel := h |>]> |>);;
  mret r.

(** ** Allocation *)

Definition job_zero : Job :=
  mkJob (mkJobrec 0 0 0 0 0 0 0 0 0 0 0 0 Invalid) None None 0 None None 0 0 [] 0.

Definition allocate_job (body_size : Z) : M (option jobp) :=
  j ← malloc st_jobs job_zero;
  match j with
  | None => mret None
  | Some j =>
      now ← nanoseconds;
      update st_jobs j (fun J => J <| j_cap := body_size |>);;
      update st_jobs j (fun J => J <| j_r ::= fun r =>
        r <| r_created_at := now |> <| r_body_size := body_size |> |>);;
      job_list_reset (NJob j);;
      mret (Some j)
  end.

Definition job_assign_tube (j : jobp) (tube : option tubep) : M unit :=
  J ← deref st_jobs j;
  TUBE_ASSIGN (j_tube J) (update st_jobs j (fun J => J <| j_tube := tube |>)) tube.

Definition make_job_with_id (pri delay ttr body_size : Z) (tube : option tubep) (id : Z)
    : M (option jobp) :=
  j ← allocate_job body_size;
  match j with
  | None => mret None
  | Some j =>
      s ← gets Datatypes.id;
      let next := next_id (st_table s) in
      (if negb (id =? 0) then
         update st_jobs j (fun J => J <| j_r ::= fun r => r <| r_id := id |> |>);;
         if next <=? id
         then modify (fun s => s <| st_table ::= fun T => T <| next_id := wrap_u64 (id + 1) |> |>)
         else mret tt
       else
         update st_jobs j (fun J => J <| j_r ::= fun r => r <| r_id := next |> |>);;
         modify (fun s => s <| st_table ::= fun T => T <| next_id := wrap_u64 (next + 1) |> |>));;
      update st_jobs j (fun J => J <| j_r ::= fun r =>
        r <| r_pri := pri |> <| r_delay := delay |> <| r_ttr := ttr |> |>);;
      store_job j;;
      job_assign_tube j tube;;
      mret (Some j)
  end.

Definition make_job (pri delay ttr body_size : Z) (tube : option tubep) : M (option jobp) :=
  make_job_with_id pri delay ttr body_size tube 0.

Definition job_free (j : option jobp) : M unit :=
  match j with
  | None => mret tt
  | Some j =>
      job_assign_tube j None;;
      J ← deref st_jobs j;
      (if decide (r_state (j_r J) = Copy) then mret tt else job_hash_free j);;
      modify (fun s => s <| st_links ::= delete (NJob j) |>);;
      free st_jobs j
  end.

(** The copy is not in the hash table, holds no log file, has its own
    reference to the tube and state [Copy]. *)
Definition job_copy (j : option jobp) : M (option jobp) :=
  match j with
  | None => mret None
  | Some j =>
      J ← deref st_jobs j;
      n ← malloc st_jobs (J <| j_cap := r_body_size (j_r J) |>);
      match n with
      | None => mret None
      | Some n =>
          job_list_reset (NJob n);;
          update st_jobs n (fun N => N <| j_file := None |>);;
          update st_jobs n (fun N => N <| j_tube := None |>);;
          job_assign_tube n (j_tube J);;
          update st_jobs n (fun N => N <| j_r ::= fun r => r <| r_state := Copy |> |>);;
          mret (Some n)
      end
  end.

Definition job_state (J : Job) : string :=
  match r_state (j_r J) with
  | Ready => "ready"
  | Reserved => "reserved"
  | Buried => "buried"
  | Delayed => "delayed"
  | _ => "invalid"
  end.
End operations.

(** ** The job heaps as sets of jobs *)

(** Both orders compare one field of the record, then the id. *)
Definition rec_less (f : Jobrec → Z) (a b : Job) : bool :=
  if f (j_r a) <? f (j_r b) then true
  else if f (j_r b) <? f (j_r a) then false
  else r_id (j_r a) <? r_id (j_r b).

Lemma job_pri_ops_eq : job_pri_ops = job_ops (rec_less r_pri).
Proof. done. Qed.
Lemma job_delay_ops_eq : job_delay_ops = job_ops (rec_less r_deadline_at).
Proof. done. Qed.

Definition job_pos (J : gmap jobp Job) (j : jobp) : option nat := j_heap_index <$> J !! j.
Definition erase_pos (J : Job) : Job := J <| j_heap_index := 0%nat |>.

#[export] Instance job_ops_laws f : HeapLaws (job_ops (rec_less f)) job_pos.
Proof.
  split.
  - intros x k J a b. simpl. unfold job_setpos, rec_less.
    assert (∀ c, j_r <$> alter (λ Jb, Jb <| j_heap_index := k |>) x J !! c = j_r <$> J !! c) as Hr.
    { intros c. destruct (decide (c = x)) as [->|].
      - rewrite lookup_alter_eq. by destruct (J !! x).
      - by rewrite lookup_alter_ne. }
    pose proof (Hr a) as Ha. pose proof (Hr b) as Hb.
    destruct (alter _ x J !! a), (J !! a), (alter _ x J !! b), (J !! b); simplify_eq/=;
      try done. by rewrite Ha, Hb.
  - intros x k J [i Hi]. unfold job_pos in *. simpl. unfold job_setpos.
    rewrite lookup_alter_eq. by destruct (J !! x).
  - intros x y k J Hne. unfold job_pos. simpl. unfold job_setpos. by rewrite lookup_alter_ne.
Qed.

Section job_heaps.
Context (f : Jobrec → Z).
Implicit Types (J : gmap jobp Job) (h : Heap jobp) (M : jobp → Prop) (j x : jobp).

Lemma job_steps lt L J J' :
  setpos_steps (job_ops lt) L J J' →
  same_but erase_pos J J' ∧ ∀ j, j ∉ L → J' !! j = J !! j.
Proof.
  induction 1 as [J|J1 J2 J3 (x & k & Hx & ->) _ [IH1 IH2]]; [done|].
  simpl in *. unfold job_setpos in *. split.
  - etrans; [|exact IH1]. unfold same_but. apply map_eq. intros c.
    rewrite !lookup_fmap. destruct (decide (c = x)) as [->|].
    + rewrite lookup_alter_eq. by destruct (J1 !! x).
    + by rewrite lookup_alter_ne.
  - intros j Hj. rewrite IH2 by done. apply lookup_alter_ne. by intros ->.
Qed.

(** The jobs of [M] are live and have distinct ids. *)
Definition distinct_ids J M : Prop :=
  (∀ x, M x → is_Some (J !! x)) ∧
  ∀ x y X Y, M x → M y → J !! x = Some X → J !! y = Some Y →
    r_id (j_r X) = r_id (j_r Y) → x = y.

Lemma distinct_ids_mono J M M' : (∀ x, M' x → M x) → distinct_ids J M → distinct_ids J M'.
Proof. intros H [Hl Hd]. split; eauto. Qed.

Lemma job_total J M : distinct_ids J M → total_order M (less_fn (job_ops (rec_less f)) J).
Proof.
  intros [Hl Hd]. split; [split|]; simpl.
  - intros a b (A & HA)%Hl (B & HB)%Hl. rewrite HA, HB. unfold rec_less.
    repeat case_match; lia.
  - intros a b c (A & HA)%Hl (B & HB)%Hl (C & HC)%Hl. rewrite HA, HB, HC. unfold rec_less.
    repeat case_match; try discriminate; lia.
  - intros a b Ma Mb. destruct (Hl a Ma) as (A & HA), (Hl b Mb) as (B & HB).
    rewrite HA, HB. unfold rec_less. intros H1 H2. apply (Hd a b A B); auto.
    repeat case_match; try discriminate; lia.
Qed.

(** The heap [h] holds the jobs satisfying [M]. *)
Record heap_rep J h M : Prop := {
  hr_wf : heap_wf (job_ops (rec_less f)) job_pos h J;
  hr_mem x : x ∈ elems h ↔ M x;
  hr_ids : distinct_ids J M;
}.

Lemma heap_rep_iff J h M M' : (∀ x, M x ↔ M' x) → heap_rep J h M → heap_rep J h M'.
Proof.
  intros H [Hw Hm Hi]. split; [done|intros x; by rewrite Hm|].
  eapply distinct_ids_mono; [|done]. intros x. by rewrite H.
Qed.

Lemma heap_rep_empty J : heap_rep J heap_empty (λ _, False).
Proof.
  split; [apply heap_empty_wf|intros x; simpl; set_solver|]. by split.
Qed.

(** A heap does not see what happens to the other jobs. *)
Lemma heap_rep_other J J' h M :
  (∀ x, M x → J' !! x = J !! x) → heap_rep J h M → heap_rep J' h M.
Proof.
  intros HJ [[Hd Hc Hp Ho] Hm [Hl Hi]]. split; [split| |split]; try done.
  - intros i x Hx. unfold job_pos. rewrite HJ; [by apply Hp|].
    apply Hm. eauto using list_elem_of_lookup_2.
  - intros i Hi0 a b Ha Hb. simpl.
    rewrite !HJ by (apply Hm; eauto using list_elem_of_lookup_2). by apply (Ho i Hi0 a b).
  - intros x Hx. rewrite HJ by done. auto.
  - intros x y X Y Hx Hy. rewrite !HJ by done. eauto.
Qed.

(** The heap and the order only use the record and the index of a job. *)
Lemma heap_rep_fields J J' h M :
  (∀ x X, M x → J !! x = Some X → ∃ X', J' !! x = Some X' ∧
     j_heap_index X' = j_heap_index X ∧ f (j_r X') = f (j_r X) ∧
     r_id (j_r X') = r_id (j_r X)) →
  heap_rep J h M → heap_rep J' h M.
Proof.
  intros HJ [[Hd Hc Hp Ho] Hm [Hl Hi]]. split; [split| |split]; try done.
  - intros i x Hx. pose proof (Hp i x Hx) as Hpx.
    assert (M x) as Mx by (apply Hm; eauto using list_elem_of_lookup_2).
    unfold job_pos in *. destruct (J !! x) as [X|] eqn:HX; [|done].
    destruct (HJ x X Mx HX) as (X' & -> & Hpos & _). simpl in *. congruence.
  - intros i Hi0 a b Ha Hb. pose proof (Ho i Hi0 a b Ha Hb) as Hlt.
    assert (M a ∧ M b) as [Ma Mb] by (split; apply Hm; eauto using list_elem_of_lookup_2).
    destruct (Hl a Ma) as [A HA], (Hl b Mb) as [B HB].
    destruct (HJ a A Ma HA) as (A' & HA' & _ & Ef & Ei).
    destruct (HJ b B Mb HB) as (B' & HB' & _ & Ef' & Ei').
    simpl in *. rewrite HA, HB in Hlt. rewrite HA', HB'. unfold rec_less in *.
    by rewrite Ef, Ef', Ei, Ei'.
  - intros x Mx. destruct (Hl x Mx) as [X HX]. destruct (HJ x X Mx HX) as (X' & -> & _). eauto.
  - intros x y X' Y' Mx My HX' HY' Heq.
    destruct (Hl x Mx) as [X HX], (Hl y My) as [Y HY].
    destruct (HJ x X Mx HX) as (? & ? & _ & _ & ?), (HJ y Y My HY) as (? & ? & _ & _ & ?).
    simplify_eq. apply (Hi x y X Y); auto. congruence.
Qed.

(** [setpos] keeps a set of jobs with distinct ids. *)
Lemma distinct_ids_pos J J' M :
  same_but erase_pos J J' → distinct_ids J M → distinct_ids J' M.
Proof.
  intros HJ [Hl Hd]. split.
  - intros x (X & HX)%Hl. destruct (same_but_lookup _ _ _ _ _ HJ HX) as (? & ? & _). eauto.
  - intros x y X' Y' Mx My (X & HX & EX)%(same_but_lookup_inv _ _ _ _ _ HJ)
      (Y & HY & EY)%(same_but_lookup_inv _ _ _ _ _ HJ) Heq.
    apply (Hd x y X Y); auto.
    apply (f_equal j_r) in EX, EY. unfold erase_pos in EX, EY. rsimpl. congruence.
Qed.

Lemma heap_rep_insert J h M j ok :
  heap_rep J h M → ¬ M j → distinct_ids J (λ x, x = j ∨ M x) →
  (h_len h = h_cap h → ok = true) →
  ∃ h' J', heapinsert (job_ops (rec_less f)) ok j (h, J) = Some (true, (h', J')) ∧
    heap_rep J' h' (λ x, x = j ∨ M x) ∧ same_but erase_pos J J' ∧
    ∀ x, x ≠ j → ¬ M x → J' !! x = J !! x.
Proof.
  intros [Hw Hm Hi] Hj Hd Hok.
  assert (∀ x, x ∈ j :: elems h ↔ x = j ∨ M x) as Hin by (intros x; rewrite elem_of_cons, Hm; done).
  destruct (heapinsert_good (job_ops (rec_less f)) job_pos h J j ok) as (h' & J' & Heq & Hw' & Hp & Hst);
    [done|by rewrite Hm| | |done|].
  - destruct (proj1 Hd j) as [Jb HJ]; [by left|]. unfold job_pos. rewrite HJ. eauto.
  - eapply weak_order_mono; [|apply (job_total J _ Hd)]. intros x. apply Hin.
  - apply job_steps in Hst as [Hs Ho]. exists h', J'. split_and!; try done.
    + split; [done| |by eapply distinct_ids_pos]. intros x. by rewrite Hp, Hin.
    + intros x ??. apply Ho. rewrite Hin. tauto.
Qed.

Lemma heap_rep_remove J h M j Jb :
  heap_rep J h M → M j → J !! j = Some Jb →
  ∃ h' J', heapremove (job_ops (rec_less f)) (j_heap_index Jb) (h, J) =
      Some (Some j, (h', J')) ∧
    heap_rep J' h' (λ x, M x ∧ x ≠ j) ∧ same_but erase_pos J J' ∧
    ∀ x, ¬ M x → J' !! x = J !! x.
Proof.
  intros [Hw Hm Hi] Mj HJb.
  assert (total_order (λ x, x ∈ elems h) (less_fn (job_ops (rec_less f)) J)) as Ht.
  { eapply total_order_mono; [|by apply job_total]. intros x. apply Hm. }
  apply Hm, list_elem_of_lookup in Mj as [i Hji].
  pose proof (hw_pos _ _ _ _ Hw i j Hji) as Hpos. unfold job_pos in Hpos.
  rewrite HJb in Hpos. simplify_eq/=.
  destruct (heapremove_good (job_ops (rec_less f)) job_pos h J (j_heap_index Jb) j)
    as (h' & J' & Heq & Hw' & Hp & Hst); [done|done|apply Ht| |].
  { intros _. by apply (total_parent_less _ job_pos). }
  assert (NoDup (j :: elems h')) as Hnd.
  { rewrite Hp. eapply pos_ok_NoDup, Hw. }
  apply job_steps in Hst as [Hs Ho]. exists h', J'. split_and!; try done.
  - apply NoDup_cons in Hnd as [Hnd _]. split; [done| |].
    + intros x. rewrite <- Hm, <- Hp, elem_of_cons. naive_solver.
    + eapply distinct_ids_mono; [|by eapply distinct_ids_pos]. tauto.
  - intros x Hx. apply Ho. by rewrite Hm.
Qed.

(** The first element is the least. *)
Lemma heap_rep_first J h M :
  heap_rep J h M → h_len h ≠ 0%nat →
  ∃ j Jb, h_data h !! 0%nat = Some j ∧ J !! j = Some Jb ∧ M j ∧
    ∀ x X, M x → J !! x = Some X → rec_less f X Jb = false.
Proof.
  intros [Hw Hm Hi] Hlen. pose proof (hw_data _ _ _ _ Hw).
  destruct (lookup_lt_is_Some_2 (elems h) 0) as [j Hj].
  { unfold elems. rewrite length_take. lia. }
  assert (M j) as Mj by (apply Hm; eauto using list_elem_of_lookup_2).
  destruct (proj1 Hi j Mj) as [Jb HJb]. exists j, Jb.
  split_and!; [|done|done|].
  - unfold elems in Hj. by apply lookup_take_Some in Hj as [? _].
  - intros x X Mx HX.
    pose proof (heap_min (job_ops (rec_less f)) job_pos h J j x Hw) as Hmin.
    simpl in Hmin. rewrite HX, HJb in Hmin. apply Hmin; [|done|by apply Hm].
    eapply weak_order_mono; [|apply (job_total J M Hi)]. intros y. apply Hm.
Qed.

Lemma heap_rep_len J h M : heap_rep J h M → (∀ x, ¬ M x) → h_len h = 0%nat.
Proof.
  intros [Hw Hm _] HM. destruct (h_len h) eqn:E; [done|].
  pose proof (hw_data _ _ _ _ Hw). destruct (lookup_lt_is_Some_2 (elems h) 0) as [j Hj].
  { unfold elems. rewrite length_take. lia. }
  destruct (HM j). apply Hm. eauto using list_elem_of_lookup_2.
Qed.

Lemma heap_rep_none J h M : heap_rep J h M → h_len h = 0%nat → ∀ x, ¬ M x.
Proof.
  intros [_ Hm _] Hlen x Hx%Hm. unfold elems in Hx. rewrite Hlen, take_0 in Hx. set_solver.
Qed.
End job_heaps.
