(* ===== verification/Wal.v ===== *)
(** The write-ahead log ([walg.c] and the writing half of [file.c]).

    Log files form a list through [f_next], from [w_head] to [w_tail]; [w_cur]
    is the file being written.  Space for every record is reserved before the
    job is accepted, so that a later delete cannot fail for lack of space.
    [fileaddjob] and [filermjob] keep, per file, the list of the jobs whose
    full record is in that file. *)
From S2P Require Import Prelude Heap Ms State Monad.
#[local] Open Scope Z_scope.

(** ** Record encoding *)

Fixpoint le_bytes (n : nat) (z : Z) : bytes :=
  match n with
  | O => []
  | S n => ascii_of_N (Z.to_N (z mod 256)) :: le_bytes n (z / 256)
  end.

Definition jobstate_byte (st : jobstate) : Z :=
  match st with
  | Invalid => 0 | Ready => 1 | Reserved => 2 | Buried => 3 | Delayed => 4 | Copy => 5
  end.

(** The memory image of [struct Jobrec] on a little-endian LP64 machine, the
    padding being zero. *)
Definition encode_jobrec (r : Jobrec) : bytes :=
  le_bytes 8 (r_id r) ++ le_bytes 4 (r_pri r) ++ le_bytes 4 0 ++
  le_bytes 8 (r_delay r) ++ le_bytes 8 (r_ttr r) ++
  le_bytes 4 (r_body_size r) ++ le_bytes 4 0 ++
  le_bytes 8 (r_created_at r) ++ le_bytes 8 (r_deadline_at r) ++
  le_bytes 4 (r_reserve_ct r) ++ le_bytes 4 (r_timeout_ct r) ++
  le_bytes 4 (r_release_ct r) ++ le_bytes 4 (r_bury_ct r) ++
  le_bytes 4 (r_kick_ct r) ++ le_bytes 1 (jobstate_byte (r_state r)) ++ le_bytes 3 0.

Definition sizeof_int : Z := 4.
Definition sizeof_Jobrec : Z := 80.
Definition Walver : Z := 7.

Definition get_wal : M Wal := gets srv_wal.
Definition upd_wal (f : Wal → Wal) : M unit := modify (fun s => s <| srv_wal ::= f |>).

Section operations.
Context {E : Env}.

(** ** Files *)

Fixpoint walgc_loop (fuel : nat) : M unit :=
  w ← get_wal;
  match w_head w with
  | None => mret tt
  | Some f =>
      F ← deref st_files f;
      if negb (f_refs F =? 0) then mret tt
      else match fuel with
           | O => out_of_fuel
           | S fuel =>
               upd_wal (fun w => w <| w_head := f_next F |>);;
               (if decide (w_tail w = Some f)
                then upd_wal (fun w => w <| w_tail := f_next F |>) else mret tt);;
               upd_wal (fun w => w <| w_nfile ::= Z.pred |>);;
               emit (EvUnlink (f_seq F));;
               modify (fun s => s <| st_flinks ::= delete (FHead f) |>);;
               free st_files f;;
               walgc_loop fuel
           end
  end.
Definition walgc : M unit := s ← gets id; walgc_loop (size (st_files s)).

Definition fileincref (f : option filep) : M unit :=
  match f with
  | None => mret tt
  | Some f => update st_files f (fun F => F <| f_refs ::= fun n => wrap_u32 (n + 1) |>)
  end.

Definition filedecref (f : option filep) : M unit :=
  match f with
  | None => mret tt
  | Some f =>
      update st_files f (fun F => F <| f_refs ::= fun n => wrap_u32 (n - 1) |>);;
      F ← deref st_files f;
      if f_refs F <? 1 then walgc else mret tt
  end.

Definition get_flink (n : fnode) : M (option fnode * option fnode) :=
  s ← gets id; from_option (st_flinks s !! n).
Definition put_flink (n : fnode) (pn : option fnode * option fnode) : M unit :=
  modify (fun s => s <| st_flinks ::= <[n := pn]> |>).
Definition set_fprev (n : fnode) (v : option fnode) : M unit :=
  pn ← get_flink n; put_flink n (v, pn.2).
Definition set_fnext (n : fnode) (v : option fnode) : M unit :=
  pn ← get_flink n; put_flink n (pn.1, v).

Definition fileaddjob (f : filep) (j : jobp) : M unit :=
  let h := FHead f in
  hl ← get_flink h;
  (match hl.1 with None => set_fprev h (Some h) | Some _ => mret tt end);;
  update st_jobs j (fun J => J <| j_file := Some f |>);;
  hl ← get_flink h;
  put_flink (FJob j) (hl.1, Some h);;
  p ← nonnull hl.1;
  set_fnext p (Some (FJob j));;
  set_fprev h (Some (FJob j));;
  fileincref (Some f).

Definition filermjob (f : option filep) (j : jobp) : M unit :=
  match f with
  | None => mret tt
  | Some f =>
      J ← deref st_jobs j;
      if decide (j_file J ≠ Some f) then mret tt
      else
        l ← get_flink (FJob j);
        p ← nonnull l.1;
        x ← nonnull l.2;
        set_fprev x (Some p);;
        set_fnext p (Some x);;
        put_flink (FJob j) (None, None);;
        update st_jobs j (fun J => J <| j_file := None |>);;
        upd_wal (fun w => w <| w_alive ::= fun n => n - j_walused J |>);;
        update st_jobs j (fun J => J <| j_walused := 0 |>);;
        filedecref (Some f)
  end.

(** [write] to the log; a short count is an error. *)
Definition filewrite (f : filep) (j : jobp) (buf : bytes) : M bool :=
  F ← deref st_files f;
  n ← tick;
  let len := Z.of_nat (length buf) in
  match e_write n (f_fd F) buf with
  | IoErr _ => mret false
  | IoOk r =>
      emit (EvWrite (f_fd F) (take r buf));;
      if negb (Z.of_nat r =? len) then mret false
      else
        upd_wal (fun w => w <| w_resv ::= fun n => n - len |>);;
        update st_files f (fun F => F <| f_resv ::= fun n => n - len |>);;
        update st_jobs j (fun J => J <| j_walresv ::= fun n => n - len |>);;
        update st_jobs j (fun J => J <| j_walused ::= fun n => n + len |>);;
        upd_wal (fun w => w <| w_alive ::= fun n => n + len |>);;
        mret true
  end.

(** [a && b] of C *)
Definition andM (a b : M bool) : M bool :=
  r ← a; if r : bool then b else mret false.

Definition filewrjobshort (f : filep) (j : jobp) : M bool :=
  r ← andM (filewrite f j (le_bytes 4 0))
        (J ← deref st_jobs j; filewrite f j (encode_jobrec (j_r J)));
  if negb r then mret false
  else
    J ← deref st_jobs j;
    (if decide (r_state (j_r J) = Invalid) then filermjob (j_file J) j else mret tt);;
    mret r.

Definition tube_name_of (j : jobp) : M bytes :=
  J ← deref st_jobs j;
  t ← nonnull (j_tube J);
  T ← deref st_tubes t;
  mret (t_name T).

Definition filewrjobfull (f : filep) (j : jobp) : M bool :=
  fileaddjob f j;;
  name ← tube_name_of j;
  andM (filewrite f j (le_bytes 4 (Z.of_nat (length name))))
    (andM (filewrite f j name)
      (andM (J ← deref st_jobs j; filewrite f j (encode_jobrec (j_r J)))
        (J ← deref st_jobs j; filewrite f j (j_body J)))).

(** The system calls of [filewopen] succeed together or not at all; the
    header is 4 bytes. *)
Definition filewopen (f : filep) : M unit :=
  n ← tick;
  w ← get_wal;
  if negb (e_falloc n (w_filesize w)) then mret tt
  else
    update st_files f (fun F =>
      F <| f_fd := Z.of_nat n |> <| f_iswopen := true |>);;
    emit (EvWrite (Z.of_nat n) (le_bytes 4 Walver));;
    fileincref (Some f);;
    update st_files f (fun F =>
      F <| f_free := w_filesize w - sizeof_int |> <| f_resv := 0 |>).

(** The truncation of the unused tail of the file has no effect on the state. *)
Definition filewclose (f : option filep) : M unit :=
  match f with
  | None => mret tt
  | Some f =>
      F ← deref st_files f;
      if negb (f_iswopen F) then mret tt
      else
        emit (EvClose (f_fd F));;
        update st_files f (fun F => F <| f_iswopen := false |>);;
        filedecref (Some f)
  end.

Definition file_zero : File := mkFile None 0 0 false 0 0 0.

Definition fileinit (f : filep) (n : Z) : M bool :=
  update st_files f (fun F => F <| f_seq := n |>);;
  malloc_ok.

Definition fileadd (f : filep) : M unit :=
  w ← get_wal;
  (match w_tail w with
   | Some t => update st_files t (fun F => F <| f_next := Some f |>)
   | None => mret tt
   end);;
  upd_wal (fun w => w <| w_tail := Some f |>);;
  (match w_head w with
   | None => upd_wal (fun w => w <| w_head := Some f |>)
   | Some _ => mret tt
   end);;
  upd_wal (fun w => w <| w_nfile ::= Z.succ |>).

(** ** Reservation *)

Definition makenextfile : M bool :=
  f ← malloc st_files file_zero;
  match f with
  | None => mret false
  | Some f =>
      modify (fun s => s <| st_flinks ::= <[FHead f := (None, None)]> |>);;
      w ← get_wal;
      ok ← fileinit f (w_next w);
      if negb ok then
        modify (fun s => s <| st_flinks ::= delete (FHead f) |>);;
        free st_files f;; mret false
      else
        filewopen f;;
        F ← deref st_files f;
        if negb (f_iswopen F) then
          modify (fun s => s <| st_flinks ::= delete (FHead f) |>);;
          free st_files f;; mret false
        else
          upd_wal (fun w => w <| w_next ::= Z.succ |>);;
          fileadd f;;
          mret true
  end.

Definition moveresv (to from : filep) (n : Z) : M unit :=
  update st_files from (fun F => F <| f_resv ::= fun r => r - n |>);;
  update st_files from (fun F => F <| f_free ::= fun r => r + n |>);;
  update st_files to (fun F => F <| f_resv ::= fun r => r + n |>);;
  update st_files to (fun F => F <| f_free ::= fun r => r - n |>).

Definition needfree (n : Z) : M Z :=
  w ← get_wal;
  t ← nonnull (w_tail w);
  T ← deref st_files t;
  if n <=? f_free T then mret n
  else ok ← makenextfile; mret (if ok : bool then n else 0).

Definition usenext : M bool :=
  w ← get_wal;
  f ← nonnull (w_cur w);
  F ← deref st_files f;
  match f_next F with
  | None => mret false
  | Some x =>
      upd_wal (fun w => w <| w_cur := Some x |>);;
      filewclose (Some f);;
      mret true
  end.

(** The size of a delete record. *)
Definition rec_size : Z := sizeof_int + sizeof_Jobrec.

Fixpoint balancerest (fuel : nat) (b : option filep) (n : Z) : M bool :=
  match b with
  | None => mret true
  | Some b =>
      match fuel with
      | O => out_of_fuel
      | S fuel =>
          B ← deref st_files b;
          let rest := f_resv B - n in
          let r := Z.rem rest rec_size in
          if r =? 0 then balancerest fuel (f_next B) 0
          else
            let c := rec_size - r in
            w ← get_wal;
            t ← nonnull (w_tail w);
            T ← deref st_files t;
            if (c <=? f_resv T) && (c <=? f_free B) then
              moveresv b t c;;
              B ← deref st_files b;
              balancerest fuel (f_next B) 0
            else
              m ← needfree r;
              if negb (m =? r) then mret false
              else
                w ← get_wal;
                t ← nonnull (w_tail w);
                moveresv t b r;;
                B ← deref st_files b;
                balancerest fuel (f_next B) 0
      end
  end.

(** [while (w->cur->resv < n)] *)
Fixpoint balance_loop (fuel : nat) (n : Z) : M bool :=
  w ← get_wal;
  c ← nonnull (w_cur w);
  C ← deref st_files c;
  if n <=? f_resv C then mret true
  else match fuel with
       | O => out_of_fuel
       | S fuel =>
           let m := f_resv C in
           r ← needfree m;
           if negb (r =? m) then mret false
           else
             w ← get_wal;
             t ← nonnull (w_tail w);
             moveresv t c m;;
             usenext;;
             balance_loop fuel n
       end.

Definition balance (n : Z) : M bool :=
  s ← gets id;
  ok ← balance_loop (S (size (st_files s))) n;
  if negb ok then mret false
  else
    s ← gets id;
    balancerest (2 * size (st_files s) + 2)%nat (w_cur (srv_wal s)) n.

Definition reserve (n : Z) : M Z :=
  w ← get_wal;
  if negb (w_use w) then mret 1
  else
    c ← nonnull (w_cur w);
    C ← deref st_files c;
    if n <=? f_free C then
      update st_files c (fun F => F <| f_free ::= fun r => r - n |>);;
      update st_files c (fun F => F <| f_resv ::= fun r => r + n |>);;
      upd_wal (fun w => w <| w_resv ::= fun r => r + n |>);;
      mret n
    else
      r ← needfree n;
      if negb (r =? n) then mret 0
      else
        w ← get_wal;
        t ← nonnull (w_tail w);
        update st_files t (fun F => F <| f_free ::= fun r => r - n |>);;
        update st_files t (fun F => F <| f_resv ::= fun r => r + n |>);;
        upd_wal (fun w => w <| w_resv ::= fun r => r + n |>);;
        ok ← balance n;
        if negb ok then
          w ← get_wal;
          t ← nonnull (w_tail w);
          upd_wal (fun w => w <| w_resv ::= fun r => r - n |>);;
          update st_files t (fun F => F <| f_resv ::= fun r => r - n |>);;
          update st_files t (fun F => F <| f_free ::= fun r => r + n |>);;
          mret 0
        else mret n.

Definition walresvput (j : jobp) : M Z :=
  J ← deref st_jobs j;
  name ← tube_name_of j;
  reserve (sizeof_int + Z.of_nat (length name) + sizeof_Jobrec + r_body_size (j_r J)
           + sizeof_int + sizeof_Jobrec).

Definition walresvupdate : M Z := reserve (sizeof_int + sizeof_Jobrec).

Definition walresvmigrate (j : jobp) : M Z :=
  J ← deref st_jobs j;
  name ← tube_name_of j;
  reserve (sizeof_int + Z.of_nat (length name) + sizeof_Jobrec + r_body_size (j_r J)).

(** ** Writing and compaction *)

(** The integer division of C truncates. *)
Definition ratio (w : Wal) : Z :=
  let d := w_alive w + w_resv w in
  let n := w_nfile w * w_filesize w - d in
  if d =? 0 then 0 else wrap_i32 (Z.quot n d).

Definition walwrite (j : jobp) : M bool :=
  w ← get_wal;
  if negb (w_use w) then mret true
  else
    c ← nonnull (w_cur w);
    C ← deref st_files c;
    go ← (if 0 <? f_resv C then mret true else usenext);
    r ← (if go : bool then
           J ← deref st_jobs j;
           w ← get_wal;
           c ← nonnull (w_cur w);
           match j_file J with
           | Some _ => filewrjobshort c j
           | None => filewrjobfull c j
           end
         else mret false);
    (if negb r then
       w ← get_wal;
       filewclose (w_cur w);;
       upd_wal (fun w => w <| w_use := false |>)
     else mret tt);;
    upd_wal (fun w => w <| w_nrec ::= Z.succ |>);;
    mret r.

Definition moveone : M unit :=
  w ← get_wal;
  if decide (w_head w = w_cur w) then mret tt
  else
    h ← nonnull (w_head w);
    H ← deref st_files h;
    if decide (f_next H = w_cur w) then mret tt
    else
      hl ← get_flink (FHead h);
      match hl.2 with
      | Some (FJob j) =>
          z ← walresvmigrate j;
          if z =? 0 then mret tt
          else
            w ← get_wal;
            filermjob (w_head w) j;;
            upd_wal (fun w => w <| w_nmig ::= Z.succ |>);;
            walwrite j;; mret tt
      | _ => mret tt
      end.

(** [for (r = ratio(w); r >= 2; r--)] *)
Fixpoint repeatM (n : nat) (m : M unit) : M unit :=
  match n with O => mret tt | S n => m;; repeatM n m end.

Definition walcompact : M unit :=
  w ← get_wal; repeatM (Z.to_nat (ratio w - 1)) moveone.

Definition walsync : M unit :=
  now ← nanoseconds;
  w ← get_wal;
  if w_wantsync w && (w_lastsync w + w_syncrate w <=? now)
  then upd_wal (fun w => w <| w_lastsync := now |>)
  else mret tt.

Definition walmaint : M unit :=
  w ← get_wal;
  if w_use w then walcompact;; walsync else mret tt.
End operations.
