(* ===== verification/Conn.v ===== *)
(** Connections ([conn.c], except [make_conn] and [connclose], which are in
    Queue.v): the reserved jobs of a connection, the soonest deadline, and the
    heap of connections that must be woken up. *)
From S2P Require Import Prelude Heap Ms State Monad JobList Tube Job.
#[local] Open Scope Z_scope.

Definition SAFETY_MARGIN : Z := 1000000000.

Definition conn_less (a b : Conn) : bool := c_tickat a <? c_tickat b.
Definition conn_setpos (c : connp) (i : nat) (C : gmap connp Conn) : gmap connp Conn :=
  alter (fun Cn => Cn <| c_tickpos := i |>) c C.
Definition conn_ops : heap_ops (gmap connp Conn) connp :=
  HeapOps
    (fun C a b => match C !! a, C !! b with
                  | Some A, Some B => conn_less A B
                  | _, _ => false
                  end)
    conn_setpos.

(** [conn_waiting(c)] *)
Definition conn_waiting (C : Conn) : bool :=
  negb (Z.land (c_type C) CONN_TYPE_WAITING =? 0).

Section operations.
Context {E : Env}.

(** [less] follows the pointers in the heap: none may be to a connection that was
    freed, even one that it would not come to. *)
Definition timers_live (s : St) : bool :=
  forallb (fun c => bool_decide (is_Some (st_conns s !! c))) (elems (srv_conns s)).

Definition conns_heapinsert (c : connp) : M bool :=
  s ← gets id;
  (if timers_live s then mret tt else ub);;
  ok ← (if (h_len (srv_conns s) =? h_cap (srv_conns s))%nat then malloc_ok else mret true);
  '(r, (h, C)) ← from_option (heapinsert conn_ops ok c (srv_conns s, st_conns s));
  modify (fun s => s <| st_conns := C |> <| srv_conns := h |>);;
  mret r.

Definition conns_heapremove (k : nat) : M (option connp) :=
  s ← gets id;
  (if timers_live s then mret tt else ub);;
  '(r, (h, C)) ← from_option (heapremove conn_ops k (srv_conns s, st_conns s));
  modify (fun s => s <| st_conns := C |> <| srv_conns := h |>);;
  mret r.

(** Callbacks of the set of watched tubes. *)
Definition on_watch (t : tubep) : M unit :=
  tube_iref (Some t);;
  update st_tubes t (fun T => T <| t_watching_ct ::= fun n => wrap_u32 (n + 1) |>).
Definition on_ignore (t : tubep) : M unit :=
  update st_tubes t (fun T => T <| t_watching_ct ::= fun n => wrap_u32 (n - 1) |>);;
  tube_dref (Some t).

Definition upd_counts (f : ConnCounts → ConnCounts) : M unit :=
  modify (fun s => s <| st_counts ::= f |>).

Definition connsetproducer (c : connp) : M unit :=
  C ← deref st_conns c;
  if negb (Z.land (c_type C) CONN_TYPE_PRODUCER =? 0) then mret tt
  else
    update st_conns c (fun C => C <| c_type ::= Z.lor CONN_TYPE_PRODUCER |>);;
    upd_counts (fun n => n <| cur_producer_ct ::= Z.succ |>).

Definition connsetworker (c : connp) : M unit :=
  C ← deref st_conns c;
  if negb (Z.land (c_type C) CONN_TYPE_WORKER =? 0) then mret tt
  else
    update st_conns c (fun C => C <| c_type ::= Z.lor CONN_TYPE_WORKER |>);;
    upd_counts (fun n => n <| cur_worker_ct ::= Z.succ |>).

Definition count_cur_conns : M Z := gets (fun s => cur_conn_ct (st_counts s)).
Definition count_tot_conns : M Z := gets (fun s => tot_conn_ct (st_counts s)).
Definition count_cur_producers : M Z := gets (fun s => cur_producer_ct (st_counts s)).
Definition count_cur_workers : M Z := gets (fun s => cur_worker_ct (st_counts s)).

Definition has_reserved_job (c : connp) : M bool :=
  e ← job_list_is_empty (NReserved c); mret (negb e).

Definition conn_set_soonestjob (c : connp) (j : jobp) : M unit :=
  C ← deref st_conns c;
  J ← deref st_jobs j;
  match c_soonest_job C with
  | None => update st_conns c (fun C => C <| c_soonest_job := Some j |>)
  | Some x =>
      X ← deref st_jobs x;
      if r_deadline_at (j_r J) <? r_deadline_at (j_r X)
      then update st_conns c (fun C => C <| c_soonest_job := Some j |>)
      else mret tt
  end.

(** [for (j = c->reserved_jobs.next; j != &c->reserved_jobs; j = j->next)] *)
Fixpoint connsoonestjob_loop (fuel : nat) (c : connp) (n : node) : M unit :=
  match n with
  | NJob j =>
      match fuel with
      | O => out_of_fuel
      | S fuel =>
          conn_set_soonestjob c j;;
          n ← get_next (NJob j);
          connsoonestjob_loop fuel c n
      end
  | n => if decide (n = NReserved c) then mret tt else ub
  end.

Definition connsoonestjob (c : connp) : M (option jobp) :=
  C ← deref st_conns c;
  match c_soonest_job C with
  | Some j => mret (Some j)
  | None =>
      n ← get_next (NReserved c);
      s ← gets id;
      connsoonestjob_loop (size (st_jobs s)) c n;;
      C ← deref st_conns c;
      mret (c_soonest_job C)
  end.

(** The time at which [c] should tick, 0 if none. *)
Definition conntickat (c : connp) : M Z :=
  C ← deref st_conns c;
  let margin := if conn_waiting C then SAFETY_MARGIN else 0 in
  has ← has_reserved_job c;
  t ← (if has : bool then
         j ← connsoonestjob c;
         j ← nonnull j;
         J ← deref st_jobs j;
         now ← nanoseconds;
         mret (r_deadline_at (j_r J) - now - margin)
       else mret INT64_MAX);
  let timed := 0 <=? c_pending_timeout C in
  let t := if timed then Z.min t (c_pending_timeout C * 1000000000) else t in
  if has || timed then now ← nanoseconds; mret (now + t) else mret 0.

Definition connsched (c : connp) : M unit :=
  C ← deref st_conns c;
  (if c_in_conns C then
     conns_heapremove (c_tickpos C);;
     update st_conns c (fun C => C <| c_in_conns := false |>)
   else mret tt);;
  tickat ← conntickat c;
  update st_conns c (fun C => C <| c_tickat := tickat |>);;
  if negb (tickat =? 0) then
    conns_heapinsert c;;
    update st_conns c (fun C => C <| c_in_conns := true |>)
  else mret tt.

Definition upd_tube_stat (t : tubep) (f : stats → stats) : M unit :=
  update st_tubes t (fun T => T <| t_stat ::= f |>).
Definition upd_global_stat (f : stats → stats) : M unit :=
  modify (fun s => s <| global_stat ::= f |>).
Definition upd_rec (j : jobp) (f : Jobrec → Jobrec) : M unit :=
  update st_jobs j (fun J => J <| j_r ::= f |>).
Definition incr64 (n : Z) : Z := wrap_u64 (n + 1).
Definition decr64 (n : Z) : Z := wrap_u64 (n - 1).
Definition incr32 (n : Z) : Z := wrap_u32 (n + 1).

(** The tube of a job that must have one. *)
Definition tube_of (j : jobp) : M tubep := J ← deref st_jobs j; nonnull (j_tube J).

Definition conn_reserve_job (c : connp) (j : jobp) : M unit :=
  t ← tube_of j;
  upd_tube_stat t (fun st => st <| reserved_ct ::= incr64 |>);;
  upd_rec j (fun r => r <| r_reserve_ct ::= incr32 |>);;
  now ← nanoseconds;
  upd_rec j (fun r => r <| r_deadline_at := now + r_ttr r |>);;
  upd_rec j (fun r => r <| r_state := Reserved |>);;
  job_list_insert (NReserved c) (NJob j);;
  update st_jobs j (fun J => J <| j_reserver := Some c |>);;
  update st_conns c (fun C => C <| c_pending_timeout := -1 |>);;
  conn_set_soonestjob c j.

Definition conndeadlinesoon (c : connp) : M bool :=
  t ← nanoseconds;
  j ← connsoonestjob c;
  match j with
  | None => mret false
  | Some j =>
      J ← deref st_jobs j;
      mret (r_deadline_at (j_r J) - SAFETY_MARGIN <=? t)
  end.

Fixpoint conn_ready_loop (watch : list tubep) : M bool :=
  match watch with
  | [] => mret false
  | t :: watch =>
      T ← deref st_tubes t;
      if negb (h_len (t_ready T) =? 0)%nat then mret true else conn_ready_loop watch
  end.
Definition conn_ready (c : connp) : M bool :=
  C ← deref st_conns c; conn_ready_loop (ms_items (c_watch C)).
End operations.
