(* ===== verification/HeapSpec.v ===== *)
(** What the heap promises to its clients: with a total order, as for jobs, it
    sorts; with any order, as for connections, it never leaves its array. *)
From S2P Require Import Prelude Heap Ms State Monad JobList JobHash Tube Job Conn.
#[local] Open Scope Z_scope.

(** ** Programs that use a heap *)

Section programs.
Context {E X : Type} (ops : heap_ops E X).

(** Insert the elements of a list; the array can always grow. *)
Fixpoint insert_all (l : list X) (hs : Heap X * E) : option (Heap X * E) :=
  match l with
  | [] => Some hs
  | x :: l => '(_, hs) ← heapinsert ops true x hs; insert_all l hs
  end.

(** Remove the first element [n] times. *)
Fixpoint drain (n : nat) (hs : Heap X * E) : option (list X) :=
  match n with
  | O => Some []
  | S n =>
      '(x, hs) ← heapremove ops 0%nat hs;
      l ← drain n hs;
      match x with Some x => Some (x :: l) | None => Some l end
  end.

(** An arbitrary use of a heap: insertions, where [malloc] may fail, and
    removals at any index. *)
Inductive use := Insert (grow_ok : bool) (x : X) | Remove (k : nat).
Fixpoint run (l : list use) (hs : Heap X * E) : option (Heap X * E) :=
  match l with
  | [] => Some hs
  | Insert ok x :: l => '(_, hs) ← heapinsert ops ok x hs; run l hs
  | Remove k :: l => '(_, hs) ← heapremove ops k hs; run l hs
  end.

Lemma heapinsert_total ok x h e :
  heap_shape h → ∃ r h' e', heapinsert ops ok x (h, e) = Some (r, (h', e')) ∧ heap_shape h'.
Proof.
  intros Hsh. destruct (decide (h_len h < h_cap h ∨ ok = true)%nat) as [Hok|Hok].
  - destruct (heapinsert_safe ops ok x h e Hsh Hok) as (h' & e' & Heq & [Hs _ _] & _). eauto.
  - assert (h_len h = h_cap h) as Heq by (destruct Hsh; lia). unfold heapinsert.
    rewrite Heq, Nat.eqb_refl. destruct ok; [tauto|]. simpl. eauto.
Qed.

Lemma heapremove_total k h e :
  heap_shape h → ∃ r h' e', heapremove ops k (h, e) = Some (r, (h', e')) ∧ heap_shape h'.
Proof.
  intros Hsh. destruct (decide (k < h_len h)%nat) as [Hk|Hk].
  - destruct (heapremove_safe ops k h e Hsh Hk) as (x & h' & e' & Heq & _ & [Hs _ _] & _). eauto.
  - unfold heapremove. rewrite (proj2 (Nat.leb_le _ _)) by lia. eauto.
Qed.

Lemma run_total l h e :
  heap_shape h → ∃ h' e', run l (h, e) = Some (h', e') ∧ heap_shape h'.
Proof.
  revert h e. induction l as [|[ok x|k] l IH]; intros h e Hsh; cbn [run]; [eauto| |].
  - destruct (heapinsert_total ok x h e Hsh) as (r & h' & e' & -> & Hsh'). simpl. by apply IH.
  - destruct (heapremove_total k h e Hsh) as (r & h' & e' & -> & Hsh'). simpl. by apply IH.
Qed.
End programs.

(** ** Heaps of jobs *)

Section jobs.
Context (f : Jobrec → Z).
Abbreviation ops := (job_ops (rec_less f)).
Implicit Types (J : gmap jobp Job) (h : Heap jobp) (M : jobp → Prop) (l : list jobp) (j x : jobp).

(** [a] is not after [b] in the order of the heap. *)
Definition before J (a b : jobp) : Prop := less_fn ops J b a = false.

Lemma before_pos J J' a b : same_but erase_pos J J' → before J' a b ↔ before J a b.
Proof.
  intros HJ. unfold before. simpl.
  assert (∀ x, j_r <$> J' !! x = j_r <$> J !! x) as Hr.
  { intros x. assert (erase_pos <$> J' !! x = erase_pos <$> J !! x) as He
      by (rewrite <- !lookup_fmap; by rewrite HJ).
    apply (f_equal (fmap j_r)) in He. rewrite <- !option_fmap_compose in He. exact He. }
  pose proof (Hr a) as Ha. pose proof (Hr b) as Hb. unfold rec_less.
  destruct (J' !! a), (J !! a), (J' !! b), (J !! b); simplify_eq/=; try done.
  by rewrite Ha, Hb.
Qed.

Lemma insert_all_rep J h M l :
  heap_rep f J h M → NoDup l → (∀ x, x ∈ l → ¬ M x) → distinct_ids J (λ x, x ∈ l ∨ M x) →
  ∃ h' J', insert_all ops l (h, J) = Some (h', J') ∧
    heap_rep f J' h' (λ x, x ∈ l ∨ M x) ∧ same_but erase_pos J J'.
Proof.
  revert J h M. induction l as [|x l IH]; intros J h M Hh Hnd HM Hd; cbn [insert_all].
  - exists h, J. split_and!; [done| |done]. eapply heap_rep_iff; [|exact Hh]. set_solver.
  - apply NoDup_cons in Hnd as [Hx Hnd].
    destruct (heap_rep_insert f J h M x true) as (h1 & J1 & Heq & Hh1 & Hs & _); [done| | |done|].
    + apply HM. by left.
    + eapply distinct_ids_mono; [|exact Hd]. set_solver.
    + rewrite Heq. cbn [mbind option_bind].
      destruct (IH J1 h1 (λ y, y = x ∨ M y)) as (h2 & J2 & -> & Hh2 & Hs2); [done|done| | |].
      * intros y Hy [->|My]; [done|]. by apply (HM y); [right|].
      * eapply distinct_ids_pos; [exact Hs|]. eapply distinct_ids_mono; [|exact Hd]. set_solver.
      * exists h2, J2. split_and!; [done| |by etrans].
        eapply heap_rep_iff; [|exact Hh2]. set_solver.
Qed.

Lemma drain_rep J h M :
  heap_rep f J h M →
  ∃ l, drain ops (h_len h) (h, J) = Some l ∧ NoDup l ∧ (∀ x, x ∈ l ↔ M x) ∧
    StronglySorted (before J) l.
Proof.
  remember (h_len h) as n eqn:Hn. revert J h M Hn.
  induction n as [|n IH]; intros J h M Hn Hh; cbn [drain].
  - exists []. split_and!; [done|constructor| |constructor].
    intros x. pose proof (heap_rep_none _ _ _ _ Hh (eq_sym Hn) x). set_solver.
  - destruct (heap_rep_first f J h M Hh) as (j & Jb & Hj & HJb & Mj & Hleast); [lia|].
    assert (j_heap_index Jb = 0%nat) as Hpos.
    { pose proof (hw_pos _ _ _ _ (hr_wf _ _ _ _ Hh) 0%nat j) as Hp. unfold job_pos in Hp.
      rewrite HJb in Hp. unfold elems in Hp. rewrite lookup_take_lt in Hp by lia.
      specialize (Hp Hj). by simplify_eq/=. }
    destruct (heap_rep_remove f J h M j Jb Hh Mj HJb) as (h' & J' & Heq & Hh' & Hs & _).
    rewrite Hpos in Heq. rewrite Heq. cbn [mbind option_bind].
    assert (n = h_len h') as Hn'.
    { destruct (heapremove_safe ops 0%nat h J) as (? & h1 & ? & Heq1 & _ & _ & Hlen); [|lia|].
      - destruct (hr_wf _ _ _ _ Hh). by split.
      - rewrite Heq in Heq1. simplify_eq. lia. }
    destruct (IH J' h' _ Hn' Hh') as (l & -> & Hnd & Hm & Hst). cbn [mbind option_bind].
    exists (j :: l). split_and!; [done| | |].
    + constructor; [|done]. rewrite Hm. tauto.
    + intros x. rewrite elem_of_cons, Hm. destruct (decide (x = j)); naive_solver.
    + constructor.
      * clear -Hst Hs. induction Hst as [|x l Hst IH Hx]; constructor; [done|].
        eapply Forall_impl; [exact Hx|]. intros y. by apply before_pos.
      * apply Forall_forall. intros x [Mx _]%Hm. unfold before. simpl.
        destruct (proj1 (hr_ids _ _ _ _ Hh) x Mx) as [Xb HX]. rewrite HX, HJb.
        by apply (Hleast x Xb).
Qed.
End jobs.

(** ** The properties *)

(** C8: inserting jobs with distinct ids in an empty heap, in any order, and
    removing the first one until the heap is empty gives them back sorted by
    the key of the heap, then by id. *)
Theorem heap_sorts f J l :
  NoDup l → distinct_ids J (λ x, x ∈ l) →
  ∃ hs l', insert_all (job_ops (rec_less f)) l (heap_empty, J) = Some hs ∧
    drain (job_ops (rec_less f)) (length l) hs = Some l' ∧ l' ≡ₚ l ∧
    StronglySorted (before f J) l'.
Proof.
  intros Hnd Hd.
  destruct (insert_all_rep f J heap_empty (λ _, False) l) as (h & J' & Heq & Hh & Hs);
    [apply heap_rep_empty|done|set_solver| |].
  { eapply distinct_ids_mono; [|exact Hd]. set_solver. }
  destruct (drain_rep f J' h _ Hh) as (l' & Hdr & Hnd' & Hm & Hst).
  assert (l' ≡ₚ l) as Hp by (apply NoDup_Permutation; [done..|]; set_solver).
  assert (h_len h = length l) as Hlen.
  { destruct (hr_wf _ _ _ _ Hh) as [Hdl _ Hpos _].
    rewrite <- (length_elems h) by done. apply Permutation_length, NoDup_Permutation.
    - by eapply pos_ok_NoDup.
    - done.
    - intros x. rewrite (hr_mem _ _ _ _ Hh). set_solver. }
  rewrite Hlen in Hdr. exists (h, J'), l'. split_and!; [done|done|done|].
  clear -Hst Hs. induction Hst as [|x l Hst IH Hx]; constructor; [done|].
  eapply Forall_impl; [exact Hx|]. intros y. by apply before_pos.
Qed.

Definition job_of (id pri : Z) : Job :=
  job_zero <| j_r ::= fun r => r <| r_id := id |> <| r_pri := pri |> |>.
Definition three_jobs : gmap jobp Job :=
  <[1%positive := job_of 1 5]> (<[2%positive := job_of 2 3]> (<[3%positive := job_of 3 5]> ∅)).

Lemma three_jobs_distinct : distinct_ids three_jobs (λ x, x ∈ [3; 1; 2]%positive).
Proof.
  split.
  - intros x [->|[->|[->|[]%elem_of_nil]%elem_of_cons]%elem_of_cons]%elem_of_cons; by eexists.
  - intros x y Xb Yb [->|[->|[->|[]%elem_of_nil]%elem_of_cons]%elem_of_cons]%elem_of_cons
      [->|[->|[->|[]%elem_of_nil]%elem_of_cons]%elem_of_cons]%elem_of_cons [= <-] [= <-]; done.
Qed.

Lemma heap_sorts_witness :
  ∃ hs l', insert_all (job_ops (rec_less r_pri)) [3; 1; 2]%positive (heap_empty, three_jobs) = Some hs ∧
    drain (job_ops (rec_less r_pri)) 3 hs = Some l' ∧ l' ≡ₚ [3; 1; 2]%positive ∧
    StronglySorted (before r_pri three_jobs) l'.
Proof.
  apply (heap_sorts r_pri three_jobs [3; 1; 2]%positive).
  - apply (bool_decide_unpack _). vm_compute. exact I.
  - exact three_jobs_distinct.
Defined.

(** C9: a job leaves a heap at the index it records: [heapremove] returns that
    very job and the heap still sorts the others. *)
Theorem heap_removes f J h M j Jb :
  heap_rep f J h M → M j → J !! j = Some Jb →
  ∃ h' J' l, heapremove (job_ops (rec_less f)) (j_heap_index Jb) (h, J) = Some (Some j, (h', J')) ∧
    drain (job_ops (rec_less f)) (h_len h') (h', J') = Some l ∧ NoDup l ∧
    (∀ x, x ∈ l ↔ M x ∧ x ≠ j) ∧ StronglySorted (before f J) l.
Proof.
  intros Hh Mj HJb. destruct (heap_rep_remove f J h M j Jb Hh Mj HJb) as (h' & J' & Heq & Hh' & Hs & _).
  destruct (drain_rep f J' h' _ Hh') as (l & Hdr & Hnd & Hm & Hst).
  exists h', J', l. split_and!; try done.
  clear -Hst Hs. induction Hst as [|x l Hst IH Hx]; constructor; [done|].
  eapply Forall_impl; [exact Hx|]. intros y. by apply before_pos.
Qed.

Definition two_jobs : gmap jobp Job :=
  <[1%positive := (job_of 1 5) <| j_heap_index := 1%nat |>]> (<[2%positive := job_of 2 3]> ∅).
Definition two_heap : Heap jobp := mkHeap 2 2 [2; 1]%positive.

Lemma two_heap_rep : heap_rep r_pri two_jobs two_heap (λ x, x ∈ [2; 1]%positive).
Proof.
  split; [split| |split]; try done.
  - intros [|[|i]] x; cbn; intros [= <-]; reflexivity.
  - intros [|[|i]] Hi a b; [lia| |done]. cbn. by intros [= <-] [= <-].
  - intros x [->|[->|[]%elem_of_nil]%elem_of_cons]%elem_of_cons; by eexists.
  - intros x y Xb Yb [->|[->|[]%elem_of_nil]%elem_of_cons]%elem_of_cons
      [->|[->|[]%elem_of_nil]%elem_of_cons]%elem_of_cons [= <-] [= <-]; done.
Qed.

Lemma heap_removes_witness :
  ∃ h' J' l, heapremove (job_ops (rec_less r_pri)) 1 (two_heap, two_jobs) =
      Some (Some 1%positive, (h', J')) ∧
    drain (job_ops (rec_less r_pri)) (h_len h') (h', J') = Some l ∧ NoDup l ∧
    (∀ x, x ∈ l ↔ x ∈ [2; 1]%positive ∧ x ≠ 1%positive) ∧ StronglySorted (before r_pri two_jobs) l.
Proof.
  assert (two_jobs !! 1%positive = Some ((job_of 1 5) <| j_heap_index := 1%nat |>)) as H1
    by reflexivity.
  assert (1%positive ∈ [2; 1]%positive) as H2 by set_solver.
  exact (heap_removes r_pri two_jobs two_heap (λ x, x ∈ [2; 1]%positive) 1%positive _
    two_heap_rep H2 H1).
Defined.

(** C24: no sequence of insertions and removals, whatever the comparison, the
    outcome of [malloc] and the indices, makes the heap leave its array or
    loop. *)
Theorem heap_never_faults {E X} (ops : heap_ops E X) (l : list use) e :
  ∃ h' e', run ops l (heap_empty, e) = Some (h', e') ∧
    (h_len h' <= length (h_data h') ∧ h_len h' <= h_cap h')%nat.
Proof.
  destruct (run_total ops l heap_empty e) as (h' & e' & Heq & [H1 H2]); [by split|].
  exists h', e'. by split_and!.
Qed.

(** The connections of the server have ties: two connections may tick at the
    same time. *)
Definition conn_at (t : Z) (pos : nat) : Conn :=
  mkConn 0 false STATE_WAIT 0 None None t pos true None "000" 0 false [] 0 0 [] 0 0 0 None None
    0 ms_init.
Definition tied_conns : gmap connp Conn :=
  <[1%positive := conn_at 5 0]> (<[2%positive := conn_at 5 1]> ∅).

