(* ===== verification/Queue.v ===== *)
(** The job queue of [prot.c]: the epoll queue, replies, waiting connections,
    [process_queue], [enqueue_job], burying, kicking, and the life of a
    connection ([make_conn], [connclose] of [conn.c]). *)
From S2P Require Import Prelude Heap Ms State Monad JobList JobHash Tube Job Wal Conn.
#[local] Open Scope Z_scope.

Definition bs (s : string) : bytes := list_ascii_of_string s.
Definition crlf : bytes := ["013"%char; "010"%char].
(** A message of [prot.c]: the text followed by CR LF. *)
Definition msg (s : string) : bytes := bs s ++ crlf.

Definition MSG_FOUND := bs "FOUND".
Definition MSG_NOTFOUND := msg "NOT_FOUND".
Definition MSG_RESERVED := bs "RESERVED".
Definition MSG_DEADLINE_SOON := msg "DEADLINE_SOON".
Definition MSG_TIMED_OUT := msg "TIMED_OUT".
Definition MSG_DELETED := msg "DELETED".
Definition MSG_RELEASED := msg "RELEASED".
Definition MSG_BURIED := msg "BURIED".
Definition MSG_KICKED := msg "KICKED".
Definition MSG_TOUCHED := msg "TOUCHED".
Definition MSG_NOT_IGNORED := msg "NOT_IGNORED".
Definition MSG_OUT_OF_MEMORY := msg "OUT_OF_MEMORY".
Definition MSG_INTERNAL_ERROR := msg "INTERNAL_ERROR".
Definition MSG_DRAINING := msg "DRAINING".
Definition MSG_BAD_FORMAT := msg "BAD_FORMAT".
Definition MSG_UNKNOWN_COMMAND := msg "UNKNOWN_COMMAND".
Definition MSG_EXPECTED_CRLF := msg "EXPECTED_CRLF".
Definition MSG_JOB_TOO_BIG := msg "JOB_TOO_BIG".

(** [%u], [%d], [%zu] and [PRIu64] on non-negative numbers. *)
Fixpoint digits_loop (fuel : nat) (n : Z) (acc : bytes) : bytes :=
  match fuel with
  | O => acc
  | S fuel =>
      let acc := ascii_of_N (Z.to_N (48 + n mod 10)) :: acc in
      if n <? 10 then acc else digits_loop fuel (n / 10) acc
  end.
Definition digits (n : Z) : bytes := digits_loop (S (Z.to_nat (Z.log2 n))) n [].
(** [%d] and [PRId64] *)
Definition sdigits (n : Z) : bytes := if n <? 0 then "-"%char :: digits (- n) else digits n.

Section operations.
Context {E : Env}.

(** ** The epoll queue *)

Definition epollq_add (c : connp) (rw : ascii) : M unit :=
  update st_conns c (fun C => C <| c_rw := rw |>);;
  connsched c;;
  s ← gets id;
  update st_conns c (fun C => C <| c_next := epollq s |>);;
  modify (fun s => s <| epollq := Some c |>).

(** Each iteration unlinks the head; the elements other than [c] are pushed
    on the new list, so the order is reversed. *)
Fixpoint epollq_rmconn_loop (fuel : nat) (c : connp) (newhead : option connp) : M unit :=
  s ← gets id;
  match epollq s with
  | None => modify (fun s => s <| epollq := newhead |>)
  | Some x =>
      match fuel with
      | O => out_of_fuel
      | S fuel =>
          X ← deref st_conns x;
          modify (fun s => s <| epollq := c_next X |>);;
          update st_conns x (fun X => X <| c_next := None |>);;
          if decide (x ≠ c) then
            update st_conns x (fun X => X <| c_next := newhead |>);;
            epollq_rmconn_loop fuel c (Some x)
          else epollq_rmconn_loop fuel c newhead
      end
  end.
Definition epollq_rmconn (c : connp) : M unit :=
  s ← gets id; epollq_rmconn_loop (2 * size (st_conns s) + 1) c None.

(** ** Replies *)

(** [state] is the next state of the connection. *)
Definition reply (c : option connp) (line : bytes) (len : nat) (state : connstate) : M unit :=
  match c with
  | None => mret tt
  | Some c =>
      epollq_add c "w";;
      update st_conns c (fun C =>
        C <| c_reply := line |> <| c_reply_len := len |> <| c_reply_sent := 0%nat |>
          <| c_state := state |>)
  end.

Definition reply_msg (c : connp) (m : bytes) : M unit :=
  reply (Some c) m (length m) STATE_SEND_WORD.
Definition reply_serr (c : connp) (e : bytes) : M unit := reply_msg c e.

(** [line] is the result of the formatting. *)
Definition reply_line (c : connp) (state : connstate) (line : bytes) : M unit :=
  let r := length line in
  if (LINE_BUF_SIZE <=? r)%nat then reply_serr c MSG_INTERNAL_ERROR
  else reply (Some c) line r state.

Definition reply_job (c : connp) (j : jobp) (m : bytes) : M unit :=
  update st_conns c (fun C => C <| c_out_job := Some j |>);;
  update st_conns c (fun C => C <| c_out_job_sent := 0%nat |>);;
  J ← deref st_jobs j;
  reply_line c STATE_SEND_JOB
    (m ++ bs " " ++ digits (r_id (j_r J)) ++ bs " "
       ++ digits (wrap_u32 (r_body_size (j_r J) - 2)) ++ crlf).

(** ** Waiting connections *)

Definition remove_waiting_conn (c : connp) : M unit :=
  C ← deref st_conns c;
  if negb (conn_waiting C) then mret tt
  else
    update st_conns c (fun C =>
      C <| c_type ::= fun t => Z.land t (Z.lnot CONN_TYPE_WAITING) |>);;
    upd_global_stat (fun st => st <| waiting_ct ::= decr64 |>);;
    forM (ms_items (c_watch C)) (fun t =>
      upd_tube_stat t (fun st => st <| waiting_ct ::= decr64 |>);;
      T ← deref st_tubes t;
      match ms_remove c (t_waiting_conns T) with
      | Some (_, a) => update st_tubes t (fun T => T <| t_waiting_conns := a |>)
      | None => mret tt
      end).

Definition enqueue_waiting_conn (c : connp) : M unit :=
  update st_conns c (fun C => C <| c_type ::= Z.lor CONN_TYPE_WAITING |>);;
  upd_global_stat (fun st => st <| waiting_ct ::= incr64 |>);;
  C ← deref st_conns c;
  forM (ms_items (c_watch C)) (fun t =>
    upd_tube_stat t (fun st => st <| waiting_ct ::= incr64 |>);;
    T ← deref st_tubes t;
    '(_, a) ← ms_append_M c (t_waiting_conns T);
    update st_tubes t (fun T => T <| t_waiting_conns := a |>)).

(** ** The queue *)

Definition remove_ready_job (j : option jobp) : M (option jobp) :=
  match j with
  | None => mret None
  | Some j =>
      J ← deref st_jobs j;
      if decide (r_state (j_r J) ≠ Ready) then mret None
      else
        t ← nonnull (j_tube J);
        tube_heapremove t_ready job_pri_ops t (j_heap_index J);;
        modify (fun s => s <| ready_ct ::= decr64 |>);;
        (if r_pri (j_r J) <? URGENT_THRESHOLD then
           upd_global_stat (fun st => st <| urgent_ct ::= decr64 |>);;
           upd_tube_stat t (fun st => st <| urgent_ct ::= decr64 |>)
         else mret tt);;
        mret (Some j)
  end.

Definition remove_buried_job (j : option jobp) : M (option jobp) :=
  match j with
  | None => mret None
  | Some j =>
      J ← deref st_jobs j;
      if decide (r_state (j_r J) ≠ Buried) then mret None
      else
        r ← job_list_remove (Some (NJob j));
        match r with
        | None => mret None
        | Some _ =>
            upd_global_stat (fun st => st <| buried_ct ::= decr64 |>);;
            t ← nonnull (j_tube J);
            upd_tube_stat t (fun st => st <| buried_ct ::= decr64 |>);;
            mret (Some j)
        end
  end.

Definition remove_delayed_job (j : option jobp) : M (option jobp) :=
  match j with
  | None => mret None
  | Some j =>
      J ← deref st_jobs j;
      if decide (r_state (j_r J) ≠ Delayed) then mret None
      else
        t ← nonnull (j_tube J);
        tube_heapremove t_delay job_delay_ops t (j_heap_index J);;
        mret (Some j)
  end.

(** The best candidate so far is [j]. *)
Fixpoint next_awaited_job_loop (l : list tubep) (now : Z) (j : option jobp)
    : M (option jobp) :=
  match l with
  | [] => mret j
  | t :: l =>
      T ← deref st_tubes t;
      if negb (t_pause T =? 0) && (now <? t_unpause_at T) then
        next_awaited_job_loop l now j
      else
        (if negb (t_pause T =? 0)
         then update st_tubes t (fun T => T <| t_pause := 0 |>) else mret tt);;
        if negb (ms_len (t_waiting_conns T) =? 0)%nat && negb (h_len (t_ready T) =? 0)%nat
        then
          candidate ← from_option (h_data (t_ready T) !! 0%nat);
          match j with
          | None => next_awaited_job_loop l now (Some candidate)
          | Some b =>
              A ← deref st_jobs candidate;
              B ← deref st_jobs b;
              next_awaited_job_loop l now
                (if job_pri_less A B then Some candidate else Some b)
          end
        else next_awaited_job_loop l now j
  end.
Definition next_awaited_job (now : Z) : M (option jobp) :=
  s ← gets id; next_awaited_job_loop (ms_items (tubes s)) now None.

(** The body of the loop for the job [j] that was found. *)
Definition process_one (j : jobp) : M unit :=
  r ← remove_ready_job (Some j);
  match r with
  | None => mret tt
  | Some j =>
      t ← tube_of j;
      T ← deref st_tubes t;
      let '(c, a) := ms_take (t_waiting_conns T) in
      update st_tubes t (fun T => T <| t_waiting_conns := a |>);;
      match c with
      | None => mret tt
      | Some c =>
          upd_global_stat (fun st => st <| reserved_ct ::= incr64 |>);;
          remove_waiting_conn c;;
          conn_reserve_job c j;;
          reply_job c j MSG_RESERVED
      end
  end.

Fixpoint process_queue_loop (fuel : nat) (now : Z) : M unit :=
  j ← next_awaited_job now;
  match j with
  | None => mret tt
  | Some j =>
      match fuel with
      | O => out_of_fuel
      | S fuel => process_one j;; process_queue_loop fuel now
      end
  end.

Definition process_queue : M unit :=
  now ← nanoseconds;
  s ← gets id;
  process_queue_loop (size (st_jobs s)) now.

Fixpoint soonest_delayed_job_loop (l : list tubep) (j : option jobp) : M (option jobp) :=
  match l with
  | [] => mret j
  | t :: l =>
      T ← deref st_tubes t;
      if (h_len (t_delay T) =? 0)%nat then soonest_delayed_job_loop l j
      else
        nj ← from_option (h_data (t_delay T) !! 0%nat);
        match j with
        | None => soonest_delayed_job_loop l (Some nj)
        | Some b =>
            N ← deref st_jobs nj;
            B ← deref st_jobs b;
            soonest_delayed_job_loop l
              (if r_deadline_at (j_r N) <? r_deadline_at (j_r B) then Some nj else Some b)
        end
  end.
Definition soonest_delayed_job : M (option jobp) :=
  s ← gets id; soonest_delayed_job_loop (ms_items (tubes s)) None.

(** The insertion part of [enqueue_job]; [false] when the heap cannot grow. *)
Definition enqueue_insert (j : jobp) (delay : Z) : M bool :=
  update st_jobs j (fun J => J <| j_reserver := None |>);;
  t ← tube_of j;
  if negb (delay =? 0) then
    now ← nanoseconds;
    upd_rec j (fun r => r <| r_deadline_at := now + delay |>);;
    r ← tube_heapinsert t_delay job_delay_ops t j;
    if negb r then mret false
    else upd_rec j (fun r => r <| r_state := Delayed |>);; mret true
  else
    r ← tube_heapinsert t_ready job_pri_ops t j;
    if negb r then mret false
    else
      upd_rec j (fun r => r <| r_state := Ready |>);;
      modify (fun s => s <| ready_ct ::= incr64 |>);;
      J ← deref st_jobs j;
      (if r_pri (j_r J) <? URGENT_THRESHOLD then
         upd_global_stat (fun st => st <| urgent_ct ::= incr64 |>);;
         upd_tube_stat t (fun st => st <| urgent_ct ::= incr64 |>)
       else mret tt);;
      mret true.

(** [true] stands for 1, [false] for 0. *)
Definition enqueue_job (j : jobp) (delay : Z) (update_store : bool) : M bool :=
  r ← enqueue_insert j delay;
  if negb r then mret false
  else
    ok ← (if update_store then
            ok ← walwrite j;
            if ok : bool then walmaint;; mret true else mret false
          else mret true);
    if negb ok then mret false
    else process_queue;; mret true.

(** The part of [bury_job] between the reservation and the log write. *)
Definition bury_insert (j : jobp) : M unit :=
  t ← tube_of j;
  job_list_insert (NBuried t) (NJob j);;
  upd_global_stat (fun st => st <| buried_ct ::= incr64 |>);;
  upd_tube_stat t (fun st => st <| buried_ct ::= incr64 |>);;
  upd_rec j (fun r => r <| r_state := Buried |>);;
  update st_jobs j (fun J => J <| j_reserver := None |>);;
  upd_rec j (fun r => r <| r_bury_ct ::= incr32 |>).

(** [z = walresvupdate(); if (!z) return 0; j->walresv += z;] *)
Definition reserve_update (j : jobp) : M bool :=
  z ← walresvupdate;
  if z =? 0 then mret false
  else update st_jobs j (fun J => J <| j_walresv ::= fun n => n + z |>);; mret true.

Definition bury_job (j : jobp) (update_store : bool) : M bool :=
  ok ← (if update_store then reserve_update j else mret true);
  if negb ok then mret false
  else
    bury_insert j;;
    if update_store then
      ok ← walwrite j;
      if ok : bool then walmaint;; mret true else mret false
    else mret true.

Definition job_of_node (n : node) : M jobp :=
  match n with NJob j => mret j | _ => ub end.

Fixpoint enqueue_reserved_jobs_loop (fuel : nat) (c : connp) : M unit :=
  e ← job_list_is_empty (NReserved c);
  if e : bool then mret tt
  else match fuel with
       | O => out_of_fuel
       | S fuel =>
           n ← get_next (NReserved c);
           n ← job_list_remove (Some n);
           n ← nonnull n;
           j ← job_of_node n;
           r ← enqueue_job j 0 false;
           (if r : bool then mret true else bury_job j false);;
           upd_global_stat (fun st => st <| reserved_ct ::= decr64 |>);;
           t ← tube_of j;
           upd_tube_stat t (fun st => st <| reserved_ct ::= decr64 |>);;
           update st_conns c (fun C => C <| c_soonest_job := None |>);;
           enqueue_reserved_jobs_loop fuel c
       end.
Definition enqueue_reserved_jobs (c : connp) : M unit :=
  s ← gets id; enqueue_reserved_jobs_loop (size (st_jobs s)) c.

(** ** Kicking *)

Definition kick_buried_job (j : jobp) : M bool :=
  ok ← reserve_update j;
  if negb ok then mret false
  else
    remove_buried_job (Some j);;
    upd_rec j (fun r => r <| r_kick_ct ::= incr32 |>);;
    r ← enqueue_job j 0 true;
    if r : bool then mret true
    else bury_job j false;; mret false.

Definition kick_delayed_job (j : jobp) : M bool :=
  ok ← reserve_update j;
  if negb ok then mret false
  else
    t ← tube_of j;
    J ← deref st_jobs j;
    tube_heapremove t_delay job_delay_ops t (j_heap_index J);;
    upd_rec j (fun r => r <| r_kick_ct ::= incr32 |>);;
    r ← enqueue_job j 0 true;
    if r : bool then mret true
    else
      J ← deref st_jobs j;
      r ← enqueue_job j (r_delay (j_r J)) false;
      if r : bool then mret false
      else bury_job j false;; mret false.

Definition get_delayed_job_ct : M Z :=
  s ← gets id;
  (fix go (l : list tubep) (count : Z) : M Z :=
     match l with
     | [] => mret count
     | t :: l => T ← deref st_tubes t;
                 go l (wrap_u32 (count + Z.of_nat (h_len (t_delay T))))
     end) (ms_items (tubes s)) 0.

Definition buried_job_p (t : tubep) : M bool :=
  e ← job_list_is_empty (NBuried t); mret (negb e).

(** [for (i = 0; (i < n) && ...; ++i)]: the fuel covers the jobs that can be
    kicked; [i] counts the attempts. *)
Fixpoint kick_buried_jobs_loop (fuel : nat) (t : tubep) (n i : Z) : M Z :=
  if negb (i <? n) then mret i
  else
    b ← buried_job_p t;
    if negb b then mret i
    else match fuel with
         | O => out_of_fuel
         | S fuel =>
             x ← get_next (NBuried t);
             j ← job_of_node x;
             kick_buried_job j;;
             kick_buried_jobs_loop fuel t n (i + 1)
         end.

Fixpoint kick_delayed_jobs_loop (fuel : nat) (t : tubep) (n i : Z) : M Z :=
  if negb (i <? n) then mret i
  else
    T ← deref st_tubes t;
    if (h_len (t_delay T) =? 0)%nat then mret i
    else match fuel with
         | O => out_of_fuel
         | S fuel =>
             j ← from_option (h_data (t_delay T) !! 0%nat);
             kick_delayed_job j;;
             kick_delayed_jobs_loop fuel t n (i + 1)
         end.

(** A kick that fails leaves its job in place and is counted, so up to [n]
    iterations may be needed. *)
Definition kick_buried_jobs (t : tubep) (n : Z) : M Z :=
  kick_buried_jobs_loop (Z.to_nat n) t n 0.
Definition kick_delayed_jobs (t : tubep) (n : Z) : M Z :=
  kick_delayed_jobs_loop (Z.to_nat n) t n 0.

Definition kick_jobs (t : tubep) (n : Z) : M Z :=
  b ← buried_job_p t;
  if b : bool then kick_buried_jobs t n else kick_delayed_jobs t n.

(** ** Reserved jobs *)

Definition is_job_reserved_by_conn (c : connp) (j : option jobp) : M bool :=
  match j with
  | None => mret false
  | Some j =>
      J ← deref st_jobs j;
      mret (bool_decide (j_reserver J = Some c) && bool_decide (r_state (j_r J) = Reserved))
  end.

Definition touch_job (c : connp) (j : option jobp) : M bool :=
  b ← is_job_reserved_by_conn c j;
  if negb b then mret false
  else
    j ← nonnull j;
    now ← nanoseconds;
    upd_rec j (fun r => r <| r_deadline_at := now + r_ttr r |>);;
    update st_conns c (fun C => C <| c_soonest_job := None |>);;
    mret true.

Definition remove_this_reserved_job (c : connp) (j : option jobp) : M (option jobp) :=
  n ← job_list_remove (NJob <$> j);
  (match n with
   | None => mret tt
   | Some n =>
       j ← job_of_node n;
       upd_global_stat (fun st => st <| reserved_ct ::= decr64 |>);;
       t ← tube_of j;
       upd_tube_stat t (fun st => st <| reserved_ct ::= decr64 |>);;
       update st_jobs j (fun J => J <| j_reserver := None |>)
   end);;
  update st_conns c (fun C => C <| c_soonest_job := None |>);;
  match n with None => mret None | Some _ => mret j end.

Definition remove_reserved_job (c : connp) (j : option jobp) : M (option jobp) :=
  b ← is_job_reserved_by_conn c j;
  if negb b then mret None else remove_this_reserved_job c j.

Definition wait_for_job (c : connp) (timeout : Z) : M unit :=
  update st_conns c (fun C => C <| c_state := STATE_WAIT |>);;
  enqueue_waiting_conn c;;
  update st_conns c (fun C => C <| c_pending_timeout := timeout |>);;
  epollq_add c "h".

(** ** The life of a connection *)

Definition conn_zero : Conn :=
  mkConn 0 false STATE_WANT_COMMAND 0 None None 0 0 false None "000" 0 false
    (repeat "000"%char LINE_BUF_SIZE) 0 0 [] 0 0 0 None None 0 ms_init.

Definition make_conn (start_state : connstate) (use watch : tubep) : M (option connp) :=
  c ← malloc st_conns conn_zero;
  match c with
  | None => mret None
  | Some c =>
      '(r, a) ← ms_append_M watch ms_init;
      if negb r then free st_conns c;; mret None
      else
        update st_conns c (fun C => C <| c_watch := a |>);;
        on_watch watch;;
        TUBE_ASSIGN None (update st_conns c (fun C => C <| c_use := Some use |>)) (Some use);;
        update st_tubes use (fun T => T <| t_using_ct ::= incr32 |>);;
        update st_conns c (fun C =>
          C <| c_state := start_state |> <| c_pending_timeout := -1 |>
            <| c_tickpos := 0%nat |> <| c_in_conns := false |>);;
        job_list_reset (NReserved c);;
        upd_counts (fun n => n <| cur_conn_ct ::= Z.succ |>);;
        upd_counts (fun n => n <| tot_conn_ct ::= incr32 |>);;
        mret (Some c)
  end.

(** [sockwant] of [linux.c]: [false] is the result -1. *)
Definition sockwant (c : connp) (rw : option ascii) : M bool :=
  C ← deref st_conns c;
  if negb (c_added C) && bool_decide (rw = None) then mret true
  else
    (if negb (c_added C)
     then update st_conns c (fun C => C <| c_added := true |>) else mret tt);;
    n ← tick;
    mret (e_epoll_ctl n (c_fd C)).

Definition connclose (c : connp) : M unit :=
  sockwant c None;;
  C ← deref st_conns c;
  emit (EvClose (c_fd C));;
  job_free (c_in_job C);;
  (match c_out_job C with
   | None => mret tt
   | Some j =>
       J ← deref st_jobs j;
       if decide (r_state (j_r J) = Copy) then job_free (Some j) else mret tt
   end);;
  update st_conns c (fun C =>
    C <| c_in_job := None |> <| c_out_job := None |> <| c_in_job_read := 0 |>);;
  (if negb (Z.land (c_type C) CONN_TYPE_PRODUCER =? 0)
   then upd_counts (fun n => n <| cur_producer_ct ::= Z.pred |>) else mret tt);;
  (if negb (Z.land (c_type C) CONN_TYPE_WORKER =? 0)
   then upd_counts (fun n => n <| cur_worker_ct ::= Z.pred |>) else mret tt);;
  upd_counts (fun n => n <| cur_conn_ct ::= Z.pred |>);;
  remove_waiting_conn c;;
  has ← has_reserved_job c;
  (if has : bool then enqueue_reserved_jobs c else mret tt);;
  C ← deref st_conns c;
  let '(removed, a) := ms_clear (c_watch C) in
  update st_conns c (fun C => C <| c_watch := a |>);;
  forM removed on_ignore;;
  use ← nonnull (c_use C);
  update st_tubes use (fun T => T <| t_using_ct ::= fun n => wrap_u32 (n - 1) |>);;
  TUBE_ASSIGN (Some use) (update st_conns c (fun C => C <| c_use := None |>)) None;;
  C ← deref st_conns c;
  (if c_in_conns C then
     conns_heapremove (c_tickpos C);;
     update st_conns c (fun C => C <| c_in_conns := false |>)
   else mret tt);;
  modify (fun s => s <| st_links ::= delete (NReserved c) |>);;
  free st_conns c.

(** Apply the wanted events; a connection whose socket cannot be watched is
    closed. *)
Fixpoint epollq_apply_loop (fuel : nat) : M unit :=
  s ← gets id;
  match epollq s with
  | None => mret tt
  | Some c =>
      match fuel with
      | O => out_of_fuel
      | S fuel =>
          C ← deref st_conns c;
          modify (fun s => s <| epollq := c_next C |>);;
          update st_conns c (fun C => C <| c_next := None |>);;
          r ← sockwant c (Some (c_rw C));
          (if negb r then connclose c else mret tt);;
          epollq_apply_loop fuel
      end
  end.
(** Closing a connection may queue others, each at most once per job it is
    given. *)
Definition epollq_apply : M unit :=
  s ← gets id;
  epollq_apply_loop (2 * size (st_conns s) + size (st_jobs s) + 1).
End operations.
