(* ===== verification/Frames.v ===== *)
(** What the operations leave alone, whatever the state: their frames.

    [Keeps R n m]: when [m] returns, the states before and after are related
    by [R n].  A [Frame] is a relation that allows the updates the operations
    below are made of; [n] counts the objects that they allocate.  Nothing is
    said about whether [m] returns. *)
From S2P Require Import Prelude Heap Ms State Monad JobList JobHash Tube Job Wal Conn Queue.
#[local] Open Scope Z_scope.

(** The fields of a connection that operations on jobs do not write. *)
Definition k_conn (C : Conn) : Conn :=
  conn_zero <| c_next := c_next C |> <| c_cmd_len := c_cmd_len C |> <| c_cmd_read := c_cmd_read C |>.

(** No job is new, or has another size. *)
Definition size_of (J : Job) : Z := r_body_size (j_r J).
Definition fewer (J J' : gmap jobp Job) : Prop :=
  ∀ j B', J' !! j = Some B' → ∃ B, J !! j = Some B ∧ size_of B' = size_of B.
#[export] Instance fewer_pre : PreOrder fewer.
Proof.
  split; [intros J j B ?; eauto|]. intros J1 J2 J3 H1 H2 j B3 H3.
  destruct (H2 j B3 H3) as (B2 & HB2 & ->). eauto.
Qed.
Lemma fewer_dom J J' : fewer J J' → dom J' ⊆ dom J.
Proof. intros H j [B' HB']%elem_of_dom. apply elem_of_dom. destruct (H j B' HB') as (B & ? & _). eauto. Qed.

(** [c] is in the set of the connections that wait for some tube. *)
Definition listed (s : St) (c : connp) : Prop :=
  ∃ t T, st_tubes s !! t = Some T ∧ c ∈ ms_items (t_waiting_conns T).

(** Nothing below has changed, except that jobs and listed connections may be
    gone. *)
Record view (s s' : St) : Prop := {
  vw_jobs : fewer (st_jobs s) (st_jobs s');
  vw_conns : same_but k_conn (st_conns s) (st_conns s');
  vw_epollq : epollq s' = epollq s;
  vw_wait c : listed s' c → listed s c;
  vw_next : next_id (st_table s') = next_id (st_table s);
  vw_default : default_tube s' = default_tube s;
}.
#[export] Instance view_pre : PreOrder view.
Proof.
  split; [by split|]. intros s1 s2 s3 [J1 C1 E1 W1 N1 D1] [J2 C2 E2 W2 N2 D2].
  split; [by etrans|by etrans|congruence|auto|congruence|congruence].
Qed.

(** Relations that add up along a run. *)
Class Budget (R : nat → St → St → Prop) : Prop := {
  bu_refl s : R 0%nat s s;
  bu_trans n1 n2 s1 s2 s3 : R n1 s1 s2 → R n2 s2 s3 → R (n1 + n2)%nat s1 s3;
  bu_mono n1 n2 s s' : (n1 <= n2)%nat → R n1 s s' → R n2 s s';
}.
#[export] Hint Mode Budget + : typeclass_instances.

Class Frame (R : nat → St → St → Prop) (ok : connp → Prop) : Prop := {
  fr_trans n1 n2 s1 s2 s3 : R n1 s1 s2 → R n2 s2 s3 → R (n1 + n2)%nat s1 s3;
  fr_mono n1 n2 s s' : (n1 <= n2)%nat → R n1 s s' → R n2 s s';
  fr_view s s' : view s s' → R 0%nat s s';
  (** a new job, the next id *)
  fr_alloc s j J : 0 <= size_of J ∨ (∃ i B, st_jobs s !! i = Some B ∧ size_of J = size_of B) →
    R 1%nat s (s <| st_jobs ::= <[j := J]> |>);
  fr_id s : R 1%nat s (s <| st_table ::= fun T => T <| next_id := wrap_u64 (next_id T + 1) |> |>);
  (** a connection in the queue of epoll updates *)
  fr_push s c C : ok c → st_conns s !! c = Some C →
    R 0%nat s (s <| st_conns ::= <[c := C <| c_next := epollq s |>]> |> <| epollq := Some c |>);
  (** a connection that was listed may be queued, or nothing is claimed *)
  fr_listed s c : listed s c → ok c ∨ ∀ n s', R n s s';
}.

#[export] Hint Mode Frame + - : typeclass_instances.

(** Replies are to the connections of [ok]. *)
Class Allowed (ok : connp → Prop) (c : connp) : Prop := allowed : ok c.
#[export] Hint Mode Allowed + + : typeclass_instances.

Class Keeps (R : nat → St → St → Prop) {A} (n : nat) (m : M A) : Prop :=
  keeps_run s a s' : m s = Ret a s' → R n s s'.
#[export] Hint Mode Keeps + + + + : typeclass_instances.

#[export] Instance frame_budget R ok : Frame R ok → Budget R.
Proof. intros HF. split; [intros s; by apply (fr_view (Frame := HF))|apply HF|apply HF]. Qed.

Section monad.
Context (R : nat → St → St → Prop) `{HB : !Budget R}.

#[local] Abbreviation keeps := (Keeps R).

(** ** The monad *)

Lemma keeps_ret {A} (a : A) : keeps 0 (mret a).
Proof. intros s b s' [= <- <-]. apply bu_refl. Qed.
Lemma keeps_wp {A} n (m : M A) : (∀ s, wp m (λ _ s', R n s s') s) → keeps n m.
Proof. intros Hm s a s' Hs. specialize (Hm s). unfold wp in Hm. by rewrite Hs in Hm. Qed.
Lemma wp_kept {A} n (m : M A) (Q : A → St → Prop) s :
  keeps n m → wp m Q s → wp m (λ a s', Q a s' ∧ R n s s') s.
Proof.
  intros Hm (a & s' & Hs & HQ)%wp_Ret. apply wp_Ret. exists a, s'. split_and!; [done..|]. by eapply Hm.
Qed.
Lemma keeps_stop {A} r : keeps 0 ((λ _, Stop r) : M A).
Proof. by intros s b s'. Qed.
Lemma keeps_gets {A} (f : St → A) : keeps 0 (gets f).
Proof. intros s b s' [= <- <-]. apply bu_refl. Qed.
Lemma keeps_mono {A} n n' (m : M A) : (n <= n')%nat → keeps n m → keeps n' m.
Proof. intros Hn Hm s a s' Hs. eapply bu_mono; [done|]. by eapply Hm. Qed.
Lemma keeps_up {A} n (m : M A) : keeps 0 m → keeps n m.
Proof. apply keeps_mono. lia. Qed.
Lemma keeps_bind_sum {A B} n1 n2 (m : M A) (k : A → M B) :
  keeps n1 m → (∀ a, keeps n2 (k a)) → keeps (n1 + n2) (m ≫= k).
Proof.
  intros Hm Hk s b s'. unfold mbind, M_bind. destruct (m s) as [a s1|] eqn:Hs; [|done].
  intros Hb. eapply bu_trans; [by eapply Hm|by eapply Hk].
Qed.
Lemma keeps_bind {A B} n (m : M A) (k : A → M B) :
  keeps 0 m → (∀ a, keeps n (k a)) → keeps n (m ≫= k).
Proof. apply keeps_bind_sum. Qed.
Lemma keeps_bind_last {A B} n (m : M A) (k : A → M B) :
  keeps n m → (∀ a, keeps 0 (k a)) → keeps n (m ≫= k).
Proof. intros Hm Hk. rewrite <- (Nat.add_0_r n). by apply keeps_bind_sum. Qed.
Lemma keeps_from_option {A} (o : option A) : keeps 0 (from_option o).
Proof. destruct o; [apply keeps_ret|apply keeps_stop]. Qed.
Lemma keeps_deref {V} (m : St → gmap positive V) p : keeps 0 (deref m p).
Proof. unfold deref. apply keeps_bind; [apply keeps_gets|]. intros a. apply keeps_from_option. Qed.
Lemma keeps_bind_deref {V B} n (m : St → gmap positive V) p (k : V → M B) :
  (∀ s v b s', m s !! p = Some v → k v s = Ret b s' → R n s s') → keeps n (deref m p ≫= k).
Proof.
  intros Hk s b s'. unfold deref, gets, mbind, M_bind. simpl.
  destruct (m s !! p) as [v|] eqn:Hp; simpl; [|done]. by apply Hk.
Qed.
Lemma keeps_forM {A} (l : list A) f : (∀ x, keeps 0 (f x)) → keeps 0 (forM l f).
Proof.
  intros Hf. induction l; simpl; [apply keeps_ret|]. apply keeps_bind; [done|]. by intros [].
Qed.

(** An update is as its effect. *)
Lemma keeps_modify n f : (∀ s, R n s (f s)) → keeps n (modify f).
Proof. intros Hf s b s' [= <- <-]. apply Hf. Qed.
Lemma keeps_update {V} n (m : St → gmap positive V) `{!Setter m} p f :
  (∀ s v, m s !! p = Some v → R n s (s <| m ::= <[p := f v]> |>)) → keeps n (update m p f).
Proof.
  intros Hf s b s'. unfold update, deref, gets, mbind, M_bind. simpl.
  destruct (m s !! p) as [v|] eqn:Hp; simpl; [|done]. intros [= <- <-]. by apply Hf.
Qed.
Lemma keeps_free {V} n (m : St → gmap positive V) `{!Setter m} p :
  (∀ s v, m s !! p = Some v → R n s (s <| m ::= delete p |>)) → keeps n (free m p).
Proof.
  intros Hf s b s'. unfold free, deref, gets, mbind, M_bind. simpl.
  destruct (m s !! p) as [v|] eqn:Hp; simpl; [|done]. intros [= <- <-]. by eapply Hf.
Qed.

End monad.

Section keeps.
Context (R : nat → St → St → Prop) (ok : connp → Prop) `{HF : !Frame R ok}.

#[local] Abbreviation keeps := (Keeps R).

Lemma run_malloc `{Env} {V} n (m : St → gmap positive V) `{!Setter m} v s b s' (s1 := s <| st_tick ::= S |>) :
  (∀ p, m s1 !! p = None → R n s1 (s1 <| m ::= <[p := v]> |>)) → malloc m v s = Ret b s' → R n s s'.
Proof.
  intros Hm. unfold malloc, tick, gets, modify, mbind, M_bind. simpl. fold s1.
  assert (R 0%nat s s1) as H1 by (by apply fr_view).
  destruct (e_malloc (st_tick s)) as [hint|]; intros [= <- <-].
  - apply (fr_trans 0 n s s1); [done|]. apply Hm. unfold Datatypes.id.
    destruct (m s1 !! hint) eqn:Hh; [|done]. apply not_elem_of_dom. apply is_fresh.
  - eapply fr_mono; [|exact H1]. lia.
Qed.
Lemma keeps_malloc `{Env} {V} n (m : St → gmap positive V) `{!Setter m} v :
  (∀ s p, m s !! p = None → R n s (s <| m ::= <[p := v]> |>)) → keeps n (malloc m v).
Proof. intros Hm s b s'. apply run_malloc. intros p. apply Hm. Qed.

(** ** The effects of updates *)

Lemma view_job s j J J' :
  st_jobs s !! j = Some J → size_of J' = size_of J → view s (s <| st_jobs ::= <[j := J']> |>).
Proof.
  intros HJ He. split; rsimpl; try done. intros x B. rewrite lookup_insert_Some. naive_solver.
Qed.
Lemma view_conn s c C C' :
  st_conns s !! c = Some C → k_conn C' = k_conn C → view s (s <| st_conns ::= <[c := C']> |>).
Proof. intros HC Hk. split; rsimpl; try done. by eapply same_but_insert. Qed.
Lemma view_tube s t T' :
  (∀ c, c ∈ ms_items (t_waiting_conns T') → listed s c) → view s (s <| st_tubes ::= <[t := T']> |>).
Proof.
  intros Hc. split; rsimpl; try done. intros c (t1 & T1 & HT & Hin). rsimpl_in HT.
  apply lookup_insert_Some in HT as [[<- <-]|[_ HT]]; [by apply Hc|by exists t1, T1].
Qed.
Lemma listed_tube s t T c : st_tubes s !! t = Some T → c ∈ ms_items (t_waiting_conns T) → listed s c.
Proof. intros. by exists t, T. Qed.

Lemma keeps_job j f : (∀ J, size_of (f J) = size_of J) → keeps 0 (update st_jobs j f).
Proof. intros Hf. apply keeps_update. intros s J HJ. eapply fr_view, view_job; done. Qed.
Lemma keeps_conn c f : (∀ C, k_conn (f C) = k_conn C) → keeps 0 (update st_conns c f).
Proof. intros Hf. apply keeps_update. intros s C HC. eapply fr_view, view_conn; done. Qed.
Lemma keeps_tube t f :
  (∀ T c, c ∈ ms_items (t_waiting_conns (f T)) → c ∈ ms_items (t_waiting_conns T)) → keeps 0 (update st_tubes t f).
Proof.
  intros Hf. apply keeps_update. intros s T HT. eapply fr_view, view_tube. intros c Hc%Hf. by eapply listed_tube.
Qed.
Lemma keeps_file f g : keeps 0 (update st_files f g).
Proof. apply keeps_update. intros s F HF'. apply fr_view. by split. Qed.
Lemma keeps_misc f : (∀ s, view s (f s)) → keeps 0 (modify f).
Proof. intros Hf. apply keeps_modify. intros s. by apply fr_view. Qed.
End keeps.

(** New objects, and freed ones. *)
Section objects.
Context (R : nat → St → St → Prop) (ok : connp → Prop) `{HF : !Frame R ok} {E : Env}.

Lemma keeps_new_job J : 0 <= size_of J → Keeps R 1 (malloc st_jobs J).
Proof. intros HJ. apply (keeps_malloc R ok). intros s p _. eapply fr_alloc. by left. Qed.
Lemma keeps_new_tube T : ms_items (t_waiting_conns T) = [] → Keeps R 0 (malloc st_tubes T).
Proof. intros HT. apply (keeps_malloc R ok). intros s p _. eapply fr_view, view_tube. rewrite HT. set_solver. Qed.
Lemma keeps_free_job j : Keeps R 0 (free st_jobs j).
Proof.
  apply keeps_free. intros s J _. eapply fr_view. split; rsimpl; try done.
  intros x B [_ HB]%lookup_delete_Some. eauto.
Qed.
Lemma keeps_free_tube t : Keeps R 0 (free st_tubes t).
Proof.
  apply keeps_free. intros s T _. eapply fr_view. split; rsimpl; try done.
  intros c (t1 & T1 & HT & Hin). rsimpl_in HT. apply lookup_delete_Some in HT as [_ HT]. by exists t1, T1.
Qed.
End objects.
#[export] Hint Extern 1 (Keeps _ _ (malloc st_jobs _)) => eapply keeps_new_job; [exact _|done] : typeclass_instances.
#[export] Hint Extern 1 (Keeps _ _ (malloc st_tubes _)) => eapply keeps_new_tube; [exact _|done] : typeclass_instances.
#[export] Hint Extern 1 (Keeps _ _ (free st_jobs _)) => eapply keeps_free_job; exact _ : typeclass_instances.
#[export] Hint Extern 1 (Keeps _ _ (free st_tubes _)) => eapply keeps_free_tube; exact _ : typeclass_instances.

Section stops.
Context (R : nat → St → St → Prop) (ok : connp → Prop) `{HF : !Frame R ok}.
#[export] Instance ub_keeps {A} : Keeps R 0 (@ub A).
Proof. by intros s b s'. Qed.
#[export] Instance out_of_fuel_keeps {A} : Keeps R 0 (@out_of_fuel A).
Proof. by intros s b s'. Qed.
#[export] Instance exit_keeps {A} code : Keeps R 0 (@exit A code).
Proof. by intros s b s'. Qed.
#[export] Instance nonnull_keeps {A} (p : option A) : Keeps R 0 (nonnull p).
Proof. apply (keeps_from_option R). Qed.
End stops.
#[export] Existing Instances keeps_ret keeps_stop keeps_gets keeps_from_option keeps_deref keeps_file.
#[export] Existing Instances keeps_bind keeps_forM.
#[export] Hint Extern 2 (Keeps _ _ (match ?x with _ => _ end)) => destruct x : typeclass_instances.
#[export] Hint Extern 1 (Keeps _ _ (update st_jobs _ _)) => eapply keeps_job; [exact _|done] : typeclass_instances.
#[export] Hint Extern 1 (Keeps _ _ (update st_conns _ _)) => eapply keeps_conn; [exact _|done] : typeclass_instances.
#[export] Hint Extern 1 (Keeps _ _ (update st_tubes _ _)) =>
  eapply keeps_tube; [exact _|intros ? ?; first [done|by intros ?%elem_of_nil]] : typeclass_instances.
#[export] Hint Extern 1 (Keeps _ _ (modify _)) => eapply keeps_misc; [exact _|by split] : typeclass_instances.
Ltac keep := cbv zeta; exact _.

Section operations.
Context (R : nat → St → St → Prop) (ok : connp → Prop) `{HF : !Frame R ok} {E : Env}.
#[export] Instance emit_keeps e : Keeps R 0 (emit e).
Proof. unfold emit. keep. Qed.
#[export] Instance tick_keeps : Keeps R 0 tick.
Proof. intros s a s' [= <- <-]. by eapply fr_view. Qed.
#[export] Instance nanoseconds_keeps : Keeps R 0 nanoseconds.
Proof. unfold nanoseconds. keep. Qed.
#[export] Instance malloc_ok_keeps : Keeps R 0 malloc_ok.
Proof. unfold malloc_ok. keep. Qed.

(** Lists. *)
#[export] Instance get_link_keeps n : Keeps R 0 (get_link n).
Proof. unfold get_link. keep. Qed.
#[export] Instance get_prev_keeps n : Keeps R 0 (get_prev n).
Proof. unfold get_prev. keep. Qed.
#[export] Instance get_next_keeps n : Keeps R 0 (get_next n).
Proof. unfold get_next. keep. Qed.
#[export] Instance put_link_keeps n pn : Keeps R 0 (put_link n pn).
Proof. unfold put_link. keep. Qed.
#[export] Instance set_prev_keeps n v : Keeps R 0 (set_prev n v).
Proof. unfold set_prev. keep. Qed.
#[export] Instance set_next_keeps n v : Keeps R 0 (set_next n v).
Proof. unfold set_next. keep. Qed.
#[export] Instance job_list_reset_keeps head : Keeps R 0 (job_list_reset head).
Proof. unfold job_list_reset. keep. Qed.
#[export] Instance job_list_is_empty_keeps head : Keeps R 0 (job_list_is_empty head).
Proof. unfold job_list_is_empty. keep. Qed.
#[export] Instance job_list_remove_keeps j : Keeps R 0 (job_list_remove j).
Proof. unfold job_list_remove. keep. Qed.
#[export] Instance job_list_insert_keeps head j : Keeps R 0 (job_list_insert head j).
Proof. unfold job_list_insert. keep. Qed.

(** The table of jobs. *)
#[export] Instance _get_job_hash_index_keeps job_id : Keeps R 0 (_get_job_hash_index job_id).
Proof. unfold _get_job_hash_index. keep. Qed.
#[export] Instance check_index_keeps index : Keeps R 0 (check_index index).
Proof. unfold check_index. keep. Qed.
#[export] Instance get_bucket_keeps index : Keeps R 0 (get_bucket index).
Proof. unfold get_bucket. keep. Qed.
#[export] Instance put_bucket_keeps index p : Keeps R 0 (put_bucket index p).
Proof. unfold put_bucket. keep. Qed.
#[export] Instance set_ht_next_keeps j p : Keeps R 0 (set_ht_next j p).
Proof. unfold set_ht_next. keep. Qed.
#[export] Instance rehash_bucket_keeps fuel store b : (∀ j, Keeps R 0 (store j)) → Keeps R 0 (rehash_bucket fuel store b).
Proof. intros Hs. revert b. induction fuel as [|fuel IH]; intros; cbn [rehash_bucket]; keep. Qed.
#[export] Instance rehash_loop_keeps fuel store old n i : (∀ j, Keeps R 0 (store j)) → Keeps R 0 (rehash_loop fuel store old n i).
Proof. intros Hs. revert i. induction n as [|n IH]; intros; cbn [rehash_loop]; keep. Qed.
#[export] Instance rehash_with_keeps store up : (∀ j, Keeps R 0 (store j)) → Keeps R 0 (rehash_with store up).
Proof. intros Hs. unfold rehash_with. keep. Qed.
#[export] Instance store_job_fuel_keeps fuel j : Keeps R 0 (store_job_fuel fuel j).
Proof. revert j. induction fuel as [|fuel IH]; intros; cbn [store_job_fuel]; unfold store_job_with; keep. Qed.
#[export] Instance job_find_loop_keeps fuel jh job_id : Keeps R 0 (job_find_loop fuel jh job_id).
Proof. revert jh job_id. induction fuel as [|fuel IH]; intros; cbn [job_find_loop]; keep. Qed.
#[export] Instance job_find_keeps job_id : Keeps R 0 (job_find job_id).
Proof. unfold job_find. keep. Qed.
#[export] Instance job_unlink_loop_keeps fuel index prev slot j : Keeps R 0 (job_unlink_loop fuel index prev slot j).
Proof. revert index prev slot j. induction fuel as [|fuel IH]; intros; cbn [job_unlink_loop]; keep. Qed.
#[export] Instance job_hash_free_keeps j : Keeps R 0 (job_hash_free j).
Proof. unfold job_hash_free. keep. Qed.
#[export] Instance get_all_jobs_used_keeps : Keeps R 0 get_all_jobs_used.
Proof. unfold get_all_jobs_used. keep. Qed.

(** Tubes. *)
#[export] Instance ms_append_M_keeps {X} (item : X) a : Keeps R 0 (ms_append_M item a).
Proof. unfold ms_append_M. keep. Qed.
#[export] Instance make_tube_keeps name : Keeps R 0 (make_tube name).
Proof. unfold make_tube. keep. Qed.
#[export] Instance tube_free_keeps t : Keeps R 0 (tube_free t).
Proof. unfold tube_free. keep. Qed.
#[export] Instance tube_dref_keeps t : Keeps R 0 (tube_dref t).
Proof. unfold tube_dref. keep. Qed.
#[export] Instance tube_iref_keeps t : Keeps R 0 (tube_iref t).
Proof. unfold tube_iref. keep. Qed.
#[export] Instance TUBE_ASSIGN_keeps a m b : Keeps R 0 m → Keeps R 0 (TUBE_ASSIGN a m b).
Proof. unfold TUBE_ASSIGN. keep. Qed.
#[export] Instance make_and_insert_tube_keeps name : Keeps R 0 (make_and_insert_tube name).
Proof. unfold make_and_insert_tube. keep. Qed.
#[export] Instance tube_find_loop_keeps items name : Keeps R 0 (tube_find_loop items name).
Proof. revert name. induction items as [|x items IH]; intros; cbn [tube_find_loop]; keep. Qed.
#[export] Instance tube_find_keeps tubeset name : Keeps R 0 (tube_find tubeset name).
Proof. unfold tube_find. keep. Qed.
#[export] Instance tube_find_or_make_keeps name : Keeps R 0 (tube_find_or_make name).
Proof. unfold tube_find_or_make. keep. Qed.

(** Jobs. *)
Lemma view_heap s t T T' J :
  st_tubes s !! t = Some T → t_waiting_conns T' = t_waiting_conns T → fewer (st_jobs s) J →
  view s (s <| st_jobs := J |> <| st_tubes ::= <[t := T']> |>).
Proof.
  intros HT Hw HJ. transitivity (s <| st_jobs := J |>); [by split|].
  apply view_tube. intros c. rewrite Hw. by eapply listed_tube.
Qed.
#[local] Opaque heapinsert heapremove.
Lemma job_setpos_fewer x k (e : gmap jobp Job) : fewer e (job_setpos x k e).
Proof.
  intros j B. unfold job_setpos. rewrite lookup_alter_Some. intros [(-> & B0 & ? & ->)|[_ ?]]; eauto.
Qed.
Lemma tube_heapinsert_keeps sel `{!Setter sel} ops t j :
  (∀ T h, t_waiting_conns (T <| sel := h |>) = t_waiting_conns T) →
  (∀ x k (e : gmap jobp Job), fewer e (setpos_fn ops x k e)) → Keeps R 0 (tube_heapinsert sel ops t j).
Proof.
  intros Hw Hd s r s'. unfold tube_heapinsert, deref, gets, mbind, M_bind. simpl.
  destruct (st_tubes s !! t) as [T|] eqn:HT; simpl; [|done].
  destruct ((if (_ =? _)%nat then malloc_ok else mret true) s) as [ok' s1|] eqn:H1; [|done].
  assert (∃ n, s1 = s <| st_tick := n |>) as [n ->].
  { revert H1. case_match; [|intros [= _ <-]; exists (st_tick s); by destruct s].
    intros [= _ <-]. by exists (S (st_tick s)). }
  match goal with |- context [heapinsert ?a ?b ?d ?e] => destruct (heapinsert a b d e) as [[r1 [h J]]|] eqn:Hh end; simpl; [|done].
  intros [= _ <-].
  destruct (heapinsert_keeps ops fewer Hd _ _ _ _ _ _ _ Hh) as [Hdom _].
  eapply fr_view. transitivity (s <| st_tick := n |>); [by split|]. by eapply view_heap.
Qed.
Lemma tube_heapremove_keeps sel `{!Setter sel} ops t k :
  (∀ T h, t_waiting_conns (T <| sel := h |>) = t_waiting_conns T) →
  (∀ x k (e : gmap jobp Job), fewer e (setpos_fn ops x k e)) → Keeps R 0 (tube_heapremove sel ops t k).
Proof.
  intros Hw Hd s r s'. unfold tube_heapremove, deref, gets, mbind, M_bind. simpl.
  destruct (st_tubes s !! t) as [T|] eqn:HT; simpl; [|done].
  match goal with |- context [heapremove ?a ?b ?d] => destruct (heapremove a b d) as [[r1 [h J]]|] eqn:Hh end; simpl; [|done].
  intros [= _ <-].
  destruct (heapremove_keeps ops fewer Hd _ _ _ _ _ _ Hh) as [Hdom _].
  eapply fr_view. by eapply view_heap.
Qed.
#[local] Hint Extern 1 (Keeps _ _ (tube_heapinsert _ _ _ _)) =>
  apply tube_heapinsert_keeps; [done|apply job_setpos_fewer] : typeclass_instances.
#[local] Hint Extern 1 (Keeps _ _ (tube_heapremove _ _ _ _)) =>
  apply tube_heapremove_keeps; [done|apply job_setpos_fewer] : typeclass_instances.
Lemma allocate_job_keeps body_size : 0 <= body_size → Keeps R 1 (allocate_job body_size).
Proof.
  intros Hb. apply keeps_wp. intros s. unfold allocate_job. wsteps. apply wp_malloc; [done|..].
  { wsteps. eapply (fr_mono 0); [lia|]. by eapply fr_view. }
  intros p Hp. unfold job_list_reset, put_link. wsteps.
  match goal with |- R 1%nat s ?s' => set (s1 := s') end.
  set (J := default job_zero (st_jobs s1 !! p)).
  assert (size_of J = body_size) as HJ by (subst J s1; rsimpl; by rewrite lookup_insert_eq).
  apply (fr_trans 1 0 s (s <| st_jobs ::= <[p := J]> |>)); [eapply fr_alloc; left; lia|].
  eapply fr_view. split; try done. subst J s1. rsimpl. rewrite lookup_insert_eq. simpl. by rewrite !insert_insert_eq.
Qed.
#[export] Instance job_assign_tube_keeps j tube : Keeps R 0 (job_assign_tube j tube).
Proof. unfold job_assign_tube. keep. Qed.
Lemma take_id_keeps j (k : M (option jobp)) : Keeps R 0 k → Keeps R 1 (
  s ← gets Datatypes.id;
  (update st_jobs j (fun J => J <| j_r ::= fun r => r <| r_id := next_id (st_table s) |> |>);;
   modify (fun s' => s' <| st_table ::= fun T => T <| next_id := wrap_u64 (next_id (st_table s) + 1) |> |>));; k).
Proof.
  intros Hk s r s'. unfold gets, update, deref, gets, mbind, M_bind. simpl.
  destruct (st_jobs s !! j) as [J|] eqn:HJ; simpl; [|done]. intros Hr%Hk.
  match type of Hr with R _ (rupd st_table ?f ?s1) _ =>
    assert (R 0%nat s s1) as H0 by (eapply fr_view, view_job; done);
    assert (R 1%nat s1 (rupd st_table f s1)) as H1 by exact (fr_id (R := R) (ok := ok) s1) end.
  exact (fr_trans 1 0 _ _ _ (fr_trans 0 1 _ _ _ H0 H1) Hr).
Qed.
Lemma make_job_keeps pri delay ttr body_size tube : 0 <= body_size → Keeps R 2 (make_job pri delay ttr body_size tube).
Proof. intros Hb. unfold make_job, make_job_with_id. cbn [negb Z.eqb].
  apply (keeps_bind_sum R 1 1); [by apply allocate_job_keeps|]. intros [j|]; [|apply (keeps_up R); keep].
  apply take_id_keeps. keep. Qed.
#[export] Instance job_free_keeps j : Keeps R 0 (job_free j).
Proof. unfold job_free. keep. Qed.
#[export] Instance job_copy_keeps j : Keeps R 1 (job_copy j).
Proof. unfold job_copy. destruct j as [j|]; [|apply (keeps_up R); keep].
  apply keeps_bind_deref. intros s J a s' HJ. unfold mbind at 1, M_bind.
  destruct (malloc st_jobs _ s) as [n s1|] eqn:Hm; [|done]. intros Hk.
  apply (fr_trans 1 0 s s1).
  - eapply (run_malloc R ok); [|exact Hm]. intros p _. eapply fr_alloc. right. by exists j, J.
  - match type of Hk with ?k _ = _ => assert (Keeps R 0 k) as Hkk by keep end. by eapply Hkk. Qed.

(** The log. *)
#[export] Instance get_wal_keeps : Keeps R 0 get_wal.
Proof. unfold get_wal. keep. Qed.
#[export] Instance upd_wal_keeps f : Keeps R 0 (upd_wal f).
Proof. unfold upd_wal. keep. Qed.
#[export] Instance walgc_loop_keeps fuel : Keeps R 0 (walgc_loop fuel).
Proof. induction fuel as [|fuel IH]; intros; cbn [walgc_loop]; keep. Qed.
#[export] Instance walgc_keeps : Keeps R 0 walgc.
Proof. unfold walgc. keep. Qed.
#[export] Instance fileincref_keeps f : Keeps R 0 (fileincref f).
Proof. unfold fileincref. keep. Qed.
#[export] Instance filedecref_keeps f : Keeps R 0 (filedecref f).
Proof. unfold filedecref. keep. Qed.
#[export] Instance get_flink_keeps n : Keeps R 0 (get_flink n).
Proof. unfold get_flink. keep. Qed.
#[export] Instance put_flink_keeps n pn : Keeps R 0 (put_flink n pn).
Proof. unfold put_flink. keep. Qed.
#[export] Instance set_fprev_keeps n v : Keeps R 0 (set_fprev n v).
Proof. unfold set_fprev. keep. Qed.
#[export] Instance set_fnext_keeps n v : Keeps R 0 (set_fnext n v).
Proof. unfold set_fnext. keep. Qed.
#[export] Instance fileaddjob_keeps f j : Keeps R 0 (fileaddjob f j).
Proof. unfold fileaddjob. keep. Qed.
#[export] Instance filermjob_keeps f j : Keeps R 0 (filermjob f j).
Proof. unfold filermjob. keep. Qed.
#[export] Instance filewrite_keeps f j buf : Keeps R 0 (filewrite f j buf).
Proof. unfold filewrite. keep. Qed.
#[export] Instance andM_keeps a b : Keeps R 0 a → Keeps R 0 b → Keeps R 0 (andM a b).
Proof. intros. unfold andM. keep. Qed.
#[export] Instance filewrjobshort_keeps f j : Keeps R 0 (filewrjobshort f j).
Proof. unfold filewrjobshort. keep. Qed.
#[export] Instance tube_name_of_keeps j : Keeps R 0 (tube_name_of j).
Proof. unfold tube_name_of. keep. Qed.
#[export] Instance filewrjobfull_keeps f j : Keeps R 0 (filewrjobfull f j).
Proof. unfold filewrjobfull. keep. Qed.
#[export] Instance filewopen_keeps f : Keeps R 0 (filewopen f).
Proof. unfold filewopen. keep. Qed.
#[export] Instance filewclose_keeps f : Keeps R 0 (filewclose f).
Proof. unfold filewclose. keep. Qed.
#[export] Instance fileinit_keeps f n : Keeps R 0 (fileinit f n).
Proof. unfold fileinit. keep. Qed.
#[export] Instance fileadd_keeps f : Keeps R 0 (fileadd f).
Proof. unfold fileadd. keep. Qed.
#[export] Instance makenextfile_keeps : Keeps R 0 makenextfile.
Proof. unfold makenextfile. keep. Qed.
#[export] Instance moveresv_keeps to from n : Keeps R 0 (moveresv to from n).
Proof. unfold moveresv. keep. Qed.
#[export] Instance needfree_keeps n : Keeps R 0 (needfree n).
Proof. unfold needfree. keep. Qed.
#[export] Instance usenext_keeps : Keeps R 0 usenext.
Proof. unfold usenext. keep. Qed.
#[export] Instance balancerest_keeps fuel b n : Keeps R 0 (balancerest fuel b n).
Proof. revert b n. induction fuel as [|fuel IH]; intros; cbn [balancerest]; keep. Qed.
#[export] Instance balance_loop_keeps fuel n : Keeps R 0 (balance_loop fuel n).
Proof. revert n. induction fuel as [|fuel IH]; intros; cbn [balance_loop]; keep. Qed.
#[export] Instance balance_keeps n : Keeps R 0 (balance n).
Proof. unfold balance. keep. Qed.
#[export] Instance reserve_keeps n : Keeps R 0 (reserve n).
Proof. unfold reserve. keep. Qed.
#[export] Instance walresvput_keeps j : Keeps R 0 (walresvput j).
Proof. unfold walresvput. keep. Qed.
#[export] Instance walresvupdate_keeps : Keeps R 0 walresvupdate.
Proof. unfold walresvupdate. keep. Qed.
#[export] Instance walresvmigrate_keeps j : Keeps R 0 (walresvmigrate j).
Proof. unfold walresvmigrate. keep. Qed.
#[export] Instance walwrite_keeps j : Keeps R 0 (walwrite j).
Proof. unfold walwrite. keep. Qed.
#[export] Instance moveone_keeps : Keeps R 0 moveone.
Proof. unfold moveone. keep. Qed.
#[export] Instance repeatM_keeps n m : Keeps R 0 m → Keeps R 0 (repeatM n m).
Proof. intros Hm. induction n as [|n IH]; intros; cbn [repeatM]; keep. Qed.
#[export] Instance walcompact_keeps : Keeps R 0 walcompact.
Proof. unfold walcompact. keep. Qed.
#[export] Instance walsync_keeps : Keeps R 0 walsync.
Proof. unfold walsync. keep. Qed.
#[export] Instance walmaint_keeps : Keeps R 0 walmaint.
Proof. unfold walmaint. keep. Qed.

(** Connections. *)
Definition same_conns : relation (gmap connp Conn) := same_but k_conn.
Lemma conn_setpos_k x k (C : gmap connp Conn) : same_conns C (setpos_fn conn_ops x k C).
Proof.
  simpl. unfold conn_setpos, same_conns, same_but. apply map_eq. intros y. rewrite !lookup_fmap.
  destruct (decide (y = x)) as [->|]; [rewrite lookup_alter_eq|by rewrite lookup_alter_ne].
  by destruct (C !! x).
Qed.
Lemma view_timers s h C : same_conns (st_conns s) C → view s (s <| st_conns := C |> <| srv_conns := h |>).
Proof. intros HC. by split. Qed.
#[export] Instance conns_heapinsert_keeps c : Keeps R 0 (conns_heapinsert c).
Proof.
  intros s r s'. unfold conns_heapinsert, gets, mbind, M_bind. simpl.
  destruct (timers_live s); simpl; [|done].
  destruct ((if (_ =? _)%nat then malloc_ok else mret true) s) as [ok' s1|] eqn:H1; [|done].
  assert (∃ n, s1 = s <| st_tick := n |>) as [n ->].
  { revert H1. case_match; [|intros [= _ <-]; exists (st_tick s); by destruct s].
    intros [= _ <-]. by exists (S (st_tick s)). }
  match goal with |- context [heapinsert ?a ?b ?d ?e] => destruct (heapinsert a b d e) as [[r1 [h C]]|] eqn:Hh end; simpl; [|done].
  intros [= _ <-]. destruct (heapinsert_keeps conn_ops same_conns conn_setpos_k _ _ _ _ _ _ _ Hh) as [HC _].
  eapply fr_view. transitivity (s <| st_tick := n |>); [by split|]. by apply view_timers.
Qed.
#[export] Instance conns_heapremove_keeps k : Keeps R 0 (conns_heapremove k).
Proof.
  intros s r s'. unfold conns_heapremove, gets, mbind, M_bind. simpl.
  destruct (timers_live s); simpl; [|done].
  match goal with |- context [heapremove ?a ?b ?d] => destruct (heapremove a b d) as [[r1 [h C]]|] eqn:Hh end; simpl; [|done].
  intros [= _ <-]. destruct (heapremove_keeps conn_ops same_conns conn_setpos_k _ _ _ _ _ _ Hh) as [HC _].
  eapply fr_view. by apply view_timers.
Qed.
#[export] Instance on_watch_keeps t : Keeps R 0 (on_watch t).
Proof. unfold on_watch. keep. Qed.
#[export] Instance on_ignore_keeps t : Keeps R 0 (on_ignore t).
Proof. unfold on_ignore. keep. Qed.
#[export] Instance upd_counts_keeps f : Keeps R 0 (upd_counts f).
Proof. unfold upd_counts. keep. Qed.
#[export] Instance connsetproducer_keeps c : Keeps R 0 (connsetproducer c).
Proof. unfold connsetproducer. keep. Qed.
#[export] Instance connsetworker_keeps c : Keeps R 0 (connsetworker c).
Proof. unfold connsetworker. keep. Qed.
#[export] Instance count_cur_conns_keeps : Keeps R 0 count_cur_conns.
Proof. unfold count_cur_conns. keep. Qed.
#[export] Instance count_tot_conns_keeps : Keeps R 0 count_tot_conns.
Proof. unfold count_tot_conns. keep. Qed.
#[export] Instance count_cur_producers_keeps : Keeps R 0 count_cur_producers.
Proof. unfold count_cur_producers. keep. Qed.
#[export] Instance count_cur_workers_keeps : Keeps R 0 count_cur_workers.
Proof. unfold count_cur_workers. keep. Qed.
#[export] Instance has_reserved_job_keeps c : Keeps R 0 (has_reserved_job c).
Proof. unfold has_reserved_job. keep. Qed.
#[export] Instance conn_set_soonestjob_keeps c j : Keeps R 0 (conn_set_soonestjob c j).
Proof. unfold conn_set_soonestjob. keep. Qed.
#[export] Instance connsoonestjob_loop_keeps fuel c n : Keeps R 0 (connsoonestjob_loop fuel c n).
Proof. revert c n. induction fuel as [|fuel IH]; intros; cbn [connsoonestjob_loop]; keep. Qed.
#[export] Instance connsoonestjob_keeps c : Keeps R 0 (connsoonestjob c).
Proof. unfold connsoonestjob. keep. Qed.
#[export] Instance conntickat_keeps c : Keeps R 0 (conntickat c).
Proof. unfold conntickat. keep. Qed.
#[export] Instance connsched_keeps c : Keeps R 0 (connsched c).
Proof. unfold connsched. keep. Qed.
#[export] Instance upd_tube_stat_keeps t f : Keeps R 0 (upd_tube_stat t f).
Proof. unfold upd_tube_stat. keep. Qed.
#[export] Instance upd_global_stat_keeps f : Keeps R 0 (upd_global_stat f).
Proof. unfold upd_global_stat. keep. Qed.
Lemma upd_rec_keeps j f : (∀ r, r_body_size (f r) = r_body_size r) → Keeps R 0 (upd_rec j f).
Proof. intros Hf. unfold upd_rec. apply (keeps_job R ok). intros J. apply Hf. Qed.
#[local] Hint Extern 1 (Keeps _ _ (upd_rec _ _)) => apply upd_rec_keeps; done : typeclass_instances.
#[export] Instance tube_of_keeps j : Keeps R 0 (tube_of j).
Proof. unfold tube_of. keep. Qed.
#[export] Instance conn_reserve_job_keeps c j : Keeps R 0 (conn_reserve_job c j).
Proof. unfold conn_reserve_job. keep. Qed.
#[export] Instance conndeadlinesoon_keeps c : Keeps R 0 (conndeadlinesoon c).
Proof. unfold conndeadlinesoon. keep. Qed.
#[export] Instance conn_ready_loop_keeps watch : Keeps R 0 (conn_ready_loop watch).
Proof. induction watch as [|x watch IH]; intros; cbn [conn_ready_loop]; keep. Qed.
#[export] Instance conn_ready_keeps c : Keeps R 0 (conn_ready c).
Proof. unfold conn_ready. keep. Qed.

(** The queue. *)
Lemma push_keeps c : Allowed ok c → Keeps R 0 (
  s ← gets id; update st_conns c (fun C => C <| c_next := epollq s |>);; modify (fun s => s <| epollq := Some c |>)).
Proof.
  intros Hc s r s'. unfold gets, update, deref, gets, modify, mbind, M_bind. simpl.
  destruct (st_conns s !! c) as [C|] eqn:HC; simpl; [|done]. intros [= _ <-]. by eapply fr_push.
Qed.
#[export] Instance epollq_add_keeps c rw : Allowed ok c → Keeps R 0 (epollq_add c rw).
Proof. intros Hc. unfold epollq_add. apply (keeps_bind R); [exact _|intros _].
  apply (keeps_bind R); [exact _|intros _]. by apply push_keeps. Qed.
#[export] Instance reply_keeps c line len state : Allowed ok c → Keeps R 0 (reply (Some c) line len state).
Proof. intros. unfold reply. keep. Qed.
#[export] Instance reply_msg_keeps c m : Allowed ok c → Keeps R 0 (reply_msg c m).
Proof. intros. unfold reply_msg. keep. Qed.
#[export] Instance reply_serr_keeps c e : Allowed ok c → Keeps R 0 (reply_serr c e).
Proof. intros. unfold reply_serr. keep. Qed.
#[export] Instance reply_line_keeps c state line : Allowed ok c → Keeps R 0 (reply_line c state line).
Proof. intros. unfold reply_line. keep. Qed.
#[export] Instance reply_job_keeps c j m : Allowed ok c → Keeps R 0 (reply_job c j m).
Proof. intros. unfold reply_job. keep. Qed.
(** Fewer connections wait for a tube. *)
Lemma waiting_less_keeps {A} s t T a (k : M A) r s' :
  st_tubes s !! t = Some T → (∀ c, c ∈ ms_items a → c ∈ ms_items (t_waiting_conns T)) →
  (∀ s1 r s2, s1 = s <| st_tubes ::= <[t := T <| t_waiting_conns := a |>]> |> → k s1 = Ret r s2 → R 0 s s1 → R 0 s s2) →
  (update st_tubes t (fun T => T <| t_waiting_conns := a |>);; k) s = Ret r s' → R 0 s s'.
Proof.
  intros HT Ha Hk. unfold update, deref, gets, mbind, M_bind. simpl. rewrite HT. simpl. intros Hr.
  eapply Hk; [reflexivity|exact Hr|]. eapply fr_view, view_tube. intros c Hc%Ha. by eapply listed_tube.
Qed.

#[export] Instance remove_waiting_conn_keeps c : Keeps R 0 (remove_waiting_conn c).
Proof.
  unfold remove_waiting_conn. assert (∀ t, Keeps R 0 (T ← deref st_tubes t;
    match ms_remove c (t_waiting_conns T) with
    | Some (_, a) => update st_tubes t (fun T => T <| t_waiting_conns := a |>)
    | None => mret tt
    end)); [|keep].
  intros t. apply keeps_bind_deref. intros s T [] s' HT.
  destruct (decide (c ∈ ms_items (t_waiting_conns T))) as [Hin|Hin].
  - destruct (ms_remove_Some c _ Hin) as (a & -> & Hp & _). intros Hr.
    apply (waiting_less_keeps s t T a (mret tt) tt s' HT).
    + intros x Hx. rewrite <- Hp. by right.
    + by intros s1 r s2 -> [= _ <-].
    + revert Hr. unfold mbind, M_bind. destruct (update _ _ _ _) as [[] s1|]; [|done]. by intros [= <-].
  - rewrite ms_remove_None by done. intros [= <-]. by eapply fr_view.
Qed.

#[export] Instance remove_ready_job_keeps j : Keeps R 0 (remove_ready_job j).
Proof. unfold remove_ready_job. keep. Qed.
#[export] Instance remove_buried_job_keeps j : Keeps R 0 (remove_buried_job j).
Proof. unfold remove_buried_job. keep. Qed.
#[export] Instance remove_delayed_job_keeps j : Keeps R 0 (remove_delayed_job j).
Proof. unfold remove_delayed_job. keep. Qed.
#[export] Instance next_awaited_job_loop_keeps l now j : Keeps R 0 (next_awaited_job_loop l now j).
Proof. revert now j. induction l as [|x l IH]; intros; cbn [next_awaited_job_loop]; keep. Qed.
#[export] Instance next_awaited_job_keeps now : Keeps R 0 (next_awaited_job now).
Proof. unfold next_awaited_job. keep. Qed.
#[export] Instance process_one_keeps j : Keeps R 0 (process_one j).
Proof.
  unfold process_one. apply (keeps_bind R); [exact _|]. intros [j'|]; [|keep].
  apply (keeps_bind R); [exact _|intros t]. apply keeps_bind_deref. intros s T [] s' HT.
  destruct (decide (ms_items (t_waiting_conns T) = [])) as [Hnil|Hne].
  - rewrite ms_take_None by done. cbv zeta. apply (waiting_less_keeps s t T); [done..|].
    by intros s1 r s2 _ [= _ <-].
  - destruct (ms_take_Some _ Hne) as (c & a & -> & Hp & _). cbv zeta. intros Hr.
    assert (listed s c) as Hl by (eapply listed_tube; [done|]; rewrite <- Hp; by left).
    apply (fr_listed (R := R) (ok := ok)) in Hl as [Hc|Hc]; [|apply Hc].
    assert (Allowed ok c) by exact Hc. eapply waiting_less_keeps; [done| | |exact Hr].
    + intros x Hx. rewrite <- Hp. by right.
    + intros s1 r s2 _ Hk H1. apply (fr_trans 0 0 s s1); [done|].
      match type of Hk with ?k _ = _ => assert (Keeps R 0 k) as Hkk by keep end. by eapply Hkk.
Qed.
#[export] Instance process_queue_loop_keeps fuel now : Keeps R 0 (process_queue_loop fuel now).
Proof. revert now. induction fuel as [|fuel IH]; intros; cbn [process_queue_loop]; keep. Qed.
#[export] Instance process_queue_keeps : Keeps R 0 process_queue.
Proof. unfold process_queue. keep. Qed.
#[export] Instance soonest_delayed_job_loop_keeps l j : Keeps R 0 (soonest_delayed_job_loop l j).
Proof. revert j. induction l as [|x l IH]; intros; cbn [soonest_delayed_job_loop]; keep. Qed.
#[export] Instance soonest_delayed_job_keeps : Keeps R 0 soonest_delayed_job.
Proof. unfold soonest_delayed_job. keep. Qed.
#[export] Instance enqueue_insert_keeps j delay : Keeps R 0 (enqueue_insert j delay).
Proof. unfold enqueue_insert. keep. Qed.
#[export] Instance enqueue_job_keeps j delay update_store : Keeps R 0 (enqueue_job j delay update_store).
Proof. unfold enqueue_job. keep. Qed.
#[export] Instance bury_insert_keeps j : Keeps R 0 (bury_insert j).
Proof. unfold bury_insert. keep. Qed.
#[export] Instance reserve_update_keeps j : Keeps R 0 (reserve_update j).
Proof. unfold reserve_update. keep. Qed.
#[export] Instance bury_job_keeps j update_store : Keeps R 0 (bury_job j update_store).
Proof. unfold bury_job. keep. Qed.
#[export] Instance job_of_node_keeps n : Keeps R 0 (job_of_node n).
Proof. unfold job_of_node. keep. Qed.
#[export] Instance enqueue_reserved_jobs_loop_keeps fuel c : Keeps R 0 (enqueue_reserved_jobs_loop fuel c).
Proof. revert c. induction fuel as [|fuel IH]; intros; cbn [enqueue_reserved_jobs_loop]; keep. Qed.
#[export] Instance enqueue_reserved_jobs_keeps c : Keeps R 0 (enqueue_reserved_jobs c).
Proof. unfold enqueue_reserved_jobs. keep. Qed.
#[export] Instance kick_buried_job_keeps j : Keeps R 0 (kick_buried_job j).
Proof. unfold kick_buried_job. keep. Qed.
#[export] Instance kick_delayed_job_keeps j : Keeps R 0 (kick_delayed_job j).
Proof. unfold kick_delayed_job. keep. Qed.
#[export] Instance get_delayed_job_ct_keeps : Keeps R 0 get_delayed_job_ct.
Proof. unfold get_delayed_job_ct. apply (keeps_bind R); [exact _|intros s]. generalize 0.
  induction (ms_items (tubes s)) as [|t l IH]; intros; [keep|]. apply (keeps_bind R); [exact _|]. intros. apply IH. Qed.
#[export] Instance buried_job_p_keeps t : Keeps R 0 (buried_job_p t).
Proof. unfold buried_job_p. keep. Qed.
#[export] Instance kick_buried_jobs_loop_keeps fuel t n i : Keeps R 0 (kick_buried_jobs_loop fuel t n i).
Proof. revert t n i. induction fuel as [|fuel IH]; intros; cbn [kick_buried_jobs_loop]; keep. Qed.
#[export] Instance kick_delayed_jobs_loop_keeps fuel t n i : Keeps R 0 (kick_delayed_jobs_loop fuel t n i).
Proof. revert t n i. induction fuel as [|fuel IH]; intros; cbn [kick_delayed_jobs_loop]; keep. Qed.
#[export] Instance kick_buried_jobs_keeps t n : Keeps R 0 (kick_buried_jobs t n).
Proof. unfold kick_buried_jobs. keep. Qed.
#[export] Instance kick_delayed_jobs_keeps t n : Keeps R 0 (kick_delayed_jobs t n).
Proof. unfold kick_delayed_jobs. keep. Qed.
#[export] Instance kick_jobs_keeps t n : Keeps R 0 (kick_jobs t n).
Proof. unfold kick_jobs. keep. Qed.
#[export] Instance is_job_reserved_by_conn_keeps c j : Keeps R 0 (is_job_reserved_by_conn c j).
Proof. unfold is_job_reserved_by_conn. keep. Qed.
#[export] Instance touch_job_keeps c j : Keeps R 0 (touch_job c j).
Proof. unfold touch_job. keep. Qed.
#[export] Instance remove_this_reserved_job_keeps c j : Keeps R 0 (remove_this_reserved_job c j).
Proof. unfold remove_this_reserved_job. keep. Qed.
#[export] Instance remove_reserved_job_keeps c j : Keeps R 0 (remove_reserved_job c j).
Proof. unfold remove_reserved_job. keep. Qed.

#[export] Instance sockwant_keeps c rw : Keeps R 0 (sockwant c rw).
Proof. unfold sockwant. keep. Qed.
End operations.

#[export] Hint Extern 1 (Keeps _ _ (tube_heapinsert _ _ _ _)) =>
  eapply tube_heapinsert_keeps; [exact _|done|apply job_setpos_fewer] : typeclass_instances.
#[export] Hint Extern 1 (Keeps _ _ (tube_heapremove _ _ _ _)) =>
  eapply tube_heapremove_keeps; [exact _|done|apply job_setpos_fewer] : typeclass_instances.
#[export] Hint Extern 1 (Keeps _ _ (upd_rec _ _)) => eapply upd_rec_keeps; [exact _|done] : typeclass_instances.
