(* ===== verification/TableSpec.v ===== *)
(** What the table of all jobs and the job lists promise: the table implements
    a finite map from ids to jobs, the lists are queues. *)
From S2P Require Import Prelude Heap Ms State Monad JobList JobHash Conn Queue.
#[local] Open Scope Z_scope.

(** ** The table *)

Section table.
Context {E : Env}.
Implicit Types (s : St) (m : gmap Z jobp) (j : jobp).

(** The table of [s] represents [m], and looking up any id in it gives what
    [m] has, without changing the state. *)
Definition implements (m : gmap Z jobp) (s : St) : Prop :=
  table_rep (st_jobs s) (st_table s) m ∧
  ∀ id, 0 <= id → job_find id s = Ret (m !! id) s.

Lemma table_implements m s : table_rep (st_jobs s) (st_table s) m → implements m s.
Proof.
  intros Ht. split; [done|]. intros id Hid.
  assert (wp (job_find id) (λ r s', r = m !! id ∧ s' = s) s) as Hwp by (by eapply wp_job_find).
  by apply wp_Ret in Hwp as (r & s' & -> & -> & ->).
Qed.

(** C10: [store_job] inserts the job in the finite map that the table implements,
    whatever rehashing it triggers, and changes nothing of the jobs but the
    links of the chains; [job_find] then sees the new map. *)
Theorem store_job_inserts s m j Jb :
  table_rep (st_jobs s) (st_table s) m → st_jobs s !! j = Some Jb → 0 <= r_id (j_r Jb) →
  m !! r_id (j_r Jb) = None → (∀ id', m !! id' ≠ Some j) → Z.of_nat (size m) < table_max →
  ∃ s', store_job j s = Ret tt s' ∧ implements (<[r_id (j_r Jb) := j]> m) s' ∧
    same_but_ht (st_jobs s) (st_jobs s').
Proof.
  intros Ht HJ Hid Hm Hj Hmax.
  assert (wp (store_job j) (λ _ s', implements (<[r_id (j_r Jb) := j]> m) s' ∧
    same_but_ht (st_jobs s) (st_jobs s')) s) as Hwp.
  { eapply wp_store_job; [done..|]. intros J T n HT HJs _. split; [|done].
    by apply table_implements. }
  apply wp_Ret in Hwp as ([] & s' & ? & ? & ?). by exists s'.
Qed.

(** C11: [job_hash_free] deletes the job from the finite map that the table
    implements, whatever rehashing it triggers; every other job is still
    found. *)
Theorem job_hash_free_deletes s m id j :
  table_rep (st_jobs s) (st_table s) m → m !! id = Some j →
  ∃ s', job_hash_free j s = Ret tt s' ∧ implements (delete id m) s' ∧
    same_but_ht (st_jobs s) (st_jobs s').
Proof.
  intros Ht Hm. destruct (tr_id _ _ _ Ht _ _ Hm) as (_ & Jb & HJ & _).
  assert (wp (job_hash_free j) (λ _ s', implements (delete id m) s' ∧
    same_but_ht (st_jobs s) (st_jobs s')) s) as Hwp.
  { eapply wp_job_hash_free; [done..|]. intros J T n HT HJs _. split; [|done].
    by apply table_implements. }
  apply wp_Ret in Hwp as ([] & s' & ? & ? & ?). by exists s'.
Qed.
End table.

(** ** Lists *)

Section lists.
Implicit Types (s : St) (h n : node) (l : list node).

(** C23: a job list is a queue: [job_list_insert] appends at the end,
    [job_list_remove] takes any element out and leaves it in no list, and both
    keep the other lists. *)
Theorem job_list_is_queue s h l n l1 x l2 :
  dll (st_links s) h l → isolated (st_links s) n → n ∉ h :: l → l ++ [n] = l1 ++ x :: l2 →
  ∃ s1 s2, job_list_insert h n s = Ret tt s1 ∧ dll (st_links s1) h (l ++ [n]) ∧
    job_list_remove (Some x) s1 = Ret (Some x) s2 ∧
    dll (st_links s2) h (l1 ++ l2) ∧ isolated (st_links s2) x ∧
    ∀ m, m ∉ n :: h :: l → st_links s2 !! m = st_links s !! m.
Proof.
  intros Hd Hi Hn Hsplit.
  destruct (link_insert_dll _ _ _ _ Hd Hi Hn) as [Hd1 Ho1].
  set (s1 := s <| st_links ::= link_insert h n |>).
  assert (wp (job_list_insert h n) (λ _ s', s' = s1) s) as H1 by (by eapply wp_job_list_insert).
  apply wp_Ret in H1 as ([] & ? & Heq1 & ->).
  assert (dll (st_links s1) h (l1 ++ x :: l2)) as Hd1' by (by rewrite <- Hsplit).
  destruct (link_remove_dll _ _ _ _ _ Hd1') as (Hd2 & Hi2 & Ho2).
  set (s2 := s1 <| st_links ::= link_remove x |>).
  assert (wp (job_list_remove (Some x)) (λ r s', r = Some x ∧ s' = s2) s1) as H2
    by (by eapply wp_job_list_remove).
  apply wp_Ret in H2 as (r & ? & Heq2 & -> & ->).
  exists s1, s2. split_and!; try done. intros m Hm.
  transitivity (st_links s1 !! m); [|by apply Ho1]. apply Ho2.
  rewrite <- Hsplit. set_solver.
Qed.
End lists.

(** ** Examples *)

Definition env0 : Env := {|
  e_clock := λ n, 1000 * Z.of_nat n;
  e_malloc := λ _, Some 1%positive;
  e_read := λ _ _ _, IoErr EAGAIN;
  e_write := λ _ _ d, IoOk (length d);
  e_epoll_ctl := λ _ _, true;
  e_falloc := λ _ _, true;
|}.

Definition a_job (id : Z) : Job :=
  mkJob (mkJobrec id 0 0 0 2 0 0 0 0 0 0 0 Ready) None None 0 None None 0 0 [] 2.
Definition start (J : gmap jobp Job) (T : JobTable) (L : gmap node (node * node)) : St :=
  mkSt J ∅ ∅ ∅ L ∅ T (mkConnCounts 0 0 0 0) ms_init None 0 0 [] stats_zero false 0 None 65535
    (mkWal 0 false None None None 0 0 0 0 0 0 false 0 0) heap_empty [] 0.

Lemma table_init_rep J : table_rep J table_init ∅.
Proof. apply (table_empty J table_init 12289); [reflexivity|simpl; lia]. Qed.

Lemma store_job_inserts_witness (s := start {[1%positive := a_job 7]} table_init ∅) :
  ∃ s', @store_job env0 1%positive s = Ret tt s' ∧
    implements (<[7 := 1%positive]> ∅) s' ∧ same_but_ht (st_jobs s) (st_jobs s').
Proof.
  apply (@store_job_inserts env0 s ∅ 1%positive (a_job 7)).
  - apply table_init_rep.
  - reflexivity.
  - simpl. lia.
  - reflexivity.
  - intros id'. rewrite lookup_empty. done.
  - vm_compute. reflexivity.
Defined.

Definition one_table : JobTable := mkJobTable 8 0 {[7 := 1%positive]} 12289 1 false.
Lemma one_table_rep : table_rep {[1%positive := a_job 7]} one_table {[7 := 1%positive]}.
Proof.
  split; try (simpl; lia); try done.
  - intros i Hi. simpl in Hi. destruct (decide (i = 7)) as [->|Hne].
    + exists [1%positive]. split_and!.
      * split; [reflexivity|]. exists (a_job 7). split; reflexivity.
      * apply NoDup_singleton.
      * intros j. rewrite list_elem_of_singleton. split.
        -- intros ->. exists 7. split; reflexivity.
        -- intros (id & [_ <-]%lookup_singleton_Some & _). done.
    + exists []. split_and!; [|constructor|].
      * apply lookup_singleton_None. done.
      * intros j. split; [set_solver|]. intros (id & [<- _]%lookup_singleton_Some & Hi').
        change (7 = i) in Hi'. congruence.
  - intros id j [<- <-]%lookup_singleton_Some. split; [lia|]. by eexists.
Qed.

Lemma job_hash_free_deletes_witness (s := start {[1%positive := a_job 7]} one_table ∅) :
  ∃ s', @job_hash_free env0 1%positive s = Ret tt s' ∧
    implements (delete 7 {[7 := 1%positive]}) s' ∧ same_but_ht (st_jobs s) (st_jobs s').
Proof.
  apply (@job_hash_free_deletes env0 s {[7 := 1%positive]} 7 1%positive).
  - exact one_table_rep.
  - reflexivity.
Defined.

Definition one_link : gmap node (node * node) :=
  list_to_map
    [ (NBuried 1%positive, (NJob 1, NJob 1)); (NJob 1%positive, (NBuried 1, NBuried 1));
      (NJob 2%positive, (NJob 2, NJob 2)) ]%positive.

Lemma job_list_is_queue_witness (s := start ∅ table_init one_link)
    (h := NBuried 1) (n1 := NJob 1) (n2 := NJob 2) :
  ∃ s1 s2, job_list_insert h n2 s = Ret tt s1 ∧ dll (st_links s1) h ([n1] ++ [n2]) ∧
    job_list_remove (Some n1) s1 = Ret (Some n1) s2 ∧
    dll (st_links s2) h ([] ++ [n2]) ∧ isolated (st_links s2) n1 ∧
    ∀ m, m ∉ n2 :: h :: [n1] → st_links s2 !! m = st_links s !! m.
Proof.
  apply (job_list_is_queue s h [n1] n2 [] n1 [n2]).
  - split; [apply NoDup_cons; split; [set_solver|apply NoDup_singleton]|]. cbn [seg]. split_and!; reflexivity.
  - reflexivity.
  - set_solver.
  - reflexivity.
Defined.
