(* ===== verification/QueueRep.v ===== *)
(** What the queue is: an assignment of places to jobs.

    [queue_rep P ids X s] says that the heaps, the lists and the job records of
    the state [s] represent the finite map [P] from jobs to places.  It is the
    abstraction function of the queue; the operations are specified by their
    effect on [P].  A job that is live but has no place is being moved, received
    or sent.  [ids] is the table of all jobs by id, and [X] the connections
    whose cached soonest job is being recomputed.

    [wait_rep Y s] relates the set of waiting connections of each tube to the
    flags and watch lists of the connections, those of [Y] being in transit. *)
From S2P Require Import Prelude Heap Ms State Monad JobList JobHash Tube Job Wal Conn Queue.
#[local] Open Scope Z_scope.

Inductive place :=
  | InReady (t : tubep) | InDelay (t : tubep) | InBuried (t : tubep) | InReserved (c : connp).
#[export] Instance place_eq_dec : EqDecision place.
Proof. solve_decision. Defined.

Abbreviation places := (gmap jobp place).

(** The record of a job agrees with its place. *)
Definition fits (J : Job) (p : place) : Prop :=
  match p with
  | InReady t => r_state (j_r J) = Ready ∧ j_tube J = Some t
  | InDelay t => r_state (j_r J) = Delayed ∧ j_tube J = Some t
  | InBuried t => r_state (j_r J) = Buried ∧ j_tube J = Some t
  | InReserved c => r_state (j_r J) = Reserved ∧ j_reserver J = Some c
  end.

(** The header of the list a place stands for. *)
Definition header (p : place) : option node :=
  match p with
  | InBuried t => Some (NBuried t)
  | InReserved c => Some (NReserved c)
  | _ => None
  end.

(** The heap of timers, and the connections in it. *)
Definition timers (Cs : gmap connp Conn) (h : Heap connp) : Prop :=
  heap_shape h ∧ ∀ c, c ∈ elems h → is_Some (Cs !! c).

(** [j] has the least deadline of the jobs reserved by [c]. *)
Definition soonest_of (P : places) (J : gmap jobp Job) (c : connp) (j : jobp) : Prop :=
  P !! j = Some (InReserved c) ∧
  ∀ x Xb Jb, P !! x = Some (InReserved c) → J !! x = Some Xb → J !! j = Some Jb →
    r_deadline_at (j_r Jb) <= r_deadline_at (j_r Xb).

Record queue_rep (P : places) (ids : gmap Z jobp) (X : gset connp) (s : St) : Prop := {
  qr_place j p : P !! j = Some p →
    ∃ J t T, st_jobs s !! j = Some J ∧ fits J p ∧ j_tube J = Some t ∧
      st_tubes s !! t = Some T ∧ (∀ c, p = InReserved c → is_Some (st_conns s !! c));
  qr_ids j J : st_jobs s !! j = Some J →
    r_state (j_r J) ≠ Copy ↔ ids !! r_id (j_r J) = Some j;
  qr_ready t T : st_tubes s !! t = Some T →
    heap_rep r_pri (st_jobs s) (t_ready T) (λ j, P !! j = Some (InReady t));
  qr_delay t T : st_tubes s !! t = Some T →
    heap_rep r_deadline_at (st_jobs s) (t_delay T) (λ j, P !! j = Some (InDelay t));
  qr_buried t T : st_tubes s !! t = Some T →
    list_rep (st_links s) (NBuried t) (λ j, P !! j = Some (InBuried t));
  qr_reserved c C : st_conns s !! c = Some C →
    list_rep (st_links s) (NReserved c) (λ j, P !! j = Some (InReserved c));
  qr_free j J : st_jobs s !! j = Some J → P !! j ≫= header = None →
    isolated (st_links s) (NJob j);
  qr_tubes : NoDup (ms_items (tubes s)) ∧
    ∀ t, t ∈ ms_items (tubes s) → is_Some (st_tubes s !! t);
  qr_conns : timers (st_conns s) (srv_conns s);
  qr_soonest c C j : c ∉ X → st_conns s !! c = Some C → c_soonest_job C = Some j →
    soonest_of P (st_jobs s) c j;
  qr_listed j J t : st_jobs s !! j = Some J → j_tube J = Some t → t ∈ ms_items (tubes s);
}.

Record wait_rep (Y : gset connp) (s : St) : Prop := {
  wr_watch c C : st_conns s !! c = Some C →
    NoDup (ms_items (c_watch C)) ∧ ∀ t, t ∈ ms_items (c_watch C) → is_Some (st_tubes s !! t);
  wr_nodup t T : st_tubes s !! t = Some T → NoDup (ms_items (t_waiting_conns T));
  wr_sound t T c : st_tubes s !! t = Some T → c ∈ ms_items (t_waiting_conns T) →
    ∃ C, st_conns s !! c = Some C ∧ t ∈ ms_items (c_watch C) ∧
      (c ∉ Y → conn_waiting C = true);
}.

(** ** Frames *)

(** The fields of each object that [queue_rep] looks at. *)
Definition q_rec (r : Jobrec) : Jobrec :=
  mkJobrec (r_id r) (r_pri r) 0 0 0 0 (r_deadline_at r) 0 0 0 0 0 (r_state r).
Definition q_job (J : Job) : Job :=
  mkJob (q_rec (j_r J)) (j_tube J) None (j_heap_index J) None (j_reserver J) 0 0 [] 0.
Definition q_tube (T : Tube) : Tube :=
  mkTube 0 [] (t_ready T) (t_delay T) ms_init stats_zero 0 0 0 0.
Definition q_conn (C : Conn) : Conn :=
  conn_zero <| c_soonest_job := c_soonest_job C |>.

(** The fields that [wait_rep] looks at. *)
Definition w_tube (T : Tube) : Tube :=
  mkTube 0 [] heap_empty heap_empty (mkMs (ms_items (t_waiting_conns T)) 0 0) stats_zero 0 0 0 0.
Definition w_conn (C : Conn) : Conn :=
  conn_zero <| c_type := Z.land (c_type C) CONN_TYPE_WAITING |>
    <| c_watch := mkMs (ms_items (c_watch C)) 0 0 |>.

Record queue_sim (s s' : St) : Prop := {
  qs_jobs : same_but q_job (st_jobs s) (st_jobs s');
  qs_tubes : same_but q_tube (st_tubes s) (st_tubes s');
  qs_conns : same_but q_conn (st_conns s) (st_conns s');
  qs_links : st_links s' = st_links s;
  qs_set : ms_items (tubes s') = ms_items (tubes s);
  qs_heap : timers (st_conns s) (srv_conns s) → timers (st_conns s) (srv_conns s');
}.

Record wait_sim (s s' : St) : Prop := {
  ws_tubes : same_but w_tube (st_tubes s) (st_tubes s');
  ws_conns : same_but w_conn (st_conns s) (st_conns s');
}.

Section frames.
Implicit Types (P : places) (ids : gmap Z jobp) (X Y : gset connp) (s : St).

Lemma q_job_inv J J' :
  q_job J' = q_job J →
  r_id (j_r J') = r_id (j_r J) ∧ r_pri (j_r J') = r_pri (j_r J) ∧
  r_deadline_at (j_r J') = r_deadline_at (j_r J) ∧ r_state (j_r J') = r_state (j_r J) ∧
  j_tube J' = j_tube J ∧ j_heap_index J' = j_heap_index J ∧ j_reserver J' = j_reserver J.
Proof. unfold q_job, q_rec. intros [= ???????]. done. Qed.

Lemma fits_q J J' p : q_job J' = q_job J → fits J p → fits J' p.
Proof.
  intros (_ & _ & _ & Hs & Ht & _ & Hr)%q_job_inv. destruct p; simpl; congruence.
Qed.

Lemma heap_rep_q f J J' h M :
  (∀ A A', q_job A' = q_job A → f (j_r A') = f (j_r A)) →
  same_but q_job J J' → heap_rep f J h M → heap_rep f J' h M.
Proof.
  intros Hf HJ. apply heap_rep_fields. intros x A _ HA.
  destruct (same_but_lookup _ _ _ _ _ HJ HA) as (A' & ? & He). exists A'.
  pose proof (Hf _ _ He). apply q_job_inv in He. naive_solver.
Qed.

Lemma soonest_of_q P J J' c j :
  same_but q_job J J' → soonest_of P J c j → soonest_of P J' c j.
Proof.
  intros HJ [Hj Hm]. split; [done|]. intros x Xb' Jb' Hx HX HJb.
  destruct (same_but_lookup_inv _ _ _ _ _ HJ HX) as (Xb & ? & (_ & _ & -> & _)%q_job_inv).
  destruct (same_but_lookup_inv _ _ _ _ _ HJ HJb) as (Jb & ? & (_ & _ & -> & _)%q_job_inv).
  eauto.
Qed.

Lemma timers_dom (Cs Cs' : gmap connp Conn) h : dom Cs ⊆ dom Cs' → timers Cs h → timers Cs' h.
Proof.
  intros HC [Hs Hl]. split; [done|]. intros c Hc%Hl. rewrite <- elem_of_dom in *. by apply HC.
Qed.

(** The representation does not see the other fields. *)
Lemma queue_rep_sim P ids X s s' :
  queue_sim s s' → queue_rep P ids X s → queue_rep P ids X s'.
Proof.
  intros [SJ ST SC SL SS SH] [Hpl Hid Hre Hde Hbu Hrs Hfr [Hnd Htu] Hco Hso Hli]. split.
  - intros j p (J & t & T & HJ & Hf & Ht & HT & HC)%Hpl.
    destruct (same_but_lookup _ _ _ _ _ SJ HJ) as (J' & HJ' & HqJ).
    destruct (same_but_lookup _ _ _ _ _ ST HT) as (T' & HT' & _).
    exists J', t, T'. split_and!; [done|by eapply fits_q| |done|].
    + apply q_job_inv in HqJ as (_ & _ & _ & _ & -> & _). done.
    + intros c (C & HC')%HC. destruct (same_but_lookup _ _ _ _ _ SC HC') as (? & ? & _). eauto.
  - intros j J' (J & HJ & HqJ)%(same_but_lookup_inv _ _ _ _ _ SJ).
    apply q_job_inv in HqJ as (-> & _ & _ & -> & _). by apply Hid.
  - intros t T' (T & HT & [= Heq _])%(same_but_lookup_inv _ _ _ _ _ ST). rewrite Heq.
    eapply heap_rep_q; [|done|by apply Hre]. intros A A' HA%q_job_inv. tauto.
  - intros t T' (T & HT & [= _ Heq])%(same_but_lookup_inv _ _ _ _ _ ST). rewrite Heq.
    eapply heap_rep_q; [|done|by apply Hde]. intros A A' HA%q_job_inv. tauto.
  - intros t T' (T & HT & _)%(same_but_lookup_inv _ _ _ _ _ ST). rewrite SL. eauto.
  - intros c C' (C & HC & _)%(same_but_lookup_inv _ _ _ _ _ SC). rewrite SL. eauto.
  - intros j J' (J & HJ & _)%(same_but_lookup_inv _ _ _ _ _ SJ). rewrite SL. eauto.
  - rewrite SS. split; [done|]. intros t Ht%Htu. apply elem_of_dom.
    rewrite (same_but_dom _ _ _ ST). by apply elem_of_dom.
  - eapply timers_dom; [|by apply SH]. by rewrite (same_but_dom _ _ _ SC).
  - intros c C' j HX (C & HC & Heq)%(same_but_lookup_inv _ _ _ _ _ SC) Hj.
    apply (f_equal c_soonest_job) in Heq. unfold q_conn in Heq. rsimpl_in Heq.
    eapply soonest_of_q; [done|]. apply (Hso c C); congruence.
  - intros j J' t (J & HJ & (_ & _ & _ & _ & -> & _)%q_job_inv)%(same_but_lookup_inv _ _ _ _ _ SJ).
    rewrite SS. by apply (Hli j).
Qed.

Lemma w_conn_inv C C' :
  w_conn C' = w_conn C →
  conn_waiting C' = conn_waiting C ∧ ms_items (c_watch C') = ms_items (c_watch C).
Proof.
  intros H. pose proof (f_equal c_type H) as H1. pose proof (f_equal c_watch H) as H2.
  unfold w_conn in *. rsimpl. unfold conn_waiting. rewrite H1. by injection H2.
Qed.

Lemma wait_rep_sim Y s s' : wait_sim s s' → wait_rep Y s → wait_rep Y s'.
Proof.
  intros [ST SC] [Hw Hnd Hso]. split.
  - intros c C' (C & HC & (_ & ->)%w_conn_inv)%(same_but_lookup_inv _ _ _ _ _ SC).
    destruct (Hw c C HC) as [? Hl]. split; [done|]. intros t Ht%Hl.
    rewrite <- elem_of_dom in Ht |- *. by rewrite (same_but_dom _ _ _ ST).
  - intros t T' (T & HT & [= Heq])%(same_but_lookup_inv _ _ _ _ _ ST). rewrite Heq. eauto.
  - intros t T' c (T & HT & [= Heq])%(same_but_lookup_inv _ _ _ _ _ ST). rewrite Heq.
    intros (C & HC & ? & ?)%(Hso t T c HT).
    destruct (same_but_lookup _ _ _ _ _ SC HC) as (C' & ? & (Hwt & Hwa)%w_conn_inv).
    exists C'. rewrite Hwa, Hwt. eauto.
Qed.

Lemma wait_rep_mono Y Y' s : Y ⊆ Y' → wait_rep Y s → wait_rep Y' s.
Proof.
  intros HY [Hw Hnd Hso]. split; auto.
  - intros t T c HT Hc. destruct (Hso t T c HT Hc) as (C & ? & ? & ?).
    exists C. split_and!; auto.
Qed.

#[export] Instance queue_sim_pre : PreOrder queue_sim.
Proof.
  split; [by split|]. intros s1 s2 s3 [J1 T1 C1 L1 S1 H1] [J2 T2 C2 L2 S2 H2].
  split; try (by etrans). intros HT. pose proof (same_but_dom _ _ _ C1) as Hd.
  eapply timers_dom; [|apply H2; eapply timers_dom; [|by apply H1]]; by rewrite Hd.
Qed.
#[export] Instance wait_sim_pre : PreOrder wait_sim.
Proof. split; [by split|]. intros s1 s2 s3 [T1 C1] [T2 C2]. split; by etrans. Qed.
End frames.

(** ** Moving one job *)

(** The two heaps of a tube: the ready heap is [true], the delay heap [false]. *)
Definition hp_sel (b : bool) : Tube → Heap jobp := if b then t_ready else t_delay.
#[export] Instance hp_setter b : Setter (hp_sel b) :=
  match b with true => set_t_ready | false => set_t_delay end.
Definition hp_key (b : bool) : Jobrec → Z := if b then r_pri else r_deadline_at.
Definition hp_place (b : bool) (t : tubep) : place := if b then InReady t else InDelay t.

(** [P] and [P'] differ at most in the place of [j], which is [p] or none. *)
Record move (P P' : places) (j : jobp) (p : place) : Prop := {
  mv_other x : x ≠ j → P' !! x = P !! x;
  mv_before : P !! j = None ∨ P !! j = Some p;
  mv_after : P' !! j = None ∨ P' !! j = Some p;
}.

Section moves.
Implicit Types (P : places) (ids : gmap Z jobp) (X : gset connp) (s : St) (j x : jobp) (p q : place).

Lemma move_place P P' j p q x :
  move P P' j p → q ≠ p → P' !! x = Some q ↔ P !! x = Some q.
Proof.
  intros [Ho Hb Ha] Hq. destruct (decide (x = j)) as [->|]; [|by rewrite Ho].
  destruct Hb as [-> | ->], Ha as [-> | ->]; naive_solver.
Qed.

Lemma move_delete P j p : P !! j = Some p → move P (delete j P) j p.
Proof.
  intros Hj. split; [intros x ?; by rewrite lookup_delete_ne|by right|left].
  apply lookup_delete_eq.
Qed.

Lemma move_insert P j p : P !! j = None → move P (<[j := p]> P) j p.
Proof.
  intros Hj. split; [intros x ?; by rewrite lookup_insert_ne|by left|right].
  apply lookup_insert_eq.
Qed.

(** The job has the same id, and the same tube if it has one. *)
Definition same_id (Jb Jb' : Job) : Prop :=
  r_id (j_r Jb') = r_id (j_r Jb) ∧ ∀ t, j_tube Jb' = Some t → j_tube Jb = Some t.

(** The record of the job that moves: it keeps its id, is not a copy, and
    agrees with its new place. *)
Definition moved (s : St) (ids : gmap Z jobp) (Jb' : Job) (P' : places) (j : jobp) : Prop :=
  ∃ Jb, st_jobs s !! j = Some Jb ∧ same_id Jb Jb' ∧
    ids !! r_id (j_r Jb) = Some j ∧ r_state (j_r Jb') ≠ Copy ∧
    ∀ p, P' !! j = Some p → fits Jb' p ∧
      ∃ t T, j_tube Jb' = Some t ∧ st_tubes s !! t = Some T ∧
        ∀ c, p = InReserved c → is_Some (st_conns s !! c).

Lemma soonest_of_frame P P' J J' c j :
  (∀ x, P' !! x = Some (InReserved c) ↔ P !! x = Some (InReserved c)) →
  (∀ x A', P !! x = Some (InReserved c) → J' !! x = Some A' →
     ∃ A, J !! x = Some A ∧ r_deadline_at (j_r A') = r_deadline_at (j_r A)) →
  soonest_of P J c j → soonest_of P' J' c j.
Proof.
  intros HP HJ [Hj Hm]. split; [by apply HP|]. intros x A' B' Hx HA HB.
  apply HP in Hx. destruct (HJ x A' Hx HA) as (A & ? & ->), (HJ j B' Hj HB) as (B & ? & ->).
  eauto.
Qed.

Lemma erase_pos_inv J J' :
  erase_pos J' = erase_pos J →
  j_r J' = j_r J ∧ j_tube J' = j_tube J ∧ j_reserver J' = j_reserver J ∧
  j_ht_next J' = j_ht_next J.
Proof.
  intros H. pose proof (f_equal j_r H). pose proof (f_equal j_tube H).
  pose proof (f_equal j_reserver H). pose proof (f_equal j_ht_next H).
  unfold erase_pos in *. by rsimpl.
Qed.

Lemma fits_pos J J' p : erase_pos J' = erase_pos J → fits J p → fits J' p.
Proof.
  intros (Hr & Ht & Hs & _)%erase_pos_inv. destruct p; simpl; rewrite Hr; congruence.
Qed.

(** The other heap and the other tubes have other places. *)
Lemma hp_place_neq b t q :
  (header q ≠ None ∨ (∃ t', t' ≠ t ∧ (q = InReady t' ∨ q = InDelay t'))
     ∨ q = hp_place (negb b) t) → q ≠ hp_place b t.
Proof.
  intros [Hq|[(t' & Ht & [->| ->])| ->]] Heq; subst; destruct b; simpl in *; congruence.
Qed.

Lemma move_before_neq P P' j p q : move P P' j p → q ≠ p → P !! j ≠ Some q.
Proof. intros [_ [-> | ->] _] ?; congruence. Qed.

(** Inserting [j] in a heap of the tube [t], or removing it. *)
Section heap_move.
Context (b : bool) (P P' : places) (ids : gmap Z jobp) (X : gset connp) (s : St).
Context (t : tubep) (T : Tube) (j : jobp) (Jm : gmap jobp Job) (Jb' : Job) (h' : Heap jobp).
Context (HR : queue_rep P ids X s) (HT : st_tubes s !! t = Some T).
Context (Hmv : move P P' j (hp_place b t)).
Context (Hpos : ∀ x, x ≠ j → erase_pos <$> Jm !! x = erase_pos <$> st_jobs s !! x).
Context (Hsame : ∀ x, x ≠ j → P !! x ≠ Some (hp_place b t) → Jm !! x = st_jobs s !! x).
Context (HJb' : Jm !! j = Some Jb') (Hmoved : moved s ids Jb' P' j).
Context (Hh' : heap_rep (hp_key b) Jm h' (λ x, P' !! x = Some (hp_place b t))).

Definition heap_moved : St :=
  s <| st_jobs := Jm |> <| st_tubes ::= <[t := T <| hp_sel b := h' |>]> |>.

Local Lemma hm_back x A' :
  x ≠ j → Jm !! x = Some A' →
  ∃ A, st_jobs s !! x = Some A ∧ erase_pos A' = erase_pos A.
Proof.
  clear -Hpos. intros Hx HA. specialize (Hpos x Hx). rewrite HA in Hpos.
  destruct (st_jobs s !! x) as [A|]; [|done]. apply (inj Some) in Hpos. eauto.
Qed.

Local Lemma hm_fwd x A :
  x ≠ j → st_jobs s !! x = Some A →
  ∃ A', Jm !! x = Some A' ∧ erase_pos A' = erase_pos A.
Proof.
  clear -Hpos. intros Hx HA. specialize (Hpos x Hx). rewrite HA in Hpos.
  destruct (Jm !! x) as [A'|]; [|done]. apply (inj Some) in Hpos. eauto.
Qed.

Local Lemma hm_tube t' :
  is_Some (st_tubes heap_moved !! t') ↔ is_Some (st_tubes s !! t').
Proof.
  clear -HT. unfold heap_moved. rsimpl. destruct (decide (t' = t)) as [->|].
  - rewrite lookup_insert_eq, HT. split; eauto.
  - by rewrite lookup_insert_ne.
Qed.

Local Lemma hm_other f h q :
  q ≠ hp_place b t → heap_rep f (st_jobs s) h (λ x, P !! x = Some q) →
  heap_rep f Jm h (λ x, P' !! x = Some q).
Proof.
  clear -Hmv Hsame. intros Hq Hh.
  apply (heap_rep_iff _ _ _ (λ x, P !! x = Some q)).
  { intros x. symmetry. by eapply move_place. }
  eapply heap_rep_other; [|exact Hh]. intros x Hx.
  assert (x ≠ j). { intros ->. by eapply move_before_neq. }
  apply Hsame; [done|]. congruence.
Qed.

Local Lemma hm_place x p :
  P' !! x = Some p →
  ∃ J t0 T0, st_jobs heap_moved !! x = Some J ∧ fits J p ∧ j_tube J = Some t0 ∧
    st_tubes heap_moved !! t0 = Some T0 ∧ (∀ c, p = InReserved c → is_Some (st_conns s !! c)).
Proof.
  intros Hx.
  assert (∃ J t0 T0, Jm !! x = Some J ∧ fits J p ∧ j_tube J = Some t0 ∧
            st_tubes s !! t0 = Some T0 ∧ (∀ c, p = InReserved c → is_Some (st_conns s !! c)))
    as (J & t0 & T0 & HJ & Hf & Ht0 & HT0 & HC).
  { destruct (decide (x = j)) as [->|Hxj].
    - destruct Hmoved as (Jb & _ & _ & _ & _ & Hf).
      destruct (Hf p Hx) as (Hfit & t0 & T0 & ? & ? & ?). by exists Jb', t0, T0.
    - rewrite (mv_other _ _ _ _ Hmv x Hxj) in Hx.
      destruct (qr_place _ _ _ _ HR x p Hx) as (J & t0 & T0 & HJ & Hfit & Ht0 & HT0 & HC).
      destruct (hm_fwd x J Hxj HJ) as (J' & HJ' & He).
      pose proof (fits_pos _ _ p He Hfit). apply erase_pos_inv in He as (_ & Htb & _).
      exists J', t0, T0. split_and!; (done || congruence). }
  destruct (proj2 (hm_tube t0)) as [T1 HT1]; [eauto|]. exists J, t0, T1.
  by split_and!.
Qed.

(** Both heaps of the tube. *)
Local Lemma hm_heaps (T' := T <| hp_sel b := h' |>) :
  heap_rep r_pri Jm (t_ready T') (λ x, P' !! x = Some (InReady t)) ∧
  heap_rep r_deadline_at Jm (t_delay T') (λ x, P' !! x = Some (InDelay t)).
Proof.
  assert (heap_rep (hp_key (negb b)) (st_jobs s) (hp_sel (negb b) T)
            (λ x, P !! x = Some (hp_place (negb b) t))) as Ho.
  { clear -HR HT. destruct b; [by apply (qr_delay _ _ _ _ HR)|by apply (qr_ready _ _ _ _ HR)]. }
  apply hm_other in Ho; [|apply hp_place_neq; by right; right].
  clear -Ho Hh'. subst T'. by destruct b.
Qed.

Lemma queue_rep_heap : queue_rep P' ids X heap_moved.
Proof.
  pose proof HR as [_ Hid Hre Hde Hbu Hrs Hfr [Hnd Htu] Hco Hso Hli]. split; try done.
  - intros x p Hx. destruct (hm_place x p Hx) as (J & t0 & T0 & ? & ? & ? & ? & ?).
    by exists J, t0, T0.
  - intros x A'. unfold heap_moved; rsimpl. intros HA.
    destruct (decide (x = j)) as [->|Hxj].
    + destruct Hmoved as (Jb & _ & [Hidj _] & Hids & Hc & _). simplify_eq. by rewrite Hidj.
    + destruct (hm_back x A' Hxj HA) as (A & HA0 & (Hr & _)%erase_pos_inv).
      rewrite Hr. eauto.
  - intros t' T'. unfold heap_moved; rsimpl. destruct (decide (t' = t)) as [->|Hne].
    + rewrite lookup_insert_eq. intros [= <-]. apply (proj1 hm_heaps).
    + rewrite lookup_insert_ne by done. intros HT'.
      apply hm_other; [apply hp_place_neq; right; left; eauto|by apply Hre].
  - intros t' T'. unfold heap_moved; rsimpl. destruct (decide (t' = t)) as [->|Hne].
    + rewrite lookup_insert_eq. intros [= <-]. apply (proj2 hm_heaps).
    + rewrite lookup_insert_ne by done. intros HT'.
      apply hm_other; [apply hp_place_neq; right; left; eauto|by apply Hde].
  - intros t' T' HT'. destruct (proj1 (hm_tube t')) as [T0 HT0]; [eauto|].
    eapply list_rep_iff; [|by eapply Hbu]. intros x. symmetry.
    eapply move_place; [done|apply hp_place_neq; by left].
  - intros c C HC. eapply list_rep_iff; [|by eapply Hrs]. intros x. symmetry.
    eapply move_place; [done|apply hp_place_neq; by left].
  - intros x A'. unfold heap_moved; rsimpl. intros HA Hx.
    destruct (decide (x = j)) as [->|Hxj].
    + destruct Hmoved as (Jb & HJb & _). apply (Hfr j Jb HJb).
      destruct (mv_before _ _ _ _ Hmv) as [-> | ->]; [done|]. clear. by destruct b.
    + destruct (hm_back x A' Hxj HA) as (A & HA0 & _). apply (Hfr x A HA0).
      by rewrite <- (mv_other _ _ _ _ Hmv x Hxj).
  - split; [done|]. intros t'. rewrite hm_tube. apply Htu.
  - intros c C x HX HC Hx. eapply soonest_of_frame; [..|by eapply Hso].
    + intros y. eapply move_place; [done|apply hp_place_neq; by left].
    + intros y A' Hy HA. assert (y ≠ j) as Hyj.
      { intros ->. eapply move_before_neq; [done| |done]. apply hp_place_neq. by left. }
      destruct (hm_back y A' Hyj HA) as (A & ? & (Hr & _)%erase_pos_inv).
      exists A. by rewrite Hr.
  - intros x A' t'. unfold heap_moved; rsimpl. intros HA Ht'.
    destruct (decide (x = j)) as [->|Hxj].
    + destruct Hmoved as (Jb & HJb & [_ Hidt] & _). simplify_eq. eauto.
    + destruct (hm_back x A' Hxj HA) as (A & ? & (_ & Hta & _)%erase_pos_inv).
      apply (Hli x A); [done|congruence].
Qed.
End heap_move.

Lemma header_inj p q n : header p = Some n → header q = Some n → p = q.
Proof. destruct p, q; simpl; congruence. Qed.

Lemma header_not_job p n j : header p = Some n → n ≠ NJob j.
Proof. destruct p; simpl; congruence. Qed.

(** The connection whose list changes must recompute its soonest job. *)
Definition exempt (p : place) (X : gset connp) : gset connp :=
  match p with InReserved c => {[c]} ∪ X | _ => X end.

(** Inserting [j] in a list, or removing it. *)
Section list_move.
Context (P P' : places) (ids : gmap Z jobp) (X : gset connp) (s : St) (p0 : place).
Context (h : node) (j : jobp) (Jb' : Job) (L' : linkmap).
Context (HR : queue_rep P ids X s) (Hmv : move P P' j p0) (Hh : header p0 = Some h).
Context (HL : list_rep L' h (λ x, P' !! x = Some p0)).
Context (Hother : ∀ n, ¬ in_list h (λ x, P !! x = Some p0) n → n ≠ NJob j →
           L' !! n = st_links s !! n).
Context (Hiso : P' !! j = None → isolated L' (NJob j)).
Context (Hmoved : moved s ids Jb' P' j).

Definition list_moved : St :=
  s <| st_jobs ::= <[j := Jb']> |> <| st_links := L' |>.

Local Lemma lm_not_heap q : header q = None → q ≠ p0.
Proof. clear -Hh. intros Hq ->. congruence. Qed.

Local Lemma lm_heap f hp q :
  header q = None → heap_rep f (st_jobs s) hp (λ x, P !! x = Some q) →
  heap_rep f (<[j := Jb']> (st_jobs s)) hp (λ x, P' !! x = Some q).
Proof.
  clear -Hmv Hh. intros Hq%lm_not_heap Hr.
  apply (heap_rep_iff _ _ _ (λ x, P !! x = Some q)).
  { intros x. symmetry. by eapply move_place. }
  eapply heap_rep_other; [|exact Hr]. intros x Hx.
  rewrite lookup_insert_ne; [done|]. intros <-. by eapply move_before_neq.
Qed.

Local Lemma lm_list q hq :
  header q = Some hq → list_rep (st_links s) hq (λ x, P !! x = Some q) →
  list_rep L' hq (λ x, P' !! x = Some q).
Proof.
  clear -Hmv Hh HL Hother. intros Hq Hr. destruct (decide (q = p0)) as [->|Hne].
  { rewrite Hh in Hq. by simplify_eq. }
  eapply list_rep_iff; [intros x; symmetry; by eapply move_place|].
  eapply list_rep_ext; [|exact Hr]. intros n Hn. apply Hother.
  - intros [->|(x & -> & Hx)].
    + destruct Hn as [->|(x & -> & _)]; [by eapply Hne, header_inj|].
      by eapply (header_not_job _ _ x Hh).
    + destruct Hn as [Heq|(y & [= <-] & Hy)]; [|congruence].
      by eapply (header_not_job _ _ x Hq).
  - destruct Hn as [->|(x & -> & Hx)]; [by apply (header_not_job _ _ j Hq)|].
    intros [= ->]. by eapply move_before_neq.
Qed.

Local Lemma lm_place x p :
  P' !! x = Some p →
  ∃ J t T, st_jobs list_moved !! x = Some J ∧ fits J p ∧ j_tube J = Some t ∧
    st_tubes s !! t = Some T ∧ (∀ c, p = InReserved c → is_Some (st_conns s !! c)).
Proof.
  intros Hx. unfold list_moved. rsimpl. destruct (decide (x = j)) as [->|Hxj].
  - destruct Hmoved as (Jb & _ & _ & _ & _ & Hf).
    destruct (Hf p Hx) as (Hfit & t0 & T0 & ? & ? & ?).
    exists Jb', t0, T0. by rewrite lookup_insert_eq.
  - rewrite (mv_other _ _ _ _ Hmv x Hxj) in Hx.
    rewrite lookup_insert_ne by done. by apply (qr_place _ _ _ _ HR).
Qed.

Local Lemma lm_free x J :
  st_jobs list_moved !! x = Some J → P' !! x ≫= header = None → isolated L' (NJob x).
Proof.
  unfold list_moved. rsimpl. intros HJ Hx. destruct (decide (x = j)) as [->|Hxj].
  { destruct (mv_after _ _ _ _ Hmv) as [Hn|Hp]; [by apply Hiso|].
    rewrite Hp in Hx. simpl in Hx. congruence. }
  rewrite (mv_other _ _ _ _ Hmv x Hxj) in Hx.
  unfold isolated. rewrite Hother.
  - rewrite lookup_insert_ne in HJ by done. by apply (qr_free _ _ _ _ HR x J).
  - intros [Heq|(y & [= <-] & Hy)].
    + by eapply (header_not_job _ _ x Hh).
    + rewrite Hy in Hx. simpl in Hx. congruence.
  - congruence.
Qed.

Lemma queue_rep_list : queue_rep P' ids (exempt p0 X) list_moved.
Proof.
  pose proof HR as [_ Hid Hre Hde Hbu Hrs _ [Hnd Htu] Hco Hso Hli]. split; try done.
  - exact lm_place.
  - intros x A'. unfold list_moved; rsimpl. intros HA.
    destruct (decide (x = j)) as [->|Hxj].
    + destruct Hmoved as (Jb & _ & [Hidj _] & Hids & Hc & _).
      rewrite lookup_insert_eq in HA. simplify_eq. by rewrite Hidj.
    + rewrite lookup_insert_ne in HA by done. eauto.
  - intros t T HT. apply lm_heap; [done|by apply Hre].
  - intros t T HT. apply lm_heap; [done|by apply Hde].
  - intros t T HT. apply lm_list; [done|by eapply Hbu].
  - intros c C HC. apply lm_list; [done|by eapply Hrs].
  - exact lm_free.
  - intros c C x HX HC Hx.
    assert (InReserved c ≠ p0 ∧ c ∉ X) as [Hne HcX].
    { clear -HX. destruct p0; simpl in HX; split; try done; [intros [= ->]|]; set_solver. }
    eapply soonest_of_frame; [..|by eapply Hso].
    + intros y. by eapply move_place.
    + intros y A' Hy. unfold list_moved. rsimpl.
      rewrite lookup_insert_ne; [eauto|]. intros <-. by eapply move_before_neq.
  - intros x A' t. unfold list_moved; rsimpl. intros HA Ht.
    destruct (decide (x = j)) as [->|Hxj].
    + destruct Hmoved as (Jb & HJb & [_ Hidt] & _). rewrite lookup_insert_eq in HA. simplify_eq. eauto.
    + rewrite lookup_insert_ne in HA by done. eauto.
Qed.
End list_move.

(** The record of a job without a place may change, except for its id. *)
Lemma queue_rep_detached_tube P ids X s j Jb Jb' :
  queue_rep P ids X s → P !! j = None → st_jobs s !! j = Some Jb →
  r_id (j_r Jb') = r_id (j_r Jb) → (∀ t, j_tube Jb' = Some t → t ∈ ms_items (tubes s)) →
  (r_state (j_r Jb') = Copy ↔ r_state (j_r Jb) = Copy) →
  queue_rep P ids X (s <| st_jobs ::= <[j := Jb']> |>).
Proof.
  intros [Hpl Hid Hre Hde Hbu Hrs Hfr Htu Hco Hso Hli] Hj HJb Hidj Hidt Hcp.
  assert (∀ x q, P !! x = Some q → <[j := Jb']> (st_jobs s) !! x = st_jobs s !! x) as Hx.
  { intros x q Hq. apply lookup_insert_ne. congruence. }
  split; rsimpl; try done.
  - intros x p Hp. rewrite (Hx x p Hp). by apply Hpl.
  - intros x A HA. destruct (decide (x = j)) as [->|].
    + rewrite lookup_insert_eq in HA. simplify_eq. rewrite Hidj, <- (Hid _ _ HJb). by rewrite Hcp.
    + rewrite lookup_insert_ne in HA by done. by apply Hid.
  - intros t T HT. eapply heap_rep_other; [|by apply Hre]. intros x. apply Hx.
  - intros t T HT. eapply heap_rep_other; [|by apply Hde]. intros x. apply Hx.
  - intros x A HA Hn. destruct (decide (x = j)) as [->|]; [by eapply Hfr|].
    rewrite lookup_insert_ne in HA by done. by eapply Hfr.
  - intros c C x HX HC Hxc. eapply soonest_of_frame; [done| |by eapply Hso].
    intros y A' Hy. rewrite (Hx y _ Hy). eauto.
  - intros x A t HA Ht. destruct (decide (x = j)) as [->|].
    + rewrite lookup_insert_eq in HA. simplify_eq. eauto.
    + rewrite lookup_insert_ne in HA by done. eauto.
Qed.

Lemma queue_rep_detached P ids X s j Jb Jb' :
  queue_rep P ids X s → P !! j = None → st_jobs s !! j = Some Jb →
  same_id Jb Jb' → (r_state (j_r Jb') = Copy ↔ r_state (j_r Jb) = Copy) →
  queue_rep P ids X (s <| st_jobs ::= <[j := Jb']> |>).
Proof.
  intros HR Hj HJb [Hid Ht] Hcp. eapply queue_rep_detached_tube; [done..| |done].
  intros t Htb. eapply qr_listed; [done|done|by apply Ht].
Qed.
End moves.
