(* ===== verification/QueueOps.v ===== *)
(** The operations on the queue as updates of the places of jobs: the specs of
    the procedures that [process_queue] and [enqueue_job] are made of. *)
From S2P Require Import Prelude Heap Ms State Monad JobList JobHash Tube Job Wal Conn Queue QueueRep.
#[local] Open Scope Z_scope.

(** ** What the queue never touches *)

(** Scheduling changes the following fields only. *)
Definition z_job (J : Job) : Job :=
  J <| j_heap_index := 0%nat |> <| j_reserver := None |> <| j_walresv := 0 |>
    <| j_r ::= fun r => r <| r_state := Invalid |> <| r_deadline_at := 0 |>
         <| r_reserve_ct := 0 |> <| r_bury_ct := 0 |> <| r_kick_ct := 0 |> |>.
Definition z_tube (T : Tube) : Tube :=
  T <| t_ready := heap_empty |> <| t_delay := heap_empty |> <| t_waiting_conns := ms_init |>
    <| t_stat := stats_zero |> <| t_pause := 0 |>.
Definition z_conn (C : Conn) : Conn :=
  C <| c_type := 0 |> <| c_state := STATE_CLOSE |> <| c_next := None |> <| c_tickat := 0 |>
    <| c_tickpos := 0%nat |> <| c_in_conns := false |> <| c_soonest_job := None |>
    <| c_rw := "000"%char |> <| c_pending_timeout := 0 |> <| c_reply := [] |>
    <| c_reply_len := 0%nat |> <| c_reply_sent := 0%nat |> <| c_out_job := None |>
    <| c_out_job_sent := 0%nat |>.
Definition z_core (s : St) : St :=
  s <| st_jobs := ∅ |> <| st_tubes := ∅ |> <| st_conns := ∅ |> <| st_links := ∅ |>
    <| ready_ct := 0 |> <| global_stat := stats_zero |> <| epollq := None |>
    <| srv_conns := heap_empty |> <| st_tick := 0%nat |> <| op_ct := [] |> <| timeout_ct := 0 |>
    <| st_counts := mkConnCounts 0 0 0 0 |> <| st_trace := [] |>.

Record qframe (s s' : St) : Prop := {
  qf_core : z_core s' = z_core s;
  qf_jobs : same_but z_job (st_jobs s) (st_jobs s');
  qf_tubes : same_but z_tube (st_tubes s) (st_tubes s');
  qf_conns : same_but z_conn (st_conns s) (st_conns s');
}.

#[export] Instance qframe_pre : PreOrder qframe.
Proof.
  split; [by split|]. intros s1 s2 s3 [c1 j1 t1 n1] [c2 j2 t2 n2].
  split; [congruence|by etrans..].
Qed.

Lemma qframe_tubes s s' : qframe s s' → tubes s' = tubes s.
Proof. intros [H _ _ _]. exact (f_equal tubes H). Qed.
Lemma qframe_size s s' : qframe s s' → size (st_jobs s') = size (st_jobs s).
Proof. intros H. eapply same_but_size, qf_jobs, H. Qed.

(** [same_but] for a chain of updates at known addresses. *)
Ltac solve_same_but :=
  rsimpl; rewrite ?insert_insert_eq; repeat first
    [ reflexivity
    | assumption
    | match goal with |- same_but _ (<[_:=_]> _) (<[_:=_]> _) =>
        apply same_but_insert_2; [ | reflexivity ] end
    | eapply same_but_insert; [ | wlookup | reflexivity ] ].
Ltac solve_frame := split; rsimpl; first [ done | solve_same_but ].

Lemma erase_pos_z J J' : same_but erase_pos J J' → same_but z_job J J'.
Proof. by apply same_but_mono. Qed.

(** A step that moves jobs but touches no connection. *)
Record job_step (s s' : St) : Prop := {
  js_wait : wait_sim s s';
  js_frame : qframe s s';
  js_conns : st_conns s' = st_conns s;
}.
#[export] Instance job_step_pre : PreOrder job_step.
Proof.
  split; [by split|]. intros s1 s2 s3 [w1 f1 c1] [w2 f2 c2].
  split; [by etrans|by etrans|congruence].
Qed.

(** A step that only counts, or looks at the clock. *)
Record quiet (s s' : St) : Prop := {
  qu_queue : queue_sim s s';
  qu_step : job_step s s';
  qu_jobs : st_jobs s' = st_jobs s;
  qu_links : st_links s' = st_links s;
}.
#[export] Instance quiet_pre : PreOrder quiet.
Proof.
  split; [by split|]. intros s1 s2 s3 [q1 f1 j1 l1] [q2 f2 j2 l2].
  split; [by etrans|by etrans|congruence|congruence].
Qed.
Ltac solve_quiet := split; rsimpl; [solve_frame|split; rsimpl; [solve_frame..|done]|done..].

(** The records of the other jobs do not change, except for their position in a
    heap. *)
Definition only (j : jobp) (s s' : St) : Prop :=
  ∀ x, x ≠ j → erase_pos <$> st_jobs s' !! x = erase_pos <$> st_jobs s !! x.
#[export] Instance only_pre j : PreOrder (only j).
Proof. split; [by intros s x|]. intros s1 s2 s3 H1 H2 x Hx. by rewrite H2, H1. Qed.

Lemma only_quiet j s s' : quiet s s' → only j s s'.
Proof. intros [_ _ H _] x _. by rewrite H. Qed.
Lemma only_pos j s s' : same_but erase_pos (st_jobs s) (st_jobs s') → only j s s'.
Proof. intros H x _. by rewrite <- !lookup_fmap, H. Qed.
Lemma only_insert j s s' m Jb :
  same_but erase_pos (st_jobs s) m → st_jobs s' = <[j := Jb]> m → only j s s'.
Proof.
  intros H Hs x Hx. rewrite Hs, lookup_insert_ne by done. by rewrite <- !lookup_fmap, H.
Qed.
Lemma only_insert_eq j s s' Jb : st_jobs s' = <[j := Jb]> (st_jobs s) → only j s s'.
Proof. by apply only_insert. Qed.

(** Steps are chained through the intermediate states at hand. *)
Ltac solve_step :=
  first
    [ assumption
    | reflexivity
    | match goal with
      | H : job_step ?a ?b |- job_step ?a _ => transitivity b; [exact H|clear H; solve_step]
      | H : quiet ?a ?b |- job_step ?a _ => transitivity b; [apply (qu_step _ _ H)|clear H; solve_step]
      | H : quiet ?a ?b |- quiet ?a _ => transitivity b; [exact H|clear H; solve_step]
      | H : only ?j ?a ?b |- only ?j ?a _ => transitivity b; [exact H|clear H; solve_step]
      | H : quiet ?a ?b |- only _ ?a _ => transitivity b; [by apply only_quiet|clear H; solve_step]
      | H : qframe ?a ?b |- qframe ?a _ => transitivity b; [exact H|clear H; solve_step]
      | H : job_step ?a ?b |- qframe ?a _ =>
          transitivity b; [apply (js_frame _ _ H)|clear H; solve_step]
      | H : quiet ?a ?b |- qframe ?a _ =>
          transitivity b; [apply (js_frame _ _ (qu_step _ _ H))|clear H; solve_step]
      end ].
#[export] Hint Extern 1 (job_step _ _) => solve_step : queue.
#[export] Hint Extern 1 (quiet _ _) => solve_step : queue.
#[export] Hint Extern 1 (qframe _ _) => solve_step : queue.
#[export] Hint Extern 1 (only _ _ _) => solve_step : queue.
#[export] Hint Resolve only_quiet only_pos : queue.
#[export] Hint Resolve qu_queue qu_step js_frame js_wait js_conns : queue.

(** ** Heaps *)

Section ops.
Context {E : Env}.
Implicit Types (P : places) (ids : gmap Z jobp) (X Y : gset connp) (s : St).
Implicit Types (j : jobp) (t : tubep) (c : connp).

Lemma fits_not_copy J p : fits J p → r_state (j_r J) ≠ Copy.
Proof. destruct p; intros [H _]; congruence. Qed.

Lemma same_id_pos Jb Jb' : erase_pos Jb' = erase_pos Jb → same_id Jb Jb'.
Proof. intros (Hr & Ht & _)%erase_pos_inv. split; [by rewrite Hr|congruence]. Qed.
Lemma same_id_z Jb Jb' : z_job Jb' = z_job Jb → same_id Jb Jb'.
Proof.
  intros Hz. assert (j_tube Jb' = j_tube Jb) as Ht by exact (f_equal j_tube Hz).
  split; [exact (f_equal (λ J, r_id (j_r J)) Hz)|congruence].
Qed.

Lemma moved_away P ids X s j p Jb Jb' :
  queue_rep P ids X s → P !! j = Some p → st_jobs s !! j = Some Jb →
  same_id Jb Jb' → r_state (j_r Jb') ≠ Copy → moved s ids Jb' (delete j P) j.
Proof.
  intros HR Hj HJb Hid Hcp. destruct (qr_place _ _ _ _ HR j p Hj) as (J & _ & _ & HJ & Hf & _).
  simplify_eq. exists Jb. split_and!; [done|done| |done|].
  - apply (qr_ids _ _ _ _ HR j Jb HJb). by eapply fits_not_copy.
  - intros q. by rewrite lookup_delete_eq.
Qed.

Lemma wp_dequeue b P ids X s t j Jb (Q : option jobp → St → Prop) :
  queue_rep P ids X s → P !! j = Some (hp_place b t) → st_jobs s !! j = Some Jb →
  (∀ T J' h', st_tubes s !! t = Some T → same_but erase_pos (st_jobs s) J' →
     let s' := s <| st_jobs := J' |> <| st_tubes ::= <[t := T <| hp_sel b := h' |>]> |> in
     queue_rep (delete j P) ids X s' → Q (Some j) s') →
  wp (tube_heapremove (hp_sel b) (job_ops (rec_less (hp_key b))) t (j_heap_index Jb)) Q s.
Proof.
  intros HR Hj HJb HQ.
  destruct (qr_place _ _ _ _ HR j _ Hj) as (J & t' & T & HJ & Hf & Ht & HT & _). simplify_eq.
  assert (t' = t) as -> by (destruct b; simpl in Hf; destruct Hf; congruence).
  assert (heap_rep (hp_key b) (st_jobs s) (hp_sel b T) (λ x, P !! x = Some (hp_place b t))) as Hh.
  { clear -HR HT. destruct b; [by apply (qr_ready _ _ _ _ HR)|by apply (qr_delay _ _ _ _ HR)]. }
  destruct (heap_rep_remove _ _ _ _ _ _ Hh Hj HJb) as (h' & J' & Heq & Hh' & Hs & Ho).
  unfold tube_heapremove. wsteps. unfold from_option. rewrite Heq. wsteps.
  apply HQ; [done|done|].
  destruct (same_but_lookup _ _ _ _ _ Hs HJb) as (Jb' & HJb' & He).
  eapply (queue_rep_heap b); try done.
  - by apply move_delete.
  - intros x Hx. rewrite <- !lookup_fmap. by rewrite Hs.
  - intros x Hx Hp. by apply Ho.
  - eapply moved_away; [done|done|done|by apply same_id_pos|].
    apply erase_pos_inv in He as (-> & _). by eapply fits_not_copy.
  - eapply heap_rep_iff; [|exact Hh']. intros x. cbv beta.
    destruct (decide (x = j)) as [->|]; [rewrite lookup_delete_eq; naive_solver|].
    rewrite lookup_delete_ne by done. tauto.
Qed.

Lemma heap_same b s t T :
  st_tubes s !! t = Some T →
  s <| st_jobs := st_jobs s |> <| st_tubes ::= <[t := T <| hp_sel b := hp_sel b T |>]> |> = s.
Proof.
  intros HT. assert (T <| hp_sel b := hp_sel b T |> = T) as -> by (by destruct b, T).
  destruct s. unfold rupd, set_st_jobs, set_st_tubes. simpl in *. by rewrite insert_id.
Qed.

(** A job without a place is put in a heap: [rset] is what the caller then
    stores in its record. *)
Lemma wp_enheap b P ids X s t j Jb (Q : bool → St → Prop) (rset : Jobrec → Jobrec) :
  queue_rep P ids X s → P !! j = None → st_jobs s !! j = Some Jb →
  r_state (j_r Jb) ≠ Copy → j_tube Jb = Some t → is_Some (st_tubes s !! t) →
  (∀ r, r_id (rset r) = r_id r ∧ hp_key b (rset r) = hp_key b r ∧
        r_state (rset r) = if b then Ready else Delayed) →
  Q false (s <| st_tick ::= S |>) →
  (∀ n T J' h' Jb', st_tubes s !! t = Some T → same_but erase_pos (st_jobs s) J' →
     J' !! j = Some Jb' →
     let s' := s <| st_tick := n |> <| st_jobs := J' |>
                 <| st_tubes ::= <[t := T <| hp_sel b := h' |>]> |> in
     queue_rep (<[j := hp_place b t]> P) ids X
       (s' <| st_jobs ::= <[j := Jb' <| j_r ::= rset |>]> |>) → Q true s') →
  wp (tube_heapinsert (hp_sel b) (job_ops (rec_less (hp_key b))) t j) Q s.
Proof.
  intros HR Hj HJb Hcp Ht [T HT] Hrset Hfail HQ.
  assert (heap_rep (hp_key b) (st_jobs s) (hp_sel b T) (λ x, P !! x = Some (hp_place b t))) as Hh.
  { clear -HR HT. destruct b; [by apply (qr_ready _ _ _ _ HR)|by apply (qr_delay _ _ _ _ HR)]. }
  assert (distinct_ids (st_jobs s) (λ x, x = j ∨ P !! x = Some (hp_place b t))) as Hdis.
  { assert (∀ x, x = j ∨ P !! x = Some (hp_place b t) →
      ∃ A, st_jobs s !! x = Some A ∧ ids !! r_id (j_r A) = Some x) as Hids.
    { intros x [->|Hx].
      - exists Jb. split; [done|]. by apply (qr_ids _ _ _ _ HR).
      - destruct (qr_place _ _ _ _ HR x _ Hx) as (A & _ & _ & HA & Hf & _).
        exists A. split; [done|]. apply (qr_ids _ _ _ _ HR); [done|by eapply fits_not_copy]. }
    split.
    - intros x (A & ? & _)%Hids. eauto.
    - intros x y A B (A' & ? & HA)%Hids (B' & ? & HB)%Hids ?? Heq. simplify_eq. congruence. }
  unfold tube_heapinsert. wsteps.
  assert (∀ ok n, (h_len (hp_sel b T) = h_cap (hp_sel b T) → ok = true) →
    wp ('(r, (h, J)) ← from_option (heapinsert (job_ops (rec_less (hp_key b))) ok j (hp_sel b T, st_jobs s));
        modify (fun s => s <| st_jobs := J |> <| st_tubes ::= <[t := T <| hp_sel b := h |>]> |>);;
        mret r) Q (s <| st_tick := n |>)) as Hins.
  { intros ok n Hok.
    destruct (heap_rep_insert _ _ _ _ j ok Hh) as (h' & J' & Heq & Hh' & Hs & Ho);
      [by rewrite Hj|done|done|].
    unfold from_option. rewrite Heq. wsteps.
    destruct (same_but_lookup _ _ _ _ _ Hs HJb) as (Jb' & HJb' & He).
    apply (HQ n T J' h' Jb'); [done|done|done|].
    assert (queue_rep P ids X (s <| st_tick := n |>)) as HR'.
    { eapply queue_rep_sim; [|exact HR]. by split. }
    set (Jm := <[j := Jb' <| j_r ::= rset |>]> J').
    set (s1 := s <| st_tick := n |>).
    change (queue_rep (<[j := hp_place b t]> P) ids X (heap_moved b s1 t T Jm h')).
    apply (queue_rep_heap b P _ ids X s1 t T j Jm (Jb' <| j_r ::= rset |>) h');
      [done|done|by apply move_insert| | |apply lookup_insert_eq| |]; subst Jm.
    - intros x Hx. rewrite lookup_insert_ne by done. rewrite <- !lookup_fmap. by rewrite Hs.
    - intros x Hx Hp. rewrite lookup_insert_ne by done. by apply Ho.
    - apply erase_pos_inv in He as (Hr & Ht' & _).
      exists Jb. split_and!; [done| |by apply (qr_ids _ _ _ _ HR)| |].
      2: { rsimpl. destruct (Hrset (j_r Jb')) as (_ & _ & ->). by destruct b. }
      + split; rsimpl; [rewrite Hr; apply Hrset|by rewrite Ht'].
      + intros p. rewrite lookup_insert_eq. intros [= <-]. split.
        * destruct (Hrset (j_r Jb')) as (_ & _ & Hst). destruct b; simpl; rsimpl; split; congruence.
        * exists t, T. rsimpl. split_and!; [congruence|done|]. by destruct b.
    - apply (heap_rep_fields _ J').
      { intros x A _ HA. destruct (decide (x = j)) as [->|].
        - rewrite lookup_insert_eq. eexists; split; [done|]. rsimpl. simplify_eq.
          destruct (Hrset (j_r Jb')) as (? & ? & _). done.
        - rewrite lookup_insert_ne by done. eauto. }
      eapply heap_rep_iff; [|exact Hh']. intros x. cbv beta.
      destruct (decide (x = j)) as [->|]; [rewrite lookup_insert_eq; naive_solver|].
      rewrite lookup_insert_ne by done. naive_solver. }
  destruct (Nat.eqb_spec (h_len (hp_sel b T)) (h_cap (hp_sel b T))) as [Hfull|Hfull].
  - apply wp_malloc_ok. intros [].
    + wsteps. unfold Datatypes.id. rsimpl. by apply wp_bind_inv, (Hins true (S (st_tick s))).
    + wsteps. unfold Datatypes.id. rsimpl.
      unfold heapinsert. rewrite (proj2 (Nat.eqb_eq _ _) Hfull). simpl. wsteps.
      pose proof (heap_same b (s <| st_tick ::= S |>) t T HT) as He.
      revert Hfail. rewrite <- He at 1. exact id.
  - wsteps. unfold Datatypes.id.
    pose proof (Hins true (st_tick s) ltac:(congruence)) as H.
    assert (s <| st_tick := st_tick s |> = s) as Heq by (by destruct s).
    rewrite Heq in H. by apply wp_bind_inv, H.
Qed.

(** ** Taking a job out of its place *)

(** What removing a job from a heap changes besides the places. *)
Lemma wp_remove_ready_job P ids X s j t (Q : option jobp → St → Prop) :
  queue_rep P ids X s → P !! j = Some (InReady t) →
  (∀ s', queue_rep (delete j P) ids X s' → job_step s s' →
     same_but erase_pos (st_jobs s) (st_jobs s') → st_links s' = st_links s → Q (Some j) s') →
  wp (remove_ready_job (Some j)) Q s.
Proof.
  intros HR Hj HQ.
  destruct (qr_place _ _ _ _ HR j _ Hj) as (Jb & t' & T & HJb & Hf & Ht & HT & _).
  destruct Hf as [Hst Ht']. assert (t' = t) as -> by congruence.
  unfold remove_ready_job. wsteps. rewrite decide_False by (intros H; by rewrite Hst in H).
  wsteps. eapply (wp_dequeue true); [done|exact Hj|done|].
  intros T0 J' h' HT0 HJ'. simplify_eq. cbv zeta. intros HR'.
  set (s1 := rupd st_tubes _ _) in *.
  assert (job_step s s1) as Hs.
  { subst s1. split; rsimpl; [solve_frame| |done].
    split; rsimpl; [done|by apply erase_pos_z|solve_same_but|done]. }
  assert (st_tubes s1 !! t = Some (T <| hp_sel true := h' |>)) as HT1.
  { subst s1. rsimpl. apply lookup_insert_eq. }
  assert (∀ s', quiet s1 s' → Q (Some j) s') as HQ'.
  { intros s' [H1 H2 H3 H4]. apply HQ; [by eapply queue_rep_sim|by etrans|by rewrite H3|].
    rewrite H4. done. }
  wsteps. apply wp_if; intros _; unfold upd_global_stat, upd_tube_stat; wsteps;
    apply HQ'; solve_quiet.
Qed.

Lemma wp_remove_delayed_job P ids X s j t (Q : option jobp → St → Prop) :
  queue_rep P ids X s → P !! j = Some (InDelay t) →
  (∀ s', queue_rep (delete j P) ids X s' → job_step s s' →
     same_but erase_pos (st_jobs s) (st_jobs s') → st_links s' = st_links s → Q (Some j) s') →
  wp (remove_delayed_job (Some j)) Q s.
Proof.
  intros HR Hj HQ.
  destruct (qr_place _ _ _ _ HR j _ Hj) as (Jb & t' & T & HJb & Hf & Ht & HT & _).
  destruct Hf as [Hst Ht']. assert (t' = t) as -> by congruence.
  unfold remove_delayed_job. wsteps. rewrite decide_False by (intros H; by rewrite Hst in H).
  wsteps. eapply (wp_dequeue false); [done|exact Hj|done|].
  intros T0 J' h' HT0 HJ'. simplify_eq. cbv zeta. intros HR'. wsteps.
  apply HQ; rsimpl; try done. split; rsimpl; [solve_frame| |done].
  split; rsimpl; [done|by apply erase_pos_z|solve_same_but|done].
Qed.

(** Taking [j] out of the list of its place. *)
Lemma queue_rep_unlink P ids X s j p n Jb Jb' :
  queue_rep P ids X s → P !! j = Some p → header p = Some n → st_jobs s !! j = Some Jb →
  same_id Jb Jb' → r_state (j_r Jb') ≠ Copy →
  queue_rep (delete j P) ids (exempt p X)
    (s <| st_jobs ::= <[j := Jb']> |> <| st_links ::= link_remove (NJob j) |>).
Proof.
  intros HR Hj Hn HJb Hid Hcp.
  assert (list_rep (st_links s) n (λ x, P !! x = Some p)) as HL.
  { destruct (qr_place _ _ _ _ HR j p Hj) as (J & t & T & _ & Hf & Ht & HT & HC).
    destruct p; simplify_eq/=.
    - destruct Hf. simplify_eq. by apply (qr_buried _ _ _ _ HR _ T).
    - destruct (HC _ eq_refl) as [C HCc]. by apply (qr_reserved _ _ _ _ HR _ C). }
  destruct (list_rep_remove _ _ _ _ HL Hj) as (HL' & Hiso & Ho).
  change (queue_rep (delete j P) ids (exempt p X) (list_moved s j Jb' (link_remove (NJob j) (st_links s)))).
  eapply (queue_rep_list P); [done|by apply move_delete|done| | |done|].
  - eapply list_rep_iff; [|exact HL']. intros x. cbv beta.
    destruct (decide (x = j)) as [->|]; [rewrite lookup_delete_eq; naive_solver|].
    rewrite lookup_delete_ne by done. tauto.
  - intros m Hm _. by apply Ho.
  - by eapply moved_away.
Qed.

(** Putting [j] at the end of the list of the place [p]. *)
Lemma queue_rep_link P ids X s j p n Jb Jb' t T :
  queue_rep P ids X s → P !! j = None → header p = Some n → st_jobs s !! j = Some Jb →
  list_rep (st_links s) n (λ x, P !! x = Some p) →
  same_id Jb Jb' → r_state (j_r Jb) ≠ Copy → fits Jb' p →
  j_tube Jb' = Some t → st_tubes s !! t = Some T →
  (∀ c, p = InReserved c → is_Some (st_conns s !! c)) →
  queue_rep (<[j := p]> P) ids (exempt p X)
    (s <| st_jobs ::= <[j := Jb']> |> <| st_links ::= link_insert n (NJob j) |>).
Proof.
  intros HR Hj Hn HJb HL Hid Hcp Hf Ht HT HC.
  destruct (list_rep_insert (st_links s) n (λ x, P !! x = Some p) j HL) as [HL' Ho].
  { apply (qr_free _ _ _ _ HR j Jb HJb). by rewrite Hj. }
  { by rewrite Hj. }
  { by eapply header_not_job. }
  change (queue_rep (<[j := p]> P) ids (exempt p X)
    (list_moved s j Jb' (link_insert n (NJob j) (st_links s)))).
  eapply (queue_rep_list P); [done|by apply move_insert|done| |done|..].
  - eapply list_rep_iff; [|exact HL']. intros x. cbv beta.
    destruct (decide (x = j)) as [->|]; [rewrite lookup_insert_eq; naive_solver|].
    rewrite lookup_insert_ne by done. naive_solver.
  - intros H. by rewrite lookup_insert_eq in H.
  - exists Jb. split_and!; [done|done|by apply (qr_ids _ _ _ _ HR)|by eapply fits_not_copy|].
    intros q. rewrite lookup_insert_eq. intros [= <-]. split; [done|]. by exists t, T.
Qed.

(** ** Putting a job in a place *)

(** The state of a job that can be put somewhere: live, without a place. *)
Record loose (P : places) (s : St) (j : jobp) (t : tubep) (Jb : Job) : Prop := {
  lo_place : P !! j = None;
  lo_job : st_jobs s !! j = Some Jb;
  lo_state : r_state (j_r Jb) ≠ Copy;
  lo_tube : j_tube Jb = Some t;
  lo_live : is_Some (st_tubes s !! t);
}.

Lemma loose_quiet P s s' j t Jb : quiet s s' → loose P s j t Jb → loose P s' j t Jb.
Proof.
  intros [[_ Ht _ _ _ _] _ Hj _] [H1 H2 H3 H4 [T HT]]. split; try done; [congruence|].
  destruct (same_but_lookup _ _ _ _ _ Ht HT) as (? & ? & _). eauto.
Qed.

Lemma queue_rep_quiet P ids X s s' : quiet s s' → queue_rep P ids X s → queue_rep P ids X s'.
Proof. intros [H _ _ _]. by apply queue_rep_sim. Qed.

(** The record of a loose job may change in the fields of the queue. *)
Lemma loose_update P ids X s j t Jb Jb' (s' := s <| st_jobs ::= <[j := Jb']> |>) :
  queue_rep P ids X s → loose P s j t Jb → z_job Jb' = z_job Jb →
  r_state (j_r Jb') ≠ Copy →
  queue_rep P ids X s' ∧ loose P s' j t Jb' ∧ job_step s s' ∧ only j s s'.
Proof.
  intros HR [Hp HJ Hs Ht Hl] Hz Hs'.
  pose proof (f_equal (λ J, r_id (j_r J)) Hz) as Hid. pose proof (f_equal j_tube Hz) as Htb.
  unfold z_job in Hid, Htb. rsimpl. subst s'. split_and!.
  - eapply queue_rep_detached; [done..| |done]. by apply same_id_z.
  - split; rsimpl; try done; [apply lookup_insert_eq|congruence].
  - split; rsimpl; [by split| |done]. split; rsimpl; try done. by eapply same_but_insert.
  - by eapply only_insert_eq.
Qed.

Definition queue_place (t : tubep) (delay : Z) : place :=
  if delay =? 0 then InReady t else InDelay t.

(** [heapinsert] followed by the change of state. *)
Lemma wp_enheap_state (b : bool) P ids X s t j Jb (k : M bool) (Q : bool → St → Prop)
    (st : jobstate := if b then Ready else Delayed) :
  queue_rep P ids X s → loose P s j t Jb →
  (∀ s', quiet s s' → Q false s') →
  (∀ s' T, queue_rep (<[j := hp_place b t]> P) ids X s' → job_step s s' →
     only j s s' → is_Some (st_jobs s' !! j) → st_tubes s' !! t = Some T →
     wp k Q s') →
  wp (r ← tube_heapinsert (hp_sel b) (job_ops (rec_less (hp_key b))) t j;
      if negb r then mret false
      else upd_rec j (λ r : Jobrec, r <| r_state := st |>);; k) Q s.
Proof.
  intros HR HL HF HT. pose proof (lo_job _ _ _ _ _ HL) as HJb. apply wp_bind.
  eapply (wp_enheap b _ _ _ _ _ _ _ _ (λ r : Jobrec, r <| r_state := st |>)); try apply HL; try done.
  - intros r. by destruct b.
  - simpl. wsteps. apply HF. solve_quiet.
  - intros n T J' h' Jb' HTt HJ' HJb'. cbv zeta. intros HR2. simpl negb. cbv iota.
    unfold upd_rec. wsteps.
    eapply HT; [exact HR2| |by eapply (only_insert _ _ _ J')| |]; rsimpl; [| |apply lookup_insert_eq].
    + split; rsimpl; [destruct b; solve_frame| |done].
      split; rsimpl; [done| |destruct b; solve_same_but|done].
      eapply same_but_insert; [by apply erase_pos_z|exact HJb|].
      destruct (same_but_lookup _ _ _ _ _ HJ' HJb) as (Jx & HJx & He).
      rewrite HJb' in HJx. apply (inj Some) in HJx as <-.
      apply (f_equal z_job) in He. exact He.
    + rewrite lookup_insert_eq. eauto.
Qed.

Lemma wp_enqueue_insert P ids X s j t Jb delay (Q : bool → St → Prop) :
  queue_rep P ids X s → loose P s j t Jb →
  (∀ s' Jb', queue_rep P ids X s' → loose P s' j t Jb' → job_step s s' → only j s s' →
     Q false s') →
  (∀ s', queue_rep (<[j := queue_place t delay]> P) ids X s' → job_step s s' → only j s s' →
     Q true s') →
  wp (enqueue_insert j delay) Q s.
Proof.
  intros HR HL HF HT. unfold enqueue_insert. pose proof (lo_job _ _ _ _ _ HL) as HJb.
  wsteps.
  destruct (loose_update P ids X s j t Jb (Jb <| j_reserver := None |>) HR HL)
    as (HR1 & HL1 & Hs1 & Ho1); [done|apply HL|].
  set (s1 := rupd st_jobs _ s) in *. set (J1 := Jb <| j_reserver := None |>) in *.
  pose proof (lo_job _ _ _ _ _ HL1) as HJ1. pose proof (lo_tube _ _ _ _ _ HL1) as Ht1.
  unfold tube_of. wsteps. unfold queue_place in HT.
  destruct (Z.eqb_spec delay 0) as [->|Hd]; simpl negb; cbv iota.
  - apply (wp_enheap_state true P ids X s1 t j J1); [done|done| |].
    + intros s' Hq. eapply HF; [by eapply queue_rep_quiet|by eapply loose_quiet|..]; solve_step.
    + intros s2 T HR2 Hs2 Ho2 [J2 HJ2] HT2.
      assert (∀ s', quiet s2 s' → Q true s') as HQ'.
      { intros s' Hq. apply HT; [by eapply queue_rep_quiet|solve_step..]. }
      wsteps. apply wp_if; intros _; unfold upd_global_stat, upd_tube_stat; wsteps;
        apply HQ'; solve_quiet.
  - wsteps. unfold upd_rec at 1. wsteps.
    set (s2 := s1 <| st_tick ::= S |>).
    assert (quiet s1 s2) as Hq2 by (subst s2; solve_quiet).
    destruct (loose_update P ids X s2 j t J1 (J1 <| j_r ::= fun r => r <| r_deadline_at := t0 + delay |> |>))
      as (HR3 & HL3 & Hs3 & Ho3); [by eapply queue_rep_quiet|by eapply loose_quiet|done|apply HL1|].
    set (s3 := rupd st_jobs _ s2) in *.
    assert (job_step s s3 ∧ only j s s3) as [Hs03 Ho03] by (split; solve_step).
    set (J3 := rupd j_r _ J1) in HL3.
    apply wp_bind_inv, (wp_enheap_state false P ids X s3 t j J3 (mret true)); [done|exact HL3| |].
    + intros s' Hq. eapply HF; [by eapply queue_rep_quiet|by eapply loose_quiet|..]; solve_step.
    + intros s' T HR4 Hs4 Ho4 _ _. apply wp_ret. apply HT; [done|solve_step..].
Qed.

Lemma wp_bury_insert P ids X s j t Jb (Q : unit → St → Prop) :
  queue_rep P ids X s → loose P s j t Jb →
  (∀ s', queue_rep (<[j := InBuried t]> P) ids X s' → job_step s s' → only j s s' → Q tt s') →
  wp (bury_insert j) Q s.
Proof.
  intros HR [Hp HJb Hst Ht [T HT]] HQ. unfold bury_insert, tube_of. wsteps.
  pose proof (qr_buried _ _ _ _ HR t T HT) as HL.
  eapply wp_list_rep_insert; [exact HL| |by cbv beta; rewrite Hp|done|].
  { apply (qr_free _ _ _ _ HR j Jb HJb). by rewrite Hp. }
  unfold upd_global_stat, upd_tube_stat, upd_rec. wsteps.
  apply HQ.
  - eapply (queue_rep_sim _ _ _ (s
      <| st_jobs ::= <[j := Jb <| j_r ::= fun r => r <| r_state := Buried |> |>
                              <| j_reserver := None |> ]> |>
      <| st_links ::= link_insert (NBuried t) (NJob j) |>)); [solve_frame|].
    by eapply (queue_rep_link P ids X s j (InBuried t)).
  - split; rsimpl; [solve_frame| |done]. split; rsimpl; [done|solve_same_but..].
  - intros x Hx. rsimpl. by rewrite !lookup_insert_ne.
Qed.

Lemma wp_remove_buried_job P ids X s j t (Q : option jobp → St → Prop) :
  queue_rep P ids X s → P !! j = Some (InBuried t) →
  (∀ s', queue_rep (delete j P) ids X s' → job_step s s' → st_jobs s' = st_jobs s →
     Q (Some j) s') →
  wp (remove_buried_job (Some j)) Q s.
Proof.
  intros HR Hj HQ.
  destruct (qr_place _ _ _ _ HR j _ Hj) as (Jb & t' & T & HJb & [Hst Ht] & Ht' & HT & _).
  assert (t' = t) as -> by congruence.
  unfold remove_buried_job. wsteps. rewrite decide_False by (intros H; by rewrite Hst in H).
  wsteps. eapply wp_list_rep_remove; [by apply (qr_buried _ _ _ _ HR t T)|done|].
  unfold upd_global_stat, upd_tube_stat. wsteps.
  apply HQ; rsimpl; [| |done].
  - eapply (queue_rep_sim _ _ _ (s <| st_jobs ::= <[j := Jb]> |>
      <| st_links ::= link_remove (NJob j) |>)).
    + split; rsimpl; try solve_same_but; [|done..]. by rewrite insert_id.
    + eapply (queue_rep_unlink P ids X s j (InBuried t)); [done..|congruence].
  - split; rsimpl; [solve_frame| |done]. split; rsimpl; [done|solve_same_but..].
Qed.
End ops.
#[export] Hint Resolve queue_rep_quiet loose_quiet : queue.
