(* ===== verification/QueueConn.v ===== *)
(** Connections as the queue sees them: the soonest deadline, scheduling,
    replies, waiting, and the reservation of a job. *)
From S2P Require Import Prelude Heap Ms State Monad JobList JobHash Tube Job Wal Conn Queue QueueRep QueueOps.
#[local] Open Scope Z_scope.

(** ** The soonest job *)

Definition deadline (J : gmap jobp Job) (j : jobp) : Z :=
  match J !! j with Some Jb => r_deadline_at (j_r Jb) | None => 0 end.

(** [conn_set_soonestjob] on the cached value. *)
Definition pick (J : gmap jobp Job) (m : option jobp) (j : jobp) : option jobp :=
  match m with
  | None => Some j
  | Some x => if deadline J j <? deadline J x then Some j else Some x
  end.

Definition least (J : gmap jobp Job) (M : jobp → Prop) (x : jobp) : Prop :=
  M x ∧ ∀ y, M y → deadline J x <= deadline J y.

Section soonest.
Implicit Types (J : gmap jobp Job) (l : list jobp) (m : option jobp) (j x y : jobp).

Lemma pick_least J m j (M : jobp → Prop) :
  (∀ x, m = Some x → least J M x) → (m = None → ∀ x, ¬ M x) →
  ∃ x, pick J m j = Some x ∧ least J (λ y, y = j ∨ M y) x.
Proof.
  intros Hs Hn. unfold pick. destruct m as [x|].
  - destruct (Hs x eq_refl) as [Mx Hx]. destruct (Z.ltb_spec (deadline J j) (deadline J x)).
    + exists j. split; [done|]. split; [by left|]. intros y [->|Hy%Hx]; lia.
    + exists x. split; [done|]. split; [by right|]. intros y [->|Hy%Hx]; lia.
  - exists j. split; [done|]. split; [by left|]. intros y [->|Hy]; [lia|by destruct (Hn eq_refl y)].
Qed.

Lemma fold_pick J l :
  match foldl (pick J) None l with
  | None => l = []
  | Some x => least J (λ y, y ∈ l) x
  end.
Proof.
  induction l as [|j l IH] using rev_ind; [done|]. rewrite foldl_snoc.
  destruct (pick_least J (foldl (pick J) None l) j (λ y, y ∈ l)) as (x & -> & Hx1 & Hx2).
  - intros x Heq. by rewrite Heq in IH.
  - intros Heq x. rewrite Heq in IH. subst. set_solver.
  - split; [set_solver|]. intros y Hy. apply Hx2. set_solver.
Qed.
End soonest.

(** ** Scheduling *)

(** The soonest job of [c] is cached, if [c] has any job. *)
Definition known (P : places) (s : St) (c : connp) : Prop :=
  ∀ C, st_conns s !! c = Some C → c_soonest_job C = None → ∀ j, P !! j ≠ Some (InReserved c).

Definition erase_tick (C : Conn) : Conn :=
  C <| c_tickat := 0 |> <| c_tickpos := 0%nat |> <| c_in_conns := false |>.
Definition erase_sched (C : Conn) : Conn := erase_tick C <| c_soonest_job := None |>.

(** A step that changes the schedule of connections only, and the cached job
    of [c] only. *)
Record sched_step (c : connp) (s s' : St) : Prop := {
  ss_core : z_core s' = z_core s;
  ss_jobs : st_jobs s' = st_jobs s;
  ss_tubes : st_tubes s' = st_tubes s;
  ss_links : st_links s' = st_links s;
  ss_conns : same_but erase_sched (st_conns s) (st_conns s');
  ss_other c' : c' ≠ c → erase_tick <$> st_conns s' !! c' = erase_tick <$> st_conns s !! c';
}.
#[export] Instance sched_step_pre c : PreOrder (sched_step c).
Proof.
  split; [by split|]. intros s1 s2 s3 [z1 j1 t1 l1 c1 o1] [z2 j2 t2 l2 c2 o2].
  split; [congruence..| |].
  - by transitivity (st_conns s2).
  - intros c' Hc'. by rewrite o2, o1.
Qed.

Lemma sched_wait c s s' : sched_step c s s' → wait_sim s s'.
Proof.
  intros [_ _ Ht _ Hc _]. split; [by rewrite Ht|]. by eapply (same_but_mono erase_sched).
Qed.
Lemma sched_frame c s s' : sched_step c s s' → qframe s s'.
Proof.
  intros [H Hj Ht _ Hc _]. split; [done|by rewrite Hj|by rewrite Ht|]. by eapply (same_but_mono erase_sched).
Qed.
Section sched.
Context {E : Env}.
Implicit Types (P : places) (ids : gmap Z jobp) (X Y : gset connp) (s : St).
Implicit Types (j : jobp) (t : tubep) (c : connp) (C : Conn).

Lemma soonest_least P J c j :
  (∀ x, P !! x = Some (InReserved c) → is_Some (J !! x)) →
  soonest_of P J c j ↔ least J (λ x, P !! x = Some (InReserved c)) j.
Proof.
  intros Hl. unfold soonest_of, least, deadline. split; intros [Hj Hm]; (split; [done|]).
  - intros y Hy. destruct (Hl y Hy) as [Yb HY], (Hl j Hj) as [Jb HJ]. rewrite HY, HJ. eauto.
  - intros x Xb Jb Hx HX HJ. specialize (Hm x Hx). by rewrite HX, HJ in Hm.
Qed.

Lemma reserved_live P ids X s c x :
  queue_rep P ids X s → P !! x = Some (InReserved c) → is_Some (st_jobs s !! x).
Proof. intros HR Hx. destruct (qr_place _ _ _ _ HR x _ Hx) as (J & _ & _ & ? & _). eauto. Qed.

(** The state with another cached value in [c]. *)
Definition with_soonest (s : St) c C (m : option jobp) : St :=
  s <| st_conns ::= <[c := C <| c_soonest_job := m |>]> |>.

Lemma with_soonest_id s c C :
  st_conns s !! c = Some C → with_soonest s c C (c_soonest_job C) = s.
Proof.
  intros HC. unfold with_soonest, rupd, set_st_conns. destruct s; simpl in *. f_equal.
  apply insert_id. rewrite HC. by destruct C.
Qed.

Lemma with_soonest_step s c C m :
  st_conns s !! c = Some C → sched_step c s (with_soonest s c C m).
Proof.
  intros HC. split; try done; unfold with_soonest; rsimpl; [by eapply same_but_insert|].
  intros c' Hc'. by rewrite lookup_insert_ne.
Qed.

Lemma queue_rep_mono P ids X X' s : X ⊆ X' → queue_rep P ids X s → queue_rep P ids X' s.
Proof.
  intros HX [Hpl Hid Hre Hde Hbu Hrs Hfr Htu Hco Hso Hli]. split; try done.
  intros c C j Hc. apply Hso. set_solver.
Qed.

(** Setting the cached value to a least reserved job. *)
Lemma with_soonest_rep P ids X s c C m :
  queue_rep P ids ({[c]} ∪ X) s → st_conns s !! c = Some C →
  (∀ j, m = Some j → soonest_of P (st_jobs s) c j) →
  queue_rep P ids X (with_soonest s c C m).
Proof.
  intros HR HC Hm.
  assert (queue_rep P ids ({[c]} ∪ X) s → queue_rep P ids X (with_soonest s c C m)) as Hg; [|auto].
  intros [Hpl Hid Hre Hde Hbu Hrs Hfr Htu Hco Hso Hli].
  assert (∀ c', is_Some (st_conns (with_soonest s c C m) !! c') ↔ is_Some (st_conns s !! c')) as Hdom.
  { intros c'. unfold with_soonest. rsimpl. destruct (decide (c' = c)) as [->|].
    - rewrite lookup_insert_eq, HC. split; eauto.
    - by rewrite lookup_insert_ne. }
  split; try done.
  - intros j p Hp. destruct (Hpl j p Hp) as (J & t & T & ? & ? & ? & ? & HC').
    exists J, t, T. split_and!; try done. intros c' Hc'%HC'. by apply Hdom.
  - intros c' C' HC'. destruct (proj1 (Hdom c')) as [C0 ?]; [eauto|]. eauto.
  - eapply timers_dom; [|exact Hco]. intros c' ?%elem_of_dom. by apply elem_of_dom, Hdom.
  - intros c' C' j HX. unfold with_soonest. rsimpl. destruct (decide (c' = c)) as [->|Hne].
    + rewrite lookup_insert_eq. intros [= <-]. rsimpl. apply Hm.
    + rewrite lookup_insert_ne by done. apply Hso. set_solver.
Qed.

Lemma wp_conn_set_soonestjob s c C m j (Q : unit → St → Prop) :
  is_Some (st_jobs s !! j) → (∀ x, m = Some x → is_Some (st_jobs s !! x)) →
  Q tt (with_soonest s c C (pick (st_jobs s) m j)) →
  wp (conn_set_soonestjob c j) Q (with_soonest s c C m).
Proof.
  intros [Jb HJ] Hm HQ. unfold conn_set_soonestjob, with_soonest in *. wsteps. rsimpl.
  assert (∀ m', s <| st_conns ::= <[c := C <| c_soonest_job := m |>]> |>
            <| st_conns ::= <[c := C <| c_soonest_job := m |> <| c_soonest_job := m' |>]> |> =
          s <| st_conns ::= <[c := C <| c_soonest_job := m' |>]> |>) as Heq.
  { intros m'. unfold rupd, set_st_conns. destruct s; simpl. f_equal.
    rewrite insert_insert_eq. by destruct C. }
  unfold pick, deadline in HQ. rewrite HJ in HQ. destruct m as [x|].
  - destruct (Hm x eq_refl) as [Xb HX]. rewrite HX in HQ. wsteps.
    case_match; wsteps; [by rewrite Heq|done].
  - wsteps. by rewrite Heq.
Qed.

Lemma wp_get_next a n (Q : node → St → Prop) s :
  lnext (st_links s) a = Some n → Q n s → wp (get_next a) Q s.
Proof.
  unfold lnext. intros Hn HQ. destruct (st_links s !! a) as [[p x]|] eqn:Ha; simplify_eq/=.
  unfold get_next. apply wp_bind. unfold wp. by rewrite (get_link_eq _ _ _ Ha).
Qed.

Lemma wp_connsoonestjob_loop s c C l a m fuel (Q : unit → St → Prop) :
  seg (st_links s) a (NJob <$> l) (NReserved c) →
  (length l <= fuel)%nat → (∀ x, x ∈ l → is_Some (st_jobs s !! x)) →
  (∀ x, m = Some x → is_Some (st_jobs s !! x)) →
  Q tt (with_soonest s c C (foldl (pick (st_jobs s)) m l)) →
  wp (connsoonestjob_loop fuel c (default (NReserved c) (head (NJob <$> l)))) Q
    (with_soonest s c C m).
Proof.
  revert a m fuel. induction l as [|j l IH]; intros a m fuel Hs Hf Hl Hm HQ.
  - destruct fuel; simpl; by rewrite decide_True.
  - destruct Hs as (_ & _ & Hs). destruct fuel as [|fuel]; [simpl in Hf; lia|].
    cbn [connsoonestjob_loop fmap list_fmap head default from_option].
    apply wp_bind, wp_conn_set_soonestjob; [apply Hl; left|done|].
    apply wp_bind. eapply wp_get_next; [by eapply seg_lnext|].
    eapply IH; [done|simpl in Hf; lia| | |done].
    + intros x Hx. apply Hl. by right.
    + intros x. unfold pick. destruct m as [y|]; [case_match|]; intros [= <-];
        [apply Hl; left|by apply Hm|apply Hl; left].
Qed.

(** [connsoonestjob] returns a reserved job with the least deadline. *)
Lemma wp_connsoonestjob P ids X s c C (Q : option jobp → St → Prop) :
  queue_rep P ids X s → c ∉ X → st_conns s !! c = Some C →
  (∀ r, let s' := with_soonest s c C r in
     queue_rep P ids X s' → sched_step c s s' →
     match r with
     | None => ∀ j, P !! j ≠ Some (InReserved c)
     | Some j => soonest_of P (st_jobs s) c j
     end → Q r s') →
  wp (connsoonestjob c) Q s.
Proof.
  intros HR HX HC HQ. unfold connsoonestjob. wsteps.
  destruct (c_soonest_job C) as [j|] eqn:Hs.
  { wsteps. rewrite <- (with_soonest_id s c C) at 1 by done. rewrite Hs.
    apply HQ; [|by apply with_soonest_step|by apply (qr_soonest _ _ _ _ HR c C)].
    rewrite <- Hs. by rewrite with_soonest_id. }
  destruct (qr_reserved _ _ _ _ HR c C HC) as (l & [Hnd Hseg] & Hl).
  apply wp_bind. eapply wp_get_next; [by eapply seg_lnext|]. wsteps.
  pose proof (with_soonest_id s c C HC) as Heq. rewrite Hs in Heq.
  apply (eq_ind (with_soonest s c C None) (wp _ _)); [|exact Heq].
  eapply wp_connsoonestjob_loop; [exact Hseg| | |done|].
  - apply NoDup_cons in Hnd as [_ Hnd]. apply NoDup_fmap_1 in Hnd.
    rewrite <- size_dom, <- (size_list_to_set (C := gset positive) l) by done.
    apply subseteq_size. intros x Hx%elem_of_list_to_set%Hl. apply elem_of_dom.
    by eapply reserved_live.
  - intros x Hx%Hl. by eapply reserved_live.
  - set (r := foldl _ _ _).
    assert (match r with None => ∀ j, P !! j ≠ Some (InReserved c)
            | Some j => soonest_of P (st_jobs s) c j end) as Hr.
    { pose proof (fold_pick (st_jobs s) l) as Hf. fold r in Hf. destruct r as [x|].
      - apply soonest_least; [intros y; by eapply reserved_live|].
        destruct Hf as [Hx Hm]. split; [by apply Hl|]. intros y Hy%Hl. by apply Hm.
      - intros x Hx%Hl. subst. set_solver. }
    unfold with_soonest. wsteps. rsimpl. apply HQ; [|by apply with_soonest_step|done].
    eapply with_soonest_rep; [|done|intros j Hj; by rewrite Hj in Hr].
    eapply queue_rep_mono; [|exact HR]. set_solver.
Qed.

(** ** The heap of connections *)

Lemma conn_setpos_same x k (C : gmap connp Conn) : same_but erase_tick C (conn_setpos x k C).
Proof.
  unfold conn_setpos, same_but. apply map_eq. intros y. rewrite !lookup_fmap.
  destruct (decide (y = x)) as [->|]; [rewrite lookup_alter_eq|by rewrite lookup_alter_ne].
  by destruct (C !! x).
Qed.
Lemma conn_steps L Cm Cm' :
  setpos_steps conn_ops L Cm Cm' → same_but erase_tick Cm Cm'.
Proof.
  induction 1 as [C|C1 C2 C3 (x & k & _ & ->) _ IH]; [done|]. etrans; [|exact IH].
  apply conn_setpos_same.
Qed.

(** The state after an operation on the heap of connections. *)
Record conns_step (s s' : St) : Prop := {
  cs_core : z_core s' = z_core s;
  cs_jobs : st_jobs s' = st_jobs s;
  cs_tubes : st_tubes s' = st_tubes s;
  cs_links : st_links s' = st_links s;
  cs_conns : same_but erase_tick (st_conns s) (st_conns s');
  cs_shape : timers (st_conns s) (srv_conns s) → timers (st_conns s) (srv_conns s');
}.
#[export] Instance conns_step_pre : PreOrder conns_step.
Proof.
  split; [by split|]. intros s1 s2 s3 [z1 j1 t1 l1 c1 h1] [z2 j2 t2 l2 c2 h2].
  split; [congruence..|by transitivity (st_conns s2)|]. intros HT. pose proof (same_but_dom _ _ _ c1) as Hd.
  eapply timers_dom; [|apply h2; eapply timers_dom; [|by apply h1]]; by rewrite Hd.
Qed.

Lemma cs_sched c s s' : conns_step s s' → sched_step c s s'.
Proof.
  intros [Hz Hj Ht Hl Hc _]. split; try done; [by eapply (same_but_mono erase_tick)|].
  intros c' _. by rewrite <- !lookup_fmap, Hc.
Qed.

Lemma conns_step_queue P ids X s s' :
  conns_step s s' → queue_rep P ids X s → queue_rep P ids X s'.
Proof.
  intros [Hz Hj Ht Hl Hc Hh]. apply queue_rep_sim. split; rewrite ?Hj, ?Ht; try done.
  - by eapply (same_but_mono erase_tick).
  - exact (f_equal (λ s, ms_items (tubes s)) Hz).
Qed.

Lemma conn_update_step s c C C' :
  st_conns s !! c = Some C → erase_tick C' = erase_tick C →
  conns_step s (s <| st_conns ::= <[c := C']> |>).
Proof. intros HC He. split; try done; rsimpl. by eapply same_but_insert. Qed.

Lemma tick_step s : conns_step s (s <| st_tick ::= S |>).
Proof. by split. Qed.

Lemma timers_live_true s : timers (st_conns s) (srv_conns s) → timers_live s = true.
Proof. intros [_ Hl]. apply forallb_forall. intros c Hc. by apply bool_decide_eq_true, Hl, list_elem_of_In. Qed.

Lemma wp_conns_heapremove k (Q : option connp → St → Prop) s :
  timers (st_conns s) (srv_conns s) →
  (∀ r s', conns_step s s' → (k < h_len (srv_conns s) → S (h_len (srv_conns s')) = h_len (srv_conns s))%nat →
     Q r s') →
  wp (conns_heapremove k) Q s.
Proof.
  intros Htm HQ. pose proof Htm as [Hsh Hl]. unfold conns_heapremove. wsteps.
  rewrite timers_live_true by done. wsteps.
  destruct (decide (k < h_len (srv_conns s))%nat) as [Hk|Hk].
  - destruct (heapremove_safe conn_ops k (srv_conns s) (st_conns s) Hsh Hk)
      as (x & h' & C' & Heq & Hx & [Hs' He Hst] & Hlen).
    unfold from_option. rewrite Heq. wsteps. apply HQ; [|done]. split; rsimpl; try done; [by eapply conn_steps|].
    intros _. split; [done|]. intros y Hy. apply Hl. by eapply (heapremove_keeps conn_ops (same_but erase_tick) conn_setpos_same).
  - unfold from_option, heapremove. rewrite (proj2 (Nat.leb_le _ _)) by lia. wsteps.
    apply HQ; [|lia].
    assert (s <| st_conns := st_conns s |> <| srv_conns := srv_conns s |> = s) as -> by (by destruct s).
    done.
Qed.

Lemma wp_conns_heapinsert c (Q : bool → St → Prop) s :
  timers (st_conns s) (srv_conns s) → is_Some (st_conns s !! c) →
  (∀ r s', conns_step s s' → Q r s') →
  wp (conns_heapinsert c) Q s.
Proof.
  intros Htm Hc HQ. pose proof Htm as [Hsh Hl]. unfold conns_heapinsert. wsteps.
  rewrite timers_live_true by done. wsteps.
  assert (∀ ok s1, conns_step s s1 → srv_conns s1 = srv_conns s → st_conns s1 = st_conns s →
    wp ('(r, (h, C)) ← from_option (heapinsert conn_ops ok c (srv_conns s, st_conns s));
        modify (fun s => s <| st_conns := C |> <| srv_conns := h |>);; mret r) Q s1) as Hins.
  { intros ok s1 Hs1 Hh1 HC1.
    destruct (decide (h_len (srv_conns s) < h_cap (srv_conns s) ∨ ok = true)%nat) as [Hok|Hok].
    - destruct (heapinsert_safe conn_ops ok c (srv_conns s) (st_conns s) Hsh Hok)
        as (h' & C' & Heq & [Hs' He Hst] & Hlen).
      unfold from_option. rewrite Heq. wsteps. apply HQ. etrans; [exact Hs1|].
      split; rsimpl; try done; [rewrite HC1; by eapply conn_steps|].
      intros _. split; [done|]. intros y Hy. rewrite HC1.
      eapply (heapinsert_keeps conn_ops (same_but erase_tick) conn_setpos_same) in Hy as [->|Hy]%elem_of_cons; [done|by apply Hl|done].
    - assert (h_len (srv_conns s) = h_cap (srv_conns s)) as Heq.
      { destruct Hsh as [_ Hcap]. lia. }
      unfold from_option, heapinsert. rewrite Heq, Nat.eqb_refl.
      destruct ok; [tauto|]. simpl. wsteps. apply HQ. etrans; [exact Hs1|].
      rewrite <- HC1, <- Hh1.
      assert (s1 <| st_conns := st_conns s1 |> <| srv_conns := srv_conns s1 |> = s1) as ->
        by (by destruct s1). done. }
  destruct (_ =? _)%nat.
  - apply wp_malloc_ok. intros b. wsteps. apply wp_bind_inv, Hins; [apply tick_step|done|done].
  - wsteps. by apply wp_bind_inv, Hins.
Qed.

(** [conntickat] and [connsched] terminate and only touch the schedule. *)
Lemma wp_conntickat P ids X s c (Q : Z → St → Prop) :
  queue_rep P ids X s → c ∉ X → is_Some (st_conns s !! c) →
  (∀ r s', queue_rep P ids X s' → sched_step c s s' → known P s' c → Q r s') →
  wp (conntickat c) Q s.
Proof.
  intros HR HX [C HC] HQ. unfold conntickat. wsteps. unfold has_reserved_job. wsteps.
  set (after := λ (has : bool) (t : Z), (if has || (0 <=? c_pending_timeout C)
     then now ← nanoseconds;
          mret (now + (if 0 <=? c_pending_timeout C
                       then Z.min t (c_pending_timeout C * 1000000000) else t))
     else mret 0) : M Z).
  assert (∀ s' has (t : Z), queue_rep P ids X s' → sched_step c s s' → known P s' c →
    wp (after has t) Q s') as Hafter.
  { intros s' has t HR' Hs' Hk. unfold after. case_match; wsteps; apply HQ; try done.
    - eapply conns_step_queue; [apply tick_step|done].
    - etrans; [done|]. apply cs_sched, tick_step. }
  eapply wp_list_rep_empty; [by apply (qr_reserved _ _ _ _ HR c C)|..].
  - intros Hno. wsteps. apply (Hafter s false); [done..|]. by intros ? _ _.
  - intros j Hj. simpl negb. wsteps. eapply wp_connsoonestjob; [done..|].
    intros [x|]; cbv zeta; intros HR' Hs' Hr; [|by destruct (Hr j)].
    destruct (reserved_live _ _ _ _ c x HR' (proj1 Hr)) as [Xb HXb].
    wsteps. apply (Hafter _ true).
    + eapply conns_step_queue; [apply tick_step|done].
    + etrans; [done|]. apply cs_sched, tick_step.
    + intros C'. unfold with_soonest. rsimpl. rewrite lookup_insert_eq. intros [= <-]. done.
Qed.

Lemma known_tick P s s' c :
  erase_tick <$> st_conns s' !! c = erase_tick <$> st_conns s !! c → known P s c → known P s' c.
Proof.
  intros He Hk C' HC' Hs. rewrite HC' in He. destruct (st_conns s !! c) as [C|] eqn:HC; [|done].
  apply (inj Some) in He. apply (Hk C HC). rewrite <- Hs. exact (eq_sym (f_equal c_soonest_job He)).
Qed.
Lemma known_conns P s s' c : conns_step s s' → known P s c → known P s' c.
Proof.
  intros Hs. apply known_tick. pose proof (cs_conns _ _ Hs) as Hc. unfold same_but in Hc.
  by rewrite <- !lookup_fmap, Hc.
Qed.

Lemma wp_connsched P ids X s c (Q : unit → St → Prop) :
  queue_rep P ids X s → c ∉ X → is_Some (st_conns s !! c) →
  (∀ s', queue_rep P ids X s' → sched_step c s s' → known P s' c → Q tt s') →
  wp (connsched c) Q s.
Proof.
  intros HR HX [C HC] HQ. unfold connsched. wsteps.
  assert (∀ s', queue_rep P ids X s' → sched_step c s s' → is_Some (st_conns s' !! c)) as Hlive.
  { intros s' _ Hs'. destruct (same_but_lookup _ _ _ _ _ (ss_conns _ _ _ Hs') HC) as (? & ? & _). eauto. }
  set (rest := tickat ← conntickat c;
     update st_conns c (fun C => C <| c_tickat := tickat |>);;
     if negb (tickat =? 0) then
       conns_heapinsert c;; update st_conns c (fun C => C <| c_in_conns := true |>)
     else mret tt : M unit).
  assert (∀ s', queue_rep P ids X s' → sched_step c s s' → wp rest Q s') as Hrest.
  { intros s1 HR1 Hs1. unfold rest. apply wp_bind. eapply wp_conntickat; [done|done|by apply Hlive|].
    intros tk s2 HR2 Hs2 Hk2. destruct (Hlive s2 HR2) as [C2 HC2]; [by etrans|]. wsteps.
    assert (conns_step s2 (s2 <| st_conns ::= <[c := C2 <| c_tickat := tk |>]> |>)) as Hst
      by (by eapply conn_update_step).
    set (s3 := rupd st_conns _ s2) in *.
    assert (queue_rep P ids X s3 ∧ sched_step c s s3 ∧ known P s3 c) as (HR3 & Hs3 & Hk3).
    { split_and!; [by eapply conns_step_queue| |by eapply known_conns].
      do 2 (etrans; [eassumption|]). by apply cs_sched. }
    case_match; [|wsteps; by apply HQ]. wsteps.
    apply wp_conns_heapinsert; [apply HR3|unfold s3; rsimpl; rewrite lookup_insert_eq; eauto|]. intros r s4 Hs4.
    assert (queue_rep P ids X s4 ∧ sched_step c s s4 ∧ known P s4 c) as (HR4 & Hs04 & Hk4).
    { split_and!; [by eapply conns_step_queue| |by eapply known_conns].
      etrans; [done|]. by apply cs_sched. }
    destruct (Hlive s4 HR4 Hs04) as [C4 HC4]. wsteps.
    assert (conns_step s4 (s4 <| st_conns ::= <[c := C4 <| c_in_conns := true |>]> |>)) as Hst5
      by (by eapply conn_update_step).
    apply HQ; [by eapply conns_step_queue| |by eapply known_conns].
    etrans; [done|]. by apply cs_sched. }
  destruct (c_in_conns C).
  - wsteps. apply wp_conns_heapremove; [apply HR|]. intros r s1 Hs1 _.
    assert (queue_rep P ids X s1) as HR1 by (by eapply conns_step_queue).
    destruct (Hlive s1 HR1 (cs_sched c _ _ Hs1)) as [C1 HC1]. wsteps.
    assert (conns_step s1 (s1 <| st_conns ::= <[c := C1 <| c_in_conns := false |>]> |>)) as Hst
      by (by eapply conn_update_step).
    apply Hrest; [by eapply conns_step_queue|]. etrans; by apply cs_sched.
  - wsteps. by apply Hrest.
Qed.

(** ** Replies *)

(** A step that talks to the connection [c] only. *)
Definition erase_io (C : Conn) : Conn :=
  erase_sched C <| c_rw := "000"%char |> <| c_next := None |> <| c_state := STATE_CLOSE |>
    <| c_reply := [] |> <| c_reply_len := 0%nat |> <| c_reply_sent := 0%nat |>
    <| c_out_job := None |> <| c_out_job_sent := 0%nat |> <| c_pending_timeout := 0 |>.

Record io_step (c : connp) (s s' : St) : Prop := {
  io_core : z_core s' = z_core s;
  io_jobs : st_jobs s' = st_jobs s;
  io_tubes : st_tubes s' = st_tubes s;
  io_links : st_links s' = st_links s;
  io_conns : same_but erase_io (st_conns s) (st_conns s');
  io_other c' : c' ≠ c →
    erase_tick <$> st_conns s' !! c' = erase_tick <$> st_conns s !! c';
}.

Lemma io_refl c s : io_step c s s.
Proof. by split. Qed.
Lemma io_trans c s1 s2 s3 : io_step c s1 s2 → io_step c s2 s3 → io_step c s1 s3.
Proof.
  intros [z1 j1 t1 l1 c1 o1] [z2 j2 t2 l2 c2 o2]. split; [congruence..| |].
  - by transitivity (st_conns s2).
  - intros c' Hc'. by rewrite o2, o1.
Qed.

Lemma sched_io c s s' : sched_step c s s' → io_step c s s'.
Proof.
  intros [Hz Hj Ht Hl Hc Ho]. split; try done. by eapply (same_but_mono erase_sched).
Qed.

Lemma io_wait c s s' : io_step c s s' → wait_sim s s'.
Proof. intros [_ _ Ht _ Hc _]. split; [by rewrite Ht|]. by eapply (same_but_mono erase_io). Qed.
Lemma io_frame c s s' : io_step c s s' → qframe s s'.
Proof.
  intros [H Hj Ht _ Hc _]. split; [done|by rewrite Hj|by rewrite Ht|].
  by eapply (same_but_mono erase_io).
Qed.

(** An update of the fields of [c] that the queue does not see. *)
Lemma io_update P ids X c s C C' (s' := s <| st_conns ::= <[c := C']> |>) :
  queue_rep P ids X s → st_conns s !! c = Some C → erase_io C' = erase_io C →
  c_soonest_job C' = c_soonest_job C → queue_rep P ids X s' ∧ io_step c s s'.
Proof.
  intros HR HC He Hs. subst s'. split.
  - eapply queue_rep_sim; [|exact HR]. split; rsimpl; try done.
    eapply same_but_insert; [done|done|]. unfold q_conn. by rewrite Hs.
  - split; rsimpl; try done; [by eapply same_but_insert|].
    intros c' Hc'. by rewrite lookup_insert_ne.
Qed.

Lemma io_live c s s' c' : io_step c s s' → is_Some (st_conns s !! c') → is_Some (st_conns s' !! c').
Proof.
  intros Hio [C HC]. destruct (same_but_lookup _ _ _ _ _ (io_conns _ _ _ Hio) HC) as (? & ? & _).
  eauto.
Qed.

(** Queueing for [epoll] keeps everything but the schedule and the two fields
    of the queue. *)
Definition erase_add (C : Conn) : Conn :=
  erase_sched (C <| c_rw := "000"%char |> <| c_next := None |>).
Definition now_is (s : St) (c : connp) (C : Conn) : Prop :=
  ∃ C', st_conns s !! c = Some C' ∧ erase_add C' = erase_add C.

Lemma wp_epollq_add P ids X s c C rw (Q : unit → St → Prop) :
  queue_rep P ids X s → c ∉ X → st_conns s !! c = Some C →
  (∀ s', queue_rep P ids X s' → io_step c s s' → known P s' c → now_is s' c C → Q tt s') →
  wp (epollq_add c rw) Q s.
Proof.
  intros HR HX HC HQ. unfold epollq_add. wsteps.
  destruct (io_update P ids X c s C (C <| c_rw := rw |>)) as [HR1 Hs1]; [done..|].
  set (s1 := rupd st_conns _ s) in *.
  eapply wp_connsched; [done|done|eapply io_live; [done|eauto]|]. intros s2 HR2 Hs2 Hk2.
  assert (io_step c s s2) as Hs02 by (eapply io_trans; [done|by apply sched_io]).
  destruct (same_but_lookup _ _ _ c (C <| c_rw := rw |>) (ss_conns _ _ _ Hs2)) as (C2 & HC2 & He2).
  { subst s1. rsimpl. apply lookup_insert_eq. }
  wsteps.
  destruct (io_update P ids X c s2 C2 (C2 <| c_next := epollq s2 |>)) as [HR3 Hs3]; [done..|].
  apply HQ.
  - eapply queue_rep_sim; [|exact HR3]. by split.
  - eapply io_trans; [done|]. eapply io_trans; [exact Hs3|]. by split.
  - intros C'. rsimpl. rewrite lookup_insert_eq. intros HC'. apply (inj Some) in HC' as <-.
    by apply (Hk2 C2).
  - eexists. rsimpl. rewrite lookup_insert_eq. split; [done|].
      apply (f_equal (λ D, D <| c_rw := "000"%char |> <| c_next := None |>)) in He2.
    etrans; [|etrans; [exact He2|]]; reflexivity.
Qed.

(** What a reply leaves in the connection. *)
Definition with_reply (C : Conn) (line : bytes) (state : connstate) : Conn :=
  C <| c_reply := line |> <| c_reply_len := length line |> <| c_reply_sent := 0%nat |>
    <| c_state := state |>.

Lemma wp_reply_len P ids X s c C line len state (Q : unit → St → Prop) :
  queue_rep P ids X s → c ∉ X → st_conns s !! c = Some C →
  (∀ s', queue_rep P ids X s' → io_step c s s' → known P s' c →
     now_is s' c ((with_reply C line state) <| c_reply_len := len |>) → Q tt s') →
  wp (reply (Some c) line len state) Q s.
Proof.
  intros HR HX HC HQ. unfold reply. wsteps.
  eapply wp_epollq_add; [done|done|done|]. intros s1 HR1 Hs1 Hk1 (C1 & HC1 & He). wsteps.
  destruct (io_update P ids X c s1 C1 ((with_reply C1 line state) <| c_reply_len := len |>)) as [HR2 Hs2]; [done..|].
  apply HQ; [done|by eapply io_trans| |].
  { intros C'. rsimpl. rewrite lookup_insert_eq. intros HC'. apply (inj Some) in HC' as <-.
    by apply (Hk1 C1). }
  exists ((with_reply C1 line state) <| c_reply_len := len |>). rsimpl.
  rewrite lookup_insert_eq. split; [done|].
  apply (f_equal (λ D, (with_reply D line state) <| c_reply_len := len |>)) in He.
  etrans; [|etrans; [exact He|]]; reflexivity.
Qed.

Lemma wp_reply P ids X s c C line state (Q : unit → St → Prop) :
  queue_rep P ids X s → c ∉ X → st_conns s !! c = Some C →
  (∀ s', queue_rep P ids X s' → io_step c s s' → known P s' c →
     now_is s' c (with_reply C line state) → Q tt s') →
  wp (reply (Some c) line (length line) state) Q s.
Proof. by apply wp_reply_len. Qed.

(** [reply_line] falls back on an error message when the line is too long. *)
Definition line_reply (line : bytes) (state : connstate) : bytes * connstate :=
  if (LINE_BUF_SIZE <=? length line)%nat then (MSG_INTERNAL_ERROR, STATE_SEND_WORD)
  else (line, state).

Lemma wp_reply_line P ids X s c C line state (Q : unit → St → Prop)
    (r := line_reply line state) :
  queue_rep P ids X s → c ∉ X → st_conns s !! c = Some C →
  (∀ s', queue_rep P ids X s' → io_step c s s' → known P s' c →
     now_is s' c (with_reply C r.1 r.2) → Q tt s') →
  wp (reply_line c state line) Q s.
Proof.
  intros HR HX HC HQ. unfold reply_line, reply_serr, reply_msg. subst r. unfold line_reply in HQ.
  case_match; by eapply wp_reply.
Qed.

Definition job_line (m : bytes) (J : Job) : bytes :=
  m ++ bs " " ++ digits (r_id (j_r J)) ++ bs " "
    ++ digits (wrap_u32 (r_body_size (j_r J) - 2)) ++ crlf.

Lemma wp_reply_job P ids X s c C j Jb m (Q : unit → St → Prop)
    (r := line_reply (job_line m Jb) STATE_SEND_JOB) :
  queue_rep P ids X s → c ∉ X → st_conns s !! c = Some C → st_jobs s !! j = Some Jb →
  (∀ s', queue_rep P ids X s' → io_step c s s' → known P s' c →
     now_is s' c (with_reply (C <| c_out_job := Some j |> <| c_out_job_sent := 0%nat |>) r.1 r.2) →
     Q tt s') →
  wp (reply_job c j m) Q s.
Proof.
  intros HR HX HC HJb HQ. unfold reply_job. wsteps. rsimpl.
  set (C1 := C <| c_out_job := Some j |> <| c_out_job_sent := 0%nat |>).
  destruct (io_update P ids X c s C C1) as [HR1 Hs1]; [done..|].
  match goal with |- wp _ _ ?s2 => set (s1 := s2) end.
  assert (s1 = s <| st_conns ::= <[c := C1]> |>) as Heq.
  { subst s1. unfold rupd, set_st_conns. destruct s; simpl. f_equal. by rewrite insert_insert_eq. }
  rewrite Heq. clear s1 Heq.
  eapply wp_reply_line; [exact HR1|done|by rsimpl; rewrite lookup_insert_eq|].
  intros s2 HR2 Hs2 Hk Hn. apply HQ; [done|by eapply io_trans|done..].
Qed.
End sched.
