(* ===== verification/QueueProc.v ===== *)
(** [process_queue]: waiting connections, the choice of the next job, and the
    loop that hands jobs to connections. *)
From S2P Require Import Prelude Heap Ms State Monad JobList JobHash Tube Job Wal Conn Queue QueueRep QueueOps QueueConn.
#[local] Open Scope Z_scope.

(** ** Waiting connections *)

Definition unwait (C : Conn) : Conn :=
  C <| c_type ::= fun t => Z.land t (Z.lnot CONN_TYPE_WAITING) |>.

Lemma unwait_waiting C : conn_waiting (unwait C) = false.
Proof.
  unfold conn_waiting, unwait. rsimpl. apply negb_false_iff, Z.eqb_eq.
  rewrite <- Z.land_assoc, (Z.land_comm (Z.lnot _)), Z.land_lnot_diag. apply Z.land_0_r.
Qed.

Definition erase_ws (T : Tube) : Tube :=
  T <| t_waiting_conns := ms_init |> <| t_stat := stats_zero |>.

(** [s'] is [s] where [c] no longer waits, in any tube. *)
Record unwaited (c : connp) (C : Conn) (s s' : St) : Prop := {
  uw_core : z_core s' = z_core s;
  uw_jobs : st_jobs s' = st_jobs s;
  uw_links : st_links s' = st_links s;
  uw_conns : st_conns s' = <[c := unwait C]> (st_conns s);
  uw_heap : srv_conns s' = srv_conns s;
  uw_tubes : same_but erase_ws (st_tubes s) (st_tubes s');
  uw_items t T T' : st_tubes s !! t = Some T → st_tubes s' !! t = Some T' →
    NoDup (ms_items (t_waiting_conns T')) ∧
    ∀ x, x ∈ ms_items (t_waiting_conns T') ↔ x ∈ ms_items (t_waiting_conns T) ∧ x ≠ c;
}.

Section waiting.
Context {E : Env}.
Implicit Types (P : places) (ids : gmap Z jobp) (X Y : gset connp) (s : St).
Implicit Types (j : jobp) (t : tubep) (c : connp) (C : Conn).

(** The invariant of the loop of [remove_waiting_conn]: the tubes [todo] are
    still to be visited. *)
Record unwaiting (c : connp) (s : St) (todo : list tubep) (s' : St) : Prop := {
  ug_same : z_core s' = z_core s ∧ st_jobs s' = st_jobs s ∧ st_links s' = st_links s ∧
    st_conns s' = st_conns s ∧ srv_conns s' = srv_conns s;
  ug_todo t : t ∈ todo → is_Some (st_tubes s !! t);
  ug_tubes : same_but erase_ws (st_tubes s) (st_tubes s');
  ug_items t T T' : st_tubes s !! t = Some T → st_tubes s' !! t = Some T' →
    NoDup (ms_items (t_waiting_conns T')) ∧
    ∀ x, (x ∈ ms_items (t_waiting_conns T') → x ∈ ms_items (t_waiting_conns T)) ∧
      (x ≠ c → x ∈ ms_items (t_waiting_conns T) → x ∈ ms_items (t_waiting_conns T')) ∧
      (x = c → x ∈ ms_items (t_waiting_conns T') → t ∈ todo);
}.

Lemma unwaiting_visit c s t todo s' T' W (T2 := T' <| t_waiting_conns := W |>) stat :
  unwaiting c s (t :: todo) s' → st_tubes s' !! t = Some T' →
  NoDup (ms_items W) →
  (∀ x, x ∈ ms_items W ↔ x ∈ ms_items (t_waiting_conns T') ∧ x ≠ c) →
  unwaiting c s todo (s' <| st_tubes ::= <[t := T2 <| t_stat := stat |>]> |>).
Proof.
  intros [Hs Hto Ht Hi] HT' Hnd HW. split; rsimpl; [done|intros ??; apply Hto; by right| |].
  - destruct (same_but_lookup_inv _ _ _ _ _ Ht HT') as (T & HT & He).
    eapply same_but_insert; [done|exact HT|exact He].
  - intros t2 A A' HA. destruct (decide (t2 = t)) as [->|Hne].
    + rewrite lookup_insert_eq. intros HA'. apply (inj Some) in HA' as <-.
      subst T2. rsimpl. split; [done|].
      destruct (Hi t A T' HA HT') as [_ Hx]. intros x. rewrite HW.
      destruct (Hx x) as (H1 & H2 & H3). split_and!; [tauto|tauto|]. intros -> [_ ?]. done.
    + rewrite lookup_insert_ne by done. intros HA'. destruct (Hi t2 A A' HA HA') as [Hn Hx].
      split; [done|]. intros x. destruct (Hx x) as (H1 & H2 & H3). split_and!; [done|done|].
      intros Hc Hin. apply elem_of_cons in H3 as [?|?]; done.
Qed.

Lemma wp_remove_waiting_conn Y c C s (Q : unit → St → Prop) :
  wait_rep Y s → st_conns s !! c = Some C → conn_waiting C = true →
  (∀ s', unwaited c C s s' → Q tt s') →
  wp (remove_waiting_conn c) Q s.
Proof.
  intros [Hw Hnd Hso] HC Hwt HQ. unfold remove_waiting_conn. wsteps. rewrite Hwt. simpl negb.
  cbv iota. unfold upd_global_stat. wsteps.
  match goal with |- wp _ _ ?x => set (s1 := x) end.
  eapply (wp_forM _ _ (unwaiting c s1)).
  - split; [done|apply (Hw c C HC)|done|]. intros t T T' HT HT'.
    rewrite HT in HT'. apply (inj Some) in HT' as <-.
    split; [by eapply Hnd|]. intros x. split_and!; [done|done|]. intros -> Hx.
    destruct (Hso t T c HT Hx) as (C' & ? & ? & _). by simplify_eq.
  - intros t todo s2 Hu. unfold upd_tube_stat.
    destruct (ug_todo _ _ _ _ Hu t) as [T HT]; [by left|].
    destruct (same_but_lookup _ _ _ _ _ (ug_tubes _ _ _ _ Hu) HT) as (T2 & HT2 & _).
    destruct (ug_items _ _ _ _ Hu t T T2 HT HT2) as [Hnd2 _]. wsteps. rsimpl.
    destruct (decide (c ∈ ms_items (t_waiting_conns T2))) as [Hin|Hin].
    + destruct (ms_remove_Some c _ Hin) as (a & -> & Hp & _). wsteps.
      rewrite <- Hp in Hnd2. apply NoDup_cons in Hnd2 as [Hca Hnda].
      set (stat := rupd waiting_ct decr64 (t_stat T2)).
      assert (∀ x, x ∈ ms_items a ↔ x ∈ ms_items (t_waiting_conns T2) ∧ x ≠ c) as Ha.
      { intros x. rewrite <- Hp, elem_of_cons. split; [|naive_solver]. intros Hx. split; [by right|].
        by intros ->. }
      pose proof (unwaiting_visit c s1 t todo s2 T2 a stat Hu HT2 Hnda Ha) as Hv.
      match goal with |- unwaiting _ _ _ ?x => replace x with
        (s2 <| st_tubes ::= <[t := T2 <| t_waiting_conns := a |> <| t_stat := stat |>]> |>) end;
        [exact Hv|].
      unfold rupd, set_st_tubes. destruct s2; simpl. f_equal. by rewrite insert_insert_eq.
    + rewrite ms_remove_None by done. wsteps.
      set (stat := rupd waiting_ct decr64 (t_stat T2)).
      assert (∀ x, x ∈ ms_items (t_waiting_conns T2) ↔ x ∈ ms_items (t_waiting_conns T2) ∧ x ≠ c) as Ha.
      { intros x. split; [|tauto]. intros Hx. split; [done|]. by intros ->. }
      pose proof (unwaiting_visit c s1 t todo s2 T2 _ stat Hu HT2 Hnd2 Ha) as Hv.
      replace (T2 <| t_waiting_conns := t_waiting_conns T2 |>) with T2 in Hv by (by destruct T2).
      exact Hv.
  - intros s2 [(H1 & H2 & H3 & H4 & H5) _ Ht Hi]. apply HQ. split; try done.
    intros t T T' HT HT'. destruct (Hi t T T' HT HT') as [Hn Hx]. split; [done|].
    intros x. destruct (Hx x) as (G1 & G2 & G3). split.
    + intros Hin. split; [auto|]. intros ->. apply G3 in Hin; set_solver.
    + intros [Hin Hne]. auto.
Qed.

Lemma unwaited_wait Y c C s s' :
  wait_rep (Y ∪ {[c]}) s → st_conns s !! c = Some C → unwaited c C s s' → wait_rep Y s'.
Proof.
  intros [Hw Hnd Hso] HC [_ _ _ Hc _ Ht Hi].
  assert (∀ t, is_Some (st_tubes s' !! t) ↔ is_Some (st_tubes s !! t)) as Hdom.
  { intros t. rewrite <- !elem_of_dom. by rewrite (same_but_dom _ _ _ Ht). }
  assert (∀ x C', st_conns s' !! x = Some C' → ∃ C0, st_conns s !! x = Some C0 ∧
            c_watch C' = c_watch C0 ∧ (x ≠ c → C' = C0) ∧ (x = c → C' = unwait C)) as Hcx.
  { intros x C'. rewrite Hc. destruct (decide (x = c)) as [->|].
    - rewrite lookup_insert_eq. intros HC'. apply (inj Some) in HC' as <-. by exists C.
    - rewrite lookup_insert_ne by done. intros HC'. by exists C'. }
  split.
  - intros x C' (C0 & HC0 & -> & _)%Hcx. destruct (Hw x C0 HC0) as [? Hl]. split; [done|].
    intros t ?%Hl. by apply Hdom.
  - intros t T' HT'. destruct (same_but_lookup_inv _ _ _ _ _ Ht HT') as (T & HT & _).
    by apply (Hi t T T' HT HT').
  - intros t T' x HT' Hx. destruct (same_but_lookup_inv _ _ _ _ _ Ht HT') as (T & HT & _).
    destruct (proj1 (proj2 (Hi t T T' HT HT') x) Hx) as [Hx' Hne].
    destruct (Hso t T x HT Hx') as (C0 & HC0 & ? & ?). exists C0.
    rewrite Hc, lookup_insert_ne by done. split_and!; [done|done|]. intros ?. set_solver.
Qed.

Lemma unwaited_sim c C s s' : st_conns s !! c = Some C → unwaited c C s s' → queue_sim s s'.
Proof.
  intros HC [Hz Hj Hl Hc Hh Ht Hi]. split.
  - by rewrite Hj.
  - by eapply (same_but_mono erase_ws).
  - rewrite Hc. by eapply same_but_insert.
  - done.
  - replace (tubes s') with (tubes s); [done|]. symmetry. exact (f_equal tubes Hz).
  - by rewrite Hh.
Qed.
Lemma unwaited_queue P ids X c C s s' :
  queue_rep P ids X s → st_conns s !! c = Some C → unwaited c C s s' → queue_rep P ids X s'.
Proof. intros HR HC Hu. eapply queue_rep_sim; [by eapply unwaited_sim|done]. Qed.

Lemma unwaited_frame c C s s' :
  st_conns s !! c = Some C → unwaited c C s s' → qframe s s'.
Proof.
  intros HC [Hz Hj Hl Hc Hh Ht Hi]. split; [done|by rewrite Hj| |].
  - by eapply (same_but_mono erase_ws).
  - rewrite Hc. by eapply same_but_insert.
Qed.
End waiting.

(** ** Reserving *)

(** A waiting connection with reserved jobs has its soonest job cached: it was
    computed when the connection started to wait.  The connections of [X] do
    not wait. *)
Definition cached (X : gset connp) (P : places) (s : St) : Prop :=
  ∀ c C, st_conns s !! c = Some C → conn_waiting C = true →
    (c ∉ X) ∧ (c_soonest_job C = None → ∀ j, P !! j ≠ Some (InReserved c)).

Definition erase_stat (T : Tube) : Tube := T <| t_stat := stats_zero |>.

(** [s'] is [s] where [c] holds [j]. *)
Record reserved_to (c : connp) (j : jobp) (C : Conn) (Jb : Job) (s s' : St) : Prop := {
  rt_core : z_core s' = z_core s;
  rt_tubes : same_but erase_stat (st_tubes s) (st_tubes s');
  rt_conns : ∃ m, st_conns s' =
    <[c := C <| c_pending_timeout := -1 |> <| c_soonest_job := m |>]> (st_conns s);
  rt_jobs : ∃ Jb', st_jobs s' = <[j := Jb']> (st_jobs s) ∧ z_job Jb' = z_job Jb ∧
    (∃ now, r_deadline_at (j_r Jb') = now + r_ttr (j_r Jb));
  rt_heap : srv_conns s' = srv_conns s;
}.

Section reserve.
Context {E : Env}.
Implicit Types (P : places) (ids : gmap Z jobp) (X Y : gset connp) (s : St).
Implicit Types (j : jobp) (t : tubep) (c : connp) (C : Conn).

Lemma reserved_frame c j C Jb s s' :
  st_conns s !! c = Some C → st_jobs s !! j = Some Jb → reserved_to c j C Jb s s' →
  qframe s s' ∧ wait_sim s s'.
Proof.
  intros HC HJ [Hz Ht [m Hc] (Jb' & Hj & He & _) _]. split; [split|split].
  - done.
  - rewrite Hj. by eapply same_but_insert.
  - by eapply (same_but_mono erase_stat).
  - rewrite Hc. by eapply same_but_insert.
  - by eapply (same_but_mono erase_stat).
  - rewrite Hc. by eapply same_but_insert.
Qed.

(** The cached job after a reservation. *)
Lemma pick_reserved P ids X s c C j Jb' m (J' := <[j := Jb']> (st_jobs s)) :
  queue_rep P ids X s → c ∉ X → st_conns s !! c = Some C →
  (c_soonest_job C = None → ∀ x, P !! x ≠ Some (InReserved c)) →
  P !! j = None → c_soonest_job C = m →
  ∃ x, pick J' m j = Some x ∧ soonest_of (<[j := InReserved c]> P) J' c x.
Proof.
  intros HR HX HC Hw Hj Hm.
  set (M := λ x, P !! x = Some (InReserved c)).
  assert (∀ x, M x → x ≠ j ∧ J' !! x = st_jobs s !! x) as Hother.
  { intros x Hx. assert (x ≠ j) by (intros ->; unfold M in Hx; congruence).
    split; [done|]. unfold J'. by rewrite lookup_insert_ne. }
  assert (∀ x, M x → deadline J' x = deadline (st_jobs s) x) as Hdl.
  { intros x [_ Hx]%Hother. unfold deadline. by rewrite Hx. }
  destruct (pick_least J' m j M) as (x & Hp & Hx).
  - intros x ->. pose proof (qr_soonest _ _ _ _ HR c C x HX HC Hm) as Hs.
    apply soonest_least in Hs; [|intros y; by eapply reserved_live].
    destruct Hs as [Mx Hx]. split; [done|]. intros y My. rewrite !Hdl by done. auto.
  - intros ->. by apply Hw.
  - exists x. split; [done|]. apply soonest_least.
    + intros y Hy. unfold J'. destruct (decide (y = j)) as [->|Hyj].
      * rewrite lookup_insert_eq. eauto.
      * rewrite lookup_insert_ne in Hy by done. rewrite lookup_insert_ne by done.
        by eapply reserved_live.
    + destruct Hx as [Hx1 Hx2]. split.
      * destruct Hx1 as [->|Mx]; [by rewrite lookup_insert_eq|].
        destruct (Hother x Mx). by rewrite lookup_insert_ne.
      * intros y Hy. apply Hx2. destruct (decide (y = j)) as [->|Hyj]; [by left|right].
        by rewrite lookup_insert_ne in Hy.
Qed.

Lemma wp_conn_reserve_job P ids X s c C j t Jb (Q : unit → St → Prop) :
  queue_rep P ids X s → loose P s j t Jb →
  c ∉ X → st_conns s !! c = Some C →
  (c_soonest_job C = None → ∀ x, P !! x ≠ Some (InReserved c)) →
  (∀ s', queue_rep (<[j := InReserved c]> P) ids X s' → reserved_to c j C Jb s s' → Q tt s') →
  wp (conn_reserve_job c j) Q s.
Proof.
  intros HR HL HX HC Hw HQ. destruct HL as [Hp HJb Hst Ht [T HT]].
  unfold conn_reserve_job, tube_of, upd_tube_stat, upd_rec. wsteps.
  pose proof (qr_reserved _ _ _ _ HR c C HC) as HLr.
  eapply wp_list_rep_insert; [rsimpl; exact HLr| |by cbv beta; rewrite Hp|done|].
  { rsimpl. apply (qr_free _ _ _ _ HR j Jb HJb). by rewrite Hp. }
  wsteps. match goal with |- wp _ _ ?x => set (s1 := x) end.
  set (C1 := C <| c_pending_timeout := -1 |>).
  assert (∃ Jb', st_jobs s1 = <[j := Jb']> (st_jobs s) ∧ z_job Jb' = z_job Jb ∧
            fits Jb' (InReserved c) ∧ j_tube Jb' = Some t ∧
            r_deadline_at (j_r Jb') = t0 + r_ttr (j_r Jb)) as (Jb' & Hs1 & Hz & Hf & Htb & Hdl).
  { subst s1. rsimpl. rewrite !insert_insert_eq. eexists. split; [reflexivity|]. split; [done|].
    rsimpl. done. }
  assert (same_but erase_stat (st_tubes s) (st_tubes s1)) as Htubes.
  { subst s1. solve_same_but. }
  assert (st_conns s1 = <[c := C1]> (st_conns s)) as Hconns by done.
  assert (queue_rep (<[j := InReserved c]> P) ids ({[c]} ∪ X) s1) as HR1.
  { eapply (queue_rep_sim _ _ _ (s <| st_jobs ::= <[j := Jb']> |>
        <| st_links ::= link_insert (NReserved c) (NJob j) |>)).
    - split; rsimpl; try done.
      + by rewrite Hs1.
      + by eapply (same_but_mono erase_stat).
      + rewrite Hconns. by eapply same_but_insert.
    - eapply (queue_rep_link P ids X s j (InReserved c)); try done.
      + by apply same_id_z.
      + intros ? [= <-]. eauto. }
  assert (st_conns s1 !! c = Some C1) as HC1 by (rewrite Hconns; apply lookup_insert_eq).
  destruct (pick_reserved P ids X s c C j Jb' (c_soonest_job C)) as (x & Hx & Hso); try done.
  rewrite <- Hs1 in Hx, Hso.
  apply (eq_ind (with_soonest s1 c C1 (c_soonest_job C1)) (wp _ _)); [|by apply with_soonest_id].
  apply wp_conn_set_soonestjob.
  - rewrite Hs1, lookup_insert_eq. eauto.
  - intros y Hy. pose proof (qr_soonest _ _ _ _ HR c C y HX HC Hy) as [Hyr _].
    rewrite Hs1. destruct (decide (y = j)) as [->|]; [rewrite lookup_insert_eq; eauto|].
    rewrite lookup_insert_ne by done. by eapply reserved_live.
  - change (c_soonest_job C1) with (c_soonest_job C). rewrite Hx. apply HQ.
    + eapply with_soonest_rep; [done|done|]. by intros y [= <-].
    + split; try done.
      * unfold with_soonest. rsimpl. rewrite Hconns, insert_insert_eq. by exists (Some x).
      * exists Jb'. unfold with_soonest. rsimpl. eauto 10.
Qed.
End reserve.
