(* ===== verification/Process.v ===== *)
(** [process_queue]: the choice of the next job, and the loop that hands ready
    jobs to waiting connections. *)
From S2P Require Import Prelude Heap Ms State Monad JobList JobHash Tube Job Wal Conn Queue QueueRep QueueOps QueueConn QueueProc.
#[local] Open Scope Z_scope.

(** ** The next job *)

(** The tube gives jobs away at the time [now]. *)
Definition unpaused (now : Z) (T : Tube) : Prop := t_pause T = 0 ∨ t_unpause_at T <= now.

(** [j] is ready in a tube of [D] that is not paused and that a connection
    waits for. *)
Definition awaited_in (D : list tubep) (P : places) (now : Z) (s : St) (j : jobp) : Prop :=
  ∃ t T, t ∈ D ∧ P !! j = Some (InReady t) ∧ st_tubes s !! t = Some T ∧
    ms_items (t_waiting_conns T) ≠ [] ∧ unpaused now T.
Definition awaited (P : places) (now : Z) (s : St) (j : jobp) : Prop :=
  awaited_in (ms_items (tubes s)) P now s j.

(** [r] is the awaited job with the least priority and id, if any. *)
Definition best_of (J : gmap jobp Job) (A : jobp → Prop) (r : option jobp) : Prop :=
  match r with
  | None => ∀ j, ¬ A j
  | Some j => A j ∧ ∀ x Xb Jb, A x → J !! x = Some Xb → J !! j = Some Jb →
                job_pri_less Xb Jb = false
  end.

(** Pauses that are over may be cleared. *)
Record woken (now : Z) (s s' : St) : Prop := {
  wk_quiet : quiet s s';
  wk_tube t T' : st_tubes s' !! t = Some T' → ∃ T, st_tubes s !! t = Some T ∧
    (T' = T ∨ T' = T <| t_pause := 0 |> ∧ t_unpause_at T <= now);
}.
#[export] Instance woken_pre now : PreOrder (woken now).
Proof.
  split.
  - intros s. split; [done|]. eauto.
  - intros s1 s2 s3 [q1 t1] [q2 t2]. split; [by etrans|]. intros t T3 HT3.
    destruct (t2 t T3 HT3) as (T2 & HT2 & H2). destruct (t1 t T2 HT2) as (T1 & HT1 & H1).
    exists T1. split; [done|]. destruct H1 as [-> |[-> ?]], H2 as [-> |[-> ?]]; auto.
Qed.

Lemma best_of_iff J A A' r : (∀ x, A x ↔ A' x) → best_of J A r → best_of J A' r.
Proof.
  intros HA. destruct r as [j|]; simpl.
  - intros [Hj Hm]. split; [by apply HA|]. intros x Xb Jb Hx%HA. by apply Hm.
  - intros Hn j. by rewrite <- HA.
Qed.

(** Comparing the best job so far with the best job of another set. *)
Lemma best_of_join J A B a b Ja Jb :
  best_of J A (Some a) → best_of J B (Some b) → J !! a = Some Ja → J !! b = Some Jb →
  (∀ x, A x ∨ B x → is_Some (J !! x)) →
  best_of J (λ x, A x ∨ B x) (Some (if job_pri_less Jb Ja then b else a)).
Proof.
  intros [Ha HA] [Hb HB] HJa HJb Hl.
  assert (∀ X Y Z, job_pri_less X Y = false → job_pri_less Y Z = false →
            job_pri_less X Z = false) as Htrans.
  { intros X Y Z. unfold job_pri_less. repeat case_match; try done; lia. }
  assert (∀ X Y, job_pri_less X Y = true → job_pri_less Y X = false) as Hasym.
  { intros X Y. unfold job_pri_less. repeat case_match; try done; lia. }
  destruct (job_pri_less Jb Ja) eqn:Hlt; (split; [tauto|]); intros x Xb Jx Hx HX HJx; simplify_eq.
  - destruct Hx as [Hx|Hx]; [|by eapply HB]. eapply Htrans; [by eapply HA|by apply Hasym].
  - destruct Hx as [Hx|Hx]; [by eapply HA|]. eapply Htrans; [by eapply HB|done].
Qed.

Section next.
Context {E : Env}.
Implicit Types (P : places) (ids : gmap Z jobp) (X Y : gset connp) (s : St).
Implicit Types (j : jobp) (t : tubep) (c : connp) (C : Conn) (D l : list tubep).

Lemma woken_awaited D P now s s' j :
  woken now s s' → awaited_in D P now s' j ↔ awaited_in D P now s j.
Proof.
  intros [[[_ Hst _ _ _ _] _ _ _] Hw]. split.
  - intros (t & T' & HD & Hj & HT' & Hne & Hop). destruct (Hw t T' HT') as (T & HT & HTT).
    exists t, T. split_and!; try done; destruct HTT as [-> |[-> ?]]; try done. by right.
  - intros (t & T & HD & Hj & HT & Hne & Hop).
    destruct (same_but_lookup _ _ _ _ _ Hst HT) as (T' & HT' & _).
    destruct (Hw t T' HT') as (T0 & HT0 & HTT). simplify_eq.
    exists t, T'. split_and!; try done; destruct HTT as [-> |[-> ?]]; try done. by left.
Qed.

Lemma awaited_skip D P now s t T j :
  st_tubes s !! t = Some T →
  (¬ unpaused now T ∨ ms_items (t_waiting_conns T) = [] ∨ (∀ x, P !! x ≠ Some (InReady t))) →
  awaited_in (D ++ [t]) P now s j ↔ awaited_in D P now s j.
Proof.
  intros HT Hno. split.
  - intros (t' & T' & HD & Hj & HT' & Hne & Hop). exists t', T'.
    split_and!; try done. apply elem_of_app in HD as [HD|HD%list_elem_of_singleton]; [done|].
    subst. simplify_eq. destruct Hno as [?|[?|Hno]]; try done. by destruct (Hno j).
  - intros (t' & T' & HD & H). exists t', T'. set_solver.
Qed.

Lemma awaited_more D P now s t T j :
  st_tubes s !! t = Some T → unpaused now T → ms_items (t_waiting_conns T) ≠ [] →
  awaited_in (D ++ [t]) P now s j ↔ awaited_in D P now s j ∨ P !! j = Some (InReady t).
Proof.
  intros HT Hop Hne. split.
  - intros (t' & T' & HD & Hj & H). apply elem_of_app in HD as [HD|HD%list_elem_of_singleton].
    + left. by exists t', T'.
    + subst. by right.
  - intros [(t' & T' & HD & H)|Hj]; [exists t', T'; set_solver|exists t, T].
    split_and!; set_solver.
Qed.

Lemma wp_next_awaited_job_loop P ids X now l D s (j : option jobp) (Q : option jobp → St → Prop) :
  queue_rep P ids X s → (∀ t, t ∈ l → is_Some (st_tubes s !! t)) →
  best_of (st_jobs s) (awaited_in D P now s) j →
  (∀ r s', queue_rep P ids X s' → woken now s s' →
     best_of (st_jobs s') (awaited_in (D ++ l) P now s') r → Q r s') →
  wp (next_awaited_job_loop l now j) Q s.
Proof.
  revert D s j. induction l as [|t l IH]; intros D s j HR Hl Hj HQ; cbn [next_awaited_job_loop].
  { apply wp_ret, HQ; [done|done|by rewrite app_nil_r]. }
  destruct (Hl t) as [T HT]; [by left|]. wsteps.
  assert (∀ s1 (j1 : option jobp), woken now s s1 → best_of (st_jobs s1) (awaited_in (D ++ [t]) P now s1) j1 →
    wp (next_awaited_job_loop l now j1) Q s1) as Hgo.
  { intros s1 j1 Hw Hb. apply (IH (D ++ [t])); [by eapply queue_rep_quiet, HR; apply Hw| |done|].
    - intros t' Ht'. destruct (Hl t') as [T' HT']; [by right|].
      destruct (same_but_lookup _ _ _ _ _ (qs_tubes _ _ (qu_queue _ _ (wk_quiet _ _ _ Hw))) HT')
        as (? & ? & _). eauto.
    - rewrite <- app_assoc. intros r s' ???. apply HQ; [done|by etrans|done]. }
  destruct (negb (t_pause T =? 0) && (now <? t_unpause_at T)) eqn:Hpause.
  { apply Hgo; [done|]. eapply best_of_iff; [|exact Hj]. intros x. symmetry.
    eapply awaited_skip; [done|]. left. unfold unpaused. lia. }
  assert (∀ s1 T1, woken now s s1 → st_tubes s1 !! t = Some T1 → unpaused now T1 →
      t_ready T1 = t_ready T → t_waiting_conns T1 = t_waiting_conns T →
      wp (if negb (ms_len (t_waiting_conns T) =? 0)%nat && negb (h_len (t_ready T) =? 0)%nat
        then
          candidate ← from_option (h_data (t_ready T) !! 0%nat);
          match j with
          | None => next_awaited_job_loop l now (Some candidate)
          | Some b =>
              A ← deref st_jobs candidate;
              B ← deref st_jobs b;
              next_awaited_job_loop l now
                (if job_pri_less A B then Some candidate else Some b)
          end
        else next_awaited_job_loop l now j) Q s1) as Hrest; cycle 1.
  { destruct (Z.eqb_spec (t_pause T) 0) as [Hp|Hp]; simpl negb; cbv iota; wsteps.
    - apply (Hrest s T); try done. by left.
    - apply (Hrest _ (T <| t_pause := 0 |>)); [|rsimpl; apply lookup_insert_eq|by left|done|done].
      split; [solve_quiet|]. rsimpl. intros t' T'. destruct (decide (t' = t)) as [->|].
      + rewrite lookup_insert_eq. intros HT'. apply (inj Some) in HT' as <-.
        exists T. split; [done|]. right. split; [done|]. simpl in Hpause. lia.
      + rewrite lookup_insert_ne by done. eauto. }
  intros s1 T1 Hw HT1 Hop Hre Hwc.
  assert (queue_rep P ids X s1) as HR1 by (eapply queue_rep_quiet, HR; apply Hw).
  assert (best_of (st_jobs s1) (awaited_in D P now s1) j) as Hj1.
  { rewrite (qu_jobs _ _ (wk_quiet _ _ _ Hw)). eapply best_of_iff; [|exact Hj].
    intros x. symmetry. by apply woken_awaited. }
  pose proof (qr_ready _ _ _ _ HR1 t T1 HT1) as Hh. rewrite <- Hre, <- Hwc.
  destruct (Nat.eqb_spec (ms_len (t_waiting_conns T1)) 0) as [Hm|Hm]; simpl.
  { apply Hgo; [done|]. eapply best_of_iff; [|exact Hj1]. intros x. symmetry.
    eapply awaited_skip; [done|]. right. left. by apply length_zero_iff_nil. }
  assert (ms_items (t_waiting_conns T1) ≠ []) as Hne.
  { intros Hnil. apply Hm. unfold ms_len. by rewrite Hnil. }
  destruct (Nat.eqb_spec (h_len (t_ready T1)) 0) as [Hm'|Hm']; simpl.
  { apply Hgo; [done|]. eapply best_of_iff; [|exact Hj1]. intros x. symmetry.
    eapply awaited_skip; [done|]. right. right. by eapply heap_rep_none. }
  destruct (heap_rep_first _ _ _ _ Hh Hm') as (b & Jb & Hb & HJb & Mb & Hleast).
  eapply wp_bind, wp_from_option; [exact Hb|].
  assert (∀ r, best_of (st_jobs s1) (λ x, awaited_in D P now s1 x ∨ P !! x = Some (InReady t)) r →
    wp (next_awaited_job_loop l now r) Q s1) as Hgo'.
  { intros r Hr. apply Hgo; [done|]. eapply best_of_iff; [|exact Hr]. intros x. symmetry.
    by eapply awaited_more. }
  assert (best_of (st_jobs s1) (λ x, P !! x = Some (InReady t)) (Some b)) as Hbest.
  { split; [done|]. intros x Xb Jb' Hx HX HJb'. simplify_eq. by apply (Hleast x). }
  destruct j as [a|].
  - destruct Hj1 as [Ha Ham]. pose proof Ha as (ta & Ta & _ & Hpa & _).
    destruct (qr_place _ _ _ _ HR1 a _ Hpa) as (Ja & _ & _ & HJa & _). wsteps.
    pose proof (best_of_join (st_jobs s1) _ _ a b Ja Jb (conj Ha Ham) Hbest HJa HJb) as Hjoin.
    destruct (job_pri_less Jb Ja); apply Hgo', Hjoin; intros x Hx;
      (assert (∃ t', P !! x = Some (InReady t')) as [t' Hx'];
        [destruct Hx as [(? & ? & _ & ? & _)|?]; eauto|]);
      destruct (qr_place _ _ _ _ HR1 x _ Hx') as (? & _ & _ & ? & _); eauto.
  - apply Hgo'. destruct Hbest as [_ Hbest]. split; [by right|]. intros x Xb Jb' [Hx|Hx] HX HJ.
    + by destruct (Hj1 x).
    + by apply (Hbest x Xb Jb').
Qed.

Lemma wp_next_awaited_job P ids X now s (Q : option jobp → St → Prop) :
  queue_rep P ids X s →
  (∀ r s', queue_rep P ids X s' → woken now s s' →
     best_of (st_jobs s') (awaited P now s') r → Q r s') →
  wp (next_awaited_job now) Q s.
Proof.
  intros HR HQ. unfold next_awaited_job. wsteps.
  eapply (wp_next_awaited_job_loop P ids X now _ []); [done| | |].
  - intros t. apply (qr_tubes _ _ _ _ HR).
  - intros j (t & T & Ht & _). set_solver.
  - intros r s' HR' Hw Hb. apply HQ; [done|done|]. unfold awaited.
    rewrite (qframe_tubes s s'); [done|]. apply Hw.
Qed.
End next.

(** ** Handing over one job *)

(** The connection [c] as the job [j] is handed to it. *)
Definition handed (C : Conn) (j : jobp) (line : bytes * connstate) (m : option jobp) : Conn :=
  with_reply (unwait C <| c_pending_timeout := -1 |> <| c_soonest_job := m |>
    <| c_out_job := Some j |> <| c_out_job_sent := 0%nat |>) line.1 line.2.

(** [c], that waited for the tube of [j], holds [j] and is being told so; the
    other connections have not changed. *)
Record served (P : places) (j : jobp) (c : connp) (s s' : St) : Prop := {
  se_ready : ∃ t T C, P !! j = Some (InReady t) ∧ st_tubes s !! t = Some T ∧
    c ∈ ms_items (t_waiting_conns T) ∧ st_conns s !! c = Some C ∧
    conn_waiting C = true ∧ t ∈ ms_items (c_watch C);
  se_conn : ∃ C Jb m, st_conns s !! c = Some C ∧ st_jobs s !! j = Some Jb ∧
    now_is s' c (handed C j (line_reply (job_line MSG_RESERVED Jb) STATE_SEND_JOB) m);
  se_deadline : ∃ Jb now, st_jobs s' !! j = Some Jb ∧
    r_deadline_at (j_r Jb) = now + r_ttr (j_r Jb);
  se_known : known (<[j := InReserved c]> P) s' c;
  se_other c' : c' ≠ c → erase_tick <$> st_conns s' !! c' = erase_tick <$> st_conns s !! c';
  se_frame : qframe s s';
  se_only : only j s s';
}.

Section serve.
Context {E : Env}.
Implicit Types (P : places) (ids : gmap Z jobp) (X Y : gset connp) (s : St).
Implicit Types (j : jobp) (t : tubep) (c : connp) (C : Conn).

(** Taking [c] from the set of the connections waiting for [t]. *)
Definition taken (s : St) t T (a : Ms connp) : St :=
  s <| st_tubes ::= <[t := T <| t_waiting_conns := a |>]> |>.

Lemma taken_queue P ids X s t T a :
  st_tubes s !! t = Some T → queue_rep P ids X s → queue_rep P ids X (taken s t T a).
Proof.
  intros HT HR. eapply queue_rep_sim; [|exact HR]. unfold taken. solve_frame.
Qed.

Lemma taken_wait s t T a c :
  wait_rep ∅ s → st_tubes s !! t = Some T → c :: ms_items a ≡ₚ ms_items (t_waiting_conns T) →
  wait_rep {[c]} (taken s t T a).
Proof.
  intros [Hw Hnd Hso] HT Hp.
  assert (∀ t' T', st_tubes (taken s t T a) !! t' = Some T' → ∃ T0, st_tubes s !! t' = Some T0 ∧
    ∀ x, x ≠ c → x ∈ ms_items (t_waiting_conns T') ↔ x ∈ ms_items (t_waiting_conns T0)) as Hmem.
  { intros t' T'. unfold taken. rsimpl. destruct (decide (t' = t)) as [->|].
    - rewrite lookup_insert_eq. intros HT'. apply (inj Some) in HT' as <-.
      exists T. split; [done|]. intros x Hx. rsimpl. rewrite <- Hp. set_solver.
    - rewrite lookup_insert_ne by done. intros HT'. by exists T'. }
  pose proof (Hnd t T HT) as HndT. rewrite <- Hp in HndT. apply NoDup_cons in HndT as [Hca HndT].
  split.
  - intros c' C' HC'. destruct (Hw c' C' HC') as [? Hl]. split; [done|]. intros t' Ht'%Hl.
    unfold taken. rsimpl. destruct (decide (t' = t)) as [->|];
      [rewrite lookup_insert_eq; eauto|by rewrite lookup_insert_ne].
  - intros t' T'. unfold taken. rsimpl. destruct (decide (t' = t)) as [->|].
    + rewrite lookup_insert_eq. intros HT'. by apply (inj Some) in HT' as <-.
    + rewrite lookup_insert_ne by done. apply Hnd.
  - intros t' T' x HT' Hx. destruct (Hmem t' T' HT') as (T0 & HT0 & Hm).
    destruct (decide (x = c)) as [->|Hne].
    + assert (t' ≠ t) as Hne.
      { intros ->. unfold taken in HT'. rsimpl. rewrite lookup_insert_eq in HT'.
        apply (inj Some) in HT' as <-. done. }
      unfold taken in HT'. rsimpl. rewrite lookup_insert_ne in HT' by done.
      destruct (Hso t' T' c HT' Hx) as (C & ? & ? & _). exists C. set_solver.
    + destruct (Hso t' T0 x HT0) as (C & ? & ? & Hwt); [by apply Hm|].
      exists C. split_and!; [done|done|]. intros _. apply Hwt. set_solver.
Qed.

(** The other connections after [c] was handed [j]. *)
Lemma cached_served X P s s' j c :
  cached X P s →
  (∀ c', c' ≠ c → erase_tick <$> st_conns s' !! c' = erase_tick <$> st_conns s !! c') →
  (∀ C', st_conns s' !! c = Some C' → conn_waiting C' = false) →
  cached X (<[j := InReserved c]> P) s'.
Proof.
  intros Hca Ho Hc c' C' HC' Hwt. destruct (decide (c' = c)) as [->|Hne].
  { rewrite (Hc C' HC') in Hwt. done. }
  pose proof (Ho c' Hne) as He. rewrite HC' in He.
  destruct (st_conns s !! c') as [C0|] eqn:HC0; [|done]. apply (inj Some) in He.
  pose proof (f_equal c_type He) as Hty. pose proof (f_equal c_soonest_job He) as Hsj.
  unfold erase_tick in Hty, Hsj. rsimpl_in Hty. rsimpl_in Hsj.
  destruct (Hca c' C0 HC0) as [HX Hn]; [unfold conn_waiting in *; by rewrite <- Hty|].
  split; [done|]. intros Hs x. destruct (decide (x = j)) as [->|]; [rewrite lookup_insert_eq; congruence|].
  rewrite lookup_insert_ne by done. apply Hn. congruence.
Qed.

(** Reserving [j] for [c] and telling it. *)
Lemma wp_serve P ids X s c C j t Jb (Q : unit → St → Prop) :
  queue_rep P ids X s → wait_rep {[c]} s → loose P s j t Jb →
  c ∉ X → st_conns s !! c = Some C → conn_waiting C = true →
  (c_soonest_job C = None → ∀ x, P !! x ≠ Some (InReserved c)) →
  (∀ s' m, queue_rep (<[j := InReserved c]> P) ids X s' → wait_rep ∅ s' → qframe s s' →
     (∃ Jb' now, st_jobs s' !! j = Some Jb' ∧ r_deadline_at (j_r Jb') = now + r_ttr (j_r Jb')) →
     now_is s' c (handed C j (line_reply (job_line MSG_RESERVED Jb) STATE_SEND_JOB) m) →
     (∀ c', c' ≠ c → erase_tick <$> st_conns s' !! c' = erase_tick <$> st_conns s !! c') →
     only j s s' → known (<[j := InReserved c]> P) s' c → Q tt s') →
  wp (remove_waiting_conn c;; conn_reserve_job c j;; reply_job c j MSG_RESERVED) Q s.
Proof.
  intros HR HW HL HcX HC Hwt Hsj HQ. apply wp_bind.
  eapply wp_remove_waiting_conn; [done..|]. intros s1 Hu1.
  pose proof (unwaited_queue _ _ _ _ _ _ _ HR HC Hu1) as HR1.
  pose proof (unwaited_frame _ _ _ _ HC Hu1) as HF1.
  assert (wait_rep ∅ s1) as HW1.
  { eapply unwaited_wait; [|done|done]. by rewrite (left_id_L ∅ (∪)). }
  assert (loose P s1 j t Jb) as HL1.
  { destruct HL as [H1 H2 H3 H4 [T H5]]. split; try done; [by rewrite (uw_jobs _ _ _ _ Hu1)|].
    destruct (same_but_lookup _ _ _ _ _ (uw_tubes _ _ _ _ Hu1) H5) as (? & ? & _). eauto. }
  assert (st_conns s1 !! c = Some (unwait C)) as HC1.
  { rewrite (uw_conns _ _ _ _ Hu1). apply lookup_insert_eq. }
  apply wp_bind. eapply wp_conn_reserve_job; [done|done|done|done|done|].
  intros s2 HR2 Hres. destruct (reserved_frame c j _ Jb s1 s2 HC1 (lo_job _ _ _ _ _ HL1) Hres)
    as [HF2 HW2].
  destruct Hres as [_ _ [m Hc2] (Jb' & Hj2 & Hz & now & Hdl) _].
  assert (st_conns s2 !! c = Some (unwait C <| c_pending_timeout := -1 |> <| c_soonest_job := m |>))
    as HC2 by (rewrite Hc2; apply lookup_insert_eq).
  assert (st_jobs s2 !! j = Some Jb') as HJ2 by (rewrite Hj2; apply lookup_insert_eq).
  assert (job_line MSG_RESERVED Jb' = job_line MSG_RESERVED Jb) as Hline.
  { unfold job_line. pose proof (f_equal (λ J, r_id (j_r J)) Hz) as H1.
    pose proof (f_equal (λ J, r_body_size (j_r J)) Hz) as H2.
    unfold z_job in H1, H2. rsimpl_in H1. rsimpl_in H2. by rewrite H1, H2. }
  eapply wp_reply_job; [done|done|exact HC2|exact HJ2|].
  rewrite Hline. intros s3 HR3 Hio Hk Hnow. eapply (HQ s3 m); [done| | | |exact Hnow| | |exact Hk].
  - eapply wait_rep_sim; [by eapply io_wait|]. by eapply wait_rep_sim.
  - etrans; [exact HF1|]. etrans; [exact HF2|]. by eapply io_frame.
  - exists Jb', now. rewrite (io_jobs _ _ _ Hio). split; [done|].
    pose proof (f_equal (λ J, r_ttr (j_r J)) Hz) as H3. unfold z_job in H3. rsimpl_in H3. congruence.
  - intros c' Hne. rewrite (io_other _ _ _ Hio c' Hne), Hc2, lookup_insert_ne by done.
    by rewrite (uw_conns _ _ _ _ Hu1), lookup_insert_ne.
  - eapply only_insert_eq. rewrite (io_jobs _ _ _ Hio), Hj2. by rewrite (uw_jobs _ _ _ _ Hu1).
Qed.

Lemma wp_process_one P ids X s j t T (Q : unit → St → Prop) :
  queue_rep P ids X s → wait_rep ∅ s → cached X P s →
  P !! j = Some (InReady t) → st_tubes s !! t = Some T → ms_items (t_waiting_conns T) ≠ [] →
  (∀ c s', served P j c s s' → queue_rep (<[j := InReserved c]> P) ids X s' →
     wait_rep ∅ s' → cached X (<[j := InReserved c]> P) s' → Q tt s') →
  wp (process_one j) Q s.
Proof.
  intros HR HW Hca Hj HT Hne HQ. unfold process_one. wsteps.
  eapply wp_remove_ready_job; [done..|]. intros s1 HR1 [HW1 HF1 HC1] Hpos1 Hl1.
  destruct (qr_place _ _ _ _ HR j _ Hj) as (Jb & t' & T' & HJb & [Hst Ht] & _).
  destruct (same_but_lookup _ _ _ _ _ Hpos1 HJb) as (Jb1 & HJb1 & He1).
  apply erase_pos_inv in He1 as (Hr1 & Ht1 & _ & _). rewrite Ht in Ht1.
  destruct (same_but_lookup _ _ _ _ _ (ws_tubes _ _ HW1) HT) as (T1 & HT1 & [= Hwc]).
  unfold tube_of. wsteps.
  destruct (ms_take_Some (t_waiting_conns T1)) as (c & a & Htake & Hp & _); [by rewrite Hwc|].
  rewrite Htake. unfold upd_global_stat. wsteps.
  assert (wait_rep ∅ s1) as HW1' by (by eapply wait_rep_sim).
  assert (c ∈ ms_items (t_waiting_conns T1)) as Hc1 by (rewrite <- Hp; by left).
  destruct (wr_sound _ _ HW1' t T1 c HT1 Hc1) as (C & HC & Hin & Hwt).
  specialize (Hwt ltac:(set_solver)).
  match goal with |- wp _ _ ?x => set (s2 := x) end.
  assert (quiet (taken s1 t T1 a) s2) as Hq by solve_quiet.
  assert (loose (delete j P) s2 j t Jb1) as HL.
  { eapply loose_quiet; [exact Hq|]. split; try done; [apply lookup_delete_eq|congruence|].
    unfold taken. rsimpl. rewrite lookup_insert_eq. eauto. }
  apply wp_bind_inv. destruct (Hca c C) as [HcX Hcs]; [by rewrite <- HC1|done|].
  eapply (wp_serve (delete j P) ids X s2 c C j t Jb1); [| |exact HL|done|exact HC|done| |].
  - eapply queue_rep_quiet; [exact Hq|]. by apply taken_queue.
  - eapply wait_rep_sim; [apply Hq|]. by apply taken_wait.
  - intros Hs x Hx. apply lookup_delete_Some in Hx as [_ Hx].
    by eapply Hcs.
  - rewrite insert_delete_eq. intros s3 m HR3 HW3 HF3 Hd3 Hn3 Ho3 Hon3 Hk3.
    assert (∀ c', c' ≠ c → erase_tick <$> st_conns s3 !! c' = erase_tick <$> st_conns s !! c') as Ho.
    { intros c' Hne'. rewrite (Ho3 c' Hne'). by rewrite <- HC1. }
    assert (job_line MSG_RESERVED Jb1 = job_line MSG_RESERVED Jb) as Hline.
    { unfold job_line. by rewrite Hr1. }
    rewrite Hline in Hn3.
    apply (HQ c); [|done|done|].
    + split; [| |done|done|done| |].
      * exists t, T, C. rewrite <- Hwc, <- HC1. by split_and!.
      * exists C, Jb, m. rewrite <- HC1. by split_and!.
      * etrans; [exact HF1|]. etrans; [|exact HF3]. etrans; [|apply Hq].
        unfold taken. solve_frame.
      * transitivity s1; [by apply only_pos|]. intros x Hx. by apply Hon3.
    + eapply cached_served; [exact Hca|exact Ho|]. intros C' HC'.
      destruct Hn3 as (C3 & HC3 & He3). rewrite HC' in HC3. apply (inj Some) in HC3 as <-.
      assert (c_type C' = c_type (unwait C)) as Hty by exact (f_equal c_type He3).
      unfold conn_waiting. rewrite Hty. apply (unwait_waiting C).
Qed.

(** ** The loop *)

(** The specification of the loop: as long as some job is awaited, the best one
    is handed to a connection that waits for it. *)
Inductive serving (now : Z) : places → St → places → St → Prop :=
  | serving_done P s s' :
      woken now s s' → (∀ j, ¬ awaited P now s' j) → serving now P s P s'
  | serving_next P s s1 j c s2 P' s' :
      woken now s s1 → best_of (st_jobs s1) (awaited P now s1) (Some j) →
      served P j c s1 s2 → serving now (<[j := InReserved c]> P) s2 P' s' →
      serving now P s P' s'.

Definition is_ready (p : place) : Prop := match p with InReady _ => True | _ => False end.
#[local] Instance is_ready_dec p : Decision (is_ready p).
Proof. destruct p; simpl; solve_decision. Defined.
Definition ready_size (P : places) : nat := size (filter (λ x : jobp * place, is_ready x.2) P).

Lemma ready_size_serve P j t c :
  P !! j = Some (InReady t) → ready_size P = S (ready_size (<[j := InReserved c]> P)).
Proof.
  intros Hj. unfold ready_size. rewrite map_filter_insert_False by (simpl; tauto).
  rewrite <- (insert_delete_id P j (InReady t)) at 1 by done.
  rewrite map_filter_insert_True by done. rewrite map_size_insert_None; [done|].
  rewrite map_lookup_filter_None. left. apply lookup_delete_eq.
Qed.

Lemma ready_size_jobs P ids X s : queue_rep P ids X s → (ready_size P <= size (st_jobs s))%nat.
Proof.
  intros HR. unfold ready_size. transitivity (size P).
  { rewrite <- !size_dom. apply subseteq_size, dom_filter_subseteq. }
  rewrite <- !size_dom. apply subseteq_size. intros j [p Hp]%elem_of_dom.
  destruct (qr_place _ _ _ _ HR j p Hp) as (J & _ & _ & HJ & _). apply elem_of_dom. eauto.
Qed.

Lemma wp_process_queue_loop fuel P ids X s now (Q : unit → St → Prop) :
  queue_rep P ids X s → wait_rep ∅ s → cached X P s → (ready_size P <= fuel)%nat →
  (∀ P' s', serving now P s P' s' → queue_rep P' ids X s' → wait_rep ∅ s' → cached X P' s' →
     Q tt s') →
  wp (process_queue_loop fuel now) Q s.
Proof.
  revert P s. induction fuel as [|fuel IH]; intros P s HR HW Hca Hf HQ; cbn [process_queue_loop];
    apply wp_bind; (eapply wp_next_awaited_job; [done|]); intros r s1 HR1 Hwk Hb.
  all: pose proof (wk_quiet _ _ _ Hwk) as Hq.
  all: assert (wait_rep ∅ s1) as HW1 by (eapply wait_rep_sim; [apply Hq|done]).
  all: assert (cached X P s1) as Hca1
    by (intros c C; rewrite (js_conns _ _ (qu_step _ _ Hq)); apply Hca).
  all: destruct r as [j|]; [|wsteps; apply (HQ P); [by apply serving_done|done..]].
  all: pose proof Hb as [(t & T & _ & Hj & HT & Hne & _) _].
  { pose proof (ready_size_serve P j t 1%positive Hj). lia. }
  apply wp_bind. eapply wp_process_one; [done..|]. intros c s2 Hse HR2 HW2 Hca2.
  eapply IH; [done..| |].
  - erewrite (ready_size_serve P j t c) in Hf by done. lia.
  - intros P' s' Hrun. apply HQ. by eapply serving_next.
Qed.

Lemma wp_process_queue P ids X s (Q : unit → St → Prop) :
  queue_rep P ids X s → wait_rep ∅ s → cached X P s →
  (∀ now P' s', let s1 := s <| st_tick ::= S |> in
     serving now P s1 P' s' → queue_rep P' ids X s' → wait_rep ∅ s' → cached X P' s' →
     Q tt s') →
  wp process_queue Q s.
Proof.
  intros HR HW Hca HQ. unfold process_queue. wsteps.
  set (s1 := s <| st_tick ::= S |>). assert (quiet s s1) as Hq by solve_quiet.
  assert (queue_rep P ids X s1) as HR1 by (by eapply queue_rep_quiet).
  eapply wp_process_queue_loop; [done| |done| |].
  - eapply wait_rep_sim; [apply Hq|done].
  - etrans; [by eapply ready_size_jobs|done].
  - intros P' s' Hrun. by apply (HQ t).
Qed.
End serve.
