(* ===== verification/Runs.v ===== *)
(** What a run of [process_queue] does: consequences of [serving], and [drains],
    the specification of the procedures that give jobs back to their tubes. *)
From S2P Require Import Prelude Heap Ms State Monad JobList JobHash Tube Job Wal Conn Queue QueueRep QueueOps QueueConn QueueProc Process.
#[local] Open Scope Z_scope.

(** ** What a run of the loop does *)

Section runs.
Implicit Types (P : places) (s : St) (j : jobp) (t : tubep) (c : connp).

Lemma serving_quiescent now P s P' s' :
  serving now P s P' s' → ∀ j, ¬ awaited P' now s' j.
Proof. by induction 1. Qed.

Lemma serving_frame now P s P' s' : serving now P s P' s' → qframe s s'.
Proof.
  induction 1 as [P s s' Hw _|P s s1 j c s2 P' s' Hw _ Hse _ IH].
  - apply Hw.
  - etrans; [apply Hw|]. etrans; [apply (se_frame _ _ _ _ _ Hse)|done].
Qed.

(** A job keeps its place, or goes from ready to reserved by a connection that
    waited for its tube. *)
Definition fair_move (P P' : places) (s : St) j : Prop :=
  P' !! j = P !! j ∨
  ∃ t c, P !! j = Some (InReady t) ∧ P' !! j = Some (InReserved c) ∧
    ∃ C, st_conns s !! c = Some C ∧ conn_waiting C = true ∧ t ∈ ms_items (c_watch C).

Lemma erase_tick_waiting s s' c C' :
  erase_tick <$> st_conns s' !! c = erase_tick <$> st_conns s !! c →
  st_conns s' !! c = Some C' → ∃ C, st_conns s !! c = Some C ∧
    conn_waiting C = conn_waiting C' ∧ c_watch C = c_watch C'.
Proof.
  intros He HC'. rewrite HC' in He. destruct (st_conns s !! c) as [C|]; [|done].
  apply (inj Some) in He. exists C. split; [done|].
  assert (c_type C' = c_type C) as Ht by exact (f_equal c_type He).
  assert (c_watch C' = c_watch C) as Hw by exact (f_equal c_watch He).
  unfold conn_waiting. by rewrite Ht, Hw.
Qed.

Lemma handed_not_waiting s c C j line m C' :
  now_is s c (handed C j line m) → st_conns s !! c = Some C' → conn_waiting C' = false.
Proof.
  intros (C0 & HC0 & He) HC'. rewrite HC' in HC0. apply (inj Some) in HC0 as <-.
  assert (c_type C' = c_type (unwait C)) as Hty by exact (f_equal c_type He).
  unfold conn_waiting. rewrite Hty. apply (unwait_waiting C).
Qed.

(** A connection that waits after a job was handed over waited before. *)
Lemma served_waiting P j c s s' c' C' :
  served P j c s s' → st_conns s' !! c' = Some C' → conn_waiting C' = true →
  ∃ C, st_conns s !! c' = Some C ∧ conn_waiting C = true ∧ c_watch C = c_watch C'.
Proof.
  intros [_ (C0 & Jb & m & _ & _ & Hn) _ _ Ho _ _] HC' Hwt. destruct (decide (c' = c)) as [->|Hne].
  - by rewrite (handed_not_waiting _ _ _ _ _ _ _ Hn HC') in Hwt.
  - destruct (erase_tick_waiting _ _ _ _ (Ho c' Hne) HC') as (C & ? & ? & ?).
    exists C. split_and!; congruence.
Qed.

Lemma fair_move_trans P P1 P2 s s1 j :
  (∀ c C1, st_conns s1 !! c = Some C1 → conn_waiting C1 = true →
     ∃ C, st_conns s !! c = Some C ∧ conn_waiting C = true ∧ c_watch C = c_watch C1) →
  fair_move P P1 s j → fair_move P1 P2 s1 j → fair_move P P2 s j.
Proof.
  intros Hc [H1|(t & c & H1 & H2 & HC)] [G1|(t' & c' & G1 & G2 & C & GC & Gw & Gt)].
  - left. congruence.
  - right. exists t', c'. destruct (Hc c' C GC Gw) as (C0 & ? & ? & Heq).
    split_and!; [congruence|done|]. exists C0. by rewrite Heq.
  - right. exists t, c. split_and!; [done|congruence|done].
  - congruence.
Qed.

Lemma serving_fair now P s P' s' : serving now P s P' s' → ∀ j, fair_move P P' s j.
Proof.
  intros Hrun. induction Hrun as [P s s' Hw _|P s s1 j0 c s2 P' s' Hw _ Hse _ IH]; intros j; [by left|].
  pose proof (js_conns _ _ (qu_step _ _ (wk_quiet _ _ _ Hw))) as Hcs.
  eapply fair_move_trans; [| |apply IH].
  - rewrite <- Hcs. intros c' C1. by eapply served_waiting.
  - destruct (se_ready _ _ _ _ _ Hse) as (t & T & C & Hj & _ & _ & HC & Hwt & Hin).
    destruct (decide (j = j0)) as [->|Hne]; [right|left; by rewrite lookup_insert_ne].
    exists t, c. rewrite lookup_insert_eq, <- Hcs. split_and!; eauto.
Qed.

(** A connection gets at most one job, since it stops waiting. *)
Lemma serving_once now P s P' s' c j j' :
  serving now P s P' s' → P !! j ≠ Some (InReserved c) → P !! j' ≠ Some (InReserved c) →
  P' !! j = Some (InReserved c) → P' !! j' = Some (InReserved c) → j = j'.
Proof.
  assert (∀ P s P' s' c, serving now P s P' s' →
    (∀ C, st_conns s !! c = Some C → conn_waiting C = false) →
    ∀ x, P' !! x = Some (InReserved c) → P !! x = Some (InReserved c)) as Hno.
  { clear. intros P s P' s' c Hrun Hc x Hx.
    destruct (serving_fair _ _ _ _ _ Hrun x) as [Heq|(t & c' & _ & Hx' & C & HC & Hwt & _)];
      [congruence|]. rewrite Hx in Hx'. simplify_eq. by rewrite (Hc C HC) in Hwt. }
  intros Hrun. induction Hrun as [|P s s1 j0 c0 s2 P' s' Hw _ Hse Hrun IH]; [done|].
  intros Hj Hj' HPj HPj'. destruct (decide (c0 = c)) as [->|Hne].
  - destruct (se_conn _ _ _ _ _ Hse) as (C0 & Jb & m & _ & _ & Hn).
    assert (∀ x, P' !! x = Some (InReserved c) → P !! x ≠ Some (InReserved c) → x = j0) as Hx.
    { intros x Hx Hx0. pose proof (Hno _ _ _ _ c Hrun) as H.
      destruct (decide (x = j0)) as [|Hne]; [done|].
      rewrite <- (lookup_insert_ne P j0 x (InReserved c)) in Hx0 by done. destruct Hx0.
      apply H; [|done]. intros C HC. exact (handed_not_waiting _ _ _ _ _ _ _ Hn HC). }
    rewrite (Hx j), (Hx j'); done.
  - apply IH; try done.
    + destruct (decide (j = j0)) as [->|]; [rewrite lookup_insert_eq; congruence|].
      by rewrite lookup_insert_ne.
    + destruct (decide (j' = j0)) as [->|]; [rewrite lookup_insert_eq; congruence|].
      by rewrite lookup_insert_ne.
Qed.
End runs.

(** ** Giving jobs back *)

(** The connections that wait in [s'] waited in [s], for the same tubes. *)
Definition waited (s s' : St) : Prop :=
  ∀ c C', st_conns s' !! c = Some C' → conn_waiting C' = true →
    ∃ C, st_conns s !! c = Some C ∧ conn_waiting C = true ∧ c_watch C = c_watch C'.
#[export] Instance waited_pre : PreOrder waited.
Proof.
  split; [intros s c C; eauto|]. intros s1 s2 s3 H1 H2 c C3 HC3 Hw3.
  destruct (H2 c C3 HC3 Hw3) as (C2 & HC2 & Hw2 & <-).
  destruct (H1 c C2 HC2 Hw2) as (C1 & HC1 & Hw1 & <-). eauto.
Qed.

(** [j], of the tube [t], was given back: it is ready, or buried when the heap
    could not grow, or a connection that waited for [t] in [s] got it. *)
Definition lands (s : St) (P' : places) (j : jobp) (t : tubep) : Prop :=
  P' !! j = Some (InReady t) ∨ P' !! j = Some (InBuried t) ∨
  ∃ c C, P' !! j = Some (InReserved c) ∧ st_conns s !! c = Some C ∧
    conn_waiting C = true ∧ t ∈ ms_items (c_watch C).

(** A job that may be in no place: incoming, or a copy. *)
Definition idle (J : Job) : Prop := r_state (j_r J) = Invalid ∨ r_state (j_r J) = Copy.
Definition idle_at (P : places) (s : St) (j : jobp) : Prop :=
  ∀ J, st_jobs s !! j = Some J → P !! j = None → idle J.

(** What the connections outside [X] know of their soonest job they still know,
    and one that does not wait is told nothing. *)
Record tells (X : gset connp) (P : places) (s : St) (P' : places) (s' : St) : Prop := {
  tl_known c : c ∉ X → known P s c → known P' s' c;
  tl_calm c C : st_conns s !! c = Some C → conn_waiting C = false → c_soonest_job C = None →
    ∃ C', st_conns s' !! c = Some C' ∧ c_soonest_job C' = None;
}.

(** What a connection is saying: its state, the job it sends, whether it waits. *)
Definition conn_talk (C : Conn) : connstate * option jobp * bool :=
  (c_state C, c_out_job C, conn_waiting C).
Definition replying (st : connstate) : Prop := st = STATE_SEND_WORD ∨ st = STATE_SEND_JOB.

(** [c] waited, and is being told of a job that it holds. *)
Definition told (P' : places) c (C C' : Conn) : Prop :=
  conn_waiting C = true ∧ conn_waiting C' = false ∧ replying (c_state C') ∧
  ∃ j, c_out_job C' = Some j ∧ P' !! j = Some (InReserved c).
Definition talks (s : St) (P' : places) (s' : St) : Prop :=
  ∀ c C, st_conns s !! c = Some C →
    ∃ C', st_conns s' !! c = Some C' ∧ (conn_talk C' = conn_talk C ∨ told P' c C C').

Lemma talks_same s P' s' : st_conns s' = st_conns s → talks s P' s'.
Proof. intros Hc c C. rewrite Hc. eauto. Qed.
Lemma talks_insert s P' s' c C C' :
  st_conns s !! c = Some C → conn_talk C' = conn_talk C →
  st_conns s' = <[c := C']> (st_conns s) → talks s P' s'.
Proof.
  intros HC Ht Hs c' D HD. rewrite Hs. destruct (decide (c' = c)) as [->|].
  - rewrite lookup_insert_eq. exists C'. split; [done|]. left. congruence.
  - rewrite lookup_insert_ne by done. eauto.
Qed.

(** Only the jobs of [D] have moved, but for the ready jobs that were served. *)
Record stays (X : gset connp) (D : gset jobp) (P : places) (s : St) (P' : places) (s' : St) : Prop := {
  st_move j : j ∉ D → fair_move P P' s j;
  st_same j : j ∉ D → is_Some (st_jobs s !! j) → P' !! j = P !! j →
    erase_pos <$> st_jobs s' !! j = erase_pos <$> st_jobs s !! j;
  st_idle j : j ∉ D → idle_at P s j → idle_at P' s' j;
  st_waited : waited s s';
  st_tube j Jb : st_jobs s !! j = Some Jb →
    ∃ Jb', st_jobs s' !! j = Some Jb' ∧ j_tube Jb' = j_tube Jb;
  st_conn c C : st_conns s !! c = Some C →
    ∃ C', st_conns s' !! c = Some C' ∧ z_conn C' = z_conn C;
  st_tells : tells X P s P' s';
  st_talks : talks s P' s';
}.

(** No connection that waits in [s] has a job of [D]. *)
Definition unheld (D : gset jobp) (s : St) (P : places) : Prop :=
  ∀ j c C, j ∈ D → P !! j = Some (InReserved c) → st_conns s !! c = Some C → conn_waiting C = false.
Lemma unheld_empty s P : unheld ∅ s P.
Proof. by intros ??? ?%not_elem_of_empty. Qed.
Lemma unheld_one s P j : (∀ c, P !! j ≠ Some (InReserved c)) → unheld {[j]} s P.
Proof. intros Hj x c C ->%elem_of_singleton Hx. by destruct (Hj c). Qed.
Lemma unheld_none s P j : P !! j = None → unheld {[j]} s P.
Proof. intros Hj. apply unheld_one. intros c. by rewrite Hj. Qed.
#[local] Hint Resolve unheld_empty : core.

(** The jobs of [D] are given back; the others stay as they are, or are
    served. *)
Record drains (X : gset connp) (D : gset jobp) (P : places) (s : St) (P' : places) (s' : St) : Prop := {
  dr_stays : stays X D P s P' s';
  dr_lands j Jb t : j ∈ D → st_jobs s !! j = Some Jb → j_tube Jb = Some t → lands s P' j t;
}.

Lemma waited_step s s' : job_step s s' → waited s s'.
Proof. intros Hs c C. rewrite (js_conns _ _ Hs). eauto. Qed.

Lemma tells_step X P P' s s' :
  st_conns s' = st_conns s →
  (∀ j c, P' !! j = Some (InReserved c) → P !! j = Some (InReserved c)) → tells X P s P' s'.
Proof.
  intros Hc HP. split.
  - intros c _ Hk C. rewrite Hc. intros HC Hs j Hj%HP. by apply (Hk C HC Hs j).
  - intros c C HC _ Hs. rewrite Hc. eauto.
Qed.
Lemma tells_trans X P s P1 s1 P2 s2 :
  waited s s1 → (∀ c C, st_conns s !! c = Some C → is_Some (st_conns s1 !! c)) →
  tells X P s P1 s1 → tells X P1 s1 P2 s2 → tells X P s P2 s2.
Proof.
  intros Hw Hl [K1 N1] [K2 N2]. split; [auto|]. intros c C HC Hwt Hs.
  destruct (N1 c C HC Hwt Hs) as (C1 & HC1 & Hs1). eapply N2; [done| |done].
  destruct (conn_waiting C1) eqn:Hw1; [|done].
  destruct (Hw c C1 HC1 Hw1) as (? & ? & ? & _). congruence.
Qed.

Section drains.
Implicit Types (X : gset connp) (D : gset jobp) (P : places) (s : St).
Implicit Types (j : jobp) (t : tubep) (c : connp).

Lemma lands_fair s s1 P1 P2 j t :
  waited s s1 → lands s P1 j t → fair_move P1 P2 s1 j → lands s P2 j t.
Proof.
  intros Hw [H1|[H1|(c & C & H1 & HC)]] [H2|(t' & c' & G1 & G2 & C' & GC & Gw & Gt)];
    rewrite ?H1 in *; try by (unfold lands; rewrite H2; eauto 10).
  all: simplify_eq. destruct (Hw c' C' GC Gw) as (C & ? & ? & Heq).
  right; right. exists c', C. rewrite Heq. by split_and!.
Qed.

Lemma lands_waited s s1 P j t : waited s s1 → lands s1 P j t → lands s P j t.
Proof.
  intros Hw [H|[H|(c & C & H & HC & Hwt & Hin)]]; [by left|by right; left|].
  destruct (Hw c C HC Hwt) as (C0 & ? & ? & Heq). right; right. exists c, C0. by rewrite Heq.
Qed.

Lemma fair_move_back P P1 P2 s s1 j :
  fair_move P P1 s j → fair_move P1 P2 s1 j → P2 !! j = P !! j → P1 !! j = P !! j.
Proof.
  intros [H1|(t & c & H1 & H2 & _)]; [done|].
  intros [G|(t' & c' & G1 & G2 & _)] Heq; congruence.
Qed.

Lemma qframe_tube s s' j Jb :
  qframe s s' → st_jobs s !! j = Some Jb →
  ∃ Jb', st_jobs s' !! j = Some Jb' ∧ j_tube Jb' = j_tube Jb.
Proof.
  intros HF HJ. destruct (same_but_lookup _ _ _ _ _ (qf_jobs _ _ HF) HJ) as (Jb' & ? & He).
  exists Jb'. split; [done|exact (f_equal j_tube He)].
Qed.

Lemma qframe_conn s s' c C :
  qframe s s' → st_conns s !! c = Some C →
  ∃ C', st_conns s' !! c = Some C' ∧ z_conn C' = z_conn C.
Proof. intros HF. apply same_but_lookup, HF. Qed.

Lemma talks_trans D2 P1 P2 s s1 s2 :
  talks s P1 s1 → talks s1 P2 s2 → unheld D2 s P1 → (∀ j, j ∉ D2 → fair_move P1 P2 s1 j) →
  talks s P2 s2.
Proof.
  intros K1 K2 Hu HM c C HC. destruct (K1 c C HC) as (C1 & HC1 & H1).
  destruct (K2 c C1 HC1) as (C2 & HC2 & H2). exists C2. split; [done|].
  destruct H1 as [H1|(Hw & Hw1 & Hst & j & Ho & Hj)].
  - destruct H2 as [H2|H2]; [left; congruence|right]. unfold told in *.
    injection H1 as _ _ <-. done.
  - destruct H2 as [H2|[Hw2 _]]; [|congruence]. injection H2 as Hs2 Ho2 Hw2. right.
    unfold told. rewrite Hs2, Ho2, Hw2. split_and!; [done..|]. exists j. split; [done|].
    destruct (HM j) as [->|(? & ? & ? & _)]; [|done|congruence].
    intros Hin. by rewrite (Hu j c C Hin Hj HC) in Hw.
Qed.

Lemma stays_trans X D1 D2 P s P1 s1 P2 s2 :
  stays X D1 P s P1 s1 → stays X D2 P1 s1 P2 s2 → unheld D2 s P1 → stays X (D1 ∪ D2) P s P2 s2.
Proof.
  intros [M1 S1 I1 W1 T1 C1 L1 K1] [M2 S2 I2 W2 T2 C2 L2 K2] Hu. split.
  - intros j [H1 H2]%not_elem_of_union. eapply fair_move_trans; [exact W1|auto..].
  - intros j [H1 H2]%not_elem_of_union [Jb HJ] Heq.
    pose proof (fair_move_back _ _ _ _ _ _ (M1 j H1) (M2 j H2) Heq) as Hb.
    destruct (T1 j Jb HJ) as (J1 & HJ1 & _). rewrite S2, S1; eauto; congruence.
  - intros j [H1 H2]%not_elem_of_union ?. auto.
  - by etrans.
  - intros j Jb (J1 & HJ1 & <-)%T1. eauto.
  - intros c C (c1 & Hc1 & <-)%C1. eauto.
  - eapply tells_trans; [exact W1| |done..]. intros c C (? & ? & _)%C1. eauto.
  - by eapply talks_trans.
Qed.

Lemma idle_at_same P P' s s' j :
  P' !! j = P !! j → erase_pos <$> st_jobs s' !! j = erase_pos <$> st_jobs s !! j →
  idle_at P s j → idle_at P' s' j.
Proof.
  intros HP He Hi J' HJ' Hn. rewrite HJ' in He. destruct (st_jobs s !! j) as [J|] eqn:HJ; [|done].
  apply (inj Some) in He. assert (j_r J' = j_r J) as Hr by exact (f_equal j_r He).
  unfold idle. rewrite Hr. apply (Hi J); congruence.
Qed.

(** Steps in which nothing is served. *)
Lemma stays_step X D P P' s s' :
  (∀ j, j ∉ D → P' !! j = P !! j ∧ erase_pos <$> st_jobs s' !! j = erase_pos <$> st_jobs s !! j) →
  waited s s' → qframe s s' → tells X P s P' s' → talks s P' s' → stays X D P s P' s'.
Proof.
  intros Hj Hw HF Hl Hk. split.
  - intros j Hn. left. by apply Hj.
  - intros j Hn _ _. by destruct (Hj j Hn).
  - intros j Hn. destruct (Hj j Hn). by apply idle_at_same.
  - done.
  - intros j Jb. by apply qframe_tube.
  - intros c C. by apply qframe_conn.
  - done.
  - done.
Qed.

Lemma quiet_stays X P s s' : quiet s s' → stays X ∅ P s P s'.
Proof.
  intros Hq. apply stays_step;
    [|apply waited_step, Hq|apply Hq|by apply tells_step; [apply Hq|]|apply talks_same, Hq].
  intros j _. by rewrite (qu_jobs _ _ Hq).
Qed.

(** One job moves. *)
Lemma stays_one X P P' s s' j :
  (∀ x, x ≠ j → P' !! x = P !! x) → only j s s' → waited s s' → qframe s s' →
  tells X P s P' s' → talks s P' s' → stays X {[j]} P s P' s'.
Proof.
  intros HP Ho Hw HF Hl Hk. apply stays_step; [|done..].
  intros x Hx%not_elem_of_singleton. split; [by apply HP|by apply Ho].
Qed.

Lemma served_tells X P s s' j c : served P j c s s' → tells X P s (<[j := InReserved c]> P) s'.
Proof.
  intros Hse. split.
  - intros c' _ Hk. destruct (decide (c' = c)) as [->|Hne]; [apply Hse|].
    intros C' HC' Hs x. pose proof (known_tick P s s' c' (se_other _ _ _ _ _ Hse c' Hne) Hk C' HC' Hs x).
    destruct (decide (x = j)) as [->|]; [rewrite lookup_insert_eq; congruence|].
    by rewrite lookup_insert_ne.
  - intros c' C HC Hw Hs. assert (c' ≠ c) as Hne.
    { intros ->. destruct (se_ready _ _ _ _ _ Hse) as (? & ? & ? & _ & _ & _ & ? & ? & _). congruence. }
    pose proof (se_other _ _ _ _ _ Hse c' Hne) as He. rewrite HC in He.
    destruct (st_conns s' !! c') as [C'|]; [|done]. apply (inj Some) in He. exists C'.
    split; [done|]. rewrite <- Hs. exact (f_equal c_soonest_job He).
Qed.

Lemma served_talks P s s' j c : served P j c s s' → talks s (<[j := InReserved c]> P) s'.
Proof.
  intros Hse c' C HC. destruct (decide (c' = c)) as [->|Hne].
  - destruct (se_conn _ _ _ _ _ Hse) as (C0 & Jb & m & HC0 & _ & Hn).
    pose proof Hn as (C' & HC' & He). exists C'. split; [done|right].
    assert (C0 = C) as -> by congruence.
    destruct (se_ready _ _ _ _ _ Hse) as (? & ? & C1 & _ & _ & _ & HC1 & Hw & _).
    assert (C1 = C) as -> by congruence. split_and!; [done|by eapply handed_not_waiting| |].
    + assert (c_state C' = (line_reply (job_line MSG_RESERVED Jb) STATE_SEND_JOB).2) as ->
        by exact (f_equal c_state He).
      unfold replying, line_reply. case_match; auto.
    + exists j. rewrite lookup_insert_eq. split; [|done]. exact (f_equal c_out_job He).
  - pose proof (se_other _ _ _ _ _ Hse c' Hne) as He. rewrite HC in He.
    destruct (st_conns s' !! c') as [C'|]; [|done]. apply (inj Some) in He. exists C'.
    split; [done|left]. unfold conn_talk, conn_waiting.
    assert (c_type C' = c_type C) as -> by exact (f_equal c_type He).
    assert (c_state C' = c_state C) as -> by exact (f_equal c_state He).
    assert (c_out_job C' = c_out_job C) as -> by exact (f_equal c_out_job He). done.
Qed.

Lemma served_stays X P s s' j c :
  served P j c s s' → stays X {[j]} P s (<[j := InReserved c]> P) s'.
Proof.
  intros Hse. apply stays_one; [|apply Hse| |apply Hse|by apply served_tells|by apply served_talks].
  - intros x Hx. by rewrite lookup_insert_ne.
  - intros c' C'. by eapply served_waiting.
Qed.

(** Serving moves ready jobs only. *)
Lemma serving_stays X now P s P' s' : serving now P s P' s' → stays X ∅ P s P' s'.
Proof.
  induction 1 as [P s s' Hw _|P s s1 j0 c s2 P' s' Hw _ Hse Hrun IH].
  { apply quiet_stays, Hw. }
  assert (stays X {[j0]} P s P' s') as [M S I W T K L N].
  { rewrite <- (right_id_L ∅ (∪) {[j0]}), <- (left_id_L ∅ (∪) ({[j0]} ∪ ∅)).
    eapply stays_trans; [apply quiet_stays, Hw| |].
    - eapply stays_trans; [by apply served_stays|done|done].
    - rewrite (right_id_L ∅ (∪)). apply unheld_one.
      destruct (se_ready _ _ _ _ _ Hse) as (? & _ & _ & -> & _). done. }
  destruct (se_ready _ _ _ _ _ Hse) as (t & _ & C & Hj & _ & _ & HC & Hwt & Hin).
  pose proof (st_move _ _ _ _ _ _ IH j0 (not_elem_of_empty _)) as Hj'.
  assert (P' !! j0 = Some (InReserved c)) as Hj0.
  { destruct Hj' as [->|(? & ? & H & _)]; [by rewrite lookup_insert_eq|].
    by rewrite lookup_insert_eq in H. }
  assert (st_conns s1 = st_conns s) as Hcs by exact (js_conns _ _ (qu_step _ _ (wk_quiet _ _ _ Hw))).
  split; try done.
  - intros j _. destruct (decide (j = j0)) as [->|]; [|apply M; set_solver].
    right. exists t, c. rewrite <- Hcs. eauto 10.
  - intros j _ HJ Heq. destruct (decide (j = j0)) as [->|]; [congruence|]. apply S; [set_solver|done..].
  - intros j _. destruct (decide (j = j0)) as [->|]; [|apply I; set_solver].
    intros _ J _. congruence.
Qed.

Lemma drains_trans X D1 D2 P s P1 s1 P2 s2 :
  drains X D1 P s P1 s1 → drains X D2 P1 s1 P2 s2 → unheld D2 s P1 → drains X (D1 ∪ D2) P s P2 s2.
Proof.
  intros [S1 L1] [S2 L2] Hu. split; [by eapply stays_trans|].
  intros j Jb t Hj HJb Ht. destruct (st_tube _ _ _ _ _ _ S1 j Jb HJb) as (J1 & HJ1 & Ht1).
  rewrite Ht in Ht1. pose proof (st_waited _ _ _ _ _ _ S1) as Hw. destruct (decide (j ∈ D2)) as [H2|H2].
  - eapply lands_waited; [done|by eapply L2].
  - eapply lands_fair; [done|eapply L1; [set_solver|done..]|by apply S2].
Qed.

Lemma stays_drains X P s P' s' : stays X ∅ P s P' s' → drains X ∅ P s P' s'.
Proof. intros H. split; [done|set_solver]. Qed.
Lemma quiet_drains X P s s' : quiet s s' → drains X ∅ P s P s'.
Proof. intros. by apply stays_drains, quiet_stays. Qed.

(** A job is taken out of its place first. *)
Lemma drains_after_take X D P s s1 P' s' j :
  drains X ({[j]} ∪ D) (delete j P) s1 P' s' → only j s s1 → job_step s s1 →
  unheld D s (delete j P) → drains X ({[j]} ∪ D) P s P' s'.
Proof.
  intros [S L] Ho Hs Hu. pose proof (waited_step _ _ Hs) as Hw. pose proof (js_frame _ _ Hs) as HF. split.
  - assert ({[j]} ∪ D = {[j]} ∪ ({[j]} ∪ D)) as -> by set_solver.
    eapply stays_trans; [|exact S|].
    + apply stays_one; [|done..| |apply talks_same, Hs].
      * intros x Hx. by rewrite lookup_delete_ne.
      * apply tells_step; [apply Hs|]. intros x c [_ Hx]%lookup_delete_Some. done.
    + intros x c C [->%elem_of_singleton|Hx]%elem_of_union; [by rewrite lookup_delete_eq|by apply Hu].
  - intros x Xb t Hx HX Ht. destruct (qframe_tube _ _ _ _ HF HX) as (X1 & HX1 & Ht1).
    eapply lands_waited; [done|]. eapply L; [done..|]. by rewrite Ht1.
Qed.

(** One job is put in its tube. *)
Lemma drains_one X P s s' j t Jb (p : place) :
  st_jobs s !! j = Some Jb → j_tube Jb = Some t → p = InReady t ∨ p = InBuried t →
  only j s s' → job_step s s' → drains X {[j]} P s (<[j := p]> P) s'.
Proof.
  intros HJb Ht Hp Ho Hs. split.
  - apply stays_one; [|done|by apply waited_step|apply Hs| |apply talks_same, Hs].
    + intros x Hx. by rewrite lookup_insert_ne.
    + apply tells_step; [apply Hs|]. intros x c. destruct (decide (x = j)) as [->|].
      * rewrite lookup_insert_eq. destruct Hp; congruence.
      * by rewrite lookup_insert_ne.
  - intros x Xb t' ->%elem_of_singleton HX Ht'. simplify_eq.
    destruct Hp as [-> | ->]; [left|right; left]; by rewrite lookup_insert_eq.
Qed.
End drains.
