(* ===== verification/Owners.v ===== *)
(** The jobs that connections receive and send.

    [in_job] is a job without a place whose body is arriving; [out_job] is a job
    the connection holds, or a copy that only it knows, which is freed once it
    is sent.  [owns] says so of every connection but those that are being
    handled, whose fields may be between two values. *)
From S2P Require Import Prelude Heap Ms State Monad JobList JobHash Tube Job Wal Conn Queue QueueRep QueueOps QueueConn QueueProc Process Runs.
#[local] Open Scope Z_scope.

(** The body of [j] is arriving, and [n] of its bytes are there. *)
Definition arriving (P : places) (J : gmap jobp Job) (j : jobp) (n : Z) : Prop :=
  P !! j = None ∧ ∃ Jb, J !! j = Some Jb ∧ r_state (j_r Jb) = Invalid ∧ is_Some (j_tube Jb) ∧
    0 <= n <= r_body_size (j_r Jb) ∧ r_body_size (j_r Jb) <= j_cap Jb.

Definition copied (P : places) (J : gmap jobp Job) (j : jobp) : Prop :=
  P !! j = None ∧ ∃ Jb, J !! j = Some Jb ∧ r_state (j_r Jb) = Copy.
Definition leaving (P : places) (J : gmap jobp Job) (c : connp) (j : jobp) : Prop :=
  P !! j = Some (InReserved c) ∨ copied P J j.

(** The socket is open; the command is within what was read, and that within the
    buffer; no number of bytes is negative. *)
Definition inbuf (C : Conn) : Prop :=
  c_fd C ≠ 0 ∧ (c_cmd_len C <= c_cmd_read C <= LINE_BUF_SIZE)%nat ∧ 0 <= c_in_job_read C.
(** No bytes are to be thrown away. *)
Definition emptied (C : Conn) : Prop := inbuf C ∧ c_in_job_read C = 0.

Record own_conn (P : places) (J : gmap jobp Job) (c : connp) (C : Conn) : Prop := {
  oc_in j : c_in_job C = Some j →
    (c_state C = STATE_WANT_DATA ∨ c_state C = STATE_CLOSE) ∧ c_cmd_len C = 0%nat ∧
    arriving P J j (c_in_job_read C);
  oc_out j : c_out_job C = Some j →
    (replying (c_state C) ∨ c_state C = STATE_CLOSE) ∧ leaving P J c j;
  oc_data : c_state C = STATE_WANT_DATA → is_Some (c_in_job C);
  oc_send : c_state C = STATE_SEND_JOB → is_Some (c_out_job C);
  oc_inbuf : inbuf C;
  oc_empty : c_in_job C = None → c_state C ≠ STATE_BITBUCKET → c_state C ≠ STATE_CLOSE → c_in_job_read C = 0;
}.

Record owns (Y : gset connp) (P : places) (J : gmap jobp Job) (Cs : gmap connp Conn) : Prop := {
  ow_wait c C : Cs !! c = Some C → conn_waiting C = true → c_state C = STATE_WAIT;
  ow_conn c C : c ∉ Y → Cs !! c = Some C → own_conn P J c C;
  ow_in c1 c2 C1 C2 j : c1 ∉ Y → c2 ∉ Y → Cs !! c1 = Some C1 → Cs !! c2 = Some C2 →
    c_in_job C1 = Some j → c_in_job C2 = Some j → c1 = c2;
  ow_out c1 c2 C1 C2 j : c1 ∉ Y → c2 ∉ Y → Cs !! c1 = Some C1 → Cs !! c2 = Some C2 →
    c_out_job C1 = Some j → c_out_job C2 = Some j → c1 = c2;
}.

(** No connection but those of [Y] has [j]. *)
Definition unowned (Y : gset connp) (Cs : gmap connp Conn) (j : jobp) : Prop :=
  ∀ c C, c ∉ Y → Cs !! c = Some C → c_in_job C ≠ Some j ∧ c_out_job C ≠ Some j.

(** ** What [owns] sees *)

Definition o_conn (C : Conn) : Conn :=
  conn_zero <| c_type := Z.land (c_type C) CONN_TYPE_WAITING |> <| c_state := c_state C |> <| c_in_job := c_in_job C |>
    <| c_in_job_read := c_in_job_read C |> <| c_out_job := c_out_job C |>
    <| c_fd := c_fd C |> <| c_cmd_len := c_cmd_len C |> <| c_cmd_read := c_cmd_read C |>.
Definition o_job (J : Job) : Job :=
  mkJob (mkJobrec 0 0 0 0 (r_body_size (j_r J)) 0 0 0 0 0 0 0 (r_state (j_r J))) (j_tube J) None 0
    None None 0 0 [] (j_cap J).

Section owns.
Implicit Types (P : places) (X Y : gset connp) (J : gmap jobp Job) (Cs : gmap connp Conn).
Implicit Types (j : jobp) (c : connp) (C : Conn) (D : gset jobp) (s : St).

Lemma o_conn_inv C C' : o_conn C' = o_conn C →
  conn_waiting C' = conn_waiting C ∧ c_state C' = c_state C ∧ c_in_job C' = c_in_job C ∧
  c_in_job_read C' = c_in_job_read C ∧ c_out_job C' = c_out_job C ∧ (inbuf C → inbuf C').
Proof.
  intros H. split_and!.
  - assert (Z.land (c_type C') CONN_TYPE_WAITING = Z.land (c_type C) CONN_TYPE_WAITING) as Ht
      by exact (f_equal c_type H). unfold conn_waiting. by rewrite Ht.
  - exact (f_equal c_state H).
  - exact (f_equal c_in_job H).
  - exact (f_equal c_in_job_read H).
  - exact (f_equal c_out_job H).
  - unfold inbuf.
    assert (c_fd C' = c_fd C) as -> by exact (f_equal c_fd H).
    assert (c_cmd_len C' = c_cmd_len C) as -> by exact (f_equal c_cmd_len H).
    assert (c_cmd_read C' = c_cmd_read C) as -> by exact (f_equal c_cmd_read H).
    assert (c_in_job_read C' = c_in_job_read C) as -> by exact (f_equal c_in_job_read H). done.
Qed.

Lemma inbuf_z C C' : z_conn C' = z_conn C → inbuf C → inbuf C'.
Proof.
  intros He. unfold inbuf.
  assert (c_fd C' = c_fd C) as -> by exact (f_equal c_fd He).
  assert (c_cmd_len C' = c_cmd_len C) as -> by exact (f_equal c_cmd_len He).
  assert (c_cmd_read C' = c_cmd_read C) as -> by exact (f_equal c_cmd_read He).
  assert (c_in_job_read C' = c_in_job_read C) as -> by exact (f_equal c_in_job_read He). done.
Qed.

Lemma emptied_z C C' : z_conn C' = z_conn C → emptied C → emptied C'.
Proof.
  intros He [Hf Hr]. split; [by eapply inbuf_z|]. rewrite <- Hr. exact (f_equal c_in_job_read He).
Qed.
Lemma emptied_o C C' : o_conn C' = o_conn C → emptied C → emptied C'.
Proof. intros (_ & _ & _ & Hr & _ & Hf)%o_conn_inv [??]. split; [auto|congruence]. Qed.

(** A change of the jobs that keeps those that are arriving or copies. *)
Definition keeps_loose P J P' J' : Prop :=
  ∀ j Jb, P !! j = None → J !! j = Some Jb → P' !! j = None ∧ ∃ Jb', J' !! j = Some Jb' ∧ o_job Jb' = o_job Jb.

Lemma arriving_keeps P J P' J' j n :
  keeps_loose P J P' J' → arriving P J j n → arriving P' J' j n.
Proof.
  intros HK (HP & Jb & HJ & Hst & Ht & Hn & Hc). destruct (HK j Jb HP HJ) as (HP' & Jb' & HJ' & He).
  split; [done|]. exists Jb'.
  assert (r_state (j_r Jb') = r_state (j_r Jb)) as -> by exact (f_equal (λ B : Job, r_state (j_r B)) He).
  assert (r_body_size (j_r Jb') = r_body_size (j_r Jb)) as -> by exact (f_equal (λ B : Job, r_body_size (j_r B)) He).
  assert (j_tube Jb' = j_tube Jb) as -> by exact (f_equal j_tube He).
  assert (j_cap Jb' = j_cap Jb) as -> by exact (f_equal j_cap He). destruct Hn. by split_and!.
Qed.
Lemma copied_keeps P J P' J' j : keeps_loose P J P' J' → copied P J j → copied P' J' j.
Proof.
  intros HK (HP & Jb & HJ & Hst). destruct (HK j Jb HP HJ) as (HP' & Jb' & HJ' & He).
  split; [done|]. exists Jb'.
  assert (r_state (j_r Jb') = r_state (j_r Jb)) as -> by exact (f_equal (λ B : Job, r_state (j_r B)) He). done.
Qed.

(** The same of the jobs that some connection has. *)
Lemma own_conn_keeps P J P' J' c C C' :
  o_conn C' = o_conn C → own_conn P J c C →
  (∀ j n, c_in_job C = Some j → arriving P J j n → arriving P' J' j n) →
  (∀ j, c_out_job C = Some j → leaving P J c j → leaving P' J' c j) →
  own_conn P' J' c C'.
Proof.
  intros He. assert (c_cmd_len C' = c_cmd_len C) as Hl by exact (f_equal c_cmd_len He).
  apply o_conn_inv in He as (_ & Hs & Hi & Hr & Ho & Hf). intros [HI HO HD HS HF HE] Hin Hout.
  split; rewrite ?Hs, ?Hi, ?Hr, ?Ho, ?Hl; [| |auto..]; intros j Hj;
    [destruct (HI j Hj) as (? & ? & ?)|destruct (HO j Hj)]; auto.
Qed.

(** Updates of the other fields. *)
Lemma owns_same Y P J J' Cs Cs' :
  same_but o_job J J' → same_but o_conn Cs Cs' → owns Y P J Cs → owns Y P J' Cs'.
Proof.
  intros HJ HC [HW HO HI HU]. assert (keeps_loose P J P J') as HK.
  { intros j Jb HP HJb. split; [done|]. by eapply same_but_lookup. }
  split.
  - intros c C' HC' Hw. destruct (same_but_lookup_inv _ _ _ _ _ HC HC') as (C & HCc & He).
    apply o_conn_inv in He as (Ht & -> & _). apply (HW c C HCc). congruence.
  - intros c C' Hc HC'. destruct (same_but_lookup_inv _ _ _ _ _ HC HC') as (C & HCc & He).
    eapply own_conn_keeps; [done|by apply HO|..].
    + intros j n _. by apply arriving_keeps.
    + intros j _ [?|?]; [by left|right]. by eapply copied_keeps.
  - intros c1 c2 C1' C2' j H1 H2 HC1' HC2'.
    destruct (same_but_lookup_inv _ _ _ _ _ HC HC1') as (C1 & HC1 & (_ & _ & -> & _)%o_conn_inv).
    destruct (same_but_lookup_inv _ _ _ _ _ HC HC2') as (C2 & HC2 & (_ & _ & -> & _)%o_conn_inv).
    by eapply HI.
  - intros c1 c2 C1' C2' j H1 H2 HC1' HC2'.
    destruct (same_but_lookup_inv _ _ _ _ _ HC HC1') as (C1 & HC1 & (_ & _ & _ & _ & -> & _)%o_conn_inv).
    destruct (same_but_lookup_inv _ _ _ _ _ HC HC2') as (C2 & HC2 & (_ & _ & _ & _ & -> & _)%o_conn_inv).
    by eapply HU.
Qed.

(** Changes of a job that no connection has. *)
Lemma owns_unowned_at Y P P' J J' Cs j :
  (∀ x, x ≠ j → P' !! x = P !! x ∧ J' !! x = J !! x) → unowned Y Cs j → owns Y P J Cs →
  owns Y P' J' Cs.
Proof.
  intros HJ Hj [HW HO HI HU]. split; [done| |done..].
  intros c C Hc HC. destruct (Hj c C Hc HC) as [Hni Hno].
  eapply own_conn_keeps; [done|by apply HO|..]; intros x.
  - intros n Hx. destruct (HJ x) as [HPx HJx]; [congruence|]. unfold arriving. by rewrite HPx, HJx.
  - intros Hx. destruct (HJ x) as [HPx HJx]; [congruence|]. unfold leaving, copied. by rewrite HPx, HJx.
Qed.
Lemma owns_unowned Y P J J' Cs j :
  (∀ x, x ≠ j → J' !! x = J !! x) → unowned Y Cs j → owns Y P J Cs → owns Y P J' Cs.
Proof. intros HJ. apply owns_unowned_at. auto. Qed.

Lemma unowned_same Y Cs Cs' j : same_but o_conn Cs Cs' → unowned Y Cs j → unowned Y Cs' j.
Proof.
  intros HC Hj c C' Hc HC'.
  destruct (same_but_lookup_inv _ _ _ _ _ HC HC') as (C & HCc & (_ & _ & -> & _ & -> & _)%o_conn_inv).
  by apply (Hj c C).
Qed.

(** A job that connections have exists. *)
Lemma owns_fresh Y P J Cs j : J !! j = None → (∀ c, P !! j ≠ Some (InReserved c)) → owns Y P J Cs → unowned Y Cs j.
Proof.
  intros HJ HP [_ HO _ _] c C Hc HC. destruct (HO c C Hc HC) as [HI HOu _ _ _ _]. split; intros Hj.
  - destruct (HI j Hj) as (_ & _ & _ & Jb & ? & _). congruence.
  - destruct (HOu j Hj) as (_ & [?|(_ & Jb & ? & _)]); [by destruct (HP c)|congruence].
Qed.

(** A job that is in a place is not arriving, and only the connection that
    reserved it may be sending it. *)
Lemma owns_placed Y P J Cs j p :
  P !! j = Some p → (∀ c, p = InReserved c → c ∈ Y ∨ ∀ C, Cs !! c = Some C → c_out_job C ≠ Some j) →
  owns Y P J Cs → unowned Y Cs j.
Proof.
  intros HP Hp [_ HO _ _] c C Hc HC. destruct (HO c C Hc HC) as [HI HOu _ _ _ _]. split; intros Hj.
  - destruct (HI j Hj) as (_ & _ & ? & _). congruence.
  - destruct (HOu j Hj) as (_ & [Hr|(? & _)]); [|congruence].
    rewrite HP in Hr. apply (inj Some) in Hr. destruct (Hp c Hr) as [?|Hno]; [done|]. by destruct (Hno C HC).
Qed.

(** ** Moves *)

Lemma owns_stays X D Y P s P' s' :
  stays X D P s P' s' → dom (st_conns s') = dom (st_conns s) →
  (∀ j, j ∈ D → unowned Y (st_conns s) j) →
  owns Y P (st_jobs s) (st_conns s) → owns Y P' (st_jobs s') (st_conns s').
Proof.
  intros HS Hdom HD HO. pose proof HO as [HW HC HI HU].
  assert (∀ c C', st_conns s' !! c = Some C' → ∃ C, st_conns s !! c = Some C ∧
    c_in_job C' = c_in_job C ∧ c_in_job_read C' = c_in_job_read C ∧ (inbuf C → inbuf C') ∧
    c_cmd_len C' = c_cmd_len C ∧ (conn_talk C' = conn_talk C ∨ told P' c C C')) as Hback.
  { intros c C' HC'. assert (is_Some (st_conns s !! c)) as [C HCc] by (apply elem_of_dom; rewrite <- Hdom; apply elem_of_dom; eauto). exists C. split; [done|].
    destruct (st_conn _ _ _ _ _ _ HS c C HCc) as (C1 & HC1 & He).
    destruct (st_talks _ _ _ _ _ _ HS c C HCc) as (C2 & HC2 & Ht).
    assert (C1 = C') as -> by congruence. assert (C2 = C') as -> by congruence.
    split_and!; [exact (f_equal c_in_job He)|exact (f_equal c_in_job_read He)|by apply inbuf_z|exact (f_equal c_cmd_len He)|done]. }
  assert (∀ j Jb, j ∉ D → P !! j = None → st_jobs s !! j = Some Jb →
    P' !! j = None ∧ ∃ Jb', st_jobs s' !! j = Some Jb' ∧ o_job Jb' = o_job Jb) as HK.
  { intros j Jb Hj HP HJ. destruct (st_move _ _ _ _ _ _ HS j Hj) as [Heq|(? & ? & ? & _)]; [|congruence].
    split; [congruence|].
    pose proof (st_same _ _ _ _ _ _ HS j Hj) as He. rewrite HJ in He. specialize (He ltac:(eauto) Heq).
    destruct (st_jobs s' !! j) as [Jb'|]; [|done]. apply (inj Some) in He. exists Jb'. split; [done|].
    exact (f_equal o_job He). }
  assert (∀ j n, j ∉ D → arriving P (st_jobs s) j n → arriving P' (st_jobs s') j n) as Ha.
  { intros j n Hj HA. eapply (arriving_keeps (delete j P) {[j := default job_zero (st_jobs s !! j)]}).
    - intros x Xb _ [<- <-]%lookup_singleton_Some. destruct HA as (HP & Jb & HJ & _).
      rewrite HJ. simpl. by apply HK.
    - destruct HA as (HP & Jb & HJ & HA). split; [by rewrite lookup_delete_eq|]. exists Jb.
      rewrite HJ. simpl. by rewrite lookup_singleton_eq. }
  assert (∀ j c, j ∉ D → leaving P (st_jobs s) c j → leaving P' (st_jobs s') c j) as Hl.
  { intros j c Hj [Hr|(HP & Jb & HJ & Hst)].
    - left. destruct (st_move _ _ _ _ _ _ HS j Hj) as [->|(? & ? & ? & _)]; [done|congruence].
    - right. destruct (HK j Jb Hj HP HJ) as (HP' & Jb' & HJ' & He). split; [done|]. exists Jb'.
      split; [done|]. rewrite <- Hst. exact (f_equal (λ B : Job, r_state (j_r B)) He). }
  split.
  - intros c C' HC' Hw. destruct (Hback c C' HC') as (C & HCc & _ & _ & _ & _ & [Ht|(_ & Ht & _)]); [|congruence].
    injection Ht as -> _ Hw'. apply (HW c C); [done|]. congruence.
  - intros c C' Hc HC'. destruct (Hback c C' HC') as (C & HCc & Hi & Hr & Hf & Hcl & Ht).
    pose proof (HC c C Hc HCc) as [KI KO KD KS KF KE].
    destruct Ht as [Ht|(Hw & _ & Hst & j & Ho & Hj)].
    + injection Ht as Hst Ho _. split; rewrite ?Hst, ?Ho, ?Hi, ?Hr, ?Hcl; [| |auto..].
      { intros j Hj. destruct (KI j Hj) as (? & ? & ?). split_and!; [done..|]. apply Ha; [|done]. intros Hd.
        by destruct (HD j Hd c C Hc HCc). }
      intros j Hj. destruct (KO j Hj) as [? ?]. split; [done|]. apply Hl; [|done]. intros Hd.
      by destruct (HD j Hd c C Hc HCc).
    + pose proof (HW c C HCc Hw) as Hwait. split; rewrite ?Ho, ?Hi.
      * intros x Hx. destruct (KI x Hx) as [[?|?] _]; congruence.
      * intros x [= <-]. split; [by left|by left].
      * destruct Hst as [-> | ->]; done.
      * eauto.
      * auto.
      * intros Hn _ _. rewrite Hr. apply KE; [done|congruence..].
  - intros c1 c2 C1' C2' j H1 H2 HC1' HC2'.
    destruct (Hback c1 C1' HC1') as (C1 & HC1 & -> & _). destruct (Hback c2 C2' HC2') as (C2 & HC2 & -> & _).
    by eapply HI.
  - (* a connection that was told of a job holds it *)
    assert (∀ c C' j, c ∉ Y → st_conns s' !! c = Some C' → c_out_job C' = Some j →
      P' !! j = Some (InReserved c) ∨ P' !! j = None ∧
      ∃ C, st_conns s !! c = Some C ∧ c_out_job C = Some j) as Hout.
    { intros c C' j Hc HC' Hj. destruct (Hback c C' HC') as (C & HCc & _ & _ & _ & _ & [Ht|(_ & _ & _ & x & Ho & Hx)]).
      - injection Ht as _ Ho _. rewrite Ho in Hj. destruct (HC c C Hc HCc) as [_ KO _ _ _ _].
        destruct (KO j Hj) as [_ HL]. apply Hl in HL as [?|[? _]]; [by left|right; eauto|].
        intros Hd. by destruct (HD j Hd c C Hc HCc).
      - rewrite Ho in Hj. injection Hj as ->. by left. }
    intros c1 c2 C1' C2' j H1 H2 HC1' HC2' Ho1 Ho2.
    destruct (Hout c1 C1' j H1 HC1' Ho1) as [Hr1|[Hn1 (C1 & HC1 & Hj1)]],
      (Hout c2 C2' j H2 HC2' Ho2) as [Hr2|[Hn2 (C2 & HC2 & Hj2)]]; [congruence..|]. by eapply HU.
Qed.

(** What no connection has, none gets, unless it is served. *)
Lemma stays_unowned X D Y P s P' s' j :
  stays X D P s P' s' → dom (st_conns s') = dom (st_conns s) → (∀ c, P' !! j ≠ Some (InReserved c)) →
  unowned Y (st_conns s) j → unowned Y (st_conns s') j.
Proof.
  intros HS Hdom Hj Hu c C' Hc HC'.
  assert (is_Some (st_conns s !! c)) as [C HC] by (apply elem_of_dom; rewrite <- Hdom; apply elem_of_dom; eauto).
  destruct (st_conn _ _ _ _ _ _ HS c C HC) as (C1 & HC1 & He).
  destruct (st_talks _ _ _ _ _ _ HS c C HC) as (C2 & HC2 & Ht).
  assert (C1 = C') as -> by congruence. assert (C2 = C') as -> by congruence.
  assert (c_in_job C' = c_in_job C) as -> by exact (f_equal c_in_job He).
  destruct (Hu c C Hc HC) as [? Ho]. split; [done|].
  destruct Ht as [Ht|(_ & _ & _ & x & Hx & Hr)]; [by injection Ht as _ -> _|].
  rewrite Hx. intros [= ->]. by destruct (Hj c).
Qed.

(** ** One connection *)

(** Starting to handle [c]. *)
Lemma owns_enter Y P J Cs c : owns Y P J Cs → owns ({[c]} ∪ Y) P J Cs.
Proof.
  intros [HW HO HI HU]. split; [done|..].
  - intros c' C' [_ ?]%not_elem_of_union. eauto.
  - intros c1 c2 C1 C2 j [_ ?]%not_elem_of_union [_ ?]%not_elem_of_union. eauto.
  - intros c1 c2 C1 C2 j [_ ?]%not_elem_of_union [_ ?]%not_elem_of_union. eauto.
Qed.

(** A handled connection gets any values. *)
Lemma owns_insert_in Y P J Cs c C :
  c ∈ Y → (conn_waiting C = true → c_state C = STATE_WAIT) → owns Y P J Cs → owns Y P J (<[c := C]> Cs).
Proof.
  intros Hc Hw [HW HO HI HU].
  assert (∀ c' C', c' ∉ Y → <[c := C]> Cs !! c' = Some C' → Cs !! c' = Some C') as Hb.
  { intros c' C' Hc'. rewrite lookup_insert_ne; [done|]. by intros <-. }
  split; [|eauto..]. intros c' C' [[<- <-]|[_ ?]]%lookup_insert_Some; eauto.
Qed.

(** Having handled [c]. *)
Lemma owns_leave Y P J Cs c C :
  Cs !! c = Some C → own_conn P J c C →
  (∀ c' C' j, c' ≠ c → c' ∉ Y → Cs !! c' = Some C' → c_in_job C = Some j → c_in_job C' ≠ Some j) →
  (∀ c' C' j, c' ≠ c → c' ∉ Y → Cs !! c' = Some C' → c_out_job C = Some j → c_out_job C' ≠ Some j) →
  owns ({[c]} ∪ Y) P J Cs → owns Y P J Cs.
Proof.
  intros HC HO Hi Ho [HW HOs HI HU].
  assert (∀ c', c' ∉ Y → c' ≠ c → c' ∉ ({[c]} ∪ Y)) as Hne by set_solver.
  split; [done|..].
  - intros c' C' Hc' HC'. destruct (decide (c' = c)) as [->|]; [congruence|]. apply HOs; auto.
  - intros c1 c2 C1 C2 j H1 H2 HC1 HC2 Hj1 Hj2.
    destruct (decide (c1 = c)) as [->|N1], (decide (c2 = c)) as [->|N2]; [done|..].
    + assert (C1 = C) as -> by congruence. by destruct (Hi c2 C2 j).
    + assert (C2 = C) as -> by congruence. by destruct (Hi c1 C1 j).
    + eapply HI; eauto.
  - intros c1 c2 C1 C2 j H1 H2 HC1 HC2 Hj1 Hj2.
    destruct (decide (c1 = c)) as [->|N1], (decide (c2 = c)) as [->|N2]; [done|..].
    + assert (C1 = C) as -> by congruence. by destruct (Ho c2 C2 j).
    + assert (C2 = C) as -> by congruence. by destruct (Ho c1 C1 j).
    + eapply HU; eauto.
Qed.

(** Both: the values of [c] are set, and those of the others are the same. *)
Lemma owns_set Y P J Cs Cs' c C' :
  owns ({[c]} ∪ Y) P J Cs →
  (∀ c', c' ≠ c → o_conn <$> Cs' !! c' = o_conn <$> Cs !! c') → Cs' !! c = Some C' →
  (conn_waiting C' = true → c_state C' = STATE_WAIT) → own_conn P J c C' →
  (∀ j, c_in_job C' = Some j → unowned ({[c]} ∪ Y) Cs j) →
  (∀ j, c_out_job C' = Some j → unowned ({[c]} ∪ Y) Cs j) → owns Y P J Cs'.
Proof.
  intros HO Hoth HC' Hw HOc Hi Ho.
  assert (owns ({[c]} ∪ Y) P J Cs') as HO'.
  { eapply (owns_same _ _ J J (<[c := C']> Cs)); [done| |apply owns_insert_in; [set_solver|done|done]].
    apply map_eq. intros c'. rewrite !lookup_fmap. destruct (decide (c' = c)) as [->|Hne].
    - by rewrite HC', lookup_insert_eq.
    - rewrite lookup_insert_ne by done. by apply Hoth. }
  assert (∀ c' C1', c' ≠ c → c' ∉ Y → Cs' !! c' = Some C1' → ∃ C1, Cs !! c' = Some C1 ∧
    (c' ∉ {[c]} ∪ Y) ∧ c_in_job C1' = c_in_job C1 ∧ c_out_job C1' = c_out_job C1) as Hb.
  { intros c' C1' Hne Hy HC1. specialize (Hoth c' Hne). rewrite HC1 in Hoth.
    destruct (Cs !! c') as [C1|]; [|done]. apply (inj Some) in Hoth. exists C1.
    split_and!; [done|set_solver|apply (o_conn_inv _ _ Hoth)..]. }
  eapply owns_leave; [done|done|..|done].
  - intros c' C1' j Hne Hy HC1 Hj. destruct (Hb c' C1' Hne Hy HC1) as (C1 & HC11 & Hy' & -> & _).
    by apply (Hi j Hj c' C1).
  - intros c' C1' j Hne Hy HC1 Hj. destruct (Hb c' C1' Hne Hy HC1) as (C1 & HC11 & Hy' & _ & ->).
    by apply (Ho j Hj c' C1).
Qed.

(** A connection with the same jobs. *)
Lemma owns_insert Y P J Cs c C C' :
  Cs !! c = Some C → (conn_waiting C' = true → c_state C' = STATE_WAIT) →
  (own_conn P J c C → own_conn P J c C') → c_in_job C' = c_in_job C → c_out_job C' = c_out_job C →
  owns Y P J Cs → owns Y P J (<[c := C']> Cs).
Proof.
  intros HC Hw Ho Hi Hj [HW HO HI HU].
  assert (∀ c' C1', <[c := C']> Cs !! c' = Some C1' → ∃ C1, Cs !! c' = Some C1 ∧
    c_in_job C1' = c_in_job C1 ∧ c_out_job C1' = c_out_job C1) as Hb.
  { intros c' C1' [[<- <-]|[_ ?]]%lookup_insert_Some; eauto. }
  split.
  - intros c' C1' [[<- <-]|[_ ?]]%lookup_insert_Some; eauto.
  - intros c' C1' Hc' [[<- <-]|[_ ?]]%lookup_insert_Some; eauto.
  - intros c1 c2 C1' C2' j H1 H2 (C1 & ? & -> & _)%Hb (C2 & ? & -> & _)%Hb. eauto.
  - intros c1 c2 C1' C2' j H1 H2 (C1 & ? & _ & ->)%Hb (C2 & ? & _ & ->)%Hb. eauto.
Qed.

Lemma owns_mono Y Y' P J Cs : Y ⊆ Y' → owns Y P J Cs → owns Y' P J Cs.
Proof.
  intros HY [HW HO HI HU]. assert (∀ c, c ∉ Y' → c ∉ Y) as Hc by set_solver.
  split; [done|..]; eauto.
Qed.
End owns.
