(* ===== verification/QueueCmds.v ===== *)
(** The operations on one job that the commands are made of: enqueuing, burying,
    kicking, giving up a reservation, touching.  Each is a move of the places,
    followed by the handing over of jobs specified in Process.v.

    These specifications are for a server without a log ([w_use] is false, the
    default), where writing a job always succeeds. *)
From S2P Require Import Prelude Heap Ms State Monad JobList JobHash Tube Job Wal Conn Queue QueueRep QueueOps QueueConn QueueProc Process.
#[local] Open Scope Z_scope.

(** The invariant of the queue between the steps of a command. *)
Record queue_inv (X : gset connp) (ids : gmap Z jobp) (P : places) (s : St) : Prop := {
  qi_rep : queue_rep P ids X s;
  qi_wait : wait_rep ∅ s;
  qi_cached : cached X P s;
}.

(** [s'] is reached from [s] by handing jobs to the connections waiting for
    them, at some time. *)
Definition serve_all (P : places) (s : St) (P' : places) (s' : St) : Prop :=
  ∃ now s1, quiet s s1 ∧ serving now P s1 P' s'.

Definition no_log (s : St) : Prop := w_use (srv_wal s) = false.

Section commands.
Context {E : Env}.
Implicit Types (P : places) (ids : gmap Z jobp) (X Y : gset connp) (s : St).
Implicit Types (j : jobp) (t : tubep) (c : connp) (C : Conn).

Lemma queue_inv_quiet X ids P s s' : quiet s s' → queue_inv X ids P s → queue_inv X ids P s'.
Proof.
  intros Hq [HR HW Hca]. split; [by eapply queue_rep_quiet|eapply wait_rep_sim; [apply Hq|done]|].
  intros c C. rewrite (js_conns _ _ (qu_step _ _ Hq)). apply Hca.
Qed.

(** A step that moves one job and touches no connection. *)
Lemma queue_inv_step X ids P P' s s' :
  queue_inv X ids P s → queue_rep P' ids X s' → job_step s s' →
  (∀ j c, P' !! j = Some (InReserved c) → P !! j = Some (InReserved c)) →
  queue_inv X ids P' s'.
Proof.
  intros [_ HW Hca] HR Hs HP. split; [done|eapply wait_rep_sim; [apply Hs|done]|].
  intros c C. rewrite (js_conns _ _ Hs). intros HC Hwt. destruct (Hca c C HC Hwt) as [? Hn].
  split; [done|]. intros Hs0 j Hj%HP. by eapply Hn.
Qed.

Lemma no_log_frame s s' : qframe s s' → no_log s → no_log s'.
Proof.
  intros [H _ _ _] Hl. unfold no_log. assert (srv_wal s' = srv_wal s) as -> by exact (f_equal srv_wal H).
  done.
Qed.
#[local] Hint Resolve queue_inv_quiet qi_rep qi_wait qi_cached no_log_frame : queue.

Lemma wp_process_queue_inv X ids P s (Q : unit → St → Prop) :
  queue_inv X ids P s →
  (∀ P' s', serve_all P s P' s' → queue_inv X ids P' s' → Q tt s') →
  wp process_queue Q s.
Proof.
  intros [HR HW Hca] HQ. eapply wp_process_queue; [done..|]. intros now P' s' s1 Hs ???.
  apply (HQ P'); [|by split]. exists now, s1. split; [solve_quiet|done].
Qed.

(** ** Without a log *)

Lemma wp_walwrite_off j (Q : bool → St → Prop) s : no_log s → Q true s → wp (walwrite j) Q s.
Proof. intros Hl HQ. unfold walwrite, get_wal. wsteps. rewrite Hl. by wsteps. Qed.

Lemma wp_walmaint_off (Q : unit → St → Prop) s : no_log s → Q tt s → wp walmaint Q s.
Proof. intros Hl HQ. unfold walmaint, get_wal. wsteps. rewrite Hl. by wsteps. Qed.

(** A reservation always succeeds, and counts one byte on the job. *)
Lemma wp_reserve_update_off j Jb (Q : bool → St → Prop) s :
  no_log s → st_jobs s !! j = Some Jb →
  Q true (s <| st_jobs ::= <[j := Jb <| j_walresv ::= fun n => n + 1 |>]> |>) →
  wp (reserve_update j) Q s.
Proof.
  intros Hl HJ HQ. unfold reserve_update, walresvupdate, reserve, get_wal. wsteps.
  rewrite Hl. cbn [negb]. wsteps. cbn [Z.eqb]. wsteps. exact HQ.
Qed.

(** ** Enqueuing *)

Lemma wp_enqueue_job X ids P s j t Jb delay store (Q : bool → St → Prop) :
  queue_inv X ids P s → loose P s j t Jb → store = false ∨ no_log s →
  (∀ s' Jb', queue_inv X ids P s' → loose P s' j t Jb' → job_step s s' → only j s s' →
     Q false s') →
  (∀ s1 P' s', queue_rep (<[j := queue_place t delay]> P) ids X s1 → job_step s s1 → only j s s1 →
     serve_all (<[j := queue_place t delay]> P) s1 P' s' → queue_inv X ids P' s' → Q true s') →
  wp (enqueue_job j delay store) Q s.
Proof.
  intros HI HL Hst HF HT. unfold enqueue_job. wsteps.
  eapply wp_enqueue_insert; [apply HI|done| |].
  - intros s' Jb' HR' HL' Hs' Ho'. wsteps. eapply HF; [|done..]. by eapply queue_inv_step.
  - intros s1 HR1 Hs1 Ho1. simpl negb. cbv iota. wsteps.
    assert (wp process_queue (λ _ s', Q true s') s1) as Hpq.
    { eapply wp_process_queue_inv; [|intros P' s' Hsv HI'; by eapply HT].
      eapply queue_inv_step; [done..|]. intros x c. destruct (decide (x = j)) as [->|].
      - rewrite lookup_insert_eq. unfold queue_place. by case_match.
      - by rewrite lookup_insert_ne. }
    destruct store; wsteps.
    + destruct Hst as [|Hl]; [done|]. assert (no_log s1) by eauto with queue.
      apply wp_walwrite_off; [done|]. wsteps. apply wp_walmaint_off; [done|].
      wsteps. cbn [negb]. wsteps. exact Hpq.
    + cbn [negb]. wsteps. exact Hpq.
Qed.

(** ** Burying *)

Lemma wp_bury_insert_inv X ids P s j t Jb (Q : unit → St → Prop) :
  queue_inv X ids P s → loose P s j t Jb →
  (∀ s', queue_inv X ids (<[j := InBuried t]> P) s' → job_step s s' → only j s s' → Q tt s') →
  wp (bury_insert j) Q s.
Proof.
  intros HI HL HQ. eapply wp_bury_insert; [apply HI|done|]. intros s' HR' Hs' Ho'.
  apply HQ; [|done..]. eapply queue_inv_step; [done..|]. intros x c. destruct (decide (x = j)) as [->|].
  - by rewrite lookup_insert_eq.
  - by rewrite lookup_insert_ne.
Qed.

Lemma wp_bury_job_nostore X ids P s j t Jb (Q : bool → St → Prop) :
  queue_inv X ids P s → loose P s j t Jb →
  (∀ s', queue_inv X ids (<[j := InBuried t]> P) s' → job_step s s' → only j s s' → Q true s') →
  wp (bury_job j false) Q s.
Proof.
  intros HI HL HQ. unfold bury_job. wsteps. simpl negb. cbv iota. wsteps.
  eapply wp_bury_insert_inv; [done..|]. intros s' HI' Hs' Ho'. wsteps. by apply HQ.
Qed.

(** ** Kicking *)

(** The record of a job may change in the counters. *)
Lemma recount P ids X s j Jb Jb' (s' := s <| st_jobs ::= <[j := Jb']> |>) :
  queue_inv X ids P s → st_jobs s !! j = Some Jb →
  q_job Jb' = q_job Jb → z_job Jb' = z_job Jb →
  queue_inv X ids P s' ∧ job_step s s' ∧ only j s s'.
Proof.
  intros HI HJ Hq Hz.
  assert (queue_sim s s') as Hsim by (subst s'; split; rsimpl; try done; by eapply same_but_insert).
  assert (job_step s s') as Hs.
  { subst s'. split; rsimpl; [by split| |done]. split; rsimpl; try done. by eapply same_but_insert. }
  split_and!; [|done|by eapply only_insert_eq]. eapply queue_inv_step; [done| |done|done].
  eapply queue_rep_sim; [done|apply HI].
Qed.

(** A job that was taken from its place is loose. *)
Lemma taken_loose P ids X s s' j p t Jb :
  queue_rep P ids X s → P !! j = Some p → st_jobs s !! j = Some Jb → j_tube Jb = Some t →
  same_but erase_pos (st_jobs s) (st_jobs s') → job_step s s' →
  ∃ Jb', loose (delete j P) s' j t Jb' ∧ j_r Jb' = j_r Jb.
Proof.
  intros HR Hj HJ Ht Hpos Hs.
  destruct (qr_place _ _ _ _ HR j p Hj) as (J & t' & T & HJ' & Hf & Ht' & HT & _).
  rewrite HJ in HJ'. apply (inj Some) in HJ' as <-. assert (t' = t) as -> by congruence.
  destruct (same_but_lookup _ _ _ _ _ Hpos HJ) as (Jb' & HJb' & (Hr & Htb & _)%erase_pos_inv).
  exists Jb'. split; [|done]. split; [apply lookup_delete_eq|done| |congruence|].
  - rewrite Hr. by eapply fits_not_copy.
  - destruct (same_but_lookup _ _ _ _ _ (qf_tubes _ _ (js_frame _ _ Hs)) HT) as (? & ? & _). eauto.
Qed.

Definition kicked (J : Job) : Job := J <| j_r ::= fun r => r <| r_kick_ct ::= incr32 |> |>.

(** Counting a kick. *)
Lemma loose_kick P ids X s j t Jb (s' := s <| st_jobs ::= <[j := kicked Jb]> |>) :
  queue_inv X ids P s → loose P s j t Jb →
  queue_inv X ids P s' ∧ loose P s' j t (kicked Jb) ∧ job_step s s' ∧ only j s s'.
Proof.
  intros HI HL. destruct (loose_update P ids X s j t Jb (kicked Jb)) as (HR' & HL' & Hs' & Ho');
    [apply HI|done|done|apply HL|].
  split_and!; [|done..]. by eapply queue_inv_step.
Qed.

(** A buried job is kicked: it becomes ready and may be handed over; when the
    heap cannot grow it is buried again. *)
Lemma wp_kick_buried_job X ids P s j t (Q : bool → St → Prop) :
  queue_inv X ids P s → P !! j = Some (InBuried t) → no_log s →
  (∀ s', queue_inv X ids P s' → job_step s s' → only j s s' → Q false s') →
  (∀ s1 P' s', queue_rep (<[j := InReady t]> P) ids X s1 → job_step s s1 → only j s s1 →
     serve_all (<[j := InReady t]> P) s1 P' s' → queue_inv X ids P' s' → Q true s') →
  wp (kick_buried_job j) Q s.
Proof.
  intros HI Hj Hlog HF HT. unfold kick_buried_job.
  destruct (qr_place _ _ _ _ (qi_rep _ _ _ _ HI) j _ Hj) as (Jb & t' & T & HJb & [_ Ht] & _).
  apply wp_bind. eapply wp_reserve_update_off; [done..|]. cbn [negb]. wsteps.
  set (Jb1 := rupd j_walresv _ Jb).
  destruct (recount P ids X s j Jb Jb1 HI HJb) as (HI1 & Hs1 & Ho1); [done..|].
  set (s1 := rupd st_jobs _ s) in *.
  eapply wp_remove_buried_job; [apply HI1|done|]. intros s2 HR2 Hs2 Hj2.
  assert (st_jobs s1 !! j = Some Jb1) as HJb1 by (subst s1; rsimpl; apply lookup_insert_eq).
  destruct (taken_loose P ids X s1 s2 j _ t Jb1 (qi_rep _ _ _ _ HI1) Hj HJb1)
    as (Jb2 & HL2 & _); [done|by rewrite Hj2|done|].
  assert (only j s1 s2) as Ho2 by (intros x _; by rewrite Hj2).
  assert (queue_inv X ids (delete j P) s2) as HI2.
  { eapply queue_inv_step; [exact HI1|done|done|]. intros x c Hx%lookup_delete_Some. tauto. }
  unfold upd_rec. pose proof (lo_job _ _ _ _ _ HL2) as HJb2. wsteps.
  destruct (loose_kick _ _ _ _ _ _ _ HI2 HL2) as (HI3 & HL3 & Hs3 & Ho3).
  set (s3 := rupd st_jobs _ s2) in *.
  assert (job_step s s3) as Hs03 by eauto with queue.
  assert (no_log s3) by eauto with queue.
  eapply wp_enqueue_job; [exact HI3|exact HL3|by right| |].
  - intros s4 Jb4 HI4 HL4 Hs4 Ho4. wsteps. eapply wp_bury_job_nostore; [done..|].
    intros s5 HI5 Hs5 Ho5. wsteps. apply HF; [|by eauto with queue..].
    by rewrite insert_delete_id in HI5.
  - intros s4 P' s' HR4 Hs4 Ho4 Hsv HI'. rewrite insert_delete_eq in HR4, Hsv. wsteps.
    eapply HT; [exact HR4|by eauto with queue..|done|done].
Qed.

(** Taking a job out of the delay heap of its tube. *)
Lemma wp_undelay X ids P s j t Jb (Q : option jobp → St → Prop) :
  queue_inv X ids P s → P !! j = Some (InDelay t) → st_jobs s !! j = Some Jb →
  (∀ s' Jb', queue_inv X ids (delete j P) s' → loose (delete j P) s' j t Jb' →
     job_step s s' → only j s s' → j_r Jb' = j_r Jb → Q (Some j) s') →
  wp (tube_heapremove t_delay job_delay_ops t (j_heap_index Jb)) Q s.
Proof.
  intros HI Hj HJb HQ. eapply (wp_dequeue false); [apply HI|exact Hj|done|].
  intros T J' h' HT HJ'. cbv zeta. set (s' := rupd st_tubes _ _). intros HR'.
  assert (job_step s s') as Hs.
  { subst s'. split; rsimpl; [solve_frame| |done].
    split; rsimpl; [done|by apply erase_pos_z|solve_same_but|done]. }
  destruct (qr_place _ _ _ _ (qi_rep _ _ _ _ HI) j _ Hj) as (J & t' & T' & HJ & [_ Ht] & _).
  rewrite HJb in HJ. apply (inj Some) in HJ as <-.
  destruct (taken_loose P ids X s s' j _ t Jb (qi_rep _ _ _ _ HI) Hj HJb) as (Jb' & HL & Hr);
    [done|done|done|].
  eapply HQ; [|done|done|by eapply only_pos|done]. eapply queue_inv_step; [exact HI|done|done|].
  intros x c Hx%lookup_delete_Some. tauto.
Qed.

(** A delayed job is kicked.  When the ready heap cannot grow, the job is
    enqueued again with its own delay, or buried when that fails too. *)
Lemma wp_kick_delayed_job X ids P s j t Jb (Q : bool → St → Prop)
    (P' := λ p, <[j := p]> P) :
  queue_inv X ids P s → P !! j = Some (InDelay t) → st_jobs s !! j = Some Jb → no_log s →
  (∀ s', queue_inv X ids (P' (InBuried t)) s' → job_step s s' → only j s s' → Q false s') →
  (∀ b p s1 P'' s', p = InReady t ∧ b = true ∨ p = queue_place t (r_delay (j_r Jb)) ∧ b = false →
     queue_rep (P' p) ids X s1 → job_step s s1 → only j s s1 →
     serve_all (P' p) s1 P'' s' → queue_inv X ids P'' s' → Q b s') →
  wp (kick_delayed_job j) Q s.
Proof.
  intros HI Hj HJb Hlog HF HT. unfold kick_delayed_job.
  destruct (qr_place _ _ _ _ (qi_rep _ _ _ _ HI) j _ Hj) as (J & t' & T & HJ & [_ Ht] & _).
  rewrite HJb in HJ. apply (inj Some) in HJ as <-.
  apply wp_bind. eapply wp_reserve_update_off; [done..|]. cbn [negb].
  set (Jb1 := rupd j_walresv _ Jb).
  destruct (recount P ids X s j Jb Jb1 HI HJb) as (HI1 & Hs1 & Ho1); [done..|].
  set (s1 := rupd st_jobs _ s) in *.
  assert (st_jobs s1 !! j = Some Jb1) as HJb1 by (subst s1; rsimpl; apply lookup_insert_eq).
  assert (j_tube Jb1 = Some t) as Ht1 by done.
  unfold tube_of. wsteps. eapply wp_undelay; [exact HI1|exact Hj|done|].
  intros s2 Jb2 HI2 HL2 Hs2 Ho2 Hr2. unfold upd_rec. pose proof (lo_job _ _ _ _ _ HL2) as HJb2. wsteps.
  destruct (loose_kick _ _ _ _ _ _ _ HI2 HL2) as (HI3 & HL3 & Hs3 & Ho3).
  set (s3 := rupd st_jobs _ s2) in *.
  assert (job_step s s3) as Hs03 by eauto with queue.
  assert (no_log s3) by eauto with queue.
  eapply wp_enqueue_job; [exact HI3|exact HL3|by right| |].
  - intros s4 Jb4 HI4 HL4 Hs4 Ho4. pose proof (lo_job _ _ _ _ _ HL4) as HJb4. wsteps.
    assert (r_delay (j_r Jb4) = r_delay (j_r Jb)) as ->.
    { destruct (same_but_lookup _ _ _ _ _ (qf_jobs _ _ (js_frame _ _ Hs4)) (lo_job _ _ _ _ _ HL3))
        as (A & HA & He). rewrite HJb4 in HA. apply (inj Some) in HA as <-.
      transitivity (r_delay (j_r Jb2)); [exact (f_equal (λ J, r_delay (j_r J)) He)|by rewrite Hr2]. }
    assert (job_step s s4) as Hs04 by eauto with queue.
    eapply wp_enqueue_job; [exact HI4|exact HL4|by left| |].
    + intros s5 Jb5 HI5 HL5 Hs5 Ho5. wsteps. eapply wp_bury_job_nostore; [done..|].
      intros s6 HI6 Hs6 Ho6. wsteps. rewrite insert_delete_eq in HI6.
      apply HF; [done|by eauto with queue..].
    + intros s5 P'' s' HR5 Hs5 Ho5 Hsv HI'. rewrite insert_delete_eq in HR5, Hsv. wsteps.
      eapply (HT false _ s5); [by right|exact HR5|by eauto with queue..|done|done].
  - intros s4 P'' s' HR4 Hs4 Ho4 Hsv HI'. rewrite insert_delete_eq in HR4, Hsv. wsteps.
    eapply (HT true _ s4); [by left|exact HR4|by eauto with queue..|done|done].
Qed.

(** ** Reserved jobs *)

(** A connection that loses a reservation forgets its soonest job. *)
Lemma wp_remove_this_reserved_job X ids P s c C j t Jb (Q : option jobp → St → Prop) :
  queue_inv X ids P s → P !! j = Some (InReserved c) → c ∉ X →
  st_conns s !! c = Some C → conn_waiting C = false →
  st_jobs s !! j = Some Jb → j_tube Jb = Some t →
  (∀ s' Jb', queue_inv X ids (delete j P) s' → loose (delete j P) s' j t Jb' → qframe s s' →
     st_conns s' = <[c := C <| c_soonest_job := None |>]> (st_conns s) → j_r Jb' = j_r Jb →
     only j s s' → Q (Some j) s') →
  wp (remove_this_reserved_job c (Some j)) Q s.
Proof.
  intros HI Hj HX HC Hwt HJb Ht HQ. pose proof HI as [HR HW Hca].
  destruct (qr_place _ _ _ _ HR j _ Hj) as (J & t' & T & HJ & Hf & Ht' & HT & _).
  rewrite HJb in HJ. apply (inj Some) in HJ as <-. assert (t' = t) as -> by congruence.
  unfold remove_this_reserved_job. cbn [fmap option_fmap option_map]. wsteps.
  eapply wp_list_rep_remove; [by apply (qr_reserved _ _ _ _ HR c C)|done|].
  unfold job_of_node, upd_global_stat, tube_of, upd_tube_stat. wsteps.
  match goal with |- Q _ ?x => set (s' := x) end.
  set (J' := Jb <| j_reserver := None |>). set (C' := C <| c_soonest_job := None |>).
  pose proof (queue_rep_unlink P ids X s j _ _ Jb J' HR Hj eq_refl HJb (same_id_z _ _ eq_refl) (fits_not_copy _ _ Hf)) as HR1.
  set (s1 := rupd st_links _ _) in HR1.
  assert (queue_rep (delete j P) ids X (with_soonest s1 c C None)) as HR2.
  { by eapply with_soonest_rep. }
  assert (qframe s s') as HF.
  { split; [done|unfold s'; solve_same_but..]. }
  assert (queue_rep (delete j P) ids X s') as HR'.
  { eapply queue_rep_sim; [|exact HR2]. unfold s', with_soonest, s1. solve_frame. }
  apply (HQ s' J'); [split| |done|done|done|by eapply only_insert_eq].
  - done.
  - eapply wait_rep_sim; [|exact HW]. unfold s'. solve_frame.
  - intros c' C0. unfold s'. rsimpl. destruct (decide (c' = c)) as [->|Hne].
    + rewrite lookup_insert_eq. intros HC0. apply (inj Some) in HC0 as <-.
      intros Hwt'. change (conn_waiting C = true) in Hwt'. congruence.
    + rewrite lookup_insert_ne by done. intros HC0 Hwt0.
      destruct (Hca c' C0 HC0 Hwt0) as [? Hn]. split; [done|].
      intros Hs x Hx%lookup_delete_Some. by destruct (Hn Hs x (proj2 Hx)).
  - split; unfold s'; rsimpl; [apply lookup_delete_eq|apply lookup_insert_eq| |done|].
    + exact (fits_not_copy Jb _ Hf).
    + rewrite lookup_insert_eq. eauto.
Qed.

(** The deadline of a reserved job may change, if the connection then looks for
    its soonest job again. *)
Lemma queue_rep_touch P ids X s c C j Jb d
    (Jb' := Jb <| j_r ::= fun r => r <| r_deadline_at := d |> |>) :
  queue_rep P ids X s → P !! j = Some (InReserved c) → st_jobs s !! j = Some Jb →
  st_conns s !! c = Some C →
  queue_rep P ids X (with_soonest (s <| st_jobs ::= <[j := Jb']> |>) c C None).
Proof.
  intros HR Hj HJb HC.
  destruct (qr_place _ _ _ _ HR j _ Hj) as (J & t & T & HJ & Hf & Ht & HT & _).
  rewrite HJb in HJ. apply (inj Some) in HJ as <-.
  apply with_soonest_rep; [|done|done].
  change (queue_rep P ids (exempt (InReserved c) X) (list_moved s j Jb' (st_links s))).
  apply (queue_rep_list P P ids X s (InReserved c) (NReserved c)); try done.
  - split; [done|by right|by right].
  - by apply (qr_reserved _ _ _ _ HR c C).
  - by rewrite Hj.
  - exists Jb. split_and!; [done|done| |exact (fits_not_copy _ _ Hf)|].
    + apply (qr_ids _ _ _ _ HR j Jb HJb). by eapply fits_not_copy.
    + intros p. rewrite Hj. intros [= <-]. split; [done|]. exists t, T.
      split_and!; [done|done|]. intros ? [= <-]. eauto.
Qed.

(** [touch_job] succeeds exactly on the jobs the connection holds. *)
Lemma wp_touch_job P ids X s c C j Jb p (Q : bool → St → Prop) :
  queue_rep P ids X s → st_conns s !! c = Some C → st_jobs s !! j = Some Jb →
  P !! j = Some p →
  (p ≠ InReserved c → Q false s) →
  (∀ now, p = InReserved c →
     let Jb' := Jb <| j_r ::= fun r => r <| r_deadline_at := now + r_ttr (j_r Jb) |> |> in
     let s' := with_soonest (s <| st_tick ::= S |> <| st_jobs ::= <[j := Jb']> |>) c C None in
     queue_rep P ids X s' → Q true s') →
  wp (touch_job c (Some j)) Q s.
Proof.
  intros HR HC HJb Hp HF HT. unfold touch_job, is_job_reserved_by_conn. wsteps.
  destruct (qr_place _ _ _ _ HR j p Hp) as (J & _ & _ & HJ & Hf & _).
  rewrite HJb in HJ. apply (inj Some) in HJ as <-.
  destruct (bool_decide_reflect (j_reserver Jb = Some c)) as [Hr|Hr];
    [destruct (bool_decide_reflect (r_state (j_r Jb) = Reserved)) as [Hs|Hs]|]; cbn [andb negb].
  - assert (p = InReserved c) as -> by (destruct p; simpl in Hf; destruct Hf; congruence).
    unfold upd_rec. wsteps. apply HT; [done|]. eapply queue_rep_touch; [|done..].
    eapply queue_rep_sim; [|exact HR]. by split.
  - wsteps. apply HF. intros ->. by destruct Hf.
  - wsteps. apply HF. intros ->. by destruct Hf.
Qed.
End commands.
#[export] Hint Resolve queue_inv_quiet qi_rep qi_wait qi_cached no_log_frame : queue.
