(* ===== verification/QueueLoops.v ===== *)
(** The loops that give jobs back: [enqueue_job] falling back on [bury_job], the
    jobs of a closed connection, and the choice of the next delayed job. *)
From S2P Require Import Prelude Heap Ms State Monad JobList JobHash Tube Job Wal Conn Queue QueueRep QueueOps QueueConn QueueProc Process Runs QueueCmds.
#[local] Open Scope Z_scope.

Section loops.
Context {E : Env}.
Implicit Types (P : places) (ids : gmap Z jobp) (X Y : gset connp) (s : St).
Implicit Types (j : jobp) (t : tubep) (c : connp) (C : Conn) (D : gset jobp).

(** ** Giving one job back *)

Lemma serve_all_stays X P s P' s' : serve_all P s P' s' → stays X ∅ P s P' s'.
Proof.
  intros (now & s1 & Hq & Hs). rewrite <- (left_id_L ∅ (∪) ∅).
  eapply stays_trans; [by eapply quiet_stays|by eapply serving_stays|apply unheld_empty].
Qed.
Lemma serve_all_frame P s P' s' : serve_all P s P' s' → qframe s s'.
Proof.
  intros (now & s1 & Hq & Hs). etrans; [apply Hq|]. by eapply serving_frame.
Qed.

(** A loose job goes to the ready heap, or to the buried list when the heap
    cannot grow. *)
Lemma wp_give_back {A} X ids P s j t Jb (k : M A) (Q : A → St → Prop) :
  queue_inv X ids P s → loose P s j t Jb →
  (∀ P' s', queue_inv X ids P' s' → drains X {[j]} P s P' s' → qframe s s' → wp k Q s') →
  wp (r ← enqueue_job j 0 false; (if r : bool then mret true else bury_job j false);; k) Q s.
Proof.
  intros HI HL HQ. apply wp_bind. eapply wp_enqueue_job; [done..|by left| |].
  - intros s1 Jb1 HI1 HL1 Hs1 Ho1. wsteps. eapply wp_bury_job_nostore; [done..|].
    intros s2 HI2 Hs2 Ho2. eapply HQ; [done| |eauto with queue].
    assert (job_step s s2) as Hs by eauto with queue.
    apply (drains_one X P s s2 j t Jb); [apply HL|apply HL|by right|eauto with queue..].
  - intros s1 P' s' HR1 Hs1 Ho1 Hsv HI'. pose proof (serve_all_frame _ _ _ _ Hsv) as HF.
    wsteps. eapply HQ; [done| |eauto with queue].
    rewrite <- (right_id_L ∅ (∪) {[j]}).
    eapply drains_trans; [|by apply stays_drains, serve_all_stays|apply unheld_empty].
    by apply (drains_one X P s s1 j t Jb); [apply HL|apply HL|by left|..].
Qed.

(** ** The next delayed job *)

Definition delayed_in (T : list tubep) P j : Prop := ∃ t, t ∈ T ∧ P !! j = Some (InDelay t).

(** [r] has the least deadline of the delayed jobs of the tubes [T]. *)
Definition soonest_in (T : list tubep) P s (r : option jobp) : Prop :=
  match r with
  | None => ∀ j, ¬ delayed_in T P j
  | Some j => least (st_jobs s) (delayed_in T P) j
  end.

Lemma delayed_in_snoc T t P j :
  delayed_in (T ++ [t]) P j ↔ delayed_in T P j ∨ P !! j = Some (InDelay t).
Proof. unfold delayed_in. set_solver. Qed.

Lemma soonest_in_iff T T' P s r :
  (∀ j, delayed_in T P j ↔ delayed_in T' P j) → soonest_in T P s r → soonest_in T' P s r.
Proof.
  intros H. destruct r as [j|]; simpl.
  - intros [Hj Hm]. split; [by apply H|]. intros y Hy%H. by apply Hm.
  - intros Hn j. by rewrite <- H.
Qed.

Lemma wp_soonest_delayed_job_loop P ids X s T0 T r (Q : option jobp → St → Prop) :
  queue_rep P ids X s → (∀ t, t ∈ T → is_Some (st_tubes s !! t)) → soonest_in T0 P s r →
  (∀ r', soonest_in (T0 ++ T) P s r' → Q r' s) →
  wp (soonest_delayed_job_loop T r) Q s.
Proof.
  intros HR. revert T0 r. induction T as [|t T IH]; intros T0 r HT Hr HQ.
  { apply HQ. by rewrite app_nil_r. }
  cbn [soonest_delayed_job_loop]. destruct (HT t) as [Tb HTb]; [by left|]. wsteps.
  pose proof (qr_delay _ _ _ _ HR t Tb HTb) as Hh.
  assert (∀ r', soonest_in (T0 ++ [t]) P s r' → wp (soonest_delayed_job_loop T r') Q s) as Hgo.
  { intros r' Hr'. apply (IH (T0 ++ [t])); [set_solver|done|].
    intros r2. rewrite <- app_assoc. apply HQ. }
  destruct (Nat.eqb_spec (h_len (t_delay Tb)) 0) as [H0|H0].
  { apply Hgo. eapply soonest_in_iff; [|exact Hr]. intros j. rewrite delayed_in_snoc.
    pose proof (heap_rep_none _ _ _ _ Hh H0 j). tauto. }
  destruct (heap_rep_first _ _ _ _ Hh H0) as (nj & Nb & Hnj & HNb & Mnj & Hmin).
  eapply wp_bind, wp_from_option; [done|].
  assert (least (st_jobs s) (λ j, P !! j = Some (InDelay t)) nj) as Hl.
  { split; [done|]. intros y Hy. destruct (qr_place _ _ _ _ HR y _ Hy) as (Yb & _ & _ & HYb & _).
    pose proof (Hmin y Yb Hy HYb) as Hlt. unfold deadline. rewrite HNb, HYb. unfold rec_less in Hlt.
    repeat case_match; try done; lia. }
  destruct r as [b|]; [|apply Hgo].
  - destruct Hr as [(tb & Htb & Hb) Hbm].
    destruct (qr_place _ _ _ _ HR b _ Hb) as (Bb & _ & _ & HBb & _). wsteps. apply Hgo.
    assert (deadline (st_jobs s) nj = r_deadline_at (j_r Nb)) as En by (unfold deadline; by rewrite HNb).
    assert (deadline (st_jobs s) b = r_deadline_at (j_r Bb)) as Eb by (unfold deadline; by rewrite HBb).
    destruct Hl as [_ Hl].
    case_match; (split; [apply delayed_in_snoc; try (left; exists tb; by split); by right|]);
      intros y [Hy%Hbm|Hy%Hl]%delayed_in_snoc; lia.
  - eapply (soonest_in_iff [t]).
    { intros j. rewrite delayed_in_snoc. pose proof (Hr j). unfold delayed_in in *. set_solver. }
    destruct Hl as [Hl1 Hl2]. split; [exists t; set_solver|].
    intros y (t' & ->%list_elem_of_singleton & Hy). by apply Hl2.
Qed.

Definition delayed P j : Prop := ∃ t, P !! j = Some (InDelay t).

Definition soonest P s (r : option jobp) : Prop :=
  match r with
  | None => ∀ j, ¬ delayed P j
  | Some j => least (st_jobs s) (delayed P) j
  end.

(** [soonest_delayed_job] finds the delayed job with the least deadline. *)
Lemma wp_soonest_delayed_job P ids X s (Q : option jobp → St → Prop) :
  queue_rep P ids X s → (∀ r, soonest P s r → Q r s) → wp soonest_delayed_job Q s.
Proof.
  intros HR HQ. unfold soonest_delayed_job. wsteps.
  pose proof (proj2 (qr_tubes _ _ _ _ HR)) as Htu.
  eapply (wp_soonest_delayed_job_loop P ids X s []); [done| | |].
  - intros t. apply Htu.
  - intros j (t & Ht & _). set_solver.
  - simpl. intros r Hr. apply HQ.
    assert (∀ j, delayed_in (ms_items (tubes s)) P j ↔ delayed P j) as Hd.
    { intros j. split; [intros (t & _ & ?); by exists t|]. intros (t & Hj). exists t. split; [|done].
      destruct (qr_place _ _ _ _ HR j _ Hj) as (J & _ & _ & HJ & [_ Ht] & _).
      by eapply qr_listed. }
    destruct r as [j|]; simpl in *.
    + destruct Hr as [H1 H2]. split; [by apply Hd|]. intros y Hy%Hd. by apply H2.
    + intros j Hj%Hd. by eapply Hr.
Qed.
(** ** Counting the jobs of a kind *)

Section counting.
Context (f : place → Prop) `{!∀ p, Decision (f p)}.

Definition jobs_at P : gset jobp := dom (filter (λ x : jobp * place, f x.2) P).

Lemma elem_of_jobs_at P j : j ∈ jobs_at P ↔ ∃ p, P !! j = Some p ∧ f p.
Proof.
  unfold jobs_at. rewrite elem_of_dom. unfold is_Some. setoid_rewrite map_lookup_filter_Some.
  naive_solver.
Qed.

Lemma jobs_at_le P ids X s : queue_rep P ids X s → (size (jobs_at P) <= size (st_jobs s))%nat.
Proof.
  intros HR. rewrite <- size_dom. apply subseteq_size. intros j (p & Hj & _)%elem_of_jobs_at.
  destruct (qr_place _ _ _ _ HR j p Hj) as (J & _ & _ & HJ & _). apply elem_of_dom. eauto.
Qed.

(** A job of the kind is given back, and no job enters it. *)
Lemma jobs_at_drain P P' j p :
  P !! j = Some p → f p → (∀ x, x ∈ jobs_at P' → x ≠ j ∧ x ∈ jobs_at P) →
  (size (jobs_at P') < size (jobs_at P))%nat.
Proof.
  intros Hj Hf Hsub. assert (j ∈ jobs_at P) by (apply elem_of_jobs_at; eauto).
  apply subset_size. split; [intros x Hx; by apply Hsub|]. intros Hs.
  assert (j ∈ jobs_at P') as Hj' by auto. by destruct (Hsub j Hj').
Qed.
End counting.

(** ** The jobs of a connection that goes away *)

Definition held_by c (p : place) : Prop := p = InReserved c.
#[local] Instance held_by_dec c p : Decision (held_by c p).
Proof. unfold held_by. apply _. Defined.
Definition holds c P : gset jobp := jobs_at (held_by c) P.

Lemma elem_of_holds c P j : j ∈ holds c P ↔ P !! j = Some (InReserved c).
Proof. unfold holds. rewrite elem_of_jobs_at. unfold held_by. naive_solver. Qed.

(** After the jobs [D] were given back, [c] holds what it held and is not in
    [D]: a connection that does not wait is handed nothing. *)
Lemma drains_holds X D P s P' s' c :
  drains X D P s P' s' → (∀ C, st_conns s !! c = Some C → conn_waiting C = false) →
  (∀ j, j ∈ D → ∃ Jb t, st_jobs s !! j = Some Jb ∧ j_tube Jb = Some t) →
  ∀ j, P' !! j = Some (InReserved c) ↔ (j ∉ D) ∧ P !! j = Some (InReserved c).
Proof.
  intros [HS L] Hc HD j. pose proof (st_move _ _ _ _ _ _ HS) as O. destruct (decide (j ∈ D)) as [Hj|Hj].
  - split; [|naive_solver]. intros HP'. destruct (HD j Hj) as (Jb & t & HJb & Ht).
    destruct (L j Jb t Hj HJb Ht) as [H|[H|(c' & C & H & HC & Hw & _)]]; [congruence..|].
    simplify_eq. by rewrite (Hc C HC) in Hw.
  - destruct (O j Hj) as [->|(t & c' & H1 & H2 & C & HC & Hw & _)]; [naive_solver|].
    split; [|naive_solver congruence]. intros HP'. simplify_eq. by rewrite (Hc C HC) in Hw.
Qed.

Lemma queue_inv_not_waiting X ids P s c C :
  queue_inv X ids P s → c ∈ X → st_conns s !! c = Some C → conn_waiting C = false.
Proof.
  intros HI Hc HC. destruct (conn_waiting C) eqn:Hw; [|done].
  by destruct (qi_cached _ _ _ _ HI c C HC Hw).
Qed.

(** Taking a job out of the list of a connection that does not wait. *)
Lemma queue_inv_unhold X ids P s c j (s' := s <| st_links ::= link_remove (NJob j) |>) :
  queue_inv X ids P s → c ∈ X → P !! j = Some (InReserved c) →
  queue_inv X ids (delete j P) s' ∧ job_step s s' ∧ st_jobs s' = st_jobs s ∧
  ∃ Jb t, loose (delete j P) s' j t Jb.
Proof.
  intros HI HX Hj. pose proof (qi_rep _ _ _ _ HI) as HR.
  destruct (qr_place _ _ _ _ HR j _ Hj) as (Jb & t & T & HJb & Hf & Ht & HT & _).
  assert (job_step s s') as Hs by (split; [by split|by split|done]).
  split_and!; [|done|done|].
  - eapply queue_inv_step; [done| |done|].
    + pose proof (queue_rep_unlink P ids X s j _ _ Jb Jb HR Hj eq_refl HJb (same_id_z _ _ eq_refl) (fits_not_copy _ _ Hf)) as HR'.
      assert (exempt (InReserved c) X = X) as HeqX by (simpl; set_solver). rewrite HeqX in HR'.
      eapply queue_rep_sim; [|exact HR']. split; rsimpl; try done. by rewrite insert_id.
    + intros x c' Hx%lookup_delete_Some. tauto.
  - exists Jb, t. split; [apply lookup_delete_eq|done|by eapply fits_not_copy|done|eauto].
Qed.

(** A connection that does not wait may forget its soonest job. *)
Lemma queue_inv_forget X ids P s c C (s' := with_soonest s c C None) :
  queue_inv X ids P s → c ∈ X → st_conns s !! c = Some C →
  queue_inv X ids P s' ∧ drains X ∅ P s P s' ∧ qframe s s'.
Proof.
  intros HI HX HC. pose proof (queue_inv_not_waiting _ _ _ _ _ _ HI HX HC) as Hnw.
  assert (wait_sim s s') as Hws.
  { split; [done|]. unfold s', with_soonest. rsimpl. by eapply same_but_insert. }
  assert (qframe s s') as HF.
  { split; try done. unfold s', with_soonest. rsimpl. by eapply same_but_insert. }
  assert (waited s s') as Hwt.
  { intros c' C'. unfold s', with_soonest. rsimpl. destruct (decide (c' = c)) as [->|].
    - rewrite lookup_insert_eq. intros HC'. apply (inj Some) in HC' as <-. eauto.
    - rewrite lookup_insert_ne by done. eauto. }
  split_and!; [split| |done].
  - eapply with_soonest_rep; [|done|done].
    eapply queue_rep_mono; [|apply HI]. set_solver.
  - eapply wait_rep_sim; [done|apply HI].
  - intros c' C'. unfold s', with_soonest. rsimpl. destruct (decide (c' = c)) as [->|].
    + rewrite lookup_insert_eq. intros HC'. apply (inj Some) in HC' as <-.
      intros Hw. change (conn_waiting C = true) in Hw. congruence.
    + rewrite lookup_insert_ne by done. apply HI.
  - apply stays_drains, stays_step; [done..| |by apply (talks_insert s P s' c C (C <| c_soonest_job := None |>))]. split.
    + intros c' Hc'. apply known_tick. unfold s', with_soonest. rsimpl.
      rewrite lookup_insert_ne; [done|]. congruence.
    + intros c' C' HC' _ Hs. unfold s', with_soonest. rsimpl. destruct (decide (c' = c)) as [->|].
      * rewrite lookup_insert_eq. eauto.
      * rewrite lookup_insert_ne by done. eauto.
Qed.

(** A job that was given back is live, in its tube. *)
Lemma landed_job X ids P s j t Jb s0 :
  queue_inv X ids P s → lands s0 P j t → st_jobs s !! j = Some Jb → j_tube Jb = Some t →
  is_Some (st_tubes s !! t).
Proof.
  intros HI Hl HJ Ht.
  assert (is_Some (P !! j)) as [p Hp] by (destruct Hl as [->|[->|(? & ? & -> & _)]]; eauto).
  destruct (qr_place _ _ _ _ (qi_rep _ _ _ _ HI) j p Hp) as (J & t' & T & ? & _ & ? & ? & _).
  simplify_eq. eauto.
Qed.

Lemma wp_enqueue_reserved_jobs_loop fuel X ids P s c (Q : unit → St → Prop) :
  queue_inv X ids P s → c ∈ X → is_Some (st_conns s !! c) → (size (holds c P) <= fuel)%nat →
  (∀ P' s', queue_inv X ids P' s' → drains X (holds c P) P s P' s' → qframe s s' → Q tt s') →
  wp (enqueue_reserved_jobs_loop fuel c) Q s.
Proof.
  revert P s. induction fuel as [|fuel IH]; intros P s HI HX [C HC] Hf HQ;
    cbn [enqueue_reserved_jobs_loop]; apply wp_bind;
    pose proof (qr_reserved _ _ _ _ (qi_rep _ _ _ _ HI) c C HC) as HL;
    (eapply wp_list_rep_empty; [exact HL|intros Hno|intros j0 Hj0]).
  1,3: assert (holds c P = ∅) as H0
    by (apply elem_of_equiv_empty_L; intros j Hj%elem_of_holds; by destruct (Hno j)).
  1,2: wsteps; apply (HQ P); [done| |done]; rewrite H0; by apply quiet_drains.
  { assert (j0 ∈ holds c P) as Hin by by apply elem_of_holds.
    assert (size (holds c P) = 0%nat) as Hz by lia. apply size_empty_inv in Hz. set_solver. }
  apply wp_bind. eapply wp_list_rep_next; [exact HL|exact Hj0|]. intros j Hj.
  apply wp_bind. eapply wp_list_rep_remove; [exact HL|exact Hj|]. wsteps.
  cbn [job_of_node]. wsteps.
  destruct (queue_inv_unhold X ids P s c j HI HX Hj) as (HI1 & Hs1 & Hj1 & Jb & t & HL1).
  set (s1 := rupd st_links _ s) in *.
  apply wp_bind_inv. eapply wp_give_back; [done..|]. intros P2 s2 HI2 Hd2 HF2.
  rewrite <- (right_id_L ∅ (∪) {[j]}) in Hd2.
  assert (drains X ({[j]} ∪ ∅) P s P2 s2) as Hd02.
  { eapply drains_after_take; [done|intros x _; by rewrite Hj1|done|apply unheld_empty]. }
  rewrite right_id_L in Hd02 by apply _.
  destruct (st_tube _ _ _ _ _ _ (dr_stays _ _ _ _ _ _ Hd2) j Jb) as (J2 & HJ2 & Ht2); [apply HL1|].
  rewrite (lo_tube _ _ _ _ _ HL1) in Ht2.
  destruct (landed_job X ids P2 s2 j t J2 s1) as [T2 HT2]; [done| |done|done|].
  { eapply (dr_lands _ _ _ _ _ _ Hd2); [set_solver|apply HL1|apply HL1]. }
  destruct (st_conn _ _ _ _ _ _ (dr_stays _ _ _ _ _ _ Hd02) c C HC) as (C2 & HC2 & _).
  unfold upd_global_stat, upd_tube_stat, tube_of. wsteps.
  match goal with |- context [rupd st_conns _ ?x] => set (s3 := x) end.
  assert (quiet s2 s3) as Hq by solve_quiet.
  destruct (queue_inv_forget X ids P2 s3 c C2) as (HI4 & Hd4 & HF4); [by eapply queue_inv_quiet|done|done|].
  set (s4 := with_soonest s3 c C2 None) in *.
  assert (drains X {[j]} P s P2 s4) as Hd04.
  { rewrite <- (right_id_L ∅ (∪) {[j]}), <- (right_id_L ∅ (∪) ({[j]} ∪ ∅)).
    eapply drains_trans; [|exact Hd4|apply unheld_empty].
    eapply drains_trans; [exact Hd02|by apply quiet_drains|apply unheld_empty]. }
  assert (∀ x, P2 !! x = Some (InReserved c) ↔ (x ∉ ({[j]} : gset jobp)) ∧ P !! x = Some (InReserved c))
    as Hh.
  { apply (drains_holds _ _ _ _ _ _ _ Hd04).
    - intros C0. by apply (queue_inv_not_waiting X ids P).
    - intros x ->%elem_of_singleton. exists Jb, t. split; [rewrite <- Hj1|]; apply HL1. }
  eapply IH; [exact HI4|done| | |].
  - unfold s4, with_soonest. rsimpl. rewrite lookup_insert_eq. eauto.
  - assert (size (holds c P2) < size (holds c P))%nat; [|lia].
    eapply (jobs_at_drain _ P P2 j); [exact Hj|done|]. intros x.
    change (x ∈ holds c P2 → x ≠ j ∧ x ∈ holds c P). rewrite !elem_of_holds, Hh. set_solver.
  - intros P' s' HI' Hd' HF'. apply (HQ P'); [done| |eauto with queue].
    assert ({[j]} ∪ holds c P2 = holds c P) as <-.
    2:{ eapply drains_trans; [exact Hd04|exact Hd'|]. intros x c' C' Hx%elem_of_holds Hx' HC'.
        rewrite Hx in Hx'. injection Hx' as <-. by eapply (queue_inv_not_waiting X ids P). }
    apply set_eq. intros x. rewrite elem_of_union, !elem_of_holds, Hh, elem_of_singleton.
    destruct (decide (x = j)) as [->|]; naive_solver.
Qed.

(** [enqueue_reserved_jobs] gives back every job of the connection. *)
Lemma wp_enqueue_reserved_jobs X ids P s c (Q : unit → St → Prop) :
  queue_inv X ids P s → c ∈ X → is_Some (st_conns s !! c) →
  (∀ P' s', queue_inv X ids P' s' → drains X (holds c P) P s P' s' → qframe s s' → Q tt s') →
  wp (enqueue_reserved_jobs c) Q s.
Proof.
  intros HI HX HC HQ. unfold enqueue_reserved_jobs. wsteps.
  eapply wp_enqueue_reserved_jobs_loop; [done..| |done].
  unfold holds. eapply jobs_at_le, HI.
Qed.
End loops.
