(* ===== verification/Refs.v ===== *)
(** The invariant of the server between commands, and the reference counts of
    tubes.

    [refs s t] counts the pointers to [t] that are counted in [t->refs]: from
    jobs, from the connections that use or watch it, and from [default_tube].
    [srv_inv] joins it with the invariant of the queue and the table of all
    jobs.  A tube is freed when its last reference goes ([derefd]), and then
    nothing points to it. *)
From S2P Require Import Prelude Heap Ms State Monad JobList JobHash Tube Job Wal Conn Queue QueueRep QueueOps QueueConn QueueProc Process Runs Owners QueueCmds.
#[local] Open Scope Z_scope.

Definition watches (t : tubep) (C : Conn) : Prop := t ∈ ms_items (c_watch C).
#[export] Instance watches_dec t C : Decision (watches t C).
Proof. unfold watches. apply _. Defined.

Definition refs (s : St) (t : tubep) : Z :=
  count (λ J, j_tube J = Some t) (st_jobs s) + count (λ C, c_use C = Some t) (st_conns s)
  + count (watches t) (st_conns s) + Z.b2z (bool_decide (default_tube s = Some t)).

(** [x] are the references held by local variables. *)
Record refs_inv (x : tubep → Z) (s : St) : Prop := {
  rf_count t T : st_tubes s !! t = Some T → t_refs T = refs s t + x t;
  rf_listed t : 0 < refs s t + x t → t ∈ ms_items (tubes s);
  rf_use c C : st_conns s !! c = Some C → is_Some (c_use C);
  rf_extra t : 0 <= x t;
}.

(** The server runs without a log. *)
Record log_off (s : St) : Prop := {
  lo_use : no_log s;
  lo_head : w_head (srv_wal s) = None;
  lo_cur : w_cur (srv_wal s) = None;
  lo_file j J : st_jobs s !! j = Some J → j_file J = None;
}.

(** What a handler holds in local variables: references to tubes, and the
    connections whose jobs are in its hands. *)
Record local := mkLocal { lc_refs :> tubep → Z; lc_conns : gset connp }.

(** The ids in use are below the next one. *)
Record srv_inv (x : local) (X : gset connp) (ids : gmap Z jobp) (P : places) (s : St) : Prop := {
  sv_queue : queue_inv X ids P s;
  sv_table : table_rep (st_jobs s) (st_table s) ids;
  sv_refs : refs_inv x s;
  sv_next : 0 < next_id (st_table s) ∧
    ∀ id j, ids !! id = Some j → 0 < id < next_id (st_table s);
  sv_idle j : idle_at P s j;
  sv_known c : c ∉ X → known P s c;
  sv_log : log_off s;
  sv_owns : owns (lc_conns x) P (st_jobs s) (st_conns s);
}.

(** Nothing, one more reference to [t], and the jobs of [c]. *)
Definition none : local := mkLocal (λ _, 0) ∅.
Definition bump (t : tubep) (x : local) : local :=
  mkLocal (λ t', x t' + Z.b2z (bool_decide (t' = t))) (lc_conns x).
Definition acting (c : connp) (x : local) : local := mkLocal x ({[c]} ∪ lc_conns x).

(** ** What the invariant does not see *)

Definition x_job (J : Job) : Job :=
  mkJob (mkJobrec (r_id (j_r J)) 0 0 0 0 0 0 0 0 0 0 0 Invalid) (j_tube J) (j_ht_next J) 0
    (j_file J) None 0 0 [] 0.
Definition x_tube (T : Tube) : Tube :=
  mkTube (t_refs T) [] heap_empty heap_empty ms_init stats_zero 0 0 0 0.
Definition x_conn (C : Conn) : Conn :=
  conn_zero <| c_use := c_use C |> <| c_watch := mkMs (ms_items (c_watch C)) 0 0 |>.

Record sframe (s s' : St) : Prop := {
  sf_jobs : same_but x_job (st_jobs s) (st_jobs s');
  sf_tubes : same_but x_tube (st_tubes s) (st_tubes s');
  sf_conns : same_but x_conn (st_conns s) (st_conns s');
  sf_table : st_table s' = st_table s;
  sf_set : ms_items (tubes s') = ms_items (tubes s);
  sf_default : default_tube s' = default_tube s;
  sf_wal : srv_wal s' = srv_wal s;
}.
#[export] Instance sframe_pre : PreOrder sframe.
Proof.
  split; [by split|]. intros s1 s2 s3 [J1 T1 C1 t1 l1 d1] [J2 T2 C2 t2 l2 d2].
  split; [by etrans..|congruence|congruence|congruence|congruence].
Qed.

Lemma qframe_sframe s s' : qframe s s' → sframe s s'.
Proof.
  intros [H HJ HT HC]. split.
  - by eapply (same_but_mono z_job).
  - by eapply (same_but_mono z_tube).
  - by eapply (same_but_mono z_conn).
  - exact (f_equal st_table H).
  - exact (f_equal (λ s, ms_items (tubes s)) H).
  - exact (f_equal default_tube H).
  - exact (f_equal srv_wal H).
Qed.

Section frame.
Implicit Types (P : places) (ids : gmap Z jobp) (X Y : gset connp) (s : St) (x : local).
Implicit Types (j : jobp) (t : tubep) (c : connp) (C : Conn).

Lemma refs_nonneg s t : 0 <= refs s t.
Proof.
  unfold refs. pose proof (count_nonneg (λ J, j_tube J = Some t) (st_jobs s)).
  pose proof (count_nonneg (λ C, c_use C = Some t) (st_conns s)).
  pose proof (count_nonneg (watches t) (st_conns s)). destruct (bool_decide _); simpl; lia.
Qed.

Lemma refs_sframe s s' t : sframe s s' → refs s' t = refs s t.
Proof.
  intros [HJ _ HC _ _ Hd _]. unfold refs. rewrite Hd.
  rewrite (count_same_but _ x_job (st_jobs s) (st_jobs s')); [|intros A B He|done].
  2: { assert (j_tube B = j_tube A) as -> by exact (f_equal j_tube He). done. }
  rewrite (count_same_but (λ C, c_use C = Some t) x_conn (st_conns s) (st_conns s')); [|intros A B He|done].
  2: { assert (c_use B = c_use A) as -> by exact (f_equal c_use He). done. }
  rewrite (count_same_but (watches t) x_conn (st_conns s) (st_conns s')); [done|intros A B He|done].
  unfold watches.
  assert (ms_items (c_watch B) = ms_items (c_watch A)) as ->
    by exact (f_equal (λ C, ms_items (c_watch C)) He). done.
Qed.

Lemma refs_inv_sframe x s s' : sframe s s' → refs_inv x s → refs_inv x s'.
Proof.
  intros Hs [Hc Hl Hu Hx]. pose proof (λ t, refs_sframe s s' t Hs) as Hr.
  destruct Hs as [HJ HT HC _ Hset _ _]. split; [..|done].
  - intros t T' HT'. destruct (same_but_lookup_inv _ _ _ _ _ HT HT') as (T & HTt & He).
    assert (t_refs T' = t_refs T) as -> by exact (f_equal t_refs He). rewrite Hr. auto.
  - intros t. rewrite Hr, Hset. apply Hl.
  - intros c C' HC'. destruct (same_but_lookup_inv _ _ _ _ _ HC HC') as (C & HCc & He).
    assert (c_use C' = c_use C) as -> by exact (f_equal c_use He). eauto.
Qed.

(** The chains of the table. *)
Definition h_job (J : Job) : Job :=
  mkJob (mkJobrec (r_id (j_r J)) 0 0 0 0 0 0 0 0 0 0 0 Invalid) None (j_ht_next J) 0
    None None 0 0 [] 0.

Lemma hchain_h J J' p l : same_but h_job J J' → hchain J p l → hchain J' p l.
Proof.
  intros HJ. revert p. induction l as [|j l IH]; intros p; [done|]. simpl.
  intros (-> & Jb & Hj & Hc). split; [done|].
  destruct (same_but_lookup _ _ _ _ _ HJ Hj) as (Jb' & Hj' & He). exists Jb'. split; [done|].
  assert (j_ht_next Jb' = j_ht_next Jb) as -> by exact (f_equal j_ht_next He). auto.
Qed.

Lemma table_rep_h J J' T m : same_but h_job J J' → table_rep J T m → table_rep J' T m.
Proof.
  intros HJ [Hc Hp Hch Hid Hu Hl]. split; auto.
  - intros i Hi. destruct (Hch i Hi) as (l & Hl1 & ? & Hb). exists l.
    split_and!; [by eapply hchain_h|done|done].
  - intros id j (? & Jb & Hj & Hr)%Hid. split; [done|].
    destruct (same_but_lookup _ _ _ _ _ HJ Hj) as (Jb' & Hj' & He). exists Jb'. split; [done|].
    rewrite <- Hr. exact (f_equal (λ J, r_id (j_r J)) He).
Qed.

Lemma log_off_sframe s s' : sframe s s' → log_off s → log_off s'.
Proof.
  intros [HJ _ _ _ _ _ Hw] [Hu Hh Hc Hf]. unfold no_log in *.
  split; [unfold no_log; by rewrite Hw|by rewrite Hw|by rewrite Hw|].
  intros j J' HJ'. destruct (same_but_lookup_inv _ _ _ _ _ HJ HJ') as (J & HJj & He).
  rewrite <- (Hf j J HJj). exact (f_equal j_file He).
Qed.
Lemma log_off_jobs s s' :
  srv_wal s' = srv_wal s →
  (∀ j J', st_jobs s' !! j = Some J' → j_file J' = None ∨ ∃ j0 J, st_jobs s !! j0 = Some J ∧ j_file J' = j_file J) →
  log_off s → log_off s'.
Proof.
  intros Hw HJ [Hu Hh Hc Hf]. split; [unfold no_log; by rewrite Hw|by rewrite Hw|by rewrite Hw|].
  intros j J' [?|(j0 & J & ? & ->)]%HJ; eauto.
Qed.
Lemma log_off_same s s' :
  srv_wal s' = srv_wal s → st_jobs s' = st_jobs s → log_off s → log_off s'.
Proof. intros Hw HJ. apply log_off_jobs; [done|]. intros j J'. rewrite HJ. eauto. Qed.
(** One job changes. *)
Lemma log_off_insert s s' j J :
  srv_wal s' = srv_wal s → st_jobs s' = <[j := J]> (st_jobs s) → j_file J = None → log_off s → log_off s'.
Proof.
  intros Hw HJ Hf. apply log_off_jobs; [done|]. intros x Jx. rewrite HJ.
  intros [[<- <-]|[_ ?]]%lookup_insert_Some; eauto.
Qed.

(** An operation of the queue keeps the rest of the invariant. *)
Lemma srv_inv_step x X X' ids P P' s s' :
  srv_inv x X ids P s → queue_inv X' ids P' s' → sframe s s' → (∀ j, idle_at P' s' j) →
  (∀ c, c ∉ X' → known P' s' c) → owns (lc_conns x) P' (st_jobs s') (st_conns s') →
  srv_inv x X' ids P' s'.
Proof.
  intros [_ Ht Hr Hn _ _ Hl _] HI Hs Hi Hk Ho. pose proof (sf_table _ _ Hs) as HT.
  split; [done|..|done|done|by eapply log_off_sframe|done].
  - rewrite HT. eapply table_rep_h; [|done]. by eapply (same_but_mono x_job), sf_jobs.
  - by eapply refs_inv_sframe.
  - by rewrite HT.
Qed.

Lemma stays_idle X D P s P' s' :
  stays X D P s P' s' → (∀ j, j ∈ D → is_Some (P' !! j)) → (∀ j, idle_at P s j) →
  ∀ j, idle_at P' s' j.
Proof.
  intros HS HD Hi j. destruct (decide (j ∈ D)) as [Hj|Hj]; [|by eapply st_idle].
  destruct (HD j Hj) as [p Hp]. intros J _. congruence.
Qed.

Lemma lands_place s P j t : lands s P j t → is_Some (P !! j).
Proof. intros [->|[->|(? & ? & -> & _)]]; eauto. Qed.

(** The operations on jobs whose effect is a set of moves. *)
Lemma srv_inv_stays x X X' ids D P s P' s' :
  srv_inv x X ids P s → queue_inv X' ids P' s' → qframe s s' → stays X' D P s P' s' →
  X ⊆ X' → (∀ j, j ∈ D → is_Some (P' !! j) ∧ unowned (lc_conns x) (st_conns s) j) →
  srv_inv x X' ids P' s'.
Proof.
  intros HI HQ HF HS HX HD. eapply srv_inv_step; [done|done|by apply qframe_sframe|..].
  - eapply stays_idle; [done|by intros j [? _]%HD|apply HI].
  - intros c Hc. apply (tl_known _ _ _ _ _ (st_tells _ _ _ _ _ _ HS)); [done|].
    eapply sv_known; [done|set_solver].
  - eapply owns_stays; [done| |by intros j [_ ?]%HD|apply HI].
    by apply (same_but_dom z_conn), qf_conns.
Qed.

Lemma srv_inv_quiet x X ids P s s' : quiet s s' → srv_inv x X ids P s → srv_inv x X ids P s'.
Proof.
  intros Hq HI. eapply srv_inv_stays; [done| |apply Hq|by apply quiet_stays|done|done].
  eapply queue_inv_quiet, HI. done.
Qed.
End frame.

(** ** Freeing a tube *)

Section tubes.
Context {E : Env}.
Implicit Types (P : places) (ids : gmap Z jobp) (X Y : gset connp) (s : St) (x : local).
Implicit Types (j : jobp) (t : tubep) (c : connp) (C : Conn).

Definition dropped s t : St :=
  s <| tubes ::= (λ a, match ms_remove t a with Some (_, a') => a' | None => a end) |>
    <| st_links ::= delete (NBuried t) |> <| st_tubes ::= delete t |>.

(** The state after [tube_dref] of a tube with a reference. *)
Definition derefd s t (T : Tube) : St :=
  if t_refs T =? 1 then dropped s t
  else s <| st_tubes ::= <[t := T <| t_refs ::= Z.pred |>]> |>.

Lemma wp_tube_dref s t T (Q : unit → St → Prop) :
  st_tubes s !! t = Some T → 1 <= t_refs T → Q tt (derefd s t T) → wp (tube_dref (Some t)) Q s.
Proof.
  intros HT Hr HQ. unfold tube_dref, derefd in *. wsteps.
  rewrite (proj2 (Z.ltb_ge _ _)) by lia. wsteps.
  destruct (Z.eqb_spec (t_refs T) 1) as [H1|H1].
  - rewrite H1. simpl. unfold tube_free. wsteps.
    destruct (ms_remove t _) as [[y a]|] eqn:Hm; wsteps;
      match goal with |- Q _ ?x => replace x with (dropped s t); [done|] end;
      unfold dropped, rupd, set_st_tubes, set_st_links, set_tubes in *; simpl in *;
      by rewrite Hm, insert_insert_eq, delete_insert_eq.
  - rewrite (proj2 (Z.ltb_ge _ _)) by lia. by wsteps.
Qed.

(** The set of tubes without [t]. *)
Lemma dropped_set s t :
  NoDup (ms_items (tubes s)) →
  NoDup (ms_items (tubes (dropped s t))) ∧
  ∀ y, y ∈ ms_items (tubes (dropped s t)) ↔ y ∈ ms_items (tubes s) ∧ y ≠ t.
Proof.
  intros Hnd. unfold dropped. rsimpl. destruct (decide (t ∈ ms_items (tubes s))) as [Hin|Hin].
  - destruct (ms_remove_Some t _ Hin) as (a & -> & Hp & _). rewrite <- Hp in Hnd.
    apply NoDup_cons in Hnd as [Hn ?]. split; [done|]. intros y. rewrite <- Hp, elem_of_cons.
    naive_solver.
  - rewrite ms_remove_None by done. split; [done|]. naive_solver.
Qed.

Section drop.
Context (P : places) (ids : gmap Z jobp) (X : gset connp) (s : St) (t : tubep).
Context (Hjobs : ∀ j J, st_jobs s !! j = Some J → j_tube J ≠ Some t).
Context (Hwatch : ∀ c C, st_conns s !! c = Some C → t ∉ ms_items (c_watch C)).

Lemma dropped_tube t' T : st_tubes (dropped s t) !! t' = Some T → st_tubes s !! t' = Some T ∧ t' ≠ t.
Proof. clear. unfold dropped. rsimpl. intros ?%lookup_delete_Some. naive_solver. Qed.
Lemma dropped_live t' : t' ≠ t → is_Some (st_tubes s !! t') → is_Some (st_tubes (dropped s t) !! t').
Proof. clear. intros ?. unfold dropped. rsimpl. by rewrite lookup_delete_ne. Qed.

Lemma queue_rep_dropped : queue_rep P ids X s → queue_rep P ids X (dropped s t).
Proof.
  intros [Hpl Hid Hre Hde Hbu Hrs Hfr [Hnd Htu] Hco Hso Hli].
  destruct (dropped_set s t Hnd) as [Hnd' Hin].
  assert (∀ n, n ≠ NBuried t → st_links (dropped s t) !! n = st_links s !! n) as HL.
  { intros n Hn. unfold dropped. rsimpl. by rewrite lookup_delete_ne. }
  split; try done.
  - intros j p Hp. destruct (Hpl j p Hp) as (J & t' & T & HJ & Hf & Ht' & HT & HC).
    assert (t' ≠ t) as Hne by (intros ->; by destruct (Hjobs j J HJ)).
    destruct (dropped_live t') as [T' HT']; [done|eauto|]. by exists J, t', T'.
  - intros t' T [HT _]%dropped_tube. auto.
  - intros t' T [HT _]%dropped_tube. auto.
  - intros t' T [HT Hne]%dropped_tube. eapply list_rep_ext; [|eauto].
    intros n [->|(y & -> & _)]; apply HL; congruence.
  - intros c C HC. eapply list_rep_ext; [|eauto].
    intros n [->|(y & -> & _)]; by apply HL.
  - intros j J HJ Hp. unfold isolated. rewrite HL by done. by eapply Hfr.
  - split; [done|]. intros t' [Ht' Hne]%Hin. apply dropped_live; auto.
  - intros j J t' HJ Ht'. apply Hin. split; [by eapply Hli|]. intros ->. by destruct (Hjobs j J HJ).
Qed.

Lemma wait_rep_dropped Y : wait_rep Y s → wait_rep Y (dropped s t).
Proof.
  intros [Hw Hnd Hso]. split.
  - intros c C HC. destruct (Hw c C HC) as [? Hl]. split; [done|]. intros t' Ht'.
    apply dropped_live; [|by apply Hl]. intros ->. by destruct (Hwatch c C HC).
  - intros t' T [HT _]%dropped_tube. eauto.
  - intros t' T c [HT _]%dropped_tube. eauto.
Qed.

Lemma queue_inv_dropped : queue_inv X ids P s → queue_inv X ids P (dropped s t).
Proof. intros [HR HW Hca]. split; [by apply queue_rep_dropped|by apply wait_rep_dropped|done]. Qed.
End drop.

(** No reference, no pointer. *)
Lemma refs_zero s t :
  refs s t = 0 →
  (∀ j J, st_jobs s !! j = Some J → j_tube J ≠ Some t) ∧
  (∀ c C, st_conns s !! c = Some C → c_use C ≠ Some t ∧ t ∉ ms_items (c_watch C)) ∧
  default_tube s ≠ Some t.
Proof.
  unfold refs. intros H0.
  pose proof (count_nonneg (λ J, j_tube J = Some t) (st_jobs s)).
  pose proof (count_nonneg (λ C, c_use C = Some t) (st_conns s)).
  pose proof (count_nonneg (watches t) (st_conns s)).
  assert (0 <= Z.b2z (bool_decide (default_tube s = Some t))) by (destruct (bool_decide _); simpl; lia).
  split_and!.
  - intros j J HJ Ht. pose proof (count_pos (λ J, j_tube J = Some t) _ _ _ HJ Ht). lia.
  - intros c C HC. split; intros Ht.
    + pose proof (count_pos (λ C, c_use C = Some t) _ _ _ HC Ht). lia.
    + pose proof (count_pos (watches t) _ _ _ HC Ht). lia.
  - intros Hd. rewrite (bool_decide_eq_true_2 _ Hd) in *. simpl in *. lia.
Qed.

Lemma bump_eq t x : bump t x t = x t + 1.
Proof. unfold bump. simpl. by rewrite bool_decide_eq_true_2. Qed.
Lemma bump_ne t t' x : t' ≠ t → bump t x t' = x t'.
Proof. intros. unfold bump. simpl. rewrite bool_decide_eq_false_2 by done. simpl. lia. Qed.

(** Changing the counter of a tube only. *)
Lemma srv_inv_count x x' X ids P s t T n (s' := s <| st_tubes ::= <[t := T <| t_refs := n |>]> |>) :
  srv_inv x X ids P s → st_tubes s !! t = Some T → t ∈ ms_items (tubes s) → n = refs s t + x' t →
  (∀ t', t' ≠ t → x' t' = x t') → lc_conns x' = lc_conns x → (∀ t', 0 <= x' t') →
  srv_inv x' X ids P s'.
Proof.
  intros [HQ Ht [Hc Hl Hu _] Hn Hi Hk Hlog Hown] HT Hin -> Hx' Hlc Hpos.
  assert (queue_sim s s' ∧ wait_sim s s') as [Hqs Hws].
  { unfold s'. split; split; rsimpl; try done; by eapply same_but_insert. }
  split; try done.
  - destruct HQ as [HR HW Hca]. split; [by eapply queue_rep_sim|by eapply wait_rep_sim|done].
  - assert (∀ t', refs s' t' = refs s t') as Hr by done. split; [| |done|done].
    + intros t' T'. unfold s'. rsimpl. rewrite Hr. destruct (decide (t' = t)) as [->|].
      * rewrite lookup_insert_eq. intros HT'. apply (inj Some) in HT' as <-. done.
      * rewrite lookup_insert_ne, Hx' by done. apply Hc.
    + intros t'. rewrite Hr. destruct (decide (t' = t)) as [->|]; [done|]. rewrite Hx' by done. apply Hl.
  - revert Hlog. by apply log_off_same.
  - by rewrite Hlc.
Qed.

Lemma srv_inv_listed x X ids P s t :
  srv_inv x X ids P s → 0 < refs s t + x t →
  t ∈ ms_items (tubes s) ∧ ∃ T, st_tubes s !! t = Some T ∧ t_refs T = refs s t + x t.
Proof.
  intros HI Hpos. pose proof (rf_listed _ _ (sv_refs _ _ _ _ _ HI) t Hpos) as Hin.
  split; [done|]. destruct (qr_tubes _ _ _ _ (qi_rep _ _ _ _ (sv_queue _ _ _ _ _ HI))) as [_ Htu].
  destruct (Htu t Hin) as [T HT]. exists T. split; [done|]. by apply (rf_count _ _ (sv_refs _ _ _ _ _ HI)).
Qed.

(** Giving up a reference held by a local variable. *)
Lemma srv_inv_derefd x X ids P s t T :
  srv_inv (bump t x) X ids P s → (∀ t', 0 <= x t') → st_tubes s !! t = Some T →
  1 <= t_refs T ∧ srv_inv x X ids P (derefd s t T).
Proof.
  intros HI Hx HT. pose proof (refs_nonneg s t) as Hnn. pose proof (Hx t) as Hxt.
  destruct (srv_inv_listed _ _ _ _ _ t HI) as (Hin & T' & HT' & Hr); [rewrite bump_eq; lia|].
  rewrite HT in HT'. apply (inj Some) in HT' as <-. rewrite bump_eq in Hr. split; [lia|].
  unfold derefd. destruct (Z.eqb_spec (t_refs T) 1) as [H1|H1].
  - destruct (refs_zero s t) as (Hj & Hc & Hd); [lia|].
    destruct HI as [HQ Ht [Hct Hl Hu _] Hn Hi Hk Hlog Hown].
    destruct (dropped_set s t) as [_ Hset]; [apply (qr_tubes _ _ _ _ (qi_rep _ _ _ _ HQ))|].
    split; try done.
    + apply queue_inv_dropped; [done| |done]. intros c C HC. by apply Hc in HC as [_ ?].
    + assert (∀ t', refs (dropped s t) t' = refs s t') as Hrf by done. split; [| |done|done].
      * intros t' T' [HT' Hne]%dropped_tube. rewrite Hrf, (Hct t' T' HT'). by rewrite bump_ne.
      * intros t'. rewrite Hrf. intros Hp. apply Hset. assert (t' ≠ t) as Hne by (intros ->; lia).
        split; [|done]. apply Hl. by rewrite bump_ne.
    + revert Hlog. by apply log_off_same.
  - eapply (srv_inv_count (bump t x)); [done|done|done|lia| |done|done]. intros t' Hne. by rewrite bump_ne.
Qed.
End tubes.
