(* ===== verification/Life.v ===== *)
(** The life of a job: [make_job], [job_copy], [job_free], as updates of the
    invariant of the server. *)
From S2P Require Import Prelude Heap Ms State Monad JobList JobHash Tube Job Wal Conn Queue QueueRep QueueOps QueueConn QueueProc Process Runs Owners QueueCmds QueueLoops Refs.
#[local] Open Scope Z_scope.

(** Allocating and freeing objects touches no connection. *)
Record life_step (s s' : St) : Prop := {
  lf_conns : st_conns s' = st_conns s;
  lf_wal : srv_wal s' = srv_wal s;
  lf_drain : drain_mode s' = drain_mode s;
  lf_default : default_tube s' = default_tube s;
}.
#[export] Instance life_step_pre : PreOrder life_step.
Proof. split; [by split|]. intros s1 s2 s3 [????] [????]. split; congruence. Qed.

(** Everything in a tube but the counter. *)
Definition x_tube' (T : Tube) : Tube := T <| t_refs := 0 |>.

Lemma life_step_log s s' : life_step s s' → no_log s → no_log s'.
Proof. intros [_ Hw _ _]. unfold no_log. by rewrite Hw. Qed.

Section life.
Context {E : Env}.
Implicit Types (P : places) (ids : gmap Z jobp) (X Y : gset connp) (s : St) (x : local).
Implicit Types (j : jobp) (t : tubep) (c : connp) (C : Conn).

(** ** The tube of a job *)

(** The record of a job without a place changes: the queue. *)
Lemma queue_inv_detached P ids X s j Jb Jb' :
  queue_inv X ids P s → P !! j = None → st_jobs s !! j = Some Jb →
  r_id (j_r Jb') = r_id (j_r Jb) → (∀ t, j_tube Jb' = Some t → t ∈ ms_items (tubes s)) →
  (r_state (j_r Jb') = Copy ↔ r_state (j_r Jb) = Copy) →
  queue_inv X ids P (s <| st_jobs ::= <[j := Jb']> |>).
Proof.
  intros [HR HW Hca] Hj HJb Hid Ht Hcp. split; [by eapply queue_rep_detached_tube| |done].
  eapply wait_rep_sim; [|exact HW]. by split.
Qed.

Lemma owns_insert_job Y P s j Jb :
  unowned Y (st_conns s) j → owns Y P (st_jobs s) (st_conns s) →
  owns Y P (<[j := Jb]> (st_jobs s)) (st_conns s).
Proof. intros Hj. apply (owns_unowned _ _ _ _ _ j); [|done]. intros y Hy. by apply lookup_insert_ne. Qed.

Definition untubed s j (Jb : Job) : St :=
  s <| st_jobs ::= <[j := Jb <| j_tube := None |>]> |>.

Lemma refs_untubed s j Jb t' :
  st_jobs s !! j = Some Jb →
  refs (untubed s j Jb) t' = refs s t' - Z.b2z (bool_decide (j_tube Jb = Some t')).
Proof.
  intros HJ. unfold refs, untubed. rsimpl. rewrite (count_update _ _ _ _ _ HJ). rsimpl.
  rewrite (bool_decide_eq_false_2 (None = Some t')) by done. simpl. lia.
Qed.

(** The pointer to the tube becomes a reference that is held locally. *)
Lemma srv_inv_untubed x X ids P s j Jb t :
  srv_inv x X ids P s → P !! j = None → st_jobs s !! j = Some Jb → j_tube Jb = Some t →
  unowned (lc_conns x) (st_conns s) j → srv_inv (bump t x) X ids P (untubed s j Jb).
Proof.
  intros [HQ Ht [Hc Hl Hu Hx] Hn Hi Hk Hlog Hown] Hj HJ Htb Huo.
  assert (∀ t', refs (untubed s j Jb) t' + bump t x t' = refs s t' + x t') as Hr.
  { intros t'. rewrite refs_untubed by done. cbn [bump lc_refs]. rewrite Htb.
    destruct (decide (t' = t)) as [->|Hne].
    - rewrite !bool_decide_eq_true_2 by done. lia.
    - rewrite !bool_decide_eq_false_2 by congruence. lia. }
  split.
  - by apply (queue_inv_detached P ids X s j Jb).
  - eapply table_rep_h; [|exact Ht]. by eapply same_but_insert.
  - split; [intros t' T HT; rewrite Hr; by apply Hc|intros t'; rewrite Hr; apply Hl|done|].
    intros t'. cbn [bump lc_refs]. specialize (Hx t'). destruct (bool_decide _); simpl; lia.
  - done.
  - intros y J. unfold untubed. rsimpl. destruct (decide (y = j)) as [->|].
    + rewrite lookup_insert_eq. intros HJ'. apply (inj Some) in HJ' as <-. by apply (Hi j Jb).
    + rewrite lookup_insert_ne by done. apply Hi.
  - done.
  - eapply (log_off_insert s); [done..| |done]. exact (lo_file _ Hlog j Jb HJ).
  - exact (owns_insert_job _ _ s j _ Huo Hown).
Qed.

Lemma wp_job_assign_none x X ids P s j Jb (Q : unit → St → Prop) :
  srv_inv x X ids P s → P !! j = None → st_jobs s !! j = Some Jb →
  unowned (lc_conns x) (st_conns s) j →
  (∀ s', srv_inv x X ids P s' → st_jobs s' = <[j := Jb <| j_tube := None |>]> (st_jobs s) →
     life_step s s' → Q tt s') →
  wp (job_assign_tube j None) Q s.
Proof.
  intros HI Hj HJ Huo HQ. unfold job_assign_tube, TUBE_ASSIGN. wsteps.
  destruct (j_tube Jb) as [t|] eqn:Ht.
  - pose proof (srv_inv_untubed _ _ _ _ _ _ _ _ HI Hj HJ Ht Huo) as HI1.
    assert (0 < refs s t + x t) as Hpos.
    { pose proof (refs_untubed s j Jb t HJ) as Hr. rewrite Ht, bool_decide_eq_true_2 in Hr by done.
      pose proof (refs_nonneg (untubed s j Jb) t). pose proof (rf_extra _ _ (sv_refs _ _ _ _ _ HI) t).
      simpl in Hr. lia. }
    destruct (srv_inv_listed _ _ _ _ _ t HI Hpos) as (_ & T & HT & _).
    destruct (srv_inv_derefd _ _ _ _ _ t T HI1) as [Hr HI2]; [apply (sv_refs _ _ _ _ _ HI)|done|].
    eapply wp_tube_dref; [done|done|].
    assert (st_jobs (derefd s t T) !! j = Some Jb) as HJ' by (unfold derefd; by case_match).
    wsteps. unfold tube_iref. wsteps.
    assert (rupd st_jobs <[j := Jb <| j_tube := None |>]> (derefd s t T) =
            derefd (untubed s j Jb) t T) as -> by (unfold derefd; by case_match).
    apply HQ; [done|unfold derefd; by case_match|unfold derefd; case_match; by split].
  - unfold tube_dref. wsteps. unfold tube_iref. wsteps.
    assert (Jb <| j_tube := None |> = Jb) as HJb by (rewrite <- Ht; by destruct Jb).
    rewrite HJb in HQ. rewrite HJb.
    assert (rupd st_jobs <[j := Jb]> s = s) as ->.
    { unfold rupd, set_st_jobs. destruct s; simpl in *. by rewrite insert_id. }
    apply HQ; [done| |done]. by rewrite insert_id.
Qed.

(** ** Freeing *)

(** The state without the object of a job. *)
Definition removed s j : St :=
  s <| st_links ::= delete (NJob j) |> <| st_jobs ::= delete j |>.

Lemma queue_rep_removed P ids ids' X s j :
  queue_rep P ids X s → P !! j = None →
  (∀ id y, y ≠ j → ids !! id = Some y ↔ ids' !! id = Some y) →
  queue_rep P ids' X (removed s j).
Proof.
  intros [Hpl Hid Hre Hde Hbu Hrs Hfr Htu Hco Hso Hli] Hj Hids.
  assert (∀ y q, P !! y = Some q → delete j (st_jobs s) !! y = st_jobs s !! y) as Hy.
  { intros y q Hq. apply lookup_delete_ne. congruence. }
  assert (∀ n, n ≠ NJob j → st_links (removed s j) !! n = st_links s !! n) as HL.
  { intros n Hn. unfold removed. rsimpl. by rewrite lookup_delete_ne. }
  unfold removed in *. split; rsimpl; try done.
  - intros y p Hp. rewrite (Hy y p Hp). by apply Hpl.
  - intros y A [Hne HA]%lookup_delete_Some. rewrite (Hid y A HA). by apply Hids.
  - intros t T HT. eapply heap_rep_other; [|by apply Hre]. intros y. apply Hy.
  - intros t T HT. eapply heap_rep_other; [|by apply Hde]. intros y. apply Hy.
  - intros t T HT. eapply list_rep_ext; [|by eapply Hbu].
    intros n [->|(y & -> & Hp)]; apply HL; congruence.
  - intros c C HC. eapply list_rep_ext; [|by eapply Hrs].
    intros n [->|(y & -> & Hp)]; apply HL; congruence.
  - intros y A [Hne HA]%lookup_delete_Some Hn. unfold isolated. rewrite HL by congruence.
    by eapply Hfr.
  - intros c C y HX HC Hyc. eapply soonest_of_frame; [done| |by eapply Hso].
    intros z A' Hz. rewrite (Hy z _ Hz). eauto.
  - intros y A t [_ HA]%lookup_delete_Some. by eapply Hli.
Qed.

Lemma refs_removed s j Jb t :
  st_jobs s !! j = Some Jb → j_tube Jb = None → refs (removed s j) t = refs s t.
Proof.
  intros HJ Ht. unfold refs, removed. rsimpl. rewrite (count_delete _ _ _ _ HJ), Ht.
  by rewrite (bool_decide_eq_false_2 (None = Some t)).
Qed.

(** The object of a job that is in no table and has no tube. *)
Lemma srv_inv_removed x X ids ids' P s j Jb :
  queue_inv X ids P s → P !! j = None → st_jobs s !! j = Some Jb → j_tube Jb = None →
  (∀ id y, y ≠ j → ids !! id = Some y ↔ ids' !! id = Some y) →
  table_rep (st_jobs s) (st_table s) ids' → refs_inv x s →
  (0 < next_id (st_table s) ∧ ∀ id y, ids' !! id = Some y → 0 < id < next_id (st_table s)) →
  (∀ id, ids' !! id ≠ Some j) → (∀ y, y ≠ j → idle_at P s y) → (∀ c, c ∉ X → known P s c) →
  log_off s → owns (lc_conns x) P (st_jobs s) (st_conns s) →
  unowned (lc_conns x) (st_conns s) j → srv_inv x X ids' P (removed s j).
Proof.
  intros [HR HW Hca] Hj HJ Ht Hids HT [Hc Hl Hu Hx] Hn Hnj Hi Hk Hlog Hown Huo.
  split; [split| | | | |done| |].
  - by eapply queue_rep_removed.
  - eapply wait_rep_sim; [|exact HW]. by split.
  - done.
  - eapply table_same; [|exact HT]. intros y. unfold removed. rsimpl.
    destruct (decide (y = j)) as [->|]; [by right|left; by rewrite lookup_delete_ne].
  - split; [intros t T HTt|intros t|done|done]; rewrite (refs_removed _ _ _ _ HJ Ht); [by apply Hc|apply Hl].
  - done.
  - intros y J. unfold removed. rsimpl. intros [Hne HJy]%lookup_delete_Some. by apply Hi.
  - eapply (log_off_jobs s); [done| |done]. intros y J. unfold removed. rsimpl.
    intros [_ HJy]%lookup_delete_Some. eauto.
  - unfold removed. rsimpl. eapply owns_unowned; [|done|done]. intros y Hy. by apply lookup_delete_ne.
Qed.

(** An operation of the table changes only the links of the chains. *)
Lemma table_upd_queue X ids P s J T n :
  same_but_ht (st_jobs s) J → queue_inv X ids P s → queue_inv X ids P (table_upd s J T n).
Proof.
  intros HJ [HR HW Hca]. split; [|eapply wait_rep_sim; [|exact HW]; by split|done].
  eapply queue_rep_sim; [|exact HR]. split; try done. by eapply (same_but_mono erase_ht).
Qed.

Lemma refs_table_upd s J T n t :
  same_but_ht (st_jobs s) J → refs (table_upd s J T n) t = refs s t.
Proof.
  intros HJ. unfold refs, table_upd. rsimpl.
  rewrite (count_same_but _ erase_ht (st_jobs s) J); [done| |done].
  intros A B He. assert (j_tube B = j_tube A) as -> by exact (f_equal j_tube He). done.
Qed.

Lemma table_upd_refs x s J T n :
  same_but_ht (st_jobs s) J → refs_inv x s → refs_inv x (table_upd s J T n).
Proof.
  intros HJ [Hc Hl Hu Hx].
  split; [intros t T0 HT|intros t|done|done]; rewrite refs_table_upd by done; [by apply Hc|apply Hl].
Qed.

Lemma table_rep_next J T m n : table_rep J T m → table_rep J (T <| next_id := n |>) m.
Proof. intros [Hc Hp Hch Hid Hu Hl]. by split. Qed.

Lemma table_upd_idle P s J T n y :
  same_but_ht (st_jobs s) J → idle_at P s y → idle_at P (table_upd s J T n) y.
Proof.
  intros HJ Hi A HA Hy. destruct (same_but_lookup_inv _ _ _ _ _ HJ HA) as (B & HB & He).
  assert (j_r A = j_r B) as Hr by exact (f_equal j_r He). unfold idle. rewrite Hr. by apply Hi.
Qed.

Lemma table_upd_log s J T n :
  same_but_ht (st_jobs s) J → log_off s → log_off (table_upd s J T n).
Proof.
  intros HJ. apply log_off_jobs; [done|]. intros j A HA. right.
  destruct (same_but_lookup_inv _ _ _ _ _ HJ HA) as (B & HB & He). exists j, B.
  split; [done|exact (f_equal j_file He)].
Qed.

Lemma table_upd_owns Y P s J T n :
  same_but_ht (st_jobs s) J → owns Y P (st_jobs s) (st_conns s) →
  owns Y P (st_jobs (table_upd s J T n)) (st_conns (table_upd s J T n)).
Proof. intros HJ. apply owns_same; [by eapply (same_but_mono erase_ht)|done]. Qed.

(** [j] is gone, and the others are as they were but for the chains of the table. *)
Definition lost j s s' : Prop := same_but o_job (delete j (st_jobs s)) (st_jobs s').
Lemma lost_removed s s1 s2 j Jb :
  st_jobs s1 = <[j := Jb]> (st_jobs s) → same_but o_job (st_jobs s1) (st_jobs s2) → lost j s (removed s2 j).
Proof.
  intros HJ Hs. unfold lost, removed. rsimpl. unfold same_but in *. rewrite HJ in Hs.
  rewrite !fmap_delete, Hs, <- fmap_delete, delete_insert_eq. by rewrite fmap_delete.
Qed.
Lemma lost_other j s s' y B : lost j s s' → y ≠ j → st_jobs s !! y = Some B →
  ∃ B', st_jobs s' !! y = Some B' ∧ o_job B' = o_job B.
Proof. intros Hl Hy HB. eapply same_but_lookup; [exact Hl|]. by rewrite lookup_delete_ne. Qed.

(** [job_free] deletes a job from the table and frees it; its tube is freed
    with its last job. *)
Lemma wp_job_free x X ids P s j id Jb (Q : unit → St → Prop) :
  srv_inv x X ids P s → P !! j = None → ids !! id = Some j → st_jobs s !! j = Some Jb →
  r_state (j_r Jb) ≠ Copy → unowned (lc_conns x) (st_conns s) j →
  (∀ s', srv_inv x X (delete id ids) P s' → st_jobs s' !! j = None → life_step s s' → lost j s s' → Q tt s') →
  wp (job_free (Some j)) Q s.
Proof.
  intros HI Hj Hid HJ Hst Huo HQ. unfold job_free. apply wp_bind.
  eapply wp_job_assign_none; [done..|]. intros s1 HI1 HJ1 Hs1.
  assert (st_jobs s1 !! j = Some (Jb <| j_tube := None |>)) as HJ1j
    by (rewrite HJ1; apply lookup_insert_eq).
  wsteps. rewrite decide_False by done. wsteps.
  rewrite <- (lf_conns _ _ Hs1) in Huo. destruct HI1 as [HQ1 HT1 HR1 Hn1 Hi1 Hk1 Hlog1 Hown1].
  eapply wp_job_hash_free; [done|done|done|]. intros J T n HT HJs Hnx. wsteps.
  destruct (same_but_ht_lookup _ _ _ _ HJs HJ1j) as [p HJp].
  wsteps. set (s2 := table_upd s1 J T n).
  assert (∀ i, ids !! i = Some j → i = id) as Huniq.
  { intros i Hi. destruct (tr_id _ _ _ HT1 _ _ Hi) as (_ & J1 & HJi & <-).
    destruct (tr_id _ _ _ HT1 _ _ Hid) as (_ & J2 & HJ2 & <-). congruence. }
  apply (HQ (removed s2 j)).
  - eapply (srv_inv_removed x X ids); [by apply table_upd_queue|done|exact HJp|done| |done| | | | |done| | |exact Huo].
    + intros i y Hne. rewrite lookup_delete_Some. split; [|tauto]. intros Hy. split; congruence.
    + by apply table_upd_refs.
    + change (next_id (st_table s2)) with (next_id T). rewrite Hnx. split; [apply Hn1|].
      intros i y [_ Hy]%lookup_delete_Some. by eapply Hn1.
    + intros i [Hne Hi]%lookup_delete_Some. by apply Hne, symmetry, Huniq.
    + intros y _. by apply table_upd_idle.
    + by eapply table_upd_log.
    + by apply table_upd_owns.
  - unfold removed. rsimpl. apply lookup_delete_eq.
  - etrans; [exact Hs1|]. by split.
  - eapply lost_removed; [exact HJ1|]. by eapply (same_but_mono erase_ht).
Qed.

(** A copy has no id of its own. *)
Lemma copy_no_id x X ids P s j Jb id :
  srv_inv x X ids P s → st_jobs s !! j = Some Jb → r_state (j_r Jb) = Copy → ids !! id ≠ Some j.
Proof.
  intros HI HJ Hst Hid. destruct (tr_id _ _ _ (sv_table _ _ _ _ _ HI) _ _ Hid) as (_ & Jb' & HJ' & <-).
  assert (Jb' = Jb) as -> by congruence.
  by apply (qr_ids _ _ _ _ (qi_rep _ _ _ _ (sv_queue _ _ _ _ _ HI)) j Jb HJ) in Hid.
Qed.

Lemma wp_job_free_copy x X ids P s j Jb (Q : unit → St → Prop) :
  srv_inv x X ids P s → P !! j = None → st_jobs s !! j = Some Jb → r_state (j_r Jb) = Copy →
  unowned (lc_conns x) (st_conns s) j →
  (∀ s', srv_inv x X ids P s' → st_jobs s' !! j = None → life_step s s' → lost j s s' → Q tt s') →
  wp (job_free (Some j)) Q s.
Proof.
  intros HI Hj HJ Hst Huo HQ. pose proof (λ id, copy_no_id _ _ _ _ _ _ _ id HI HJ Hst) as Hid. unfold job_free. apply wp_bind.
  eapply wp_job_assign_none; [done..|]. intros s1 HI1 HJ1 Hs1.
  assert (st_jobs s1 !! j = Some (Jb <| j_tube := None |>)) as HJ1j
    by (rewrite HJ1; apply lookup_insert_eq).
  wsteps. rewrite decide_True by done. wsteps.
  rewrite <- (lf_conns _ _ Hs1) in Huo. destruct HI1 as [HQ1 HT1 HR1 Hn1 Hi1 Hk1 Hlog1 Hown1].
  apply (HQ (removed s1 j)).
  - by eapply (srv_inv_removed x X ids).
  - unfold removed. rsimpl. apply lookup_delete_eq.
  - etrans; [exact Hs1|]. by split.
  - by eapply lost_removed.
Qed.

(** ** Allocating *)

(** The state with a new object [j], in no list. *)
Definition added s j (Jb : Job) : St :=
  s <| st_jobs ::= <[j := Jb]> |> <| st_links ::= <[NJob j := (NJob j, NJob j)]> |>.

Lemma fresh_place P ids X s j : queue_rep P ids X s → st_jobs s !! j = None → P !! j = None.
Proof.
  intros HR HJ. destruct (P !! j) as [p|] eqn:Hp; [|done].
  destruct (qr_place _ _ _ _ HR j p Hp) as (? & _ & _ & ? & _). congruence.
Qed.

Lemma queue_rep_added P ids ids' X s j Jb :
  queue_rep P ids X s → st_jobs s !! j = None → (∀ id y, y ≠ j → ids !! id = Some y ↔ ids' !! id = Some y) →
  (r_state (j_r Jb) ≠ Copy ↔ ids' !! r_id (j_r Jb) = Some j) → j_tube Jb = None →
  queue_rep P ids' X (added s j Jb).
Proof.
  intros HR HJ Hsub Hid Ht. pose proof (fresh_place _ _ _ _ _ HR HJ) as Hj.
  destruct HR as [Hpl Hids Hre Hde Hbu Hrs Hfr Htu Hco Hso Hli].
  assert (∀ y q, P !! y = Some q → <[j := Jb]> (st_jobs s) !! y = st_jobs s !! y) as Hy.
  { intros y q Hq. apply lookup_insert_ne. congruence. }
  assert (∀ n, n ≠ NJob j → st_links (added s j Jb) !! n = st_links s !! n) as HL.
  { intros n Hn. unfold added. rsimpl. by rewrite lookup_insert_ne. }
  unfold added in *. split; rsimpl; try done.
  - intros y p Hp. rewrite (Hy y p Hp). by apply Hpl.
  - intros y A HA. destruct (decide (y = j)) as [->|].
    + rewrite lookup_insert_eq in HA. apply (inj Some) in HA as <-. by apply Hid.
    + rewrite lookup_insert_ne in HA by done. rewrite (Hids _ _ HA). by apply Hsub.
  - intros t T HT. eapply heap_rep_other; [|by apply Hre]. intros y. apply Hy.
  - intros t T HT. eapply heap_rep_other; [|by apply Hde]. intros y. apply Hy.
  - intros t T HT. eapply list_rep_ext; [|by eapply Hbu].
    intros n [->|(y & -> & Hp)]; apply HL; congruence.
  - intros c C HC. eapply list_rep_ext; [|by eapply Hrs].
    intros n [->|(y & -> & Hp)]; apply HL; congruence.
  - intros y A HA Hn. destruct (decide (y = j)) as [->|].
    + unfold isolated. rsimpl. apply lookup_insert_eq.
    + unfold isolated. rewrite HL by congruence. rewrite lookup_insert_ne in HA by done. by eapply Hfr.
  - intros c C y HX HC Hyc. eapply soonest_of_frame; [done| |by eapply Hso].
    intros z A' Hz. rewrite (Hy z _ Hz). eauto.
  - intros y A t HA HAt. destruct (decide (y = j)) as [->|].
    + rewrite lookup_insert_eq in HA. apply (inj Some) in HA as <-. congruence.
    + rewrite lookup_insert_ne in HA by done. by eapply Hli.
Qed.

Lemma queue_inv_added P ids ids' X s j Jb :
  queue_inv X ids P s → st_jobs s !! j = None → (∀ id y, y ≠ j → ids !! id = Some y ↔ ids' !! id = Some y) →
  (r_state (j_r Jb) ≠ Copy ↔ ids' !! r_id (j_r Jb) = Some j) → j_tube Jb = None →
  queue_inv X ids' P (added s j Jb).
Proof.
  intros [HR HW Hca] HJ Hsub Hid Ht. split; [by eapply queue_rep_added| |done].
  eapply wait_rep_sim; [|exact HW]. by split.
Qed.

Lemma refs_added s j Jb t :
  st_jobs s !! j = None → j_tube Jb = None → refs (added s j Jb) t = refs s t.
Proof.
  intros HJ Ht. unfold refs, added. rsimpl. rewrite (count_insert _ _ _ _ HJ), Ht.
  by rewrite (bool_decide_eq_false_2 (None = Some t)).
Qed.

Lemma refs_inv_added x s j Jb :
  refs_inv x s → st_jobs s !! j = None → j_tube Jb = None → refs_inv x (added s j Jb).
Proof.
  intros [Hc Hl Hu Hx] HJ Ht.
  split; [intros t T HTt|intros t|done|done]; rewrite (refs_added _ _ _ _ HJ Ht); [by apply Hc|apply Hl].
Qed.

Lemma idle_at_added P s j Jb :
  idle Jb → (∀ y, idle_at P s y) → ∀ y, idle_at P (added s j Jb) y.
Proof.
  intros HJ Hi y A. unfold added. rsimpl. destruct (decide (y = j)) as [->|].
  - rewrite lookup_insert_eq. intros HA. by apply (inj Some) in HA as <-.
  - rewrite lookup_insert_ne by done. apply Hi.
Qed.

Lemma fresh_unowned x X ids P s j :
  srv_inv x X ids P s → st_jobs s !! j = None → unowned (lc_conns x) (st_conns s) j.
Proof.
  intros HI HJ. eapply owns_fresh; [done| |apply HI]. intros c.
  by erewrite fresh_place by (done || apply HI).
Qed.

(** A job that is not in the table is not of the ids. *)
Lemma fresh_id x X ids P s j id :
  srv_inv x X ids P s → st_jobs s !! j = None → ids !! id ≠ Some j.
Proof.
  intros HI HJ Hid. destruct (tr_id _ _ _ (sv_table _ _ _ _ _ HI) _ _ Hid) as (_ & ? & ? & _).
  congruence.
Qed.

Lemma log_off_added s j Jb : j_file Jb = None → log_off s → log_off (added s j Jb).
Proof. intros. by eapply (log_off_insert s). Qed.

Lemma srv_inv_added_copy x X ids P s j Jb :
  srv_inv x X ids P s → st_jobs s !! j = None → r_state (j_r Jb) = Copy → j_tube Jb = None →
  j_file Jb = None → srv_inv x X ids P (added s j Jb).
Proof.
  intros HI HJ Hst Ht Hfl. pose proof HI as [HQ HT HR Hn Hi Hk Hlog Hown].
  split; [..|done|by apply log_off_added|].
  - eapply queue_inv_added; [done..| |done]. split; [done|]. intros Hid. by destruct (fresh_id _ _ _ _ _ _ _ HI HJ Hid).
  - eapply table_same; [|exact HT]. intros y. unfold added. rsimpl.
    destruct (decide (y = j)) as [->|]; [right|left; by rewrite lookup_insert_ne].
    intros id. by eapply fresh_id.
  - by apply refs_inv_added.
  - done.
  - apply idle_at_added; [by right|done].
  - exact (owns_insert_job _ _ s j _ (fresh_unowned _ _ _ _ _ _ HI HJ) Hown).
Qed.

(** ** A reference from a job to its tube *)

Lemma srv_inv_ireffed x X ids P s t T (n := wrap_u32 (t_refs T + 1)) :
  srv_inv x X ids P s → t ∈ ms_items (tubes s) → st_tubes s !! t = Some T →
  refs s t + x t < UINT32_MAX →
  srv_inv (bump t x) X ids P (s <| st_tubes ::= <[t := T <| t_refs := n |>]> |>).
Proof.
  intros HI Hin HT Hmax.
  pose proof (rf_count _ _ (sv_refs _ _ _ _ _ HI) t T HT) as Hc.
  pose proof (rf_extra _ _ (sv_refs _ _ _ _ _ HI)) as Hx.
  pose proof (refs_nonneg s t). pose proof (Hx t).
  eapply srv_inv_count; [done|done|done| | |done|].
  - rewrite bump_eq. subst n. rewrite Hc. unfold wrap_u32, UINT32_MAX in *. rewrite Z.mod_small; lia.
  - intros t' Hne. by rewrite bump_ne.
  - intros t'. cbn [bump lc_refs]. specialize (Hx t'). destruct (bool_decide _); simpl; lia.
Qed.

Lemma srv_inv_tube x X ids P s t :
  srv_inv x X ids P s → t ∈ ms_items (tubes s) → is_Some (st_tubes s !! t).
Proof. intros HI. apply (qr_tubes _ _ _ _ (qi_rep _ _ _ _ (sv_queue _ _ _ _ _ HI))). Qed.

Lemma wp_tube_iref x X ids P s t (Q : unit → St → Prop) :
  srv_inv x X ids P s → t ∈ ms_items (tubes s) → refs s t + x t < UINT32_MAX →
  (∀ T n, st_tubes s !! t = Some T → let s' := s <| st_tubes ::= <[t := T <| t_refs := n |>]> |> in
     srv_inv (bump t x) X ids P s' → Q tt s') →
  wp (tube_iref (Some t)) Q s.
Proof.
  intros HI Hin Hmax HQ. unfold tube_iref.
  destruct (srv_inv_tube _ _ _ _ _ _ HI Hin) as [T HT]. wsteps.
  apply (HQ T); [done|]. by apply srv_inv_ireffed.
Qed.

Definition tubed s j (Jb : Job) t : St :=
  s <| st_jobs ::= <[j := Jb <| j_tube := Some t |>]> |>.

Lemma refs_tubed s j Jb t t' :
  st_jobs s !! j = Some Jb → j_tube Jb = None →
  refs (tubed s j Jb t) t' = refs s t' + Z.b2z (bool_decide (t' = t)).
Proof.
  intros HJ Ht. unfold refs, tubed. rsimpl. rewrite (count_update _ _ _ _ _ HJ), Ht. rsimpl.
  rewrite (bool_decide_eq_false_2 (None = Some t')) by done. simpl.
  rewrite (bool_decide_ext (Some t = Some t') (t' = t)); [lia|naive_solver].
Qed.

(** The reference held locally goes to the job. *)
Lemma srv_inv_tubed x X ids P s j Jb t :
  srv_inv (bump t x) X ids P s → (∀ t', 0 <= x t') → t ∈ ms_items (tubes s) → P !! j = None →
  st_jobs s !! j = Some Jb → j_tube Jb = None → unowned (lc_conns x) (st_conns s) j →
  srv_inv x X ids P (tubed s j Jb t).
Proof.
  intros [HQ HT [Hc Hl Hu _] Hn Hi Hk Hlog Hown] Hx Hin Hj HJ Ht Huo.
  assert (∀ t', refs (tubed s j Jb t) t' + x t' = refs s t' + bump t x t') as Hr.
  { intros t'. rewrite (refs_tubed s j Jb t t' HJ Ht). cbn [bump lc_refs]. lia. }
  split.
  - eapply (queue_inv_detached P ids X s j Jb); [done..| |done]. by intros ? [= <-].
  - eapply table_rep_h; [|exact HT]. by eapply same_but_insert.
  - split; [intros t' T HTt; rewrite Hr; by apply Hc|intros t'; rewrite Hr; apply Hl|done|done].
  - done.
  - intros y J. unfold tubed. rsimpl. destruct (decide (y = j)) as [->|].
    + rewrite lookup_insert_eq. intros HJ'. apply (inj Some) in HJ' as <-. by apply (Hi j Jb).
    + rewrite lookup_insert_ne by done. apply Hi.
  - done.
  - eapply (log_off_insert s); [done..| |done]. exact (lo_file _ Hlog j Jb HJ).
  - exact (owns_insert_job _ _ s j _ Huo Hown).
Qed.

Lemma wp_job_assign_some x X ids P s j Jb t (Q : unit → St → Prop) :
  srv_inv x X ids P s → P !! j = None → st_jobs s !! j = Some Jb → j_tube Jb = None →
  t ∈ ms_items (tubes s) → refs s t + x t < UINT32_MAX → unowned (lc_conns x) (st_conns s) j →
  (∀ s', srv_inv x X ids P s' → st_jobs s' = <[j := Jb <| j_tube := Some t |>]> (st_jobs s) →
     same_but x_tube' (st_tubes s) (st_tubes s') → life_step s s' → Q tt s') →
  wp (job_assign_tube j (Some t)) Q s.
Proof.
  intros HI Hj HJ Ht Hin Hmax Huo HQ. unfold job_assign_tube, TUBE_ASSIGN, tube_dref, tube_iref.
  destruct (srv_inv_tube _ _ _ _ _ _ HI Hin) as [T HT]. wsteps. rewrite Ht. wsteps.
  match goal with |- Q _ ?s' => apply (HQ s') end; [|done| |done].
  - pose proof (srv_inv_ireffed x X ids P s t T HI Hin HT Hmax) as HI1.
    exact (srv_inv_tubed _ _ _ _ _ j Jb t HI1 (rf_extra _ _ (sv_refs _ _ _ _ _ HI)) Hin Hj HJ Ht Huo).
  - rsimpl. by eapply same_but_insert.
Qed.

(** ** Copying *)

Definition copy_of (J : Job) : Job :=
  J <| j_cap := r_body_size (j_r J) |> <| j_file := None |>
    <| j_r ::= fun r => r <| r_state := Copy |> |>.

(** Two states with the same components. *)
Ltac st_eq := apply St_eq; rsimpl; rewrite ?insert_insert_eq; first [reflexivity|idtac].

Lemma srv_inv_tick x X ids P s : srv_inv x X ids P s → srv_inv x X ids P (s <| st_tick ::= S |>).
Proof. apply srv_inv_quiet. solve_quiet. Qed.

Lemma wp_job_copy x X ids P s j J (Q : option jobp → St → Prop) :
  srv_inv x X ids P s → st_jobs s !! j = Some J →
  (∀ t, j_tube J = Some t → refs s t + x t < UINT32_MAX) →
  Q None (s <| st_tick ::= S |>) →
  (∀ n s', st_jobs s !! n = None → srv_inv x X ids P s' →
     st_jobs s' = <[n := copy_of J]> (st_jobs s) → life_step s s' → Q (Some n) s') →
  wp (job_copy (Some j)) Q s.
Proof.
  intros HI HJ Hmax HN HS. unfold job_copy. wsteps. apply wp_malloc; [done|by wsteps|].
  intros n Hn. assert (n ≠ j) as Hne by congruence. unfold job_list_reset, put_link. wsteps.
  set (s1 := s <| st_tick ::= S |>).
  pose proof (srv_inv_tick _ _ _ _ _ HI) as HI1. fold s1 in HI1.
  set (J0 := copy_of J <| j_tube := None |>).
  assert (srv_inv x X ids P (added s1 n J0)) as HI2 by (by apply srv_inv_added_copy).
  unfold job_assign_tube, TUBE_ASSIGN, tube_dref. wsteps. rsimpl. cbv iota.
  destruct (j_tube J) as [t|] eqn:Ht; unfold tube_iref.
  - assert (t ∈ ms_items (tubes s)) as Hin.
    { eapply (qr_listed _ _ _ _ (qi_rep _ _ _ _ (sv_queue _ _ _ _ _ HI))); done. }
    assert (refs (added s1 n J0) t + x t < UINT32_MAX) as Hmax2.
    { rewrite refs_added by done. by apply Hmax. }
    destruct (srv_inv_tube _ _ _ _ _ _ HI2 Hin) as [T HT].
    pose proof (srv_inv_ireffed x X ids P _ t T HI2 Hin HT Hmax2) as HI3.
    change (st_tubes s !! t = Some T) in HT. wsteps. match goal with |- Q _ ?s' => apply (HS n s') end; [done| |..].
    + refine (eq_ind _ _ (srv_inv_tubed _ _ _ _ _ n J0 t HI3 (rf_extra _ _ (sv_refs _ _ _ _ _ HI)) Hin _ _ _ _) _ _).
      * by eapply fresh_place; [apply HI|].
      * unfold added. rsimpl. apply lookup_insert_eq.
      * done.
      * by eapply (fresh_unowned x X ids P s).
      * unfold tubed, added, s1, J0, copy_of. by st_eq.
    + rsimpl. rewrite !insert_insert_eq. f_equal. unfold copy_of. destruct J; simpl in *. by subst.
    + by split.
  - wsteps. match goal with |- Q _ ?s' => apply (HS n s') end; [done| |..].
    + refine (eq_ind _ _ HI2 _ _). unfold added, s1, J0, copy_of. by st_eq.
    + rsimpl. rewrite !insert_insert_eq. f_equal. unfold copy_of. destruct J; simpl in *. by subst.
    + by split.
Qed.

(** ** Making *)

(** There is room for one more job: ids and counters do not wrap. *)
Record room (ids : gmap Z jobp) (s : St) : Prop := {
  rm_id : next_id (st_table s) < UINT64_MAX;
  rm_table : Z.of_nat (size ids) < table_max;
  rm_refs t : refs s t + 1 < UINT32_MAX;
}.

Definition new_job (now pri delay ttr body_size id : Z) : Job :=
  mkJob (mkJobrec id pri delay ttr body_size now 0 0 0 0 0 0 Invalid) None None 0 None None 0 0
    [] body_size.

Lemma wp_make_job X ids P s pri delay ttr body_size t (Q : option jobp → St → Prop)
    (id := next_id (st_table s)) :
  srv_inv none X ids P s → room ids s → t ∈ ms_items (tubes s) →
  Q None (s <| st_tick ::= S |>) →
  (∀ j now p s', srv_inv none X (<[id := j]> ids) P s' → ids !! id = None → P !! j = None →
     st_jobs s' !! j =
       Some ((new_job now pri delay ttr body_size id) <| j_ht_next := p |> <| j_tube := Some t |>) →
     unowned ∅ (st_conns s) j → life_step s s' → Q (Some j) s') →
  wp (make_job pri delay ttr body_size (Some t)) Q s.
Proof.
  intros HI Hroom Hin HN HS. unfold make_job, make_job_with_id, allocate_job. wsteps.
  apply wp_malloc; [done|by wsteps|]. intros j Hj. unfold job_list_reset, put_link. wsteps.
  rsimpl. cbn [Z.eqb negb]. wsteps.
  match goal with |- wp (store_job j) _ ?s0 => set (s1 := s0) end.
  set (J1 := new_job t0 pri delay ttr body_size id).
  set (s0 := s <| st_tick := S (S (st_tick s)) |> <| st_table ::= fun T => T <| next_id := id + 1 |> |>).
  assert (id < UINT64_MAX) as Hmax by apply Hroom.
  destruct (sv_next _ _ _ _ _ HI) as [Hpos Hnext]. fold id in Hpos, Hnext.
  assert (s1 = added s0 j J1) as Heq.
  { unfold s1, added, s0, J1, new_job, job_zero. st_eq. fold id.
    replace (wrap_u64 (id + 1)) with (id + 1); [done|].
    unfold wrap_u64, UINT64_MAX in *. by rewrite Z.mod_small by lia. }
  rewrite Heq. clear s1 Heq.
  assert (ids !! id = None) as Hfree.
  { destruct (ids !! id) eqn:Hid; [|done]. pose proof (Hnext _ _ Hid). lia. }
  assert (∀ id', ids !! id' ≠ Some j) as Hnj by (intros id'; by eapply fresh_id).
  assert (unowned ∅ (st_conns s) j) as Huo by exact (fresh_unowned _ _ _ _ _ _ HI Hj).
  assert (queue_inv X (<[id := j]> ids) P (added s0 j J1)) as HQ1.
  { eapply (queue_inv_added P ids); [|done| |rewrite lookup_insert_eq; by split|done].
    2: { intros i y Hy. rewrite lookup_insert_Some. split; [|intros [[_ ?]|[_ ?]]; [congruence|done]].
         intros Hi. right. split; [|done]. intros <-. congruence. }
    destruct (sv_queue _ _ _ _ _ HI) as [HR HW Hca].
    split; [eapply queue_rep_sim; [|exact HR]; by split|eapply wait_rep_sim; [|exact HW]; by split|done]. }
  assert (table_rep (st_jobs (added s0 j J1)) (st_table (added s0 j J1)) ids) as HT1.
  { apply table_rep_next. eapply table_same; [|apply HI]. intros y. unfold added. rsimpl.
    destruct (decide (y = j)) as [->|]; [by right|left; by rewrite lookup_insert_ne]. }
  eapply (wp_store_job _ _ _ J1); [exact HT1| |simpl; lia|done|done|apply Hroom|].
  { unfold added. rsimpl. apply lookup_insert_eq. }
  intros J T n HT HJs Hnx. change (next_id (st_table (added s0 j J1))) with (id + 1) in Hnx.
  change (r_id (j_r J1)) with id in HT.
  assert (st_jobs (added s0 j J1) !! j = Some J1) as HJ1 by (unfold added; rsimpl; apply lookup_insert_eq).
  destruct (same_but_ht_lookup _ _ _ _ HJs HJ1) as [p HJp].
  set (s2 := table_upd (added s0 j J1) J T n).
  assert (srv_inv none X (<[id := j]> ids) P s2) as HI2.
  { split.
    - by apply table_upd_queue.
    - exact HT.
    - apply table_upd_refs, refs_inv_added; [done| |done|done].
      destruct (sv_refs _ _ _ _ _ HI) as [Hc Hl Hu Hx]. by split.
    - change (next_id (st_table s2)) with (next_id T). rewrite Hnx. split; [lia|].
      intros i y [[<- _]|[_ Hy%Hnext]]%lookup_insert_Some; lia.
    - intros y. apply table_upd_idle; [done|]. apply idle_at_added; [by left|]. apply HI.
    - apply HI.
    - eapply table_upd_log; [done|]. apply log_off_added; [done|].
      eapply (log_off_same s); [done..|apply HI].
    - apply table_upd_owns; [done|]. apply (owns_insert_job _ _ s0); [done|apply HI]. }
  assert (refs s2 t = refs s t) as Hr.
  { unfold s2. rewrite refs_table_upd by done. rewrite refs_added by done. done. }
  assert (P !! j = None) as HPj by (eapply fresh_place; [apply HI|done]).
  apply wp_bind. eapply wp_job_assign_some; [exact HI2|done|exact HJp|done|done| |exact Huo|].
  { rewrite Hr. pose proof (rm_refs _ _ Hroom t). cbn [none lc_refs]. lia. }
  intros s3 HI3 HJ3 _ Hs3. wsteps. eapply (HS j t0 p); [done..| |done|].
  - rewrite HJ3. apply lookup_insert_eq.
  - etrans; [|exact Hs3]. by split.
Qed.
End life.
