(* ===== verification/Sound.v ===== *)
(** The steps that commands are made of, on the invariant of the server: updates
    that it does not see, replies, the memory of the soonest job. *)
From S2P Require Import Prelude Heap Ms State Monad JobList JobHash Tube Job Wal Conn Queue QueueRep QueueOps QueueConn QueueProc Process Runs Owners QueueCmds QueueLoops Refs Life.
#[local] Open Scope Z_scope.

(** ** Updates that the invariant does not see *)

Record own_sim (s s' : St) : Prop := {
  os_jobs : same_but o_job (st_jobs s) (st_jobs s');
  os_conns : same_but o_conn (st_conns s) (st_conns s');
}.
#[export] Instance own_sim_pre : PreOrder own_sim.
Proof. split; [by split|]. intros s1 s2 s3 [] []. split; by etrans. Qed.

Record srv_sim (s s' : St) : Prop := {
  sm_queue : queue_sim s s';
  sm_wait : wait_sim s s';
  sm_frame : sframe s s';
  sm_owns : own_sim s s';
}.
#[export] Instance srv_sim_pre : PreOrder srv_sim.
Proof. split; [by split|]. intros s1 s2 s3 [] []. split; by etrans. Qed.

Ltac solve_sim := split; split; rsimpl; first [done|solve_same_but].

(** The connection exists, does not wait, and neither receives nor sends a job;
    it may have no soonest job. *)
Definition at_rest (C : Conn) : Prop :=
  conn_waiting C = false ∧ c_in_job C = None ∧ c_out_job C = None ∧ emptied C.
Definition calm (c : connp) (s : St) : Prop :=
  ∃ C, st_conns s !! c = Some C ∧ at_rest C.
Definition silent (c : connp) (s : St) : Prop :=
  ∃ C, st_conns s !! c = Some C ∧ at_rest C ∧ c_soonest_job C = None.

Lemma silent_calm c s : silent c s → calm c s.
Proof. intros (C & ? & ? & _). by exists C. Qed.
Lemma calm_live c s : calm c s → is_Some (st_conns s !! c).
Proof. intros (C & ? & _). eauto. Qed.

Section sound.
Context {E : Env}.
Implicit Types (P : places) (ids : gmap Z jobp) (X : gset connp) (s : St) (x : local).
Implicit Types (j : jobp) (t : tubep) (c : connp) (C : Conn).

Lemma known_sim P s s' c : queue_sim s s' → known P s c → known P s' c.
Proof.
  intros HS Hk C' HC' Hs. destruct (same_but_lookup_inv _ _ _ _ _ (qs_conns _ _ HS) HC') as (C & HC & He).
  apply (Hk C HC). rewrite <- Hs. exact (eq_sym (f_equal c_soonest_job He)).
Qed.

Lemma cached_sim X P s s' : queue_sim s s' → wait_sim s s' → cached X P s → cached X P s'.
Proof.
  intros HS HW Hca c C' HC' Hw.
  destruct (same_but_lookup_inv _ _ _ _ _ (ws_conns _ _ HW) HC') as (C & HC & [Hwt _]%w_conn_inv).
  destruct (same_but_lookup_inv _ _ _ _ _ (qs_conns _ _ HS) HC') as (C0 & HC0 & He).
  assert (C0 = C) as -> by congruence. rewrite Hwt in Hw. destruct (Hca c C HC Hw) as [? Hn].
  split; [done|]. intros Hs. apply Hn. rewrite <- Hs. exact (eq_sym (f_equal c_soonest_job He)).
Qed.

Lemma queue_inv_sim X ids P s s' :
  queue_sim s s' → wait_sim s s' → queue_inv X ids P s → queue_inv X ids P s'.
Proof.
  intros HS HW [HR HWt Hca].
  split; [by eapply queue_rep_sim|by eapply wait_rep_sim|by eapply cached_sim].
Qed.

Lemma idle_at_sim P s s' j : queue_sim s s' → idle_at P s j → idle_at P s' j.
Proof.
  intros HS Hi J' HJ' Hp. destruct (same_but_lookup_inv _ _ _ _ _ (qs_jobs _ _ HS) HJ') as (J & HJ & He).
  pose proof (q_job_inv _ _ He) as (_ & _ & _ & Hst & _). unfold idle. rewrite Hst. by apply (Hi J).
Qed.

Lemma srv_inv_sim x X ids P s s' : srv_sim s s' → srv_inv x X ids P s → srv_inv x X ids P s'.
Proof.
  intros [HS HW HF HO] HI. eapply srv_inv_step; [done| |done|..].
  - eapply queue_inv_sim; [done..|apply HI].
  - intros j. eapply idle_at_sim; [done|apply HI].
  - intros c Hc. eapply known_sim; [done|by eapply sv_known].
  - eapply owns_same; [apply HO|apply HO|apply HI].
Qed.

(** An update of [c] in fields that the invariant does not see. *)
Definition same_conn C C' : Prop :=
  q_conn C' = q_conn C ∧ w_conn C' = w_conn C ∧ x_conn C' = x_conn C ∧ o_conn C' = o_conn C.

Lemma conn_sim s c C C' :
  st_conns s !! c = Some C → same_conn C C' → srv_sim s (s <| st_conns ::= <[c := C']> |>).
Proof.
  intros HC (Hq & Hw & Hx & Ho).
  split; split; rsimpl; first [done|by eapply same_but_insert].
Qed.

Lemma sim_calm c s s' : wait_sim s s' → own_sim s s' → calm c s → calm c s'.
Proof.
  intros HW HO (C & HC & Hw & Hi & Ho & Hf).
  destruct (same_but_lookup _ _ _ _ _ (ws_conns _ _ HW) HC) as (C' & HC' & [Hwt _]%w_conn_inv).
  destruct (same_but_lookup _ _ _ _ _ (os_conns _ _ HO) HC) as (C1 & HC1 & He).
  pose proof (emptied_o _ _ He) as Hf'. apply o_conn_inv in He as (_ & _ & Hi' & _ & Ho' & _).
  assert (C1 = C') as -> by congruence. exists C'. split; [done|].
  unfold at_rest. rewrite Hwt, Hi', Ho'. by auto.
Qed.

Lemma stays_calm X D P s P' s' c : stays X D P s P' s' → calm c s → calm c s'.
Proof.
  intros HS (C & HC & Hw & Hi & Ho & Hf). destruct (st_conn _ _ _ _ _ _ HS c C HC) as (C' & HC' & Hz).
  destruct (st_talks _ _ _ _ _ _ HS c C HC) as (C1 & HC1 & [Ht|[? _]]); [|congruence].
  assert (C1 = C') as -> by congruence. exists C'. split; [done|]. injection Ht as _ Ho' Hw'.
  unfold at_rest. rewrite Ho', Hw'. split_and!; [done| |done|by eapply emptied_z].
  rewrite <- Hi. exact (f_equal c_in_job Hz).
Qed.
Lemma stays_silent X D P s P' s' c : stays X D P s P' s' → silent c s → silent c s'.
Proof.
  intros HS Hc. destruct (stays_calm _ _ _ _ _ _ _ HS (silent_calm _ _ Hc)) as (C' & HC' & Hw').
  destruct Hc as (C & HC & [Hw _] & Hs).
  destruct (tl_calm _ _ _ _ _ (st_tells _ _ _ _ _ _ HS) c C HC Hw Hs) as (C1 & HC1 & Hs1).
  exists C'. assert (C1 = C') as -> by congruence. done.
Qed.

(** ** Replies *)

(** The soonest job of [c] may be forgotten: the reply looks for it again. *)
Definition may_reply X c s : Prop := X = ∅ ∨ X = {[c]} ∧ silent c s.

(** The same of a connection that says nothing. *)
Definition unspoken X c s : Prop := X = ∅ ∨ X = {[c]} ∧ ∃ C, st_conns s !! c = Some C ∧ c_soonest_job C = None.
Lemma may_reply_unspoken X c s : may_reply X c s → unspoken X c s.
Proof. intros [->|[-> (C & HC & _ & Hs)]]; [by left|right; eauto]. Qed.

Lemma unspoken_rep X P ids s c :
  unspoken X c s → queue_rep P ids X s → queue_rep P ids ∅ s.
Proof.
  intros [->|[-> (C & HC & Hs)]]; [done|].
  intros [Hpl Hid Hre Hde Hbu Hrs Hfr Htu Hco Hso Hli]. split; try done.
  intros c' C' j _ HC'. destruct (decide (c' = c)) as [->|Hne]; [congruence|].
  eapply Hso; [set_solver|done].
Qed.
Lemma may_reply_rep X P ids s c :
  may_reply X c s → queue_rep P ids X s → queue_rep P ids ∅ s.
Proof. intros HX. by apply (unspoken_rep X P ids s c), may_reply_unspoken. Qed.

(** The handler that held [x] holds [x'] after [c] was handled. *)
Record handled c (x x' : local) : Prop := {
  hd_refs t : x' t = x t;
  hd_conns : lc_conns x ⊆ {[c]} ∪ lc_conns x';
}.
Lemma handled_refl c x : handled c x x.
Proof. split; [done|set_solver]. Qed.
Lemma handled_acting c x : handled c (acting c x) x.
Proof. by split. Qed.

Lemma refs_inv_ext (x x' : tubep → Z) s : (∀ t, x' t = x t) → refs_inv x s → refs_inv x' s.
Proof. intros Hx [H1 H2 H3 H4]. split; [|intros t|done|intros t]; [intros t|..]; rewrite Hx; auto. Qed.

(** [c] said something: only its fields have changed, and they are right. *)
Lemma srv_inv_said x x' X ids P c s s' C' :
  srv_inv x X ids P s → may_reply X c s → queue_rep P ids ∅ s' → io_step c s s' →
  known P s' c → handled c x x' → st_conns s' !! c = Some C' →
  (conn_waiting C' = true → c_state C' = STATE_WAIT) → own_conn P (st_jobs s) c C' →
  (∀ j, c_in_job C' = Some j → unowned ({[c]} ∪ lc_conns x') (st_conns s) j) →
  (∀ j, c_out_job C' = Some j → unowned ({[c]} ∪ lc_conns x') (st_conns s) j) →
  srv_inv x' ∅ ids P s'.
Proof.
  intros HI HX HR Hio Hk [Hr Hlc] HC' Hw HO Hin Hout.
  assert (∀ c', known P s' c') as Hall.
  { intros c'. destruct (decide (c' = c)) as [->|Hne]; [done|].
    apply (known_tick P s); [by apply (io_other _ _ _ Hio)|]. eapply sv_known; [done|].
    destruct HX as [->|[-> _]]; set_solver. }
  assert (srv_inv (mkLocal x (lc_conns x')) X ids P s → srv_inv x' X ids P s) as Hx.
  { intros [? ? HRf ? ? ? ? ?]. split; try done. by eapply refs_inv_ext. }
  assert (owns (lc_conns x') P (st_jobs s') (st_conns s')) as Hown.
  { rewrite (io_jobs _ _ _ Hio). eapply (owns_set _ _ _ (st_conns s)); [|..|exact HC'|done|done|done|done].
    - eapply owns_mono; [exact Hlc|apply HI].
    - intros c' Hne. pose proof (io_other _ _ _ Hio c' Hne) as He.
      apply (f_equal (fmap o_conn)) in He. rewrite <- !option_fmap_compose in He. exact He. }
  pose proof (qframe_sframe _ _ (io_frame c _ _ Hio)) as HF.
  split; try apply HI.
  - split; [done|eapply wait_rep_sim; [by eapply io_wait|apply HI]|].
    intros c' C1 HC1 _. split; [set_solver|by apply Hall].
  - rewrite (sf_table _ _ HF), (io_jobs _ _ _ Hio). apply HI.
  - eapply refs_inv_ext; [exact Hr|]. eapply refs_inv_sframe; [exact HF|apply HI].
  - rewrite (sf_table _ _ HF). apply HI.
  - intros j. apply (idle_at_same P P s); [done|by rewrite (io_jobs _ _ _ Hio)|apply HI].
  - intros c' _. apply Hall.
  - eapply log_off_sframe; [done|apply HI].
  - done.
Qed.

(** [c] did nothing that [owns] sees. *)
Lemma srv_inv_sched x X ids P c s s' :
  srv_inv x X ids P s → unspoken X c s → queue_rep P ids ∅ s' → io_step c s s' →
  known P s' c → same_but o_conn (st_conns s) (st_conns s') → srv_inv x ∅ ids P s'.
Proof.
  intros HI HX HR Hio Hk Ho.
  assert (∀ c', known P s' c') as Hall.
  { intros c'. destruct (decide (c' = c)) as [->|Hne]; [done|].
    apply (known_tick P s); [by apply (io_other _ _ _ Hio)|]. eapply sv_known; [done|].
    destruct HX as [->|[-> _]]; set_solver. }
  eapply srv_inv_step; [done| |by apply qframe_sframe, (io_frame c)| |done|].
  - split; [done|eapply wait_rep_sim; [by eapply io_wait|apply HI]|].
    intros c' C' HC' _. split; [set_solver|by apply Hall].
  - intros j. apply (idle_at_same P P s); [done|by rewrite (io_jobs _ _ _ Hio)|apply HI].
  - rewrite (io_jobs _ _ _ Hio). eapply owns_same; [done|done|apply HI].
Qed.
Lemma srv_inv_io x X ids P c s s' :
  srv_inv x X ids P s → may_reply X c s → queue_rep P ids ∅ s' → io_step c s s' →
  known P s' c → same_but o_conn (st_conns s) (st_conns s') → srv_inv x ∅ ids P s'.
Proof. intros HI HX. eapply srv_inv_sched; [exact HI|by apply may_reply_unspoken]. Qed.

Lemma wp_epollq_add_srv x X ids P s c rw (Q : unit → St → Prop) :
  srv_inv x X ids P s → may_reply X c s → is_Some (st_conns s !! c) →
  (∀ s', srv_inv x ∅ ids P s' → io_step c s s' → same_but o_conn (st_conns s) (st_conns s') → Q tt s') →
  wp (epollq_add c rw) Q s.
Proof.
  intros HI HX [C HC] HQ. eapply wp_epollq_add; [eapply may_reply_rep; [done|apply HI]|done|done|].
  intros s' HR' Hio Hk (C' & HC' & He).
  assert (same_but o_conn (st_conns s) (st_conns s')) as Ho.
  { apply map_eq. intros c'. rewrite !lookup_fmap. destruct (decide (c' = c)) as [->|Hne].
    - rewrite HC, HC'. apply (f_equal o_conn) in He. exact (f_equal Some He).
    - pose proof (io_other _ _ _ Hio c' Hne) as Hc.
      apply (f_equal (fmap o_conn)) in Hc. rewrite <- !option_fmap_compose in Hc. exact Hc. }
  apply HQ; [by eapply srv_inv_io|done|done].
Qed.

(** The fields of [c] that only [owns] sees are set. *)
Lemma srv_inv_set x X ids P s c C C' :
  srv_inv x X ids P s → st_conns s !! c = Some C →
  q_conn C' = q_conn C → w_conn C' = w_conn C → x_conn C' = x_conn C →
  owns (lc_conns x) P (st_jobs s) (<[c := C']> (st_conns s)) →
  srv_inv x X ids P (s <| st_conns ::= <[c := C']> |>).
Proof.
  intros HI HC Hq Hw Hx Ho. set (s' := s <| st_conns ::= _ |>).
  assert (queue_sim s s' ∧ wait_sim s s') as [HS HW].
  { unfold s'. split; split; rsimpl; first [done|by eapply same_but_insert]. }
  eapply srv_inv_step; [done| | |..|exact Ho].
  - eapply queue_inv_sim; [done..|apply HI].
  - unfold s'; split; rsimpl; try done. by eapply same_but_insert.
  - intros j. eapply idle_at_sim; [done|apply HI].
  - intros c' Hc'. eapply known_sim; [done|by eapply sv_known].
Qed.

(** A connection at rest says something that is not a job. *)
Lemma rest_own P J c C st :
  at_rest C → c_state C = st → st ≠ STATE_WANT_DATA → st ≠ STATE_SEND_JOB → own_conn P J c C.
Proof. intros (_ & Hi & Ho & [??]) Hs H1 H2. split; rewrite ?Hi, ?Ho; congruence. Qed.

(** The jobs of [c] are taken in hand. *)
Lemma srv_inv_enter x X ids P s c : srv_inv x X ids P s → srv_inv (acting c x) X ids P s.
Proof. intros [HQ HT HR Hn Hi Hk Hl Ho]. split; try done. by apply owns_enter. Qed.

(** The fields of [c] are right again. *)
Lemma srv_inv_settle x X ids P s c C C' :
  srv_inv (acting c x) X ids P s → st_conns s !! c = Some C →
  q_conn C' = q_conn C → w_conn C' = w_conn C → x_conn C' = x_conn C →
  (conn_waiting C' = true → c_state C' = STATE_WAIT) → own_conn P (st_jobs s) c C' →
  (∀ j, c_in_job C' = Some j → unowned ({[c]} ∪ lc_conns x) (st_conns s) j) →
  (∀ j, c_out_job C' = Some j → unowned ({[c]} ∪ lc_conns x) (st_conns s) j) →
  srv_inv x X ids P (s <| st_conns ::= <[c := C']> |>).
Proof.
  intros HI HC Hq Hw Hx Hwt Ho Hin Hout. set (s' := s <| st_conns ::= _ |>).
  assert (owns (lc_conns x) P (st_jobs s') (st_conns s')) as Hown.
  { eapply (owns_set _ _ _ (st_conns s)); [apply HI| |unfold s'; rsimpl; apply lookup_insert_eq|done..].
    intros c' Hne. unfold s'. rsimpl. by rewrite lookup_insert_ne. }
  assert (srv_inv (acting c x) X ids P s') as HI'.
  { eapply srv_inv_set; [done..|]. eapply owns_mono; [|exact Hown]. set_solver. }
  destruct HI'. by split.
Qed.

(** A connection at rest enters another state of no job. *)
Lemma srv_inv_rest x X ids P s c C st :
  srv_inv x X ids P s → st_conns s !! c = Some C → at_rest C →
  st ≠ STATE_WANT_DATA → st ≠ STATE_SEND_JOB →
  srv_inv x X ids P (s <| st_conns ::= <[c := C <| c_state := st |>]> |>).
Proof.
  intros HI HC Hr H1 H2. eapply srv_inv_set; [done..|]. eapply owns_insert; [done| | |done|done|apply HI].
  - destruct Hr as [Hw _]. intros Hw'. change (conn_waiting C = true) in Hw'. congruence.
  - intros _. by apply (rest_own _ _ _ _ st).
Qed.

Section reply.
Context (x x' : local) (X : gset connp) (ids : gmap Z jobp) (P : places) (s : St) (c : connp).
Context (HI : srv_inv x X ids P s) (HX : may_reply X c s) (Hc : calm c s) (Hx : handled c x x').

Lemma reply_rep : queue_rep P ids ∅ s.
Proof. eapply may_reply_rep; [done|apply HI]. Qed.

(** The reply leaves the connection at rest, in a state of no job. *)
Lemma said_rest s' C1 :
  queue_rep P ids ∅ s' → io_step c s s' → known P s' c → now_is s' c C1 →
  at_rest C1 → c_state C1 ≠ STATE_WANT_DATA → c_state C1 ≠ STATE_SEND_JOB →
  srv_inv x' ∅ ids P s' ∧ calm c s'.
Proof.
  intros HR Hio Hk (C' & HC' & He) HC1 H1 H2.
  assert (c_type C' = c_type C1) as Hty by exact (f_equal c_type He).
  assert (c_in_job C' = c_in_job C1) as Hi by exact (f_equal c_in_job He).
  assert (c_out_job C' = c_out_job C1) as Ho by exact (f_equal c_out_job He).
  assert (c_state C' = c_state C1) as Hs by exact (f_equal c_state He).
  assert (at_rest C') as HC1'.
  { destruct HC1 as (? & ? & ? & Hf). split_and!; [|congruence..|].
    - unfold conn_waiting in *. by rewrite Hty.
    - apply (emptied_o C1); [exact (f_equal o_conn He)|done]. }
  split; [|by exists C']. eapply srv_inv_said; [done..| | | |].
  - destruct HC1' as (-> & _). done.
  - eapply rest_own; [done|done|congruence..].
  - destruct HC1' as (_ & -> & _). done.
  - destruct HC1' as (_ & _ & -> & _). done.
Qed.

Lemma wp_reply_srv line len (Q : unit → St → Prop) :
  (∀ s', srv_inv x' ∅ ids P s' → calm c s' → io_step c s s' → Q tt s') →
  wp (reply (Some c) line len STATE_SEND_WORD) Q s.
Proof.
  intros HQ. destruct Hc as (C & HC & Hr). eapply wp_reply_len; [apply reply_rep|done|done|].
  intros s' HR' Hio Hk Hn. edestruct said_rest; [done..|]. by apply HQ.
Qed.
Lemma wp_reply_msg m (Q : unit → St → Prop) :
  (∀ s', srv_inv x' ∅ ids P s' → calm c s' → io_step c s s' → Q tt s') → wp (reply_msg c m) Q s.
Proof. apply wp_reply_srv. Qed.
Lemma wp_reply_line_srv line (Q : unit → St → Prop) :
  (∀ s', srv_inv x' ∅ ids P s' → calm c s' → io_step c s s' → Q tt s') →
  wp (reply_line c STATE_SEND_WORD line) Q s.
Proof.
  intros HQ. destruct Hc as (C & HC & Hr). eapply wp_reply_line; [apply reply_rep|done|done|].
  intros s' HR' Hio Hk Hn. edestruct said_rest; [done..| | |by apply HQ];
    unfold line_reply; by case_match.
Qed.

(** A job that [c] holds, or a copy of its own, is sent. *)
Lemma said_job s' C1 j st :
  queue_rep P ids ∅ s' → io_step c s s' → known P s' c → now_is s' c C1 →
  conn_waiting C1 = false → c_in_job C1 = None → c_out_job C1 = Some j → emptied C1 →
  c_state C1 = st → replying st → leaving P (st_jobs s) c j → unowned ({[c]} ∪ lc_conns x') (st_conns s) j → srv_inv x' ∅ ids P s'.
Proof.
  intros HR Hio Hk (C' & HC' & He) Hw Hi Ho Hf Hs Hst HL Hu.
  assert (c_type C' = c_type C1) as Hty by exact (f_equal c_type He).
  assert (c_in_job C' = c_in_job C1) as Hi' by exact (f_equal c_in_job He).
  assert (c_out_job C' = c_out_job C1) as Ho' by exact (f_equal c_out_job He).
  assert (c_state C' = c_state C1) as Hs' by exact (f_equal c_state He).
  eapply srv_inv_said; [done..| | | |].
  - unfold conn_waiting in *. rewrite Hty. congruence.
  - split; rewrite ?Hi', ?Ho', ?Hs', ?Hi, ?Ho, ?Hs.
    + done.
    + intros y [= <-]. split; [by left|done].
    + by destruct Hst as [-> | ->].
    + eauto.
    + apply (emptied_o C1 C'); [exact (f_equal o_conn He)|done].
    + intros _ _ _. apply (emptied_o C1 C'); [exact (f_equal o_conn He)|done].
  - congruence.
  - intros y Hy. assert (y = j) as -> by congruence. done.
Qed.
Lemma wp_reply_job_srv j m (Q : unit → St → Prop) :
  is_Some (st_jobs s !! j) → leaving P (st_jobs s) c j → unowned ({[c]} ∪ lc_conns x') (st_conns s) j →
  (∀ s', srv_inv x' ∅ ids P s' → io_step c s s' → Q tt s') →
  wp (reply_job c j m) Q s.
Proof.
  intros [Jb HJ] HL Hu HQ. destruct Hc as (C & HC & Hw & Hi & Ho & Hf).
  eapply wp_reply_job; [apply reply_rep|done|done|done|].
  intros s' HR' Hio Hk Hn. apply HQ; [|done]. eapply said_job; [done..| |done|done].
  unfold line_reply, replying. simpl. case_match; auto.
Qed.
End reply.

(** ** Moving jobs *)

Lemma stays_mono X D D' P s P' s' : D ⊆ D' → stays X D P s P' s' → stays X D' P s P' s'.
Proof. intros HD [M S I W T K L N]. split; try done; intros j Hj; [apply M|apply S|apply I]; set_solver. Qed.

(** [s'] is reached from [s] by moving the jobs of [D], and serving. *)
Record moving X (D : gset jobp) ids P s P' s' : Prop := {
  mo_inv : queue_inv X ids P' s';
  mo_stays : stays X D P s P' s';
  mo_frame : sframe s s';
}.

Lemma moving_trans X D ids P s P1 s1 P2 s2 :
  moving X D ids P s P1 s1 → moving X D ids P1 s1 P2 s2 → unheld D s P1 →
  moving X D ids P s P2 s2.
Proof.
  intros [_ S1 F1] [I2 S2 F2] Hu. split; [done| |by etrans].
  rewrite <- (union_idemp_L D). by eapply stays_trans.
Qed.
Lemma moving_served X D ids P s P1 s1 P2 s2 :
  moving X D ids P s P1 s1 → moving X ∅ ids P1 s1 P2 s2 → moving X D ids P s P2 s2.
Proof.
  intros [_ S1 F1] [I2 S2 F2]. split; [done| |by etrans].
  rewrite <- (right_id_L ∅ (∪) D). eapply stays_trans; [done..|apply unheld_empty].
Qed.
Lemma moving_mono X D D' ids P s P' s' :
  D ⊆ D' → moving X D ids P s P' s' → moving X D' ids P s P' s'.
Proof. intros HD [I S F]. split; [done|by eapply stays_mono|done]. Qed.

Lemma moving_quiet X D ids P s s' : quiet s s' → queue_inv X ids P s → moving X D ids P s P s'.
Proof.
  intros Hq HI. apply (moving_mono _ ∅); [set_solver|].
  split; [by eapply queue_inv_quiet|by apply quiet_stays|by apply qframe_sframe, Hq].
Qed.

(** A step of one job that touches no connection. *)
Lemma moving_one X ids P P' s s' j :
  queue_inv X ids P' s' → job_step s s' → only j s s' → (∀ y, y ≠ j → P' !! y = P !! y) →
  (∀ c, P' !! j ≠ Some (InReserved c)) → moving X {[j]} ids P s P' s'.
Proof.
  intros HI Hs Ho HP Hj. split; [done| |by apply qframe_sframe, Hs].
  apply stays_one; [done|done|by apply waited_step|apply Hs| |apply talks_same, Hs].
  apply tells_step; [apply Hs|].
  intros x c Hx. destruct (decide (x = j)) as [->|]; [by destruct (Hj c)|by rewrite <- HP].
Qed.

Lemma moving_serve X D ids P s P' s' :
  queue_inv X ids P' s' → serve_all P s P' s' → moving X D ids P s P' s'.
Proof.
  intros HI Hs. apply (moving_mono _ ∅); [set_solver|].
  split; [done|by apply serve_all_stays|by eapply qframe_sframe, serve_all_frame].
Qed.

Lemma moving_log X D ids P s P' s' : moving X D ids P s P' s' → no_log s → no_log s'.
Proof. intros [_ _ HF]. unfold no_log. by rewrite (sf_wal _ _ HF). Qed.

Lemma moving_placed X ids P s P' s' j :
  moving X ∅ ids P s P' s' → is_Some (P !! j) → is_Some (P' !! j).
Proof.
  intros [_ S _] Hj. destruct (st_move _ _ _ _ _ _ S j (not_elem_of_empty _)) as [->|(? & ? & _ & -> & _)]; eauto.
Qed.

(** At the end, the jobs that moved have a place, or need none. *)
Lemma srv_inv_moving x X X' D ids P s P' s' :
  srv_inv x X ids P s → moving X' D ids P s P' s' → X ⊆ X' →
  (∀ j, j ∈ D → idle_at P' s' j ∧ unowned (lc_conns x) (st_conns s) j) → srv_inv x X' ids P' s'.
Proof.
  intros HI [HQ HS HF] HX HD. eapply srv_inv_step; [done|done|done|..].
  - intros j. destruct (decide (j ∈ D)) as [Hj|Hj]; [by apply HD|].
    apply (st_idle _ _ _ _ _ _ HS j Hj), HI.
  - intros c Hc. apply (tl_known _ _ _ _ _ (st_tells _ _ _ _ _ _ HS)); [done|].
    eapply sv_known; [done|set_solver].
  - eapply owns_stays; [done| |by intros j [_ ?]%HD|apply HI].
    by apply (same_but_dom x_conn), sf_conns.
Qed.
Lemma placed_idle P s j : is_Some (P !! j) → idle_at P s j.
Proof. intros [p Hp] J _. congruence. Qed.

(** The record of a loose job may be rewritten. *)
Lemma moving_rewrite X ids P s j t Jb Jb' (s' := s <| st_jobs ::= <[j := Jb']> |>) :
  queue_inv X ids P s → loose P s j t Jb → x_job Jb' = x_job Jb → r_state (j_r Jb') ≠ Copy →
  moving X {[j]} ids P s P s' ∧ loose P s' j t Jb'.
Proof.
  intros [HR HW Hca] [HP HJ Hst Ht Hlv] Hx Hst'.
  assert (r_id (j_r Jb') = r_id (j_r Jb)) as Hid by exact (f_equal (λ J, r_id (j_r J)) Hx).
  assert (j_tube Jb' = j_tube Jb) as Htb by exact (f_equal j_tube Hx).
  assert (st_jobs s' !! j = Some Jb') as HJ' by (unfold s'; rsimpl; apply lookup_insert_eq).
  split; [|split; [done|done|done|congruence|done]].
  split.
  - split; [|eapply wait_rep_sim; [|exact HW]; by split|done].
    eapply queue_rep_detached; [done|done|done| |done]. split; [done|]. intros t'. by rewrite Htb.
  - split.
    + by left.
    + intros x Hx' _ _. unfold s'. rsimpl. rewrite lookup_insert_ne by set_solver. done.
    + intros x Hx' Hi. apply (idle_at_same P P s); [done| |done].
      unfold s'. rsimpl. rewrite lookup_insert_ne by set_solver. done.
    + intros c C HC Hw. eauto.
    + intros x Xb HX. unfold s'. rsimpl. destruct (decide (x = j)) as [->|].
      * rewrite lookup_insert_eq. exists Jb'. split; [done|]. congruence.
      * rewrite lookup_insert_ne by done. eauto.
    + eauto.
    + by apply tells_step.
    + by apply talks_same.
  - split; try done. unfold s'. rsimpl. by eapply same_but_insert.
Qed.

(** A job is put in its tube, and then jobs are served. *)
Lemma moving_put X ids P s s1 P' s' j p (P1 := <[j := p]> P) :
  queue_inv X ids P s → queue_rep P1 ids X s1 → job_step s s1 → only j s s1 →
  (∀ c, p ≠ InReserved c) → serve_all P1 s1 P' s' → queue_inv X ids P' s' →
  moving X {[j]} ids P s P' s' ∧ is_Some (P' !! j).
Proof.
  intros HI HR1 Hs1 Ho1 Hp Hsv HI'.
  assert (∀ c, P1 !! j ≠ Some (InReserved c)) as Hj1.
  { intros c. unfold P1. rewrite lookup_insert_eq. intros [= ->]. by destruct (Hp c). }
  assert (queue_inv X ids P1 s1) as HI1.
  { eapply queue_inv_step; [exact HI|done|done|]. intros y c. destruct (decide (y = j)) as [->|].
    - by intros ?%Hj1.
    - unfold P1. by rewrite lookup_insert_ne. }
  assert (moving X ∅ ids P1 s1 P' s') as HM by (by apply moving_serve). split.
  - eapply (moving_trans X _ ids P s P1 s1); [|eapply moving_mono; [|exact HM]; set_solver|by apply unheld_one].
    apply moving_one; [done..| |done]. intros y Hy. unfold P1. by rewrite lookup_insert_ne.
  - eapply moving_placed; [done|]. unfold P1. rewrite lookup_insert_eq. eauto.
Qed.

(** [enqueue_job], [bury_job] and the kicks. *)
Lemma wp_enqueue_moving X ids P s j t Jb delay store (Q : bool → St → Prop) :
  queue_inv X ids P s → loose P s j t Jb → no_log s →
  (∀ s' Jb', moving X {[j]} ids P s P s' → loose P s' j t Jb' → Q false s') →
  (∀ P' s', moving X {[j]} ids P s P' s' → is_Some (P' !! j) → Q true s') →
  wp (enqueue_job j delay store) Q s.
Proof.
  intros HI HL Hnl HF HT. eapply wp_enqueue_job; [done|done|by right| |].
  - intros s' Jb' HI' HL' Hs Ho. eapply HF; [|done]. apply moving_one; [done..|].
    intros c. by rewrite (lo_place _ _ _ _ _ HL').
  - intros s1 P' s' HR1 Hs1 Ho1 Hsv HI'.
    destruct (moving_put X ids P s s1 P' s' j (queue_place t delay)) as [HM Hj];
      [done..|intros c; unfold queue_place; by case_match|done|done|]. by apply (HT P').
Qed.

Lemma moving_back X ids P s s' j p :
  queue_inv X ids P s' → job_step s s' → only j s s' → P !! j = Some p → (∀ c, p ≠ InReserved c) →
  moving X {[j]} ids P s P s'.
Proof.
  intros HI Hs Ho Hj Hp. apply moving_one; [done..|]. intros c. rewrite Hj. intros [= ->]. by destruct (Hp c).
Qed.

Lemma wp_kick_buried_moving X ids P s j t (Q : bool → St → Prop) :
  queue_inv X ids P s → P !! j = Some (InBuried t) → no_log s →
  (∀ b P' s', moving X {[j]} ids P s P' s' → is_Some (P' !! j) → b = true ∨ P' = P → Q b s') →
  wp (kick_buried_job j) Q s.
Proof.
  intros HI Hj Hnl HQ. eapply wp_kick_buried_job; [done..| |].
  - intros s' HI' Hs Ho. apply (HQ _ P); [by eapply moving_back|eauto|by right].
  - intros s1 P' s' HR1 Hs1 Ho1 Hsv HI'.
    destruct (moving_put X ids P s s1 P' s' j (InReady t)) as [HM Hj']; [done..|].
    apply (HQ _ P'); [done|done|by left].
Qed.

Lemma wp_kick_delayed_moving X ids P s j t (Q : bool → St → Prop) :
  queue_inv X ids P s → P !! j = Some (InDelay t) → no_log s →
  (∀ b P' s', moving X {[j]} ids P s P' s' → is_Some (P' !! j) → Q b s') →
  wp (kick_delayed_job j) Q s.
Proof.
  intros HI Hj Hnl HQ.
  destruct (qr_place _ _ _ _ (qi_rep _ _ _ _ HI) j _ Hj) as (Jb & _ & _ & HJ & _).
  eapply wp_kick_delayed_job; [done..| |].
  - intros s' HI' Hs Ho. eapply (HQ _ (<[j := InBuried t]> P)); [|rewrite lookup_insert_eq; eauto].
    apply moving_one; [done..| |].
    + intros y Hy. by rewrite lookup_insert_ne.
    + intros c. by rewrite lookup_insert_eq.
  - intros b p s1 P' s' Hp HR1 Hs1 Ho1 Hsv HI'.
    destruct (moving_put X ids P s s1 P' s' j p) as [HM Hj']; [done..| |done|done|by eapply HQ].
    intros c. destruct Hp as [[-> _]|[-> _]]; [done|]. unfold queue_place. by case_match.
Qed.

Lemma wp_bury_moving X ids P s j t Jb store (Q : bool → St → Prop) :
  queue_inv X ids P s → loose P s j t Jb → no_log s →
  (∀ P' s', moving X {[j]} ids P s P' s' → is_Some (P' !! j) → Q true s') →
  wp (bury_job j store) Q s.
Proof.
  intros HI HL Hnl HQ.
  assert (∀ s1 Jb1 (k : M bool), moving X {[j]} ids P s P s1 → loose P s1 j t Jb1 →
    (∀ P' s', moving X {[j]} ids P s P' s' → is_Some (P' !! j) → wp k Q s') →
    wp (bury_insert j;; k) Q s1) as Hb.
  { intros s1 Jb1 k HM1 HL1 Hk. apply wp_bind. eapply wp_bury_insert_inv; [apply HM1|done|].
    intros s' HI' Hs Ho. eapply Hk; [|rewrite lookup_insert_eq; eauto].
    eapply moving_trans; [exact HM1| |apply unheld_none, HL1]. apply moving_one; [done..| |].
    - intros y Hy. by rewrite lookup_insert_ne.
    - intros c. by rewrite lookup_insert_eq. }
  unfold bury_job. apply wp_bind. destruct store.
  - eapply wp_reserve_update_off; [done|apply HL|].
    destruct (moving_rewrite X ids P s j t Jb (Jb <| j_walresv ::= fun n => n + 1 |>))
      as [HM1 HL1]; [done|done|done|apply HL|].
    cbn [negb]. eapply Hb; [done|done|]. intros P' s' HM' Hj.
    pose proof (moving_log _ _ _ _ _ _ _ HM' Hnl) as Hnl'.
    apply wp_bind, wp_walwrite_off; [done|]. apply wp_bind, wp_walmaint_off; [done|]. wsteps. by eapply HQ.
  - wsteps. cbn [negb]. eapply Hb; [by apply moving_quiet|done|]. intros P' s' HM' Hj. wsteps. by eapply HQ.
Qed.

(** A connection that does not wait may be exempted. *)
Definition not_waiting c s : Prop := ∀ C, st_conns s !! c = Some C → conn_waiting C = false.
Lemma calm_not_waiting c s : calm c s → not_waiting c s.
Proof. intros (C & HC & Hw & _) C'. by rewrite HC; intros [= <-]. Qed.
Lemma queue_inv_idle ids P s c : queue_inv ∅ ids P s → not_waiting c s → queue_inv {[c]} ids P s.
Proof.
  intros [HR HW Hca] Hc. split; [eapply queue_rep_mono; [|done]; set_solver|done|].
  intros c' C' HC' Hw'. destruct (Hca c' C' HC' Hw') as [_ Hn]. split; [|done].
  intros ->%elem_of_singleton. rewrite (Hc C' HC') in Hw'. done.
Qed.
Lemma queue_inv_calm ids P s c : queue_inv ∅ ids P s → calm c s → queue_inv {[c]} ids P s.
Proof. intros HI Hc. by apply queue_inv_idle, calm_not_waiting. Qed.

Lemma srv_inv_calm x ids P s c : srv_inv x ∅ ids P s → calm c s → srv_inv x {[c]} ids P s.
Proof.
  intros [HQ HT HR Hn Hi Hk Hl Ho] Hc. split; try done; [by apply queue_inv_calm|].
  intros c' _. apply Hk. set_solver.
Qed.
End sound.
