(* ===== verification/QueueSpec.v ===== *)
(** What the queue promises: the theorems about [process_queue] and the
    operations on one job, with an example state in which they apply. *)
From S2P Require Import Prelude Heap Ms State Monad JobList JobHash Tube Job Wal Conn Queue QueueRep QueueOps QueueConn QueueProc Process Runs QueueCmds.
#[local] Open Scope Z_scope.

(** ** An example state

    One tube; job 1 is ready, 2 delayed, 3 buried, 4 reserved by connection 2,
    5 without a place.  Connection 1 waits for the tube. *)
Module Demo.
Definition env : Env := {|
  e_clock := λ n, 1000 * Z.of_nat n;
  e_malloc := λ _, Some 1%positive;
  e_read := λ _ _ _, IoErr EAGAIN;
  e_write := λ _ _ d, IoOk (length d);
  e_epoll_ctl := λ _ _, true;
  e_falloc := λ _ _, true;
|}.
#[export] Existing Instance env.

Definition job (id : Z) (st : jobstate) (reserver : option connp) : Job :=
  job_zero <| j_r := mkJobrec id 10 0 1000 7 0 (100 + id) 0 0 0 0 0 st |>
    <| j_tube := Some 1%positive |> <| j_reserver := reserver |>.
Definition jobs : gmap jobp Job :=
  list_to_map
    [ (1%positive, job 1 Ready None); (2%positive, job 2 Delayed None);
      (3%positive, job 3 Buried None); (4%positive, job 4 Reserved (Some 2%positive));
      (5%positive, job 5 Invalid None) ].

Definition watch1 : Ms tubep := mkMs [1%positive] 1 0.
Definition conn1 : Conn :=
  conn_zero <| c_fd := 5 |> <| c_type := 6 |> <| c_state := STATE_WAIT |> <| c_watch := watch1 |>
    <| c_pending_timeout := -1 |> <| c_use := Some 1%positive |>.
Definition conn2 : Conn :=
  conn_zero <| c_fd := 6 |> <| c_state := STATE_WANT_COMMAND |> <| c_type := 2 |> <| c_watch := watch1 |> <| c_soonest_job := Some 4%positive |>
    <| c_pending_timeout := -1 |> <| c_use := Some 1%positive |>.
Definition conns : gmap connp Conn :=
  list_to_map [(1%positive, conn1); (2%positive, conn2)].

Definition tube1 : Tube :=
  tube_zero <| t_name := bs "default" |> <| t_refs := 10 |>
    <| t_ready := mkHeap 2 1 [1%positive] |> <| t_delay := mkHeap 2 1 [2%positive] |>
    <| t_waiting_conns := mkMs [1%positive] 1 0 |>.

Definition links : gmap node (node * node) :=
  list_to_map
    [ (NJob 1, (NJob 1, NJob 1)); (NJob 2, (NJob 2, NJob 2));
      (NJob 3, (NBuried 1, NBuried 1)); (NBuried 1, (NJob 3, NJob 3));
      (NJob 4, (NReserved 2, NReserved 2)); (NReserved 2, (NJob 4, NJob 4));
      (NJob 5, (NJob 5, NJob 5)); (NReserved 1, (NReserved 1, NReserved 1)) ]%positive.

Definition wal_off : Wal := mkWal 0 false None None None 0 0 0 0 0 0 false 0 0.
Definition table : JobTable :=
  mkJobTable 6 0
    (list_to_map [(1, 1%positive); (2, 2%positive); (3, 3%positive); (4, 4%positive); (5, 5%positive)])
    12289 5 false.
Definition state : St :=
  mkSt jobs {[1%positive := tube1]} conns ∅ links ∅ table (mkConnCounts 2 1 0 2)
    (mkMs [1%positive] 1 0) (Some 1%positive) 1 0 [] stats_zero false 0 None 65535 wal_off
    heap_empty [] 0.

Definition P : places :=
  list_to_map
    [ (1, InReady 1); (2, InDelay 1); (3, InBuried 1); (4, InReserved 2) ]%positive.
Definition ids : gmap Z jobp :=
  list_to_map [ (1, 1%positive); (2, 2%positive); (3, 3%positive); (4, 4%positive); (5, 5%positive) ].

(** Case analysis on the keys of a finite map. *)
Lemma list_to_map_cases {K V} `{Countable K} (l : list (K * V)) k v :
  (list_to_map l : gmap K V) !! k = Some v → (k, v) ∈ l.
Proof. apply elem_of_list_to_map_2. Qed.
Ltac keys H :=
  apply list_to_map_cases in H; rewrite ?elem_of_cons, elem_of_nil in H;
  destruct_or! H; try done; apply pair_equal_spec in H as [?Hk ?Hv]; subst; try done.

Lemma ready_place t x : P !! x = Some (InReady t) ↔ x = 1%positive ∧ t = 1%positive.
Proof. split; [intros Hx; keys Hx; by simplify_eq|by intros [-> ->]]. Qed.
Lemma delay_place t x : P !! x = Some (InDelay t) ↔ x = 2%positive ∧ t = 1%positive.
Proof. split; [intros Hx; keys Hx; by simplify_eq|by intros [-> ->]]. Qed.
Lemma buried_place t x : P !! x = Some (InBuried t) ↔ x = 3%positive ∧ t = 1%positive.
Proof. split; [intros Hx; keys Hx; by simplify_eq|by intros [-> ->]]. Qed.
Lemma reserved_place c x : P !! x = Some (InReserved c) ↔ x = 4%positive ∧ c = 2%positive.
Proof. split; [intros Hx; keys Hx; by simplify_eq|by intros [-> ->]]. Qed.

(** A heap with one job. *)
Lemma single_heap f j Jb M (h := mkHeap 2 1 [j]) :
  jobs !! j = Some Jb → j_heap_index Jb = 0%nat → (∀ x, M x ↔ x = j) →
  heap_rep f jobs h M.
Proof.
  intros HJ Hi HM. split; [split| |split]; simpl; try lia.
  - intros [|i] x; [|done]. intros Hx. apply (inj Some) in Hx as <-.
    unfold job_pos. by rewrite HJ, <- Hi.
  - intros [|i] ? a b; [lia|done].
  - intros x. rewrite HM. unfold elems. simpl. set_solver.
  - intros x ->%HM. eauto.
  - intros x y Xb Yb ->%HM ->%HM. done.
Qed.

Lemma tubes_inv t T : st_tubes state !! t = Some T → t = 1%positive ∧ T = tube1.
Proof.
  intros HT. change (({[1%positive := tube1]} : gmap tubep Tube) !! t = Some T) in HT.
  apply lookup_singleton_Some in HT as [<- <-]. done.
Qed.
Lemma conns_inv c C :
  st_conns state !! c = Some C → c = 1%positive ∧ C = conn1 ∨ c = 2%positive ∧ C = conn2.
Proof. intros HC. keys HC; auto. Qed.

Lemma single_list h n j M :
  links !! h = Some (n, n) → n = NJob j → links !! n = Some (h, h) → h ≠ n → (∀ x, M x ↔ x = j) →
  list_rep links h M.
Proof.
  intros Hh -> Hj Hne HM. exists [j]. split; [split|].
  - simpl. apply NoDup_cons. split; [set_solver|apply NoDup_singleton].
  - simpl. unfold lnext, lprev. by rewrite Hh, Hj.
  - intros x. rewrite HM. set_solver.
Qed.

Lemma queue : queue_rep P ids ∅ state.
Proof.
  split.
  - intros j p Hj. keys Hj; (do 2 eexists; exists tube1; split_and!; try reflexivity;
      [by repeat split|]); intros c [=]; subst; by eexists.
  - intros j J HJ. keys HJ; by split.
  - intros t T [-> ->]%tubes_inv. eapply (single_heap r_pri 1%positive); [reflexivity..|].
    intros x. rewrite ready_place. tauto.
  - intros t T [-> ->]%tubes_inv. eapply (single_heap r_deadline_at 2%positive); [reflexivity..|].
    intros x. rewrite delay_place. tauto.
  - intros t T [-> ->]%tubes_inv. eapply (single_list _ _ 3%positive); [reflexivity..|done|].
    intros x. rewrite buried_place. tauto.
  - intros c C [[-> ->]|[-> ->]]%conns_inv.
    + exists []. split; [by apply dll_nil|]. intros x. rewrite reserved_place. set_solver.
    + eapply (single_list _ _ 4%positive); [reflexivity..|done|].
      intros x. rewrite reserved_place. tauto.
  - intros j J HJ Hp. keys HJ; reflexivity.
  - split; [apply NoDup_singleton|]. intros t ->%list_elem_of_singleton.
    by eexists.
  - split; [by split|]. by intros c ?%elem_of_nil.
  - intros c C j _ [[-> ->]|[-> ->]]%conns_inv; [done|]. intros [= <-]. split; [reflexivity|].
    intros x Xb Jb [-> _]%reserved_place HX HJ. simplify_eq. lia.
  - intros j J t HJ Ht. assert (t = 1%positive) as -> by (keys HJ; by injection Ht). by left.
Qed.

Lemma waiting : wait_rep ∅ state.
Proof.
  split.
  - intros c C [[-> ->]|[-> ->]]%conns_inv; (split; [apply NoDup_singleton|]);
      intros t ->%list_elem_of_singleton; by eexists.
  - intros t T [-> ->]%tubes_inv. apply NoDup_singleton.
  - intros t T c [-> ->]%tubes_inv ->%list_elem_of_singleton. exists conn1.
    split_and!; [done|by left|done].
Qed.

Lemma inv : queue_inv ∅ ids P state.
Proof.
  split; [exact queue|exact waiting|].
  intros c C [[-> ->]|[-> ->]]%conns_inv; [|done]. intros _. split; [set_solver|].
  intros _ j [_ ?]%reserved_place. done.
Qed.

Lemma loose5 : loose P state 5%positive 1%positive (job 5 Invalid None).
Proof. split; try done. Qed.
End Demo.

(** ** The properties *)

(** [m] run from [s] returns [a] in [s']: it is defined, does not exit and does
    not run out of fuel. *)
Abbreviation returns m s a s' := (m s = Ret a s').

Section properties.
Context {E : Env}.
Implicit Types (P : places) (ids : gmap Z jobp) (X : gset connp) (s : St).
Implicit Types (j : jobp) (t : tubep) (c : connp) (C : Conn).

(** C4: [process_queue] terminates and implements its specification: as long as
    a ready job of an unpaused tube is waited for, the one with the least
    priority and id is reserved by a connection that waits for its tube, which
    is sent that job; and it keeps the invariant of the queue. *)
Theorem process_queue_serves X ids P s :
  queue_inv X ids P s →
  ∃ now P' s', returns process_queue s tt s' ∧
    serving now P (s <| st_tick ::= S |>) P' s' ∧ queue_inv X ids P' s'.
Proof.
  intros [HR HW Hca].
  assert (wp process_queue (λ _ s', ∃ now P', serving now P (s <| st_tick ::= S |>) P' s' ∧
    queue_inv X ids P' s') s) as Hwp.
  { eapply wp_process_queue; [done..|]. intros now P' s' s1 Hs ???. exists now, P'. by split. }
  apply wp_Ret in Hwp as ([] & s' & Heq & now & P' & Hs & HI). by exists now, P', s'.
Qed.

(** C5: after [process_queue] no connection waits for an unpaused tube with a
    ready job; only ready jobs have moved, each to a connection that waited for
    its tube, and no connection was given two. *)
Theorem process_queue_quiescent X ids P s :
  queue_inv X ids P s →
  ∃ now P' s', returns process_queue s tt s' ∧ (∀ j, ¬ awaited P' now s' j) ∧
    (∀ j, fair_move P P' s j) ∧
    ∀ c j j', P !! j ≠ Some (InReserved c) → P !! j' ≠ Some (InReserved c) →
      P' !! j = Some (InReserved c) → P' !! j' = Some (InReserved c) → j = j'.
Proof.
  intros [HR HW Hca].
  assert (wp process_queue (λ _ s', ∃ now P', serving now P (s <| st_tick ::= S |>) P' s') s) as Hwp.
  { eapply wp_process_queue; [done..|]. intros now P' s' s1 Hs ???. by exists now, P'. }
  apply wp_Ret in Hwp as ([] & s' & Heq & now & P' & Hs). exists now, P', s'.
  split_and!; [done| | |].
  - by eapply serving_quiescent.
  - intros j. exact (serving_fair _ _ _ _ _ Hs j).
  - intros c j j'. by eapply serving_once.
Qed.

(** C7: [next_awaited_job] returns the job with the least priority and id of
    the ready jobs of unpaused tubes that connections wait for, or nothing when
    there is none. *)
Theorem next_awaited_job_best X ids P s now :
  queue_rep P ids X s →
  ∃ r s', returns (next_awaited_job now) s r s' ∧ woken now s s' ∧
    best_of (st_jobs s) (awaited P now s) r.
Proof.
  intros HR.
  assert (wp (next_awaited_job now) (λ r s', woken now s s' ∧
    best_of (st_jobs s) (awaited P now s) r) s) as Hwp.
  { eapply wp_next_awaited_job; [done|]. intros r s' _ Hw Hb. split; [done|].
    rewrite <- (qu_jobs _ _ (wk_quiet _ _ _ Hw)). eapply best_of_iff; [|exact Hb].
    intros x. unfold awaited. rewrite <- (qframe_tubes s s') by apply Hw.
    by apply woken_awaited. }
  apply wp_Ret in Hwp as (r & s' & ? & ? & ?). by exists r, s'.
Qed.

(** C20: [connsoonestjob] returns the job with the least deadline of the jobs
    reserved by the connection, nothing when it has none, and changes at most
    the cached value. *)
Theorem connsoonestjob_least X ids P s c C :
  queue_rep P ids X s → c ∉ X → st_conns s !! c = Some C →
  ∃ r s', returns (connsoonestjob c) s r s' ∧ s' = with_soonest s c C r ∧
    match r with
    | None => ∀ j, P !! j ≠ Some (InReserved c)
    | Some j => soonest_of P (st_jobs s) c j
    end.
Proof.
  intros HR HX HC.
  assert (wp (connsoonestjob c) (λ r s', s' = with_soonest s c C r ∧
    match r with
    | None => ∀ j, P !! j ≠ Some (InReserved c)
    | Some j => soonest_of P (st_jobs s) c j
    end) s) as Hwp by (by eapply wp_connsoonestjob).
  apply wp_Ret in Hwp as (r & s' & ? & ? & ?). by exists r, s'.
Qed.

(** [j] moves to [p], and then the waiting connections are served. *)
Definition moves_and_serves X ids P j (p : place) s s' : Prop :=
  ∃ s1 P', queue_rep (<[j := p]> P) ids X s1 ∧ job_step s s1 ∧ only j s s1 ∧
    serve_all (<[j := p]> P) s1 P' s' ∧ queue_inv X ids P' s'.

Lemma wp_returns {A} (m : M A) Q s : wp m Q s → ∃ r s', returns m s r s' ∧ Q r s'.
Proof. by intros H%wp_Ret. Qed.


(** [bury_job] without a log puts the job in the buried list of its tube. *)
Theorem bury_job_places X ids P s j t Jb :
  queue_inv X ids P s → loose P s j t Jb →
  ∃ s', returns (bury_job j false) s true s' ∧
    queue_inv X ids (<[j := InBuried t]> P) s' ∧ job_step s s'.
Proof.
  intros HI HL.
  assert (wp (bury_job j false) (λ r s', r = true ∧
    queue_inv X ids (<[j := InBuried t]> P) s' ∧ job_step s s') s) as Hwp
    by (by eapply wp_bury_job_nostore).
  apply wp_returns in Hwp as (r & s' & Heq & -> & ?). by exists s'.
Qed.



(** C18: giving up a reserved job takes it from its connection, which forgets its
    soonest job, and touches no other job or connection. *)
Theorem remove_this_reserved_job_takes X ids P s c C j Jb t :
  queue_inv X ids P s → P !! j = Some (InReserved c) → c ∉ X →
  st_conns s !! c = Some C → conn_waiting C = false →
  st_jobs s !! j = Some Jb → j_tube Jb = Some t →
  ∃ s', returns (remove_this_reserved_job c (Some j)) s (Some j) s' ∧
    queue_inv X ids (delete j P) s' ∧ (∃ Jb', loose (delete j P) s' j t Jb') ∧
    st_conns s' = <[c := C <| c_soonest_job := None |>]> (st_conns s).
Proof.
  intros HI Hj HX HC Hwt HJb Ht.
  assert (wp (remove_this_reserved_job c (Some j)) (λ r s', r = Some j ∧
    queue_inv X ids (delete j P) s' ∧ (∃ Jb', loose (delete j P) s' j t Jb') ∧
    st_conns s' = <[c := C <| c_soonest_job := None |>]> (st_conns s)) s) as Hwp.
  { eapply wp_remove_this_reserved_job; [done..|]. eauto 10. }
  apply wp_returns in Hwp as (r & s' & Heq & -> & ?). by exists s'.
Qed.


(** C21: [remove_waiting_conn] takes a waiting connection out of the waiting set
    of every tube and clears its flag, and changes nothing else but counters. *)
Theorem remove_waiting_conn_leaves Y s c C :
  wait_rep (Y ∪ {[c]}) s → st_conns s !! c = Some C → conn_waiting C = true →
  ∃ s', returns (remove_waiting_conn c) s tt s' ∧ wait_rep Y s' ∧
    st_conns s' = <[c := unwait C]> (st_conns s) ∧ st_jobs s' = st_jobs s ∧
    ∀ t T', st_tubes s' !! t = Some T' → c ∉ ms_items (t_waiting_conns T').
Proof.
  intros HW HC Hwt.
  assert (wp (remove_waiting_conn c) (λ _ s', unwaited c C s s') s) as Hwp
    by (by eapply wp_remove_waiting_conn).
  apply wp_returns in Hwp as ([] & s' & Heq & Hu). exists s'.
  split_and!; [done|by eapply unwaited_wait|apply Hu|apply Hu|].
  intros t T' HT' Hin.
  destruct (same_but_lookup_inv _ _ _ _ _ (uw_tubes _ _ _ _ Hu) HT') as (T & HT & _).
  by destruct (proj1 (proj2 (uw_items _ _ _ _ Hu t T T' HT HT') c) Hin).
Qed.
End properties.

(** ** The example state satisfies the hypotheses *)

Section witnesses.
Import Demo.

Lemma process_queue_serves_witness :
  ∃ now P' s', returns process_queue state tt s' ∧
    serving now P (state <| st_tick ::= S |>) P' s' ∧ queue_inv ∅ ids P' s'.
Proof. exact (process_queue_serves ∅ ids P state inv). Defined.

Lemma process_queue_quiescent_witness :
  ∃ now P' s', returns process_queue state tt s' ∧ (∀ j, ¬ awaited P' now s' j) ∧
    (∀ j, fair_move P P' state j) ∧
    ∀ c j j', P !! j ≠ Some (InReserved c) → P !! j' ≠ Some (InReserved c) →
      P' !! j = Some (InReserved c) → P' !! j' = Some (InReserved c) → j = j'.
Proof. exact (process_queue_quiescent ∅ ids P state inv). Defined.

Lemma next_awaited_job_best_witness :
  ∃ r s', returns (next_awaited_job 5) state r s' ∧ woken 5 state s' ∧
    best_of (st_jobs state) (awaited P 5 state) r.
Proof. exact (next_awaited_job_best ∅ ids P state 5 queue). Defined.

Lemma connsoonestjob_least_witness :
  ∃ r s', returns (connsoonestjob 2%positive) state r s' ∧
    s' = with_soonest state 2%positive conn2 r ∧
    match r with
    | None => ∀ j, P !! j ≠ Some (InReserved 2%positive)
    | Some j => soonest_of P (st_jobs state) 2%positive j
    end.
Proof.
  apply (connsoonestjob_least ∅ ids P state 2%positive conn2 queue); [set_solver|reflexivity].
Defined.


Lemma bury_job_places_witness :
  ∃ s', returns (bury_job 5%positive false) state true s' ∧
    queue_inv ∅ ids (<[5%positive := InBuried 1%positive]> P) s' ∧ job_step state s'.
Proof. exact (bury_job_places ∅ ids P state 5%positive 1%positive _ inv loose5). Defined.



Lemma remove_this_reserved_job_takes_witness :
  ∃ s', returns (remove_this_reserved_job 2%positive (Some 4%positive)) state (Some 4%positive) s' ∧
    queue_inv ∅ ids (delete 4%positive P) s' ∧
    (∃ Jb', loose (delete 4%positive P) s' 4%positive 1%positive Jb') ∧
    st_conns s' = <[2%positive := conn2 <| c_soonest_job := None |>]> (st_conns state).
Proof.
  apply (remove_this_reserved_job_takes ∅ ids P state 2%positive conn2 4%positive
    (job 4 Reserved (Some 2%positive)) 1%positive inv); [reflexivity|set_solver|reflexivity..].
Defined.


Lemma remove_waiting_conn_leaves_witness :
  ∃ s', returns (remove_waiting_conn 1%positive) state tt s' ∧ wait_rep ∅ s' ∧
    st_conns s' = <[1%positive := unwait conn1]> (st_conns state) ∧ st_jobs s' = st_jobs state ∧
    ∀ t T', st_tubes s' !! t = Some T' → 1%positive ∉ ms_items (t_waiting_conns T').
Proof.
  apply (remove_waiting_conn_leaves ∅ state 1%positive conn1); [|reflexivity..].
  eapply wait_rep_mono; [|exact waiting]. set_solver.
Defined.
End witnesses.
