(* ===== verification/Parse.v ===== *)
(** Parsing of the text protocol ([prot.c]): the end of a command line, the
    command names, integers, durations and tube names.

    A C string is the list of its bytes before the NUL, so the end of the list
    plays the role of the terminator; a pointer into a string is the suffix it
    points to.  [strtoumax] and [strtoul] are those of an LP64 machine. *)
From S2P Require Import Prelude State Monad Conn Queue.
#[local] Open Scope Z_scope.

Definition CR : ascii := "013".
Definition LF : ascii := "010".
Definition NUL : ascii := "000".

(** ** C strings *)

(** The string that starts a buffer. *)
Fixpoint cstr (buf : bytes) : bytes :=
  match buf with
  | [] => []
  | c :: buf => if decide (c = NUL) then [] else c :: cstr buf
  end.

Definition code (c : ascii) : Z := Z.of_N (N_of_ascii c).
Definition is_digit (c : ascii) : bool := (48 <=? code c) && (code c <=? 57).
Definition is_space (c : ascii) : bool :=
  (code c =? 32) || ((9 <=? code c) && (code c <=? 13)).

Fixpoint drop_while (p : ascii → bool) (s : bytes) : bytes :=
  match s with
  | c :: s' => if p c then drop_while p s' else s
  | [] => []
  end.

(** The value of the leading digits, and the rest. *)
Fixpoint scan_digits (s : bytes) (acc : Z) : Z * bytes :=
  match s with
  | c :: s' => if is_digit c then scan_digits s' (acc * 10 + (code c - 48)) else (acc, s)
  | [] => (acc, [])
  end.

(** Value, end pointer, and whether [errno] is set to [ERANGE]. *)
Definition strtoul (s : bytes) : Z * bytes * bool :=
  let s1 := drop_while is_space s in
  let '(neg, s2) := match s1 with
                    | "-"%char :: r => (true, r)
                    | "+"%char :: r => (false, r)
                    | _ => (false, s1)
                    end in
  match s2 with
  | c :: _ =>
      if is_digit c then
        let '(v, rest) := scan_digits s2 0 in
        if UINT64_MAX <? v then (UINT64_MAX, rest, true)
        else ((if neg : bool then wrap_u64 (- v) else v), rest, false)
      else (0, s, false)
  | [] => (0, s, false)
  end.
Definition strtoumax := strtoul.

Definition is_blank (c : ascii) : bool := bool_decide (c = " "%char).

(** [end_null] says that the argument [end] is NULL, in which case the whole
    string must be consumed; [None] is the result -1. *)
Definition read_u64 (end_null : bool) (buf : bytes) : option (Z * bytes) :=
  let buf := drop_while is_blank buf in
  match buf with
  | [] => None
  | c :: _ =>
      if negb (is_digit c) then None
      else
        let '(tnum, tend, erange) := strtoumax buf in
        if bool_decide (tend = buf) then None
        else if erange then None
        else if end_null && negb (bool_decide (tend = [])) then None
        else if UINT64_MAX <? tnum then None
        else Some (tnum, tend)
  end.

Definition read_u32 (end_null : bool) (buf : bytes) : option (Z * bytes) :=
  let buf := drop_while is_blank buf in
  match buf with
  | [] => None
  | c :: _ =>
      if negb (is_digit c) then None
      else
        let '(tnum, tend, erange) := strtoumax buf in
        if bool_decide (tend = buf) then None
        else if erange then None
        else if end_null && negb (bool_decide (tend = [])) then None
        else if UINT32_MAX <? tnum then None
        else Some (wrap_u32 tnum, tend)
  end.

(** Seconds to nanoseconds. *)
Definition read_duration (end_null : bool) (buf : bytes) : option (Z * bytes) :=
  '(dur_sec, rest) ← read_u32 end_null buf; Some (dur_sec * 1000000000, rest).

(** ** Tube names *)

Definition NAME_CHARS : bytes :=
  list_ascii_of_string
    "ABCDEFGHIJKLMNOPQRSTUVWXYZabcdefghijklmnopqrstuvwxyz0123456789-+/;.$_()".
Definition is_name_char (c : ascii) : bool := bool_decide (c ∈ NAME_CHARS).

(** [strspn(s, NAME_CHARS)] *)
Fixpoint name_span (s : bytes) : nat :=
  match s with
  | c :: s' => if is_name_char c then S (name_span s') else 0%nat
  | [] => 0%nat
  end.

(** The start of the name and its end. *)
Definition read_tube_name (buf : bytes) : option (bytes * bytes) :=
  let buf := drop_while is_blank buf in
  let len := name_span buf in
  if (len =? 0)%nat then None else Some (buf, drop len buf).

Definition is_valid_tube (name : bytes) (max : nat) : bool :=
  let len := length name in
  (0 <? len)%nat && (len <=? max)%nat && (name_span name =? len)%nat
    && negb (bool_decide (head name = Some "-"%char)).

(** ** Lines and commands *)

(** [memchr(s, c, n)]: the offset of the first match. *)
Fixpoint memchr (s : bytes) (c : ascii) (n : nat) : option nat :=
  match n, s with
  | S n, x :: s => if decide (x = c) then Some 0%nat else S <$> memchr s c n
  | _, _ => None
  end.

(** The length of the line, 0 if there is none.  [size - 1] is converted to
    [size_t]; the callers never pass 0. *)
Definition scan_line_end (s : bytes) (size : nat) : nat :=
  match memchr s CR (size - 1) with
  | None => 0%nat
  | Some i => if decide (s !! S i = Some LF) then (i + 2)%nat else 0%nat
  end.

Inductive op :=
  | OP_UNKNOWN | OP_PUT | OP_PEEKJOB | OP_RESERVE | OP_DELETE | OP_RELEASE | OP_BURY
  | OP_KICK | OP_STATS | OP_STATSJOB | OP_PEEK_BURIED | OP_USE | OP_WATCH | OP_IGNORE
  | OP_LIST_TUBES | OP_LIST_TUBE_USED | OP_LIST_TUBES_WATCHED | OP_STATS_TUBE
  | OP_PEEK_READY | OP_PEEK_DELAYED | OP_RESERVE_TIMEOUT | OP_TOUCH | OP_QUIT
  | OP_PAUSE_TUBE | OP_KICKJOB | OP_RESERVE_JOB.
#[export] Instance op_eq_dec : EqDecision op.
Proof. solve_decision. Defined.

Definition op_code (o : op) : nat :=
  match o with
  | OP_UNKNOWN => 0 | OP_PUT => 1 | OP_PEEKJOB => 2 | OP_RESERVE => 3 | OP_DELETE => 4
  | OP_RELEASE => 5 | OP_BURY => 6 | OP_KICK => 7 | OP_STATS => 8 | OP_STATSJOB => 9
  | OP_PEEK_BURIED => 10 | OP_USE => 11 | OP_WATCH => 12 | OP_IGNORE => 13
  | OP_LIST_TUBES => 14 | OP_LIST_TUBE_USED => 15 | OP_LIST_TUBES_WATCHED => 16
  | OP_STATS_TUBE => 17 | OP_PEEK_READY => 18 | OP_PEEK_DELAYED => 19
  | OP_RESERVE_TIMEOUT => 20 | OP_TOUCH => 21 | OP_QUIT => 22 | OP_PAUSE_TUBE => 23
  | OP_KICKJOB => 24 | OP_RESERVE_JOB => 25
  end%nat.

Definition CMD_PUT := bs "put ".
Definition CMD_PEEKJOB := bs "peek ".
Definition CMD_PEEK_READY := bs "peek-ready".
Definition CMD_PEEK_DELAYED := bs "peek-delayed".
Definition CMD_PEEK_BURIED := bs "peek-buried".
Definition CMD_RESERVE := bs "reserve".
Definition CMD_RESERVE_TIMEOUT := bs "reserve-with-timeout ".
Definition CMD_RESERVE_JOB := bs "reserve-job ".
Definition CMD_DELETE := bs "delete ".
Definition CMD_RELEASE := bs "release ".
Definition CMD_BURY := bs "bury ".
Definition CMD_KICK := bs "kick ".
Definition CMD_KICKJOB := bs "kick-job ".
Definition CMD_TOUCH := bs "touch ".
Definition CMD_STATS := bs "stats".
Definition CMD_STATSJOB := bs "stats-job ".
Definition CMD_USE := bs "use ".
Definition CMD_WATCH := bs "watch ".
Definition CMD_IGNORE := bs "ignore ".
Definition CMD_LIST_TUBES := bs "list-tubes".
Definition CMD_LIST_TUBE_USED := bs "list-tube-used".
Definition CMD_LIST_TUBES_WATCHED := bs "list-tubes-watched".
Definition CMD_STATS_TUBE := bs "stats-tube ".
Definition CMD_QUIT := bs "quit".
Definition CMD_PAUSE_TUBE := bs "pause-tube".

(** The prefixes in the order they are tested. *)
Definition command_table : list (bytes * op) :=
  [ (CMD_PUT, OP_PUT); (CMD_PEEKJOB, OP_PEEKJOB); (CMD_PEEK_READY, OP_PEEK_READY);
    (CMD_PEEK_DELAYED, OP_PEEK_DELAYED); (CMD_PEEK_BURIED, OP_PEEK_BURIED);
    (CMD_RESERVE_TIMEOUT, OP_RESERVE_TIMEOUT); (CMD_RESERVE_JOB, OP_RESERVE_JOB);
    (CMD_RESERVE, OP_RESERVE); (CMD_DELETE, OP_DELETE); (CMD_RELEASE, OP_RELEASE);
    (CMD_BURY, OP_BURY); (CMD_KICK, OP_KICK); (CMD_KICKJOB, OP_KICKJOB);
    (CMD_TOUCH, OP_TOUCH); (CMD_STATSJOB, OP_STATSJOB); (CMD_STATS_TUBE, OP_STATS_TUBE);
    (CMD_STATS, OP_STATS); (CMD_USE, OP_USE); (CMD_WATCH, OP_WATCH);
    (CMD_IGNORE, OP_IGNORE); (CMD_LIST_TUBES_WATCHED, OP_LIST_TUBES_WATCHED);
    (CMD_LIST_TUBE_USED, OP_LIST_TUBE_USED); (CMD_LIST_TUBES, OP_LIST_TUBES);
    (CMD_QUIT, OP_QUIT); (CMD_PAUSE_TUBE, OP_PAUSE_TUBE) ].

(** [strncmp(s, c, CONSTSTRLEN(c)) == 0] *)
Definition TEST_CMD (s c : bytes) : bool := bool_decide (take (length c) s = c).

Fixpoint which_cmd_loop (table : list (bytes * op)) (cmd : bytes) : op :=
  match table with
  | [] => OP_UNKNOWN
  | (c, o) :: table => if TEST_CMD cmd c then o else which_cmd_loop table cmd
  end.
Definition which_cmd (cmd : bytes) : op := which_cmd_loop command_table cmd.
