(* ===== verification/Options.v ===== *)
(** The command line: [optparse] of [util.c], and the initial values of
    [srv] ([serv.c]) and of [job_data_size_limit] and [verbose] ([prot.c]).

    The strings of the C array [argv] are those of the list [argv]; a pointer
    into a string is the suffix it points to.  What is printed is left out;
    [usage] is the exit. *)
From S2P Require Import Prelude State Monad Conn Queue Parse.
#[local] Open Scope Z_scope.

(** ** The settings *)

(** The fields of [srv] and the variables that the options write. *)
Record Options := mkOptions {
  o_port : bytes;
  o_addr : option bytes;
  o_user : option bytes;
  o_dir : option bytes;
  o_use : bool;
  o_filesize : Z;
  o_wantsync : bool;
  o_syncrate : Z;
  o_job_data_size_limit : Z;
  o_verbose : Z;
}.
#[export] Instance Options_settable : Settable Options :=
  fun r => mkOptions (o_port r) (o_addr r) (o_user r) (o_dir r) (o_use r) (o_filesize
    r) (o_wantsync r) (o_syncrate r) (o_job_data_size_limit r) (o_verbose r).
#[export] Instance set_o_port : Setter o_port := ltac:(solve_setter).
#[export] Instance set_o_addr : Setter o_addr := ltac:(solve_setter).
#[export] Instance set_o_user : Setter o_user := ltac:(solve_setter).
#[export] Instance set_o_dir : Setter o_dir := ltac:(solve_setter).
#[export] Instance set_o_use : Setter o_use := ltac:(solve_setter).
#[export] Instance set_o_filesize : Setter o_filesize := ltac:(solve_setter).
#[export] Instance set_o_wantsync : Setter o_wantsync := ltac:(solve_setter).
#[export] Instance set_o_syncrate : Setter o_syncrate := ltac:(solve_setter).
#[export] Instance set_o_job_data_size_limit : Setter o_job_data_size_limit := ltac:(solve_setter).
#[export] Instance set_o_verbose : Setter o_verbose := ltac:(solve_setter).

Definition Portdef : bytes := bs "11300".
Definition Filesizedef : Z := Z.shiftl 10 20.
Definition DEFAULT_FSYNC_MS : Z := 50.

Definition srv : Options := {|
  o_port := Portdef; o_addr := None; o_user := None; o_dir := None; o_use := false;
  o_filesize := Filesizedef; o_wantsync := true;
  o_syncrate := DEFAULT_FSYNC_MS * 1000000;
  o_job_data_size_limit := JOB_DATA_SIZE_LIMIT_DEFAULT; o_verbose := 0;
|}.

(** ** Parsing *)

(** The process ends, or goes on with a value. *)
Definition P (A : Type) : Type := stop + A.
#[export] Instance P_ret : MRet P := fun A a => inr a.
#[export] Instance P_bind : MBind P := fun A B k m =>
  match m with inl r => inl r | inr a => k a end.

Definition usage {A} (code : Z) : P A := inl (Exit code).
Definition flagusage {A} : P A := usage 5.

(** [sscanf(str, "%zu%c", &size, &x)] must match the number only; it converts
    as [strtoul] does. *)
Definition parse_size_t (str : bytes) : P Z :=
  let '(size, rest, _) := strtoul str in
  if bool_decide (rest = str) || negb (bool_decide (rest = [])) then usage 5 else mret size.

(** The argument of a flag: the rest of the string, or the next string.
    Returned with what is left of both. *)
Definition EARGF (arg : bytes) (argv : list bytes) : P (bytes * list bytes) :=
  match arg with
  | _ :: _ => mret (arg, argv)
  | [] => match argv with a :: argv => mret (a, argv) | [] => flagusage end
  end.

(** The effect of a flag that has an argument; [None] for the other flags. *)
Definition arg_flag (c : ascii) : option (bytes → Options → P Options) :=
  match c with
  | "p"%char => Some (fun a o => mret (o <| o_port := a |>))
  | "l"%char => Some (fun a o => mret (o <| o_addr := Some a |>))
  | "z"%char => Some (fun a o =>
      n ← parse_size_t a;
      mret (o <| o_job_data_size_limit :=
              if JOB_DATA_SIZE_LIMIT_MAX <? n then JOB_DATA_SIZE_LIMIT_MAX else n |>))
  | "s"%char => Some (fun a o =>
      n ← parse_size_t a; mret (o <| o_filesize := wrap_i32 n |>))
  | "f"%char => Some (fun a o =>
      n ← parse_size_t a;
      let ms := wrap_i64 n in
      let rate := ms * 1000000 in
      (** signed overflow is undefined *)
      if (rate <? - INT64_MAX - 1) || (INT64_MAX <? rate) then inl Undefined
      else mret (o <| o_syncrate := rate |> <| o_wantsync := true |>))
  | "u"%char => Some (fun a o => mret (o <| o_user := Some a |>))
  | "b"%char => Some (fun a o => mret (o <| o_dir := Some a |> <| o_use := true |>))
  | _ => None
  end.

(** A flag that has none. *)
Definition plain_flag (c : ascii) (o : Options) : P Options :=
  match c with
  | "c"%char | "n"%char => mret o
  | "F"%char => mret (o <| o_wantsync := false |>)
  | "h"%char | "v"%char => usage 0
  | "V"%char => mret (o <| o_verbose ::= Z.succ |>)
  | _ => usage 5
  end.

(** [while ((c = *arg++))]: the settings, and what is left of [argv]. *)
Fixpoint optparse_flags (arg : bytes) (argv : list bytes) (o : Options)
    : P (Options * list bytes) :=
  match arg with
  | [] => mret (o, argv)
  | c :: arg =>
      match arg_flag c with
      | Some f =>
          '(a, argv) ← EARGF arg argv;
          o ← f a o;
          mret (o, argv)
      | None => o ← plain_flag c o; optparse_flags arg argv o
      end
  end.

(** [fuel] bounds the number of strings. *)
Fixpoint optparse_loop (fuel : nat) (argv : list bytes) (o : Options) : P Options :=
  match argv, fuel with
  | [], _ => mret o
  | _, O => inl OutOfFuel
  | ("-"%char :: ((_ :: _) as arg)) :: argv, S fuel =>
      '(o, argv) ← optparse_flags arg argv o;
      optparse_loop fuel argv o
  | _ :: _, S _ => usage 5
  end.

Definition optparse (argv : list bytes) (o : Options) : P Options :=
  optparse_loop (length argv) argv o.
