(* ===== verification/ParseSpec.v ===== *)
(** What the parser of [prot.c] accepts: numbers, durations, tube names, lines
    and command names, each against an independent description. *)
From S2P Require Import Prelude State Monad Conn Queue Parse.
#[local] Open Scope Z_scope.

(** ** Numbers *)

(** The value of a string of decimal digits. *)
Definition value (ds : bytes) : Z := foldl (λ v c, v * 10 + (code c - 48)) 0 ds.

Definition all_digits (ds : bytes) : Prop := Forall (λ c, is_digit c = true) ds.
Definition no_digit_first (s : bytes) : Prop := ∀ c r, s = c :: r → is_digit c = false.

Section numbers.
Implicit Types (s ds rest : bytes) (c : ascii) (v : Z).

Lemma code_range c : 0 <= code c < 256.
Proof. unfold code. pose proof (N_ascii_bounded c). lia. Qed.

Lemma is_digit_code c : is_digit c = true → 48 <= code c <= 57.
Proof. unfold is_digit. lia. Qed.

Lemma digit_not_blank c : is_digit c = true → is_blank c = false.
Proof.
  intros Hc%is_digit_code. unfold is_blank. apply bool_decide_eq_false. intros ->.
  assert (code " " = 32) by done. lia.
Qed.

Lemma digit_not_space c : is_digit c = true → is_space c = false.
Proof. intros Hc%is_digit_code. unfold is_space. lia. Qed.

Lemma value_app ds ds' v :
  foldl (λ v c, v * 10 + (code c - 48)) v (ds ++ ds') =
  foldl (λ v c, v * 10 + (code c - 48)) (foldl (λ v c, v * 10 + (code c - 48)) v ds) ds'.
Proof. apply foldl_app. Qed.

Lemma scan_digits_app ds rest v :
  all_digits ds → no_digit_first rest →
  scan_digits (ds ++ rest) v = (foldl (λ v c, v * 10 + (code c - 48)) v ds, rest).
Proof.
  intros Hd Hr. revert v. induction Hd as [|c ds Hc Hd IH]; intros v; simpl.
  - destruct rest as [|c rest]; [done|]. simpl. by rewrite (Hr c rest).
  - by rewrite Hc.
Qed.

(** Every string splits at its first non-digit. *)
Lemma digit_split s :
  ∃ ds rest, s = ds ++ rest ∧ all_digits ds ∧ no_digit_first rest.
Proof.
  induction s as [|c s (ds & rest & -> & Hd & Hr)].
  - exists [], []. split_and!; [done|constructor|]. by intros ??.
  - destruct (is_digit c) eqn:Hc.
    + exists (c :: ds), rest. split_and!; [done|by constructor|done].
    + exists [], (c :: ds ++ rest). split_and!; [done|constructor|]. by intros ?? [= <- _].
Qed.

Lemma value_nonneg ds v : all_digits ds → 0 <= v → 0 <= foldl (λ v c, v * 10 + (code c - 48)) v ds.
Proof.
  intros Hd. revert v. induction Hd as [|c ds Hc Hd IH]; intros v Hv; simpl; [done|].
  apply is_digit_code in Hc. apply IH. lia.
Qed.

Lemma strtoul_digits ds rest :
  all_digits ds → ds ≠ [] → no_digit_first rest →
  strtoul (ds ++ rest) =
    if UINT64_MAX <? value ds then (UINT64_MAX, rest, true) else (value ds, rest, false).
Proof.
  intros Hd Hne Hr. unfold strtoul. destruct ds as [|c ds]; [done|].
  pose proof (proj1 (proj1 (Forall_cons _ _ _) Hd)) as Hc. cbn [app drop_while].
  rewrite (digit_not_space c Hc).
  assert (c ≠ "-"%char ∧ c ≠ "+"%char) as [H1 H2].
  { apply is_digit_code in Hc. split; intros ->; vm_compute in Hc; by destruct Hc. }
  assert (match c :: ds ++ rest with
          | "-"%char :: r => (true, r)
          | "+"%char :: r => (false, r)
          | _ => (false, c :: ds ++ rest)
          end = (false, c :: ds ++ rest)) as ->.
  { clear -H1 H2. destruct c as [[] [] [] [] [] [] [] []]; done. }
  cbn [fst snd]. rewrite Hc. rewrite app_comm_cons, (scan_digits_app (c :: ds) rest 0 Hd Hr). fold (value (c :: ds)).
  done.
Qed.

Lemma drop_blanks_digits k ds rest :
  all_digits ds → ds ≠ [] →
  drop_while is_blank (replicate k " "%char ++ ds ++ rest) = ds ++ rest.
Proof.
  intros Hd Hne. induction k as [|k IH]; [|done]. simpl.
  destruct ds as [|c ds]; [done|]. apply Forall_cons in Hd as [Hc _]. simpl.
  by rewrite (digit_not_blank c Hc).
Qed.

Lemma drop_blanks s : ∃ k, s = replicate k " "%char ++ drop_while is_blank s.
Proof.
  induction s as [|c s [k IH]]; [by exists 0%nat|]. simpl.
  destruct (is_blank c) eqn:Hc; [|by exists 0%nat]. exists (S k). simpl.
  apply bool_decide_eq_true in Hc as ->. by rewrite <- IH.
Qed.

(** A number in a command: blanks, digits, the rest. *)
Definition number (s ds rest : bytes) : Prop :=
  ∃ k, s = replicate k " "%char ++ ds ++ rest ∧ all_digits ds ∧ ds ≠ [] ∧ no_digit_first rest.

Lemma number_or_not s :
  (∃ ds rest, number s ds rest) ∨
  match drop_while is_blank s with [] => True | c :: _ => is_digit c = false end.
Proof.
  destruct (drop_blanks s) as [k Hk]. destruct (drop_while is_blank s) as [|c r] eqn:E; [by right|].
  destruct (is_digit c) eqn:Hc; [left|by right].
  destruct (digit_split (c :: r)) as (ds & rest & Hs & Hd & Hr).
  exists ds, rest, k. rewrite <- Hs. split_and!; try done.
  intros ->. simpl in Hs. by specialize (Hr c r (eq_sym Hs)); congruence.
Qed.

Lemma read_u64_number en s ds rest :
  number s ds rest →
  read_u64 en s =
    if (UINT64_MAX <? value ds) || en && negb (bool_decide (rest = [])) then None
    else Some (value ds, rest).
Proof.
  intros (k & -> & Hd & Hne & Hr). unfold read_u64, strtoumax. cbv zeta.
  rewrite drop_blanks_digits by done. destruct ds as [|c ds]; [done|].
  pose proof (proj1 (proj1 (Forall_cons _ _ _) Hd)) as Hc.
  change ((c :: ds) ++ rest) with (c :: ds ++ rest). cbv iota. rewrite Hc. cbn [negb].
  change (c :: ds ++ rest) with ((c :: ds) ++ rest). rewrite strtoul_digits by done.
  assert (rest ≠ (c :: ds) ++ rest) as Hlen.
  { intros H%(f_equal length). rewrite length_app in H. simpl in H. lia. }
  destruct (UINT64_MAX <? value (c :: ds)) eqn:Hbig; cbv iota;
    rewrite bool_decide_eq_false_2 by done; [done|].
  rewrite Hbig. by destruct (en && _).
Qed.

Lemma read_u32_number en s ds rest :
  number s ds rest →
  read_u32 en s =
    if (UINT32_MAX <? value ds) || en && negb (bool_decide (rest = [])) then None
    else Some (value ds, rest).
Proof.
  intros (k & -> & Hd & Hne & Hr). unfold read_u32, strtoumax. cbv zeta.
  rewrite drop_blanks_digits by done. destruct ds as [|c ds]; [done|].
  pose proof (proj1 (proj1 (Forall_cons _ _ _) Hd)) as Hc.
  change ((c :: ds) ++ rest) with (c :: ds ++ rest). cbv iota. rewrite Hc. cbn [negb].
  change (c :: ds ++ rest) with ((c :: ds) ++ rest). rewrite strtoul_digits by done.
  assert (rest ≠ (c :: ds) ++ rest) as Hlen.
  { intros H%(f_equal length). rewrite length_app in H. simpl in H. lia. }
  assert (0 <= value (c :: ds)) as Hpos by (by apply value_nonneg).
  unfold UINT64_MAX, UINT32_MAX in *.
  destruct (Z.ltb_spec 18446744073709551615 (value (c :: ds))); cbv iota;
    rewrite bool_decide_eq_false_2 by done.
  - by rewrite (proj2 (Z.ltb_lt _ _)) by lia.
  - destruct (Z.ltb_spec 4294967295 (value (c :: ds))); destruct (en && _); try done.
    simpl. unfold wrap_u32. by rewrite Z.mod_small by lia.
Qed.

Lemma read_u64_none en s :
  match drop_while is_blank s with [] => True | c :: _ => is_digit c = false end →
  read_u64 en s = None ∧ read_u32 en s = None.
Proof. unfold read_u64, read_u32. destruct (drop_while is_blank s); [done|]. by intros ->. Qed.
End numbers.

(** *** The digits printed by the server *)

Section printing.
Implicit Types (n : Z) (acc : bytes).

Lemma digit_ascii n :
  0 <= n < 10 → is_digit (ascii_of_N (Z.to_N (48 + n))) = true ∧
  code (ascii_of_N (Z.to_N (48 + n))) = 48 + n.
Proof.
  intros Hn. unfold is_digit, code. rewrite N_ascii_embedding by lia.
  rewrite Z2N.id by lia. split; [|done]. apply andb_true_intro. lia.
Qed.

Lemma digits_loop_spec fuel n acc :
  0 <= n → n < 2 ^ Z.of_nat fuel → (0 < fuel)%nat →
  ∃ ds, digits_loop fuel n acc = ds ++ acc ∧ all_digits ds ∧ ds ≠ [] ∧ value ds = n ∧
    (length ds <= fuel)%nat.
Proof.
  revert n acc. induction fuel as [|fuel IH]; intros n acc Hn Hf Hp; [lia|].
  cbn [digits_loop]. pose proof (Z.mod_pos_bound n 10 ltac:(lia)) as Hm.
  destruct (digit_ascii (n mod 10) Hm) as [Hd Hc].
  set (c := ascii_of_N _) in *. destruct (Z.ltb_spec n 10).
  - exists [c]. split_and!; [done|by repeat constructor|done| |simpl; lia].
    unfold value. simpl. rewrite Hc, Z.mod_small by lia. lia.
  - rewrite Nat2Z.inj_succ, Z.pow_succ_r in Hf by lia.
    pose proof (Z.div_mod n 10 ltac:(lia)).
    destruct (IH (n / 10) (c :: acc)) as (ds & -> & Hds & Hne & Hv & Hl).
    + apply Z.div_pos; lia.
    + lia.
    + destruct fuel; [|lia]. simpl in Hf. lia.
    + exists (ds ++ [c]). split_and!.
      * by rewrite <- app_assoc.
      * apply Forall_app. split; [done|]. by repeat constructor.
      * by destruct ds.
      * unfold value in *. rewrite foldl_app, Hv. simpl. rewrite Hc. lia.
      * rewrite length_app. simpl. lia.
Qed.

Lemma digits_spec n :
  0 <= n → all_digits (digits n) ∧ digits n ≠ [] ∧ value (digits n) = n ∧
    (length (digits n) <= S (Z.to_nat (Z.log2 n)))%nat.
Proof.
  intros Hn. unfold digits.
  destruct (digits_loop_spec (S (Z.to_nat (Z.log2 n))) n []) as (ds & -> & ? & ? & ? & ?);
    [done| |lia|by rewrite app_nil_r].
  destruct (Z.eq_dec n 0) as [->|]; [done|].
  rewrite Nat2Z.inj_succ, Z2Nat.id by apply Z.log2_nonneg. apply Z.log2_spec. lia.
Qed.
End printing.

(** ** Lines *)

(** The line of [n] bytes at the start of the first [size] bytes of [s]. *)
Definition is_line (s : bytes) (size n : nat) : Prop :=
  (2 <= n <= size)%nat ∧ s !! (n - 2)%nat = Some CR ∧ s !! (n - 1)%nat = Some LF ∧
  ∀ i, (i < n - 2)%nat → s !! i ≠ Some CR.

Lemma memchr_Some (s : bytes) c n i :
  memchr s c n = Some i ↔ (i < n)%nat ∧ s !! i = Some c ∧ ∀ k, (k < i)%nat → s !! k ≠ Some c.
Proof.
  revert n i. induction s as [|x s IH]; intros n i; destruct n as [|n]; cbn [memchr];
    try (split; [done|intros (? & ? & _); try lia; done]).
  case_decide as Hx; [subst x|].
  - split.
    + intros [= <-]. split_and!; [lia|done|]. intros k ?. lia.
    + intros (_ & _ & Hk). destruct i; [done|]. by destruct (Hk 0%nat ltac:(lia)).
  - rewrite fmap_Some. split.
    + intros (i' & (? & ? & Hk)%IH & ->). split_and!; [lia|done|].
      intros [|k] ?; simpl; [congruence|]. apply Hk. lia.
    + intros (? & Hi & Hk). destruct i as [|i]; [simpl in Hi; congruence|].
      exists i. split; [|done]. apply IH. split_and!; [lia|done|].
      intros k ?. apply (Hk (S k)). lia.
Qed.

Lemma memchr_None (s : bytes) c n :
  memchr s c n = None → ∀ i, (i < n)%nat → s !! i ≠ Some c.
Proof.
  revert n. induction s as [|x s IH]; intros n Hn i Hi; [done|]. destruct n as [|n]; [lia|].
  cbn [memchr] in Hn. case_decide as Hx; [done|]. apply fmap_None in Hn.
  destruct i as [|i]; simpl; [congruence|]. apply (IH n); [done|lia].
Qed.

(** ** Command names *)

Lemma TEST_CMD_iff s c : TEST_CMD s c = true ↔ ∃ args, s = c ++ args.
Proof.
  unfold TEST_CMD. rewrite bool_decide_eq_true. split.
  - intros H. exists (drop (length c) s). by rewrite <- H at 1; rewrite take_drop.
  - intros [args ->]. by rewrite take_app_length.
Qed.

Lemma which_cmd_loop_In table s o :
  which_cmd_loop table s = o →
  (o = OP_UNKNOWN ∧ ∀ c o', (c, o') ∈ table → TEST_CMD s c = false) ∨
  ∃ l1 c l2, table = l1 ++ (c, o) :: l2 ∧ TEST_CMD s c = true ∧
    ∀ c' o', (c', o') ∈ l1 → TEST_CMD s c' = false.
Proof.
  induction table as [|[c o'] table IH]; cbn [which_cmd_loop].
  - intros <-. left. split; [done|]. set_solver.
  - destruct (TEST_CMD s c) eqn:Hc.
    + intros <-. right. exists [], c, table. split_and!; [done|done|]. set_solver.
    + intros [[-> Hn]|(l1 & c1 & l2 & -> & H1 & H2)]%IH; [left|right].
      * split; [done|]. intros c' o1 [[= -> ->]|?]%elem_of_cons; eauto.
      * exists ((c, o') :: l1), c1, l2. split_and!; [done|done|].
        intros c' o1 [[= -> ->]|?]%elem_of_cons; eauto.
Qed.

(** No name is a proper extension of a name tested before it. *)
Definition names_ordered : bool :=
  forallb (λ ij, let '(i, j) := ij in
      match command_table !! i, command_table !! j with
      | Some (c, _), Some (c', _) =>
          negb (i <? j)%nat || negb (TEST_CMD c' c)
      | _, _ => true
      end)
    (list_prod (seq 0 (length command_table)) (seq 0 (length command_table))).

Lemma names_are_ordered : names_ordered = true.
Proof. vm_compute. reflexivity. Qed.

(** A name tested later that also matches is a prefix of the one found. *)
Lemma later_name_shorter l1 c o l2 c' o' s :
  command_table = l1 ++ (c, o) :: l2 → (c', o') ∈ l2 →
  TEST_CMD s c = true → TEST_CMD s c' = true → (length c' < length c)%nat.
Proof.
  intros Ht [k Hk]%list_elem_of_lookup Hc Hc'.
  destruct (le_lt_dec (length c) (length c')) as [Hle|]; [|lia]. exfalso.
  assert (TEST_CMD c' c = true) as Hpre.
  { apply TEST_CMD_iff in Hc as [a ->]. apply TEST_CMD_iff in Hc' as [a' Heq].
    apply TEST_CMD_iff. exists (drop (length c) c').
    rewrite <- (take_drop (length c) c') at 1. f_equal.
    apply (f_equal (take (length c))) in Heq. rewrite take_app_length in Heq.
    rewrite take_app_le in Heq by done. done. }
  pose proof names_are_ordered as Ho. unfold names_ordered in Ho.
  rewrite forallb_forall in Ho.
  assert (command_table !! length l1 = Some (c, o)) as H1.
  { rewrite Ht. by apply list_lookup_middle. }
  assert (command_table !! (length l1 + S k)%nat = Some (c', o')) as H2.
  { rewrite Ht, lookup_app_r by lia. replace (length l1 + S k - length l1)%nat with (S k) by lia.
    done. }
  refine (_ (Ho (length l1, (length l1 + S k)%nat) _)).
  - cbv beta iota. rewrite H1, H2, Hpre, (proj2 (Nat.ltb_lt _ _)) by lia. done.
  - apply in_prod; apply in_seq; apply lookup_lt_Some in H1, H2; lia.
Qed.

(** ** Tube names *)

Lemma name_span_all s : (name_span s = length s) ↔ Forall (λ c, c ∈ NAME_CHARS) s.
Proof.
  induction s as [|c s IH]; simpl; [by split|]. unfold is_name_char at 1.
  rewrite Forall_cons. case_bool_decide as Hc.
  - rewrite <- IH. split; [intros [= ?]; done|intros [_ ->]; done].
  - split; [done|tauto].
Qed.

(** ** The properties *)

(** C32: the numbers the server prints are read back: job ids and counts survive
    [printf] followed by [read_u64], whatever blanks precede them. *)
Theorem read_u64_digits en k n rest :
  0 <= n <= UINT64_MAX → no_digit_first rest → (en = true → rest = []) →
  read_u64 en (replicate k " "%char ++ digits n ++ rest) = Some (n, rest).
Proof.
  intros [Hn Hmax] Hr Hen. destruct (digits_spec n Hn) as (Hd & Hne & Hv & _).
  rewrite (read_u64_number en _ (digits n) rest) by (exists k; by split_and!).
  rewrite Hv, (proj2 (Z.ltb_ge _ _)) by done. simpl.
  destruct en; simpl; [|done]. by rewrite bool_decide_eq_true_2 by auto.
Qed.

Lemma read_u64_digits_witness :
  read_u64 true (replicate 2 " "%char ++ digits 18446744073709551615 ++ []) =
    Some (18446744073709551615, []).
Proof.
  apply (read_u64_digits true 2 18446744073709551615 []);
    [unfold UINT64_MAX; lia|intros ?? [=]|done].
Defined.

(** C31: [read_u64] accepts exactly blanks followed by decimal digits whose value
    fits 64 bits, returns that value and the text after the digits, and with a
    NULL [end] accepts no such text. *)
Theorem read_u64_iff en s v rest :
  read_u64 en s = Some (v, rest) ↔
  ∃ ds, number s ds rest ∧ v = value ds ∧ v <= UINT64_MAX ∧ (en = true → rest = []).
Proof.
  split.
  - intros H. destruct (number_or_not s) as [(ds & rest' & Hn)|Hn];
      [|by rewrite (proj1 (read_u64_none en s Hn)) in H].
    rewrite (read_u64_number en s ds rest') in H by done.
    destruct (Z.ltb_spec UINT64_MAX (value ds)); [done|]. simpl in H.
    destruct (en && negb (bool_decide (rest' = []))) eqn:E; [done|].
    simplify_eq. exists ds. split_and!; [done|done|done|]. intros ->. simpl in E.
    by destruct (bool_decide_reflect (rest = [])).
  - intros (ds & Hn & -> & Hv & Hen). rewrite (read_u64_number en s ds rest) by done.
    rewrite (proj2 (Z.ltb_ge _ _)) by done. simpl. destruct en; simpl; [|done].
    by rewrite bool_decide_eq_true_2 by auto.
Qed.

(** C33: a duration is a 32-bit number of seconds, converted to nanoseconds
    without overflow of the 64-bit result. *)
Theorem read_duration_iff en s d rest :
  read_duration en s = Some (d, rest) ↔
  ∃ ds, number s ds rest ∧ d = value ds * 1000000000 ∧ 0 <= d <= INT64_MAX ∧
    value ds <= UINT32_MAX ∧ (en = true → rest = []).
Proof.
  unfold read_duration. split.
  - intros H. destruct (number_or_not s) as [(ds & rest' & Hn)|Hn];
      [|by rewrite (proj2 (read_u64_none en s Hn)) in H].
    rewrite (read_u32_number en s ds rest') in H by done.
    destruct (Z.ltb_spec UINT32_MAX (value ds)); [done|]. simpl in H.
    destruct (en && negb (bool_decide (rest' = []))) eqn:E; [done|].
    simpl in H. simplify_eq.
    assert (0 <= value ds) by (destruct Hn as (k & _ & ? & _); by apply value_nonneg).
    exists ds. unfold UINT32_MAX, INT64_MAX in *. split_and!; [done|done|lia|lia|lia|].
    intros ->. simpl in E. by destruct (bool_decide_reflect (rest = [])).
  - intros (ds & Hn & -> & _ & Hv & Hen). rewrite (read_u32_number en s ds rest) by done.
    rewrite (proj2 (Z.ltb_ge _ _)) by done. simpl. destruct en; simpl; [|done].
    by rewrite bool_decide_eq_true_2 by auto.
Qed.

(** C34: [scan_line_end] returns the length of the line ending in CR LF at the
    first CR of the buffer, and 0 when the first CR does not end a line. *)
Theorem scan_line_end_iff s size n :
  (1 <= size <= length s)%nat →
  (scan_line_end s size = n ∧ n ≠ 0%nat ↔ is_line s size n).
Proof.
  intros Hsz. unfold scan_line_end, is_line. split.
  - intros [Heq Hn]. destruct (memchr s CR (size - 1)) as [i|] eqn:Hm; [|congruence].
    apply memchr_Some in Hm as (Hi & Hcr & Hk). case_decide as Hlf; [|congruence]. subst n.
    replace (i + 2 - 2)%nat with i by lia. replace (i + 2 - 1)%nat with (S i) by lia.
    split_and!; [lia|lia|done|done|done].
  - intros (Hn & Hcr & Hlf & Hk).
    assert (memchr s CR (size - 1) = Some (n - 2)%nat) as ->.
    { apply memchr_Some. split_and!; [lia|done|done]. }
    replace (S (n - 2)) with (n - 1)%nat by lia. rewrite decide_True by done. lia.
Qed.

Lemma scan_line_end_iff_witness :
  scan_line_end (bs "quit" ++ crlf ++ bs "rest") 10 = 6%nat ∧ 6%nat ≠ 0%nat ↔
  is_line (bs "quit" ++ crlf ++ bs "rest") 10 6.
Proof. apply (scan_line_end_iff (bs "quit" ++ crlf ++ bs "rest") 10 6). simpl. lia. Defined.

(** C35: [which_cmd] answers with the longest command name that starts the line:
    testing prefixes in the order of the code never mistakes a command for a
    shorter one. *)
Theorem which_cmd_longest s o :
  which_cmd s = o →
  (o = OP_UNKNOWN ∧ ∀ c o', (c, o') ∈ command_table → ¬ ∃ args, s = c ++ args) ∨
  ∃ c args, (c, o) ∈ command_table ∧ s = c ++ args ∧
    ∀ c' o', (c', o') ∈ command_table → (∃ args', s = c' ++ args') →
      (c', o') = (c, o) ∨ (length c' < length c)%nat.
Proof.
  intros [[-> Hn]|(l1 & c & l2 & Ht & Hc & Hl1)]%which_cmd_loop_In; [left|right].
  - split; [done|]. intros c o' Hin. rewrite <- TEST_CMD_iff. by rewrite (Hn c o').
  - pose proof (proj1 (TEST_CMD_iff _ _) Hc) as [args Hs]. exists c, args.
    split_and!; [rewrite Ht; set_solver|done|]. intros c' o' Hin Hc'%TEST_CMD_iff.
    rewrite Ht in Hin. apply elem_of_app in Hin as [Hin|[Heq|Hin]%elem_of_cons].
    + by rewrite (Hl1 c' o' Hin) in Hc'.
    + by left.
    + right. by eapply later_name_shorter.
Qed.

Lemma which_cmd_longest_witness :
  (OP_STATSJOB = OP_UNKNOWN ∧ ∀ c o', (c, o') ∈ command_table → ¬ ∃ args, bs "stats-job 7" = c ++ args) ∨
  ∃ c args, (c, OP_STATSJOB) ∈ command_table ∧ bs "stats-job 7" = c ++ args ∧
    ∀ c' o', (c', o') ∈ command_table → (∃ args', bs "stats-job 7" = c' ++ args') →
      (c', o') = (c, OP_STATSJOB) ∨ (length c' < length c)%nat.
Proof. apply (which_cmd_longest (bs "stats-job 7") OP_STATSJOB). vm_compute. reflexivity. Defined.

(** C36: a tube name is valid when it has 1 to [max] bytes, all of them name
    characters, and does not start with a hyphen. *)
Theorem is_valid_tube_iff name max :
  is_valid_tube name max = true ↔
  (0 < length name <= max)%nat ∧ Forall (λ c, c ∈ NAME_CHARS) name ∧
    head name ≠ Some "-"%char.
Proof.
  unfold is_valid_tube. cbv zeta.
  rewrite !andb_true_iff, Nat.ltb_lt, Nat.leb_le, Nat.eqb_eq, name_span_all.
  rewrite negb_true_iff, bool_decide_eq_false. tauto.
Qed.
