(* ===== verification/OptionsSpec.v ===== *)
(** Properties of the command line: every way to write the options is parsed
    alike, parsing ends, and the settings stay in their range. *)
From S2P Require Import Prelude State Monad Conn Queue Parse ParseSpec Options.
#[local] Open Scope Z_scope.

(** What is left of [argv] after a string of flags is shorter. *)
Lemma optparse_flags_length arg argv o o' argv' :
  optparse_flags arg argv o = inr (o', argv') → (length argv' <= length argv)%nat.
Proof.
  revert o. induction arg as [|c arg IH]; simpl; intros o; [by intros [= <- <-]|].
  destruct (arg_flag c) as [f|].
  - destruct arg, argv; simpl; try done; destruct (f _ o) as [|o1]; simpl; try done; intros [= <- <-]; simpl; lia.
  - destruct (plain_flag c o) as [|o1]; simpl; [done|apply IH].
Qed.

(** The result does not depend on the fuel. *)
Lemma optparse_loop_fuel n1 n2 argv o :
  (length argv <= n1)%nat → (length argv <= n2)%nat → optparse_loop n1 argv o = optparse_loop n2 argv o.
Proof.
  revert n2 argv o. induction n1 as [|n1 IH]; intros [|n2] [|a argv] o; cbn [length]; try (done || lia).
  intros H1 H2. destruct a as [|[[] [] [] [] [] [] [] []] [|c arg]]; try done. cbn [optparse_loop].
  destruct (optparse_flags (c :: arg) argv o) as [|[o' argv']] eqn:Hf; [done|].
  apply optparse_flags_length in Hf. apply IH; lia.
Qed.

Lemma optparse_cons c arg argv o :
  optparse (("-"%char :: c :: arg) :: argv) o =
  '(o, argv) ← optparse_flags (c :: arg) argv o; optparse argv o.
Proof.
  unfold optparse. cbn [length optparse_loop].
  destruct (optparse_flags (c :: arg) argv o) as [|[o' argv']] eqn:Hf; [done|].
  apply optparse_flags_length in Hf. cbn -[optparse_loop]. apply optparse_loop_fuel; lia.
Qed.

(** C27: the argument of a flag may follow it in the same string or be the next
    string, and flags without an argument may be grouped: the outcome is the
    same. *)
Theorem optparse_spellings c x y argv o :
  optparse (("-"%char :: c :: x :: y) :: argv) o =
  match arg_flag c with
  | Some _ => optparse (["-"%char; c] :: (x :: y) :: argv) o
  | None => optparse (["-"%char; c] :: ("-"%char :: x :: y) :: argv) o
  end.
Proof.
  rewrite !optparse_cons. destruct (arg_flag c) as [f|] eqn:Hc; cbn [optparse_flags]; rewrite Hc; simpl.
  - by destruct (f (x :: y) o).
  - destruct (plain_flag c o) as [|o1]; [done|]. symmetry. apply optparse_cons.
Qed.

(** ** The ranges of the settings *)

Record opt_ranges (o : Options) : Prop := {
  or_limit : 0 <= o_job_data_size_limit o <= JOB_DATA_SIZE_LIMIT_MAX;
  or_filesize : - 2 ^ 31 <= o_filesize o < 2 ^ 31;
  or_syncrate : - 2 ^ 63 <= o_syncrate o < 2 ^ 63;
}.

Lemma srv_ranges : opt_ranges srv.
Proof. by split. Qed.

Lemma scan_digits_nonneg s v : 0 <= v → 0 <= (scan_digits s v).1.
Proof.
  revert v. induction s as [|c s IH]; simpl; intros v Hv; [done|].
  destruct (is_digit c) eqn:Hc; [|done]. apply is_digit_code in Hc. apply IH. lia.
Qed.

Lemma strtoul_range s : 0 <= (strtoul s).1.1 <= UINT64_MAX.
Proof.
  unfold strtoul. destruct (match drop_while is_space s with [] => _ | _ => _ end) as [neg s2].
  destruct s2 as [|c s2]; [done|]. destruct (is_digit c); [|done].
  pose proof (scan_digits_nonneg (c :: s2) 0 ltac:(lia)) as Hv.
  destruct (scan_digits (c :: s2) 0) as [v rest]. simpl in *.
  destruct (UINT64_MAX <? v) eqn:Hm; simpl; [done|]. destruct neg; [|lia].
  unfold wrap_u64, UINT64_MAX. pose proof (Z.mod_pos_bound (- v) 18446744073709551616). lia.
Qed.

(** The ways to end early: after -h or -v, on an error, or by an overflow. *)
Definition ends (r : stop) : Prop := r = Exit 0 ∨ r = Exit 5 ∨ r = Undefined.
Definition parsed {A} (good : A → Prop) (m : P A) : Prop :=
  match m with inr a => good a | inl r => ends r end.

Lemma parsed_bind {A B} (good : A → Prop) (good' : B → Prop) (m : P A) (k : A → P B) :
  parsed good m → (∀ a, good a → parsed good' (k a)) → parsed good' (m ≫= k).
Proof. destruct m; simpl; auto. Qed.

Lemma parse_size_t_parsed s : parsed (λ n, 0 <= n <= UINT64_MAX) (parse_size_t s).
Proof.
  unfold parse_size_t. pose proof (strtoul_range s) as Hr. destruct (strtoul s) as [[v rest] e].
  destruct (_ || _); simpl; [right; by left|done].
Qed.

Lemma arg_flag_parsed c f a o :
  arg_flag c = Some f → opt_ranges o → parsed opt_ranges (f a o).
Proof.
  intros Hf [H1 H2 H3]. destruct c as [[] [] [] [] [] [] [] []]; try done; injection Hf as <-;
    try (by split); eapply parsed_bind; try apply parse_size_t_parsed; intros n [Hn Hn'].
  - (* s *) split; try done. cbn.
    unfold wrap_i32.
    pose proof (Z.mod_pos_bound n 4294967296). destruct (_ <? _) eqn:?; lia.
  - (* f *) cbv zeta. destruct (_ || _) eqn:Ho; [right; by right|]. split; try done. cbn.
    change (2 ^ 63) with (INT64_MAX + 1). apply orb_false_iff in Ho as []. lia.
  - (* z *) split; try done. cbn. destruct (JOB_DATA_SIZE_LIMIT_MAX <? n) eqn:?; [done|lia].
Qed.

Lemma plain_flag_parsed c o : opt_ranges o → parsed opt_ranges (plain_flag c o).
Proof.
  intros [H1 H2 H3]. destruct c as [[] [] [] [] [] [] [] []]; try (right; by left); try (by left); by split.
Qed.

Lemma optparse_flags_parsed arg argv o :
  opt_ranges o → parsed (λ x, opt_ranges x.1) (optparse_flags arg argv o).
Proof.
  revert o. induction arg as [|c arg IH]; simpl; intros o Ho; [done|].
  destruct (arg_flag c) as [f|] eqn:Hf.
  - assert (∀ x, parsed (λ x, opt_ranges x.1)
      ('(a, argv) ← inr x; o ← f a o; mret (o, argv) : P (Options * list bytes))) as Hk.
    { intros [a argv']. cbn. eapply parsed_bind; [by eapply arg_flag_parsed|done]. }
    destruct arg; [destruct argv; [right; by left|]|]; apply (Hk (_, _)).
  - eapply parsed_bind; [by apply plain_flag_parsed|done].
Qed.

(** C28: reading the options ends on every command line: with a status of 0 or 5,
    by the overflow of -f, or with settings in the ranges of their types, where
    the size limit of jobs is at most its maximum. *)
Theorem optparse_parsed argv : parsed opt_ranges (optparse argv srv).
Proof.
  generalize srv srv_ranges. unfold optparse. generalize (Nat.le_refl (length argv)).
  generalize (length argv) at 2 3 as n. intros n. revert argv.
  induction n as [|n IH]; intros [|a argv] Hn o Ho; simpl in *; try (done || lia).
  destruct a as [|[[] [] [] [] [] [] [] []] [|c arg]]; try (right; by left).
  pose proof (optparse_flags_parsed (c :: arg) argv o Ho) as Hp.
  destruct (optparse_flags (c :: arg) argv o) as [r|[o' argv']] eqn:Hf; [done|].
  apply optparse_flags_length in Hf. apply IH; [lia|done].
Qed.

(** ** Command lines *)

Example typical :
  optparse [bs "-Vz"; bs "100"; bs "-l0.0.0.0"; bs "-b"; bs "/var/log"; bs "-f0"] srv =
  inr (srv <| o_verbose := 1 |> <| o_job_data_size_limit := 100 |> <| o_addr := Some (bs "0.0.0.0") |>
         <| o_dir := Some (bs "/var/log") |> <| o_use := true |> <| o_syncrate := 0 |>).
Proof. reflexivity. Qed.

(** The size of the log files is truncated to an [int] without a warning, the
    number of milliseconds is multiplied without a check, and a negative size is
    a large one. *)
Example sizes_not_checked :
  optparse [bs "-s"; bs "4294967296"] srv = inr (srv <| o_filesize := 0 |>) ∧
  optparse [bs "-f"; bs "9223372036855"] srv = inl Undefined ∧
  optparse [bs "-z"; bs "-1"] srv =
    inr (srv <| o_job_data_size_limit := JOB_DATA_SIZE_LIMIT_MAX |>).
Proof. by split_and!. Qed.
