(* ===== verification/Sockets.v ===== *)
(** The listening socket: [net.c].

    [Kernel] is what the calls change: the sockets that the process has open and
    the files that may be in the way of a local socket.  Which calls fail is
    given by [Sys]; the addresses printed in verbose mode are left out. *)
From S2P Require Import Prelude State Monad Conn Queue Parse.

Record Sock := mkSock { sk_nonblocking : bool; sk_bound : bool; sk_listening : bool }.
#[export] Instance Sock_settable : Settable Sock :=
  fun r => mkSock (sk_nonblocking r) (sk_bound r) (sk_listening r).
#[export] Instance set_sk_nonblocking : Setter sk_nonblocking := ltac:(solve_setter).
#[export] Instance set_sk_bound : Setter sk_bound := ltac:(solve_setter).
#[export] Instance set_sk_listening : Setter sk_listening := ltac:(solve_setter).

(** A file is a socket or another file. *)
Record Kernel := mkKernel {
  k_fds : gmap nat Sock;
  k_files : gmap bytes bool;
  k_calls : nat;
}.
#[export] Instance Kernel_settable : Settable Kernel :=
  fun r => mkKernel (k_fds r) (k_files r) (k_calls r).
#[export] Instance set_k_fds : Setter k_fds := ltac:(solve_setter).
#[export] Instance set_k_files : Setter k_files := ltac:(solve_setter).
#[export] Instance set_k_calls : Setter k_calls := ltac:(solve_setter).

Inductive family := AF_INET | AF_INET6 | AF_OTHER.
#[export] Instance family_eq_dec : EqDecision family.
Proof. solve_decision. Defined.

Class Sys := {
  (** the [n]-th call does not fail *)
  sys_ok : nat → bool;
  (** a descriptor for the new socket, if it is free *)
  sys_fd : nat → nat;
  sys_getaddrinfo : option bytes → bytes → option (list family);
  (** with libsystemd: the results of [sd_listen_fds], [sd_is_socket_inet] and
      [sd_is_socket_unix] *)
  sys_systemd : option (Z * Z * Z);
}.

(** ** Calls *)

Definition K (A : Type) : Type := Kernel → A * Kernel.
#[export] Instance K_ret : MRet K := fun A a k => (a, k).
#[export] Instance K_bind : MBind K := fun A B f m k => let '(a, k) := m k in f a k.

Section operations.
Context {Y : Sys}.

(** A call that fails or has the effect [f]. *)
Definition call (f : Kernel → Kernel) : K bool := fun k =>
  let k' := k <| k_calls ::= S |> in
  if sys_ok (k_calls k) then (true, f k') else (false, k').

Definition on_fd (fd : nat) (f : Sock → Sock) (k : Kernel) : Kernel :=
  k <| k_fds ::= alter f fd |>.

(** [None] is the result -1. *)
Definition socket : K (option nat) := fun k =>
  let hint := sys_fd (k_calls k) in
  let fd := if decide (k_fds k !! hint = None) then hint else fresh (dom (k_fds k)) in
  let '(r, k) := call (fun k => k <| k_fds ::= <[fd := mkSock false false false]> |>) k in
  (if r then Some fd else None, k).

Definition close (fd : nat) : K unit := fun k => (tt, k <| k_fds ::= delete fd |>).
Definition setsockopt (fd : nat) : K bool := call id.
Definition bind_inet (fd : nat) : K bool := call (on_fd fd (fun k => k <| sk_bound := true |>)).
Definition listen (fd : nat) : K bool := call (on_fd fd (fun k => k <| sk_listening := true |>)).

(** [bind] to a path creates the socket, and fails when there is a file. *)
Definition bind_unix (fd : nat) (path : bytes) : K bool := fun k =>
  if decide (k_files k !! path = None) then
    call (fun k => on_fd fd (fun s => s <| sk_bound := true |>) (k <| k_files ::= <[path := true]> |>)) k
  else (false, k).

(** [stat] succeeds: whether the file is a socket. *)
Definition stat (path : bytes) : K (option bool) := fun k =>
  let '(r, k) := call id k in (if r then k_files k !! path else None, k).
Definition unlink (path : bytes) : K bool := call (fun k => k <| k_files ::= delete path |>).

(** ** net.c *)

Definition set_nonblocking (fd : nat) : K bool :=
  r ← call id;
  if negb r then mret false
  else call (on_fd fd (fun k => k <| sk_nonblocking := true |>)).

(** Calls that must all succeed, or else [fd] is closed. *)
Fixpoint or_close (fd : nat) (l : list (K bool)) : K (option nat) :=
  match l with
  | [] => mret (Some fd)
  | m :: l => r ← m; if r : bool then or_close fd l else close fd;; mret None
  end.

(** The body of the loop: SO_REUSEADDR, SO_KEEPALIVE, SO_LINGER, TCP_NODELAY, and
    IPV6_V6ONLY. *)
Definition try_address (host : option bytes) (ai : family) : K (option nat) :=
  fd ← socket;
  match fd with
  | None => mret None
  | Some fd =>
      or_close fd
        ([set_nonblocking fd; setsockopt fd; setsockopt fd; setsockopt fd; setsockopt fd]
         ++ (if decide (host = None ∧ ai = AF_INET6) then [setsockopt fd] else [])
         ++ [bind_inet fd; listen fd])
  end.

Fixpoint try_addresses (host : option bytes) (l : list family) : K (option nat) :=
  match l with
  | [] => mret None
  | ai :: l =>
      fd ← try_address host ai;
      match fd with Some fd => mret (Some fd) | None => try_addresses host l end
  end.

Definition make_inet_socket (host : option bytes) (port : bytes) : K (option nat) :=
  match sys_getaddrinfo host port with
  | None => mret None
  | Some l => try_addresses host l
  end.

(** [sizeof(addr.sun_path) - 1] *)
Definition sun_path_max : nat := 107.

Definition make_unix_socket (path : bytes) : K (option nat) :=
  if (sun_path_max <? length path)%nat then mret None
  else
    st ← stat path;
    free ← (match st with
            | None => mret true
            | Some true => unlink path
            | Some false => mret false
            end);
    if negb free then mret None
    else
      fd ← socket;
      match fd with
      | None => mret None
      | Some fd => or_close fd [set_nonblocking fd; bind_unix fd path; listen fd]
      end.

Definition SD_LISTEN_FDS_START : nat := 3.

Definition make_server_socket (host : option bytes) (port : bytes) : K (option nat) :=
  let make :=
    match host with
    | Some h => if bool_decide (take 5 h = bs "unix:") then make_unix_socket (drop 5 h)
                else make_inet_socket host port
    | None => make_inet_socket host port
    end in
  match sys_systemd with
  | None => make
  | Some (n, inet, unix) =>
      if (n <? 0)%Z then mret None
      else if (0 <? n)%Z then
        if (inet <? 0)%Z then mret None
        else if (inet =? 0)%Z then
          if (unix <=? 0)%Z then mret None else mret (Some SD_LISTEN_FDS_START)
        else mret (Some SD_LISTEN_FDS_START)
      else make
  end.

End operations.

(** ** Properties *)

(** No file that is not a socket is gone. *)
Definition files_kept (k k' : Kernel) : Prop :=
  ∀ p, k_files k !! p = Some false → k_files k' !! p = Some false.

(** The outcome of a call that makes a listening socket: a new descriptor, the
    only new one, or none. *)
Definition listens (k : Kernel) (x : option nat * Kernel) : Prop :=
  match x.1 with
  | Some fd => k_fds k !! fd = None ∧ k_fds x.2 = <[fd := mkSock true true true]> (k_fds k)
  | None => k_fds x.2 = k_fds k
  end ∧ files_kept k x.2.

Section properties.
Context {Y : Sys}.
#[local] Hint Extern 0 (files_kept _ _) => intros ? Hq; exact Hq : core.

(** A call that applies [f] to the socket [fd], or fails. *)
Definition sets (fd : nat) (f : Sock → Sock) (m : K bool) : Prop :=
  ∀ t s k, k_fds k = <[fd := s]> t → ∃ s',
    k_fds (m k).2 = <[fd := s']> t ∧ ((m k).1 = true → s' = f s) ∧ files_kept k (m k).2.

Lemma sets_call fd f g :
  (∀ t s k, k_fds k = <[fd := s]> t → k_fds (g k) = <[fd := f s]> t ∧ files_kept k (g k)) →
  sets fd f (call g).
Proof.
  intros Hg t s k Hk. unfold call. destruct (sys_ok (k_calls k)); [|by exists s].
  
  match goal with |- context [g ?x] => destruct (Hg t s x Hk) as [H1 H2] end.
  exists (f s). split_and!; [exact H1|done|exact H2].
Qed.
Lemma sets_on_fd fd f : sets fd f (call (on_fd fd f)).
Proof. apply sets_call. intros t s k Hk. split; [|done]. cbn. by rewrite Hk, alter_insert_eq. Qed.
Lemma sets_id fd : sets fd id (call id).
Proof. by apply sets_call. Qed.
Lemma sets_set_nonblocking fd : sets fd (λ s, s <| sk_nonblocking := true |>) (set_nonblocking fd).
Proof.
  intros t s k Hk. unfold set_nonblocking, mbind, K_bind.
  destruct (sets_id fd t s k Hk) as (s1 & H1 & H2 & H3). destruct (call id k) as [[] k1]; simpl in *; [|by exists s1].
  rewrite H2 in H1 by done. destruct (sets_on_fd fd (λ s, s <| sk_nonblocking := true |>) t s k1 H1) as (s2 & H4 & H5 & H6).
  exists s2. split_and!; [done|done|]. intros p Hp. by apply H6, H3.
Qed.
Lemma sets_bind_unix fd path : sets fd (λ s, s <| sk_bound := true |>) (bind_unix fd path).
Proof.
  intros t s k Hk. unfold bind_unix. case_decide as Hp; [|by exists s].
  unfold call. destruct (sys_ok _); [|by exists s]. exists (s <| sk_bound := true |>). split_and!.
  - cbn. by rewrite Hk, alter_insert_eq.
  - done.
  - intros q Hq. cbn. rewrite lookup_insert_ne; [done|]. by intros ->; rewrite Hq in Hp.
Qed.

(** Calls that must all succeed leave nothing behind when one fails. *)
Lemma or_close_spec fd fs l t s k :
  Forall2 (sets fd) fs l → t !! fd = None → k_fds k = <[fd := s]> t →
  let x := or_close fd l k in
  match x.1 with
  | Some fd' => fd' = fd ∧ k_fds x.2 = <[fd := foldl (λ s f, f s) s fs]> t
  | None => k_fds x.2 = t
  end ∧ files_kept k x.2.
Proof.
  intros Hl Ht. revert s k. induction Hl as [|f m fs l Hm Hl IH]; intros s k Hk; [done|].
  cbn [or_close]. unfold mbind, K_bind. destruct (Hm t s k Hk) as (s' & H1 & H2 & H3).
  destruct (m k) as [[] k1]; simpl in *.
  - rewrite H2 in H1 by done. destruct (IH _ _ H1) as [H4 H5]. split; [done|]. intros p Hp. by apply H5, H3.
  - split; [|done]. rewrite H1. by rewrite delete_insert_id.
Qed.

(** A new socket on which such calls are made. *)
Lemma listens_socket (fs : nat → list (Sock → Sock)) l k :
  (∀ fd, Forall2 (sets fd) (fs fd) (l fd)) →
  (∀ fd, foldl (λ s f, f s) (mkSock false false false) (fs fd) = mkSock true true true) →
  listens k ((fd ← socket;
              match fd with None => mret None | Some fd => or_close fd (l fd) end) k).
Proof.
  intros Hl Hfs. unfold socket, mbind, K_bind, call. set (fd := if decide _ then _ else _).
  assert (k_fds k !! fd = None) as Hfd.
  { subst fd. case_decide; [done|]. apply not_elem_of_dom, is_fresh. }
  destruct (sys_ok (k_calls k)); cbn -[or_close]; [|by split].
  match goal with |- context [or_close _ _ ?k1] =>
    destruct (or_close_spec fd (fs fd) (l fd) (k_fds k) (mkSock false false false) k1 (Hl fd) Hfd eq_refl) as [H1 H2] end.
  split; [|exact H2]. destruct (or_close _ _ _) as [[fd'|] k']; simpl in *; [|done].
  destruct H1 as [-> H1]. by rewrite Hfs in H1.
Qed.

Lemma try_address_listens host ai k : listens k (try_address host ai k).
Proof.
  apply (listens_socket (λ fd, [λ s, s <| sk_nonblocking := true |>; id; id; id; id]
    ++ (if decide (host = None ∧ ai = AF_INET6) then [id] else [])
    ++ [λ s, s <| sk_bound := true |>; λ s, s <| sk_listening := true |>])); intros fd.
  - repeat apply Forall2_app; [| |].
    + repeat constructor; first [apply sets_set_nonblocking|apply sets_id].
    + case_decide; repeat constructor. apply sets_id.
    + repeat constructor; apply sets_on_fd.
  - by case_decide.
Qed.

Lemma listens_trans k r k1 x :
  listens k (r, k1) → r = None → listens k1 x → listens k x.
Proof.
  intros [H1 H2] -> [H3 H4]. simpl in *. split; [by rewrite <- H1|]. intros p Hp. by apply H4, H2.
Qed.

Lemma make_inet_socket_listens host port k : listens k (make_inet_socket host port k).
Proof.
  unfold make_inet_socket. destruct (sys_getaddrinfo host port) as [l|]; [|done].
  revert k. induction l as [|ai l IH]; intros k; [done|]. cbn [try_addresses]. unfold mbind, K_bind.
  pose proof (try_address_listens host ai k) as H. destruct (try_address host ai k) as [[fd|] k1]; [done|].
  by eapply listens_trans.
Qed.

Lemma make_unix_socket_listens path k : listens k (make_unix_socket path k).
Proof.
  unfold make_unix_socket. destruct (_ <? _)%nat; [done|].
  set (m := fd ← socket; _). assert (∀ k, listens k (m k)) as Hm.
  { intros k'. apply (listens_socket (λ fd, [λ s, s <| sk_nonblocking := true |>;
      λ s, s <| sk_bound := true |>; λ s, s <| sk_listening := true |>])); [|done].
    intros fd. repeat constructor; [apply sets_set_nonblocking|apply sets_bind_unix|apply sets_on_fd]. }
  assert (∀ k1, k_fds k1 = k_fds k → files_kept k k1 → listens k (m k1)) as Hk.
  { intros k1 H1 H2. apply (listens_trans k None k1); [by split|done|apply Hm]. }
  unfold mbind, K_bind at 1, stat, call. destruct (sys_ok (k_calls k)); cbn -[m]; [|by apply Hk].
  destruct (k_files k !! path) as [[]|] eqn:Hp; cbn -[m]; [|done|by apply Hk].
  unfold K_bind, unlink, call. cbn -[m].
  match goal with |- context [sys_ok ?n] => destruct (sys_ok n) end; cbn -[m]; [|done].
  apply Hk; [done|]. intros q Hq. cbn. rewrite lookup_delete_ne; [done|]. intros ->. congruence.
Qed.

(** A listening descriptor is inherited. *)
Definition inherited : bool :=
  match sys_systemd with Some (n, _, _) => (0 <? n)%Z | None => false end.

(** C29: [make_server_socket] returns a new descriptor that is bound, listens and
    does not block, and every other descriptor that it made is closed; when it
    fails none is left open; no file that is not a socket is removed.  A
    descriptor that is inherited is left alone. *)
Theorem make_server_socket_listens host port k :
  let x := make_server_socket host port k in
  if inherited then x.2 = k ∧ x.1 ∈ [None; Some SD_LISTEN_FDS_START] else listens k x.
Proof.
  unfold make_server_socket, inherited. set (make := match host with Some _ => _ | None => _ end).
  assert (listens k (make k)) as Hm.
  { subst make. destruct host as [h|]; [|apply make_inet_socket_listens].
    destruct (bool_decide _); [apply make_unix_socket_listens|apply make_inet_socket_listens]. }
  destruct sys_systemd as [[[n inet] unix]|]; [|done]. simpl.
  destruct (n <? 0)%Z eqn:Hn; [by replace (0 <? n)%Z with false by lia|].
  destruct (0 <? n)%Z; [|done]. repeat case_match; split; done || set_solver.
Qed.
End properties.
