(* ===== verification/Stats.v ===== *)
(** The statistics and list replies of [prot.c]: the YAML documents produced by
    [stats], [stats-job], [stats-tube], [list-tubes] and [list-tubes-watched],
    sent as the body of a fake job in state [Copy]. *)
From S2P Require Import Prelude Heap Ms State Monad JobList JobHash Tube Job Conn Queue Parse.
#[local] Open Scope Z_scope.

(** What the documents say about the process and the machine. *)
Class SysInfo := {
  si_pid : Z;
  si_version : bytes;
  si_instance_hex : bytes;
  si_nodename : bytes;
  si_os_version : bytes;
  si_machine : bytes;
  (** [getrusage]: user and system time, in seconds and microseconds *)
  si_rusage : nat → (Z * Z) * (Z * Z);
}.

(** ** Formatting *)

Definition yline (label : string) (value : bytes) : bytes :=
  bs label ++ bs ": " ++ value ++ [LF].
Definition yquote (value : bytes) : bytes := "034"%char :: value ++ ["034"%char].
Definition yaml (lines : list bytes) : bytes := bs "---" ++ [LF] ++ concat lines ++ crlf.

(** [%06d] *)
Definition digits6 (n : Z) : bytes :=
  let d := digits n in repeat "0"%char (6 - length d) ++ d.
(** [%d] of an argument converted to [int] *)
Definition int_digits (n : Z) : bytes := sdigits (wrap_i32 n).

Section operations.
Context {E : Env} {SI : SysInfo}.

(** [op_ct[type]++] *)
Definition count_op (o : op) : M unit :=
  modify (fun s => s <| op_ct ::= alter incr64 (op_code o) |>).
Definition op_count (o : op) : M Z := gets (fun s => default 0 (op_ct s !! op_code o)).
Definition op_line (label : string) (o : op) : M bytes :=
  n ← op_count o; mret (yline label (digits n)).

Fixpoint mapM_ {A B} (f : A → M B) (l : list A) : M (list B) :=
  match l with
  | [] => mret []
  | x :: l => y ← f x; l ← mapM_ f l; mret (y :: l)
  end.

Definition uptime : M Z :=
  now ← nanoseconds;
  s ← gets id;
  mret (wrap_u32 (Z.quot (now - started_at s) 1000000000)).

Definition file_seq (f : option filep) : M Z :=
  match f with None => mret 0 | Some f => F ← deref st_files f; mret (f_seq F) end.

Definition op_lines : list (string * op) :=
  [ ("cmd-put", OP_PUT); ("cmd-peek", OP_PEEKJOB); ("cmd-peek-ready", OP_PEEK_READY);
    ("cmd-peek-delayed", OP_PEEK_DELAYED); ("cmd-peek-buried", OP_PEEK_BURIED);
    ("cmd-reserve", OP_RESERVE); ("cmd-reserve-with-timeout", OP_RESERVE_TIMEOUT);
    ("cmd-delete", OP_DELETE); ("cmd-release", OP_RELEASE); ("cmd-use", OP_USE);
    ("cmd-watch", OP_WATCH); ("cmd-ignore", OP_IGNORE); ("cmd-bury", OP_BURY);
    ("cmd-kick", OP_KICK); ("cmd-touch", OP_TOUCH); ("cmd-stats", OP_STATS);
    ("cmd-stats-job", OP_STATSJOB); ("cmd-stats-tube", OP_STATS_TUBE);
    ("cmd-list-tubes", OP_LIST_TUBES); ("cmd-list-tube-used", OP_LIST_TUBE_USED);
    ("cmd-list-tubes-watched", OP_LIST_TUBES_WATCHED);
    ("cmd-pause-tube", OP_PAUSE_TUBE) ]%string.

Definition fmt_stats : M bytes :=
  s ← gets id;
  whead ← file_seq (w_head (srv_wal s));
  wcur ← file_seq (w_cur (srv_wal s));
  n ← tick;
  let '((us, uu), (ss, su)) := si_rusage n in
  delayed ← get_delayed_job_ct;
  ops ← mapM_ (fun lo => op_line lo.1 lo.2) op_lines;
  conns ← count_cur_conns;
  producers ← count_cur_producers;
  workers ← count_cur_workers;
  tot ← count_tot_conns;
  up ← uptime;
  let g := global_stat s in
  let w := srv_wal s in
  mret (yaml (
    [ yline "current-jobs-urgent" (digits (urgent_ct g));
      yline "current-jobs-ready" (digits (ready_ct s));
      yline "current-jobs-reserved" (digits (reserved_ct g));
      yline "current-jobs-delayed" (digits delayed);
      yline "current-jobs-buried" (digits (buried_ct g)) ] ++
    ops ++
    [ yline "job-timeouts" (digits (timeout_ct s));
      yline "total-jobs" (digits (total_jobs_ct g));
      yline "max-job-size" (digits (job_data_size_limit s));
      yline "current-tubes" (digits (Z.of_nat (ms_len (tubes s))));
      yline "current-connections" (digits (wrap_u32 conns));
      yline "current-producers" (digits (wrap_u32 producers));
      yline "current-workers" (digits (wrap_u32 workers));
      yline "current-waiting" (digits (waiting_ct g));
      yline "total-connections" (digits (wrap_u32 tot));
      yline "pid" (sdigits si_pid);
      yline "version" (yquote si_version);
      yline "rusage-utime" (int_digits us ++ bs "." ++ digits6 uu);
      yline "rusage-stime" (int_digits ss ++ bs "." ++ digits6 su);
      yline "uptime" (digits up);
      yline "binlog-oldest-index" (int_digits whead);
      yline "binlog-current-index" (int_digits wcur);
      yline "binlog-records-migrated" (sdigits (w_nmig w));
      yline "binlog-records-written" (sdigits (w_nrec w));
      yline "binlog-max-size" (int_digits (w_filesize w));
      yline "draining" (bs (if drain_mode s then "true" else "false"));
      yline "id" si_instance_hex;
      yline "hostname" (yquote si_nodename);
      yline "os" (yquote si_os_version);
      yline "platform" (yquote si_machine) ])).

Definition fmt_job_stats (j : jobp) : M bytes :=
  t ← nanoseconds;
  J ← deref st_jobs j;
  let r := j_r J in
  let time_left := match r_state r with
                   | Reserved | Delayed => Z.quot (r_deadline_at r - t) 1000000000
                   | _ => 0
                   end in
  file ← file_seq (j_file J);
  name ← Wal.tube_name_of j;
  mret (yaml
    [ yline "id" (digits (r_id r));
      yline "tube" (yquote name);
      yline "state" (bs (job_state J));
      yline "pri" (digits (r_pri r));
      yline "age" (sdigits (Z.quot (t - r_created_at r) 1000000000));
      yline "delay" (sdigits (Z.quot (r_delay r) 1000000000));
      yline "ttr" (sdigits (Z.quot (r_ttr r) 1000000000));
      yline "time-left" (sdigits time_left);
      yline "file" (int_digits file);
      yline "reserves" (digits (r_reserve_ct r));
      yline "timeouts" (digits (r_timeout_ct r));
      yline "releases" (digits (r_release_ct r));
      yline "buries" (digits (r_bury_ct r));
      yline "kicks" (digits (r_kick_ct r)) ]).

Definition fmt_stats_tube (t : tubep) : M bytes :=
  T ← deref st_tubes t;
  time_left ← (if 0 <? t_pause T then
                 now ← nanoseconds;
                 mret (wrap_u64 (Z.quot (t_unpause_at T - now) 1000000000))
               else mret 0);
  let st := t_stat T in
  mret (yaml
    [ yline "name" (yquote (t_name T));
      yline "current-jobs-urgent" (digits (urgent_ct st));
      yline "current-jobs-ready" (digits (Z.of_nat (h_len (t_ready T))));
      yline "current-jobs-reserved" (digits (reserved_ct st));
      yline "current-jobs-delayed" (digits (Z.of_nat (h_len (t_delay T))));
      yline "current-jobs-buried" (digits (buried_ct st));
      yline "total-jobs" (digits (total_jobs_ct st));
      yline "current-using" (digits (t_using_ct T));
      yline "current-watching" (digits (t_watching_ct T));
      yline "current-waiting" (digits (waiting_ct st));
      yline "cmd-delete" (digits (total_delete_ct st));
      yline "cmd-pause-tube" (digits (pause_ct st));
      yline "pause" (digits (wrap_u64 (Z.quot (t_pause T) 1000000000)));
      yline "pause-time-left" (sdigits (wrap_i64 time_left)) ]).

(** ** Replies with a body *)

Definition set_out_job (c : connp) (j : option jobp) : M unit :=
  update st_conns c (fun C => C <| c_out_job := j |>).

(** [fmt] is called twice: first to measure, then to write at most
    [stats_len - 1] bytes. *)
Definition do_stats (c : connp) (fmt : M bytes) : M unit :=
  s1 ← fmt;
  let stats_len := Z.of_nat (length s1) + 16 in
  j ← allocate_job stats_len;
  set_out_job c j;;
  match j with
  | None => reply_serr c MSG_OUT_OF_MEMORY
  | Some j =>
      upd_rec j (fun r => r <| r_state := Copy |>);;
      s2 ← fmt;
      let r := Z.of_nat (length s2) in
      update st_jobs j (fun J => J <| j_body := take (Z.to_nat stats_len - 1) s2 |>);;
      upd_rec j (fun rec => rec <| r_body_size := r |>);;
      if stats_len <? r then reply_serr c MSG_INTERNAL_ERROR
      else
        update st_conns c (fun C => C <| c_out_job_sent := 0%nat |>);;
        reply_line c STATE_SEND_JOB (bs "OK " ++ sdigits (r - 2) ++ crlf)
  end.

Definition tube_names (l : list tubep) : M (list bytes) :=
  mapM_ (fun t => T ← deref st_tubes t; mret (t_name T)) l.

Definition list_body (names : list bytes) : bytes :=
  bs "---" ++ [LF] ++ concat (map (fun n => bs "- " ++ n ++ [LF]) names) ++ crlf.
Definition list_resp_z (names : list bytes) : Z :=
  6 + foldr (fun n acc => 3 + Z.of_nat (length n) + acc) 0 names.

Definition do_list_tubes (c : connp) (l : Ms tubep) : M unit :=
  names ← tube_names (ms_items l);
  let resp_z := list_resp_z names in
  j ← allocate_job resp_z;
  set_out_job c j;;
  match j with
  | None => reply_serr c MSG_OUT_OF_MEMORY
  | Some j =>
      upd_rec j (fun r => r <| r_state := Copy |>);;
      update st_jobs j (fun J => J <| j_body := list_body names |>);;
      update st_conns c (fun C => C <| c_out_job_sent := 0%nat |>);;
      reply_line c STATE_SEND_JOB (bs "OK " ++ digits (resp_z - 2) ++ crlf)
  end.
End operations.
