(* ===== verification/Dispatch.v ===== *)
(** The command interpreter of [prot.c]: [dispatch_cmd], one definition per
    command, and the handling of the body of a [put]. *)
From S2P Require Import Prelude Heap Ms State Monad JobList JobHash Tube Job Wal Conn Queue Parse Stats.
#[local] Open Scope Z_scope.

Section operations.
Context {E : Env} {SI : SysInfo}.

Definition upd_conn (c : connp) (f : Conn → Conn) : M unit := update st_conns c f.

(** ** The body of a job *)

(** Copy up to [body_size] bytes after the command into the job, or throw
    them away in bit-bucket mode, and move the rest to the front of the
    command buffer. *)
Definition fill_extra_data (c : connp) : M unit :=
  C ← deref st_conns c;
  if c_fd C =? 0 then mret tt
  else if (c_cmd_len C =? 0)%nat then mret tt
  else
    let extra_bytes := Z.of_nat (c_cmd_read C) - Z.of_nat (c_cmd_len C) in
    let extra := drop (c_cmd_len C) (c_cmd C) in
    job_data_bytes ←
      (match c_in_job C with
       | Some j =>
           J ← deref st_jobs j;
           let n := Z.min extra_bytes (r_body_size (j_r J)) in
           (if j_cap J <? n then ub else mret tt);;
           update st_jobs j (fun J => J <| j_body := take (Z.to_nat n) extra |>);;
           upd_conn c (fun C => C <| c_in_job_read := n |>);;
           mret n
       | None =>
           if negb (c_in_job_read C =? 0) then
             let n := Z.min extra_bytes (c_in_job_read C) in
             upd_conn c (fun C => C <| c_in_job_read ::= fun r => r - n |>);;
             mret n
           else mret 0
       end);
    let cmd_bytes := Z.to_nat (extra_bytes - job_data_bytes) in
    upd_conn c (fun C =>
      C <| c_cmd := take cmd_bytes (drop (Z.to_nat job_data_bytes) extra)
                      ++ drop cmd_bytes (c_cmd C) |>
        <| c_cmd_read := cmd_bytes |>
        <| c_cmd_len := 0%nat |>).

Definition _skip (c : connp) (n : Z) (m : bytes) : M unit :=
  upd_conn c (fun C => C <| c_in_job := None |> <| c_in_job_read := n |>);;
  fill_extra_data c;;
  C ← deref st_conns c;
  if c_in_job_read C =? 0 then reply (Some c) m (length m) STATE_SEND_WORD
  else
    upd_conn c (fun C =>
      C <| c_reply := m |> <| c_reply_len := length m |> <| c_reply_sent := 0%nat |>
        <| c_state := STATE_BITBUCKET |>).

Definition enqueue_incoming_job (c : connp) : M unit :=
  C ← deref st_conns c;
  j ← nonnull (c_in_job C);
  upd_conn c (fun C => C <| c_in_job := None |> <| c_in_job_read := 0 |>);;
  J ← deref st_jobs j;
  s ← gets id;
  if negb (bool_decide
             (take 2 (drop (Z.to_nat (r_body_size (j_r J) - 2)) (j_body J)) = crlf)) then
    job_free (Some j);; reply_msg c MSG_EXPECTED_CRLF
  else if drain_mode s then
    job_free (Some j);; reply_serr c MSG_DRAINING
  else if negb (j_walresv J =? 0) then reply_serr c MSG_INTERNAL_ERROR
  else
    z ← walresvput j;
    update st_jobs j (fun J => J <| j_walresv := z |>);;
    if z =? 0 then reply_serr c MSG_OUT_OF_MEMORY
    else
      r ← enqueue_job j (r_delay (j_r J)) true;
      upd_global_stat (fun st => st <| total_jobs_ct ::= incr64 |>);;
      t ← tube_of j;
      upd_tube_stat t (fun st => st <| total_jobs_ct ::= incr64 |>);;
      if r : bool then
        reply_line c STATE_SEND_WORD (bs "INSERTED " ++ digits (r_id (j_r J)) ++ crlf)
      else
        bury_job j false;;
        reply_line c STATE_SEND_WORD (bs "BURIED " ++ digits (r_id (j_r J)) ++ crlf).

Definition maybe_enqueue_incoming_job (c : connp) : M unit :=
  C ← deref st_conns c;
  j ← nonnull (c_in_job C);
  J ← deref st_jobs j;
  if c_in_job_read C =? r_body_size (j_r J) then enqueue_incoming_job c
  else upd_conn c (fun C => C <| c_state := STATE_WANT_DATA |>).

(** ** Commands that add or take jobs *)

Definition bad_format (c : connp) : M unit := reply_msg c MSG_BAD_FORMAT.
Definition not_found (c : connp) : M unit := reply_msg c MSG_NOTFOUND.

(** [pri delay ttr size] *)
Definition parse_put (args : bytes) : option (Z * Z * Z * Z * bytes) :=
  '(pri, delay_buf) ← read_u32 false args;
  '(delay, ttr_buf) ← read_duration false delay_buf;
  '(ttr, size_buf) ← read_duration false ttr_buf;
  '(body_size, end_buf) ← read_u32 false size_buf;
  Some (pri, delay, ttr, body_size, end_buf).

Definition cmd_put (c : connp) (args : bytes) : M unit :=
  match parse_put args with
  | None => bad_format c
  | Some (pri, delay, ttr, body_size, end_buf) =>
      count_op OP_PUT;;
      s ← gets id;
      if job_data_size_limit s <? body_size then _skip c (body_size + 2) MSG_JOB_TOO_BIG
      else if negb (bool_decide (end_buf = [])) then bad_format c
      else
        connsetproducer c;;
        let ttr := if ttr <? 1000000000 then 1000000000 else ttr in
        C ← deref st_conns c;
        j ← make_job pri delay ttr (body_size + 2) (c_use C);
        upd_conn c (fun C => C <| c_in_job := j |>);;
        match j with
        | None => _skip c (body_size + 2) MSG_OUT_OF_MEMORY
        | Some _ => fill_extra_data c;; maybe_enqueue_incoming_job c
        end
  end.

(** The commands without arguments reject a longer line. *)
Definition no_garbage (c : connp) (o : op) (name : bytes) (k : M unit) : M unit :=
  C ← deref st_conns c;
  if negb (c_cmd_len C =? length name + 2)%nat then bad_format c
  else count_op o;; k.

Definition peek_reply (c : connp) (j : option jobp) : M unit :=
  j ← job_copy j;
  match j with
  | None => not_found c
  | Some j => reply_job c j MSG_FOUND
  end.

Definition use_tube (c : connp) : M tubep := C ← deref st_conns c; nonnull (c_use C).

Definition heap_first (h : Heap jobp) : M (option jobp) :=
  if (h_len h =? 0)%nat then mret None
  else j ← from_option (h_data h !! 0%nat); mret (Some j).

Definition cmd_peek_ready (c : connp) : M unit :=
  no_garbage c OP_PEEK_READY CMD_PEEK_READY
    (t ← use_tube c; T ← deref st_tubes t; j ← heap_first (t_ready T); peek_reply c j).
Definition cmd_peek_delayed (c : connp) : M unit :=
  no_garbage c OP_PEEK_DELAYED CMD_PEEK_DELAYED
    (t ← use_tube c; T ← deref st_tubes t; j ← heap_first (t_delay T); peek_reply c j).
Definition cmd_peek_buried (c : connp) : M unit :=
  no_garbage c OP_PEEK_BURIED CMD_PEEK_BURIED
    (t ← use_tube c;
     b ← buried_job_p t;
     j ← (if b : bool then n ← get_next (NBuried t); j ← job_of_node n; mret (Some j)
          else mret None);
     peek_reply c j).

(** The commands whose only argument is an id. *)
Definition with_id (c : connp) (o : op) (args : bytes) (k : Z → M unit) : M unit :=
  match read_u64 true args with
  | None => bad_format c
  | Some (id, _) => count_op o;; k id
  end.

Definition cmd_peek_job (c : connp) (args : bytes) : M unit :=
  with_id c OP_PEEKJOB args (fun id => j ← job_find id; peek_reply c j).

Definition reserve_common (c : connp) (o : op) (timeout : Z) : M unit :=
  count_op o;;
  connsetworker c;;
  soon ← conndeadlinesoon c;
  deadline ← (if soon : bool then ready ← conn_ready c; mret (negb ready) else mret false);
  if deadline : bool then reply_msg c MSG_DEADLINE_SOON
  else wait_for_job c timeout;; process_queue.

Definition cmd_reserve (c : connp) : M unit :=
  C ← deref st_conns c;
  if negb (c_cmd_len C =? length CMD_RESERVE + 2)%nat then bad_format c
  else reserve_common c OP_RESERVE (-1).

Definition cmd_reserve_timeout (c : connp) (args : bytes) : M unit :=
  match read_u32 false args with
  | None => bad_format c
  | Some (utimeout, _) =>
      if INT32_MAX <? utimeout then bad_format c
      else reserve_common c OP_RESERVE_TIMEOUT utimeout
  end.

Definition cmd_reserve_job (c : connp) (args : bytes) : M unit :=
  with_id c OP_RESERVE_JOB args (fun id =>
    jf ← job_find id;
    match jf with
    | None => not_found c
    | Some j =>
        J ← deref st_jobs j;
        let take_job (r : M (option jobp)) : M unit :=
          r ← r;
          connsetworker c;;
          upd_global_stat (fun st => st <| reserved_ct ::= incr64 |>);;
          j ← nonnull r;
          conn_reserve_job c j;;
          reply_job c j MSG_RESERVED in
        match r_state (j_r J) with
        | Reserved | Invalid => not_found c
        | Ready => take_job (remove_ready_job (Some j))
        | Buried => take_job (remove_buried_job (Some j))
        | Delayed => take_job (remove_delayed_job (Some j))
        | Copy => reply_serr c MSG_INTERNAL_ERROR
        end
    end).

(** ** Commands on one job *)

Definition or_else {A} (m : M (option A)) (o : option A) : M (option A) :=
  match o with Some a => mret (Some a) | None => m end.

Definition cmd_delete (c : connp) (args : bytes) : M unit :=
  with_id c OP_DELETE args (fun id =>
    jf ← job_find id;
    j ← remove_reserved_job c jf;
    j ← or_else (remove_ready_job jf) j;
    j ← or_else (remove_buried_job jf) j;
    j ← or_else (remove_delayed_job jf) j;
    match j with
    | None => not_found c
    | Some j =>
        t ← tube_of j;
        upd_tube_stat t (fun st => st <| total_delete_ct ::= incr64 |>);;
        upd_rec j (fun r => r <| r_state := Invalid |>);;
        r ← walwrite j;
        walmaint;;
        job_free (Some j);;
        if negb r then reply_serr c MSG_INTERNAL_ERROR else reply_msg c MSG_DELETED
    end).

Definition parse_release (args : bytes) : option (Z * Z * Z) :=
  '(id, pri_buf) ← read_u64 false args;
  '(pri, delay_buf) ← read_u32 false pri_buf;
  '(delay, _) ← read_duration true delay_buf;
  Some (id, pri, delay).

Definition cmd_release (c : connp) (args : bytes) : M unit :=
  match parse_release args with
  | None => bad_format c
  | Some (id, pri, delay) =>
      count_op OP_RELEASE;;
      jf ← job_find id;
      j ← remove_reserved_job c jf;
      match j with
      | None => not_found c
      | Some j =>
          ok ← (if negb (delay =? 0) then reserve_update j else mret true);
          if negb ok then reply_serr c MSG_OUT_OF_MEMORY
          else
            upd_rec j (fun r =>
              r <| r_pri := pri |> <| r_delay := delay |> <| r_release_ct ::= incr32 |>);;
            r ← enqueue_job j delay (negb (delay =? 0));
            if r : bool then reply_msg c MSG_RELEASED
            else bury_job j false;; reply_msg c MSG_BURIED
      end
  end.

Definition parse_bury (args : bytes) : option (Z * Z) :=
  '(id, pri_buf) ← read_u64 false args;
  '(pri, _) ← read_u32 true pri_buf;
  Some (id, pri).

Definition cmd_bury (c : connp) (args : bytes) : M unit :=
  match parse_bury args with
  | None => bad_format c
  | Some (id, pri) =>
      count_op OP_BURY;;
      jf ← job_find id;
      j ← remove_reserved_job c jf;
      match j with
      | None => not_found c
      | Some j =>
          upd_rec j (fun r => r <| r_pri := pri |>);;
          r ← bury_job j true;
          if negb r then reply_serr c MSG_INTERNAL_ERROR else reply_msg c MSG_BURIED
      end
  end.

Definition cmd_kick (c : connp) (args : bytes) : M unit :=
  let '(count, end_buf, erange) := strtoul args in
  if bool_decide (end_buf = args) || erange then bad_format c
  else
    count_op OP_KICK;;
    t ← use_tube c;
    i ← kick_jobs t (wrap_u32 count);
    reply_line c STATE_SEND_WORD (bs "KICKED " ++ digits i ++ crlf).

Definition cmd_kick_job (c : connp) (args : bytes) : M unit :=
  with_id c OP_KICKJOB args (fun id =>
    jf ← job_find id;
    match jf with
    | None => not_found c
    | Some j =>
        J ← deref st_jobs j;
        b ← (if decide (r_state (j_r J) = Buried) then kick_buried_job j else mret false);
        b ← (if b : bool then mret true
             else
               J ← deref st_jobs j;
               if decide (r_state (j_r J) = Delayed) then kick_delayed_job j else mret false);
        if b : bool then reply_msg c MSG_KICKED else not_found c
    end).

Definition cmd_touch (c : connp) (args : bytes) : M unit :=
  with_id c OP_TOUCH args (fun id =>
    jf ← job_find id;
    r ← touch_job c jf;
    if r : bool then reply_msg c MSG_TOUCHED else not_found c).

(** ** Statistics *)

Definition cmd_stats (c : connp) : M unit :=
  no_garbage c OP_STATS CMD_STATS (do_stats c fmt_stats).

Definition cmd_stats_job (c : connp) (args : bytes) : M unit :=
  with_id c OP_STATSJOB args (fun id =>
    jf ← job_find id;
    match jf with
    | None => not_found c
    | Some j =>
        J ← deref st_jobs j;
        match j_tube J with
        | None => reply_serr c MSG_INTERNAL_ERROR
        | Some _ => do_stats c (fmt_job_stats j)
        end
    end).

(** The commands whose argument is a tube name. *)
Definition with_name (c : connp) (o : op) (name : bytes) (k : M unit) : M unit :=
  if negb (is_valid_tube name (MAX_TUBE_NAME_LEN - 1)) then bad_format c
  else count_op o;; k.

Definition cmd_stats_tube (c : connp) (name : bytes) : M unit :=
  with_name c OP_STATS_TUBE name
    (s ← gets id;
     t ← tube_find (tubes s) name;
     match t with
     | None => not_found c
     | Some t => do_stats c (fmt_stats_tube t)
     end).

Definition cmd_list_tubes (c : connp) : M unit :=
  no_garbage c OP_LIST_TUBES CMD_LIST_TUBES (s ← gets id; do_list_tubes c (tubes s)).

Definition cmd_list_tube_used (c : connp) : M unit :=
  no_garbage c OP_LIST_TUBE_USED CMD_LIST_TUBE_USED
    (t ← use_tube c; T ← deref st_tubes t;
     reply_line c STATE_SEND_WORD (bs "USING " ++ t_name T ++ crlf)).

Definition cmd_list_tubes_watched (c : connp) : M unit :=
  no_garbage c OP_LIST_TUBES_WATCHED CMD_LIST_TUBES_WATCHED
    (C ← deref st_conns c; do_list_tubes c (c_watch C)).

(** ** Tubes *)

Definition cmd_use (c : connp) (name : bytes) : M unit :=
  with_name c OP_USE name
    (t ← tube_find_or_make name;
     tube_iref t;;
     match t with
     | None => reply_serr c MSG_OUT_OF_MEMORY
     | Some t =>
         use ← use_tube c;
         update st_tubes use (fun T => T <| t_using_ct ::= fun n => wrap_u32 (n - 1) |>);;
         TUBE_ASSIGN (Some use) (upd_conn c (fun C => C <| c_use := Some t |>)) (Some t);;
         tube_dref (Some t);;
         use ← use_tube c;
         update st_tubes use (fun T => T <| t_using_ct ::= incr32 |>);;
         T ← deref st_tubes use;
         reply_line c STATE_SEND_WORD (bs "USING " ++ t_name T ++ crlf)
     end).

Definition watching_reply (c : connp) : M unit :=
  C ← deref st_conns c;
  reply_line c STATE_SEND_WORD
    (bs "WATCHING " ++ digits (Z.of_nat (ms_len (c_watch C))) ++ crlf).

Definition cmd_watch (c : connp) (name : bytes) : M unit :=
  with_name c OP_WATCH name
    (t ← tube_find_or_make name;
     tube_iref t;;
     match t with
     | None => reply_serr c MSG_OUT_OF_MEMORY
     | Some t =>
         C ← deref st_conns c;
         r ← (if ms_contains t (c_watch C) then mret true
              else
                '(r, a) ← ms_append_M t (c_watch C);
                upd_conn c (fun C => C <| c_watch := a |>);;
                (if r : bool then on_watch t else mret tt);;
                mret r);
         tube_dref (Some t);;
         if negb r then reply_serr c MSG_OUT_OF_MEMORY else watching_reply c
     end).

Definition cmd_ignore (c : connp) (name : bytes) : M unit :=
  with_name c OP_IGNORE name
    (C ← deref st_conns c;
     t ← tube_find (c_watch C) name;
     match t with
     | None => watching_reply c
     | Some t =>
         if (ms_len (c_watch C) <? 2)%nat then reply_msg c MSG_NOT_IGNORED
         else
           (match ms_remove t (c_watch C) with
            | Some (x, a) => upd_conn c (fun C => C <| c_watch := a |>);; on_ignore x
            | None => mret tt
            end);;
           watching_reply c
     end).

Definition cmd_quit (c : connp) : M unit :=
  upd_conn c (fun C => C <| c_state := STATE_CLOSE |>).

(** The name starts at the first non-blank; the delay follows it directly. *)
Definition parse_pause (args : bytes) : option (bytes * Z) :=
  '(name, delay_buf) ← read_tube_name args;
  '(delay, _) ← read_duration true delay_buf;
  Some (take (length name - length delay_buf) name, delay).

Definition cmd_pause_tube (c : connp) (args : bytes) : M unit :=
  match parse_pause args with
  | None => bad_format c
  | Some (name, delay) =>
      count_op OP_PAUSE_TUBE;;
      if negb (is_valid_tube name (MAX_TUBE_NAME_LEN - 1)) then bad_format c
      else
        s ← gets id;
        t ← tube_find (tubes s) name;
        match t with
        | None => not_found c
        | Some t =>
            let delay := if delay =? 0 then 1 else delay in
            now ← nanoseconds;
            update st_tubes t (fun T => T <| t_unpause_at := now + delay |>);;
            update st_tubes t (fun T => T <| t_pause := delay |>);;
            upd_tube_stat t (fun st => st <| pause_ct ::= incr64 |>);;
            reply_line c STATE_SEND_WORD (msg "PAUSED")
        end
  end.

(** ** The dispatcher *)

(** The text after the [n] bytes of the command name. *)
Definition run_cmd (c : connp) (cmd : bytes) : M unit :=
  let args (name : bytes) := drop (length name) cmd in
  match which_cmd cmd with
  | OP_PUT => cmd_put c (args CMD_PUT)
  | OP_PEEK_READY => cmd_peek_ready c
  | OP_PEEK_DELAYED => cmd_peek_delayed c
  | OP_PEEK_BURIED => cmd_peek_buried c
  | OP_PEEKJOB => cmd_peek_job c (args CMD_PEEKJOB)
  | OP_RESERVE_TIMEOUT => cmd_reserve_timeout c (args CMD_RESERVE_TIMEOUT)
  | OP_RESERVE => cmd_reserve c
  | OP_RESERVE_JOB => cmd_reserve_job c (args CMD_RESERVE_JOB)
  | OP_DELETE => cmd_delete c (args CMD_DELETE)
  | OP_RELEASE => cmd_release c (args CMD_RELEASE)
  | OP_BURY => cmd_bury c (args CMD_BURY)
  | OP_KICK => cmd_kick c (args CMD_KICK)
  | OP_KICKJOB => cmd_kick_job c (args CMD_KICKJOB)
  | OP_TOUCH => cmd_touch c (args CMD_TOUCH)
  | OP_STATS => cmd_stats c
  | OP_STATSJOB => cmd_stats_job c (args CMD_STATSJOB)
  | OP_STATS_TUBE => cmd_stats_tube c (args CMD_STATS_TUBE)
  | OP_LIST_TUBES => cmd_list_tubes c
  | OP_LIST_TUBE_USED => cmd_list_tube_used c
  | OP_LIST_TUBES_WATCHED => cmd_list_tubes_watched c
  | OP_USE => cmd_use c (args CMD_USE)
  | OP_WATCH => cmd_watch c (args CMD_WATCH)
  | OP_IGNORE => cmd_ignore c (args CMD_IGNORE)
  | OP_QUIT => cmd_quit c
  | OP_PAUSE_TUBE => cmd_pause_tube c (args CMD_PAUSE_TUBE)
  | OP_UNKNOWN => reply_msg c MSG_UNKNOWN_COMMAND
  end.

Definition dispatch_cmd (c : connp) : M unit :=
  upd_conn c (fun C => C <| c_cmd ::= <[(c_cmd_len C - 2)%nat := NUL]> |>);;
  C ← deref st_conns c;
  let cmd := cstr (c_cmd C) in
  if negb (length cmd =? c_cmd_len C - 2)%nat then bad_format c
  else run_cmd c cmd.
End operations.
