(* ===== verification/Commands.v ===== *)
(** The commands of [dispatch_cmd] on the invariant of the server: each one is
    defined, terminates, does not exit, and keeps the invariant. *)
From S2P Require Import Prelude Heap Ms State Monad JobList JobHash Tube Job Wal Conn Queue QueueRep QueueOps QueueConn QueueProc Process Runs Owners QueueCmds QueueLoops Refs Life Sound Parse ParseSpec Stats Dispatch.
#[local] Open Scope Z_scope.

(** The invariant of the server between commands. *)
Definition sound (s : St) : Prop := ∃ ids P, srv_inv none ∅ ids P s.

(** The connection [c] runs a command: it does not wait. *)
Record at_command (c : connp) (ids : gmap Z jobp) (P : places) (s : St) : Prop := {
  ac_inv : srv_inv none ∅ ids P s;
  ac_room : room ids s;
  ac_calm : calm c s;
}.

(** [m] is defined, terminates, and keeps the invariant. *)
Definition safe (m : M unit) (s : St) : Prop := wp m (λ _ s', sound s') s.

Section commands.
Context {E : Env} {SI : SysInfo}.
Implicit Types (P : places) (ids : gmap Z jobp) (X : gset connp) (s : St) (x : local).
Implicit Types (j : jobp) (t : tubep) (c : connp) (C : Conn).

(** ** The parts commands share *)

Lemma room_sim ids s s' : srv_sim s s' → room ids s → room ids s'.
Proof.
  intros Hs [H1 H2 H3]. pose proof (sm_frame _ _ Hs) as HF.
  split; [by rewrite (sf_table _ _ HF)|done|]. intros t. by rewrite (refs_sframe _ _ _ HF).
Qed.
Lemma at_command_sim c ids P s s' : srv_sim s s' → at_command c ids P s → at_command c ids P s'.
Proof.
  intros Hs [HI HR HC]. split; [by eapply srv_inv_sim|by eapply room_sim|].
  by eapply sim_calm; [apply Hs..|].
Qed.

Section reply.
Context (X : gset connp) (ids : gmap Z jobp) (P : places) (s : St) (c : connp).
Context (HI : srv_inv none X ids P s) (HX : may_reply X c s) (Hc : calm c s).

Lemma reply_msg_safe m : safe (reply_msg c m) s.
Proof. eapply wp_reply_msg; [done..|apply handled_refl|]. intros s' HI' _ _. by exists ids, P. Qed.
Lemma reply_line_safe line : safe (reply_line c STATE_SEND_WORD line) s.
Proof. eapply wp_reply_line_srv; [done..|apply handled_refl|]. intros s' HI' _ _. by exists ids, P. Qed.
Lemma reply_job_safe j m :
  is_Some (st_jobs s !! j) → leaving P (st_jobs s) c j → unowned {[c]} (st_conns s) j →
  safe (reply_job c j m) s.
Proof.
  intros Hj HL Hu. eapply wp_reply_job_srv; [done..|apply handled_refl|done|done| |].
  - change (lc_conns none) with (∅ : gset connp). by rewrite (right_id_L ∅ (∪)).
  - intros s' HI' _. by exists ids, P.
Qed.
End reply.

Lemma msg_safe c ids P s m : at_command c ids P s → safe (reply_msg c m) s.
Proof. intros [HI _ HC]. eapply reply_msg_safe; [done|by left|done]. Qed.

Lemma count_op_safe c ids P s o (k : M unit) :
  at_command c ids P s → (∀ s', at_command c ids P s' → safe k s') → safe (count_op o;; k) s.
Proof.
  intros HA Hk. unfold safe, count_op. wsteps. apply Hk. eapply at_command_sim; [|done]. solve_sim.
Qed.

Lemma read_u64_nonneg en b id rest : read_u64 en b = Some (id, rest) → 0 <= id.
Proof.
  intros H. destruct (number_or_not b) as [(ds & r & Hn)|Hn];
    [|by rewrite (proj1 (read_u64_none en b Hn)) in H].
  rewrite (read_u64_number en b ds r Hn) in H. case_match; [done|]. simplify_eq.
  destruct Hn as (k & _ & Hd & _). by apply value_nonneg.
Qed.

Lemma read_u32_nonneg en b n rest : read_u32 en b = Some (n, rest) → 0 <= n.
Proof.
  intros H. destruct (number_or_not b) as [(ds & r & Hn)|Hn];
    [|by rewrite (proj2 (read_u64_none en b Hn)) in H].
  rewrite (read_u32_number en b ds r Hn) in H. case_match; [done|]. simplify_eq.
  destruct Hn as (k & _ & Hd & _). by apply value_nonneg.
Qed.

Lemma with_id_safe c ids P s o args (k : Z → M unit) :
  at_command c ids P s → (∀ id s', 0 <= id → at_command c ids P s' → safe (k id) s') →
  safe (with_id c o args k) s.
Proof.
  intros HA Hk. unfold with_id, bad_format. destruct (read_u64 true args) as [[id r]|] eqn:Hr.
  - eapply count_op_safe; [done|]. intros s' HA'. apply Hk; [|done]. by eapply read_u64_nonneg.
  - by eapply msg_safe.
Qed.

Lemma with_name_safe c ids P s o name (k : M unit) :
  at_command c ids P s → (∀ s', at_command c ids P s' → safe k s') → safe (with_name c o name k) s.
Proof.
  intros HA Hk. unfold with_name, bad_format. case_match; [by eapply msg_safe|by eapply count_op_safe].
Qed.

Lemma no_garbage_safe c ids P s o name (k : M unit) :
  at_command c ids P s → (∀ s', at_command c ids P s' → safe k s') → safe (no_garbage c o name k) s.
Proof.
  intros HA Hk. unfold no_garbage, bad_format. destruct (ac_calm _ _ _ _ HA) as (C & HC & _).
  unfold safe. wsteps. case_match; [by eapply msg_safe|by eapply count_op_safe].
Qed.

(** What the state of a job says of its place. *)
Lemma place_of_state x X ids P s j Jb :
  srv_inv x X ids P s → st_jobs s !! j = Some Jb →
  match r_state (j_r Jb) with
  | Ready => ∃ t, P !! j = Some (InReady t)
  | Delayed => ∃ t, P !! j = Some (InDelay t)
  | Buried => ∃ t, P !! j = Some (InBuried t)
  | Reserved => ∃ c, P !! j = Some (InReserved c) ∧ j_reserver Jb = Some c
  | Invalid | Copy => P !! j = None
  end.
Proof.
  intros HI HJ. destruct (P !! j) as [p|] eqn:Hp.
  - destruct (qr_place _ _ _ _ (qi_rep _ _ _ _ (sv_queue _ _ _ _ _ HI)) j p Hp) as (J & t & T & HJ' & Hf & _).
    assert (J = Jb) as -> by congruence.
    destruct p; simpl in Hf; destruct Hf as [-> ?]; eauto.
  - destruct (sv_idle _ _ _ _ _ HI j Jb HJ Hp) as [-> | ->]; done.
Qed.

(** A job in a place is not sent by anyone else, and not by a connection at rest. *)
Lemma unowned_at ids P s c j p :
  srv_inv none ∅ ids P s → calm c s → P !! j = Some p → (∀ c', p = InReserved c' → c' = c) →
  unowned ∅ (st_conns s) j.
Proof.
  intros HI (C & HC & _ & _ & Ho & _) Hp Hc. eapply owns_placed; [done| |apply HI].
  intros c' ->%Hc. right. intros C'. rewrite HC. intros [= <-]. by rewrite Ho.
Qed.
Lemma unowned_held ids P s c j :
  srv_inv none ∅ ids P s → calm c s → P !! j = Some (InReserved c) → unowned ∅ (st_conns s) j.
Proof. intros HI HC Hj. eapply unowned_at; [done..|]. by intros ? [= <-]. Qed.

(** A job of the table. *)
Lemma wp_find x X ids P s id (Q : option jobp → St → Prop) :
  srv_inv x X ids P s → 0 <= id → (ids !! id = None → Q None s) →
  (∀ j Jb, ids !! id = Some j → st_jobs s !! j = Some Jb → r_id (j_r Jb) = id → Q (Some j) s) →
  wp (job_find id) Q s.
Proof.
  intros HI Hid HN HS. eapply wp_job_find; [apply HI|done|]. destruct (ids !! id) as [j|] eqn:Hj; [|by apply HN].
  destruct (tr_id _ _ _ (sv_table _ _ _ _ _ HI) _ _ Hj) as (_ & Jb & HJ & Hr). by eapply HS.
Qed.

(** [is_job_reserved_by_conn] on a job of the table. *)
Lemma wp_is_reserved x X ids P s c j Jb (Q : bool → St → Prop) :
  srv_inv x X ids P s → st_jobs s !! j = Some Jb →
  (∀ b, (b = true ↔ P !! j = Some (InReserved c)) → Q b s) →
  wp (is_job_reserved_by_conn c (Some j)) Q s.
Proof.
  intros HI HJ HQ. unfold is_job_reserved_by_conn. wsteps. apply HQ.
  pose proof (place_of_state _ _ _ _ _ _ _ HI HJ) as Hp.
  rewrite andb_true_iff, !bool_decide_eq_true. split.
  - intros [Hr Hs]. rewrite Hs in Hp. destruct Hp as (c' & ? & ?). congruence.
  - intros Hc. destruct (r_state (j_r Jb)); naive_solver congruence.
Qed.

(** ** Touch *)

Lemma cmd_touch_safe c ids P s args : at_command c ids P s → safe (cmd_touch c args) s.
Proof.
  intros HA. unfold cmd_touch. eapply with_id_safe; [done|]. clear s HA. intros id s Hid HA.
  pose proof HA as [HI _ HC]. unfold safe. apply wp_bind. eapply wp_find; [done|done|..].
  { intros _. unfold touch_job, is_job_reserved_by_conn. wsteps. by eapply msg_safe. }
  intros j Jb Hj HJ _. apply wp_bind. pose proof HC as (C & HC' & Hrest). pose proof Hrest as [Hw _].
  destruct (P !! j) as [p|] eqn:Hp.
  2: { unfold touch_job. apply wp_bind. eapply wp_is_reserved; [done..|]. intros [|] Hb.
       - destruct Hb as [Hb _]. by rewrite Hb in Hp.
       - wsteps. by eapply msg_safe. }
  eapply wp_touch_job; [apply HI|done..|by intros _; eapply msg_safe|].
  intros now -> Jb' s' HR'. unfold s' in *. clear s'.
  match goal with |- wp _ _ ?s' => set (s1 := s') in * end.
  assert (wait_sim s s1 ∧ sframe s s1) as [HW HF].
  { unfold s1, with_soonest. split; split; rsimpl; try done; by eapply same_but_insert. }
  assert (own_sim s s1) as [HOj HOc].
  { unfold s1, with_soonest. split; rsimpl; by eapply same_but_insert. }
  assert (silent c s1) as Hsl.
  { eexists. unfold s1, with_soonest. rsimpl. rewrite lookup_insert_eq. split; [done|]. by split. }
  assert (srv_inv none {[c]} ids P s1) as HI1.
  { pose proof (srv_inv_calm _ _ _ _ _ HI HC) as HIc. destruct (sv_queue _ _ _ _ _ HIc) as [HRc HWc Hcac].
    eapply srv_inv_step; [exact HIc| |done|..].
    - split; [eapply queue_rep_mono; [|done]; set_solver|by eapply wait_rep_sim|].
      intros c' C'. unfold s1, with_soonest. rsimpl. intros [[<- <-]|[Hne HC1]]%lookup_insert_Some Hw'.
      + change (conn_waiting C = true) in Hw'. congruence.
      + by apply Hcac.
    - intros y J. unfold s1, with_soonest. rsimpl. intros [[<- <-]|[Hne HJy]]%lookup_insert_Some Hy.
      + congruence.
      + by apply (sv_idle _ _ _ _ _ HI y J).
    - intros c' Hc'. apply (known_tick P s); [|by eapply sv_known].
      unfold s1, with_soonest. rsimpl. rewrite lookup_insert_ne; [done|set_solver].
    - eapply owns_same; [done|done|apply HI]. }
  eapply reply_msg_safe; [done|by right|by eapply silent_calm].
Qed.

(** ** Giving up a reservation *)

(** [c] forgets its soonest job with the one it gives up. *)
Lemma wp_unreserve x ids P s c C j Jb (Q : option jobp → St → Prop) :
  srv_inv x ∅ ids P s → st_conns s !! c = Some C → conn_waiting C = false → st_jobs s !! j = Some Jb →
  P !! j = Some (InReserved c) →
  (∀ t Jb' s', j_r Jb' = j_r Jb → moving {[c]} {[j]} ids P s (delete j P) s' → loose (delete j P) s' j t Jb' →
     st_conns s' !! c = Some (C <| c_soonest_job := None |>) → Q (Some j) s') →
  wp (remove_this_reserved_job c (Some j)) Q s.
Proof.
  intros HI HC Hw HJ Hb HS.
  destruct (qr_place _ _ _ _ (qi_rep _ _ _ _ (sv_queue _ _ _ _ _ HI)) j _ Hb)
    as (J & t & T & HJ' & _ & Ht & _ & _).
  assert (J = Jb) as -> by congruence.
  eapply wp_remove_this_reserved_job; [apply HI|done|set_solver|done..|].
  intros s' Jb' HI' HL HF HC' Hr Ho. assert (st_conns s' !! c = Some (C <| c_soonest_job := None |>)) as Hc'.
  { by rewrite HC', lookup_insert_eq. }
  apply (HS t Jb' s'); [done| |done|done]. split.
  - apply queue_inv_idle; [done|]. intros C'. rewrite Hc'. by intros [= <-].
  - apply stays_one; [intros y Hy; by rewrite lookup_delete_ne|done| |done|split|by apply (talks_insert s (delete j P) s' c C (C <| c_soonest_job := None |>))].
    + intros c' C'. rewrite HC'. intros [[<- <-]|[_ ?]]%lookup_insert_Some; eauto.
    + intros c' Hne Hk C1. rewrite HC', lookup_insert_ne by set_solver.
      intros HC1 Hs y [_ Hy]%lookup_delete_Some. by apply (Hk C1 HC1 Hs y).
    + intros c' C1 HC1 _ Hs. rewrite HC'. destruct (decide (c' = c)) as [->|].
      * rewrite lookup_insert_eq. eauto.
      * rewrite lookup_insert_ne by done. eauto.
  - by apply qframe_sframe.
Qed.

Lemma wp_remove_reserved x ids P s c j Jb (Q : option jobp → St → Prop) :
  srv_inv x ∅ ids P s → calm c s → st_jobs s !! j = Some Jb →
  (P !! j ≠ Some (InReserved c) → Q None s) →
  (∀ t Jb' s', P !! j = Some (InReserved c) → j_r Jb' = j_r Jb →
     moving {[c]} {[j]} ids P s (delete j P) s' → loose (delete j P) s' j t Jb' → silent c s' →
     Q (Some j) s') →
  wp (remove_reserved_job c (Some j)) Q s.
Proof.
  intros HI (C & HC & Hrest) HJ HN HS. unfold remove_reserved_job. apply wp_bind.
  eapply wp_is_reserved; [done..|]. intros [|] Hb; cbn [negb].
  2: { wsteps. apply HN. intros Hp. by destruct Hb as [_ Hb]; specialize (Hb Hp). }
  destruct Hb as [Hb _]. specialize (Hb eq_refl).
  eapply wp_unreserve; [done|done|apply Hrest|done..|]. intros t Jb' s' Hr HM HL HC'.
  apply (HS t Jb' s'); [done..|]. by eexists.
Qed.

(** The reply of a command that moved [j]. *)
Lemma moved_safe X ids P s P' s' c j m :
  srv_inv none ∅ ids P s → moving X {[j]} ids P s P' s' → idle_at P' s' j → may_reply X c s' →
  calm c s' → unowned ∅ (st_conns s) j → safe (reply_msg c m) s'.
Proof.
  intros HI HM Hj HX Hc Hu. eapply (reply_msg_safe X ids P'); [|done..].
  eapply srv_inv_moving; [done..|set_solver|]. by intros ? ->%elem_of_singleton.
Qed.
Lemma moved_silent_safe ids P s P' s' c j m :
  srv_inv none ∅ ids P s → moving {[c]} {[j]} ids P s P' s' → idle_at P' s' j → silent c s' →
  unowned ∅ (st_conns s) j → safe (reply_msg c m) s'.
Proof.
  intros HI HM Hj Hsl Hu. eapply moved_safe; [done..|by right|by apply silent_calm|done].
Qed.

Lemma cmd_release_safe c ids P s args : at_command c ids P s → safe (cmd_release c args) s.
Proof.
  intros HA. unfold cmd_release, bad_format, not_found.
  destruct (parse_release args) as [[[id pri] delay]|] eqn:Hp; [|by eapply msg_safe].
  assert (0 <= id) as Hid.
  { unfold parse_release in Hp. destruct (read_u64 false args) as [[id' b]|] eqn:Hr; [|done].
    simpl in Hp. destruct (read_u32 false b) as [[p' b']|]; [|done]. simpl in Hp.
    destruct (read_duration true b') as [[d b'']|]; [|done]. simpl in Hp. simplify_eq.
    by eapply read_u64_nonneg. }
  eapply count_op_safe; [done|]. clear s HA. intros s HA. pose proof HA as [HI _ HC].
  unfold safe. apply wp_bind. eapply wp_find; [done|done|..].
  { intros _. unfold remove_reserved_job, is_job_reserved_by_conn. wsteps. by eapply msg_safe. }
  intros j Jb _ HJ _. apply wp_bind. eapply wp_remove_reserved; [done..| |].
  { intros _. by eapply msg_safe. }
  intros t Jb1 s1 Hr1 _ HM1 HL1 Hsl1.
  assert (unowned ∅ (st_conns s) j) as Hun by (by eapply unowned_held).
  assert (unheld {[j]} s (delete j P)) as Hdel by apply unheld_none, HL1.
  (* the record is rewritten, twice when the job is delayed *)
  assert (∀ s2 Jb2, moving {[c]} {[j]} ids P s (delete j P) s2 → loose (delete j P) s2 j t Jb2 →
    silent c s2 →
    safe (upd_rec j (fun r => r <| r_pri := pri |> <| r_delay := delay |> <| r_release_ct ::= incr32 |>);;
          r ← enqueue_job j delay (negb (delay =? 0));
          if r : bool then reply_msg c MSG_RELEASED
          else bury_job j false;; reply_msg c MSG_BURIED) s2) as Hrest.
  { intros s2 Jb2 HM2 HL2 Hsl2. unfold safe, upd_rec. pose proof (lo_job _ _ _ _ _ HL2) as HJ2. wsteps.
    set (Jb3 := Jb2 <| j_r ::= _ |>).
    edestruct (moving_rewrite {[c]} ids (delete j P) s2 j t Jb2 Jb3) as [HM3 HL3];
      [apply HM2|done|done|apply HL2|].
    set (s3 := rupd st_jobs _ s2) in *.
    assert (moving {[c]} {[j]} ids P s (delete j P) s3) as HM03 by (eapply moving_trans; [done..|exact Hdel]).
    assert (silent c s3) as Hsl3 by (by eapply stays_silent; [apply HM3|]).
    eapply wp_enqueue_moving; [apply HM3|done| |..].
    - eapply moving_log; [exact HM03|]. apply (sv_log _ _ _ _ _ HI).
    - intros s4 Jb4 HM4 HL4. apply wp_bind. eapply wp_bury_moving; [apply HM4|done| |].
      { do 2 (eapply moving_log; [eassumption|]). apply (sv_log _ _ _ _ _ HI). }
      intros P5 s5 HM5 Hj5. eapply moved_silent_safe; [done| |by apply placed_idle|..].
      + do 2 (eapply moving_trans; [eassumption| |apply unheld_none, lookup_delete_eq]). done.
      + do 2 (eapply stays_silent; [by eapply mo_stays|]). done.
      + done.
    - intros P4 s4 HM4 Hj4. eapply moved_silent_safe; [done| |by apply placed_idle|..].
      + by eapply moving_trans.
      + by eapply stays_silent; [apply HM4|].
      + done. }
  destruct (negb (delay =? 0)) eqn:Hd.
  - apply wp_bind. eapply wp_reserve_update_off; [|apply HL1|].
    { eapply moving_log; [exact HM1|]. apply (sv_log _ _ _ _ _ HI). }
    destruct (moving_rewrite {[c]} ids (delete j P) s1 j t Jb1 (Jb1 <| j_walresv ::= fun n => n + 1 |>))
      as [HM2 HL2]; [apply HM1|done|done|apply HL1|].
    cbn [negb]. eapply Hrest; [by eapply moving_trans|done|]. by eapply stays_silent; [apply HM2|].
  - wsteps. cbn [negb]. by eapply Hrest.
Qed.

Lemma cmd_bury_safe c ids P s args : at_command c ids P s → safe (cmd_bury c args) s.
Proof.
  intros HA. unfold cmd_bury, bad_format, not_found.
  destruct (parse_bury args) as [[id pri]|] eqn:Hp; [|by eapply msg_safe].
  assert (0 <= id) as Hid.
  { unfold parse_bury in Hp. destruct (read_u64 false args) as [[id' b]|] eqn:Hr; [|done].
    simpl in Hp. destruct (read_u32 true b) as [[p' b']|]; [|done]. simpl in Hp. simplify_eq.
    by eapply read_u64_nonneg. }
  eapply count_op_safe; [done|]. clear s HA. intros s HA. pose proof HA as [HI _ HC].
  unfold safe. apply wp_bind. eapply wp_find; [done|done|..].
  { intros _. unfold remove_reserved_job, is_job_reserved_by_conn. wsteps. by eapply msg_safe. }
  intros j Jb _ HJ _. apply wp_bind. eapply wp_remove_reserved; [done..| |].
  { intros _. by eapply msg_safe. }
  intros t Jb1 s1 Hr1 _ HM1 HL1 Hsl1. unfold upd_rec.
  assert (unowned ∅ (st_conns s) j) as Hun by (by eapply unowned_held).
  assert (unheld {[j]} s (delete j P)) as Hdel by apply unheld_none, HL1. pose proof (lo_job _ _ _ _ _ HL1) as HJ1. wsteps.
  set (Jb2 := Jb1 <| j_r ::= _ |>).
  edestruct (moving_rewrite {[c]} ids (delete j P) s1 j t Jb1 Jb2) as [HM2 HL2];
    [apply HM1|done|done|apply HL1|].
  set (s2 := rupd st_jobs _ s1) in *.
  eapply wp_bury_moving; [apply HM2|done| |].
  { do 2 (eapply moving_log; [eassumption|]). apply (sv_log _ _ _ _ _ HI). }
  intros P3 s3 HM3 Hj3. cbn [negb]. eapply moved_silent_safe; [done| |by apply placed_idle|..].
  - do 2 (eapply moving_trans; [eassumption| |apply unheld_none, lookup_delete_eq]). done.
  - do 2 (eapply stays_silent; [by eapply mo_stays|]). done.
  - done.
Qed.

(** ** Taking a job from wherever it is *)

(** [j] was taken out of its place for [c]. *)
Definition taken_for X c ids P s j s' : Prop :=
  ∃ t Jb', moving X {[j]} ids P s (delete j P) s' ∧ loose (delete j P) s' j t Jb' ∧
    may_reply X c s' ∧ calm c s' ∧ unowned ∅ (st_conns s) j.

Lemma taken_step ids P s s' c j p t Jb :
  srv_inv none ∅ ids P s → calm c s → P !! j = Some p → header p = None ∨ (∃ t, p = InBuried t) →
  st_jobs s !! j = Some Jb → j_tube Jb = Some t →
  queue_rep (delete j P) ids ∅ s' → job_step s s' → same_but erase_pos (st_jobs s) (st_jobs s') →
  taken_for ∅ c ids P s j s'.
Proof.
  intros HI HC Hp Hh HJ Ht HR Hs Hpos.
  destruct (taken_loose P ids ∅ s s' j p t Jb) as (Jb' & HL & _); [apply HI|done..|].
  exists t, Jb'. split_and!; [|done|by left| |].
  2: { destruct HC as (C & HC & Hr). exists C. by rewrite (js_conns _ _ Hs). }
  2: { eapply unowned_at; [done..|]. intros c' ->. by destruct Hh as [?|[? ?]]. }
  apply moving_one; [|done|by apply only_pos| |].
  - eapply queue_inv_step; [apply HI|done|done|]. intros y c' [_ Hy]%lookup_delete_Some. done.
  - intros y Hy. by rewrite lookup_delete_ne.
  - intros c'. by rewrite lookup_delete_eq.
Qed.

Section take.
Context (ids : gmap Z jobp) (P : places) (s : St) (c : connp) (j : jobp) (Jb : Job).
Context (HI : srv_inv none ∅ ids P s) (HC : calm c s) (HJ : st_jobs s !! j = Some Jb).

Lemma job_of_place p : P !! j = Some p → fits Jb p ∧ ∃ t, j_tube Jb = Some t.
Proof.
  intros Hp. destruct (qr_place _ _ _ _ (qi_rep _ _ _ _ (sv_queue _ _ _ _ _ HI)) j p Hp)
    as (J & t & T & HJ' & Hf & Ht & _). assert (J = Jb) as -> by congruence. eauto.
Qed.

(** Each of the three removals succeeds on the jobs of its kind only. *)
Lemma wp_take_ready (Q : option jobp → St → Prop) :
  (r_state (j_r Jb) ≠ Ready → Q None s) →
  (∀ s' t, P !! j = Some (InReady t) → taken_for ∅ c ids P s j s' → Q (Some j) s') →
  wp (remove_ready_job (Some j)) Q s.
Proof.
  intros HN HS. destruct (decide (r_state (j_r Jb) = Ready)) as [Hst|Hst].
  - pose proof (place_of_state _ _ _ _ _ _ _ HI HJ) as Hp. rewrite Hst in Hp. destruct Hp as [t Hp].
    destruct (job_of_place _ Hp) as [_ [t' Ht]].
    eapply wp_remove_ready_job; [apply HI|done|]. intros s' HR' Hs Hpos _.
    eapply HS; [done|]. by eapply taken_step; [..|left| | | | |].
  - unfold remove_ready_job. wsteps. rewrite decide_True by done. wsteps. by apply HN.
Qed.
Lemma wp_take_buried (Q : option jobp → St → Prop) :
  (r_state (j_r Jb) ≠ Buried → Q None s) →
  (∀ s' t, P !! j = Some (InBuried t) → taken_for ∅ c ids P s j s' → Q (Some j) s') →
  wp (remove_buried_job (Some j)) Q s.
Proof.
  intros HN HS. destruct (decide (r_state (j_r Jb) = Buried)) as [Hst|Hst].
  - pose proof (place_of_state _ _ _ _ _ _ _ HI HJ) as Hp. rewrite Hst in Hp. destruct Hp as [t Hp].
    destruct (job_of_place _ Hp) as [_ [t' Ht]].
    eapply wp_remove_buried_job; [apply HI|done|]. intros s' HR' Hs Hjs.
    eapply HS; [done|]. eapply taken_step; [done|done|done|right; eauto|done..|by rewrite Hjs].
  - unfold remove_buried_job. wsteps. rewrite decide_True by done. wsteps. by apply HN.
Qed.
Lemma wp_take_delayed (Q : option jobp → St → Prop) :
  (r_state (j_r Jb) ≠ Delayed → Q None s) →
  (∀ s' t, P !! j = Some (InDelay t) → taken_for ∅ c ids P s j s' → Q (Some j) s') →
  wp (remove_delayed_job (Some j)) Q s.
Proof.
  intros HN HS. destruct (decide (r_state (j_r Jb) = Delayed)) as [Hst|Hst].
  - pose proof (place_of_state _ _ _ _ _ _ _ HI HJ) as Hp. rewrite Hst in Hp. destruct Hp as [t Hp].
    destruct (job_of_place _ Hp) as [_ [t' Ht]].
    eapply wp_remove_delayed_job; [apply HI|done|]. intros s' HR' Hs Hpos _.
    eapply HS; [done|]. by eapply taken_step; [..|left| | | | |].
  - unfold remove_delayed_job. wsteps. rewrite decide_True by done. wsteps. by apply HN.
Qed.
End take.

(** ** Delete *)

(** The end of [delete], on the job that was taken. *)
Lemma delete_taken_safe X ids P s s1 c id j :
  srv_inv none ∅ ids P s → ids !! id = Some j → taken_for X c ids P s j s1 →
  safe (t ← tube_of j;
        upd_tube_stat t (fun st => st <| total_delete_ct ::= incr64 |>);;
        upd_rec j (fun r => r <| r_state := Invalid |>);;
        r ← walwrite j;
        walmaint;;
        job_free (Some j);;
        if negb r then reply_serr c MSG_INTERNAL_ERROR else reply_msg c MSG_DELETED) s1.
Proof.
  intros HI Hid (t & Jb1 & HM1 & HL1 & HX1 & HC1 & Hun). unfold safe, tube_of, upd_tube_stat, upd_rec.
  destruct HL1 as [HP1 HJ1 Hst1 Ht1 [T1 HT1]]. wsteps.
  match goal with |- wp _ _ ?s' => set (s3 := s') end.
  set (s2 := s1 <| st_tubes ::= <[t := T1 <| t_stat ::= fun st => st <| total_delete_ct ::= incr64 |> |>]> |>).
  assert (quiet s1 s2) as Hq by (unfold s2; solve_quiet).
  assert (moving X {[j]} ids (delete j P) s1 (delete j P) s2) as HM2 by (by apply moving_quiet, HM1).
  assert (loose (delete j P) s2 j t Jb1) as HL2.
  { eapply loose_quiet; [exact Hq|]. split; eauto. }
  destruct (moving_rewrite X ids (delete j P) s2 j t Jb1 (Jb1 <| j_r ::= fun r => r <| r_state := Invalid |> |>))
    as [HM3 HL3]; [apply HM2|done|done|done|].
  change (rupd st_jobs _ s2) with s3 in HM3. change (rupd st_jobs _ s2) with s3 in HL3.
  assert (moving X {[j]} ids P s (delete j P) s3) as HM by (do 2 (eapply moving_trans; [eassumption| |apply unheld_none, lookup_delete_eq]); done).
  assert (no_log s3) as Hnl by (eapply moving_log; [exact HM|]; apply (sv_log _ _ _ _ _ HI)).
  pose proof (lo_job _ _ _ _ _ HL3) as HJ3.
  assert (srv_inv none X ids (delete j P) s3) as HI3.
  { eapply srv_inv_moving; [exact HI|exact HM|set_solver|]. intros y ->%elem_of_singleton.
    split; [|done]. intros J HJ _. rewrite HJ3 in HJ. apply (inj Some) in HJ as <-. by left. }
  apply wp_walwrite_off; [done|]. apply wp_bind, wp_walmaint_off; [done|]. apply wp_bind.
  eapply wp_job_free; [exact HI3|by apply lookup_delete_eq|exact Hid|exact HJ3|done| |].
  { eapply stays_unowned; [apply HM| | |done].
    - by apply (same_but_dom x_conn), sf_conns, HM.
    - intros c'. by rewrite lookup_delete_eq. }
  intros s4 HI4 _ Hs4 _. cbn [negb].
  assert (may_reply X c s4 ∧ calm c s4) as [HX4 HC4].
  { assert (moving X {[j]} ids (delete j P) s1 (delete j P) s3) as HM13
      by (eapply moving_trans; [exact HM2|exact HM3|apply unheld_none, lookup_delete_eq]).
    unfold may_reply, silent, calm. rewrite (lf_conns _ _ Hs4). split.
    - destruct HX1 as [?|[? Hsl]]; [by left|right]. split; [done|]. eapply stays_silent; [apply HM13|done].
    - eapply stays_calm; [apply HM13|done]. }
  by eapply reply_msg_safe.
Qed.

Lemma cmd_delete_safe c ids P s args : at_command c ids P s → safe (cmd_delete c args) s.
Proof.
  intros HA. unfold cmd_delete, not_found. eapply with_id_safe; [done|]. clear s HA. intros id s Hid HA.
  pose proof HA as [HI _ HC]. unfold safe. apply wp_bind. eapply wp_find; [done|done|..].
  { intros _. unfold remove_reserved_job, is_job_reserved_by_conn. wsteps. cbn [or_else].
    wsteps. cbn [or_else]. wsteps. cbn [or_else]. wsteps. by eapply msg_safe. }
  intros j Jb Hj HJ _. apply wp_bind. eapply wp_remove_reserved; [done..| |].
  2: { intros t Jb1 s1 Hr1 _ HM HL Hsl. cbn [or_else]. wsteps. cbn [or_else]. wsteps. cbn [or_else]. wsteps.
       apply wp_bind_inv. eapply (delete_taken_safe {[c]}); [done|done|]. exists t, Jb1.
       split_and!; [done|done|by right|by apply silent_calm|by eapply unowned_held]. }
  intros _. cbn [or_else]. apply wp_bind. eapply wp_take_ready; [done..| |].
  2: { intros s1 t _ Htk. cbn [or_else]. wsteps. cbn [or_else]. wsteps. apply wp_bind_inv. by eapply delete_taken_safe. }
  intros _. cbn [or_else]. apply wp_bind. eapply wp_take_buried; [done..| |].
  2: { intros s1 t _ Htk. cbn [or_else]. wsteps. apply wp_bind_inv. by eapply delete_taken_safe. }
  intros _. cbn [or_else]. apply wp_bind. eapply wp_take_delayed; [done..| |].
  - intros _. by eapply msg_safe.
  - intros s1 t _ Htk. by eapply delete_taken_safe.
Qed.

(** ** Kick *)

Lemma srv_inv_moved_one ids P s P' s' j :
  srv_inv none ∅ ids P s → moving ∅ {[j]} ids P s P' s' → is_Some (P' !! j) →
  unowned ∅ (st_conns s) j → srv_inv none ∅ ids P' s'.
Proof.
  intros HI HM Hj Hu. eapply srv_inv_moving; [done..|]. intros y ->%elem_of_singleton.
  split; [by apply placed_idle|done].
Qed.

Lemma cmd_kick_job_safe c ids P s args : at_command c ids P s → safe (cmd_kick_job c args) s.
Proof.
  intros HA. unfold cmd_kick_job, not_found. eapply with_id_safe; [done|]. clear s HA. intros id s Hid HA.
  pose proof HA as [HI _ HC]. unfold safe. apply wp_bind. eapply wp_find; [done|done|..].
  { intros _. by eapply msg_safe. }
  intros j Jb Hj HJ _. wsteps. pose proof (place_of_state _ _ _ _ _ _ _ HI HJ) as Hp.
  destruct (decide (r_state (j_r Jb) = Buried)) as [Hb|Hb].
  - rewrite Hb in Hp. destruct Hp as [t Hp].
    eapply wp_kick_buried_moving; [apply HI|done|apply (sv_log _ _ _ _ _ HI)|].
    intros b P1 s1 HM1 Hj1 HbP. pose proof (srv_inv_moved_one _ _ _ _ _ _ HI HM1 Hj1 (unowned_at _ _ _ _ _ _ HI HC Hp ltac:(done))) as HI1.
    assert (calm c s1) as HC1 by (eapply stays_calm; [apply HM1|done]). destruct HbP as [-> | ->].
    + wsteps. eapply reply_msg_safe; [exact HI1|by left|done].
    + destruct b; wsteps; [eapply reply_msg_safe; [exact HI1|by left|done]|].
      destruct (qr_place _ _ _ _ (qi_rep _ _ _ _ (mo_inv _ _ _ _ _ _ _ HM1)) j _ Hp) as (J1 & _ & _ & HJ1 & [Hst _] & _).
      wsteps. rewrite decide_False by congruence. wsteps.
      eapply reply_msg_safe; [exact HI1|by left|done].
  - wsteps. destruct (decide (r_state (j_r Jb) = Delayed)) as [Hd|Hd]; [|wsteps; by eapply msg_safe].
    rewrite Hd in Hp. destruct Hp as [t Hp].
    eapply wp_kick_delayed_moving; [apply HI|done|apply (sv_log _ _ _ _ _ HI)|].
    intros b P1 s1 HM1 Hj1. pose proof (srv_inv_moved_one _ _ _ _ _ _ HI HM1 Hj1 (unowned_at _ _ _ _ _ _ HI HC Hp ltac:(done))) as HI1.
    assert (calm c s1) as HC1 by (eapply stays_calm; [apply HM1|done]).
    destruct b; (eapply reply_msg_safe; [exact HI1|by left|done]).
Qed.

(** The invariant of the loops, for the tube [t]. *)
Record kicking c t ids P s : Prop := {
  kk_inv : srv_inv none ∅ ids P s;
  kk_calm : calm c s;
  kk_tube : is_Some (st_tubes s !! t);
}.

Lemma kicking_step c t ids P s P' s' j p :
  kicking c t ids P s → P !! j = Some p → (∀ c', p ≠ InReserved c') →
  moving ∅ {[j]} ids P s P' s' → is_Some (P' !! j) → kicking c t ids P' s'.
Proof.
  intros [HI HC HT] Hp Hnr HM Hj. split.
  - eapply srv_inv_moved_one; [done..|]. eapply unowned_at; [done..|]. intros c' ->. by destruct (Hnr c').
  - eapply stays_calm; [apply HM|done].
  - destruct HT as [T HT]. destruct (same_but_lookup _ _ _ _ _ (sf_tubes _ _ (mo_frame _ _ _ _ _ _ _ HM)) HT)
      as (? & ? & _). eauto.
Qed.

Lemma wp_kick_buried_loop fuel c t n i ids P s (Q : Z → St → Prop) :
  kicking c t ids P s → (Z.to_nat (n - i) <= fuel)%nat →
  (∀ i' P' s', kicking c t ids P' s' → Q i' s') →
  wp (kick_buried_jobs_loop fuel t n i) Q s.
Proof.
  revert i P s. induction fuel as [|fuel IH]; intros i P s HK Hf HQ; cbn [kick_buried_jobs_loop];
    (destruct (Z.ltb_spec i n) as [Hi|Hi]; cbn [negb]; [|wsteps; by eapply HQ]).
  { lia. }
  unfold buried_job_p. wsteps. destruct (kk_tube _ _ _ _ _ HK) as [T HT].
  pose proof (sv_queue _ _ _ _ _ (kk_inv _ _ _ _ _ HK)) as HI.
  pose proof (qr_buried _ _ _ _ (qi_rep _ _ _ _ HI) t T HT) as HL.
  eapply wp_list_rep_empty; [exact HL|intros Hno|intros j0 Hj0]; wsteps; cbn [negb]; [wsteps; by eapply HQ|].
  wsteps. eapply wp_list_rep_next; [exact HL|exact Hj0|]. intros j Hj. cbn [job_of_node]. wsteps.
  eapply wp_kick_buried_moving; [exact HI|exact Hj|apply (sv_log _ _ _ _ _ (kk_inv _ _ _ _ _ HK))|].
  intros b P1 s1 HM1 Hj1 _. eapply IH; [by eapply (kicking_step _ _ _ _ _ _ _ _ _ HK Hj)|lia|done].
Qed.

Lemma wp_kick_delayed_loop fuel c t n i ids P s (Q : Z → St → Prop) :
  kicking c t ids P s → (Z.to_nat (n - i) <= fuel)%nat →
  (∀ i' P' s', kicking c t ids P' s' → Q i' s') →
  wp (kick_delayed_jobs_loop fuel t n i) Q s.
Proof.
  revert i P s. induction fuel as [|fuel IH]; intros i P s HK Hf HQ; cbn [kick_delayed_jobs_loop];
    (destruct (Z.ltb_spec i n) as [Hi|Hi]; cbn [negb]; [|wsteps; by eapply HQ]).
  { lia. }
  destruct (kk_tube _ _ _ _ _ HK) as [T HT]. wsteps.
  pose proof (sv_queue _ _ _ _ _ (kk_inv _ _ _ _ _ HK)) as HI.
  pose proof (qr_delay _ _ _ _ (qi_rep _ _ _ _ HI) t T HT) as HL.
  destruct (Nat.eqb_spec (h_len (t_delay T)) 0) as [H0|H0]; [wsteps; by eapply HQ|].
  destruct (heap_rep_first _ _ _ _ HL H0) as (j & Jb & Hj & _ & Mj & _).
  eapply wp_bind, wp_from_option; [done|]. apply wp_bind.
  eapply wp_kick_delayed_moving; [exact HI|exact Mj|apply (sv_log _ _ _ _ _ (kk_inv _ _ _ _ _ HK))|].
  intros b P1 s1 HM1 Hj1. eapply IH; [by eapply (kicking_step _ _ _ _ _ _ _ _ _ HK Mj)|lia|done].
Qed.

(** The tube that a connection uses. *)
Lemma used_listed x X ids P s c C t :
  srv_inv x X ids P s → (∀ t', 0 <= x t') → st_conns s !! c = Some C → c_use C = Some t →
  t ∈ ms_items (tubes s) ∧ ∃ T, st_tubes s !! t = Some T.
Proof.
  intros HI Hx HC Ht. destruct (srv_inv_listed _ _ _ _ _ t HI) as (Hin & T & HT & _); [|eauto].
  unfold refs. pose proof (count_pos (λ C, c_use C = Some t) _ _ _ HC Ht). specialize (Hx t).
  pose proof (count_nonneg (λ J, j_tube J = Some t) (st_jobs s)).
  pose proof (count_nonneg (watches t) (st_conns s)). destruct (bool_decide _); simpl; lia.
Qed.

Lemma wp_use_tube c ids P s (Q : tubep → St → Prop) :
  at_command c ids P s →
  (∀ t C T, st_conns s !! c = Some C → c_use C = Some t → st_tubes s !! t = Some T →
     t ∈ ms_items (tubes s) → Q t s) →
  wp (use_tube c) Q s.
Proof.
  intros [HI _ (C & HC & _)] HQ. destruct (rf_use _ _ (sv_refs _ _ _ _ _ HI) c C HC) as [t Ht].
  unfold use_tube. wsteps. destruct (used_listed _ _ _ _ _ c C t HI) as (Hin & T & HT); [done..|].
  by eapply HQ.
Qed.

Lemma cmd_kick_safe c ids P s args : at_command c ids P s → safe (cmd_kick c args) s.
Proof.
  intros HA. unfold cmd_kick, bad_format. destruct (strtoul args) as [[n b] e].
  case_match; [by eapply msg_safe|]. eapply count_op_safe; [done|]. clear s HA. intros s HA.
  unfold safe. apply wp_bind. eapply wp_use_tube; [done|]. intros t C T _ _ HT _.
  pose proof HA as [HI _ HC]. assert (kicking c t ids P s) as HK by (split; eauto).
  unfold kick_jobs, buried_job_p. wsteps.
  pose proof (qr_buried _ _ _ _ (qi_rep _ _ _ _ (sv_queue _ _ _ _ _ HI)) t T HT) as HL.
  assert (∀ i s', (∃ P', kicking c t ids P' s') →
    safe (reply_line c STATE_SEND_WORD (bs "KICKED " ++ digits i ++ crlf)) s') as Hend.
  { intros i s' (P' & HK'). eapply (reply_line_safe ∅ ids P'); [apply HK'|by left|apply HK']. }
  eapply wp_list_rep_empty; [exact HL|intros Hno|intros j0 Hj0]; wsteps; cbn [negb];
    unfold kick_delayed_jobs, kick_buried_jobs.
  - eapply wp_kick_delayed_loop; [done|lia|]. intros i' P' s' HK'. apply Hend. eauto.
  - eapply wp_kick_buried_loop; [done|lia|]. intros i' P' s' HK'. apply Hend. eauto.
Qed.
End commands.
