(* ===== verification/Reserving.v ===== *)
(** The commands that reserve jobs, on the invariant of the server: [reserve],
    [reserve-with-timeout] and [reserve-job]. *)
From S2P Require Import Prelude Heap Ms State Monad JobList JobHash Tube Job Wal Conn Queue QueueRep QueueOps QueueConn QueueProc Process Runs Owners QueueCmds QueueLoops Refs Life Sound Parse ParseSpec Stats Dispatch Commands.
#[local] Open Scope Z_scope.

Section reserving.
Context {E : Env} {SI : SysInfo}.
Implicit Types (P : places) (ids : gmap Z jobp) (X : gset connp) (s : St) (x : local).
Implicit Types (j : jobp) (t : tubep) (c : connp) (C : Conn).

(** ** The kinds of a connection *)

Lemma type_lor b ty : Z.land b CONN_TYPE_WAITING = 0 →
  Z.land (Z.lor b ty) CONN_TYPE_WAITING = Z.land ty CONN_TYPE_WAITING.
Proof. intros Hb. by rewrite Z.land_lor_distr_l, Hb, Z.lor_0_l. Qed.

Lemma connset_sim s c C b n :
  Z.land b CONN_TYPE_WAITING = 0 → st_conns s !! c = Some C →
  srv_sim s (s <| st_conns ::= <[c := C <| c_type ::= Z.lor b |>]> |> <| st_counts := n |>).
Proof.
  intros Hb HC. etrans; [eapply (conn_sim s c C (C <| c_type ::= Z.lor b |>)); [done|]|].
  - unfold same_conn, w_conn, o_conn. rsimpl. by rewrite type_lor.
  - solve_sim.
Qed.

Lemma wp_connsetworker c ids P s (Q : unit → St → Prop) :
  at_command c ids P s → (∀ s', srv_sim s s' → at_command c ids P s' → Q tt s') →
  wp (connsetworker c) Q s.
Proof.
  intros HA HQ. destruct (ac_calm _ _ _ _ HA) as (C & HC & _). unfold connsetworker, upd_counts. wsteps.
  case_match; wsteps; [by apply HQ|].
  match goal with |- Q _ ?s' => assert (srv_sim s s') as Hs by (by apply connset_sim) end.
  apply HQ; [done|]. by eapply at_command_sim.
Qed.
Lemma wp_connsetproducer c ids P s (Q : unit → St → Prop) :
  at_command c ids P s → (∀ s', srv_sim s s' → at_command c ids P s' → Q tt s') →
  wp (connsetproducer c) Q s.
Proof.
  intros HA HQ. destruct (ac_calm _ _ _ _ HA) as (C & HC & _). unfold connsetproducer, upd_counts. wsteps.
  case_match; wsteps; [by apply HQ|].
  match goal with |- Q _ ?s' => assert (srv_sim s s') as Hs by (by apply connset_sim) end.
  apply HQ; [done|]. by eapply at_command_sim.
Qed.

(** ** Deadlines and ready jobs *)

Lemma at_command_sched c ids P s s' :
  at_command c ids P s → queue_rep P ids ∅ s' → sched_step c s s' → known P s' c → at_command c ids P s'.
Proof.
  intros [HI [R1 R2 R3] HC] HR Hs Hk. pose proof (sched_io _ _ _ Hs) as Hio.
  assert (same_but o_conn (st_conns s) (st_conns s')) as Ho.
  { by eapply (same_but_mono erase_sched), ss_conns. }
  pose proof (qframe_sframe _ _ (io_frame _ _ _ Hio)) as HF. split.
  - eapply srv_inv_io; [done|by left|done..].
  - split; [by rewrite (sf_table _ _ HF)|done|]. intros t. by rewrite (refs_sframe _ _ _ HF).
  - eapply sim_calm; [by eapply io_wait| |done]. split; [by rewrite (io_jobs _ _ _ Hio)|done].
Qed.

Lemma wp_conndeadlinesoon c ids P s (Q : bool → St → Prop) :
  at_command c ids P s → (∀ b s', at_command c ids P s' → Q b s') → wp (conndeadlinesoon c) Q s.
Proof.
  intros HA HQ. unfold conndeadlinesoon. wsteps.
  assert (at_command c ids P (s <| st_tick ::= S |>)) as HA1 by (eapply at_command_sim; [|done]; solve_sim).
  destruct (ac_calm _ _ _ _ HA1) as (C & HC & _).
  eapply wp_connsoonestjob; [apply HA1|set_solver|done|].
  intros r. cbv zeta. intros HR Hs Hr.
  assert (at_command c ids P (with_soonest (s <| st_tick ::= S |>) c C r)) as HA2.
  { eapply at_command_sched; [done|done|done|]. intros C'. unfold with_soonest. rsimpl.
    rewrite lookup_insert_eq. intros HC'. apply (inj Some) in HC' as <-. intros Hn. simpl in Hn.
    rsimpl. by rewrite Hn in Hr. }
  destruct r as [j|]; [|wsteps; by apply HQ].
  destruct (reserved_live _ _ _ _ c j HR (proj1 Hr)) as [Jb HJ]. wsteps. by apply HQ.
Qed.

Lemma watched_live x X ids P s c C t :
  srv_inv x X ids P s → st_conns s !! c = Some C → t ∈ ms_items (c_watch C) → is_Some (st_tubes s !! t).
Proof. intros HI HC Ht. by apply (wr_watch _ _ (qi_wait _ _ _ _ (sv_queue _ _ _ _ _ HI)) c C HC). Qed.

Lemma wp_conn_ready c ids P s (Q : bool → St → Prop) :
  at_command c ids P s → (∀ b, Q b s) → wp (conn_ready c) Q s.
Proof.
  intros HA HQ. destruct (ac_calm _ _ _ _ HA) as (C & HC & _). unfold conn_ready. wsteps.
  assert (∀ t, t ∈ ms_items (c_watch C) → is_Some (st_tubes s !! t)) as Hl.
  { intros t. by eapply watched_live; [apply HA|]. }
  induction (ms_items (c_watch C)) as [|t l IH]; cbn [conn_ready_loop]; [wsteps; apply HQ|].
  destruct (Hl t) as [T HT]; [by left|]. wsteps. case_match; [wsteps; apply HQ|]. apply IH.
  intros t' Ht'. apply Hl. by right.
Qed.

(** ** Waiting *)

Lemma wp_ms_append {A} (y : A) (a : Ms A) (Q : bool * Ms A → St → Prop) s :
  (∀ n b a', b = true ∧ ms_items a' = ms_items a ++ [y] ∨ b = false ∧ a' = a →
     Q (b, a') (s <| st_tick := n |>)) →
  wp (ms_append_M y a) Q s.
Proof.
  intros HQ. unfold ms_append_M.
  assert (∀ ok n, Q (ms_append ok y a) (s <| st_tick := n |>)) as Hok.
  { intros ok n. pose proof (ms_append_spec ok y a) as Ha.
    destruct (ms_append ok y a) as [[] a']; apply HQ; destruct Ha; [by left|by right]. }
  destruct (_ <=? _)%nat.
  - apply wp_bind, wp_malloc_ok. intros b. wsteps. apply Hok.
  - wsteps. specialize (Hok true (st_tick s)).
    assert (s <| st_tick := st_tick s |> = s) as Hs by (by destruct s). by rewrite Hs in Hok.
Qed.

(** The loop of [enqueue_waiting_conn]: [c] waits, and is not yet in the tubes
    of [todo]. *)
Record enlisting c C ids P (todo : list tubep) s : Prop := {
  en_inv : srv_inv none ∅ ids P s;
  en_conn : st_conns s !! c = Some C;
  en_wait : conn_waiting C = true;
  en_todo t : t ∈ todo → t ∈ ms_items (c_watch C) ∧
    ∀ T, st_tubes s !! t = Some T → c ∉ ms_items (t_waiting_conns T);
  en_nodup : NoDup todo;
}.

(** Any change of the waiting connections of a tube that [wait_rep] admits. *)
Lemma enlisting_step c C ids P t todo s T T' :
  enlisting c C ids P (t :: todo) s → st_tubes s !! t = Some T →
  q_tube T' = q_tube T → x_tube T' = x_tube T →
  (ms_items (t_waiting_conns T') = ms_items (t_waiting_conns T) ++ [c] ∨
   ms_items (t_waiting_conns T') = ms_items (t_waiting_conns T)) →
  enlisting c C ids P todo (s <| st_tubes ::= <[t := T']> |>).
Proof.
  intros [HI HC Hw Htd Hnd] HT Hq Hx Hms. set (s' := s <| st_tubes ::= _ |>).
  apply NoDup_cons in Hnd as [Hnt Hnd]. destruct (Htd t) as [Htw Hct]; [by left|].
  specialize (Hct T HT). pose proof (sv_queue _ _ _ _ _ HI) as [HR HWt Hca].
  assert (∀ y, y ∈ ms_items (t_waiting_conns T') → y = c ∨ y ∈ ms_items (t_waiting_conns T)) as Hin.
  { intros y. destruct Hms as [-> | ->]; set_solver. }
  split; [|done|done| |done].
  - eapply srv_inv_step; [exact HI|split| |apply HI..].
    + eapply queue_rep_sim; [|exact HR]. split; unfold s'; rsimpl; try done. by eapply same_but_insert.
    + destruct HWt as [W1 W2 W3]. split.
      * intros c' C' HC'. destruct (W1 c' C' HC') as [? Hl]. split; [done|]. intros t' Ht'%Hl.
        unfold s'. rsimpl. destruct (decide (t' = t)) as [->|]; [rewrite lookup_insert_eq; eauto|].
        by rewrite lookup_insert_ne.
      * intros t' T0. unfold s'. rsimpl. intros [[<- <-]|[_ HT0]]%lookup_insert_Some; [|by eapply W2].
        pose proof (W2 t T HT). destruct Hms as [-> | ->]; [|done].
        apply NoDup_app. split_and!; [done| |apply NoDup_singleton]. set_solver.
      * intros t' T0 y. unfold s'. rsimpl. intros [[<- <-]|[_ HT0]]%lookup_insert_Some Hy; [|by eapply W3].
        destruct (Hin y Hy) as [->|Hy']; [by exists C|by eapply W3].
    + done.
    + split; try done. unfold s'. rsimpl. by eapply same_but_insert.
  - intros t' Ht'. destruct (Htd t') as [Hw' Hc']; [by right|]. split; [done|].
    intros T0. unfold s'. rsimpl. assert (t' ≠ t) by (intros ->; done).
    rewrite lookup_insert_ne by done. apply Hc'.
Qed.

Lemma enlisting_sim c C ids P todo s s' :
  srv_sim s s' → st_conns s' = st_conns s → st_tubes s' = st_tubes s →
  enlisting c C ids P todo s → enlisting c C ids P todo s'.
Proof.
  intros Hs HC HT [HI HCc Hw Htd Hnd]. split; [by eapply srv_inv_sim|by rewrite HC|done|by rewrite HT|done].
Qed.

(** [enqueue_waiting_conn] *)
Lemma wp_enqueue_waiting c C ids P s (Q : unit → St → Prop) :
  srv_inv none ∅ ids P s → st_conns s !! c = Some C → at_rest C → c_state C = STATE_WAIT →
  (∀ s', srv_inv none ∅ ids P s' → is_Some (st_conns s' !! c) → Q tt s') →
  wp (enqueue_waiting_conn c) Q s.
Proof.
  intros HI HC [Hw Hrest] Hwait HQ.
  unfold enqueue_waiting_conn, upd_global_stat. wsteps.
  set (C' := C <| c_type ::= Z.lor CONN_TYPE_WAITING |>).
  match goal with |- wp _ _ ?s' => set (s1 := s') end.
  assert (conn_waiting C' = true) as Hw'.
  { unfold conn_waiting, C'. rsimpl. rewrite Z.land_lor_distr_l. apply negb_true_iff, Z.eqb_neq.
    intros H0%Z.lor_eq_0_iff. by destruct H0. }
  pose proof (sv_queue _ _ _ _ _ HI) as [HR [W1 W2 W3] Hca].
  assert (enlisting c C' ids P (ms_items (c_watch C')) s1) as HE.
  { split.
    - eapply srv_inv_step; [exact HI|split| |apply HI| |].
      + eapply queue_rep_sim; [|exact HR]. unfold s1. solve_frame.
      + unfold s1. split; rsimpl; [|done|].
        * intros c' C0 [[<- <-]|[_ HC0]]%lookup_insert_Some; [exact (W1 c C HC)|by eapply W1].
        * intros t T y HT Hy. destruct (W3 t T y HT Hy) as (Cy & HCy & Hty & Hwy).
          destruct (decide (y = c)) as [->|].
          -- rewrite lookup_insert_eq. exists C'. assert (Cy = C) as -> by congruence. done.
          -- rewrite lookup_insert_ne by done. eauto.
      + intros c' C0. unfold s1. rsimpl. intros [[<- <-]|[_ HC0]]%lookup_insert_Some Hw0.
        * split; [set_solver|]. intros Hs. by apply (sv_known _ _ _ _ _ HI c ltac:(set_solver) C HC).
        * by eapply Hca.
      + unfold s1. split; try done. rsimpl. by eapply same_but_insert.
      + intros c' Hc' C0. unfold s1. rsimpl. intros [[<- <-]|[_ HC0]]%lookup_insert_Some.
        * by apply (sv_known _ _ _ _ _ HI c Hc' C HC).
        * by apply (sv_known _ _ _ _ _ HI c' Hc' C0 HC0).
      + unfold s1. rsimpl. eapply owns_insert; [done|done| |done|done|apply HI]. by intros [].
    - unfold s1. rsimpl. apply lookup_insert_eq.
    - done.
    - intros t Ht. split; [done|]. intros T HT Hin.
      destruct (W3 t T c HT Hin) as (C0 & HC0 & _ & Hw0). assert (C0 = C) as -> by congruence.
      rewrite Hw0 in Hw; [done|set_solver].
    - by apply (W1 c C). }
  eapply (wp_forM _ _ (enlisting c C' ids P)); [exact HE| |].
  - intros t todo s2 HE2. pose proof HE2 as [HI2 HC2 _ Htd2 _]. destruct (Htd2 t) as [Htw _]; [by left|].
    destruct (watched_live _ _ _ _ _ _ _ _ HI2 HC2 Htw) as [T HT]. unfold upd_tube_stat. wsteps.
    apply wp_ms_append. intros n b a' Ha. wsteps.
    match goal with |- enlisting _ _ _ _ _ ?s' => set (s3 := s') end.
    set (T' := T <| t_stat ::= fun st => st <| waiting_ct ::= incr64 |> |> <| t_waiting_conns := a' |>).
    apply (enlisting_sim c C' ids P todo (s2 <| st_tubes ::= <[t := T']> |>)).
    + unfold s3. split; split; rsimpl; try done; by rewrite insert_insert_eq.
    + done.
    + unfold s3. rsimpl. by rewrite insert_insert_eq.
    + eapply enlisting_step; [exact HE2|exact HT|done|done|]. unfold T'. rsimpl.
      destruct Ha as [[_ ->]|[_ ->]]; [by left|by right].
  - intros s2 [HI2 HC2 _ _ _]. apply HQ; [done|eauto].
Qed.

Lemma wp_wait_for_job c ids P s timeout (Q : unit → St → Prop) :
  at_command c ids P s → (∀ s', srv_inv none ∅ ids P s' → Q tt s') → wp (wait_for_job c timeout) Q s.
Proof.
  intros HA HQ. unfold wait_for_job. destruct (ac_calm _ _ _ _ HA) as (C & HC & Hr). wsteps.
  eapply wp_enqueue_waiting.
  { by apply srv_inv_rest; [apply HA|..]. }
  { rsimpl. apply lookup_insert_eq. }
  { done. }
  { done. }
  intros s1 HI1 [C1 HC1]. wsteps.
  eapply wp_epollq_add_srv; [eapply srv_inv_sim; [|exact HI1]; apply (conn_sim s1 c C1); [done|by split_and!]|by left| |].
  - rsimpl. rewrite lookup_insert_eq. eauto.
  - intros s2 HI2 _ _. by apply HQ.
Qed.

(** ** Reserve *)

Lemma process_queue_safe x ids P s : srv_inv x ∅ ids P s → wp process_queue (λ _ s', ∃ P', srv_inv x ∅ ids P' s') s.
Proof.
  intros HI. eapply wp_process_queue_inv; [apply HI|]. intros P' s' Hs HI'. exists P'.
  eapply (srv_inv_moving _ ∅ ∅ ∅); [exact HI|by apply moving_serve|done|]. by intros j ?%not_elem_of_empty.
Qed.

Lemma reserve_common_safe c ids P s o timeout : at_command c ids P s → safe (reserve_common c o timeout) s.
Proof.
  intros HA. unfold reserve_common. eapply count_op_safe; [done|]. clear s HA. intros s HA.
  unfold safe. apply wp_bind. eapply wp_connsetworker; [done|]. intros s1 _ HA1.
  apply wp_bind. eapply wp_conndeadlinesoon; [done|]. intros soon s2 HA2. apply wp_bind.
  assert (∀ d : bool, wp (if d then reply_msg c MSG_DEADLINE_SOON
            else wait_for_job c timeout;; process_queue) (λ _ s', sound s') s2) as Hend.
  { intros [|]; [by eapply msg_safe|]. apply wp_bind. eapply wp_wait_for_job; [done|].
    intros s3 HI3. eapply wp_mono; [by eapply process_queue_safe|]. intros [] s4 [P4 HI4]. by exists ids, P4. }
  destruct soon.
  - apply wp_bind. eapply wp_conn_ready; [done|]. intros b. wsteps. apply Hend.
  - apply wp_ret. apply (Hend false).
Qed.

Lemma cmd_reserve_safe c ids P s : at_command c ids P s → safe (cmd_reserve c) s.
Proof.
  intros HA. unfold cmd_reserve, bad_format, safe. destruct (ac_calm _ _ _ _ HA) as (C & HC & _). wsteps.
  case_match; [by eapply msg_safe|by eapply reserve_common_safe].
Qed.

Lemma cmd_reserve_timeout_safe c ids P s args : at_command c ids P s → safe (cmd_reserve_timeout c args) s.
Proof.
  intros HA. unfold cmd_reserve_timeout, bad_format. destruct (read_u32 false args) as [[u r]|]; [|by eapply msg_safe].
  case_match; [by eapply msg_safe|by eapply reserve_common_safe].
Qed.

(** ** Reserve by id *)

Lemma loose_sim P s s' j t Jb :
  srv_sim s s' → st_jobs s' = st_jobs s → loose P s j t Jb → loose P s' j t Jb.
Proof.
  intros Hs Hj [H1 H2 H3 H4 [T H5]]. split; [done|by rewrite Hj|done|done|].
  destruct (same_but_lookup _ _ _ _ _ (sf_tubes _ _ (sm_frame _ _ Hs)) H5) as (? & ? & _). eauto.
Qed.

(** The job that was taken is reserved by [c] and sent to it. *)
Lemma reserve_taken_safe c ids P s s1 j :
  srv_inv none ∅ ids P s → taken_for ∅ c ids P s j s1 →
  safe (connsetworker c;;
        upd_global_stat (fun st => st <| reserved_ct ::= incr64 |>);;
        conn_reserve_job c j;;
        reply_job c j MSG_RESERVED) s1.
Proof.
  intros HI (t & Jb & HM & HL & _ & (C & HC & Hat) & Hun). pose proof Hat as [Hw _]. set (P1 := delete j P) in *.
  assert (owns ∅ P1 (st_jobs s1) (st_conns s1)) as Hown1.
  { eapply owns_stays; [apply HM| | |apply HI].
    - by apply (same_but_dom x_conn), sf_conns, HM.
    - by intros y ->%elem_of_singleton. }
  assert (unowned ∅ (st_conns s1) j) as Hun1.
  { eapply stays_unowned; [apply HM| | |done].
    - by apply (same_but_dom x_conn), sf_conns, HM.
    - intros c'. unfold P1. by rewrite lookup_delete_eq. }
  assert (∀ s2 C2, srv_sim s1 s2 → st_jobs s2 = st_jobs s1 → st_conns s2 !! c = Some C2 →
    wp (conn_reserve_job c j;; reply_job c j MSG_RESERVED) (λ _ s', sound s') s2) as Hrest.
  { intros s2 C2 Hs2 Hj2 HC2. pose proof (loose_sim _ _ _ _ _ _ Hs2 Hj2 HL) as HL2.
    assert (∀ c', known P1 s2 c') as Hk2.
    { intros c'. eapply known_sim; [apply Hs2|]. apply (tl_known _ _ _ _ _ (st_tells _ _ _ _ _ _ (mo_stays _ _ _ _ _ _ _ HM))).
      - set_solver.
      - eapply sv_known; [done|set_solver]. }
    assert (queue_inv ∅ ids P1 s2) as HI2 by (eapply queue_inv_sim; [apply Hs2..|apply HM]).
    apply wp_bind. eapply wp_conn_reserve_job; [apply HI2|done|set_solver|done|by apply Hk2|].
    intros s3 HR3 Hres. destruct (reserved_frame c j C2 Jb s2 s3 HC2 (lo_job _ _ _ _ _ HL2) Hres) as [HF3 HW3].
    destruct Hres as [_ _ [m Hc3] (Jb' & Hj3 & _) _].
    assert (is_Some (st_conns s3 !! c)) as [C3 HC3] by (rewrite Hc3, lookup_insert_eq; eauto).
    assert (st_jobs s3 !! j = Some Jb') as HJ3 by (rewrite Hj3; apply lookup_insert_eq).
    eapply wp_reply_job; [exact HR3|set_solver|exact HC3|exact HJ3|].
    intros s4 HR4 Hio Hk4 (C4 & HC4 & He4).
    assert (∀ c', known (<[j := InReserved c]> P1) s4 c') as Hall.
    { intros c'. destruct (decide (c' = c)) as [->|Hne]; [done|].
      apply (known_tick _ s3); [by apply (io_other _ _ _ Hio)|]. intros C'. rewrite Hc3, lookup_insert_ne by done.
      intros HC' Hs y. destruct (decide (y = j)) as [->|]; [rewrite lookup_insert_eq; congruence|].
      rewrite lookup_insert_ne by done. by apply (Hk2 c' C'). }
    assert (unowned ∅ (st_conns s2) j) as Hun2 by (eapply unowned_same; [apply Hs2|done]).
    destruct (same_but_lookup_inv _ _ _ _ _ (os_conns _ _ (sm_owns _ _ Hs2)) HC2)
      as (C1 & HC1 & He1). pose proof (emptied_o _ _ He1) as Hf2.
    apply o_conn_inv in He1 as (Hw2 & _ & Hi2 & _ & _ & _).
    assert (C1 = C) as -> by congruence. destruct Hat as (_ & Hi & _ & Hf).
    rewrite Hc3, lookup_insert_eq in HC3. apply (inj Some) in HC3 as <-.
    exists ids, (<[j := InReserved c]> P1). eapply srv_inv_step; [exact HI|split| | |done|].
    - done.
    - eapply wait_rep_sim; [by eapply io_wait|]. eapply wait_rep_sim; [done|apply HI2].
    - intros c' C' HC' _. split; [set_solver|by apply Hall].
    - etrans; [apply HM|]. etrans; [apply Hs2|].
      etrans; [by apply qframe_sframe|by eapply qframe_sframe, io_frame].
    - intros y. destruct (decide (y = j)) as [->|Hne].
      { apply placed_idle. rewrite lookup_insert_eq. eauto. }
      apply (idle_at_same P1 _ s2).
      + by rewrite lookup_insert_ne.
      + by rewrite (io_jobs _ _ _ Hio), Hj3, lookup_insert_ne.
      + eapply idle_at_sim; [apply Hs2|]. apply (st_idle _ _ _ _ _ _ (mo_stays _ _ _ _ _ _ _ HM) y); [set_solver|apply HI].
    - rewrite (io_jobs _ _ _ Hio), Hj3. change (lc_conns none) with (∅ : gset connp).
      assert (c_in_job C4 = None) as Hi4.
      { rewrite <- Hi, <- Hi2. exact (f_equal c_in_job He4). }
      assert (c_out_job C4 = Some j) as Ho4 by exact (f_equal c_out_job He4).
      assert (c_type C4 = c_type C2) as Hty by exact (f_equal c_type He4).
      assert (replying (c_state C4)) as Hst4.
      { assert (c_state C4 = (line_reply (job_line MSG_RESERVED Jb') STATE_SEND_JOB).2) as ->
          by exact (f_equal c_state He4).
        unfold replying, line_reply. case_match; auto. }
      eapply (owns_set ∅ _ _ (st_conns s2) _ c C4); [| |exact HC4| | | |].
      + apply owns_enter. eapply owns_unowned_at; [|exact Hun2|].
        * intros y Hy. split; [by rewrite lookup_insert_ne|apply lookup_insert_ne; congruence].
        * eapply owns_same; [apply Hs2..|done].
      + intros c' Hne. pose proof (io_other _ _ _ Hio c' Hne) as Hc.
        apply (f_equal (fmap o_conn)) in Hc. rewrite <- !option_fmap_compose in Hc.
        etrans; [exact Hc|]. rewrite Hc3, lookup_insert_ne by done. done.
      + unfold conn_waiting in *. rewrite Hty. congruence.
      + assert (emptied C4) as [??].
        { apply (emptied_z C2); [exact (f_equal z_conn He4)|]. by apply Hf2. }
        split; rewrite ?Hi4, ?Ho4; [done| | |eauto|done|done].
        * intros y [= <-]. split; [by left|]. left. apply lookup_insert_eq.
        * by destruct Hst4 as [-> | ->].
      + by rewrite Hi4.
      + rewrite Ho4. intros y [= <-] c' C' _ HC'. by apply (Hun2 c' C'). }
  unfold safe, connsetworker, upd_counts, upd_global_stat. wsteps. case_match; wsteps.
  - apply wp_bind_inv. eapply Hrest; [solve_sim|done|done].
  - apply wp_bind_inv. eapply Hrest; [|done|rsimpl; apply lookup_insert_eq].
    etrans; [by apply (connset_sim s1 c C 2 ((st_counts s1) <| cur_worker_ct ::= Z.succ |>))|]. solve_sim.
Qed.

Lemma cmd_reserve_job_safe c ids P s args : at_command c ids P s → safe (cmd_reserve_job c args) s.
Proof.
  intros HA. unfold cmd_reserve_job, not_found. eapply with_id_safe; [done|]. clear s HA. intros id s Hid HA.
  pose proof HA as [HI _ HC]. unfold safe. apply wp_bind. eapply wp_find; [done|done|..].
  { intros _. by eapply msg_safe. }
  intros j Jb Hj HJ _. wsteps. cbv zeta.
  pose proof (λ s' H, reserve_taken_safe c ids P s s' j HI H) as Htk. unfold safe in Htk.
  destruct (r_state (j_r Jb)) eqn:Hst; try by eapply msg_safe.
  - apply wp_bind. eapply wp_take_ready; [done..|congruence|]. intros s1 t _ H. apply (Htk s1 H).
  - apply wp_bind. eapply wp_take_buried; [done..|congruence|]. intros s1 t _ H. apply (Htk s1 H).
  - apply wp_bind. eapply wp_take_delayed; [done..|congruence|]. intros s1 t _ H. apply (Htk s1 H).
Qed.
End reserving.
