(* ===== verification/Showing.v ===== *)
(** The commands that show jobs, statistics and names, on the invariant of the
    server.  They send a copy or a fake job, which no list and no table has. *)
From S2P Require Import Prelude Heap Ms State Monad JobList JobHash Tube Job Wal Conn Queue QueueRep QueueOps QueueConn QueueProc Process Runs Owners QueueCmds QueueLoops Refs Life Sound Parse ParseSpec Stats Dispatch Commands.
#[local] Open Scope Z_scope.

Section showing.
Context {E : Env} {SI : SysInfo}.
Implicit Types (P : places) (ids : gmap Z jobp) (X : gset connp) (s : St) (x : local).
Implicit Types (j : jobp) (t : tubep) (c : connp) (C : Conn).

(** ** Peek *)

Lemma peek_safe c ids P s (j : option jobp) :
  at_command c ids P s → (∀ y, j = Some y → is_Some (st_jobs s !! y)) → safe (peek_reply c j) s.
Proof.
  intros HA Hj. unfold peek_reply, not_found, safe. apply wp_bind.
  destruct j as [j|]; [|by eapply msg_safe]. destruct (Hj j eq_refl) as [J HJ].
  pose proof HA as [HI [_ _ Hr] HC].
  eapply wp_job_copy; [exact HI|exact HJ| | |].
  - intros t _. specialize (Hr t). cbn [none lc_refs]. lia.
  - eapply msg_safe. eapply at_command_sim; [|exact HA]. solve_sim.
  - intros n s' Hn HI' HJ' Hs'. eapply reply_job_safe; [exact HI'|by left| | | |].
    + unfold calm. by rewrite (lf_conns _ _ Hs').
    + rewrite HJ', lookup_insert_eq. eauto.
    + right. split; [by eapply fresh_place; [apply HI|]|]. rewrite HJ', lookup_insert_eq. by eexists.
    + rewrite (lf_conns _ _ Hs'). intros c' C' _ HC'. by apply (fresh_unowned _ _ _ _ _ _ HI Hn c' C').
Qed.

Lemma wp_heap_first f J h M (Q : option jobp → St → Prop) s :
  heap_rep f J h M → (∀ r, (∀ y, r = Some y → is_Some (J !! y)) → Q r s) → wp (heap_first h) Q s.
Proof.
  intros Hh HQ. unfold heap_first. destruct (Nat.eqb_spec (h_len h) 0) as [H0|H0].
  - wsteps. by apply HQ.
  - destruct (heap_rep_first _ _ _ _ Hh H0) as (j & Jb & Hj & HJ & _).
    eapply wp_bind, wp_from_option; [done|]. wsteps. apply HQ. intros y [= <-]. eauto.
Qed.

Lemma cmd_peek_ready_safe c ids P s : at_command c ids P s → safe (cmd_peek_ready c) s.
Proof.
  intros HA. eapply no_garbage_safe; [done|]. clear s HA. intros s HA. unfold safe.
  apply wp_bind. eapply wp_use_tube; [done|]. intros t C T _ _ HT _. wsteps.
  eapply wp_heap_first; [apply (qr_ready _ _ _ _ (qi_rep _ _ _ _ (sv_queue _ _ _ _ _ (ac_inv _ _ _ _ HA))) t T HT)|].
  intros j Hj. by eapply peek_safe.
Qed.
Lemma cmd_peek_delayed_safe c ids P s : at_command c ids P s → safe (cmd_peek_delayed c) s.
Proof.
  intros HA. eapply no_garbage_safe; [done|]. clear s HA. intros s HA. unfold safe.
  apply wp_bind. eapply wp_use_tube; [done|]. intros t C T _ _ HT _. wsteps.
  eapply wp_heap_first; [apply (qr_delay _ _ _ _ (qi_rep _ _ _ _ (sv_queue _ _ _ _ _ (ac_inv _ _ _ _ HA))) t T HT)|].
  intros j Hj. by eapply peek_safe.
Qed.
Lemma cmd_peek_buried_safe c ids P s : at_command c ids P s → safe (cmd_peek_buried c) s.
Proof.
  intros HA. eapply no_garbage_safe; [done|]. clear s HA. intros s HA. unfold safe.
  apply wp_bind. eapply wp_use_tube; [done|]. intros t C T _ _ HT _.
  pose proof (qi_rep _ _ _ _ (sv_queue _ _ _ _ _ (ac_inv _ _ _ _ HA))) as HR.
  pose proof (qr_buried _ _ _ _ HR t T HT) as HL. unfold buried_job_p. wsteps.
  eapply wp_list_rep_empty; [exact HL|intros Hno|intros j0 Hj0]; wsteps; cbn [negb].
  - wsteps. by eapply peek_safe.
  - wsteps. eapply wp_list_rep_next; [exact HL|exact Hj0|]. intros j Hj. cbn [job_of_node]. wsteps.
    eapply peek_safe; [done|]. intros y [= <-].
    destruct (qr_place _ _ _ _ HR j _ Hj) as (J & _ & _ & HJ & _). eauto.
Qed.

Lemma cmd_peek_job_safe c ids P s args : at_command c ids P s → safe (cmd_peek_job c args) s.
Proof.
  intros HA. unfold cmd_peek_job. eapply with_id_safe; [done|]. clear s HA. intros id s Hid HA.
  unfold safe. apply wp_bind. eapply wp_find; [apply HA|done|..].
  - intros _. by eapply peek_safe.
  - intros j Jb _ HJ _. eapply peek_safe; [done|]. intros y [= <-]. eauto.
Qed.

(** ** Reading *)

(** [m] only reads the state, looking at the clock. *)
Definition reads {A} (m : M A) (s : St) : Prop := wp m (λ _ s', ∃ n, s' = s <| st_tick := n |>) s.

(** What reading depends on. *)
Record shows (s s' : St) : Prop := {
  sh_tubes : st_tubes s' = st_tubes s;
  sh_set : tubes s' = tubes s;
  sh_wal : srv_wal s' = srv_wal s;
  sh_jobs j J : st_jobs s !! j = Some J → st_jobs s' !! j = Some J;
}.
#[export] Instance shows_pre : PreOrder shows.
Proof. split; [by split|]. intros s1 s2 s3 [] []. split; [congruence..|auto]. Qed.

(** [m] reads in [s] and in every state that shows the same. *)
Definition readable {A} (m : M A) (s : St) : Prop := ∀ s', shows s s' → reads m s'.

Lemma shows_tick s n : shows s (s <| st_tick := n |>).
Proof. by split. Qed.

Lemma readable_bind {A B} (m : M A) (k : A → M B) s :
  readable m s → (∀ a, readable (k a) s) → readable (m ≫= k) s.
Proof.
  intros Hm Hk s' Hs. unfold reads. apply wp_bind. eapply wp_mono; [by apply Hm|].
  intros a s1 [n ->]. eapply wp_mono; [apply (Hk a); by etrans; [exact Hs|apply shows_tick]|].
  intros b s2 [n2 ->]. exists n2. by destruct s'.
Qed.
Lemma readable_ret {A} (a : A) s : readable (mret a) s.
Proof. intros s' _. exists (st_tick s'). by destruct s'. Qed.
Lemma readable_gets {A} (f : St → A) s : readable (gets f) s.
Proof. intros s' _. exists (st_tick s'). by destruct s'. Qed.
Lemma readable_gets_bind {A B} (f : St → A) (k : A → M B) s :
  (∀ s', shows s s' → readable (k (f s')) s') → readable (gets f ≫= k) s.
Proof. intros Hk s' Hs. apply (Hk s' Hs s'). done. Qed.
Lemma readable_tick s : readable tick s.
Proof. intros s' _. unfold reads. apply wp_tick. by exists (S (st_tick s')). Qed.
Lemma readable_clock s : readable nanoseconds s.
Proof. intros s' _. unfold reads. apply wp_nanoseconds. intros _. by exists (S (st_tick s')). Qed.
Lemma readable_tube t s : is_Some (st_tubes s !! t) → readable (deref st_tubes t) s.
Proof.
  intros [T HT] s' Hs. unfold reads. eapply wp_deref; [by rewrite (sh_tubes _ _ Hs)|].
  exists (st_tick s'). by destruct s'.
Qed.
Lemma readable_job j J s :
  st_jobs s !! j = Some J → ∀ {A} (k : Job → M A), readable (k J) s → readable (deref st_jobs j ≫= k) s.
Proof.
  intros HJ A k Hk s' Hs. unfold reads. apply wp_bind. eapply wp_deref; [by apply (sh_jobs _ _ Hs)|].
  by apply Hk.
Qed.
Lemma readable_none s : readable (file_seq None) s.
Proof. apply readable_ret. Qed.

Lemma readable_mapM {A B} (f : A → M B) l s :
  (∀ a, a ∈ l → readable (f a) s) → readable (mapM_ f l) s.
Proof.
  induction l as [|a l IH]; intros Hf; cbn [mapM_]; [apply readable_ret|].
  apply readable_bind; [apply Hf; by left|]. intros b. apply readable_bind; [|intros; apply readable_ret].
  apply IH. intros a' Ha. apply Hf. by right.
Qed.

Lemma readable_shows {A} (m : M A) s s' : shows s s' → readable m s → readable m s'.
Proof. intros Hs Hm s2 Hs2. apply Hm. by etrans. Qed.

(** ** The three documents *)

Lemma readable_delayed_ct s :
  (∀ t, t ∈ ms_items (tubes s) → is_Some (st_tubes s !! t)) → readable get_delayed_job_ct s.
Proof.
  intros Hl. unfold get_delayed_job_ct. apply readable_gets_bind. intros s' Hs. unfold Datatypes.id.
  rewrite (sh_set _ _ Hs). apply (readable_shows _ s); [done|].
  revert Hl. generalize (ms_items (tubes s)) as l, 0 as n.
  intros l. induction l as [|t l IH]; intros n Hl; [apply readable_ret|].
  apply readable_bind; [apply readable_tube, Hl; by left|]. intros T. apply IH.
  intros t' Ht'. apply Hl. by right.
Qed.

Lemma fmt_stats_reads c ids P s : at_command c ids P s → readable fmt_stats s.
Proof.
  intros HA. pose proof (sv_log _ _ _ _ _ (ac_inv _ _ _ _ HA)) as [_ Hh Hc _].
  pose proof (qr_tubes _ _ _ _ (qi_rep _ _ _ _ (sv_queue _ _ _ _ _ (ac_inv _ _ _ _ HA)))) as [_ Hl].
  unfold fmt_stats. apply readable_gets_bind. intros s' Hs. unfold Datatypes.id.
  rewrite (sh_wal _ _ Hs), Hh, Hc. apply (readable_shows _ s); [done|].
  do 2 (apply readable_bind; [apply readable_none|intros ?]).
  apply readable_bind; [apply readable_tick|]. intros n.
  destruct (si_rusage n) as [[us uu] [ss su]].
  apply readable_bind; [by apply readable_delayed_ct|]. intros d.
  apply readable_bind.
  { apply readable_mapM. intros lo _. unfold op_line, op_count.
    apply readable_bind; [apply readable_gets|]. intros; apply readable_ret. }
  intros ops. unfold count_cur_conns, count_cur_producers, count_cur_workers, count_tot_conns.
  do 4 (apply readable_bind; [apply readable_gets|intros ?]).
  apply readable_bind; [|intros; apply readable_ret]. unfold uptime.
  apply readable_bind; [apply readable_clock|]. intros now.
  apply readable_bind; [apply readable_gets|]. intros; apply readable_ret.
Qed.

Lemma fmt_job_stats_reads x X ids P s j J :
  srv_inv x X ids P s → st_jobs s !! j = Some J → is_Some (j_tube J) → readable (fmt_job_stats j) s.
Proof.
  intros HI HJ [t Ht]. unfold fmt_job_stats.
  apply readable_bind; [apply readable_clock|]. intros now.
  eapply readable_job; [done|]. rewrite (lo_file _ (sv_log _ _ _ _ _ HI) j J HJ).
  apply readable_bind; [apply readable_none|]. intros n.
  apply readable_bind; [|intros; apply readable_ret].
  unfold Wal.tube_name_of. eapply readable_job; [done|]. rewrite Ht.
  change (readable (T ← deref st_tubes t; mret (t_name T)) s).
  apply readable_bind; [|intros; apply readable_ret]. apply readable_tube.
  pose proof (qi_rep _ _ _ _ (sv_queue _ _ _ _ _ HI)) as HR.
  apply (qr_tubes _ _ _ _ HR). by eapply qr_listed.
Qed.

Lemma fmt_stats_tube_reads t s : is_Some (st_tubes s !! t) → readable (fmt_stats_tube t) s.
Proof.
  intros HT. unfold fmt_stats_tube. apply readable_bind; [by apply readable_tube|]. intros T.
  apply readable_bind; [|intros; apply readable_ret].
  case_match; [|apply readable_ret]. apply readable_bind; [apply readable_clock|]. intros; apply readable_ret.
Qed.


(** ** Fake jobs *)

(** [s'] has a new object [n], in state [Copy], that [c] points to. *)
Record faked (n : jobp) c s s' : Prop := {
  fk_job : ∃ J, st_jobs s' = <[n := J]> (st_jobs s) ∧ r_state (j_r J) = Copy ∧
    j_tube J = None ∧ j_file J = None;
  fk_conn : ∃ C C', st_conns s !! c = Some C ∧ st_conns s' = <[c := C']> (st_conns s) ∧
    same_conn (C <| c_out_job := Some n |>) C';
  fk_links : st_links s' = <[NJob n := (NJob n, NJob n)]> (st_links s);
  fk_tubes : st_tubes s' = st_tubes s ∧ tubes s' = tubes s ∧ default_tube s' = default_tube s;
  fk_table : st_table s' = st_table s;
  fk_rest : srv_wal s' = srv_wal s ∧ srv_conns s' = srv_conns s;
}.

Lemma srv_inv_faked ids P c s s' n :
  srv_inv none ∅ ids P s → calm c s → st_jobs s !! n = None → faked n c s s' →
  srv_inv (acting c none) ∅ ids P s'.
Proof.
  intros HI (C0 & HC0 & Hr) Hn
    [(J & HJ & Hst & Ht & Hf) (C & C' & HC & HC' & Hq & Hw & Hx & Ho) HL (T1 & T2 & T3) HT (R1 & R2)].
  assert (C0 = C) as -> by congruence.
  pose proof (srv_inv_added_copy none ∅ ids P s n J HI Hn Hst Ht Hf) as HI1.
  apply (srv_inv_enter _ _ _ _ _ c) in HI1.
  assert (srv_inv (acting c none) ∅ ids P ((added s n J) <| st_conns ::= <[c := C']> |>)) as HI2.
  { eapply srv_inv_set; [exact HI1|exact HC|done..|]. apply owns_insert_in; [set_solver| |apply HI1].
    apply o_conn_inv in Ho as (-> & _). destruct Hr as [Hr _]. intros Hw'.
    change (conn_waiting C = true) in Hw'. congruence. }
  eapply srv_inv_sim; [|exact HI2]. unfold added.
  split; split; rsimpl; rewrite ?HJ, ?HC', ?HL, ?T1, ?T2, ?T3, ?HT, ?R1, ?R2; done.
Qed.
Lemma faked_shows c s s' n : st_jobs s !! n = None → faked n c s s' → shows s s'.
Proof.
  intros Hn [(J & HJ & _) _ _ (T1 & T2 & _) _ (R1 & _)]. split; [done..|].
  intros j Jb HJb. rewrite HJ, lookup_insert_ne; [done|congruence].
Qed.

(** Such an object can still be changed. *)
Lemma faked_tick c s s' n k : faked n c s s' → faked n c s (s' <| st_tick := k |>).
Proof. intros [H1 H2 H3 H4 H5 H6]. by split. Qed.
Lemma faked_job c s s' n J J' :
  faked n c s s' → st_jobs s' !! n = Some J → r_state (j_r J') = r_state (j_r J) →
  j_tube J' = j_tube J → j_file J' = j_file J → faked n c s (s' <| st_jobs ::= <[n := J']> |>).
Proof.
  intros [(J0 & HJ & H1 & H2 & H3) C L T B R] HJ0 E1 E2 E3.
  rewrite HJ, lookup_insert_eq in HJ0. apply (inj Some) in HJ0 as ->. split; try done.
  exists J'. rsimpl. rewrite HJ, insert_insert_eq. split_and!; congruence.
Qed.
Lemma faked_conn c s s' n C' C2 :
  faked n c s s' → st_conns s' !! c = Some C' → same_conn C' C2 →
  faked n c s (s' <| st_conns ::= <[c := C2]> |>).
Proof.
  intros [J (C & C0 & HC & HC' & Q1 & Q2 & Q3 & Q4) L T B R] HC0 (E1 & E2 & E3 & E4).
  rewrite HC', lookup_insert_eq in HC0. apply (inj Some) in HC0 as ->. split; try done.
  exists C, C2. rsimpl. rewrite HC', insert_insert_eq.
  split_and!; [done|done|]. split_and!; congruence.
Qed.
Lemma faked_live c s s' n : faked n c s s' → is_Some (st_jobs s' !! n) ∧ is_Some (st_conns s' !! c).
Proof. intros [(J & -> & _) (C & C' & _ & -> & _) _ _ _ _]. rewrite !lookup_insert_eq. eauto. Qed.

(** [allocate_job], and then the object is made a copy. *)
Lemma wp_allocate size s (Q : option jobp → St → Prop) :
  Q None (s <| st_tick ::= S |>) →
  (∀ n now, st_jobs s !! n = None →
     Q (Some n) (s <| st_tick := S (S (st_tick s)) |>
       <| st_jobs ::= <[n := job_zero <| j_cap := size |>
            <| j_r ::= fun r => r <| r_created_at := now |> <| r_body_size := size |> |>]> |>
       <| st_links ::= <[NJob n := (NJob n, NJob n)]> |>)) →
  wp (allocate_job size) Q s.
Proof.
  intros HN HS. unfold allocate_job. wsteps. apply wp_malloc; [done|by wsteps|]. intros n Hn.
  unfold job_list_reset, put_link. wsteps. specialize (HS n t Hn).
  match goal with |- Q _ ?s' => match type of HS with Q _ ?s0 => assert (s' = s0) as -> end end; [|done].
  apply St_eq; rsimpl; rewrite ?insert_insert_eq; done.
Qed.

(** The start of the two commands. *)
Lemma wp_fake {A} c ids P s size (kN : M A) (kS : jobp → M A) (Q : A → St → Prop) :
  at_command c ids P s →
  (∀ s', at_command c ids P s' → wp kN Q s') →
  (∀ n s', st_jobs s !! n = None → faked n c s s' → wp (kS n) Q s') →
  wp (j ← allocate_job size; set_out_job c j;;
      match j with
      | None => kN
      | Some j => upd_rec j (fun r => r <| r_state := Copy |>);; kS j
      end) Q s.
Proof.
  intros HA HN HS. destruct (ac_calm _ _ _ _ HA) as (C & HC & _ & _ & Ho & _). unfold set_out_job, upd_rec.
  apply wp_bind, wp_allocate.
  - wsteps. apply HN. eapply at_command_sim; [|exact HA].
    etrans; [|apply (conn_sim _ c C); [done|by unfold same_conn, o_conn; rsimpl; rewrite Ho]]. solve_sim.
  - intros n now Hn. wsteps. apply (HS n); [done|]. split; try done.
    + eexists. rsimpl. rewrite insert_insert_eq. split; [reflexivity|done].
    + exists C. eexists. rsimpl. by split_and!.
Qed.

(** The end of the two commands. *)
Section end_fake.
Context (c : connp) (ids : gmap Z jobp) (P : places) (s s' : St) (n : jobp).
Context (HA : at_command c ids P s) (Hn : st_jobs s !! n = None) (HF : faked n c s s').

Lemma faked_said s2 C1 st :
  queue_rep P ids ∅ s2 → io_step c s' s2 → known P s2 c → now_is s2 c C1 →
  (∃ C', st_conns s' !! c = Some C' ∧ c_type C1 = c_type C' ∧ c_in_job C1 = c_in_job C' ∧
     c_out_job C1 = c_out_job C' ∧ (emptied C' → emptied C1)) → c_state C1 = st → replying st → sound s2.
Proof.
  intros HR Hio Hk Hnow (C' & HC' & Hty & Hi & Ho & Hf) Hs Hst. exists ids, P.
  pose proof HA as [HI _ Hc]. pose proof HF as [(J & HJ & HJst & _) (C & C2 & HC & HC2 & _ & _ & _ & He) _ _ _ _].
  rewrite HC2, lookup_insert_eq in HC'. apply (inj Some) in HC' as ->.
  pose proof (emptied_o _ _ He) as Ef.
  apply o_conn_inv in He as (Ew & _ & Ei & _ & Eo & _). destruct Hc as (C0 & HC0 & Rw & Ri & _ & Rf).
  assert (C0 = C) as -> by congruence.
  eapply said_job; [eapply srv_inv_faked; [exact HI|apply HA|done..]|by left|apply handled_acting|done..| | | | |done|done| |].
  - unfold conn_waiting in *. rewrite Hty. exact (eq_trans Ew Rw).
  - rewrite Hi, Ei. exact Ri.
  - rewrite Ho, Eo. reflexivity.
  - apply Hf, Ef, Rf.
  - right. split; [by eapply fresh_place; [apply HI|]|]. rewrite HJ, lookup_insert_eq. by eexists.
  - rewrite HC2. intros c' C3 Hc' HC3. assert (c' ≠ c) by set_solver.
    rewrite lookup_insert_ne in HC3 by done. by apply (fresh_unowned _ _ _ _ _ _ HI Hn c' C3).
Qed.
Lemma faked_rep : queue_rep P ids ∅ s' ∧ is_Some (st_conns s' !! c).
Proof.
  split; [|by eapply faked_live]. pose proof HA as [HI _ Hc].
  apply (sv_queue _ _ _ _ _ (srv_inv_faked _ _ _ _ _ _ HI Hc Hn HF)).
Qed.
Lemma faked_line_safe line : safe (reply_line c STATE_SEND_JOB line) s'.
Proof.
  destruct faked_rep as [HR [C' HC']]. eapply wp_reply_line; [exact HR|set_solver|exact HC'|].
  intros s2 HR2 Hio Hk Hnow. eapply faked_said; [done..|by exists C'|done|].
  unfold line_reply, replying. simpl. case_match; auto.
Qed.
Lemma faked_msg_safe m : safe (reply_msg c m) s'.
Proof.
  destruct faked_rep as [HR [C' HC']]. eapply wp_reply; [exact HR|set_solver|exact HC'|].
  intros s2 HR2 Hio Hk Hnow. eapply faked_said; [done..|by exists C'|done|by left].
Qed.
End end_fake.

Lemma do_stats_safe c ids P s fmt :
  at_command c ids P s → readable fmt s → safe (do_stats c fmt) s.
Proof.
  intros HA Hf. unfold do_stats, safe. apply wp_bind.
  eapply wp_mono; [apply Hf; done|]. intros s1 s' [k ->].
  assert (at_command c ids P (s <| st_tick := k |>)) as HA1 by (eapply at_command_sim; [|done]; solve_sim).
  apply (readable_shows _ _ _ (shows_tick s k)) in Hf. clear HA. revert HA1 Hf.
  generalize (s <| st_tick := k |>). clear s k. intros s HA Hf. cbv zeta.
  eapply wp_fake; [done|intros s' HA'; by eapply msg_safe|].
  intros n s2 Hn HF. apply wp_bind.
  eapply wp_mono; [apply Hf; by eapply faked_shows|]. intros s2' s3 [k ->]. apply (faked_tick _ _ _ _ k) in HF.
  destruct (faked_live _ _ _ _ HF) as [[J2 HJ2] _]. apply wp_bind. eapply wp_update; [done|].
  match goal with |- wp _ _ ?s' => assert (faked n c s s') as HF3 by (by eapply faked_job) end.
  revert HF3. match goal with |- faked _ _ _ ?s' → _ => generalize s' end. clear s2 k HF J2 HJ2. intros s2 HF.
  destruct (faked_live _ _ _ _ HF) as [[J2 HJ2] _]. apply wp_bind. eapply wp_update; [done|].
  match goal with |- wp _ _ ?s' => assert (faked n c s s') as HF3 by (by eapply faked_job) end.
  case_match; [by eapply faked_msg_safe|].
  destruct (faked_live _ _ _ _ HF3) as [_ [C2 HC2]]. apply wp_bind. eapply wp_update; [done|].
  eapply faked_line_safe; [done|done|]. eapply faked_conn; [exact HF3|done|by split_and!].
Qed.

(** ** Lists of names *)

Lemma tube_names_reads l s :
  (∀ t, t ∈ l → is_Some (st_tubes s !! t)) → readable (tube_names l) s.
Proof.
  intros Hl. apply readable_mapM. intros t Ht.
  apply readable_bind; [by apply readable_tube, Hl|]. intros; apply readable_ret.
Qed.

Lemma do_list_tubes_safe c ids P s l :
  at_command c ids P s → (∀ t, t ∈ ms_items l → is_Some (st_tubes s !! t)) → safe (do_list_tubes c l) s.
Proof.
  intros HA Hl. unfold do_list_tubes, safe. apply wp_bind.
  eapply wp_mono; [by apply (tube_names_reads _ s)|]. intros names s' [k ->].
  assert (at_command c ids P (s <| st_tick := k |>)) as HA1 by (eapply at_command_sim; [|done]; solve_sim).
  clear HA Hl. revert HA1. generalize (s <| st_tick := k |>). clear s k. intros s HA.
  cbv zeta. eapply wp_fake; [done|intros s' HA'; by eapply msg_safe|]. intros n s2 Hn HF.
  destruct (faked_live _ _ _ _ HF) as [[J2 HJ2] _]. apply wp_bind. eapply wp_update; [done|].
  match goal with |- wp _ _ ?s' => assert (faked n c s s') as HF3 by (by eapply faked_job) end.
  destruct (faked_live _ _ _ _ HF3) as [_ [C2 HC2]]. apply wp_bind. eapply wp_update; [done|].
  eapply faked_line_safe; [done|done|]. eapply faked_conn; [exact HF3|done|by split_and!].
Qed.

(** ** The commands *)

Lemma set_live x X ids P s t : srv_inv x X ids P s → t ∈ ms_items (tubes s) → is_Some (st_tubes s !! t).
Proof. intros HI. apply (qr_tubes _ _ _ _ (qi_rep _ _ _ _ (sv_queue _ _ _ _ _ HI))). Qed.

Lemma cmd_stats_safe c ids P s : at_command c ids P s → safe (cmd_stats c) s.
Proof.
  intros HA. eapply no_garbage_safe; [done|]. clear s HA. intros s HA.
  eapply do_stats_safe; [done|by eapply fmt_stats_reads].
Qed.

Lemma cmd_stats_job_safe c ids P s args : at_command c ids P s → safe (cmd_stats_job c args) s.
Proof.
  intros HA. unfold cmd_stats_job, not_found. eapply with_id_safe; [done|]. clear s HA. intros id s Hid HA.
  unfold safe. apply wp_bind. eapply wp_find; [apply HA|done|..].
  - intros _. by eapply msg_safe.
  - intros j Jb _ HJ _. wsteps. destruct (j_tube Jb) as [t|] eqn:Ht; [|by eapply msg_safe].
    eapply do_stats_safe; [done|]. eapply fmt_job_stats_reads; [apply HA|done|rewrite Ht; eauto].
Qed.

(** [tube_find] returns a tube of the set, and changes nothing. *)
Lemma wp_tube_find (a : Ms tubep) name (Q : option tubep → St → Prop) s :
  (∀ t, t ∈ ms_items a → is_Some (st_tubes s !! t)) →
  (∀ r, (∀ t, r = Some t → t ∈ ms_items a) → Q r s) → wp (tube_find a name) Q s.
Proof.
  unfold tube_find. induction (ms_items a) as [|t l IH]; intros Hl HQ; cbn [tube_find_loop].
  - wsteps. by apply HQ.
  - destruct (Hl t) as [T HT]; [by left|]. wsteps. case_match.
    + wsteps. apply HQ. intros t' [= <-]. by left.
    + apply IH; [intros t' Ht'; apply Hl; by right|].
      intros r Hr. apply HQ. intros t' Ht'. right. by apply Hr.
Qed.

Lemma cmd_stats_tube_safe c ids P s name : at_command c ids P s → safe (cmd_stats_tube c name) s.
Proof.
  intros HA. unfold cmd_stats_tube, not_found. eapply with_name_safe; [done|]. clear s HA. intros s HA.
  unfold safe. wsteps. eapply wp_tube_find; [intros t; eapply set_live; apply HA|].
  intros [t|] Hr; [|by eapply msg_safe]. eapply do_stats_safe; [done|]. apply fmt_stats_tube_reads.
  eapply set_live; [apply HA|by apply Hr].
Qed.

Lemma cmd_list_tubes_safe c ids P s : at_command c ids P s → safe (cmd_list_tubes c) s.
Proof.
  intros HA. eapply no_garbage_safe; [done|]. clear s HA. intros s HA. unfold safe. wsteps.
  eapply do_list_tubes_safe; [done|]. intros t. eapply set_live, HA.
Qed.

Lemma cmd_list_tube_used_safe c ids P s : at_command c ids P s → safe (cmd_list_tube_used c) s.
Proof.
  intros HA. eapply no_garbage_safe; [done|]. clear s HA. intros s HA. unfold safe.
  apply wp_bind. eapply wp_use_tube; [done|]. intros t C T _ _ HT _. wsteps.
  eapply reply_line_safe; [apply HA|by left|apply HA].
Qed.

Lemma cmd_list_tubes_watched_safe c ids P s : at_command c ids P s → safe (cmd_list_tubes_watched c) s.
Proof.
  intros HA. eapply no_garbage_safe; [done|]. clear s HA. intros s HA. unfold safe.
  destruct (ac_calm _ _ _ _ HA) as (C & HC & _). wsteps.
  eapply do_list_tubes_safe; [done|]. intros t.
  apply (wr_watch _ _ (qi_wait _ _ _ _ (sv_queue _ _ _ _ _ (ac_inv _ _ _ _ HA))) c C HC).
Qed.
End showing.
