(* ===== verification/Naming.v ===== *)
(** The commands that name tubes, on the invariant of the server: [use], [watch],
    [ignore], [pause-tube], and the references that they move. *)
From S2P Require Import Prelude Heap Ms State Monad JobList JobHash Tube Job Wal Conn Queue QueueRep QueueOps QueueConn QueueProc Process Runs Owners QueueCmds QueueLoops Refs Life Sound Parse ParseSpec Stats Dispatch Commands Reserving Showing.
#[local] Open Scope Z_scope.

Section naming.
Context {E : Env} {SI : SysInfo}.
Implicit Types (P : places) (ids : gmap Z jobp) (X : gset connp) (s : St) (x : local).
Implicit Types (j : jobp) (t u : tubep) (c : connp) (C : Conn).

(** ** Making a tube *)

(** The state with a new tube [t], listed or not. *)
Definition with_tube s t (T : Tube) (a : Ms tubep) : St :=
  s <| st_tubes ::= <[t := T]> |> <| st_links ::= <[NBuried t := (NBuried t, NBuried t)]> |>
    <| tubes := a |>.

Lemma fresh_refs x X ids P s t : srv_inv x X ids P s → st_tubes s !! t = None → refs s t + x t = 0.
Proof.
  intros HI Ht. pose proof (refs_nonneg s t). pose proof (rf_extra _ _ (sv_refs _ _ _ _ _ HI) t).
  destruct (decide (0 < refs s t + x t)) as [Hp|]; [|lia].
  destruct (srv_inv_listed _ _ _ _ _ t HI Hp) as (_ & T & HT & _). congruence.
Qed.

Lemma queue_rep_with_tube P ids X s t T a :
  queue_rep P ids X s → st_tubes s !! t = None → t_ready T = heap_empty → t_delay T = heap_empty →
  NoDup (ms_items a) → (∀ u, u ∈ ms_items (tubes s) → u ∈ ms_items a) →
  (∀ u, u ∈ ms_items a → u = t ∨ u ∈ ms_items (tubes s)) → queue_rep P ids X (with_tube s t T a).
Proof.
  intros [Hpl Hid Hre Hde Hbu Hrs Hfr [_ Htu] Hco Hso Hli] Ht Hr Hd Hnd Hsub Hsup.
  assert (∀ j u p, P !! j = Some p → p = InReady u ∨ p = InDelay u ∨ p = InBuried u → u ≠ t) as Hne.
  { intros j u p Hj Hp ->. destruct (Hpl j p Hj) as (J & u & U & _ & Hf & Hu & HU & _).
    destruct Hp as [->|[->| ->]]; simpl in Hf; destruct Hf; congruence. }
  assert (∀ n, n ≠ NBuried t → st_links (with_tube s t T a) !! n = st_links s !! n) as HL.
  { intros n Hn. unfold with_tube. rsimpl. by rewrite lookup_insert_ne. }
  assert (∀ u, is_Some (st_tubes s !! u) → is_Some (st_tubes (with_tube s t T a) !! u)) as Hlv.
  { intros u Hu. unfold with_tube. rsimpl. destruct (decide (u = t)) as [->|];
      [rewrite lookup_insert_eq; eauto|by rewrite lookup_insert_ne]. }
  assert (∀ u U, st_tubes (with_tube s t T a) !! u = Some U → u = t ∧ U = T ∨ u ≠ t ∧ st_tubes s !! u = Some U) as Hinv.
  { intros u U. unfold with_tube. rsimpl. intros [[<- <-]|[? ?]]%lookup_insert_Some; eauto. }
  split; try done.
  - intros j p Hp. destruct (Hpl j p Hp) as (J & u & U & HJ & Hf & Hu & HU & HC).
    destruct (Hlv u) as [U' HU']; [eauto|]. by exists J, u, U'.
  - intros u U [[-> ->]|[_ HU]]%Hinv; [|by apply Hre]. rewrite Hr.
    eapply heap_rep_iff; [|apply heap_rep_empty]. intros j. split; [done|]. intros Hj.
    by destruct (Hne j t _ Hj); [left|].
  - intros u U [[-> ->]|[_ HU]]%Hinv; [|by apply Hde]. rewrite Hd.
    eapply heap_rep_iff; [|apply heap_rep_empty]. intros j. split; [done|]. intros Hj.
    by destruct (Hne j t _ Hj); [right; left|].
  - intros u U [[-> ->]|[Hu HU]]%Hinv.
    + exists []. split.
      * apply dll_nil. unfold isolated, with_tube. rsimpl. apply lookup_insert_eq.
      * intros j. split; [set_solver|]. intros Hj. by destruct (Hne j t _ Hj); [right; right|].
    + eapply list_rep_ext; [|by eapply Hbu]. intros n [->|(y & -> & _)]; apply HL; congruence.
  - intros c C HC. eapply list_rep_ext; [|by eapply Hrs].
    intros n [->|(y & -> & _)]; by apply HL.
  - intros j J HJ Hp. unfold isolated. rewrite HL by done. by eapply Hfr.
  - split; [done|]. intros u [->|Hu]%Hsup; [|by apply Hlv, Htu].
    unfold with_tube. rsimpl. rewrite lookup_insert_eq. eauto.
  - intros j J u HJ Hu. apply Hsub. by eapply Hli.
Qed.

Lemma srv_inv_with_tube x X ids P s t T a :
  srv_inv x X ids P s → st_tubes s !! t = None → t_ready T = heap_empty → t_delay T = heap_empty →
  t_waiting_conns T = ms_init → t_refs T = 0 →
  ms_items a = ms_items (tubes s) ++ [t] ∨ a = tubes s → srv_inv x X ids P (with_tube s t T a).
Proof.
  intros HI Ht Hr Hd Hwt Hrf Ha. pose proof (fresh_refs _ _ _ _ _ _ HI Ht) as H0.
  pose proof HI as [[HR [W1 W2 W3] Hca] HT [Hc Hl Hu Hx] Hn Hi Hk Hlog Hown].
  destruct (qr_tubes _ _ _ _ HR) as [Hnd Htu].
  assert (t ∉ ms_items (tubes s)) as Hni by (intros [? ?]%Htu; congruence).
  assert (∀ u, u ∈ ms_items (tubes s) → u ∈ ms_items a) as Hsub by (destruct Ha as [-> | ->]; set_solver).
  assert (∀ u U, st_tubes (with_tube s t T a) !! u = Some U → u = t ∧ U = T ∨ st_tubes s !! u = Some U) as Hinv.
  { intros u U. unfold with_tube. rsimpl. intros [[<- <-]|[? ?]]%lookup_insert_Some; eauto. }
  split; try done; [split| |].
  - apply queue_rep_with_tube; [done..| |done|].
    + destruct Ha as [-> | ->]; [|done]. apply NoDup_app. split_and!; [done| |apply NoDup_singleton].
      intros u Hu1 ->%list_elem_of_singleton. done.
    + destruct Ha as [-> | ->]; set_solver.
  - split.
    + intros c C HC. destruct (W1 c C HC) as [? Hw]. split; [done|]. intros u Hu'%Hw.
      unfold with_tube. rsimpl. destruct (decide (u = t)) as [->|]; [rewrite lookup_insert_eq; eauto|].
      by rewrite lookup_insert_ne.
    + intros u U [[-> ->]|HU]%Hinv; [rewrite Hwt; apply NoDup_nil_2|by eapply W2].
    + intros u U c [[-> ->]|HU]%Hinv; [rewrite Hwt; set_solver|by eapply W3].
  - done.
  - split; [| |done|done].
    + intros u U [[-> ->]|HU]%Hinv; [rewrite Hrf; symmetry; exact H0|by apply Hc].
    + intros u Hu'. apply Hsub. by apply Hl.
  - revert Hlog. by apply log_off_same.
Qed.

(** [tube_find_or_make] finds or makes a tube of the set, to which nothing new
    points yet. *)
Lemma wp_tube_find_or_make c ids P s name (Q : option tubep → St → Prop) :
  at_command c ids P s →
  (∀ s', at_command c ids P s' → Q None s') →
  (∀ t s', at_command c ids P s' → t ∈ ms_items (tubes s') → Q (Some t) s') →
  wp (tube_find_or_make name) Q s.
Proof.
  intros HA HN HS. unfold tube_find_or_make. wsteps.
  eapply wp_tube_find; [intros t; eapply set_live, HA|].
  intros [t|] Ht; [wsteps; apply HS; [done|by apply Ht]|].
  unfold make_and_insert_tube, make_tube. apply wp_bind, wp_bind, wp_malloc.
  { done. }
  { wsteps. apply HN. eapply at_command_sim; [|exact HA]. solve_sim. }
  intros t Hfr. unfold job_list_reset, put_link. wsteps.
  match goal with |- wp _ _ ?s' => set (s1 := s') end.
  set (T := tube_zero <| t_name := take (MAX_TUBE_NAME_LEN - 1) name |>).
  assert (∀ n a, ms_items a = ms_items (tubes s) ++ [t] ∨ a = tubes s →
    at_command c ids P ((with_tube s t T a) <| st_tick := n |>)) as HA1.
  { intros n a Ha. destruct HA as [HI [R1 R2 R3] HC]. split; [|by split|done].
    eapply srv_inv_sim; [|apply (srv_inv_with_tube none ∅ ids P s t T a); done]. solve_sim. }
  assert (∀ n a, s1 <| st_tick := n |> <| tubes := a |> = (with_tube s t T a) <| st_tick := n |>) as Heq.
  { intros n a. unfold s1, with_tube, T. apply St_eq; rsimpl; rewrite ?insert_insert_eq; reflexivity. }
  apply wp_ms_append. intros n b a Ha. wsteps. rewrite Heq. change (tubes s1) with (tubes s) in Ha.
  destruct Ha as [[-> Ha]|[-> ->]].
  - wsteps. apply HS; [apply HA1; by left|]. unfold with_tube. rsimpl. rewrite Ha. set_solver.
  - unfold tube_dref. wsteps. eapply wp_deref.
    { unfold with_tube. rsimpl. apply lookup_insert_eq. }
    change (t_refs T <? 1) with true. wsteps. apply HN, HA1. by right.
Qed.

(** ** Moving references *)

(** [c] uses another tube: the reference to [t] is the pointer, and the
    reference to the old tube is held locally. *)
Lemma srv_inv_used x ids P s c C u t (s' := s <| st_conns ::= <[c := C <| c_use := Some t |>]> |>) :
  srv_inv (bump t x) ∅ ids P s → (∀ t', 0 <= x t') → st_conns s !! c = Some C → c_use C = Some u →
  srv_inv (bump u x) ∅ ids P s'.
Proof.
  intros HI Hx HC Hu.
  pose proof HI as [HQ HT [Hct Hl Huse _] Hn Hi Hk Hlog Hown].
  assert (queue_sim s s' ∧ wait_sim s s') as [Hqs Hws].
  { unfold s'. split; split; rsimpl; try done; by eapply same_but_insert. }
  assert (∀ y, refs s' y + bump u x y = refs s y + bump t x y) as Hr.
  { intros y. cbn [bump lc_refs]. unfold refs, s'. rsimpl. rewrite !(count_update _ _ _ _ _ HC). rsimpl. rewrite Hu.
    rewrite (bool_decide_ext (Some u = Some y) (y = u)) by naive_solver.
    rewrite (bool_decide_ext (Some t = Some y) (y = t)) by naive_solver.
    rewrite (bool_decide_ext (watches y (C <| c_use := Some t |>)) (watches y C)) by done. lia. }
  split; [|done| |done|done| |..].
  - by eapply queue_inv_sim.
  - split.
    + intros y T HTy. rewrite Hr. by apply Hct.
    + intros y. rewrite Hr. apply Hl.
    + intros c' C'. unfold s'. rsimpl. intros [[<- <-]|[_ HC']]%lookup_insert_Some; [eauto|by eapply Huse].
    + intros y. cbn [bump lc_refs]. specialize (Hx y). destruct (bool_decide _); simpl; lia.
  - intros c' Hc'. eapply known_sim; [done|by apply Hk].
  - revert Hlog. by apply log_off_same.
  - revert Hown. apply owns_same; [done|]. by eapply same_but_insert.
Qed.

(** The watch list of a connection that does not wait changes. *)
Lemma srv_inv_watched x x' X ids P s c C w (s' := s <| st_conns ::= <[c := C <| c_watch := w |>]> |>) :
  srv_inv x X ids P s → (∀ t', 0 <= x' t') → lc_conns x' = lc_conns x → st_conns s !! c = Some C →
  conn_waiting C = false →
  NoDup (ms_items w) → (∀ t, t ∈ ms_items w → is_Some (st_tubes s !! t)) →
  (∀ y, Z.b2z (bool_decide (y ∈ ms_items w)) + x' y =
        Z.b2z (bool_decide (y ∈ ms_items (c_watch C))) + x y) →
  srv_inv x' X ids P s'.
Proof.
  intros HI Hx' Hlc HC Hwt Hnd Hlive Hb.
  pose proof HI as [[HR [W1 W2 W3] Hca] HT [Hct Hl Huse _] Hn Hi Hk Hlog Hown].
  assert (queue_sim s s') as Hqs by (unfold s'; split; rsimpl; try done; by eapply same_but_insert).
  assert (∀ y, refs s' y + x' y = refs s y + x y) as Hr.
  { intros y. unfold refs, s'. rsimpl. rewrite !(count_update _ _ _ _ _ HC). rsimpl.
    rewrite (bool_decide_ext (watches y (C <| c_watch := w |>)) (y ∈ ms_items w)) by done.
    rewrite (bool_decide_ext (watches y C) (y ∈ ms_items (c_watch C))) by done. specialize (Hb y). lia. }
  split; [split|done| |done|done| |..].
  - by eapply queue_rep_sim.
  - unfold s'. split; rsimpl; [|done|].
    + intros c' C' [[<- <-]|[_ HC']]%lookup_insert_Some; [by split|by eapply W1].
    + intros t T y HTt Hy. destruct (W3 t T y HTt Hy) as (Cy & HCy & Hty & Hwy).
      assert (y ≠ c) as Hne.
      { intros ->. assert (Cy = C) as -> by congruence. rewrite Hwy in Hwt; [done|set_solver]. }
      rewrite lookup_insert_ne by done. eauto.
  - intros c' C'. unfold s'. rsimpl. intros [[<- <-]|[_ HC']]%lookup_insert_Some Hw'; [|by eapply Hca].
    change (conn_waiting C = true) in Hw'. congruence.
  - split; [intros y T HTy; rewrite Hr; by apply Hct|intros y; rewrite Hr; apply Hl| |done].
    intros c' C'. unfold s'. rsimpl. intros [[<- <-]|[_ HC']]%lookup_insert_Some; [exact (Huse c C HC)|by eapply Huse].
  - intros c' Hc'. eapply known_sim; [done|by apply Hk].
  - revert Hlog. by apply log_off_same.
  - rewrite Hlc. revert Hown. apply owns_same; [done|]. by eapply same_but_insert.
Qed.

(** Dropping a reference that is held locally. *)
Lemma wp_tube_dref_srv x X ids P s t (Q : unit → St → Prop) :
  srv_inv (bump t x) X ids P s → (∀ t', 0 <= x t') →
  (∀ T, st_tubes s !! t = Some T → srv_inv x X ids P (derefd s t T) → Q tt (derefd s t T)) →
  wp (tube_dref (Some t)) Q s.
Proof.
  intros HI Hx HQ. destruct (srv_inv_listed _ _ _ _ _ t HI) as (_ & T & HT & _).
  { rewrite bump_eq. pose proof (refs_nonneg s t). specialize (Hx t). lia. }
  destruct (srv_inv_derefd _ _ _ _ _ t T HI Hx HT) as [Hr HI'].
  eapply wp_tube_dref; [done|done|by apply HQ].
Qed.

Lemma derefd_conns s t T : st_conns (derefd s t T) = st_conns s.
Proof. unfold derefd. by case_match. Qed.
Lemma derefd_jobs s t T : st_jobs (derefd s t T) = st_jobs s.
Proof. unfold derefd. by case_match. Qed.
Lemma none_nonneg t : 0 <= none t.
Proof. done. Qed.
Lemma refs_derefd s t T y : refs (derefd s t T) y = refs s y.
Proof. unfold derefd. by case_match. Qed.

Lemma using_ct_sim s t T n :
  st_tubes s !! t = Some T → srv_sim s (s <| st_tubes ::= <[t := T <| t_using_ct := n |>]> |>).
Proof. intros HT. split; split; rsimpl; first [done|by eapply same_but_insert]. Qed.

(** A connection uses some tube. *)
Lemma used_tube x X ids P s c C :
  srv_inv x X ids P s → st_conns s !! c = Some C →
  ∃ u U, c_use C = Some u ∧ st_tubes s !! u = Some U ∧ u ∈ ms_items (tubes s).
Proof.
  intros HI HC. destruct (rf_use _ _ (sv_refs _ _ _ _ _ HI) c C HC) as [u Hu].
  destruct (srv_inv_listed _ _ _ _ _ u HI) as (Hin & U & HU & _).
  { pose proof (rf_extra _ _ (sv_refs _ _ _ _ _ HI) u). unfold refs.
    pose proof (count_pos (λ C, c_use C = Some u) _ _ _ HC Hu).
    pose proof (count_nonneg (λ J, j_tube J = Some u) (st_jobs s)).
    pose proof (count_nonneg (watches u) (st_conns s)). destruct (bool_decide _); simpl; lia. }
  eauto.
Qed.

(** [TUBE_ASSIGN(c->use, t)] for a tube held by a local variable. *)
Lemma wp_assign_use ids P s c C t u (Q : unit → St → Prop) :
  srv_inv (bump t none) ∅ ids P s → st_conns s !! c = Some C → c_use C = Some u →
  refs s t + 1 < UINT32_MAX →
  (∀ s', srv_inv (bump t none) ∅ ids P s' → st_conns s' = <[c := C <| c_use := Some t |>]> (st_conns s) → Q tt s') →
  wp (TUBE_ASSIGN (Some u) (upd_conn c (fun C => C <| c_use := Some t |>)) (Some t)) Q s.
Proof.
  intros HI HC Hu Hmax HQ. unfold TUBE_ASSIGN, upd_conn.
  set (s1 := s <| st_conns ::= <[c := C <| c_use := Some t |>]> |>).
  pose proof (srv_inv_used none ids P s c C u t HI none_nonneg HC Hu) as HI1. fold s1 in HI1.
  destruct (used_tube _ _ _ _ _ _ _ HI HC) as (u' & U & Hu' & HU & _).
  assert (u' = u) as -> by congruence.
  destruct (srv_inv_derefd none ∅ ids P s1 u U HI1 none_nonneg HU) as [Hr HI2].
  apply wp_bind. eapply wp_tube_dref; [exact HU|done|]. apply wp_bind.
  eapply wp_update; [rewrite derefd_conns; exact HC|].
  assert (rupd st_conns <[c := C <| c_use := Some t |>]> (derefd s u U) = derefd s1 u U) as ->
    by (unfold derefd; by case_match).
  assert (st_conns (derefd s1 u U) !! c = Some (C <| c_use := Some t |>)) as HC2.
  { rewrite derefd_conns. unfold s1. rsimpl. apply lookup_insert_eq. }
  destruct (used_tube _ _ _ _ _ _ _ HI2 HC2) as (t' & T & Ht' & HT & Hin). rsimpl.
  apply (inj Some) in Ht' as <-.
  eapply wp_tube_iref; [exact HI2|exact Hin| |].
  - rewrite refs_derefd. unfold s1, refs. rsimpl. rewrite !(count_update _ _ _ _ _ HC). rsimpl.
    rewrite (bool_decide_ext (watches t (C <| c_use := Some t |>)) (watches t C)) by done.
    unfold refs in Hmax. cbn [none lc_refs]. rewrite (bool_decide_eq_true_2 (Some t = Some t)) by done.
    destruct (bool_decide (c_use C = Some t)); simpl Z.b2z in *; lia.
  - intros T' n _ s4 HI3. apply HQ; [exact HI3|]. unfold s4. rsimpl. by rewrite derefd_conns.
Qed.

Lemma cmd_use_safe c ids P s name : at_command c ids P s → safe (cmd_use c name) s.
Proof.
  intros HA. unfold cmd_use. eapply with_name_safe; [done|]. clear s HA. intros s HA. unfold safe.
  apply wp_bind. eapply wp_tube_find_or_make; [done|..]; clear s HA.
  { intros s HA. unfold tube_iref. wsteps. by eapply msg_safe. }
  intros t s [HI [_ _ Hroom] (C & HC & Hwt)] Hin. specialize (Hroom t).
  apply wp_bind. eapply wp_tube_iref; [exact HI|exact Hin|cbn [none lc_refs]; lia|]. intros T0 n0 _. cbv zeta. intros HI1.
  match type of HI1 with srv_inv _ _ _ _ ?s' => set (s1 := s') in * end.
  assert (refs s1 t = refs s t) as Hr1 by done.
  destruct (used_tube _ _ _ _ _ c C HI1 HC) as (u & U & Hu & HU & _).
  unfold use_tube. wsteps.
  match goal with |- wp _ _ ?s' => set (s2 := s') end.
  assert (srv_inv (bump t none) ∅ ids P s2) as HI2.
  { eapply srv_inv_sim; [|exact HI1]. by apply using_ct_sim. }
  eapply wp_assign_use; [exact HI2|exact HC|exact Hu|change (refs s1 t + 1 < UINT32_MAX); lia|].
  intros s3 HI3 HC3. apply wp_bind. eapply wp_tube_dref_srv; [exact HI3|exact none_nonneg|].
  intros T3 HT3 HI4. set (s4 := derefd s3 t T3) in *.
  assert (st_conns s4 !! c = Some (C <| c_use := Some t |>)) as HC4.
  { unfold s4. rewrite derefd_conns, HC3. apply lookup_insert_eq. }
  destruct (used_tube _ _ _ _ _ _ _ HI4 HC4) as (t' & T & Ht' & HT & _). rsimpl.
  apply (inj Some) in Ht' as <-. wsteps. rsimpl. wsteps.
  eapply reply_line_safe; [|by left|by exists (C <| c_use := Some t |>)].
  eapply srv_inv_sim; [|exact HI4]. by apply using_ct_sim.
Qed.

(** ** Watching *)

(** A list with one more element. *)
Lemma count_more t (l l' : list tubep) y :
  t ∉ l → (∀ z, z ∈ l' ↔ z = t ∨ z ∈ l) →
  Z.b2z (bool_decide (y ∈ l')) + none y = Z.b2z (bool_decide (y ∈ l)) + bump t none y.
Proof.
  intros Ht Hl. cbn [none bump lc_refs]. pose proof (Hl y).
  destruct (bool_decide_reflect (y ∈ l')), (bool_decide_reflect (y ∈ l)),
    (bool_decide_reflect (y = t)); subst; simpl; try lia; tauto.
Qed.

Lemma watching_ct_sim s t T n :
  st_tubes s !! t = Some T → srv_sim s (s <| st_tubes ::= <[t := T <| t_watching_ct := n |>]> |>).
Proof. intros HT. split; split; rsimpl; first [done|by eapply same_but_insert]. Qed.

Lemma watching_reply_safe ids P s c : srv_inv none ∅ ids P s → calm c s → safe (watching_reply c) s.
Proof.
  intros HI HC. pose proof HC as (C & HC' & _). unfold watching_reply, safe. wsteps.
  eapply reply_line_safe; [exact HI|by left|done].
Qed.

(** The end of [watch], when the local reference is given up. *)
Lemma watch_end_safe ids P s c t (r : bool) :
  srv_inv (bump t none) ∅ ids P s → calm c s →
  safe (tube_dref (Some t);; if negb r then reply_serr c MSG_OUT_OF_MEMORY else watching_reply c) s.
Proof.
  intros HI HC. unfold safe. apply wp_bind. eapply wp_tube_dref_srv; [done|exact none_nonneg|].
  intros T HT HI'. assert (calm c (derefd s t T)) as HC' by (unfold calm; by rewrite derefd_conns).
  destruct r; [by eapply watching_reply_safe|]. eapply reply_msg_safe; [exact HI'|by left|done].
Qed.

Lemma cmd_watch_safe c ids P s name : at_command c ids P s → safe (cmd_watch c name) s.
Proof.
  intros HA. unfold cmd_watch. eapply with_name_safe; [done|]. clear s HA. intros s HA. unfold safe.
  apply wp_bind. eapply wp_tube_find_or_make; [done|..]; clear s HA.
  { intros s HA. unfold tube_iref. wsteps. by eapply msg_safe. }
  intros t s [HI [_ _ Hroom] (C & HC & Hwt)] Hin. specialize (Hroom t).
  apply wp_bind. eapply wp_tube_iref; [exact HI|exact Hin|cbn [none lc_refs]; lia|]. intros T0 n0 _. cbv zeta. intros HI1.
  match type of HI1 with srv_inv _ _ _ _ ?s' => set (s1 := s') in * end.
  assert (refs s1 t = refs s t) as Hr1 by done.
  assert (is_Some (st_tubes s1 !! t)) as Hlt by (eapply srv_inv_tube; [exact HI1|exact Hin]).
  wsteps. destruct (ms_contains t (c_watch C)) eqn:Hct.
  { wsteps. apply wp_bind_inv. eapply (watch_end_safe ids P s1 c t true); [done|by exists C]. }
  assert (t ∉ ms_items (c_watch C)) as Hnt by (intros Hw%ms_contains_spec; congruence).
  destruct (wr_watch _ _ (qi_wait _ _ _ _ (sv_queue _ _ _ _ _ HI1)) c C HC) as [Hnd Hlive].
  wsteps. apply wp_ms_append. intros n b a Ha.
  set (s2 := s1 <| st_tick := n |>).
  assert (srv_inv (bump t none) ∅ ids P s2) as HI2 by (eapply srv_inv_sim; [|exact HI1]; solve_sim).
  destruct Ha as [[-> Ha]|[-> ->]].
  - unfold upd_conn. wsteps. set (s3 := s2 <| st_conns ::= <[c := C <| c_watch := a |>]> |>).
    assert (srv_inv none ∅ ids P s3) as HI3.
    { eapply srv_inv_watched; [exact HI2|exact none_nonneg|done|exact HC|apply Hwt|..]; rewrite Ha.
      - apply NoDup_app. split_and!; [done| |apply NoDup_singleton]. set_solver.
      - intros y [Hy|Hy]%elem_of_app; [by apply Hlive|]. apply list_elem_of_singleton in Hy as ->. done.
      - intros y. apply count_more; [done|]. set_solver. }
    unfold on_watch. apply wp_bind. eapply wp_tube_iref; [exact HI3|exact Hin| |].
    { unfold s3, refs. rsimpl. rewrite !(count_update _ _ _ _ _ HC). rsimpl. unfold refs in Hroom.
      change (st_jobs s2) with (st_jobs s). change (st_conns s2) with (st_conns s).
      change (default_tube s2) with (default_tube s).
      rewrite (bool_decide_eq_false_2 (watches t C)) by done. cbn [none lc_refs].
      destruct (bool_decide (watches t _)); simpl Z.b2z; lia. }
    intros T n1 HT. cbv zeta. intros HI4.
    match type of HI4 with srv_inv _ _ _ _ ?s' => set (s4 := s') in * end.
    assert (st_tubes s4 !! t = Some (T <| t_refs := n1 |>)) as HT4 by (unfold s4; rsimpl; apply lookup_insert_eq).
    wsteps. apply wp_bind_inv. eapply (watch_end_safe ids P _ c t true).
    + eapply srv_inv_sim; [|exact HI4]. by apply watching_ct_sim.
    + exists (C <| c_watch := a |>). unfold s4, s3. rsimpl. by rewrite lookup_insert_eq.
  - unfold upd_conn. wsteps. apply wp_bind_inv. eapply (watch_end_safe ids P _ c t false).
    + eapply srv_inv_sim; [|exact HI2]. apply (conn_sim s2 c C); [done|by split_and!].
    + exists C. unfold s2. rsimpl. rewrite lookup_insert_eq. split; [|done]. by destruct C.
Qed.

Lemma cmd_ignore_safe c ids P s name : at_command c ids P s → safe (cmd_ignore c name) s.
Proof.
  intros HA. unfold cmd_ignore. eapply with_name_safe; [done|]. clear s HA. intros s HA. unfold safe.
  pose proof HA as [HI _ HCc]. pose proof HCc as (C & HC & Hwt). wsteps.
  destruct (wr_watch _ _ (qi_wait _ _ _ _ (sv_queue _ _ _ _ _ HI)) c C HC) as [Hnd Hlive].
  eapply wp_tube_find; [exact Hlive|]. intros [t|] Ht; [|by eapply watching_reply_safe].
  case_match; [by eapply msg_safe|]. specialize (Ht t eq_refl).
  destruct (ms_remove_Some t (c_watch C) Ht) as (a & -> & Hp & _).
  rewrite <- Hp in Hnd. apply NoDup_cons in Hnd as [Hta Hnd].
  assert (∀ y, y ∈ ms_items (c_watch C) ↔ y = t ∨ y ∈ ms_items a) as Hmem.
  { intros y. rewrite <- Hp. set_solver. }
  unfold upd_conn. wsteps. set (s1 := s <| st_conns ::= <[c := C <| c_watch := a |>]> |>).
  assert (∀ y, 0 <= bump t none y) as Hb.
  { intros y. cbn [none bump lc_refs]. by destruct (bool_decide _). }
  assert (srv_inv (bump t none) ∅ ids P s1) as HI1.
  { eapply srv_inv_watched; [exact HI|exact Hb|done|exact HC|apply Hwt|done| |].
    - intros y Hy. apply Hlive, Hmem. by right.
    - intros y. symmetry. by apply count_more. }
  destruct (Hlive t Ht) as [T HT]. unfold on_ignore. wsteps.
  eapply wp_tube_dref_srv; [eapply srv_inv_sim; [|exact HI1]; by apply (watching_ct_sim s1 t T)|exact none_nonneg|].
  intros T' _ HI2. eapply watching_reply_safe; [exact HI2|].
  exists (C <| c_watch := a |>). rewrite derefd_conns. unfold s1. rsimpl. by rewrite lookup_insert_eq.
Qed.

(** ** Pause and quit *)

Lemma cmd_pause_tube_safe c ids P s args : at_command c ids P s → safe (cmd_pause_tube c args) s.
Proof.
  intros HA. unfold cmd_pause_tube, bad_format, not_found.
  destruct (parse_pause args) as [[name delay]|]; [|by eapply msg_safe].
  eapply count_op_safe; [done|]. clear s HA. intros s HA. unfold safe. case_match; [by eapply msg_safe|].
  wsteps. eapply wp_tube_find; [intros t; eapply set_live, HA|].
  intros [t|] Ht; [|by eapply msg_safe]. destruct (set_live _ _ _ _ _ t (ac_inv _ _ _ _ HA)) as [T HT]; [by apply Ht|].
  unfold upd_tube_stat. wsteps.
  match goal with |- wp _ _ ?s' => assert (srv_sim s s') as Hs by solve_sim end.
  pose proof (at_command_sim _ _ _ _ _ Hs HA) as HA'. eapply reply_line_safe; [apply HA'|by left|apply HA'].
Qed.

Lemma cmd_quit_safe c ids P s : at_command c ids P s → safe (cmd_quit c) s.
Proof.
  intros HA. pose proof HA as [HI _ (C & HC & Hr)]. unfold cmd_quit, upd_conn, safe.
  eapply wp_update; [done|]. exists ids, P. by apply srv_inv_rest.
Qed.
End naming.
