(* ===== verification/Putting.v ===== *)
(** The [put] command on the invariant of the server: the incoming job, its body,
    and its insertion in the queue. *)
From S2P Require Import Prelude Heap Ms State Monad JobList JobHash Tube Job Wal Conn Queue QueueRep QueueOps QueueConn QueueProc Process Runs Owners QueueCmds QueueLoops Refs Life Sound Parse ParseSpec Stats Dispatch Commands Reserving Showing Naming.
#[local] Open Scope Z_scope.

Section putting.
Context {E : Env} {SI : SysInfo}.
Implicit Types (P : places) (ids : gmap Z jobp) (X : gset connp) (s : St) (x : local).
Implicit Types (j : jobp) (t : tubep) (c : connp) (C : Conn).

(** [c] is being handled, and receives the body of [j], or nothing. *)
Record incoming c ids P j s : Prop := {
  in_inv : srv_inv (acting c none) ∅ ids P s;
  in_conn : ∃ C, st_conns s !! c = Some C ∧ conn_waiting C = false ∧ c_in_job C = Some j ∧
    c_out_job C = None ∧ inbuf C ∧ c_cmd_len C = 0%nat ∧ arriving P (st_jobs s) j (c_in_job_read C);
  in_own : unowned ({[c]} ∪ ∅) (st_conns s) j;
}.
Record receiving_nothing c ids P s : Prop := {
  rn_inv : srv_inv (acting c none) ∅ ids P s;
  rn_conn : ∃ C, st_conns s !! c = Some C ∧ conn_waiting C = false ∧ c_in_job C = None ∧
    c_out_job C = None ∧ inbuf C;
}.

Lemma body_sim s j J b :
  st_jobs s !! j = Some J → srv_sim s (s <| st_jobs ::= <[j := J <| j_body := b |>]> |>).
Proof. intros HJ. split; split; rsimpl; first [done|by eapply same_but_insert]. Qed.

(** The handler of [c] sets the fields that only it uses. *)
Lemma srv_inv_acting x ids P s c C C' :
  srv_inv (acting c x) ∅ ids P s → st_conns s !! c = Some C → q_conn C' = q_conn C →
  w_conn C' = w_conn C → x_conn C' = x_conn C → conn_waiting C' = false →
  srv_inv (acting c x) ∅ ids P (s <| st_conns ::= <[c := C']> |>).
Proof.
  intros HI HC Hq Hw Hx Hwt. eapply srv_inv_set; [done..|].
  apply owns_insert_in; [set_solver|congruence|apply HI].
Qed.

(** What [fill_extra_data] leaves in the command buffer. *)
Lemma inbuf_fill C (n : nat) r b :
  inbuf C → (n <= c_cmd_read C)%nat → 0 <= r →
  inbuf (C <| c_in_job_read := r |> <| c_cmd := b |> <| c_cmd_read := n |> <| c_cmd_len := 0%nat |>).
Proof. intros (? & [??] & ?) Hn Hr. unfold inbuf. rsimpl. split_and!; [done|lia..]. Qed.

(** [fill_extra_data] moves bytes between the buffers only. *)
Lemma wp_fill_extra_nothing c ids P s (Q : unit → St → Prop) :
  receiving_nothing c ids P s → (∀ s', receiving_nothing c ids P s' → Q tt s') →
  wp (fill_extra_data c) Q s.
Proof.
  intros [HI (C & HC & Hw & Hj & Ho & Hb)] HQ. pose proof Hb as (Hfd & [Hl1 Hl2] & Hr).
  unfold fill_extra_data. wsteps. rewrite (proj2 (Z.eqb_neq _ _)) by done.
  case_match; [wsteps; apply HQ; split; [done|by exists C]|]. cbv zeta. rewrite Hj. unfold upd_conn.
  case_match; wsteps; apply HQ; split.
  - eapply srv_inv_acting; [by apply (srv_inv_acting none ids P s c C)|rsimpl; apply lookup_insert_eq|done..].
  - eexists. rsimpl. rewrite lookup_insert_eq. split; [done|].
    split_and!; [done..|apply inbuf_fill; [done|lia..]].
  - by apply (srv_inv_acting none ids P s c C).
  - eexists. rsimpl. rewrite lookup_insert_eq. split; [done|].
    split_and!; [done..|]. apply (inbuf_fill C _ (c_in_job_read C)); [done|lia|done].
Qed.

Lemma wp_fill_extra_incoming c ids P s C j (Q : unit → St → Prop) :
  srv_inv (acting c none) ∅ ids P s → unowned ({[c]} ∪ ∅) (st_conns s) j →
  st_conns s !! c = Some C → conn_waiting C = false → c_in_job C = Some j → c_out_job C = None →
  emptied C → arriving P (st_jobs s) j 0 →
  (∀ s', incoming c ids P j s' → Q tt s') → wp (fill_extra_data c) Q s.
Proof.
  intros HI Hun HC Hw Hj Ho [Hb Hr0] HA HQ. pose proof HA as (HP & J & HJ & Hst & Ht & Hn & Hcap).
  pose proof Hb as (Hfd & [Hl1 Hl2] & Hr).
  unfold fill_extra_data. wsteps. rewrite (proj2 (Z.eqb_neq _ _)) by done.
  destruct (Nat.eqb_spec (c_cmd_len C) 0) as [Hl0|Hl0].
  { wsteps. apply HQ. split; [done|exists C; by rewrite Hr0|done]. }
  cbv zeta. rewrite Hj. unfold upd_conn. wsteps.
  set (k := Z.min _ _). assert (0 <= k <= r_body_size (j_r J)) as Hk by lia.
  rewrite (proj2 (Z.ltb_ge _ _)) by lia. wsteps.
  match goal with |- Q _ ?s' => set (s1 := s') end.
  apply HQ. split.
  - assert (srv_inv (acting c none) ∅ ids P (s <| st_jobs ::=
        <[j := J <| j_body := take (Z.to_nat k) (drop (c_cmd_len C) (c_cmd C)) |>]> |>)) as HI0.
    { eapply srv_inv_sim; [by apply body_sim|done]. }
    eapply srv_inv_acting; [|rsimpl; apply lookup_insert_eq|done..].
    by apply (srv_inv_acting none ids P _ c C).
  - eexists. unfold s1. rsimpl. rewrite lookup_insert_eq. split; [done|].
    split_and!; [done..|apply inbuf_fill; [done|lia..]|done|].
    split; [done|]. eexists. rewrite lookup_insert_eq. destruct Hk; by split_and!.
  - intros c' C' Hc'. unfold s1. rsimpl. rewrite !lookup_insert_ne by set_solver. by apply Hun.
Qed.

(** ** The incoming job is enqueued *)

(** The counters of a put. *)
Lemma wp_count_put s j Jb t (k : M unit) (Q : unit → St → Prop) :
  st_jobs s !! j = Some Jb → j_tube Jb = Some t → is_Some (st_tubes s !! t) →
  (∀ s', quiet s s' → wp k Q s') →
  wp (upd_global_stat (fun st => st <| total_jobs_ct ::= incr64 |>);;
      t ← tube_of j;
      upd_tube_stat t (fun st => st <| total_jobs_ct ::= incr64 |>);; k) Q s.
Proof.
  intros HJ Ht [T HT] HQ. unfold upd_global_stat, tube_of, upd_tube_stat. wsteps.
  apply HQ. solve_quiet.
Qed.

Lemma job_tube_live X ids P s j J t :
  queue_inv X ids P s → st_jobs s !! j = Some J → j_tube J = Some t → is_Some (st_tubes s !! t).
Proof. intros [HR _ _] HJ Ht. eapply qr_tubes, qr_listed; done. Qed.

Lemma incoming_loose c ids P j s :
  incoming c ids P j s → ∃ J t, loose P s j t J ∧ ids !! r_id (j_r J) = Some j ∧ r_state (j_r J) = Invalid.
Proof.
  intros [HI (C & _ & _ & _ & _ & _ & _ & (HP & J & HJ & Hst & [t Ht] & _)) _]. exists J, t. split_and!; [|..|done].
  - split; [done..|congruence|done|]. eapply job_tube_live; [apply HI|done..].
  - eapply qr_ids; [apply HI|done|congruence].
Qed.

(** The tube of a job after its moves. *)
Lemma moved_tube x X D ids P s P' s' j t Jb :
  srv_inv x X ids P s → moving X D ids P s P' s' → loose P s j t Jb →
  ∃ Jb', st_jobs s' !! j = Some Jb' ∧ j_tube Jb' = Some t ∧ is_Some (st_tubes s' !! t).
Proof.
  intros HI HM HL. destruct (st_tube _ _ _ _ _ _ (mo_stays _ _ _ _ _ _ _ HM) j Jb (lo_job _ _ _ _ _ HL)) as (Jb' & HJ' & Ht').
  exists Jb'. rewrite (lo_tube _ _ _ _ _ HL) in Ht'. split_and!; [done..|].
  eapply job_tube_live; [apply HM|done..].
Qed.

(** Replies of a handler that has given up the jobs of [c]. *)
Lemma acted_msg_safe ids P s c m : srv_inv (acting c none) ∅ ids P s → calm c s → safe (reply_msg c m) s.
Proof.
  intros HI HC. eapply wp_reply_msg; [done|by left|done|apply handled_acting|].
  intros s' HI' _ _. by exists ids, P.
Qed.
Lemma acted_line_safe ids P s c line :
  srv_inv (acting c none) ∅ ids P s → calm c s → safe (reply_line c STATE_SEND_WORD line) s.
Proof.
  intros HI HC. eapply wp_reply_line_srv; [done|by left|done|apply handled_acting|].
  intros s' HI' _ _. by exists ids, P.
Qed.

Lemma enqueue_incoming_job_safe c ids P j s : incoming c ids P j s → safe (enqueue_incoming_job c) s.
Proof.
  intros HIn. destruct (incoming_loose _ _ _ _ _ HIn) as (J & t & HL & Hid & Hst).
  destruct HIn as [HI (C & HC & Hw & Hj & Ho & Hb & _) Hun]. unfold safe, enqueue_incoming_job, upd_conn.
  pose proof (lo_job _ _ _ _ _ HL) as HJ. wsteps.
  set (C1 := C <| c_in_job := None |> <| c_in_job_read := 0 |>).
  set (s1 := s <| st_conns ::= <[c := C1]> |>).
  assert (srv_inv (acting c none) ∅ ids P s1) as HI1 by (by apply (srv_inv_acting none ids P s c C)).
  assert (unowned (lc_conns (acting c none)) (st_conns s1) j) as Hun1.
  { intros c' C' Hc'. unfold s1. rsimpl. rewrite lookup_insert_ne by set_solver. by apply Hun. }
  assert (loose P s1 j t J) as HL1 by (destruct HL; by split).
  assert (calm c s1) as HC1.
  { exists C1. unfold s1. rsimpl. rewrite lookup_insert_eq. split; [done|]. by destruct Hb as (? & ? & _). }
  assert (∀ m, safe (job_free (Some j);; reply_msg c m) s1) as Hdrop.
  { intros m. unfold safe. apply wp_bind. eapply wp_job_free; [exact HI1|apply HL1|done|done|congruence|done|].
    intros s2 HI2 _ Hs2 _. eapply acted_msg_safe; [done|]. unfold calm. by rewrite (lf_conns _ _ Hs2). }
  wsteps. apply wp_if; intros _; [apply Hdrop|]. wsteps. apply wp_if; intros _; [apply Hdrop|].
  wsteps. apply wp_if; intros _; [by eapply acted_msg_safe|].
  pose proof (sv_log _ _ _ _ _ HI1) as [Hnl1 _ _ _]. destruct (lo_live _ _ _ _ _ HL1) as [T1 HT1].
  unfold walresvput, tube_name_of, reserve, get_wal. pose proof (lo_tube _ _ _ _ _ HL) as Ht. wsteps.
  rewrite Hnl1. cbn [negb]. wsteps. cbn [Z.eqb]. wsteps.
  destruct (moving_rewrite ∅ ids P s1 j t J (J <| j_walresv := 1 |>)) as [HM2 HL2];
    [apply HI1|done|done|apply HL|].
  set (s2 := rupd st_jobs _ s1) in *. assert (no_log s2) as Hnl2 by exact Hnl1.
  assert (∀ P' s', moving ∅ {[j]} ids P s2 P' s' → moving ∅ {[j]} ids P s1 P' s') as HM12.
  { intros P' s' HM'. eapply moving_trans; [done..|]. apply unheld_none, HL. }
  (* the reply, when the job has its place *)
  assert (∀ P' s' line, moving ∅ {[j]} ids P s1 P' s' → is_Some (P' !! j) →
    safe (reply_line c STATE_SEND_WORD line) s') as Hreply.
  { intros P' s' line HM' Hj'. eapply (acted_line_safe ids P').
    - eapply srv_inv_moving; [exact HI1|exact HM'|done|]. intros y ->%elem_of_singleton.
      split; [by apply placed_idle|done].
    - eapply stays_calm; [apply HM'|done]. }
  eapply wp_enqueue_moving; [apply HM2|done|done|..].
  - intros s3 Jb3 HM3 HL3. apply HM12 in HM3.
    destruct (moved_tube _ _ _ _ _ _ _ _ _ _ _ HI1 HM3 HL1) as (Jb3' & HJ3 & Ht3 & HT3).
    eapply wp_count_put; [done..|]. intros s4 Hq. wsteps.
    assert (moving ∅ {[j]} ids P s1 P s4) as HM4.
    { eapply moving_trans; [exact HM3| |apply unheld_none, HL]. apply moving_quiet; [done|apply HM3]. }
    eapply wp_bury_moving; [apply HM4|by eapply loose_quiet|by eapply moving_log|].
    intros P' s' HM' Hj'. eapply Hreply; [|done]. eapply moving_trans; [exact HM4|exact HM'|apply unheld_none, HL].
  - intros P' s' HM' Hj'. apply HM12 in HM'.
    destruct (moved_tube _ _ _ _ _ _ _ _ _ _ _ HI1 HM' HL1) as (Jb' & HJ' & Ht' & HT').
    eapply wp_count_put; [done..|]. intros s4 Hq. eapply Hreply; [|done].
    apply (moving_quiet ∅ ∅ ids P') in Hq; [|apply HM'].
    eapply moving_served; [exact HM'|exact Hq].
Qed.

Lemma maybe_enqueue_incoming_job_safe c ids P j s :
  incoming c ids P j s → safe (maybe_enqueue_incoming_job c) s.
Proof.
  intros HIn. pose proof HIn as [HI (C & HC & Hw & Hj & Ho & Hb & Hl & HA) Hun]. pose proof HA as (_ & J & HJ & _).
  unfold safe, maybe_enqueue_incoming_job, upd_conn. wsteps.
  apply wp_if; intros _; [by eapply enqueue_incoming_job_safe|].
  wsteps. exists ids, P. eapply srv_inv_settle; [done..| | | |].
  - change (conn_waiting C = true → STATE_WANT_DATA = STATE_WAIT). congruence.
  - split; rsimpl; try done; [|congruence..].
    intros y Hy. assert (y = j) as -> by congruence. split_and!; [by left|done..].
  - intros y Hy. change (c_in_job C = Some y) in Hy. assert (y = j) as -> by congruence. done.
  - intros y Hy. change (c_out_job C = Some y) in Hy. congruence.
Qed.

(** The body is not wanted: it is skipped. *)
Lemma skip_safe c ids P s C n m :
  srv_inv none ∅ ids P s → st_conns s !! c = Some C → conn_waiting C = false → c_out_job C = None →
  inbuf C → 0 <= n → safe (_skip c n m) s.
Proof.
  intros HI HC Hw Ho (Hf & Hl & _) Hn. apply (srv_inv_enter _ _ _ _ _ c) in HI.
  unfold safe, _skip, upd_conn. apply wp_bind. eapply wp_update; [done|]. apply wp_bind.
  eapply wp_fill_extra_nothing.
  { split; [by apply (srv_inv_acting none ids P s c C)|].
    eexists. rsimpl. rewrite lookup_insert_eq. by split_and!. }
  intros s1 [HI1 (C1 & HC1 & Hw1 & Hi1 & Ho1 & Hb1)]. wsteps. apply wp_if; intros Hr.
  - eapply wp_reply_srv; [exact HI1|by left| |apply handled_acting|intros s2 HI2 _ _; by exists ids, P].
    apply Z.eqb_eq in Hr. exists C1. split; [done|]. by split_and!.
  - wsteps. exists ids, P. eapply srv_inv_settle; [done..| | | |].
    + change (conn_waiting C1 = true → STATE_BITBUCKET = STATE_WAIT). congruence.
    + split; rsimpl; try done; congruence.
    + intros y Hy. change (c_in_job C1 = Some y) in Hy. congruence.
    + intros y Hy. change (c_out_job C1 = Some y) in Hy. congruence.
Qed.

Lemma parse_put_size args pri delay ttr body_size e :
  parse_put args = Some (pri, delay, ttr, body_size, e) → 0 <= body_size.
Proof.
  unfold parse_put. intros H.
  destruct (read_u32 false args) as [[p1 d1]|]; [simpl in H|done].
  destruct (read_duration false d1) as [[p2 d2]|]; [simpl in H|done].
  destruct (read_duration false d2) as [[p3 d3]|]; [simpl in H|done].
  destruct (read_u32 false d3) as [[p4 d4]|] eqn:Hr; [simpl in H|done].
  simplify_eq. by eapply read_u32_nonneg.
Qed.

Lemma cmd_put_safe c ids P s args : at_command c ids P s → safe (cmd_put c args) s.
Proof.
  intros HA. unfold cmd_put, bad_format.
  destruct (parse_put args) as [[[[[pri delay] ttr] body_size] end_buf]|] eqn:Hput; [|by eapply msg_safe].
  eapply count_op_safe; [done|]. clear s HA. intros s HA. unfold safe. wsteps.
  assert (0 <= body_size) as Hsize by (by eapply parse_put_size).
  pose proof HA as [HI _ (C0 & HC0 & Hw0 & _ & Ho0 & [Hb0 _])].
  apply wp_if; intros _; [by apply (skip_safe c ids P s C0); [..|lia]|]. clear dependent C0.
  apply wp_if; intros _; [by eapply msg_safe|]. apply wp_bind. eapply wp_connsetproducer; [done|].
  intros s1 _ HA1. clear dependent s. rename s1 into s, HA1 into HA.
  pose proof HA as [HI Hroom (C & HC & Hw & Hi & Ho & Hb & Hr)]. cbv zeta. wsteps.
  set (ttr' := if ttr <? 1000000000 then _ else _). clearbody ttr'.
  destruct (rf_use _ _ (sv_refs _ _ _ _ _ HI) c C HC) as [t Ht]. rewrite Ht.
  assert (t ∈ ms_items (tubes s)) as Hlist.
  { by eapply used_listed. }
  apply (wp_make_job ∅ ids P s pri delay ttr' (body_size + 2) t); [exact HI|exact Hroom|exact Hlist|..].
  - unfold upd_conn. wsteps. set (s1 := s <| st_tick ::= S |>) in *.
    assert (srv_inv none ∅ ids P s1) as HI1 by (by apply srv_inv_tick).
    eapply skip_safe; [|rsimpl; apply lookup_insert_eq|done..|lia].
    eapply srv_inv_sim; [|exact HI1]. apply (conn_sim s1 c C); [done|].
    unfold same_conn, o_conn. rsimpl. by rewrite Hi.
  - intros j now p s1 HI1 Hfree HP HJ Hun Hs1. unfold upd_conn.
    assert (st_conns s1 !! c = Some C) as HC1 by (by rewrite (lf_conns _ _ Hs1)). wsteps.
    apply (srv_inv_enter _ _ _ _ _ c) in HI1.
    eapply wp_fill_extra_incoming; [by eapply srv_inv_acting| |rsimpl; apply lookup_insert_eq|done..| |].
    + intros c' C' Hc'. rsimpl. rewrite lookup_insert_ne by set_solver. rewrite (lf_conns _ _ Hs1).
      apply Hun. set_solver.
    + split; [done|]. eexists. split; [exact HJ|]. split_and!; [done|by eexists|done|simpl; lia|done].
    + intros s2 HIn. by eapply maybe_enqueue_incoming_job_safe.
Qed.
End putting.
