(* ===== verification/Tame.v ===== *)
(** What a command leaves of the parts of the state that the invariant of the
    server does not speak of: the queue of epoll updates, the command buffers,
    the number of jobs and the next id.

    [tame n] is the frame ([Frames]) of all commands but [put] with a body, for
    which it is proved here too; [away c] is that of the operations on jobs when
    [c] is in no waiting set and not in the queue of epoll updates. *)
From S2P Require Import Prelude Heap Ms State Monad JobList JobHash Tube Job Wal Conn Queue Frames Parse Stats Dispatch.
From S2P Require Putting.
#[local] Open Scope Z_scope.

(** The queue of epoll updates ends or goes round, among connections that exist,
    without those of [A]. *)
Definition linked (A : gset connp) (s : St) : Prop :=
  ∃ X : gset connp, X ## A ∧ (∀ c, epollq s = Some c → c ∈ X) ∧
    ∀ c, c ∈ X → ∃ C, st_conns s !! c = Some C ∧ ∀ d, c_next C = Some d → d ∈ X.

(** No job has a negative size. *)
Definition sized (s : St) : Prop := ∀ j J, st_jobs s !! j = Some J → 0 <= size_of J.

(** The command buffer is the same, or the command was taken out. *)
Definition eaten (C C' : Conn) : Prop :=
  c_cmd_len C' = c_cmd_len C ∧ c_cmd_read C' = c_cmd_read C ∨
  c_cmd_len C' = 0%nat ∧ (c_cmd_read C' <= c_cmd_read C - c_cmd_len C)%nat.

Record tame_step (n : nat) (s s' : St) : Prop := {
  tm_sized : sized s';
  tm_dom : dom (st_conns s') = dom (st_conns s);
  tm_eaten c C C' : st_conns s !! c = Some C → st_conns s' !! c = Some C' → eaten C C';
  tm_size : (size (st_jobs s') <= size (st_jobs s) + n)%nat;
  tm_next : 0 <= next_id (st_table s) → 0 <= next_id (st_table s') <= next_id (st_table s) + Z.of_nat n;
  tm_linked : linked ∅ s → linked ∅ s';
  tm_default : default_tube s' = default_tube s;
}.
Definition tame (n : nat) (s s' : St) : Prop := sized s → tame_step n s s'.

Definition everyone : connp → Prop := λ _, True.
#[export] Instance everyone_allowed c : Allowed everyone c.
Proof. done. Qed.

Section tame.
Implicit Types (s : St) (c : connp) (C : Conn).

Lemma eaten_refl C : eaten C C.
Proof. by left. Qed.
Lemma eaten_trans C1 C2 C3 : eaten C1 C2 → eaten C2 C3 → eaten C1 C3.
Proof.
  intros [[H1 H2]|[H1 H2]] [[H3 H4]|[H3 H4]]; [left; split; congruence|right..]; split; try done; lia.
Qed.

Lemma tame_trans n1 n2 s1 s2 s3 : tame n1 s1 s2 → tame n2 s2 s3 → tame (n1 + n2) s1 s3.
Proof.
  intros H1 H2 Hs. destruct (H1 Hs) as [Z1 D1 E1 S1 N1 L1 T1]. destruct (H2 Z1) as [Z2 D2 E2 S2 N2 L2 T2].
  split; [done|congruence| |lia|lia|auto|congruence].
  intros c C C3 HC HC3. assert (is_Some (st_conns s2 !! c)) as [C2 HC2].
  { apply elem_of_dom. rewrite D1. apply elem_of_dom. eauto. }
  eapply eaten_trans; eauto.
Qed.

Lemma linked_same A s s' :
  epollq s' = epollq s → same_but k_conn (st_conns s) (st_conns s') → linked A s → linked A s'.
Proof.
  intros He HC (X & HA & Hq & Hn). exists X. split_and!; [done|by rewrite He|].
  intros c (C & HCc & Hd)%Hn. destruct (same_but_lookup _ _ _ _ _ HC HCc) as (C' & HC' & Hk).
  exists C'. split; [done|]. assert (c_next C' = c_next C) as -> by exact (f_equal c_next Hk). done.
Qed.

(** [c] is put in front of the queue. *)
Lemma linked_push A s c C :
  c ∉ A → st_conns s !! c = Some C → linked A s →
  linked A (s <| st_conns ::= <[c := C <| c_next := epollq s |>]> |> <| epollq := Some c |>).
Proof.
  intros Hc HC (X & HA & Hq & Hn). exists ({[c]} ∪ X). split_and!; [set_solver|set_solver|].
  intros d Hd. rsimpl. destruct (decide (d = c)) as [->|Hne].
  - rewrite lookup_insert_eq. eexists. split; [done|]. simpl. intros x Hx%Hq. set_solver.
  - rewrite lookup_insert_ne by done. destruct (Hn d) as (D & ? & Hnx); [set_solver|].
    exists D. split; [done|]. intros x Hx%Hnx. set_solver.
Qed.

Lemma k_eaten C C' : k_conn C' = k_conn C → eaten C C'.
Proof. intros He. left. split; [exact (f_equal c_cmd_len He)|exact (f_equal c_cmd_read He)]. Qed.

Lemma tame_view s s' : view s s' → tame 0 s s'.
Proof.
  intros [HJ HC He _ Hn Hdf] Hs. pose proof (fewer_dom _ _ HJ) as Hd. split.
  - intros j J' (J & HJ1 & ->)%HJ. by eapply Hs.
  - by rewrite (same_but_dom _ _ _ HC).
  - intros c C C' H1 H2. destruct (same_but_lookup _ _ _ _ _ HC H1) as (C1 & ? & He1).
    assert (C1 = C') as -> by congruence. by apply k_eaten.
  - rewrite <- !size_dom. apply subseteq_size in Hd. lia.
  - rewrite Hn. lia.
  - by apply linked_same.
  - done.
Qed.

Lemma wrap_u64_le n : 0 <= n → 0 <= wrap_u64 n <= n.
Proof.
  intros Hn. unfold wrap_u64. split; [apply Z.mod_pos_bound; lia|]. apply Z.mod_le; lia.
Qed.

#[export] Instance tame_frame : Frame tame everyone.
Proof.
  split.
  - apply tame_trans.
  - intros n1 n2 s s' Hn H Hs. destruct (H Hs) as [Z D E S N L T]. split; [done..|lia|lia|done|done].
  - apply tame_view.
  - intros s j J HJ Hs. split; rsimpl; try done.
    + intros x B. rsimpl. intros [[<- <-]|[_ ?]]%lookup_insert_Some; [|by eapply Hs].
      destruct HJ as [?|(i & B & ? & ->)]; [done|by eapply Hs].
    + intros c C C' H1 H2. assert (C' = C) as -> by congruence. apply eaten_refl.
    + rewrite map_size_insert. case_match; simpl; lia.
    + lia.
  - intros s Hs. split; rsimpl; try done.
    + intros c C C' H1 H2. assert (C' = C) as -> by congruence. apply eaten_refl.
    + lia.
    + intros Hn. pose proof (wrap_u64_le (next_id (st_table s) + 1)). lia.
  - intros s c C _ HC Hs. split; rsimpl; try done.
    + by rewrite dom_insert_lookup_L.
    + intros d D D' HD [[<- <-]|[_ HD']]%lookup_insert_Some.
      * assert (D = C) as -> by congruence. by left.
      * assert (D' = D) as -> by congruence. apply eaten_refl.
    + lia.
    + lia.
    + intros HL. by apply linked_push.
  - intros s c _. by left.
Qed.
End tame.

(** ** The same without the command buffers *)

Record steady_step (n : nat) (s s' : St) : Prop := {
  sd_sized : sized s';
  sd_dom : dom (st_conns s') = dom (st_conns s);
  sd_size : (size (st_jobs s') <= size (st_jobs s) + n)%nat;
  sd_next : 0 <= next_id (st_table s) → 0 <= next_id (st_table s') <= next_id (st_table s) + Z.of_nat n;
  sd_linked : linked ∅ s → linked ∅ s';
  sd_default : default_tube s' = default_tube s;
}.
Definition steady (n : nat) (s s' : St) : Prop := sized s → steady_step n s s'.

Lemma tame_steady n s s' : tame n s s' → steady n s s'.
Proof. intros H Hs. by destruct (H Hs). Qed.
Lemma steady_trans n1 n2 s1 s2 s3 : steady n1 s1 s2 → steady n2 s2 s3 → steady (n1 + n2) s1 s3.
Proof.
  intros H1 H2 Hs. destruct (H1 Hs) as [Z1 D1 S1 N1 L1 T1]. destruct (H2 Z1) as [Z2 D2 S2 N2 L2 T2].
  split; [done|congruence|lia|lia|auto|congruence].
Qed.
#[export] Instance steady_frame : Frame steady everyone.
Proof.
  split; [exact steady_trans| |intros; apply tame_steady..|intros; by left].
  - intros n1 n2 s s' Hn H Hs. destruct (H Hs) as [Z D S N L T]. split; [done..|lia|lia|done|done].
  - by apply tame_view.
  - by apply (fr_alloc (Frame := tame_frame)).
  - by apply (fr_id (Frame := tame_frame)).
  - by apply (fr_push (Frame := tame_frame)).
Qed.
Lemma keeps_tame_steady {A} n (m : M A) : Keeps tame n m → Keeps steady n m.
Proof. intros Hm s a s' Hs. apply tame_steady. by eapply Hm. Qed.

(** All fields of a connection but its place in the queue may change. *)
Lemma steady_conn s c C C' :
  st_conns s !! c = Some C → c_next C' = c_next C → steady 0 s (s <| st_conns ::= <[c := C']> |>).
Proof.
  intros HC Hn Hs. split; rsimpl; try done; [by rewrite dom_insert_lookup_L|lia|lia|].
  intros (X & HA & Hq & Hx). exists X. split_and!; [done|done|]. intros d Hd. rsimpl.
  destruct (Hx d Hd) as (D & HD & Hnd). destruct (decide (d = c)) as [->|Hne].
  - rewrite lookup_insert_eq. exists C'. split; [done|]. assert (D = C) as -> by congruence. by rewrite Hn.
  - rewrite lookup_insert_ne by done. eauto.
Qed.
Lemma update_steady c f : (∀ C, c_next (f C) = c_next C) → Keeps steady 0 (update st_conns c f).
Proof. intros Hf. apply keeps_update. intros s C HC. by eapply steady_conn. Qed.

(** The same when connections may be freed. *)
Record modest_step (n : nat) (s s' : St) : Prop := {
  md_sized : sized s';
  md_dom : dom (st_conns s') ⊆ dom (st_conns s);
  md_size : (size (st_jobs s') <= size (st_jobs s) + n)%nat;
  md_next : 0 <= next_id (st_table s) → 0 <= next_id (st_table s') <= next_id (st_table s) + Z.of_nat n;
  md_default : default_tube s' = default_tube s;
}.
Definition modest (n : nat) (s s' : St) : Prop := sized s → modest_step n s s'.
Lemma steady_modest n s s' : steady n s s' → modest n s s'.
Proof. intros H Hs. destruct (H Hs) as [Z D S N _ T]. split; [done|set_solver|done|done|done]. Qed.
#[export] Instance modest_frame : Frame modest everyone.
Proof.
  split; [| |intros; apply steady_modest..|intros; by left].
  - intros n1 n2 s1 s2 s3 H1 H2 Hs. destruct (H1 Hs) as [Z1 D1 S1 N1 T1]. destruct (H2 Z1) as [Z2 D2 S2 N2 T2].
    split; [done|set_solver|lia|lia|congruence].
  - intros n1 n2 s s' Hn H Hs. destruct (H Hs) as [Z D S N T]. split; [done..|lia|lia|done].
  - by apply (fr_view (Frame := steady_frame)).
  - by apply (fr_alloc (Frame := steady_frame)).
  - by apply (fr_id (Frame := steady_frame)).
  - by apply (fr_push (Frame := steady_frame)).
Qed.
Lemma modest_delete s c : modest 0 s (s <| st_conns ::= delete c |>).
Proof. intros Hs. split; rsimpl; [done|set_solver|lia|lia|done]. Qed.

(** ** A connection that is going away

    [c] waits for no tube and is not in the queue of epoll updates. *)
Definition gone (c : connp) (s : St) : Prop := ¬ listed s c ∧ linked {[c]} s.
Definition away (c : connp) (n : nat) (s s' : St) : Prop := gone c s → gone c s'.
#[export] Instance away_frame c : Frame (away c) (λ c', c' ≠ c).
Proof.
  split.
  - intros n1 n2 s1 s2 s3 H1 H2 H. by apply H2, H1.
  - by intros n1 n2 s s' _.
  - intros s s' [_ HC He Hw _ _] [Hl Hx]. split; [by intros ?%Hw|by eapply linked_same].
  - intros s j J _ H. exact H.
  - intros s H. exact H.
  - intros s d D Hd HD [Hl Hx]. split; [exact Hl|]. apply linked_push; [set_solver|done|done].
  - intros s d Hd. destruct (decide (d = c)) as [->|]; [right|by left]. by intros n s' [? _].
Qed.

(** ** The commands *)

#[export] Instance keeps_bind_last_tame {A B} n (m : M A) (k : A → M B) :
  Keeps tame (S n) m → (∀ a, Keeps tame 0 (k a)) → Keeps tame (S n) (m ≫= k) | 20.
Proof. by apply (keeps_bind_last tame). Qed.
#[export] Instance keeps_less_tame {A} n (m : M A) : Keeps tame n m → Keeps tame (S n) m | 30.
Proof. apply (keeps_mono tame). lia. Qed.
#[export] Hint Extern 1 (Keeps _ _ (upd_conn _ _)) => unfold upd_conn : typeclass_instances.

Section commands.
Context {E : Env} {SI : SysInfo}.
Implicit Types (s : St) (c : connp) (C : Conn).

(** Tubes are not looked at. *)
Lemma tame_tubes s T : tame 0 s (s <| st_tubes := T |>).
Proof.
  intros Hs. split; try done; simpl; [|lia|lia]. intros c C C' H1 H2. assert (C' = C) as -> by congruence.
  apply eaten_refl.
Qed.
Lemma update_tube_tame t f : Keeps tame 0 (update st_tubes t f).
Proof.
  apply keeps_update. intros s T HT. apply (tame_tubes s (<[t := f T]> (st_tubes s))).
Qed.
#[local] Hint Extern 3 (Keeps _ _ (update st_tubes _ _)) => apply update_tube_tame : typeclass_instances.

#[export] Instance enqueue_waiting_conn_tame c : Keeps tame 0 (enqueue_waiting_conn c).
Proof. unfold enqueue_waiting_conn. keep. Qed.
#[export] Instance wait_for_job_tame c timeout : Keeps tame 0 (wait_for_job c timeout).
Proof. unfold wait_for_job. keep. Qed.
#[export] Instance or_else_tame {A} (m : M (option A)) o : Keeps tame 0 m → Keeps tame 0 (or_else m o).
Proof. intros. unfold or_else. keep. Qed.
#[export] Instance mapM_tame {A B} (f : A → M B) l : (∀ x, Keeps tame 0 (f x)) → Keeps tame 0 (mapM_ f l).
Proof. intros. induction l as [|x l IH]; cbn [mapM_]; keep. Qed.
#[export] Instance tube_names_tame l : Keeps tame 0 (tube_names l).
Proof. unfold tube_names. keep. Qed.
#[export] Instance count_op_tame o : Keeps tame 0 (count_op o).
Proof. unfold count_op. keep. Qed.
#[export] Instance no_garbage_tame n c o name k : Keeps tame n k → Keeps tame n (no_garbage c o name k).
Proof.
  intros. unfold no_garbage. apply (keeps_bind tame); [exact _|intros C]. case_match.
  - unfold bad_format. apply (keeps_up tame). keep.
  - apply (keeps_bind tame); [exact _|done].
Qed.
#[export] Instance with_id_tame n c o args k : (∀ id, Keeps tame n (k id)) → Keeps tame n (with_id c o args k).
Proof.
  intros. unfold with_id. case_match.
  - case_match. apply (keeps_bind tame); [exact _|done].
  - unfold bad_format. apply (keeps_up tame). keep.
Qed.
#[export] Instance with_name_tame n c o name k : Keeps tame n k → Keeps tame n (with_name c o name k).
Proof.
  intros. unfold with_name. case_match.
  - unfold bad_format. apply (keeps_up tame). keep.
  - apply (keeps_bind tame); [exact _|done].
Qed.
#[export] Instance op_count_tame o : Keeps tame 0 (op_count o).
Proof. unfold op_count. keep. Qed.
#[export] Instance op_line_tame label o : Keeps tame 0 (op_line label o).
Proof. unfold op_line. keep. Qed.
#[export] Instance uptime_tame : Keeps tame 0 uptime.
Proof. unfold uptime. keep. Qed.
#[export] Instance file_seq_tame f : Keeps tame 0 (file_seq f).
Proof. unfold file_seq. keep. Qed.
#[export] Instance fmt_stats_tame : Keeps tame 0 fmt_stats.
Proof. unfold fmt_stats. keep. Qed.
#[export] Instance fmt_job_stats_tame j : Keeps tame 0 (fmt_job_stats j).
Proof. unfold fmt_job_stats. keep. Qed.
#[export] Instance fmt_stats_tube_tame t : Keeps tame 0 (fmt_stats_tube t).
Proof. unfold fmt_stats_tube. keep. Qed.
#[export] Instance set_out_job_tame c j : Keeps tame 0 (set_out_job c j).
Proof. unfold set_out_job. keep. Qed.
(** The size of a job is set. *)
Lemma resize_tame j n : 0 <= n → Keeps tame 0 (upd_rec j (fun r => r <| r_body_size := n |>)).
Proof.
  intros Hn. unfold upd_rec. apply keeps_update. intros s J HJ Hs. split; rsimpl; try done; [| |rewrite map_size_insert_Some by done; lia|lia].
  - intros x B. rsimpl. intros [[<- <-]|[_ ?]]%lookup_insert_Some; [done|by eapply Hs].
  - intros c C C' H1 H2. assert (C' = C) as -> by congruence. apply eaten_refl.
Qed.
#[export] Instance do_stats_tame c fmt : Keeps tame 0 fmt → Keeps tame 1 (do_stats c fmt).
Proof.
  intros Hf. unfold do_stats. apply (keeps_bind tame); [done|intros s1]. cbv zeta.
  apply (keeps_bind_last tame); [apply (allocate_job_keeps tame everyone); lia|intros [j|]; [|keep]].
  pose proof (λ n, resize_tame j (Z.of_nat n) ltac:(lia)). keep.
Qed.
Lemma list_resp_z_pos l : 0 <= list_resp_z l.
Proof. unfold list_resp_z. induction l; simpl in *; lia. Qed.
#[export] Instance do_list_tubes_tame c l : Keeps tame 1 (do_list_tubes c l).
Proof.
  unfold do_list_tubes. apply (keeps_bind tame); [exact _|intros names]. cbv zeta.
  apply (keeps_bind_last tame); [apply (allocate_job_keeps tame everyone), list_resp_z_pos|intros [j|]; keep].
Qed.
#[export] Instance enqueue_incoming_job_tame c : Keeps tame 0 (enqueue_incoming_job c).
Proof. unfold enqueue_incoming_job. keep. Qed.
#[export] Instance maybe_enqueue_incoming_job_tame c : Keeps tame 0 (maybe_enqueue_incoming_job c).
Proof. unfold maybe_enqueue_incoming_job. keep. Qed.
#[export] Instance bad_format_tame c : Keeps tame 0 (bad_format c).
Proof. unfold bad_format. keep. Qed.
#[export] Instance not_found_tame c : Keeps tame 0 (not_found c).
Proof. unfold not_found. keep. Qed.
#[export] Instance peek_reply_tame c j : Keeps tame 1 (peek_reply c j).
Proof. unfold peek_reply. keep. Qed.
#[export] Instance use_tube_tame c : Keeps tame 0 (use_tube c).
Proof. unfold use_tube. keep. Qed.
#[export] Instance heap_first_tame h : Keeps tame 0 (heap_first h).
Proof. unfold heap_first. keep. Qed.
#[export] Instance cmd_peek_ready_tame c : Keeps tame 1 (cmd_peek_ready c).
Proof. unfold cmd_peek_ready. keep. Qed.
#[export] Instance cmd_peek_delayed_tame c : Keeps tame 1 (cmd_peek_delayed c).
Proof. unfold cmd_peek_delayed. keep. Qed.
#[export] Instance cmd_peek_buried_tame c : Keeps tame 1 (cmd_peek_buried c).
Proof. unfold cmd_peek_buried. keep. Qed.
#[export] Instance cmd_peek_job_tame c args : Keeps tame 1 (cmd_peek_job c args).
Proof. unfold cmd_peek_job. keep. Qed.
#[export] Instance reserve_common_tame c o timeout : Keeps tame 0 (reserve_common c o timeout).
Proof. unfold reserve_common. keep. Qed.
#[export] Instance cmd_reserve_tame c : Keeps tame 0 (cmd_reserve c).
Proof. unfold cmd_reserve. keep. Qed.
#[export] Instance cmd_reserve_timeout_tame c args : Keeps tame 0 (cmd_reserve_timeout c args).
Proof. unfold cmd_reserve_timeout. keep. Qed.
#[export] Instance cmd_reserve_job_tame c args : Keeps tame 0 (cmd_reserve_job c args).
Proof. unfold cmd_reserve_job. keep. Qed.
#[export] Instance cmd_delete_tame c args : Keeps tame 0 (cmd_delete c args).
Proof. unfold cmd_delete. keep. Qed.
#[export] Instance cmd_release_tame c args : Keeps tame 0 (cmd_release c args).
Proof. unfold cmd_release. keep. Qed.
#[export] Instance cmd_bury_tame c args : Keeps tame 0 (cmd_bury c args).
Proof. unfold cmd_bury. keep. Qed.
#[export] Instance cmd_kick_tame c args : Keeps tame 0 (cmd_kick c args).
Proof. unfold cmd_kick. keep. Qed.
#[export] Instance cmd_kick_job_tame c args : Keeps tame 0 (cmd_kick_job c args).
Proof. unfold cmd_kick_job. keep. Qed.
#[export] Instance cmd_touch_tame c args : Keeps tame 0 (cmd_touch c args).
Proof. unfold cmd_touch. keep. Qed.
#[export] Instance cmd_stats_tame c : Keeps tame 1 (cmd_stats c).
Proof. unfold cmd_stats. keep. Qed.
#[export] Instance cmd_stats_job_tame c args : Keeps tame 1 (cmd_stats_job c args).
Proof. unfold cmd_stats_job. keep. Qed.
#[export] Instance cmd_stats_tube_tame c name : Keeps tame 1 (cmd_stats_tube c name).
Proof. unfold cmd_stats_tube. keep. Qed.
#[export] Instance cmd_list_tubes_tame c : Keeps tame 1 (cmd_list_tubes c).
Proof. unfold cmd_list_tubes. keep. Qed.
#[export] Instance cmd_list_tube_used_tame c : Keeps tame 0 (cmd_list_tube_used c).
Proof. unfold cmd_list_tube_used. keep. Qed.
#[export] Instance cmd_list_tubes_watched_tame c : Keeps tame 1 (cmd_list_tubes_watched c).
Proof. unfold cmd_list_tubes_watched. keep. Qed.
#[export] Instance cmd_use_tame c name : Keeps tame 0 (cmd_use c name).
Proof. unfold cmd_use. keep. Qed.
#[export] Instance watching_reply_tame c : Keeps tame 0 (watching_reply c).
Proof. unfold watching_reply. keep. Qed.
#[export] Instance cmd_watch_tame c name : Keeps tame 0 (cmd_watch c name).
Proof. unfold cmd_watch. keep. Qed.
#[export] Instance cmd_ignore_tame c name : Keeps tame 0 (cmd_ignore c name).
Proof. unfold cmd_ignore. keep. Qed.
#[export] Instance cmd_quit_tame c : Keeps tame 0 (cmd_quit c).
Proof. unfold cmd_quit. keep. Qed.
#[export] Instance cmd_pause_tube_tame c args : Keeps tame 0 (cmd_pause_tube c args).
Proof. unfold cmd_pause_tube. keep. Qed.

(** ** The body of a put *)

Lemma tame_conn s c C C' :
  st_conns s !! c = Some C → eaten C C' → c_next C' = c_next C → tame 0 s (s <| st_conns ::= <[c := C']> |>).
Proof.
  intros HC He Hn Hs. split; rsimpl; try done; [by rewrite dom_insert_lookup_L| |lia|lia|].
  - intros d D D' HD [[<- <-]|[_ HD']]%lookup_insert_Some.
    + assert (D = C) as -> by congruence. done.
    + assert (D' = D) as -> by congruence. apply eaten_refl.
  - intros (X & HA & Hq & Hx). exists X. split_and!; [done|done|]. intros d Hd. rsimpl.
    destruct (Hx d Hd) as (D & HD & Hnd). destruct (decide (d = c)) as [->|Hne].
    + rewrite lookup_insert_eq. exists C'. split; [done|]. assert (D = C) as -> by congruence. by rewrite Hn.
    + rewrite lookup_insert_ne by done. eauto.
Qed.

(** Running backwards. *)
Lemma bind_Ret {A B} (m : M A) (k : A → M B) s b s' :
  (m ≫= k) s = Ret b s' → ∃ a s1, m s = Ret a s1 ∧ k a s1 = Ret b s'.
Proof. unfold mbind, M_bind. destruct (m s) as [a s1|]; [eauto|done]. Qed.
Lemma deref_Ret {V} (m : St → gmap positive V) p s v s' :
  deref m p s = Ret v s' → m s !! p = Some v ∧ s' = s.
Proof.
  unfold deref, gets, mbind, M_bind. simpl. destruct (m s !! p); simpl; [|done]. by intros [= <- <-].
Qed.
Lemma update_Ret {V} (m : St → gmap positive V) `{!Setter m} p f s a s' :
  update m p f s = Ret a s' → ∃ v, m s !! p = Some v ∧ s' = s <| m ::= <[p := f v]> |>.
Proof. unfold update. intros (v & s1 & [Hv ->]%deref_Ret & [= _ <-])%bind_Ret. eauto. Qed.

(** The bytes of the body are taken first, then those that follow it are kept. *)
Lemma fill_extra_tame s c C s' :
  st_conns s !! c = Some C → (c_in_job C = None → 0 <= c_in_job_read C) →
  fill_extra_data c s = Ret tt s' → tame 0 s s'.
Proof.
  intros HC Hr Hrun Hs. revert Hs Hrun. unfold fill_extra_data, upd_conn.
  intros Hs (C0 & s0 & [HC0 ->]%deref_Ret & Hrun)%bind_Ret. assert (C0 = C) as -> by congruence. revert Hrun.
  case_match; [intros [= <-]; by apply tame_view|]. case_match; [intros [= <-]; by apply tame_view|]. cbv zeta.
  set (extra := Z.of_nat (c_cmd_read C) - Z.of_nat (c_cmd_len C)).
  (* the number of bytes that go to the body *)
  assert (∀ s1 n r f, tame 0 s s1 → st_conns s1 !! c = Some (C <| c_in_job_read := r |>) → extra <= n ∨ 0 <= n →
    (∀ C1, c_cmd_len (f C1) = 0%nat ∧ c_cmd_read (f C1) = Z.to_nat (extra - n) ∧ c_next (f C1) = c_next C1) →
    update st_conns c f s1 = Ret tt s' → tame_step 0 s s') as Hend.
  { intros s1 n r f Ht HC1 Hn Hf (C1 & HC1' & ->)%update_Ret. apply (tame_trans 0 0 s s1); [done| |done].
    assert (C1 = C <| c_in_job_read := r |>) as -> by congruence. destruct (Hf (C <| c_in_job_read := r |>)) as (F1 & F2 & F3).
    eapply tame_conn; [done| |done]. right. rewrite F1, F2. split; [done|]. rsimpl. unfold extra. lia. }
  assert (C = C <| c_in_job_read := c_in_job_read C |>) as Heta by (by destruct C).
  intros (n & s1 & Hin & Hrun)%bind_Ret.
  assert (∃ r, tame 0 s s1 ∧ st_conns s1 !! c = Some (C <| c_in_job_read := r |>) ∧ (extra <= n ∨ 0 <= n)) as (r & ? & ? & ?).
  { clear Hrun Hend. destruct (c_in_job C) as [j|] eqn:Hj; [|destruct (negb _)].
    - apply bind_Ret in Hin as (J & s2 & [HJ ->]%deref_Ret & Hin). pose proof (Hs j J HJ).
      apply bind_Ret in Hin as ([] & s3 & Hcap & Hin). assert (s3 = s) as -> by (revert Hcap; case_match; [done|by intros [= ->]]).
      apply bind_Ret in Hin as ([] & s4 & (J' & HJ' & ->)%update_Ret & Hin).
      apply bind_Ret in Hin as ([] & s5 & (C' & HC' & ->)%update_Ret & [= <- <-]).
      assert (C' = C) as -> by (simpl in HC'; congruence). eexists. split_and!.
      + apply (tame_trans 0 0 s (s <| st_jobs ::= <[j := J' <| j_body := take (Z.to_nat (Z.min extra (r_body_size (j_r J)))) (drop (c_cmd_len C) (c_cmd C)) |>]> |>)).
        * apply tame_view. by eapply view_job.
        * eapply tame_conn; [done|by left|done].
      + rsimpl. by rewrite lookup_insert_eq.
      + unfold size_of in *. lia.
    - apply bind_Ret in Hin as ([] & s5 & (C' & HC' & ->)%update_Ret & [= <- <-]).
      assert (C' = C) as -> by congruence. eexists. split_and!.
      + eapply tame_conn; [done|by left|done].
      + rsimpl. by rewrite lookup_insert_eq.
      + specialize (Hr eq_refl). lia.
    - injection Hin as <- <-. exists (c_in_job_read C). split_and!; [by apply tame_view|congruence|by right]. }
  by eapply (Hend s1 n r); [..|exact Hrun].
Qed.

Lemma skip_tame c n m : 0 <= n → Keeps tame 0 (_skip c n m).
Proof.
  intros Hn. unfold _skip, upd_conn. intros s a s'.
  intros ([] & s1 & (C & HC & ->)%update_Ret & Hrun)%bind_Ret.
  apply bind_Ret in Hrun as ([] & s2 & Hfill & Hrun).
  apply (fill_extra_tame _ c (C <| c_in_job := None |> <| c_in_job_read := n |>)) in Hfill;
    [|rsimpl; by rewrite lookup_insert_eq|done].
  apply (tame_trans 0 0 s s2).
  - eapply (tame_trans 0 0); [|exact Hfill]. eapply tame_conn; [done|by left|done].
  - match type of Hrun with ?k _ = _ => assert (Keeps tame 0 k) as Hk by keep end. by eapply Hk.
Qed.

#[export] Instance cmd_put_tame c args : Keeps tame 2 (cmd_put c args).
Proof.
  unfold cmd_put. destruct (parse_put args) as [[[[[pri delay] ttr] body_size] e]|] eqn:Hp; [|unfold bad_format; keep].
  apply Putting.parse_put_size in Hp as Hb.
  apply (keeps_bind tame); [exact _|intros []]. apply (keeps_bind tame); [exact _|intros s].
  case_match; [apply (keeps_up tame), skip_tame; lia|]. case_match; [unfold bad_format; keep|].
  apply (keeps_bind tame); [exact _|intros []]. cbv zeta. apply (keeps_bind tame); [exact _|intros C].
  apply (keeps_bind_last tame); [apply (make_job_keeps tame everyone); lia|].
  intros [j|].
  - intros s1 a s2 ([] & s3 & (C1 & HC1 & ->)%update_Ret & Hrun)%bind_Ret.
    apply bind_Ret in Hrun as ([] & s4 & Hfill & Hrun).
    apply (fill_extra_tame _ c (C1 <| c_in_job := Some j |>)) in Hfill; [|rsimpl; by rewrite lookup_insert_eq|done].
    apply (tame_trans 0 0 s1 s4).
    + eapply (tame_trans 0 0); [|exact Hfill]. eapply tame_conn; [done|by left|done].
    + assert (Keeps tame 0 (maybe_enqueue_incoming_job c)) as Hk by keep. by eapply Hk.
  - apply (keeps_bind tame); [exact _|intros []]. apply skip_tame. lia.
Qed.

#[export] Instance run_cmd_tame c cmd : Keeps tame 2 (run_cmd c cmd).
Proof. unfold run_cmd. cbv zeta. destruct (which_cmd cmd); exact _. Qed.
#[export] Instance dispatch_cmd_tame c : Keeps tame 2 (dispatch_cmd c).
Proof.
  unfold dispatch_cmd. apply (keeps_bind tame); [exact _|intros []].
  apply (keeps_bind tame); [exact _|intros C]. cbv zeta. case_match; [unfold bad_format|]; exact _.
Qed.
End commands.
