(* ===== verification/Safety.v ===== *)
(** The command interpreter as a whole: whatever the line, [dispatch_cmd] is
    defined, terminates, does not exit, and keeps the invariant of the server. *)
From S2P Require Import Prelude Heap Ms State Monad JobList JobHash Tube Job Wal Conn Queue QueueRep QueueOps QueueConn QueueProc Process Runs Owners QueueCmds QueueLoops Refs Life Sound Parse ParseSpec Stats Dispatch Commands Reserving Showing Naming Putting QueueSpec.
#[local] Open Scope Z_scope.

#[local] Create HintDb safe.
#[local] Hint Resolve cmd_put_safe cmd_peek_ready_safe cmd_peek_delayed_safe cmd_peek_buried_safe
  cmd_peek_job_safe cmd_reserve_timeout_safe cmd_reserve_safe cmd_reserve_job_safe cmd_delete_safe
  cmd_release_safe cmd_bury_safe cmd_kick_safe cmd_kick_job_safe cmd_touch_safe cmd_stats_safe
  cmd_stats_job_safe cmd_stats_tube_safe cmd_list_tubes_safe cmd_list_tube_used_safe
  cmd_list_tubes_watched_safe cmd_use_safe cmd_watch_safe cmd_ignore_safe cmd_quit_safe
  cmd_pause_tube_safe msg_safe : safe.

Section safety.
Context {E : Env} {SI : SysInfo}.
Implicit Types (P : places) (ids : gmap Z jobp) (s : St) (c : connp).

Lemma run_cmd_safe c ids P s cmd : at_command c ids P s → safe (run_cmd c cmd) s.
Proof. intros HA. unfold run_cmd. cbv zeta. destruct (which_cmd cmd); eauto with safe. Qed.

(** The line of [c] is in its buffer, ended by the two bytes of the terminator. *)
Lemma dispatch_cmd_at c ids P s : at_command c ids P s → safe (dispatch_cmd c) s.
Proof.
  intros HA. pose proof HA as [_ _ (C & HC & Hw)]. unfold dispatch_cmd, safe, bad_format, upd_conn. wsteps.
  match goal with |- wp _ _ ?s' => assert (at_command c ids P s') as HA' end.
  { eapply at_command_sim; [by apply (conn_sim s c C)|done]. }
  case_match; [by eapply msg_safe|by eapply run_cmd_safe].
Qed.



(** C14: [make_job] answers NULL and changes nothing when memory runs out, or adds
    one job: it gets the next id, which no job had, is found in the table by
    it, and holds a reference to its tube. *)
Theorem make_job_adds X ids P s pri delay ttr body_size t (id := next_id (st_table s)) :
  srv_inv none X ids P s → room ids s → t ∈ ms_items (tubes s) →
  ∃ r s', returns (make_job pri delay ttr body_size (Some t)) s r s' ∧
    match r with
    | None => st_jobs s' = st_jobs s ∧ srv_inv none X ids P s'
    | Some j => ids !! id = None ∧ P !! j = None ∧ srv_inv none X (<[id := j]> ids) P s' ∧
        ∃ J, st_jobs s' !! j = Some J ∧ j_tube J = Some t ∧ r_id (j_r J) = id ∧
          r_state (j_r J) = Invalid ∧ r_pri (j_r J) = pri ∧ r_delay (j_r J) = delay ∧
          r_ttr (j_r J) = ttr ∧ r_body_size (j_r J) = body_size
    end.
Proof.
  intros HI Hr Ht. apply wp_returns, (wp_make_job X ids P s); [done..| |].
  - split; [done|by apply srv_inv_tick].
  - intros j now p s' HI' Hid HP HJ _ _. split_and!; [done..|]. by eexists.
Qed.

(** C15: the jobs of a connection that goes away are given back: the loop ends when
    the list is empty, each job that the connection held is ready or buried in
    its tube or was handed to a connection that waited for its tube, and no
    other job has moved except from ready to such a connection. *)
Theorem enqueue_reserved_jobs_gives_back X ids P s c :
  queue_inv X ids P s → c ∈ X → is_Some (st_conns s !! c) →
  ∃ P' s', returns (enqueue_reserved_jobs c) s tt s' ∧ queue_inv X ids P' s' ∧
    (∀ j Jb t, P !! j = Some (InReserved c) → st_jobs s !! j = Some Jb → j_tube Jb = Some t →
       lands s P' j t) ∧
    (∀ j, P !! j ≠ Some (InReserved c) → fair_move P P' s j) ∧
    ∀ j, P' !! j ≠ Some (InReserved c).
Proof.
  intros HI Hc Hlive.
  assert (wp (enqueue_reserved_jobs c) (λ _ s', ∃ P', queue_inv X ids P' s' ∧
    drains X (holds c P) P s P' s') s) as Hwp.
  { eapply wp_enqueue_reserved_jobs; [done..|]. eauto. }
  apply wp_Ret in Hwp as ([] & s' & ? & P' & HI' & Hd). exists P', s'. split_and!; [done..| | |].
  - intros j Jb t Hj. eapply dr_lands; [done|]. by apply elem_of_holds.
  - intros j Hj. eapply st_move; [apply Hd|]. by rewrite elem_of_holds.
  - intros j Hj. rewrite (drains_holds _ _ _ _ _ _ c Hd) in Hj.
    + rewrite elem_of_holds in Hj. tauto.
    + intros C HC. exact (queue_inv_not_waiting _ _ _ _ _ _ HI Hc HC).
    + intros y Hy%elem_of_holds.
      destruct (qr_place _ _ _ _ (qi_rep _ _ _ _ HI) y _ Hy) as (J & t & T & HJ & _ & Ht & _). eauto.
Qed.
End safety.

(** ** The example state of [QueueSpec] *)
Module Example.
Import QueueSpec.Demo.

Definition sys : SysInfo := {|
  si_pid := 1; si_version := []; si_instance_hex := []; si_nodename := []; si_os_version := [];
  si_machine := []; si_rusage := λ _, ((0, 0), (0, 0));
|}.
#[export] Existing Instance sys.

Lemma table_holds : table_rep jobs table ids.
Proof.
  split; [done|done|..].
  - intros i Hi. change (all_jobs_cap table) with 12289 in *.
    assert (∀ k j, ids !! k = Some j → k mod 12289 = k) as Hmod by (intros k j Hk; keys Hk).
    assert (all_jobs table = ids) as -> by done.
    destruct (ids !! i) as [j|] eqn:Hij.
    + exists [j]. split_and!; [|apply NoDup_singleton|].
      * simpl. split; [done|]. keys Hij; by eexists.
      * intros y. rewrite list_elem_of_singleton. split.
        -- intros ->. exists i. split; [done|]. by eapply Hmod.
        -- intros (k & Hk & Hki). rewrite (Hmod _ _ Hk) in Hki. congruence.
    + exists []. split_and!; [done|constructor|]. intros y. split; [set_solver|].
      intros (k & Hk & Hki). rewrite (Hmod _ _ Hk) in Hki. congruence.
  - intros k j Hk. keys Hk; (split; [done|]); by eexists.
  - reflexivity.
  - intros _. vm_compute. done.
Qed.

Lemma refs_holds : refs_inv none state.
Proof.
  split.
  - intros t T [-> ->]%tubes_inv. vm_compute. done.
  - intros t. destruct (decide (t = 1%positive)) as [->|Hne]; [intros _; by left|].
    unfold refs. rewrite !count_zero; [|..].
    + rewrite bool_decide_eq_false_2; [done|]. intros [= <-]. done.
    + intros c C [[-> ->]|[-> ->]]%conns_inv ->%list_elem_of_singleton; done.
    + intros c C [[-> ->]|[-> ->]]%conns_inv [= <-]; done.
    + intros j J HJ. keys HJ; intros [= <-]; done.
  - intros c C [[-> ->]|[-> ->]]%conns_inv; by eexists.
  - done.
Qed.

Lemma buffer1 : inbuf conn1.
Proof. split_and!; [done|by apply Nat.leb_le..|done]. Qed.
Lemma buffer2 : inbuf conn2.
Proof. split_and!; [done|by apply Nat.leb_le..|done]. Qed.

Lemma holds : srv_inv none ∅ ids P state.
Proof.
  split.
  - exact inv.
  - exact table_holds.
  - exact refs_holds.
  - split; [done|]. intros k j Hk. change (next_id (st_table state)) with 6. keys Hk; lia.
  - intros j J HJ. keys HJ; intros; (try done); by left.
  - intros c _ C [[-> ->]|[-> ->]]%conns_inv; [|done].
    intros _ j [_ ?]%reserved_place. done.
  - split; [done..|]. intros j J HJ. by keys HJ.
  - split.
    + by intros c C [[-> ->]|[-> ->]]%conns_inv.
    + intros c C _ [[-> ->]|[-> ->]]%conns_inv; (split; [done..|by first [exact buffer1|exact buffer2]|done]).
    + by intros c1 c2 C1 C2 j _ _ [[-> ->]|[-> ->]]%conns_inv.
    + by intros c1 c2 C1 C2 j _ _ [[-> ->]|[-> ->]]%conns_inv.
Qed.

Lemma has_room : room ids state.
Proof.
  split; [by vm_compute|by vm_compute|]. intros t.
  destruct (decide (t = 1%positive)) as [->|Hne]; [by vm_compute|].
  unfold refs. rewrite !count_zero; [|..].
  - rewrite bool_decide_eq_false_2; [done|]. intros [= <-]. done.
  - intros c C [[-> ->]|[-> ->]]%conns_inv ->%list_elem_of_singleton; done.
  - intros c C [[-> ->]|[-> ->]]%conns_inv [= <-]; done.
  - intros j J HJ. keys HJ; intros [= <-]; done.
Qed.

Lemma ready_for_commands : at_command 2%positive ids P state.
Proof. split; [exact holds|exact has_room|]. exists conn2. split; [done|]. split_and!; [done..|]. by split; [exact buffer2|]. Qed.
End Example.

(** ** The example state satisfies the hypotheses *)

Section witnesses.
Import QueueSpec.Demo Example.



Lemma make_job_adds_witness :
  ∃ r s', returns (make_job 7 0 1000000000 12 (Some 1%positive)) state r s' ∧
    match r with
    | None => st_jobs s' = st_jobs state ∧ srv_inv none ∅ ids P s'
    | Some j => ids !! 6 = None ∧ P !! j = None ∧ srv_inv none ∅ (<[6 := j]> ids) P s' ∧
        ∃ J, st_jobs s' !! j = Some J ∧ j_tube J = Some 1%positive ∧ r_id (j_r J) = 6 ∧
          r_state (j_r J) = Invalid ∧ r_pri (j_r J) = 7 ∧ r_delay (j_r J) = 0 ∧
          r_ttr (j_r J) = 1000000000 ∧ r_body_size (j_r J) = 12
    end.
Proof.
  apply (make_job_adds ∅ ids P state 7 0 1000000000 12 1%positive holds has_room).
  by left.
Defined.

Lemma enqueue_reserved_jobs_gives_back_witness :
  ∃ P' s', returns (enqueue_reserved_jobs 2%positive) state tt s' ∧ queue_inv {[2%positive]} ids P' s' ∧
    (∀ j Jb t, P !! j = Some (InReserved 2%positive) → st_jobs state !! j = Some Jb →
       j_tube Jb = Some t → lands state P' j t) ∧
    (∀ j, P !! j ≠ Some (InReserved 2%positive) → fair_move P P' state j) ∧
    ∀ j, P' !! j ≠ Some (InReserved 2%positive).
Proof.
  apply (enqueue_reserved_jobs_gives_back {[2%positive]} ids P state 2%positive).
  - apply queue_inv_calm; [exact inv|apply ready_for_commands].
  - by apply elem_of_singleton.
  - by exists conn2.
Defined.
End witnesses.
