(* ===== verification/Server.v ===== *)
(** The event loop: [conn_process_io], [h_conn], [conn_timeout], [prottick],
    [h_accept], [prot_init] and [prot_replay] of [prot.c], [srvserve] of
    [serv.c].

    [Net] holds the results of the socket calls and of [epoll_wait], as
    functions of the counter of system calls. *)
From S2P Require Import Prelude Heap Ms State Monad JobList JobHash Tube Job Wal Conn Queue Parse Stats Dispatch.
#[local] Open Scope Z_scope.

(** A socket is the listening socket or a connection. *)
Inductive socket := SockListen | SockConn (c : connp).

Class Net := {
  (** [accept]: the new descriptor; both [fcntl] calls succeed *)
  net_accept : nat → option Z;
  net_fcntl : nat → bool;
  (** [epoll_wait]: an event, or none before the timeout *)
  net_next : nat → option (socket * ascii);
  (** [/dev/urandom] can be read and [uname] succeeds *)
  net_init : nat → bool;
}.

Section operations.
Context {E : Env} {SI : SysInfo} {N : Net}.

Definition set_state (c : connp) (st : connstate) : M unit :=
  upd_conn c (fun C => C <| c_state := st |>).

Definition check_err (c : connp) (e : errno) : M unit :=
  match e with
  | EAGAIN | EINTR | EWOULDBLOCK => mret tt
  | EOTHER => set_state c STATE_CLOSE
  end.

(** ** Timeouts *)

(** A bound on the turns of the next loop and of [tick_conns_loop].  Each turn
    takes an entry out of the heap of timers, or a job from a connection; taking a
    job adds an entry for its former owner, and one for the connection that is
    handed a job instead. *)
Definition energy (s : St) : Z :=
  Z.of_nat (h_len (srv_conns s))
  + total (fun J => if decide (r_state (j_r J) = Reserved) then 4 else 1) (st_jobs s)
  + total (fun T => 4 * Z.of_nat (ms_len (t_waiting_conns T))) (st_tubes s)
  + total (fun C => Z.b2z (conn_waiting C)) (st_conns s).

(** [while ((j = connsoonestjob(c)))]: release the expired jobs. *)
Fixpoint conn_timeout_loop (fuel : nat) (c : connp) : M unit :=
  j ← connsoonestjob c;
  match j with
  | None => mret tt
  | Some j =>
      J ← deref st_jobs j;
      now ← nanoseconds;
      if now <=? r_deadline_at (j_r J) then mret tt
      else match fuel with
           | O => out_of_fuel
           | S fuel =>
               C ← deref st_conns c;
               (if decide (c_out_job C = Some j) then
                  n ← job_copy (Some j); set_out_job c n
                else mret tt);;
               modify (fun s => s <| timeout_ct ::= incr64 |>);;
               upd_rec j (fun r => r <| r_timeout_ct ::= incr32 |>);;
               x ← remove_this_reserved_job c (Some j);
               x ← nonnull x;
               r ← enqueue_job x 0 false;
               (if r : bool then mret true else bury_job j false);;
               connsched c;;
               conn_timeout_loop fuel c
           end
  end.

Definition conn_timeout (c : connp) : M unit :=
  C ← deref st_conns c;
  should_timeout ← (if conn_waiting C then conndeadlinesoon c else mret false);
  s ← gets id;
  conn_timeout_loop (Z.to_nat (energy s)) c;;
  if should_timeout : bool then
    remove_waiting_conn c;; reply_msg c MSG_DEADLINE_SOON
  else
    C ← deref st_conns c;
    if conn_waiting C && (0 <=? c_pending_timeout C) then
      upd_conn c (fun C => C <| c_pending_timeout := -1 |>);;
      remove_waiting_conn c;; reply_msg c MSG_TIMED_OUT
    else mret tt.

Definition enter_drain_mode : M unit := modify (fun s => s <| drain_mode := true |>).

(** ** Input and output *)

Definition conn_want_command (c : connp) : M unit :=
  epollq_add c "r";;
  C ← deref st_conns c;
  (match c_out_job C with
   | None => mret tt
   | Some j =>
       J ← deref st_jobs j;
       if decide (r_state (j_r J) = Copy) then job_free (Some j) else mret tt
   end);;
  upd_conn c (fun C =>
    C <| c_out_job := None |> <| c_reply_sent := 0%nat |>
      <| c_state := STATE_WANT_COMMAND |>).

(** [read] of at most [n] bytes. *)
Definition sys_read (c : connp) (n : nat) : M (ioresult bytes) :=
  C ← deref st_conns c;
  t ← tick;
  mret (match e_read t (c_fd C) n with IoErr e => IoErr e | IoOk d => IoOk (take n d) end).

(** [write] or [writev] of [data]: the number of bytes accepted. *)
Definition sys_write (c : connp) (data : bytes) : M (ioresult nat) :=
  C ← deref st_conns c;
  t ← tick;
  match e_write t (c_fd C) data with
  | IoErr e => mret (IoErr e)
  | IoOk r =>
      let r := Nat.min r (length data) in
      emit (EvWrite (c_fd C) (take r data));; mret (IoOk r)
  end.

(** Errors and end of file, then [k] on the result. *)
Definition on_read (c : connp) (r : ioresult bytes) (k : bytes → M unit) : M unit :=
  match r with
  | IoErr e => check_err c e
  | IoOk [] => set_state c STATE_CLOSE
  | IoOk d => k d
  end.
Definition on_write (c : connp) (r : ioresult nat) (k : nat → M unit) : M unit :=
  match r with
  | IoErr e => check_err c e
  | IoOk O => set_state c STATE_CLOSE
  | IoOk n => k n
  end.

(** Append to the command buffer and look for the end of the line. *)
Definition read_cmd (c : connp) (d : bytes) : M unit :=
  upd_conn c (fun C =>
    let n := (c_cmd_read C + length d)%nat in
    let buf := take (c_cmd_read C) (c_cmd C) ++ d ++ drop n (c_cmd C) in
    C <| c_cmd := buf |> <| c_cmd_read := n |> <| c_cmd_len := scan_line_end buf n |>).

Definition io_want_command (c : connp) : M unit :=
  C ← deref st_conns c;
  r ← sys_read c (LINE_BUF_SIZE - c_cmd_read C);
  on_read c r (fun d =>
    read_cmd c d;;
    C ← deref st_conns c;
    if negb (c_cmd_len C =? 0)%nat then mret tt
    else if (c_cmd_read C =? LINE_BUF_SIZE)%nat then
      upd_conn c (fun C => C <| c_cmd_read := 0%nat |> <| c_state := STATE_WANT_ENDLINE |>)
    else mret tt).

Definition io_want_endline (c : connp) : M unit :=
  C ← deref st_conns c;
  r ← sys_read c (LINE_BUF_SIZE - c_cmd_read C);
  on_read c r (fun d =>
    read_cmd c d;;
    C ← deref st_conns c;
    if negb (c_cmd_len C =? 0)%nat then
      reply_msg c MSG_BAD_FORMAT;; fill_extra_data c
    else if (c_cmd_read C =? LINE_BUF_SIZE)%nat then
      upd_conn c (fun C => C <| c_cmd_read := 0%nat |>)
    else mret tt).

Definition BUCKET_BUF_SIZE : Z := 1024.

Definition io_bitbucket (c : connp) : M unit :=
  C ← deref st_conns c;
  r ← sys_read c (Z.to_nat (Z.min (c_in_job_read C) BUCKET_BUF_SIZE));
  on_read c r (fun d =>
    upd_conn c (fun C => C <| c_in_job_read ::= fun n => n - Z.of_nat (length d) |>);;
    C ← deref st_conns c;
    if c_in_job_read C =? 0
    then reply (Some c) (c_reply C) (c_reply_len C) STATE_SEND_WORD
    else mret tt).

Definition io_want_data (c : connp) : M unit :=
  C ← deref st_conns c;
  j ← nonnull (c_in_job C);
  J ← deref st_jobs j;
  r ← sys_read c (Z.to_nat (r_body_size (j_r J) - c_in_job_read C));
  on_read c r (fun d =>
    (if j_cap J <? c_in_job_read C + Z.of_nat (length d) then ub else mret tt);;
    update st_jobs j (fun J =>
      J <| j_body ::= fun b => take (Z.to_nat (c_in_job_read C)) b ++ d |>);;
    upd_conn c (fun C => C <| c_in_job_read ::= fun n => n + Z.of_nat (length d) |>);;
    maybe_enqueue_incoming_job c).

Definition io_send_word (c : connp) : M unit :=
  C ← deref st_conns c;
  r ← sys_write c (drop (c_reply_sent C) (take (c_reply_len C) (c_reply C)));
  on_write c r (fun n =>
    upd_conn c (fun C => C <| c_reply_sent ::= fun m => (m + n)%nat |>);;
    C ← deref st_conns c;
    if (c_reply_sent C =? c_reply_len C)%nat then conn_want_command c else mret tt).

Definition io_send_job (c : connp) : M unit :=
  C ← deref st_conns c;
  j ← nonnull (c_out_job C);
  J ← deref st_jobs j;
  r ← sys_write c
    (drop (c_reply_sent C) (take (c_reply_len C) (c_reply C))
     ++ drop (c_out_job_sent C) (take (Z.to_nat (r_body_size (j_r J))) (j_body J)));
  on_write c r (fun n =>
    upd_conn c (fun C =>
      let sent := (c_reply_sent C + n)%nat in
      if (c_reply_len C <=? sent)%nat then
        C <| c_out_job_sent ::= fun m => (m + (sent - c_reply_len C))%nat |>
          <| c_reply_sent := c_reply_len C |>
      else C <| c_reply_sent := sent |>);;
    C ← deref st_conns c;
    if Z.of_nat (c_out_job_sent C) =? r_body_size (j_r J)
    then conn_want_command c else mret tt).

Definition io_wait (c : connp) : M unit :=
  C ← deref st_conns c;
  if c_halfclosed C then
    upd_conn c (fun C => C <| c_pending_timeout := -1 |>);;
    remove_waiting_conn c;;
    reply_msg c MSG_TIMED_OUT
  else mret tt.

Definition conn_process_io (c : connp) : M unit :=
  C ← deref st_conns c;
  match c_state C with
  | STATE_WANT_COMMAND => io_want_command c
  | STATE_WANT_ENDLINE => io_want_endline c
  | STATE_BITBUCKET => io_bitbucket c
  | STATE_WANT_DATA => io_want_data c
  | STATE_SEND_WORD => io_send_word c
  | STATE_SEND_JOB => io_send_job c
  | STATE_WAIT => io_wait c
  | STATE_CLOSE => mret tt
  end.

Definition want_command (C : Conn) : bool :=
  negb (c_fd C =? 0) && bool_decide (c_state C = STATE_WANT_COMMAND).
Definition cmd_data_ready (C : Conn) : bool :=
  want_command C && negb (c_cmd_read C =? 0)%nat.

(** Run the complete commands of the buffer; each one takes at least two of
    its bytes. *)
Fixpoint h_conn_loop (fuel : nat) (c : connp) : M unit :=
  C ← deref st_conns c;
  if negb (cmd_data_ready C) then mret tt
  else
    let len := scan_line_end (c_cmd C) (c_cmd_read C) in
    upd_conn c (fun C => C <| c_cmd_len := len |>);;
    if (len =? 0)%nat then mret tt
    else match fuel with
         | O => out_of_fuel
         | S fuel =>
             dispatch_cmd c;;
             fill_extra_data c;;
             h_conn_loop fuel c
         end.

Definition h_conn (fd : Z) (which : ascii) (c : connp) : M unit :=
  C ← deref st_conns c;
  if negb (fd =? c_fd C) then
    emit (EvClose fd);; connclose c;; epollq_apply
  else
    (if decide (which = "h"%char)
     then upd_conn c (fun C => C <| c_halfclosed := true |>) else mret tt);;
    conn_process_io c;;
    h_conn_loop LINE_BUF_SIZE c;;
    C ← deref st_conns c;
    (if decide (c_state C = STATE_CLOSE) then epollq_rmconn c;; connclose c
     else mret tt);;
    epollq_apply.

Definition prothandle (c : connp) (ev : ascii) : M unit :=
  C ← deref st_conns c; h_conn (c_fd C) ev c.

(** ** The tick *)

Fixpoint tick_delayed_loop (fuel : nat) (now period : Z) : M Z :=
  j ← soonest_delayed_job;
  match j with
  | None => mret period
  | Some j =>
      J ← deref st_jobs j;
      let d := r_deadline_at (j_r J) - now in
      if 0 <? d then mret (Z.min period d)
      else match fuel with
           | O => out_of_fuel
           | S fuel =>
               t ← nonnull (j_tube J);
               tube_heapremove t_delay job_delay_ops t (j_heap_index J);;
               r ← enqueue_job j 0 false;
               (if r : bool then mret true else bury_job j false);;
               tick_delayed_loop fuel now period
           end
  end.

(** [for (i = 0; i < tubes.len; i++)] *)
Fixpoint tick_pause_loop (fuel i : nat) (now period : Z) : M Z :=
  s ← gets id;
  match ms_items (tubes s) !! i with
  | None => mret period
  | Some t =>
      match fuel with
      | O => out_of_fuel
      | S fuel =>
          T ← deref st_tubes t;
          let d := t_unpause_at T - now in
          if negb (t_pause T =? 0) && (d <=? 0) then
            update st_tubes t (fun T => T <| t_pause := 0 |>);;
            process_queue;;
            tick_pause_loop fuel (S i) now period
          else if 0 <? d then tick_pause_loop fuel (S i) now (Z.min period d)
          else tick_pause_loop fuel (S i) now period
      end
  end.

Fixpoint tick_conns_loop (fuel : nat) (now period : Z) : M Z :=
  s ← gets id;
  if (h_len (srv_conns s) =? 0)%nat then mret period
  else
    c ← from_option (h_data (srv_conns s) !! 0%nat);
    C ← deref st_conns c;
    let d := c_tickat C - now in
    if 0 <? d then mret (Z.min period d)
    else match fuel with
         | O => out_of_fuel
         | S fuel =>
             conns_heapremove 0%nat;;
             upd_conn c (fun C => C <| c_in_conns := false |>);;
             conn_timeout c;;
             tick_conns_loop fuel now period
         end.

(** One hour. *)
Definition PERIOD : Z := 0x34630B8A000.

Definition prottick : M Z :=
  now ← nanoseconds;
  s ← gets id;
  period ← tick_delayed_loop (size (st_jobs s)) now PERIOD;
  s ← gets id;
  period ← tick_pause_loop (S (ms_len (tubes s))) 0%nat now period;
  s ← gets id;
  period ← tick_conns_loop (Z.to_nat (energy s)) now period;
  epollq_apply;;
  mret period.

(** ** Connections *)

Definition h_accept : M unit :=
  n ← tick;
  match net_accept n with
  | None => epollq_apply
  | Some cfd =>
      n1 ← tick;
      n2 ← tick;
      if negb (net_fcntl n1 && net_fcntl n2) then emit (EvClose cfd);; epollq_apply
      else
        s ← gets id;
        t ← nonnull (default_tube s);
        c ← make_conn STATE_WANT_COMMAND t t;
        match c with
        | None => emit (EvClose cfd);; epollq_apply
        | Some c =>
            upd_conn c (fun C => C <| c_fd := cfd |>);;
            r ← sockwant c (Some "r"%char);
            (if negb r then emit (EvClose cfd) else mret tt);;
            epollq_apply
        end
  end.

(** ** Startup *)

Definition TOTAL_OPS : nat := 26.

Definition prot_init : M unit :=
  now ← nanoseconds;
  modify (fun s => s <| started_at := now |>);;
  modify (fun s => s <| op_ct := repeat 0 TOTAL_OPS |>);;
  n ← tick;
  if negb (net_init n) then exit 50
  else
    modify (fun s => s <| tubes := ms_init |>);;
    t ← tube_find_or_make (bs "default");
    s ← gets id;
    TUBE_ASSIGN (default_tube s) (modify (fun s => s <| default_tube := t |>)) t.

Fixpoint prot_replay_loop (fuel : nat) (n : node) : M bool :=
  match n with
  | NJob j =>
      match fuel with
      | O => out_of_fuel
      | S fuel =>
          nj ← get_next n;
          job_list_remove (Some n);;
          z ← walresvupdate;
          if z =? 0 then mret false
          else
            J ← deref st_jobs j;
            (match r_state (j_r J) with
             | Buried => bury_job j false;; mret tt
             | Delayed =>
                 t ← nanoseconds;
                 let deadline := r_deadline_at (j_r J) in
                 enqueue_job j (if t <? deadline then deadline - t else 0) false;; mret tt
             | _ => enqueue_job j 0 false;; mret tt
             end);;
            prot_replay_loop fuel nj
      end
  | _ => mret true
  end.

Definition prot_replay : M bool :=
  n ← get_next NReplay;
  s ← gets id;
  prot_replay_loop (size (st_jobs s)) n.

(** [sock->f(sock->x, rw)] *)
Definition sock_f (e : socket * ascii) : M unit :=
  match e with
  | (SockListen, _) => h_accept
  | (SockConn c, rw) => prothandle c rw
  end.
(** One iteration of the loop of [srvserve]. *)
Definition srvserve_step : M unit :=
  prottick;;
  n ← tick;
  match net_next n with
  | None => mret tt
  | Some e => sock_f e
  end.
End operations.
