(* ===== verification/Handlers.v ===== *)
(** The handlers of input and output on the invariant of the server: whatever
    the sockets return, each one is defined, terminates and keeps the invariant. *)
From S2P Require Import Prelude Heap Ms State Monad JobList JobHash Tube Job Wal Conn Queue QueueRep QueueOps QueueConn QueueProc Process Runs Owners QueueCmds QueueLoops Refs Life Sound Parse ParseSpec Stats Dispatch Commands Putting Server.
#[local] Open Scope Z_scope.

Lemma memchr_lt b x n i : memchr b x n = Some i → (i < n)%nat.
Proof.
  revert n i. induction b as [|y b IH]; intros [|n] i; simpl; [done..|].
  case_match; [intros [= <-]; lia|]. destruct (memchr b x n) as [k|] eqn:Hk; simpl; [|done].
  intros [= <-]. apply IH in Hk. lia.
Qed.
(** The line that was found is within what was read. *)
Lemma scan_line_end_le b n : (scan_line_end b n <= n)%nat.
Proof.
  unfold scan_line_end. destruct (memchr b _ _) as [i|] eqn:Hi; [|lia].
  apply memchr_lt in Hi. case_match; lia.
Qed.

Section handlers.
Context {E : Env} {SI : SysInfo} {N : Net}.
Implicit Types (P : places) (ids : gmap Z jobp) (X : gset connp) (s : St) (x : local).
Implicit Types (j : jobp) (t : tubep) (c : connp) (C : Conn).

Lemma conns_twice s c C C' :
  s <| st_conns ::= <[c := C]> |> <| st_conns ::= <[c := C']> |> = s <| st_conns ::= <[c := C']> |>.
Proof. unfold rupd, set_st_conns. simpl. by rewrite insert_insert_eq. Qed.

(** ** What the state of a connection says of its jobs *)

Lemma own_no_in P J c C :
  own_conn P J c C → c_state C ≠ STATE_WANT_DATA → c_state C ≠ STATE_CLOSE → c_in_job C = None.
Proof.
  intros HO H1 H2. destruct (c_in_job C) as [j|] eqn:Hj; [|done].
  destruct (oc_in _ _ _ _ HO j Hj) as ([?|?] & _); done.
Qed.
Lemma own_no_out P J c C :
  own_conn P J c C → ¬ replying (c_state C) → c_state C ≠ STATE_CLOSE → c_out_job C = None.
Proof.
  intros HO H1 H2. destruct (c_out_job C) as [j|] eqn:Hj; [|done].
  destruct (oc_out _ _ _ _ HO j Hj) as ([?|?] & _); done.
Qed.
Lemma own_emptied P J c C :
  own_conn P J c C → c_in_job C = None → c_state C ≠ STATE_BITBUCKET → c_state C ≠ STATE_CLOSE → emptied C.
Proof. intros HO H0 H1 H2. split; [apply HO|]. by eapply oc_empty. Qed.

(** The state of a connection that reads commands, or waits. *)
Definition restful (st : connstate) : Prop :=
  st = STATE_WANT_COMMAND ∨ st = STATE_WANT_ENDLINE ∨ st = STATE_WAIT.
Lemma own_rest P J c C :
  own_conn P J c C → conn_waiting C = false → restful (c_state C) → at_rest C.
Proof.
  intros HO Hw Hst.
  assert (c_in_job C = None) as Hi by (eapply own_no_in; [done|destruct Hst as [Hs|[Hs|Hs]]; congruence..]).
  split_and!; [done|done|..].
  - eapply own_no_out; [done|intros [?|?]|]; destruct Hst as [Hs|[Hs|Hs]]; congruence.
  - eapply own_emptied; [done|done|destruct Hst as [Hs|[Hs|Hs]]; congruence..].
Qed.

Section one.
Context (ids : gmap Z jobp) (P : places) (s : St) (c : connp) (C : Conn).
Context (HI : srv_inv none ∅ ids P s) (HC : st_conns s !! c = Some C).

Lemma conn_own : own_conn P (st_jobs s) c C.
Proof. by eapply ow_conn, HC; [apply HI|set_solver]. Qed.
Lemma conn_wait_state : conn_waiting C = true → c_state C = STATE_WAIT.
Proof. by eapply ow_wait, HC; apply HI. Qed.
Lemma conn_waits : c_state C ≠ STATE_WAIT → conn_waiting C = false.
Proof. intros Hs. destruct (conn_waiting C) eqn:Hw; [|done]. by destruct Hs; apply conn_wait_state. Qed.

(** No other connection has the job that [c] receives or sends. *)
Lemma in_unowned j : c_in_job C = Some j → unowned ({[c]} ∪ ∅) (st_conns s) j.
Proof.
  intros Hj c' C' Hc' HC'. destruct (oc_in _ _ _ _ conn_own j Hj) as (_ & _ & HP & J & HJ & Hst & _).
  pose proof (sv_owns _ _ _ _ _ HI) as [_ HO HU _]. split.
  - intros Hj'. assert (c' = c); [|set_solver]. by eapply HU; [set_solver..| | | |].
  - intros Hj'. destruct (oc_out _ _ _ _ (HO c' C' ltac:(set_solver) HC') j Hj') as (_ & [?|(_ & J' & HJ' & ?)]); congruence.
Qed.
Lemma out_unowned j : c_out_job C = Some j → unowned ({[c]} ∪ ∅) (st_conns s) j.
Proof.
  intros Hj c' C' Hc' HC'. destruct (oc_out _ _ _ _ conn_own j Hj) as (_ & HL).
  pose proof (sv_owns _ _ _ _ _ HI) as [_ HO _ HU]. split.
  - intros Hj'. destruct (oc_in _ _ _ _ (HO c' C' ltac:(set_solver) HC') j Hj') as (_ & _ & HP & J & HJ & Hst & _).
    destruct HL as [?|(_ & J' & HJ' & ?)]; congruence.
  - intros Hj'. assert (c' = c); [|set_solver]. by eapply HU; [set_solver..| | | |].
Qed.
(** The job that [c] sends exists, and is its own copy or reserved by it. *)
Lemma out_live j : c_out_job C = Some j → ∃ J, st_jobs s !! j = Some J ∧
  (r_state (j_r J) = Copy → P !! j = None).
Proof.
  intros Hj. destruct (oc_out _ _ _ _ conn_own j Hj) as (_ & [HP|(HP & J & ? & _)]); [|eauto].
  destruct (qr_place _ _ _ _ (qi_rep _ _ _ _ (sv_queue _ _ _ _ _ HI)) j _ HP) as (J & _ & _ & HJ & [Hst _] & _).
  exists J. split; [done|congruence].
Qed.

(** Updates of [c] that keep its jobs. *)
Lemma srv_inv_turn C' :
  q_conn C' = q_conn C → w_conn C' = w_conn C → x_conn C' = x_conn C →
  c_in_job C' = c_in_job C → c_out_job C' = c_out_job C →
  (conn_waiting C' = true → c_state C' = STATE_WAIT) → own_conn P (st_jobs s) c C' →
  srv_inv none ∅ ids P (s <| st_conns ::= <[c := C']> |>).
Proof.
  intros Hq Hw Hx Hi Ho Hwt HO. eapply srv_inv_set; [done..|]. eapply owns_insert; [done..|apply HI].
Qed.
Lemma rest_turn C' :
  at_rest C → at_rest C' → q_conn C' = q_conn C → w_conn C' = w_conn C → x_conn C' = x_conn C →
  c_state C' ≠ STATE_WANT_DATA → c_state C' ≠ STATE_SEND_JOB →
  srv_inv none ∅ ids P (s <| st_conns ::= <[c := C']> |>).
Proof.
  intros (Hw & Hi & Ho & He) (Hw' & Hi' & Ho' & He') Hq Hx Hwc H1 H2.
  apply srv_inv_turn; [done..|congruence|congruence|congruence|]. by eapply rest_own.
Qed.

(** The connection is to be closed. *)
Lemma close_safe : c_state C ≠ STATE_WAIT → safe (set_state c STATE_CLOSE) s.
Proof.
  intros Hs%conn_waits. unfold safe, set_state, upd_conn. wsteps. exists ids, P.
  apply srv_inv_turn; [done..| |].
  - change (conn_waiting C = true → STATE_CLOSE = STATE_WAIT). congruence.
  - destruct conn_own as [KI KO KD KS KB KE]. split; rsimpl; try done.
    + intros j Hj. destruct (KI j Hj) as (_ & ? & ?). auto.
    + intros j Hj. destruct (KO j Hj) as (_ & ?). auto.
Qed.

Lemma check_err_safe e : c_state C ≠ STATE_WAIT → safe (check_err c e) s.
Proof. intros Hs. destruct e; [..|by apply close_safe]; by exists ids, P. Qed.
Lemma on_read_safe r k :
  c_state C ≠ STATE_WAIT → (∀ b, r = IoOk b → safe (k b) s) → safe (on_read c r k) s.
Proof.
  intros Hs Hk. destruct r as [e|[|y b]]; [by apply check_err_safe|by apply close_safe|by apply Hk].
Qed.
Lemma on_write_safe r k :
  c_state C ≠ STATE_WAIT → (∀ n, r = IoOk n → safe (k n) s) → safe (on_write c r k) s.
Proof.
  intros Hs Hk. destruct r as [e|[|n]]; [by apply check_err_safe|by apply close_safe|by apply Hk].
Qed.
End one.

(** The system calls. *)
Lemma wp_sys_read c n s C (Q : ioresult bytes → St → Prop) :
  st_conns s !! c = Some C →
  (∀ r, (∀ b, r = IoOk b → (length b <= n)%nat) → Q r (s <| st_tick ::= S |>)) → wp (sys_read c n) Q s.
Proof.
  intros HC HQ. unfold sys_read. wsteps. apply wp_tick. wsteps. apply HQ.
  intros b. case_match; [done|]. intros [= <-]. rewrite length_take. lia.
Qed.
Lemma tick_sim s : srv_sim s (s <| st_tick ::= S |>).
Proof. solve_sim. Qed.
Lemma wp_sys_write c b s C (Q : ioresult nat → St → Prop) :
  st_conns s !! c = Some C →
  (∀ r s', srv_sim s s' → st_conns s' = st_conns s → st_jobs s' = st_jobs s → Q r s') → wp (sys_write c b) Q s.
Proof.
  intros HC HQ. unfold sys_write. wsteps. apply wp_tick.
  case_match; wsteps; apply HQ; try done; solve_sim.
Qed.

(** ** Commands and what follows them in the buffer *)

(** [fill_extra_data] of a connection in any state. *)
Lemma wp_fill_extra c s : sound s → is_Some (st_conns s !! c) →
  wp (fill_extra_data c) (λ _ s', sound s' ∧ ∃ C, st_conns s' !! c = Some C ∧ c_cmd_len C = 0%nat) s.
Proof.
  intros (ids & P & HI) [C HC]. pose proof (conn_own _ _ _ _ _ HI HC) as HO.
  pose proof HO as [KI KO KD KS [Hf [[Hl1 Hl2] Hr]] KE]. unfold fill_extra_data, upd_conn. wsteps.
  rewrite (proj2 (Z.eqb_neq _ _)) by done.
  destruct (Nat.eqb_spec (c_cmd_len C) 0) as [Hl0|Hl0].
  { wsteps. split; [by exists ids, P|]. by exists C. } cbv zeta.
  destruct (c_in_job C) as [j|] eqn:Hj; [by destruct (KI j eq_refl) as (_ & ? & _)|].
  assert (∀ C', q_conn C' = q_conn C → w_conn C' = w_conn C → x_conn C' = x_conn C →
    conn_waiting C' = conn_waiting C → c_in_job C' = c_in_job C → c_out_job C' = c_out_job C →
    c_state C' = c_state C → c_fd C' = c_fd C → c_cmd_len C' = 0%nat → (c_cmd_read C' <= c_cmd_read C)%nat →
    0 <= c_in_job_read C' → (c_in_job_read C = 0 → c_in_job_read C' = 0) →
    srv_inv none ∅ ids P (s <| st_conns ::= <[c := C']> |>)) as Hend.
  { intros C' Hq Hw Hx Hcw Hci Hco Hcs Hcf Hcl Hcr Hr0 Hr1. eapply srv_inv_turn; [done..| |].
    - rewrite Hcw, Hcs. exact (conn_wait_state _ _ _ _ _ HI HC).
    - split; rewrite ?Hci, ?Hco, ?Hcs, ?Hj; [done|exact KO|done|exact KS| |auto].
      unfold inbuf. rewrite Hcf, Hcl. split_and!; [done|lia..]. }
  destruct (Z.eqb_spec (c_in_job_read C) 0) as [Hz|Hz]; cbn [negb]; wsteps; rewrite ?conns_twice;
    (split; [exists ids, P; apply Hend; try done; rsimpl; lia|]);
    (eexists; rsimpl; rewrite lookup_insert_eq; by split).
Qed.
Lemma fill_extra_safe c s : sound s → is_Some (st_conns s !! c) → safe (fill_extra_data c) s.
Proof. intros HS HC. eapply wp_mono; [by apply wp_fill_extra|]. by intros [] s' [? _]. Qed.

(** Bytes are added to the command buffer of a connection at rest. *)
Lemma wp_read_cmd c ids P s C b (Q : unit → St → Prop) :
  srv_inv none ∅ ids P s → st_conns s !! c = Some C → at_rest C → restful (c_state C) →
  (length b <= LINE_BUF_SIZE - c_cmd_read C)%nat →
  (∀ C' s', srv_inv none ∅ ids P s' → st_conns s' !! c = Some C' → at_rest C' → c_state C' = c_state C → Q tt s') →
  wp (read_cmd c b) Q s.
Proof.
  intros HI HC Hr Hst Hb HQ. pose proof Hr as (Hw & Hi & Ho & (Hf & [Hl1 Hl2] & Hn) & Hz).
  unfold read_cmd, upd_conn. wsteps. set (n := (c_cmd_read C + length b)%nat).
  set (C' := _ <| c_cmd_len := _ |>).
  assert (at_rest C') as Hr'.
  { split_and!; [done..|]. split; [|done]. split_and!; [done|apply scan_line_end_le| |done].
    unfold C', n. rsimpl. lia. }
  eapply (HQ C'); [|rsimpl; apply lookup_insert_eq|done|done].
  eapply rest_turn; [done..| |]; change (c_state C') with (c_state C); destruct Hst as [Hs|[Hs|Hs]]; congruence.
Qed.

(** A [read] by [c]: the invariant holds after it. *)
Lemma read_safe c ids P s C n (k : bytes → M unit) :
  srv_inv none ∅ ids P s → st_conns s !! c = Some C → c_state C ≠ STATE_WAIT →
  (∀ b s', srv_inv none ∅ ids P s' → st_conns s' = st_conns s → st_jobs s' = st_jobs s →
     (length b <= n)%nat → safe (k b) s') →
  wp (sys_read c n) (λ r, safe (on_read c r k)) s.
Proof.
  intros HI HC Hst Hk. eapply wp_sys_read; [done|]. intros r Hr.
  assert (srv_inv none ∅ ids P (s <| st_tick ::= S |>)) as HI1 by (eapply srv_inv_sim; [apply tick_sim|done]).
  eapply (on_read_safe _ _ _ _ _ HI1); [done|done|]. intros b Hb%Hr. by apply Hk.
Qed.
Lemma write_safe c ids P s C b (k : nat → M unit) :
  srv_inv none ∅ ids P s → st_conns s !! c = Some C → c_state C ≠ STATE_WAIT →
  (∀ n s', srv_inv none ∅ ids P s' → st_conns s' = st_conns s → st_jobs s' = st_jobs s → safe (k n) s') →
  wp (sys_write c b) (λ r, safe (on_write c r k)) s.
Proof.
  intros HI HC Hst Hk. eapply wp_sys_write; [done|]. intros r s' Hs HC' HJ'.
  assert (srv_inv none ∅ ids P s') as HI1 by (by eapply srv_inv_sim).
  eapply (on_write_safe _ _ _ _ _ HI1); [by rewrite HC'|done|]. intros n _. by apply Hk.
Qed.

Lemma io_want_command_safe c ids P s C :
  srv_inv none ∅ ids P s → st_conns s !! c = Some C → c_state C = STATE_WANT_COMMAND →
  safe (io_want_command c) s.
Proof.
  intros HI HC Hst. pose proof (conn_own _ _ _ _ _ HI HC) as HO.
  assert (at_rest C) as Hr.
  { eapply own_rest; [done| |by left]. eapply conn_waits; [done..|congruence]. }
  unfold io_want_command. unfold safe. wsteps. eapply read_safe; [done|done|congruence|].
  intros b s1 HI1 HC1 _ Hb. unfold safe. apply wp_bind.
  eapply wp_read_cmd; [done|by rewrite HC1|done|by left|done|]. intros C' s' HI' HC' Hr' Hst'.
  wsteps. apply wp_if; intros Hl; [wsteps; by exists ids, P|]. apply wp_if; intros _; [|wsteps; by exists ids, P].
  unfold upd_conn. wsteps. exists ids, P. eapply rest_turn; [done..| |done|done|done|done|done].
  apply negb_false_iff, Nat.eqb_eq in Hl. destruct Hr' as (? & ? & ? & [[? [??]] ?]).
  split_and!; [done..|]. split; [|done]. split_and!; [done| |rsimpl; lia|by destruct_and!]. rsimpl. by rewrite Hl.
Qed.

Lemma io_want_endline_safe c ids P s C :
  srv_inv none ∅ ids P s → st_conns s !! c = Some C → c_state C = STATE_WANT_ENDLINE →
  safe (io_want_endline c) s.
Proof.
  intros HI HC Hst. pose proof (conn_own _ _ _ _ _ HI HC) as HO.
  assert (at_rest C) as Hr.
  { eapply own_rest; [done| |by right; left]. eapply conn_waits; [done..|congruence]. }
  unfold io_want_endline. unfold safe. wsteps. eapply read_safe; [done|done|congruence|].
  intros b s1 HI1 HC1 _ Hb. unfold safe. apply wp_bind.
  eapply wp_read_cmd; [done|by rewrite HC1|done|by right; left|done|]. intros C' s' HI' HC' Hr' Hst'.
  wsteps. apply wp_if; intros Hl.
  - apply wp_bind. eapply wp_reply_msg; [done|by left|by exists C'|apply handled_refl|].
    intros s2 HI2 Hc2%calm_live _. by apply fill_extra_safe; [exists ids, P|].
  - apply wp_if; intros _; [|wsteps; by exists ids, P].
    unfold upd_conn. wsteps. exists ids, P. eapply rest_turn; [done..| |done|done|done| |].
    + apply negb_false_iff, Nat.eqb_eq in Hl. destruct Hr' as (? & ? & ? & [[? [??]] ?]).
      split_and!; [done..|]. split; [|done]. split_and!; [done| |rsimpl; lia|by destruct_and!]. rsimpl. by rewrite Hl.
    + change (c_state C' ≠ STATE_WANT_DATA). congruence.
    + change (c_state C' ≠ STATE_SEND_JOB). congruence.
Qed.

(** ** The body of a job *)

Lemma io_bitbucket_safe c ids P s C :
  srv_inv none ∅ ids P s → st_conns s !! c = Some C → c_state C = STATE_BITBUCKET → safe (io_bitbucket c) s.
Proof.
  intros HI HC Hst. pose proof (conn_own _ _ _ _ _ HI HC) as HO.
  assert (conn_waiting C = false) as Hw by (eapply conn_waits; [done..|congruence]).
  assert (c_in_job C = None) as Hi by (eapply own_no_in; [done|congruence..]).
  assert (c_out_job C = None) as Ho by (eapply own_no_out; [done|intros [?|?]; congruence|congruence]).
  unfold io_bitbucket, safe, upd_conn. wsteps. eapply read_safe; [done|done|congruence|].
  intros b s1 HI1 HC1 _ Hb. rewrite <- HC1 in HC. unfold safe. wsteps.
  pose proof (oc_inbuf _ _ _ _ HO) as (Hf & Hl & Hn).
  set (n := c_in_job_read C - Z.of_nat (length b)). assert (0 <= n) as Hn' by lia.
  set (C' := C <| c_in_job_read ::= _ |>).
  assert (srv_inv none ∅ ids P (s1 <| st_conns ::= <[c := C']> |>)) as HI'.
  { eapply srv_inv_turn; [done..| |].
    - change (conn_waiting C = true → c_state C = STATE_WAIT). congruence.
    - split; change (c_in_job C') with (c_in_job C); change (c_out_job C') with (c_out_job C);
        change (c_state C') with (c_state C); [congruence..|done|congruence]. }
  apply wp_if; intros Hz; [|wsteps; by exists ids, P].
  eapply wp_reply_srv; [exact HI'|by left| |apply handled_refl|intros s2 HI2 _ _; by exists ids, P].
  apply Z.eqb_eq in Hz. exists C'. rsimpl. rewrite lookup_insert_eq. by split_and!.
Qed.

Lemma io_want_data_safe c ids P s C :
  srv_inv none ∅ ids P s → st_conns s !! c = Some C → c_state C = STATE_WANT_DATA → safe (io_want_data c) s.
Proof.
  intros HI HC Hst. pose proof (conn_own _ _ _ _ _ HI HC) as HO.
  assert (conn_waiting C = false) as Hw by (eapply conn_waits; [done..|congruence]).
  assert (c_out_job C = None) as Ho by (eapply own_no_out; [done|intros [?|?]; congruence|congruence]).
  destruct (oc_data _ _ _ _ HO Hst) as [j Hj].
  destruct (oc_in _ _ _ _ HO j Hj) as (_ & Hcl & HP & J & HJ & Hstj & Ht & Hn & Hcap).
  pose proof (in_unowned _ _ _ _ _ HI HC j Hj) as Hun.
  unfold io_want_data, safe, upd_conn. wsteps. eapply read_safe; [done|done|congruence|].
  intros b s1 HI1 HC1 HJ1 Hb. rewrite <- HC1 in HC, Hun. rewrite <- HJ1 in HJ. unfold safe. wsteps.
  pose proof (oc_inbuf _ _ _ _ HO) as (Hf & Hl & Hr).
  set (n := c_in_job_read C + Z.of_nat (length b)). assert (0 <= n <= r_body_size (j_r J)) as Hn' by (unfold n; lia).
  rewrite (proj2 (Z.ltb_ge _ _)) by lia. wsteps.
  eapply (maybe_enqueue_incoming_job_safe c ids P j). apply (srv_inv_enter _ _ _ _ _ c) in HI1. split.
  - eapply srv_inv_acting; [|rsimpl; exact HC|done..]. eapply srv_inv_sim; [by apply body_sim|done].
  - eexists. rsimpl. rewrite lookup_insert_eq. split; [done|].
    split_and!; try done.
    + split; [done|]. split; [done|]. exact (proj1 Hn').
    + split; [done|]. eexists. rewrite lookup_insert_eq. split; [done|]. destruct Hn'. by split_and!.
  - intros c' C' Hc'. rsimpl. rewrite lookup_insert_ne by set_solver. by apply Hun.
Qed.

(** ** The end of a reply *)

Lemma conn_want_command_safe c ids P s C :
  srv_inv none ∅ ids P s → st_conns s !! c = Some C → replying (c_state C) → safe (conn_want_command c) s.
Proof.
  intros HI HC Hst. unfold conn_want_command, safe, upd_conn. apply wp_bind.
  eapply wp_epollq_add_srv; [done|by left|eauto|]. intros s1 HI1 _ Ho.
  destruct (same_but_lookup _ _ _ _ _ Ho HC) as (C1 & HC1 & (_ & Hs1 & _)%o_conn_inv).
  rewrite <- Hs1 in Hst. clear dependent s C. pose proof (conn_own _ _ _ _ _ HI1 HC1) as HO.
  assert (conn_waiting C1 = false) as Hw by (eapply conn_waits; [done..|destruct Hst; congruence]).
  assert (c_in_job C1 = None) as Hi by (eapply own_no_in; [done|destruct Hst; congruence..]).
  assert (emptied C1) as He by (eapply own_emptied; [done|done|destruct Hst; congruence..]).
  assert (∀ s2, srv_inv (acting c none) ∅ ids P s2 → st_conns s2 = st_conns s1 →
    wp (update st_conns c (fun C =>
      C <| c_out_job := None |> <| c_reply_sent := 0%nat |> <| c_state := STATE_WANT_COMMAND |>))
      (λ _ s', sound s') s2) as Hend.
  { intros s2 HI2 HC2. rewrite <- HC2 in HC1. wsteps. exists ids, P. eapply srv_inv_settle; [done..| | | |].
    - change (conn_waiting C1 = true → STATE_WANT_COMMAND = STATE_WAIT). congruence.
    - eapply rest_own; [|done..]. by split_and!.
    - intros y Hy. change (c_in_job C1 = Some y) in Hy. congruence.
    - done. }
  wsteps. pose proof (srv_inv_enter _ _ _ _ _ c HI1) as HIa. destruct (c_out_job C1) as [j|] eqn:Hj.
  - destruct (out_live _ _ _ _ _ HI1 HC1 j Hj) as (J & HJ & Hcp). wsteps.
    case_decide; [|wstep; by apply Hend].
    eapply wp_job_free_copy; [exact HIa|by apply Hcp|done|done|by eapply out_unowned|].
    intros s2 HI2 _ Hs2 _. apply Hend; [done|apply Hs2].
  - wstep. by apply Hend.
Qed.

Lemma io_send_word_safe c ids P s C :
  srv_inv none ∅ ids P s → st_conns s !! c = Some C → c_state C = STATE_SEND_WORD → safe (io_send_word c) s.
Proof.
  intros HI HC Hst. unfold io_send_word, safe, upd_conn. wsteps. eapply write_safe; [done|done|congruence|].
  intros n s1 HI1 HC1 _. rewrite <- HC1 in HC. unfold safe. wsteps.
  match goal with |- wp _ _ ?s' => set (s2 := s') end.
  assert (srv_inv none ∅ ids P s2) as HI2 by (eapply srv_inv_sim; [by eapply conn_sim|done]).
  apply wp_if; intros _; [|wsteps; by exists ids, P].
  eapply conn_want_command_safe; [done|unfold s2; rsimpl; apply lookup_insert_eq|by left].
Qed.

Lemma io_send_job_safe c ids P s C :
  srv_inv none ∅ ids P s → st_conns s !! c = Some C → c_state C = STATE_SEND_JOB → safe (io_send_job c) s.
Proof.
  intros HI HC Hst. pose proof (conn_own _ _ _ _ _ HI HC) as HO.
  destruct (oc_send _ _ _ _ HO Hst) as [j Hj]. destruct (out_live _ _ _ _ _ HI HC j Hj) as (J & HJ & _).
  unfold io_send_job, safe, upd_conn. wsteps. eapply write_safe; [done|done|congruence|].
  intros n s1 HI1 HC1 _. rewrite <- HC1 in HC. unfold safe. wsteps.
  match goal with |- wp _ _ ?s' => set (s2 := s') end.
  assert (srv_inv none ∅ ids P s2 ∧ ∃ C', st_conns s2 !! c = Some C' ∧ c_state C' = c_state C) as (HI2 & C' & HC' & Hs').
  { split; [eapply srv_inv_sim; [eapply conn_sim; [done|by case_match]|done]|].
    eexists. unfold s2. rsimpl. rewrite lookup_insert_eq. split; [done|by case_match]. }
  apply wp_if; intros _; [|wsteps; by exists ids, P].
  eapply conn_want_command_safe; [done|done|right; congruence].
Qed.

(** ** A connection that waits *)

Lemma srv_inv_unwaited x X ids P c C s s' :
  srv_inv x X ids P s → st_conns s !! c = Some C → unwaited c C s s' → srv_inv x X ids P s'.
Proof.
  intros HI HC Hu. pose proof (sv_queue _ _ _ _ _ HI) as [HR HW Hca].
  pose proof (unwaited_sim _ _ _ _ HC Hu) as HS. pose proof (uw_jobs _ _ _ _ Hu) as HJ.
  pose proof (uw_conns _ _ _ _ Hu) as HC'. eapply srv_inv_step; [done|split|..].
  - by eapply unwaited_queue.
  - eapply unwaited_wait; [|done|done]. eapply wait_rep_mono; [|done]. set_solver.
  - intros c' C1. rewrite HC'. intros [[<- <-]|[_ ?]]%lookup_insert_Some Hw; [|by apply Hca].
    by rewrite unwait_waiting in Hw.
  - by eapply qframe_sframe, unwaited_frame.
  - intros j. eapply idle_at_sim; [done|apply HI].
  - intros c' Hc'. eapply known_sim; [done|by eapply sv_known].
  - rewrite HJ, HC'. eapply owns_insert; [done| |intros []; by split|done|done|apply HI].
    rewrite unwait_waiting. done.
Qed.

Lemma wp_remove_waiting x X ids P c C s (Q : unit → St → Prop) :
  srv_inv x X ids P s → st_conns s !! c = Some C →
  (∀ C' s', srv_inv x X ids P s' → st_conns s' = <[c := C']> (st_conns s) → conn_waiting C' = false →
     C' = unwait C ∨ C' = C → st_jobs s' = st_jobs s → Q tt s') →
  wp (remove_waiting_conn c) Q s.
Proof.
  intros HI HC HQ. destruct (conn_waiting C) eqn:Hw.
  - eapply wp_remove_waiting_conn; [apply HI|done|done|]. intros s' Hu.
    apply (HQ (unwait C)); [by eapply srv_inv_unwaited|apply Hu|apply unwait_waiting|by left|apply Hu].
  - unfold remove_waiting_conn. wsteps. rewrite Hw. cbn [negb]. wsteps.
    apply (HQ C); [done|by rewrite insert_id|done|by right|done].
Qed.

Lemma io_wait_safe c ids P s C :
  srv_inv none ∅ ids P s → st_conns s !! c = Some C → c_state C = STATE_WAIT → safe (io_wait c) s.
Proof.
  intros HI HC Hst. pose proof (conn_own _ _ _ _ _ HI HC) as HO. unfold io_wait, safe, upd_conn. wsteps.
  apply wp_if; intros _; [|wsteps; by exists ids, P]. wsteps. set (C0 := C <| c_pending_timeout := -1 |>).
  assert (srv_inv none ∅ ids P (s <| st_conns ::= <[c := C0]> |>)) as HI1 by (eapply srv_inv_sim; [by eapply conn_sim|done]).
  eapply wp_remove_waiting; [exact HI1|rsimpl; apply lookup_insert_eq|]. intros C' s' HI' HC' Hw' HCC _.
  eapply wp_reply_msg; [exact HI'|by left| |apply handled_refl|intros s2 HI2 _ _; by exists ids, P].
  assert (st_conns s' !! c = Some C') as HC1 by (rewrite HC'; apply lookup_insert_eq).
  exists C'. split; [done|]. eapply own_rest; [by eapply conn_own|done|].
  right; right. by destruct HCC as [-> | ->].
Qed.

(** ** Any event *)

Lemma conn_process_io_safe c s : sound s → is_Some (st_conns s !! c) → safe (conn_process_io c) s.
Proof.
  intros (ids & P & HI) [C HC]. unfold conn_process_io, safe. wsteps. destruct (c_state C) eqn:Hst.
  - by eapply io_want_command_safe.
  - by eapply io_want_data_safe.
  - by eapply io_send_job_safe.
  - by eapply io_send_word_safe.
  - by eapply io_wait_safe.
  - by eapply io_bitbucket_safe.
  - wsteps. by exists ids, P.
  - by eapply io_want_endline_safe.
Qed.
End handlers.
