(* ===== verification/Loop.v ===== *)
(** The loop over the complete commands of the buffer of a connection: it ends,
    and each command keeps the invariant of the server. *)
From S2P Require Import Prelude Heap Ms State Monad JobList JobHash Tube Job Wal Conn Queue QueueRep QueueOps QueueConn QueueProc Process Runs Owners QueueCmds QueueLoops Refs Life Sound Parse ParseSpec Stats Dispatch Commands Putting Frames Tame Safety Server Handlers.
#[local] Open Scope Z_scope.

(** Room for [n] more objects. *)
Record roomy (n : nat) (s : St) : Prop := {
  ro_id : 0 <= next_id (st_table s) ∧ next_id (st_table s) + Z.of_nat n < UINT64_MAX;
  ro_jobs : Z.of_nat (size (st_jobs s) + n) < table_max;
  ro_refs : Z.of_nat (size (st_jobs s) + n + 2 * size (st_conns s) + 1) < UINT32_MAX;
}.

(** Each job of the table is found by one id. *)
Lemma ids_size J T m : table_rep J T m → (size m <= size J)%nat.
Proof.
  intros HT. rewrite <- !length_map_to_list.
  assert ((map_to_list m).*2 ⊆+ (map_to_list J).*1) as Hsub.
  { apply NoDup_submseteq.
    - apply NoDup_fmap_2_strong; [|apply NoDup_map_to_list].
      intros [i j] [i' j'] Hi%elem_of_map_to_list Hi'%elem_of_map_to_list. simpl. intros ->.
      destruct (tr_id _ _ _ HT _ _ Hi) as (_ & J1 & HJ1 & <-).
      destruct (tr_id _ _ _ HT _ _ Hi') as (_ & J2 & HJ2 & <-). by simplify_eq.
    - intros j ([i j'] & -> & Hi%elem_of_map_to_list)%list_elem_of_fmap.
      destruct (tr_id _ _ _ HT _ _ Hi) as (_ & J1 & HJ1 & _).
      apply list_elem_of_fmap. exists (j', J1). split; [done|]. by apply elem_of_map_to_list. }
  apply submseteq_length in Hsub. by rewrite !length_fmap in Hsub.
Qed.

Lemma refs_le s t : refs s t <= Z.of_nat (size (st_jobs s) + 2 * size (st_conns s) + 1).
Proof.
  unfold refs. pose proof (count_le (λ J, j_tube J = Some t) (st_jobs s)).
  pose proof (count_le (λ C, c_use C = Some t) (st_conns s)). pose proof (count_le (watches t) (st_conns s)).
  destruct (bool_decide _); simpl; lia.
Qed.

Lemma roomy_room x X ids P n s : srv_inv x X ids P s → roomy (S n) s → room ids s.
Proof.
  intros HI [H1 H2 H3]. pose proof (ids_size _ _ _ (sv_table _ _ _ _ _ HI)). split; [lia|lia|].
  intros t. pose proof (refs_le s t). lia.
Qed.
Lemma roomy_steady n k s s' : steady_step k s s' → roomy (n + k) s → roomy n s'.
Proof.
  intros [_ HD HS HN _ _] [H1 H2 H3]. specialize (HN (proj1 H1)).
  assert (size (st_conns s') = size (st_conns s)) as HC by (rewrite <- !size_dom; by rewrite HD).
  split; lia.
Qed.
Lemma roomy_mono n k s : (k <= n)%nat → roomy n s → roomy k s.
Proof. intros Hk [H1 H2 H3]. split; lia. Qed.

(** ** What the handlers leave of the rest of the state *)

#[export] Hint Extern 0 (Keeps steady _ (update st_conns _ _)) =>
  apply update_steady; intros ?; first [done|by case_match] : typeclass_instances.

#[local] Hint Constants Opaque : typeclass_instances.

Section steady.
Context {E : Env} {SI : SysInfo} {N : Net}.
#[export] Instance set_state_steady c st : Keeps steady 0 (set_state c st).
Proof. unfold set_state. keep. Qed.
#[export] Instance check_err_steady c e : Keeps steady 0 (check_err c e).
Proof. unfold check_err. keep. Qed.
#[export] Instance sys_read_steady c n : Keeps steady 0 (sys_read c n).
Proof. unfold sys_read. keep. Qed.
#[export] Instance sys_write_steady c b : Keeps steady 0 (sys_write c b).
Proof. unfold sys_write. keep. Qed.
#[export] Instance on_read_steady c r k : (∀ b, Keeps steady 0 (k b)) → Keeps steady 0 (on_read c r k).
Proof. intros. unfold on_read. keep. Qed.
#[export] Instance on_write_steady c r k : (∀ n, Keeps steady 0 (k n)) → Keeps steady 0 (on_write c r k).
Proof. intros. unfold on_write. keep. Qed.
#[export] Instance read_cmd_steady c b : Keeps steady 0 (read_cmd c b).
Proof. unfold read_cmd. keep. Qed.
#[export] Instance fill_extra_data_steady c : Keeps steady 0 (fill_extra_data c).
Proof. unfold fill_extra_data, upd_conn. keep. Qed.
#[export] Instance maybe_enqueue_incoming_job_steady c : Keeps steady 0 (maybe_enqueue_incoming_job c).
Proof. apply keeps_tame_steady. keep. Qed.
#[export] Instance conn_want_command_steady c : Keeps steady 0 (conn_want_command c).
Proof. unfold conn_want_command. keep. Qed.
#[export] Instance io_want_command_steady c : Keeps steady 0 (io_want_command c).
Proof. unfold io_want_command. keep. Qed.
#[export] Instance io_want_endline_steady c : Keeps steady 0 (io_want_endline c).
Proof. unfold io_want_endline. keep. Qed.
#[export] Instance io_bitbucket_steady c : Keeps steady 0 (io_bitbucket c).
Proof. unfold io_bitbucket. keep. Qed.
#[export] Instance io_want_data_steady c : Keeps steady 0 (io_want_data c).
Proof. unfold io_want_data. keep. Qed.
#[export] Instance io_send_word_steady c : Keeps steady 0 (io_send_word c).
Proof. unfold io_send_word. keep. Qed.
#[export] Instance io_send_job_steady c : Keeps steady 0 (io_send_job c).
Proof. unfold io_send_job. keep. Qed.
#[export] Instance io_wait_steady c : Keeps steady 0 (io_wait c).
Proof. unfold io_wait. keep. Qed.
#[export] Instance conn_process_io_steady c : Keeps steady 0 (conn_process_io c).
Proof. unfold conn_process_io. keep. Qed.
End steady.

(** ** The loop *)

Section loop.
Context {E : Env} {SI : SysInfo} {N : Net}.
Implicit Types (P : places) (ids : gmap Z jobp) (s : St) (c : connp) (C : Conn) (fuel : nat).

(** One command: it takes its line out of the buffer. *)
Lemma wp_one_command c s C :
  sound s → sized s → st_conns s !! c = Some C → roomy 1 s → c_state C = STATE_WANT_COMMAND →
  c_cmd_len C ≠ 0%nat →
  wp (dispatch_cmd c;; fill_extra_data c) (λ _ s', sound s' ∧ steady_step 2 s s' ∧
    ∃ C', st_conns s' !! c = Some C' ∧ (c_cmd_read C' < c_cmd_read C)%nat) s.
Proof.
  intros (ids & P & HI) Hs HC Hr Hst Hl. pose proof (conn_own _ _ _ _ _ HI HC) as HO.
  assert (at_rest C) as Hrest.
  { eapply own_rest; [done| |by left]. eapply conn_waits; [done..|congruence]. }
  assert (at_command c ids P s) as HA.
  { split; [done|by eapply roomy_room|by exists C]. }
  apply wp_bind. eapply wp_mono; [eapply (wp_kept tame 2), dispatch_cmd_at, HA; apply _|].
  intros [] s1 [HI1 HT1]. pose proof (HT1 Hs) as HT.
  assert (is_Some (st_conns s1 !! c)) as [C1 HC1] by (apply elem_of_dom; rewrite (tm_dom _ _ _ HT); apply elem_of_dom; eauto).
  pose proof (tm_eaten _ _ _ HT c C C1 HC HC1) as He1. pose proof HI1 as (ids1 & P1 & HI1').
  pose proof (conn_own _ _ _ _ _ HI1' HC1) as HO1.
  pose proof (wp_fill_extra c s1 HI1 ltac:(eauto)) as Hwp.
  apply wp_Ret in Hwp as ([] & s2 & Hrun & HI2 & C2 & HC2 & Hl2). apply wp_Ret. exists tt, s2. split; [done|].
  pose proof (fill_extra_tame s1 c C1 s2 HC1 (λ _, proj2 (proj2 (oc_inbuf _ _ _ _ HO1))) Hrun) as HT2.
  split_and!; [done| |].
  - apply (steady_trans 2 0 s s1); [by apply tame_steady| |done]. by apply tame_steady.
  - specialize (HT2 (tm_sized _ _ _ HT)). pose proof (tm_eaten _ _ _ HT2 c C1 C2 HC1 HC2) as He2.
    pose proof (eaten_trans _ _ _ He1 He2) as [[? _]|[_ ?]]; [congruence|]. exists C2. split; [done|]. 
    pose proof (oc_inbuf _ _ _ _ HO) as (_ & [? _] & _). lia.
Qed.

Lemma steady_refl n s : sized s → steady_step n s s.
Proof. intros Hs. split; [done|done|lia|lia|done|done]. Qed.

Lemma wp_h_conn_loop fuel c s C :
  sound s → sized s → st_conns s !! c = Some C → roomy (2 * fuel) s → (c_cmd_read C <= fuel)%nat →
  wp (h_conn_loop fuel c) (λ _ s', sound s' ∧ steady_step (2 * fuel) s s') s.
Proof.
  revert s C. induction fuel as [|fuel IH]; intros s C HI Hs HC Hr Hf; cbn [h_conn_loop]; wsteps.
  { apply wp_if; intros Hd; [wsteps; split; [done|by apply steady_refl]|].
    apply negb_false_iff, andb_true_iff in Hd as [_ Hd%negb_true_iff%Nat.eqb_neq]. lia. }
  apply wp_if; intros Hd; [wsteps; split; [done|by apply steady_refl]|].
  apply negb_false_iff, andb_true_iff in Hd as [[_ Hst%bool_decide_eq_true]%andb_true_iff _].
  destruct HI as (ids & P & HI). cbv zeta. set (len := scan_line_end _ _). unfold upd_conn. wsteps.
  set (C1 := C <| c_cmd_len := len |>). set (s1 := rupd st_conns _ s).
  pose proof (conn_own _ _ _ _ _ HI HC) as HO.
  assert (at_rest C) as Hrest.
  { eapply own_rest; [done| |by left]. eapply conn_waits; [done..|congruence]. }
  assert (sound s1) as HI1.
  { exists ids, P. eapply rest_turn; [done..| |done|done|done| |].
    - destruct Hrest as (? & ? & ? & [[? [? ?]] ?]). split_and!; [done..|]. split; [|done].
      split_and!; [done|apply scan_line_end_le|by destruct_and!|done].
    - change (c_state C ≠ STATE_WANT_DATA). congruence.
    - change (c_state C ≠ STATE_SEND_JOB). congruence. }
  assert (steady_step 0 s s1) as Hs1 by (by eapply steady_conn).
  assert (st_conns s1 !! c = Some C1) as HC1 by apply lookup_insert_eq.
  destruct (Nat.eqb_spec len 0) as [Hl|Hl].
  { wsteps. split; [done|]. by eapply (fr_mono (R := steady) 0); [lia|intros _; exact Hs1|]. }
  eapply wp_bind, wp_mono.
  { eapply wp_bind_inv, (wp_one_command c s1 C1); [done|apply Hs1|done| |done|done].
    eapply roomy_steady; [exact Hs1|]. eapply roomy_mono; [|done]. lia. }
  intros [] s2' Hfill. eapply wp_bind, wp_mono; [exact Hfill|]. intros [] s2 (HI2 & Hs2 & C2 & HC2 & Hlt).
  eapply wp_mono.
  { eapply (IH s2 C2); [done|apply Hs2|done| |].
    - eapply roomy_steady; [exact Hs2|]. eapply roomy_steady; [exact Hs1|]. eapply roomy_mono; [|done]. lia.
    - change (c_cmd_read C2 < c_cmd_read C)%nat in Hlt. lia. }
  intros [] s3 [HI3 Hs3]. split; [done|].
  assert (steady (0 + (2 + 2 * fuel)) s s3) as H.
  { apply (steady_trans 0 _ s s1); [by intros _|]. by apply (steady_trans 2 _ s1 s2); intros _. }
  replace (2 * S fuel)%nat with (0 + (2 + 2 * fuel))%nat by lia. by apply H.
Qed.
End loop.
