(* ===== verification/Pending.v ===== *)
(** The queue of epoll updates: [epollq_apply] empties it and [epollq_rmconn]
    takes a connection out of it, also when a connection that was queued twice
    has made it circular. *)
From S2P Require Import Prelude Heap Ms State Monad JobList JobHash Tube Job Wal Conn Queue QueueRep QueueOps QueueConn QueueProc Process Runs Owners QueueCmds QueueLoops Refs Life Sound Parse ParseSpec Stats Dispatch Commands Putting Server Frames Tame Handlers.
#[local] Open Scope Z_scope.

(** Only the links of the queue, and what epoll knows, have changed. *)
Definition e_next (C : Conn) : Conn := C <| c_next := None |> <| c_added := false |>.
Record shuffled (s s' : St) : Prop := {
  sh_rest : s' <| st_conns := ∅ |> <| epollq := None |> <| st_tick := 0%nat |> =
    s <| st_conns := ∅ |> <| epollq := None |> <| st_tick := 0%nat |>;
  sh_conns : same_but e_next (st_conns s) (st_conns s');
}.
#[export] Instance shuffled_pre : PreOrder shuffled.
Proof. split; [by split|]. intros s1 s2 s3 [H1 C1] [H2 C2]. split; [congruence|by etrans]. Qed.

Section shuffled.
Implicit Types (s : St) (c x : connp) (C : Conn).

Lemma shuffled_conn s c C C' :
  st_conns s !! c = Some C → e_next C' = e_next C → shuffled s (s <| st_conns ::= <[c := C']> |>).
Proof. intros HC He. split; [done|]. rsimpl. by eapply same_but_insert. Qed.
Lemma shuffled_head s q : shuffled s (s <| epollq := q |>).
Proof. by split. Qed.
Lemma shuffled_tick s : shuffled s (s <| st_tick ::= S |>).
Proof. by split. Qed.

Lemma shuffled_sim s s' : shuffled s s' → srv_sim s s'.
Proof.
  intros [He HC].
  assert (st_jobs s' = st_jobs s) as HJ by exact (f_equal st_jobs He).
  assert (st_tubes s' = st_tubes s) as HT by exact (f_equal st_tubes He).
  assert (srv_conns s' = srv_conns s) as Hh by exact (f_equal srv_conns He).
  assert (tubes s' = tubes s) as Ht by exact (f_equal tubes He).
  split; split; rewrite ?HJ, ?HT, ?Hh, ?Ht; try done; try (by eapply (same_but_mono e_next)).
  - exact (f_equal st_links He).
  - exact (f_equal st_table He).
  - exact (f_equal default_tube He).
  - exact (f_equal srv_wal He).
Qed.

Lemma shuffled_jobs s s' : shuffled s s' → st_jobs s' = st_jobs s.
Proof. intros [He _]. exact (f_equal st_jobs He). Qed.
Lemma shuffled_dom s s' : shuffled s s' → dom (st_conns s') = dom (st_conns s).
Proof. intros [_ HC]. by apply (same_but_dom e_next). Qed.
Lemma shuffled_listed s s' c : shuffled s s' → listed s' c → listed s c.
Proof. intros [He _]. unfold listed. assert (st_tubes s' = st_tubes s) as -> by exact (f_equal st_tubes He). done. Qed.
Lemma shuffled_steady s s' : shuffled s s' → linked ∅ s' → steady 0 s s'.
Proof.
  intros Hs Hl Hz. pose proof (shuffled_jobs _ _ Hs) as HJ.
  assert (st_table s' = st_table s) as HT by exact (f_equal st_table (sh_rest _ _ Hs)).
  split; [|by apply shuffled_dom| | |done|exact (f_equal default_tube (sh_rest _ _ Hs))].
  - intros j J. rewrite HJ. apply Hz.
  - rewrite HJ. lia.
  - rewrite HT. lia.
Qed.

(** ** One connection taken off the queue *)

Lemma linked_empty A s : epollq s = None → linked A s.
Proof. intros He. exists ∅. rewrite He. split_and!; set_solver. Qed.
Lemma linked_live A s c : linked A s → epollq s = Some c → ∃ C, st_conns s !! c = Some C.
Proof. intros (X & _ & Hq & HX) (C & ? & _)%Hq%HX. eauto. Qed.
Lemma linked_pop A s c C C' :
  linked A s → epollq s = Some c → st_conns s !! c = Some C → c_next C' = None →
  linked A (s <| epollq := c_next C |> <| st_conns ::= <[c := C']> |>).
Proof.
  intros (X & HA & Hq & HX) Hc HC Hn. exists X. split_and!; [done|..]; rsimpl.
  - destruct (HX c (Hq c Hc)) as (C1 & HC1 & Hd). simplify_eq. apply Hd.
  - intros d Hd. destruct (decide (d = c)) as [->|Hne].
    + rewrite lookup_insert_eq. exists C'. split; [done|]. by rewrite Hn.
    + rewrite lookup_insert_ne by done. by apply HX.
Qed.
End shuffled.

Definition linked_next (C : Conn) : Prop := is_Some (c_next C).
#[local] Instance linked_next_dec C : Decision (linked_next C).
Proof. unfold linked_next. apply _. Defined.

Section pending.
Context {E : Env}.
Implicit Types (s : St) (c x : connp) (C : Conn) (fuel : nat).

(** A connection is taken off at most once for each link, and once at the end. *)
Lemma wp_epollq_apply_loop fuel s (Q : unit → St → Prop) :
  (∀ n fd, e_epoll_ctl n fd = true) → linked ∅ s →
  (epollq s = None ∨ count linked_next (st_conns s) < Z.of_nat fuel) →
  (∀ s', shuffled s s' → epollq s' = None → Q tt s') → wp (epollq_apply_loop fuel) Q s.
Proof.
  intros Hctl. revert s. induction fuel as [|fuel IH]; intros s Hl Hf HQ; cbn [epollq_apply_loop]; wsteps;
    destruct (epollq s) as [c|] eqn:Hc; [|wsteps; by apply HQ| |wsteps; by apply HQ].
  { destruct Hf as [?|Hf]; [done|]. pose proof (count_nonneg linked_next (st_conns s)). lia. }
  destruct (linked_live _ _ _ Hl Hc) as [C HC]. unfold sockwant. wsteps.
  rewrite bool_decide_eq_false_2 by done. rewrite andb_false_r.
  set (s0 := s <| epollq := c_next C |>). set (C1 := C <| c_next := None |>).
  assert (∀ C2 s2, s2 = s0 <| st_conns ::= <[c := C2]> |> → e_next C2 = e_next C → c_next C2 = None →
    wp (epollq_apply_loop fuel) Q (s2 <| st_tick ::= S |>)) as Hgo.
  { intros C2 s2 -> He Hn. apply IH.
    - eapply linked_same; [..|by apply (linked_pop _ s c C C2)]; done.
    - change (epollq _) with (c_next C). destruct (c_next C) as [d|] eqn:Hd; [right|by left].
      change (count linked_next (<[c := C2]> (st_conns s)) < Z.of_nat fuel).
      rewrite (count_update _ _ _ _ _ HC). rewrite bool_decide_eq_true_2 by (unfold linked_next; eauto).
      rewrite bool_decide_eq_false_2 by (unfold linked_next; rewrite Hn; by intros [??]).
      destruct Hf as [?|Hf]; [done|]. simpl. lia.
    - intros s' Hs' He'. apply HQ; [|done]. etrans; [|exact Hs']. etrans; [|apply shuffled_tick].
      etrans; [apply shuffled_head|]. by apply (shuffled_conn s0 c C). }
  change (c_added C1) with (c_added C). destruct (c_added C) eqn:Ha; cbn [negb]; wsteps.
  - apply wp_tick. wsteps. rewrite Hctl. cbn [negb]. wsteps. by apply (Hgo C1).
  - apply wp_tick. wsteps. rewrite Hctl. cbn [negb]. wsteps. rewrite conns_twice. by apply (Hgo (C1 <| c_added := true |>)).
Qed.

Lemma wp_epollq_apply s (Q : unit → St → Prop) :
  (∀ n fd, e_epoll_ctl n fd = true) → linked ∅ s →
  (∀ s', shuffled s s' → epollq s' = None → Q tt s') → wp epollq_apply Q s.
Proof.
  intros Hctl Hl HQ. unfold epollq_apply. wsteps. apply wp_epollq_apply_loop; [done..| |done].
  right. pose proof (count_le linked_next (st_conns s)). lia.
Qed.

(** ** Taking a connection out *)

(** The links from [p] end after the connections [l]. *)
Fixpoint nchain (Cs : gmap connp Conn) (p : option connp) (l : list connp) : Prop :=
  match l with
  | [] => p = None
  | x :: l => p = Some x ∧ ∃ C, Cs !! x = Some C ∧ nchain Cs (c_next C) l
  end.
Lemma nchain_det Cs p l l' : nchain Cs p l → nchain Cs p l' → l = l'.
Proof.
  revert p l'. induction l as [|x l IH]; intros p [|y l']; simpl.
  - done.
  - intros -> [? _]. done.
  - intros [-> _] ?. done.
  - intros (-> & C & HC & Hl) ([= <-] & C' & HC' & Hl'). simplify_eq. f_equal. by eapply IH.
Qed.
Lemma nchain_suffix Cs p l x : nchain Cs p l → x ∈ l → ∃ l1 l2, l = l1 ++ x :: l2 ∧ nchain Cs (Some x) (x :: l2).
Proof.
  revert p. induction l as [|y l IH]; intros p; simpl; [by intros _ ?%elem_of_nil|].
  intros (-> & C & HC & Hl) [->|Hx]%elem_of_cons; [exists [], l; split; [done|eauto]|].
  destruct (IH _ Hl Hx) as (l1 & l2 & -> & Hs). by exists (y :: l1), l2.
Qed.
Lemma nchain_nodup Cs p l : nchain Cs p l → NoDup l.
Proof.
  revert p. induction l as [|x l IH]; intros p; [constructor|]. intros Hl. pose proof Hl as (-> & C & HC & Hn).
  constructor; [|by eapply IH]. intros Hx. destruct (nchain_suffix _ _ _ _ Hn Hx) as (l1 & l2 & -> & Hs).
  apply (nchain_det _ _ _ _ Hl) in Hs. apply (f_equal length) in Hs. simpl in Hs. rewrite length_app in Hs. simpl in Hs. lia.
Qed.
Lemma nchain_insert Cs p l x C : x ∉ l → nchain Cs p l → nchain (<[x := C]> Cs) p l.
Proof.
  revert p. induction l as [|y l IH]; intros p; [done|]. intros [Hy Hx]%not_elem_of_cons (-> & D & HD & Hn).
  split; [done|]. exists D. rewrite lookup_insert_ne by done. auto.
Qed.

(** The connections [D] have been visited: [c] is off the queue, the others are
    linked with each other, before [nh]. *)
Record visited (c : connp) (nh : option connp) (D : gset connp) (s : St) : Prop := {
  vs_links x : x ∈ D → ∃ C, st_conns s !! x = Some C ∧
    ∀ d, c_next C = Some d → (x ≠ c) ∧ (d ∈ D) ∧ d ≠ c;
  vs_head d : nh = Some d → (d ∈ D) ∧ d ≠ c;
}.
Lemma visited_linked c nh D s : visited c nh D s → linked {[c]} (s <| epollq := nh |>).
Proof.
  intros [HL HH]. exists (D ∖ {[c]}). split_and!; [set_solver|..].
  - intros d Hd. apply HH in Hd. set_solver.
  - intros x Hx. destruct (HL x) as (C & HC & Hd); [set_solver|]. exists C. split; [done|].
    intros d (_ & ? & ?)%Hd. set_solver.
Qed.

(** What one iteration does to [x]. *)
Definition relink (c : connp) (nh : option connp) (x : connp) (C : Conn) : Conn :=
  C <| c_next := if decide (x ≠ c) then nh else None |>.
Definition newer (c : connp) (nh : option connp) (x : connp) : option connp :=
  if decide (x ≠ c) then Some x else nh.

Lemma visited_step c nh D s x C q :
  visited c nh D s → st_conns s !! x = Some C →
  visited c (newer c nh x) ({[x]} ∪ D) (s <| st_conns ::= <[x := relink c nh x C]> |> <| epollq := q |>).
Proof.
  intros [HL HH] HC. split.
  - intros y Hy. rsimpl. destruct (decide (y = x)) as [->|Hne].
    + rewrite lookup_insert_eq. eexists. split; [done|]. unfold relink. rsimpl.
      intros d. case_decide; [|done]. intros [??]%HH. set_solver.
    + rewrite lookup_insert_ne by done. destruct (HL y) as (C' & HC' & Hd); [set_solver|].
      exists C'. split; [done|]. intros d ?%Hd. set_solver.
  - intros d. unfold newer. case_decide; [intros [= <-]; set_solver|]. intros ?%HH. set_solver.
Qed.

Lemma wp_rmconn_step fuel c nh s x C (Q : unit → St → Prop) :
  epollq s = Some x → st_conns s !! x = Some C →
  wp (epollq_rmconn_loop fuel c (newer c nh x)) Q
    (s <| st_conns ::= <[x := relink c nh x C]> |> <| epollq := c_next C |>) →
  wp (epollq_rmconn_loop (S fuel) c nh) Q s.
Proof.
  intros Hx HC HQ. cbn [epollq_rmconn_loop]. wsteps. rewrite Hx. wsteps. unfold newer, relink in HQ.
  case_decide; [|exact HQ]. wsteps. rewrite conns_twice. exact HQ.
Qed.
Lemma shuffled_step c nh s x C q :
  st_conns s !! x = Some C → shuffled s (s <| st_conns ::= <[x := relink c nh x C]> |> <| epollq := q |>).
Proof. intros HC. etrans; [by apply (shuffled_conn s x C (relink c nh x C))|]. apply shuffled_head. Qed.

(** Back along the connections that have been visited. *)
Lemma wp_rmconn_back fuel c nh D l s (Q : unit → St → Prop) :
  visited c nh D s → nchain (st_conns s) (epollq s) l → (∀ x, x ∈ l → x ∈ D) → (length l <= fuel)%nat →
  (∀ s', shuffled s s' → linked {[c]} s' → Q tt s') → wp (epollq_rmconn_loop fuel c nh) Q s.
Proof.
  revert fuel nh s. induction l as [|x l IH]; intros fuel nh s HV Hl HD Hf HQ.
  - simpl in Hl. destruct fuel; cbn [epollq_rmconn_loop]; wsteps; rewrite Hl; wsteps;
      (apply HQ; [apply shuffled_head|by eapply visited_linked]).
  - pose proof (nchain_nodup _ _ _ Hl) as [Hx _]%NoDup_cons. destruct Hl as (Hq & C & HC & Hl).
    destruct fuel as [|fuel]; [simpl in Hf; lia|]. eapply wp_rmconn_step; [done..|].
    assert ({[x]} ∪ D = D) as HxD by (specialize (HD x ltac:(by left)); set_solver).
    apply (IH _ _ _).
    + rewrite <- HxD. by apply visited_step.
    + rsimpl. by apply nchain_insert.
    + intros y Hy. apply HD. by right.
    + simpl in Hf. lia.
    + intros s' Hs. apply HQ. etrans; [by eapply shuffled_step|exact Hs].
Qed.

(** Along the connections of the queue that have not. *)
Lemma wp_rmconn_loop fuel c nh D R X s (Q : unit → St → Prop) :
  visited c nh D s → D ⊆ X → nchain (st_conns s) nh R → (∀ x, x ∈ R ↔ (x ∈ D) ∧ x ≠ c) →
  (∀ q, epollq s = Some q → q ∈ X) →
  (∀ x, x ∈ X → x ∉ D → ∃ C, st_conns s !! x = Some C ∧ ∀ d, c_next C = Some d → d ∈ X) →
  (size (X ∖ D) + size X <= fuel)%nat →
  (∀ s', shuffled s s' → linked {[c]} s' → Q tt s') → wp (epollq_rmconn_loop fuel c nh) Q s.
Proof.
  revert fuel nh D R s. induction fuel as [|fuel IH]; intros nh D R s HV HDX HR HRD Hq HX Hf HQ;
    (destruct (epollq s) as [x|] eqn:Hx;
     [|cbn [epollq_rmconn_loop]; wsteps; rewrite Hx; wsteps; apply HQ; [apply shuffled_head|by eapply visited_linked]]).
  all: assert (x ∈ X) as HxX by auto.
  { assert (size X = 0)%nat as Hz by lia. apply size_empty_inv in Hz. set_solver. }
  destruct (decide (x ∈ D)) as [HxD|HxD].
  - (* a circular queue *)
    assert (∃ l, nchain (st_conns s) (epollq s) l ∧ (∀ y, y ∈ l → y ∈ D) ∧ NoDup l) as (l & Hl & HlD & Hnd).
    { rewrite Hx. destruct (decide (x = c)) as [->|Hne].
      - destruct (vs_links _ _ _ _ HV c HxD) as (C & HC & Hd). exists [c]. split_and!.
        + split; [done|]. exists C. split; [done|]. simpl. destruct (c_next C) as [d|]; [|done].
          by destruct (Hd d eq_refl).
        + by intros y ->%list_elem_of_singleton.
        + apply NoDup_singleton.
      - destruct (nchain_suffix _ _ _ x HR) as (l1 & l2 & -> & Hs); [by apply HRD|].
        exists (x :: l2). split_and!; [done| |by eapply nchain_nodup].
        intros y Hy. apply HRD. apply elem_of_app. by right. }
    eapply wp_rmconn_back; [done..| |done].
    apply (NoDup_submseteq l (elements D)) in Hnd; [|intros y Hy; by apply elem_of_elements, HlD].
    apply submseteq_length in Hnd. apply subseteq_size in HDX. unfold size, set_size in HDX. simpl in HDX.
    unfold size, set_size in Hf. simpl in Hf. lia.
  - destruct (HX x HxX HxD) as (C & HC & Hd). eapply wp_rmconn_step; [done..|].
    apply (IH _ ({[x]} ∪ D) (if decide (x ≠ c) then x :: R else R)).
    + by apply visited_step.
    + set_solver.
    + rsimpl. assert (x ∉ R) as HxR by (rewrite HRD; tauto). unfold newer. case_decide as Hxc.
      * split; [done|]. exists (relink c nh x C). rewrite lookup_insert_eq. split; [done|].
        unfold relink. rewrite decide_True by done. by apply nchain_insert.
      * by apply nchain_insert.
    + intros y. case_decide as Hxc; rewrite ?elem_of_cons, HRD, elem_of_union, elem_of_singleton; [naive_solver|].
      assert (x = c) as -> by (by destruct (decide (x = c))). naive_solver.
    + rsimpl. exact Hd.
    + intros y HyX [Hyx HyD]%not_elem_of_union. rsimpl. rewrite lookup_insert_ne by set_solver. by apply HX.
    + assert (size (X ∖ ({[x]} ∪ D)) < size (X ∖ D))%nat; [|lia]. apply subset_size. set_solver.
    + intros s' Hs. apply HQ. etrans; [by eapply shuffled_step|exact Hs].
Qed.

(** [epollq_rmconn] ends, and [c] is not in the queue. *)
Lemma wp_epollq_rmconn s c (Q : unit → St → Prop) :
  linked ∅ s → (∀ s', shuffled s s' → linked {[c]} s' → Q tt s') → wp (epollq_rmconn c) Q s.
Proof.
  intros (X & _ & Hq & HX) HQ. unfold epollq_rmconn. wsteps.
  apply (wp_rmconn_loop _ c None ∅ [] X); [|set_solver|done| |done| | |done].
  - split; [set_solver|done].
  - intros x. set_solver.
  - intros x Hx _. by apply HX.
  - assert (X ⊆ dom (st_conns s)) as Hs%subseteq_size.
    { intros x (C & ? & _)%HX. apply elem_of_dom. eauto. }
    rewrite size_dom in Hs. replace (X ∖ ∅) with X by set_solver. lia.
Qed.
End pending.
