(* ===== verification/Closing.v ===== *)
(** [connclose] on the invariant of the server: its jobs are given back, its
    references dropped, and nothing points to it any more but, when its timer is
    tied with another's, the heap of timers. *)
From S2P Require Import Prelude Heap Ms State Monad JobList JobHash Tube Job Wal Conn Queue QueueRep QueueOps QueueConn QueueProc Process Runs Owners QueueCmds QueueLoops Refs Life Sound Parse ParseSpec Stats Dispatch Commands Naming Putting Server Frames Tame Handlers Pending.
#[local] Open Scope Z_scope.

(** ** What it leaves of the rest of the state *)

Lemma away_delete c s : away c 0 s (s <| st_conns ::= delete c |>).
Proof.
  intros [Hl (X & HX & Hq & Hn)]. split; [exact Hl|]. exists X. split_and!; [done|done|].
  intros d Hd. destruct (Hn d Hd) as (D & HD & Hnx). exists D. rsimpl. rewrite lookup_delete_ne by set_solver. done.
Qed.
Lemma gone_linked c s : gone c s → linked ∅ s.
Proof. intros [_ (X & _ & HX)]. exists X. split; [set_solver|done]. Qed.

Section frames.
Context {E : Env}.
#[local] Hint Extern 1 (Keeps (away _) _ (free st_conns _)) =>
  apply keeps_free; intros; apply away_delete : typeclass_instances.
#[local] Hint Extern 1 (Keeps modest _ (free st_conns _)) =>
  apply keeps_free; intros; apply modest_delete : typeclass_instances.
#[export] Instance connclose_away c : Keeps (away c) 0 (connclose c).
Proof. unfold connclose. keep. Qed.
#[export] Instance connclose_modest c : Keeps modest 0 (connclose c).
Proof. unfold connclose. keep. Qed.
End frames.

Section closing.
Context {E : Env}.
Implicit Types (P : places) (ids : gmap Z jobp) (X : gset connp) (s : St) (x : local).
Implicit Types (j : jobp) (t : tubep) (c : connp) (C : Conn).

(** ** The jobs that it receives and sends *)

Lemma wp_free_in ids P s c C (Q : unit → St → Prop) :
  srv_inv none ∅ ids P s → st_conns s !! c = Some C →
  (∀ ids' s', srv_inv (acting c none) ∅ ids' P s' → st_conns s' = st_conns s →
     (∀ j, c_out_job C = Some j → ∃ J, st_jobs s' !! j = Some J ∧ (r_state (j_r J) = Copy → P !! j = None)) → Q tt s') →
  wp (job_free (c_in_job C)) Q s.
Proof.
  intros HI HC HQ. pose proof (srv_inv_enter _ _ _ _ _ c HI) as HIa.
  pose proof (conn_own _ _ _ _ _ HI HC) as HO. destruct (c_in_job C) as [i|] eqn:Hi.
  2: { unfold job_free. wsteps. apply (HQ ids); [done|done|]. intros j. by apply (out_live _ _ _ _ _ HI HC). }
  destruct (oc_in _ _ _ _ HO i Hi) as (_ & _ & HP & J & HJ & Hst & _).
  eapply (wp_job_free _ _ _ _ _ i (r_id (j_r J))); [exact HIa|done| |done|congruence|by eapply in_unowned|].
  { eapply qr_ids; [apply HI|done|congruence]. }
  intros s' HI' _ Hs Hlost. eapply HQ; [exact HI'|apply Hs|]. intros j Hj.
  destruct (out_live _ _ _ _ _ HI HC j Hj) as (Jo & HJo & Hcp).
  assert (j ≠ i) as Hne.
  { intros ->. assert (Jo = J) as -> by congruence.
    destruct (oc_out _ _ _ _ HO i Hj) as (_ & [?|(_ & J' & ? & ?)]); congruence. }
  destruct (lost_other _ _ _ _ _ Hlost Hne HJo) as (J' & HJ' & He). exists J'. split; [done|].
  assert (r_state (j_r J') = r_state (j_r Jo)) as -> by exact (f_equal (λ B : Job, r_state (j_r B)) He). done.
Qed.

Lemma wp_free_out ids P s c C (k : M unit) (Q : unit → St → Prop) :
  srv_inv (acting c none) ∅ ids P s →
  (∀ j, c_out_job C = Some j → unowned ({[c]} ∪ ∅) (st_conns s) j ∧
     ∃ J, st_jobs s !! j = Some J ∧ (r_state (j_r J) = Copy → P !! j = None)) →
  (∀ s', srv_inv (acting c none) ∅ ids P s' → st_conns s' = st_conns s → wp k Q s') →
  wp ((match c_out_job C with
       | None => mret tt
       | Some j => J ← deref st_jobs j; if decide (r_state (j_r J) = Copy) then job_free (Some j) else mret tt
       end);; k) Q s.
Proof.
  intros HI Hout HQ. apply wp_bind. destruct (c_out_job C) as [j|]; [|wsteps; by apply HQ].
  destruct (Hout j eq_refl) as (Hun & J & HJ & Hcp). eapply wp_bind, wp_deref; [done|].
  case_decide as Hst; [|apply wp_ret; by apply HQ].
  eapply wp_job_free_copy; [exact HI|by apply Hcp|done|done|done|].
  intros s' HI' _ Hs _. apply HQ; [done|apply Hs].
Qed.

(** [c] has no job to receive or to send any more. *)
Definition dropped_jobs (C : Conn) : Conn :=
  C <| c_in_job := None |> <| c_out_job := None |> <| c_in_job_read := 0 |>.
Lemma wp_drop_jobs ids P s c C (k : M unit) (Q : unit → St → Prop) :
  srv_inv none ∅ ids P s → st_conns s !! c = Some C → c_state C = STATE_CLOSE →
  (∀ ids' s', srv_inv none ∅ ids' P s' → st_conns s' = <[c := dropped_jobs C]> (st_conns s) → wp k Q s') →
  wp (job_free (c_in_job C);;
      (match c_out_job C with
       | None => mret tt
       | Some j => J ← deref st_jobs j; if decide (r_state (j_r J) = Copy) then job_free (Some j) else mret tt
       end);;
      update st_conns c dropped_jobs;; k) Q s.
Proof.
  intros HI HC Hst HQ. pose proof (conn_own _ _ _ _ _ HI HC) as HO.
  assert (conn_waiting C = false) as Hw by (eapply conn_waits; [done..|congruence]).
  apply wp_bind. eapply wp_free_in; [done..|]. intros ids1 s1 HI1 HC1 Hout.
  eapply wp_free_out; [exact HI1| |].
  { intros j Hj. split; [|by apply Hout]. rewrite HC1. by eapply out_unowned. }
  intros s2 HI2 HC2. rewrite HC1 in HC2. rewrite <- HC2 in HC. wsteps.
  eapply (HQ ids1); [|by rewrite <- HC2]. eapply srv_inv_settle; [exact HI2|exact HC|done..| | | |].
  - change (conn_waiting C = true → c_state C = STATE_WAIT). congruence.
  - split; rsimpl; try done.
    + intros Hd. change (c_state C = STATE_WANT_DATA) in Hd. congruence.
    + intros Hd. change (c_state C = STATE_SEND_JOB) in Hd. congruence.
    + destruct (oc_inbuf _ _ _ _ HO) as (? & ? & _). unfold inbuf, dropped_jobs; rsimpl; split_and!; [done|lia..].
  - done.
  - done.
Qed.

(** ** The jobs that it has reserved *)

Lemma wp_give_back_all ids P s c (k : M unit) (Q : unit → St → Prop) :
  srv_inv none ∅ ids P s → calm c s →
  (∀ P' s', srv_inv none {[c]} ids P' s' → calm c s' → (∀ j, P' !! j ≠ Some (InReserved c)) → wp k Q s') →
  wp (has ← has_reserved_job c; (if has : bool then enqueue_reserved_jobs c else mret tt);; k) Q s.
Proof.
  intros HI Hc HQ. pose proof (srv_inv_calm _ _ _ _ _ HI Hc) as HIc. pose proof Hc as (C & HC & Hw & _).
  unfold has_reserved_job. do 2 apply wp_bind.
  eapply wp_list_rep_empty; [eapply qr_reserved; [apply HI|exact HC]|intros Hno|intros j0 Hj0]; apply wp_ret; cbn [negb].
  { wsteps. by apply (HQ P). }
  apply wp_bind. eapply wp_enqueue_reserved_jobs; [apply HIc|set_solver|eauto|].
  intros P' s' HI' Hd HF. pose proof (dr_stays _ _ _ _ _ _ Hd) as HS.
  assert (∀ j, j ∈ holds c P → is_Some (P' !! j)) as Hplaced.
  { intros j Hj%elem_of_holds. destruct (qr_place _ _ _ _ (qi_rep _ _ _ _ (sv_queue _ _ _ _ _ HI)) j _ Hj) as (J & t & T & HJ & _ & Ht & _).
    destruct (dr_lands _ _ _ _ _ _ Hd j J t) as [->|[->|(? & ? & -> & _)]]; eauto. by apply elem_of_holds. }
  eapply (HQ P'); [|by eapply stays_calm|].
  - eapply (srv_inv_moving none {[c]} {[c]} (holds c P)); [exact HIc|split; [done|done|by apply qframe_sframe]|done|].
    intros j Hj. split; [by apply placed_idle, Hplaced|]. eapply unowned_held; [done|exact Hc|by apply elem_of_holds].
  - intros j Hj. eapply (drains_holds _ _ _ _ _ _ c Hd) in Hj.
    + rewrite elem_of_holds in Hj. tauto.
    + intros C0 HC0. congruence.
    + intros y Hy%elem_of_holds.
      destruct (qr_place _ _ _ _ (qi_rep _ _ _ _ (sv_queue _ _ _ _ _ HI)) y _ Hy) as (J & t & T & HJ & _ & Ht & _). eauto.
Qed.

(** ** Its references *)

(** A reference for each tube of the list. *)
Definition held_refs (l : list tubep) : local := foldr bump none l.
Lemma held_refs_conns l : lc_conns (held_refs l) = ∅.
Proof. by induction l. Qed.
Lemma held_refs_count l t : NoDup l → held_refs l t = Z.b2z (bool_decide (t ∈ l)).
Proof.
  induction 1 as [|y l Hy Hnd IH]; [done|]. cbn [held_refs foldr bump lc_refs]. fold (held_refs l). rewrite IH.
  rewrite (bool_decide_ext (t ∈ y :: l) (t = y ∨ t ∈ l)) by apply elem_of_cons.
  destruct (bool_decide_reflect (t = y)) as [->|Hne]; [rewrite bool_decide_eq_false_2 by done; rewrite bool_decide_eq_true_2 by tauto; simpl; lia|].
  rewrite (bool_decide_ext (t = y ∨ t ∈ l) (t ∈ l)) by tauto. simpl. lia.
Qed.
Lemma held_refs_nonneg l t : 0 <= held_refs l t.
Proof. induction l; [done|]. cbn [held_refs foldr bump lc_refs]. fold (held_refs l). destruct (bool_decide _); simpl; lia. Qed.

(** The tubes that were watched lose a reference each. *)
Lemma wp_ignore_all X ids P l s (Q : unit → St → Prop) :
  srv_inv (held_refs l) X ids P s →
  (∀ s', srv_inv none X ids P s' → st_conns s' = st_conns s → Q tt s') → wp (forM l on_ignore) Q s.
Proof.
  revert s. induction l as [|t l IH]; intros s HI HQ; simpl; [by apply HQ|]. unfold on_ignore.
  change (held_refs (t :: l)) with (bump t (held_refs l)) in HI.
  destruct (srv_inv_listed _ _ _ _ _ t HI) as (_ & T & HT & _).
  { rewrite bump_eq. pose proof (refs_nonneg s t). pose proof (held_refs_nonneg l t). lia. }
  wsteps. eapply wp_tube_dref_srv; [eapply srv_inv_sim; [by apply (watching_ct_sim s t T)|exact HI]|apply held_refs_nonneg|].
  intros T' _ HI'. eapply IH; [exact HI'|]. intros s' HI2 HC2. apply HQ; [done|]. by rewrite HC2, derefd_conns.
Qed.

Lemma wp_unwatch ids P s c C (k : M unit) (Q : unit → St → Prop) :
  srv_inv none {[c]} ids P s → st_conns s !! c = Some C → conn_waiting C = false →
  (∀ s', srv_inv none {[c]} ids P s' → st_conns s' = <[c := C <| c_watch := ms_init |>]> (st_conns s) → wp k Q s') →
  wp (let '(removed, a) := ms_clear (c_watch C) in
      update st_conns c (fun C => C <| c_watch := a |>);; forM removed on_ignore;; k) Q s.
Proof.
  intros HI HC Hw HQ. destruct (ms_clear_spec (c_watch C)) as (l & -> & Hl).
  destruct (wr_watch _ _ (qi_wait _ _ _ _ (sv_queue _ _ _ _ _ HI)) c C HC) as [Hnd _].
  assert (NoDup l) as Hndl by (by rewrite Hl).
  eapply wp_bind, wp_update; [exact HC|]. cbv beta. apply wp_bind. eapply wp_ignore_all.
  - eapply (srv_inv_watched none (held_refs l) {[c]}); [exact HI|apply held_refs_nonneg|apply held_refs_conns|exact HC|done|constructor| |].
    + intros t Ht. by apply elem_of_nil in Ht.
    + intros y. rewrite (held_refs_count l y Hndl). rewrite bool_decide_eq_false_2 by apply not_elem_of_nil.
      rewrite (bool_decide_ext (y ∈ l) (y ∈ ms_items (c_watch C))) by (by rewrite Hl). cbn [none lc_refs]. simpl. lia.
  - intros s' HI' HC'. by apply HQ.
Qed.

(** ** Its end *)

(** [s'] is [s] without [c]. *)
Record departed c s s' : Prop := {
  dp_core : z_core s' = z_core s;
  dp_jobs : st_jobs s' = st_jobs s;
  dp_tubes : st_tubes s' = st_tubes s;
  dp_links n : n ≠ NReserved c → st_links s' !! n = st_links s !! n;
  dp_conns : same_but erase_tick (delete c (st_conns s)) (st_conns s');
  dp_timers : timers (st_conns s') (srv_conns s');
}.

(** Nothing points to [c]. *)
Record unneeded (P : places) (c : connp) (s : St) : Prop := {
  un_jobs j : P !! j ≠ Some (InReserved c);
  un_wait : ¬ listed s c;
}.

Section departed.
Context (ids : gmap Z jobp) (P : places) (c : connp) (s s' : St).
Context (HD : departed c s s').

Lemma departed_back c' C' : st_conns s' !! c' = Some C' →
  ∃ C0, st_conns s !! c' = Some C0 ∧ c' ≠ c ∧ erase_tick C' = erase_tick C0.
Proof.
  intros HC'. destruct (same_but_lookup_inv _ _ _ _ _ (dp_conns _ _ _ HD) HC') as (C0 & [? HC0]%lookup_delete_Some & He).
  exists C0. by split_and!.
Qed.
Lemma departed_forth c' C0 : st_conns s !! c' = Some C0 → c' ≠ c →
  ∃ C', st_conns s' !! c' = Some C' ∧ erase_tick C' = erase_tick C0.
Proof. intros HC Hne. eapply same_but_lookup; [apply HD|]. by rewrite lookup_delete_ne. Qed.

Lemma departed_queue : queue_rep P ids {[c]} s → unneeded P c s → queue_rep P ids ∅ s'.
Proof.
  intros [Hpl Hid Hre Hde Hbu Hrs Hfr Htu Hco Hso Hli] [Hno _].
  pose proof (dp_jobs _ _ _ HD) as HJ. pose proof (dp_tubes _ _ _ HD) as HT.
  assert (tubes s' = tubes s) as Hset by exact (f_equal tubes (dp_core _ _ _ HD)).
  assert (∀ h M, h ≠ NReserved c → (∃ t, h = NBuried t) ∨ (∃ c', h = NReserved c') →
    list_rep (st_links s) h M → list_rep (st_links s') h M) as Hlist.
  { intros h M Hh Hk. apply list_rep_ext. intros n [->|(x & -> & _)]; by apply HD. }
  split; rewrite ?HJ, ?HT, ?Hset; try done.
  - intros j p Hj. destruct (Hpl j p Hj) as (J & t & T & ? & ? & ? & ? & Hc'). exists J, t, T.
    split_and!; [done..|]. intros c' ->. destruct (Hc' c' eq_refl) as [C0 HC0].
    destruct (departed_forth c' C0 HC0) as (C' & ? & _); [|eauto]. intros ->. by eapply Hno.
  - intros t T HTt. apply Hlist; [done|eauto|by eapply Hbu].
  - intros c' C' HC'. destruct (departed_back _ _ HC') as (C0 & HC0 & Hne & _).
    apply Hlist; [congruence|eauto|by eapply Hrs].
  - intros j J HJj Hp. unfold isolated. rewrite (dp_links _ _ _ HD) by done. by eapply Hfr.
  - apply HD.
  - intros c' C' j _ HC' Hs. destruct (departed_back _ _ HC') as (C0 & HC0 & Hne & He).
    eapply Hso; [set_solver|exact HC0|]. rewrite <- Hs. exact (eq_sym (f_equal c_soonest_job He)).
Qed.

Lemma departed_wait : wait_rep ∅ s → unneeded P c s → wait_rep ∅ s'.
Proof.
  intros [W1 W2 W3] [_ Hl]. split; rewrite ?(dp_tubes _ _ _ HD); [|done|].
  - intros c' C' HC'. destruct (departed_back _ _ HC') as (C0 & HC0 & _ & He).
    assert (c_watch C' = c_watch C0) as -> by exact (f_equal c_watch He). by eapply W1.
  - intros t T x HT Hx. destruct (W3 t T x HT Hx) as (C0 & HC0 & Hin & Hw).
    destruct (departed_forth x C0 HC0) as (C' & HC' & He); [intros ->; apply Hl; by exists t, T|].
    assert (c_watch C' = c_watch C0) as Hwa by exact (f_equal c_watch He).
    assert (c_type C' = c_type C0) as Hty by exact (f_equal c_type He).
    exists C'. rewrite Hwa. unfold conn_waiting. rewrite Hty. by split_and!.
Qed.

Lemma departed_refs C u t :
  st_conns s !! c = Some C → c_use C = Some u → ms_items (c_watch C) = [] → refs s' t + bump u none t = refs s t.
Proof.
  intros HC Hu Hw. unfold refs. rewrite (dp_jobs _ _ _ HD).
  assert (default_tube s' = default_tube s) as -> by exact (f_equal default_tube (dp_core _ _ _ HD)).
  rewrite (count_same_but (λ C, c_use C = Some t) erase_tick _ _) by
    first [apply HD|intros A B He; assert (c_use B = c_use A) as -> by exact (f_equal c_use He); done].
  rewrite (count_same_but (watches t) erase_tick _ _) by
    first [apply HD|intros A B He; unfold watches; assert (c_watch B = c_watch A) as -> by exact (f_equal c_watch He); done].
  rewrite (count_delete (λ C, c_use C = Some t) _ _ _ HC), (count_delete (watches t) _ _ _ HC).
  rewrite (bool_decide_eq_false_2 (watches t C)) by (unfold watches; rewrite Hw; apply not_elem_of_nil). rewrite Hu.
  cbn [bump lc_refs none]. rewrite (bool_decide_ext (Some u = Some t) (t = u)) by naive_solver. simpl. lia.
Qed.

Lemma departed_known : srv_inv none {[c]} ids P s → ∀ c', known P s' c'.
Proof.
  intros HI c' C' HC' Hs. destruct (departed_back _ _ HC') as (C0 & HC0 & Hne & He).
  eapply (sv_known _ _ _ _ _ HI c'); [set_solver|exact HC0|]. rewrite <- Hs. exact (eq_sym (f_equal c_soonest_job He)).
Qed.

Lemma srv_inv_departed C u :
  srv_inv none {[c]} ids P s → unneeded P c s → st_conns s !! c = Some C → c_use C = Some u →
  ms_items (c_watch C) = [] → srv_inv (bump u none) ∅ ids P s'.
Proof.
  intros HI Hun HC Hu Hw. pose proof HI as [[HR HW _] HT [Hct Hl Huse _] Hn Hi _ Hlog Hown].
  pose proof (λ t, departed_refs C u t HC Hu Hw) as Hr. pose proof (departed_known HI) as Hk.
  assert (st_table s' = st_table s) as Htab by exact (f_equal st_table (dp_core _ _ _ HD)).
  assert (tubes s' = tubes s) as Hset by exact (f_equal tubes (dp_core _ _ _ HD)).
  assert (srv_wal s' = srv_wal s) as Hwal by exact (f_equal srv_wal (dp_core _ _ _ HD)).
  pose proof (dp_jobs _ _ _ HD) as HJ.
  split.
  - split; [by apply departed_queue|by apply departed_wait|]. intros c' C' HC' _. split; [set_solver|by apply Hk].
  - by rewrite HJ, Htab.
  - split.
    + intros t T. rewrite (dp_tubes _ _ _ HD), Hr. intros HTt. rewrite (Hct t T HTt). cbn [none lc_refs]. lia.
    + intros t. rewrite Hr, Hset. intros Hp. apply Hl. cbn [none lc_refs]. lia.
    + intros c' C' HC'. destruct (departed_back _ _ HC') as (C0 & HC0 & _ & He).
      assert (c_use C' = c_use C0) as -> by exact (f_equal c_use He). by eapply Huse.
    + intros t. cbn [bump lc_refs none]. destruct (bool_decide _); simpl; lia.
  - by rewrite Htab.
  - intros j. apply (idle_at_same P P s); [done|by rewrite HJ|apply Hi].
  - intros c' _. apply Hk.
  - destruct Hlog as [L1 L2 L3 L4]. split; [|by rewrite Hwal..|by rewrite HJ]. unfold no_log in *. by rewrite Hwal.
  - rewrite HJ. change (lc_conns (bump u none)) with (lc_conns none).
    eapply (owns_same _ _ _ _ (delete c (st_conns s))); [done|by eapply (same_but_mono erase_tick), HD|].
    destruct Hown as [O1 O2 O3 O4]. split.
    + intros c' C' [_ HC']%lookup_delete_Some. by eapply O1.
    + intros c' C' Hc' [_ HC']%lookup_delete_Some. by eapply O2.
    + intros c1 c2 C1 C2 j H1 H2 [_ HC1]%lookup_delete_Some [_ HC2]%lookup_delete_Some. by eapply O3.
    + intros c1 c2 C1 C2 j H1 H2 [_ HC1]%lookup_delete_Some [_ HC2]%lookup_delete_Some. by eapply O4.
Qed.
End departed.

Lemma derefd_core s s' u U :
  z_core s' = z_core s → z_core (derefd s' u U) = z_core (derefd s u U).
Proof.
  intros H. unfold derefd. case_match; [|exact H].
  assert (tubes s' = tubes s) as Ht by exact (f_equal tubes H).
  apply (f_equal (λ s : St, s <| tubes := match ms_remove u (tubes s) with Some (_, a') => a' | None => tubes s end |>)) in H.
  exact H.
Qed.

Lemma wp_leave ids P s c C u (Q : unit → St → Prop) :
  srv_inv none {[c]} ids P s → unneeded P c s → st_conns s !! c = Some C → c_use C = Some u →
  ms_items (c_watch C) = [] →
  (∀ s', st_conns s' !! c = None → (c ∈ elems (srv_conns s') ∨ srv_inv none ∅ ids P s') → Q tt s') →
  wp (TUBE_ASSIGN (Some u) (update st_conns c (fun C => C <| c_use := None |>)) None;;
      C ← deref st_conns c;
      (if c_in_conns C then
         conns_heapremove (c_tickpos C);; update st_conns c (fun C => C <| c_in_conns := false |>)
       else mret tt);;
      modify (fun s => s <| st_links ::= delete (NReserved c) |>);;
      free st_conns c) Q s.
Proof.
  intros HI Hun HC Hu Hw HQ. destruct (used_tube _ _ _ _ _ _ _ HI HC) as (u' & U & Hu' & HU & _).
  assert (u' = u) as -> by congruence.
  assert (1 <= t_refs U) as Href.
  { rewrite (rf_count _ _ (sv_refs _ _ _ _ _ HI) u U HU). cbn [none lc_refs]. unfold refs.
    pose proof (count_pos (λ C, c_use C = Some u) _ _ _ HC Hu). pose proof (count_nonneg (λ J, j_tube J = Some u) (st_jobs s)).
    pose proof (count_nonneg (watches u) (st_conns s)). destruct (bool_decide _); simpl; lia. }
  set (s1 := derefd s u U). pose proof (derefd_conns s u U) as HC1. fold s1 in HC1.
  assert (srv_conns s1 = srv_conns s) as Hh1 by (unfold s1, derefd; by case_match).
  pose proof (qr_conns _ _ _ _ (qi_rep _ _ _ _ (sv_queue _ _ _ _ _ HI))) as Htm.
  (* the last two steps, from a state whose timers are right *)
  assert (∀ s2, z_core s2 = z_core s1 → st_jobs s2 = st_jobs s1 → st_tubes s2 = st_tubes s1 → st_links s2 = st_links s1 →
    same_but erase_tick (<[c := C <| c_use := None |>]> (st_conns s)) (st_conns s2) →
    timers (st_conns s2) (srv_conns s2) →
    wp (modify (fun s => s <| st_links ::= delete (NReserved c) |>);; free st_conns c) Q s2) as Hend.
  { intros s2 Hz HJ HT HL HCs [Hsh Hlive].
    assert (is_Some (st_conns s2 !! c)) as [C2 HC2].
    { destruct (same_but_lookup _ _ _ _ _ HCs (lookup_insert_eq _ _ _)) as (? & ? & _). eauto. }
    wsteps. match goal with |- Q _ ?s' => set (s3 := s') end. apply HQ; [unfold s3; rsimpl; apply lookup_delete_eq|].
    destruct (decide (c ∈ elems (srv_conns s2))) as [Hin|Hnin]; [by left|right].
    set (v := s <| st_conns := st_conns s3 |> <| st_links ::= delete (NReserved c) |> <| srv_conns := srv_conns s2 |>).
    assert (departed c s v) as HD.
    { split; try done; unfold v, s3; rsimpl.
      - intros n Hn. by rewrite lookup_delete_ne.
      - unfold same_but in *. rewrite !fmap_delete, HCs, <- fmap_delete, delete_insert_eq. by rewrite fmap_delete.
      - split; [exact Hsh|]. intros y Hy. rewrite lookup_delete_ne; [by apply Hlive|]. by intros ->. }
    destruct (srv_inv_derefd none ∅ ids P v u U) as [_ HIv]; [by eapply srv_inv_departed|done|exact HU|].
    eapply srv_inv_sim; [|exact HIv].
    assert (z_core s3 = z_core (derefd v u U)) as Hz3.
    { transitivity (z_core s2); [done|]. rewrite Hz. by apply derefd_core. }
    assert (st_jobs s3 = st_jobs (derefd v u U)) as HJ3.
    { rewrite derefd_jobs. change (st_jobs s2 = st_jobs s). rewrite HJ; apply derefd_jobs. }
    assert (st_tubes s3 = st_tubes (derefd v u U)) as HT3.
    { change (st_tubes s2 = st_tubes (derefd v u U)). rewrite HT. unfold s1, derefd. by case_match. }
    assert (st_links s3 = st_links (derefd v u U)) as HL3.
    { change (delete (NReserved c) (st_links s2) = st_links (derefd v u U)). rewrite HL. unfold s1, derefd.
      case_match; [|done]. unfold dropped. rsimpl. apply delete_delete. }
    assert (st_conns s3 = st_conns (derefd v u U)) as HC3 by (by rewrite derefd_conns).
    assert (srv_conns s3 = srv_conns (derefd v u U)) as Hh3 by (unfold derefd; by case_match).
    split; split; rewrite ?HJ3, ?HT3, ?HL3, ?HC3, ?Hh3; try done.
    - exact (f_equal (λ s, ms_items (tubes s)) Hz3).
    - exact (f_equal st_table Hz3).
    - exact (f_equal (λ s, ms_items (tubes s)) Hz3).
    - exact (f_equal default_tube Hz3).
    - exact (f_equal srv_wal Hz3). }
  unfold TUBE_ASSIGN. do 2 apply wp_bind. eapply wp_tube_dref; [exact HU|done|]. fold s1.
  assert (st_conns s1 !! c = Some C) as HC' by (by rewrite HC1). unfold tube_iref. wsteps.
  set (C1 := C <| c_use := None |>). set (s2 := s1 <| st_conns ::= <[c := C1]> |>).
  assert (st_conns s2 = <[c := C1]> (st_conns s)) as HC2 by (unfold s2; rsimpl; by rewrite HC1).
  assert (timers (st_conns s2) (srv_conns s2)) as Htm2.
  { change (srv_conns s2) with (srv_conns s1). rewrite Hh1. eapply timers_dom; [|exact Htm].
    rewrite HC2, dom_insert. set_solver. }
  change (c_in_conns C1) with (c_in_conns C). destruct (c_in_conns C).
  - wsteps. apply wp_conns_heapremove; [exact Htm2|]. intros r s3 [Hz Hj Ht Hl Hc Hsh] _.
    assert (is_Some (st_conns s3 !! c)) as [C3 HC3].
    { destruct (same_but_lookup _ _ _ c C1 Hc) as (? & ? & _); [rewrite HC2; apply lookup_insert_eq|eauto]. }
    wstep. apply Hend; try done.
    + rsimpl. transitivity (st_conns s3); [rewrite HC2 in Hc; exact Hc|]. eapply same_but_insert; [done|exact HC3|done].
    + rsimpl. eapply timers_dom; [|apply Hsh, Htm2]. rewrite dom_insert.
      rewrite (same_but_dom _ _ _ Hc). set_solver.
  - wstep. apply Hend; try done. by rewrite HC2.
Qed.

Lemma calm_unlisted x X ids P s c : srv_inv x X ids P s → calm c s → ¬ listed s c.
Proof.
  intros HI (C & HC & Hw & _) (t & T & HT & Hin).
  destruct (wr_sound _ _ (qi_wait _ _ _ _ (sv_queue _ _ _ _ _ HI)) t T c HT Hin) as (C' & ? & _ & Hw').
  assert (C' = C) as -> by congruence. rewrite Hw' in Hw; [done|set_solver].
Qed.

(** The counters of connections. *)
Lemma wp_count_if (b : bool) f (k : M unit) s (Q : unit → St → Prop) :
  (∀ s', srv_sim s s' → st_conns s' = st_conns s → wp k Q s') →
  wp ((if b then upd_counts f else mret tt);; k) Q s.
Proof. intros HQ. apply wp_bind. destruct b; unfold upd_counts; wsteps; (apply HQ; [|done]); first [done|solve_sim]. Qed.

(** A connection in the state [STATE_CLOSE] is closed. *)
Lemma wp_connclose ids P s c C :
  srv_inv none ∅ ids P s → st_conns s !! c = Some C → c_state C = STATE_CLOSE →
  wp (connclose c) (λ _ s', st_conns s' !! c = None ∧ (c ∈ elems (srv_conns s') ∨ sound s')) s.
Proof.
  intros HI HC Hst. unfold connclose.
  (* the socket *)
  apply wp_bind. eapply (wp_mono _ (λ _ s', srv_inv none ∅ ids P s' ∧ ∃ C', st_conns s' !! c = Some C' ∧ c_state C' = STATE_CLOSE)).
  { unfold sockwant. wsteps. case_match; [wsteps; eauto|]. destruct (negb (c_added C)); wsteps; apply wp_tick; wsteps.
    - split; [eapply srv_inv_sim; [|exact HI]; etrans; [by apply (conn_sim s c C (C <| c_added := true |>))|apply tick_sim]|].
      exists (C <| c_added := true |>). rsimpl. by rewrite lookup_insert_eq.
    - split; [eapply srv_inv_sim; [apply tick_sim|exact HI]|by exists C]. }
  clear dependent C. intros _ s1 (HI1 & C & HC & Hst). wstep. wstep. do 2 wstep.
  set (s2 := s1 <| st_trace ::= cons _ |>).
  assert (srv_inv none ∅ ids P s2) as HI2 by (eapply srv_inv_sim; [|exact HI1]; solve_sim).
  (* its jobs *)
  eapply wp_drop_jobs; [exact HI2|exact HC|done|]. intros ids3 s3 HI3 HC3.
  assert (conn_waiting (dropped_jobs C) = false) as Hw.
  { eapply conn_waits; [exact HI3|rewrite HC3; apply lookup_insert_eq|].
    change (c_state C ≠ STATE_WAIT). congruence. }
  assert (calm c s3) as Hc3.
  { exists (dropped_jobs C). rewrite HC3, lookup_insert_eq. split; [done|]. split_and!; [done..|]. split; [|done].
    eapply oc_inbuf, conn_own; [exact HI3|]. rewrite HC3. apply lookup_insert_eq. }
  apply wp_count_if. intros s4 Hs4 HC4. apply wp_count_if. intros s5 Hs5 HC5.
  apply (wp_count_if true). intros s6 Hs6 HC6.
  assert (srv_inv none ∅ ids3 P s6) as HI6 by (do 3 (eapply srv_inv_sim; [eassumption|]); done).
  assert (calm c s6) as Hc6 by (unfold calm; by rewrite HC6, HC5, HC4).
  pose proof Hc6 as (C6 & HC6' & Hw6 & _).
  apply wp_bind. unfold remove_waiting_conn. wstep. wstep. rewrite Hw6. cbn [negb]. wstep.
  eapply wp_give_back_all; [exact HI6|exact Hc6|]. intros P7 s7 HI7 Hc7 Hno.
  pose proof (calm_unlisted _ _ _ _ _ _ HI7 Hc7) as Hul. pose proof Hc7 as (C7 & HC7 & Hw7 & _).
  (* its tubes *)
  wstep. wstep. eapply wp_unwatch; [exact HI7|exact HC7|done|]. intros s8 HI8 HC8.
  destruct (rf_use _ _ (sv_refs _ _ _ _ _ HI7) c C7 HC7) as [u Hu]. rewrite Hu.
  assert (st_conns s8 !! c = Some (C7 <| c_watch := ms_init |>)) as HC8' by (rewrite HC8; apply lookup_insert_eq).
  destruct (used_tube _ _ _ _ _ _ _ HI8 HC8') as (u' & U & Hu' & HU & _).
  assert (u' = u) as -> by (change (c_use C7 = Some u') in Hu'; congruence). do 2 wstep. wstep. wstep.
  match goal with |- wp _ _ ?s' => set (s9 := s') end.
  assert (srv_inv none {[c]} ids3 P7 s9) as HI9 by (eapply srv_inv_sim; [by apply using_ct_sim|exact HI8]).
  eapply wp_leave; [exact HI9| |exact HC8'|exact Hu|done|].
  - split; [done|]. eapply calm_unlisted; [exact HI9|]. eexists. split; [exact HC8'|].
    destruct Hc7 as (C7' & HC7' & Hr). assert (C7' = C7) as -> by congruence. exact Hr.
  - intros s' Hc' [?|HI']; (split; [done|]); [by left|right]. by exists ids3, P7.
Qed.
End closing.
