(* ===== verification/Accepting.v ===== *)
(** [make_conn] and [h_accept] on the invariant of the server: a new connection
    uses and watches the default tube. *)
From S2P Require Import Prelude Heap Ms State Monad JobList JobHash Tube Job Wal Conn Queue QueueRep QueueOps QueueConn QueueProc Process Runs Owners QueueCmds QueueLoops Refs Life Sound Parse ParseSpec Stats Dispatch Commands Reserving Naming Putting Frames Tame Server Handlers Loop Pending Closing.
#[local] Open Scope Z_scope.

(** [s'] is [s] with the new connection [c]. *)
Record arrived c (C : Conn) s s' : Prop := {
  ar_core : z_core s' = z_core s;
  ar_jobs : st_jobs s' = st_jobs s;
  ar_tubes : st_tubes s' = st_tubes s;
  ar_heap : srv_conns s' = srv_conns s;
  ar_links n : n ≠ NReserved c → st_links s' !! n = st_links s !! n;
  ar_self : isolated (st_links s') (NReserved c);
  ar_fresh : st_conns s !! c = None;
  ar_conns : st_conns s' = <[c := C]> (st_conns s);
}.

Section arrived.
Implicit Types (P : places) (ids : gmap Z jobp) (s : St) (t : tubep).
Context (ids : gmap Z jobp) (P : places) (c : connp) (C : Conn) (s s' : St) (t : tubep).
Context (HA : arrived c C s s').
Context (HI : srv_inv (bump t (bump t none)) ∅ ids P s).
Context (Huse : c_use C = Some t) (Hwatch : ms_items (c_watch C) = [t]).
Context (Hwait : conn_waiting C = false) (Hsoon : c_soonest_job C = None).

Lemma arrived_live c' : is_Some (st_conns s !! c') → is_Some (st_conns s' !! c').
Proof.
  intros [C' HC']. rewrite (ar_conns _ _ _ _ HA), lookup_insert_ne; [eauto|].
  intros <-. pose proof (ar_fresh _ _ _ _ HA). congruence.
Qed.
Lemma arrived_none j : P !! j ≠ Some (InReserved c).
Proof.
  intros Hj. destruct (qr_place _ _ _ _ (qi_rep _ _ _ _ (sv_queue _ _ _ _ _ HI)) j _ Hj) as (_ & _ & _ & _ & _ & _ & _ & Hc).
  destruct (Hc c eq_refl) as [C' HC']. pose proof (ar_fresh _ _ _ _ HA). congruence.
Qed.

Lemma arrived_queue : queue_rep P ids ∅ s'.
Proof.
  destruct (qi_rep _ _ _ _ (sv_queue _ _ _ _ _ HI)) as [Hpl Hid Hre Hde Hbu Hrs Hfr Htu [Hsh Hlv] Hso Hli].
  pose proof (ar_jobs _ _ _ _ HA) as HJ. pose proof (ar_tubes _ _ _ _ HA) as HT.
  assert (tubes s' = tubes s) as Hset by exact (f_equal tubes (ar_core _ _ _ _ HA)).
  assert (∀ h M, h ≠ NReserved c → list_rep (st_links s) h M → list_rep (st_links s') h M) as Hlist.
  { intros h M Hh. apply list_rep_ext. intros n [->|(x & -> & _)]; by apply HA. }
  split; rewrite ?HJ, ?HT, ?Hset, ?(ar_heap _ _ _ _ HA); try done.
  - intros j p Hj. destruct (Hpl j p Hj) as (J & t' & T & ? & ? & ? & ? & Hc'). exists J, t', T.
    split_and!; [done..|]. intros c' ->. by apply arrived_live, Hc'.
  - intros t' T HTt. apply Hlist; [done|by eapply Hbu].
  - intros c' C'. rewrite (ar_conns _ _ _ _ HA). intros [[<- <-]|[Hne HC']]%lookup_insert_Some.
    + exists []. split; [apply dll_nil, HA|]. intros j. split; [by intros ?%elem_of_nil|]. by intros ?%arrived_none.
    + apply Hlist; [congruence|by eapply Hrs].
  - intros j J HJj Hp. unfold isolated. rewrite (ar_links _ _ _ _ HA) by done. by eapply Hfr.
  - split; [done|]. intros c' Hc'. by apply arrived_live, Hlv.
  - intros c' C' j _. rewrite (ar_conns _ _ _ _ HA). intros [[<- <-]|[Hne HC']]%lookup_insert_Some; [congruence|].
    eapply Hso; [set_solver|done].
Qed.

Lemma arrived_wait : wait_rep ∅ s'.
Proof.
  destruct (qi_wait _ _ _ _ (sv_queue _ _ _ _ _ HI)) as [W1 W2 W3].
  split; rewrite ?(ar_tubes _ _ _ _ HA), ?(ar_conns _ _ _ _ HA); [|done|].
  - intros c' C' [[<- <-]|[_ HC']]%lookup_insert_Some; [|by eapply W1]. rewrite Hwatch.
    split; [apply NoDup_singleton|]. intros t' ->%list_elem_of_singleton.
    destruct (srv_inv_listed _ _ _ _ _ t HI) as (_ & T & HT & _); [|eauto].
    rewrite !bump_eq. pose proof (refs_nonneg s t). cbn [none lc_refs]. lia.
  - intros t' T x HT Hx. destruct (W3 t' T x HT Hx) as (C0 & HC0 & ? & ?).
    rewrite lookup_insert_ne; [eauto|]. intros <-. pose proof (ar_fresh _ _ _ _ HA). congruence.
Qed.

Lemma arrived_refs t' : refs s' t' + none t' = refs s t' + bump t (bump t none) t'.
Proof.
  unfold refs. rewrite (ar_jobs _ _ _ _ HA), (ar_conns _ _ _ _ HA).
  assert (default_tube s' = default_tube s) as -> by exact (f_equal default_tube (ar_core _ _ _ _ HA)).
  rewrite !count_insert by apply HA. rewrite Huse.
  rewrite (bool_decide_ext (Some t = Some t') (t' = t)) by naive_solver.
  rewrite (bool_decide_ext (watches t' C) (t' = t)) by (unfold watches; rewrite Hwatch; apply list_elem_of_singleton).
  cbn [bump lc_refs none]. lia.
Qed.

Lemma srv_inv_arrived : srv_inv (acting c none) ∅ ids P s'.
Proof.
  pose proof arrived_refs as Hr. pose proof HI as [_ HT [Hct Hl Hu _] Hn Hi Hk Hlog Hown].
  assert (st_table s' = st_table s) as Htab by exact (f_equal st_table (ar_core _ _ _ _ HA)).
  assert (tubes s' = tubes s) as Hset by exact (f_equal tubes (ar_core _ _ _ _ HA)).
  assert (srv_wal s' = srv_wal s) as Hwal by exact (f_equal srv_wal (ar_core _ _ _ _ HA)).
  pose proof (ar_jobs _ _ _ _ HA) as HJ.
  assert (∀ c', known P s' c') as Hkn.
  { intros c' C'. rewrite (ar_conns _ _ _ _ HA). intros [[<- <-]|[_ HC']]%lookup_insert_Some Hs; [apply arrived_none|].
    by eapply Hk. }
  split.
  - split; [apply arrived_queue|apply arrived_wait|]. intros c' C' HC' _. split; [set_solver|by apply Hkn].
  - by rewrite HJ, Htab.
  - change (lc_refs (acting c none)) with (lc_refs none). split.
    + intros t' T. rewrite (ar_tubes _ _ _ _ HA), Hr. apply Hct.
    + intros t'. rewrite Hr, Hset. apply Hl.
    + intros c' C'. rewrite (ar_conns _ _ _ _ HA). intros [[<- <-]|[_ HC']]%lookup_insert_Some; [eauto|by eapply Hu].
    + done.
  - by rewrite Htab.
  - intros j. apply (idle_at_same P P s); [done|by rewrite HJ|apply Hi].
  - intros c' _. apply Hkn.
  - destruct Hlog as [L1 L2 L3 L4]. split; [|by rewrite Hwal..|by rewrite HJ]. unfold no_log in *. by rewrite Hwal.
  - rewrite HJ, (ar_conns _ _ _ _ HA). apply owns_insert_in; [set_solver|congruence|]. by apply owns_enter.
Qed.
End arrived.

Section accept.
Context {E : Env} {SI : SysInfo} {N : Net}.
Implicit Types (P : places) (ids : gmap Z jobp) (s : St) (t : tubep) (c : connp) (C : Conn).

(** A connection that has just been made, but for its descriptor. *)
Record newborn (C : Conn) : Prop := {
  nb_wait : conn_waiting C = false;
  nb_in : c_in_job C = None;
  nb_out : c_out_job C = None;
  nb_state : c_state C = STATE_WANT_COMMAND;
  nb_buf : c_cmd_len C = 0%nat ∧ c_cmd_read C = 0%nat ∧ c_in_job_read C = 0;
}.

Lemma wp_make_conn ids P s t (Q : option connp → St → Prop) :
  srv_inv none ∅ ids P s → t ∈ ms_items (tubes s) → refs s t + 1 < UINT32_MAX →
  (∀ n, Q None (s <| st_tick := n |>)) →
  (∀ c C s', srv_inv (acting c none) ∅ ids P s' → st_conns s !! c = None →
     st_conns s' = <[c := C]> (st_conns s) → newborn C → st_jobs s' = st_jobs s → epollq s' = epollq s →
     z_core s' = z_core s → Q (Some c) s') →
  wp (make_conn STATE_WANT_COMMAND t t) Q s.
Proof.
  intros HI Hin Hmax HN HS. unfold make_conn. destruct (srv_inv_tube _ _ _ _ _ _ HI Hin) as [T HT].
  apply wp_bind, wp_malloc; [done|wsteps; apply HN|]. intros c Hc. set (s1 := s <| st_tick ::= S |>).
  apply wp_bind, wp_ms_append. intros n b a Ha. cbv beta iota.
  destruct Ha as [[-> Ha]|[-> ->]]; cbn [negb].
  2: { wsteps. match goal with |- Q None ?s' => replace s' with (s <| st_tick := n |>); [apply HN|] end.
       destruct s; unfold rupd, set_st_conns, set_st_tick; simpl in *. f_equal. by rewrite delete_insert_id. }
  unfold on_watch, TUBE_ASSIGN, tube_dref, tube_iref, job_list_reset, put_link, upd_counts. wsteps.
  match goal with |- Q _ ?s' => set (s2 := s') end.
  (* the references, and then the connection *)
  set (T1 := T <| t_refs := wrap_u32 (t_refs T + 1) |>).
  set (T2 := T1 <| t_refs := wrap_u32 (t_refs T1 + 1) |>).
  pose proof (srv_inv_ireffed none ∅ ids P s t T HI Hin HT) as HI1.
  rewrite (Z.add_0_r (refs s t) : refs s t + none t = refs s t) in HI1. specialize (HI1 ltac:(lia)). fold T1 in HI1.
  set (v1 := s <| st_tubes ::= <[t := T1]> |>) in *.
  assert (srv_inv (bump t (bump t none)) ∅ ids P (v1 <| st_tubes ::= <[t := T2]> |>)) as HI2.
  { apply (srv_inv_ireffed (bump t none) ∅ ids P v1 t T1 HI1 Hin); [unfold v1; rsimpl; apply lookup_insert_eq|].
    change (refs v1 t) with (refs s t). rewrite bump_eq. cbn [none lc_refs]. lia. }
  destruct (st_tubes s2 !! t) as [T5|] eqn:HT5; [|unfold s2 in HT5; rsimpl; by rewrite lookup_insert_eq in HT5].
  assert (st_tubes s2 = <[t := T5]> (st_tubes s)) as Hts.
  { unfold s2 in HT5 |- *. rsimpl. rewrite lookup_insert_eq in HT5. injection HT5 as <-. by rewrite !insert_insert_eq. }
  set (v := s <| st_tubes ::= <[t := T5]> |>).
  assert (srv_inv (bump t (bump t none)) ∅ ids P v) as HIv.
  { eapply srv_inv_sim; [|exact HI2]. unfold s2 in HT5. rsimpl. rewrite lookup_insert_eq in HT5. injection HT5 as <-.
    unfold v1, v. solve_sim. }
  destruct (st_conns s2 !! c) as [C|] eqn:HC; [|unfold s2 in HC; rsimpl; by rewrite lookup_insert_eq in HC].
  assert (st_conns s2 = <[c := C]> (st_conns s)) as Hcs.
  { unfold s2 in HC |- *. rsimpl. rewrite lookup_insert_eq in HC. injection HC as <-. by rewrite !insert_insert_eq. }
  assert (newborn C ∧ c_use C = Some t ∧ ms_items (c_watch C) = [t] ∧ c_soonest_job C = None) as (Hnb & Hu & Hw & Hs).
  { unfold s2 in HC. rsimpl. rewrite lookup_insert_eq in HC. injection HC as <-. rsimpl. by split_and!. }
  apply (HS c C); try done. eapply (srv_inv_arrived ids P c C v s2 t); [|done..|apply Hnb|done].
  split; try done.
  - intros n' Hn'. unfold s2. rsimpl. by rewrite lookup_insert_ne.
  - unfold isolated, s2. rsimpl. apply lookup_insert_eq.
Qed.

(** The descriptor is stored. *)
Lemma newborn_settle ids P s c C fd :
  srv_inv (acting c none) ∅ ids P s → st_conns s !! c = Some C → newborn C → fd ≠ 0 →
  srv_inv none ∅ ids P (s <| st_conns ::= <[c := C <| c_fd := fd |>]> |>).
Proof.
  intros HI HC [Hw Hi Ho Hst (Hl & Hr & Hz)] Hfd. eapply srv_inv_settle; [exact HI|exact HC|done..| | | |].
  - change (conn_waiting C = true → c_state C = STATE_WAIT). congruence.
  - eapply rest_own; [|exact Hst|done..]. split_and!; [done..|]. split; [|done].
    unfold inbuf. rsimpl. rewrite Hl, Hr, Hz. split_and!; [done|lia..].
  - intros j Hj. change (c_in_job C = Some j) in Hj. congruence.
  - intros j Hj. change (c_out_job C = Some j) in Hj. congruence.
Qed.
End accept.
