(* ===== verification/Events.v ===== *)
(** Events on the invariant of the server: whatever a connection sends or does
    not receive, the event is handled and the invariant holds again. *)
From S2P Require Import Prelude Heap Ms State Monad JobList JobHash Tube Job Wal Conn Queue QueueRep QueueOps QueueConn QueueProc Process Runs Owners QueueCmds QueueLoops Refs Life Sound Parse ParseSpec Stats Dispatch Commands Naming Putting Frames Tame QueueSpec Safety Server Handlers Loop Pending Closing Accepting.
#[local] Open Scope Z_scope.

(** The parts of the state that [sound] does not speak of are in order, with room
    for [n] more objects. *)
Record at_ease (n : nat) (s : St) : Prop := {
  ae_sized : sized s;
  ae_queue : epollq s = None;
  ae_room : roomy n s;
  ae_default : is_Some (default_tube s);
}.
(** The server between two events. *)
Definition resting (n : nat) (s : St) : Prop := sound s ∧ at_ease n s.
(** What the commands of one buffer can allocate. *)
Definition EVENT_OBJECTS : nat := 2 * LINE_BUF_SIZE.

Lemma roomy_modest n k s s' : modest_step k s s' → roomy (n + k) s → roomy n s'.
Proof.
  intros [_ HD HS HN _] [H1 H2 H3]. specialize (HN (proj1 H1)).
  apply subseteq_size in HD. rewrite !size_dom in HD. split; lia.
Qed.

Section events.
Context {E : Env} {SI : SysInfo} {N : Net}.
Implicit Types (P : places) (ids : gmap Z jobp) (s : St) (c : connp) (C : Conn).

Lemma sound_shuffled s s' : shuffled s s' → sound s → sound s'.
Proof. intros Hs (ids & P & HI). exists ids, P. eapply srv_inv_sim; [by apply shuffled_sim|done]. Qed.

Lemma unlisted x X ids P s c C : srv_inv x X ids P s → st_conns s !! c = Some C → conn_waiting C = false → ¬ listed s c.
Proof.
  intros HI HC Hw (t & T & HT & Hin).
  destruct (wr_sound _ _ (qi_wait _ _ _ _ (sv_queue _ _ _ _ _ HI)) t T c HT Hin) as (C' & ? & _ & Hw').
  assert (C' = C) as -> by congruence. rewrite Hw' in Hw; [done|set_solver].
Qed.

(** The end of an event: what may be left of [c]. *)
Definition left_by (c : connp) (s : St) : Prop := sound s ∨ (st_conns s !! c = None ∧ c ∈ elems (srv_conns s)).

(** The connection is closed if it has to be. *)
Lemma wp_hang_up c s (k : M unit) (Q : unit → St → Prop) :
  sound s → sized s → linked ∅ s → is_Some (st_conns s !! c) →
  (∀ s', left_by c s' → modest_step 0 s s' → linked ∅ s' → wp k Q s') →
  wp (C ← deref st_conns c;
      (if decide (c_state C = STATE_CLOSE) then epollq_rmconn c;; connclose c else mret tt);; k) Q s.
Proof.
  intros HI Hz Hl [C HC] HQ. apply wp_bind. eapply wp_deref; [done|]. apply wp_bind. case_decide as Hst.
  2: { apply wp_ret, HQ; [by left| |done]. split; [done|done|lia|lia|done]. }
  apply wp_bind, wp_epollq_rmconn; [done|]. intros s1 Hs1 Hl1.
  pose proof (sound_shuffled _ _ Hs1 HI) as (ids & P & HI1).
  destruct (same_but_lookup _ _ _ _ _ (sh_conns _ _ Hs1) HC) as (C1 & HC1 & He).
  assert (c_state C1 = STATE_CLOSE) as Hst1 by (rewrite <- Hst; exact (f_equal c_state He)).
  assert (gone c s1) as Hg.
  { split; [|done]. eapply unlisted; [exact HI1|exact HC1|]. eapply conn_waits; [exact HI1|exact HC1|congruence]. }
  assert (modest_step 0 s s1) as Hm1.
  { split.
    - intros j J. rewrite (shuffled_jobs _ _ Hs1). apply Hz.
    - by rewrite (shuffled_dom _ _ Hs1).
    - rewrite (shuffled_jobs _ _ Hs1). lia.
    - assert (st_table s1 = st_table s) as -> by exact (f_equal st_table (sh_rest _ _ Hs1)). lia.
    - exact (f_equal default_tube (sh_rest _ _ Hs1)). }
  eapply wp_mono; [eapply (wp_kept modest 0), (wp_kept (away c) 0), wp_connclose; try exact _; done|].
  intros [] s2 [[[Hn Hs2] Ha] Hm]. apply HQ.
  - destruct Hs2 as [?|?]; [by right|by left].
  - by apply (fr_trans (R := modest) 0 0 s s1); [intros _|exact Hm|].
  - by eapply gone_linked, Ha.
Qed.

Lemma wp_prothandle n c C ev s :
  (∀ k fd, e_epoll_ctl k fd = true) → resting (n + EVENT_OBJECTS) s → st_conns s !! c = Some C →
  wp (prothandle c ev) (λ _ s', left_by c s' ∧ at_ease n s') s.
Proof.
  intros Hctl [(ids & P & HI) [Hz Hq Hr Hdf]] HC. unfold prothandle, h_conn, upd_conn. wsteps.
  rewrite Z.eqb_refl. cbn [negb]. apply wp_bind.
  eapply (wp_mono _ (λ _ s', sound s' ∧ steady_step 0 s s')).
  { case_decide; wsteps; (split; [exists ids, P|]); try done; [| |by apply steady_refl].
    - eapply srv_inv_sim; [by eapply conn_sim|done].
    - by eapply steady_conn. }
  intros _ s1 [HI1 Hs1].
  assert (∀ s', dom (st_conns s') = dom (st_conns s) → is_Some (st_conns s' !! c)) as Hlive.
  { intros s' Hd. apply elem_of_dom. rewrite Hd. apply elem_of_dom. eauto. }
  assert (linked ∅ s1) as Hl1 by (apply Hs1, linked_empty, Hq).
  apply wp_bind. eapply wp_mono.
  { eapply (wp_kept steady 0), conn_process_io_safe; [exact _|done|apply Hlive, Hs1]. }
  intros [] s2 [HI2 Hs2]. specialize (Hs2 (sd_sized _ _ _ Hs1)).
  assert (dom (st_conns s2) = dom (st_conns s)) as Hd2 by (rewrite (sd_dom _ _ _ Hs2); apply Hs1).
  destruct (Hlive s2 Hd2) as [C2 HC2].
  apply wp_bind. eapply wp_mono.
  { eapply (wp_h_conn_loop LINE_BUF_SIZE c s2 C2); [done|apply Hs2|done| |].
    - eapply roomy_mono; [|eapply roomy_steady; [exact Hs2|eapply roomy_steady; [exact Hs1|]]].
      2: { rewrite !Nat.add_0_r. exact Hr. } unfold EVENT_OBJECTS. lia.
    - destruct HI2 as (ids2 & P2 & HI2). apply (oc_inbuf _ _ _ _ (conn_own _ _ _ _ _ HI2 HC2)). }
  intros [] s3 [HI3 Hs3].
  assert (steady_step (0 + (0 + EVENT_OBJECTS)) s s3) as Hs03.
  { apply (steady_trans 0 _ s s1); [by intros _| |done]. by apply (steady_trans 0 _ s1 s2); intros _. }
  eapply wp_hang_up; [done|apply Hs3|by apply Hs03, linked_empty|by apply Hlive, Hs03|].
  intros s4 Hleft Hm4 Hl4. apply wp_epollq_apply; [done|done|]. intros s5 Hs5 Hq5.
  assert (roomy n s3) as Hr3 by (eapply roomy_steady; [exact Hs03|done]).
  split; [|split].
  - destruct Hleft as [?|[Hno Hin]]; [left; by eapply sound_shuffled|right].
    assert (srv_conns s5 = srv_conns s4) as -> by exact (f_equal srv_conns (sh_rest _ _ Hs5)). split; [|done].
    apply not_elem_of_dom. rewrite (shuffled_dom _ _ Hs5). by apply not_elem_of_dom.
  - intros j J. rewrite (shuffled_jobs _ _ Hs5). apply Hm4.
  - done.
  - eapply (roomy_steady n 0); [apply (shuffled_steady _ _ Hs5); [by apply linked_empty|apply Hm4]|].
    eapply (roomy_modest _ 0); [exact Hm4|]. by rewrite !Nat.add_0_r.
  - assert (default_tube s5 = default_tube s4) as -> by exact (f_equal default_tube (sh_rest _ _ Hs5)).
    rewrite (md_default _ _ _ Hm4), (sd_default _ _ _ Hs03). done.
Qed.

Lemma wp_h_accept n s :
  (∀ k fd, e_epoll_ctl k fd = true) → (∀ k fd, net_accept k = Some fd → fd ≠ 0) →
  resting (n + EVENT_OBJECTS) s → wp h_accept (λ _ s', resting n s') s.
Proof.
  intros Hctl Hacc [(ids & P & HI) [Hz Hq Hr [t Ht]]].
  (* the end of each branch *)
  assert (∀ s1, srv_inv none ∅ ids P s1 → st_jobs s1 = st_jobs s → epollq s1 = None → z_core s1 = z_core s →
    (size (st_conns s1) <= size (st_conns s) + 1)%nat → wp epollq_apply (λ _ s', resting n s') s1) as Hend.
  { intros s1 HI1 HJ1 Hq1 Hz1 Hc1. apply wp_epollq_apply; [done|by apply linked_empty|]. intros s2 Hs2 Hq2.
    assert (st_table s2 = st_table s) as HT2.
    { transitivity (st_table s1); [exact (f_equal st_table (sh_rest _ _ Hs2))|exact (f_equal st_table Hz1)]. }
    split; [eapply sound_shuffled; [done|by exists ids, P]|]. split; [|done| |].
    - intros j J. rewrite (shuffled_jobs _ _ Hs2), HJ1. apply Hz.
    - destruct Hr as [H1 H2 H3]. unfold EVENT_OBJECTS, LINE_BUF_SIZE in *.
      assert (size (st_conns s2) <= size (st_conns s) + 1)%nat as Hc2.
      { rewrite <- size_dom, (shuffled_dom _ _ Hs2), size_dom. done. }
      split; rewrite ?HT2, ?(shuffled_jobs _ _ Hs2), ?HJ1; lia.
    - assert (default_tube s2 = default_tube s1) as -> by exact (f_equal default_tube (sh_rest _ _ Hs2)).
      assert (default_tube s1 = default_tube s) as -> by exact (f_equal default_tube Hz1). eauto. }
  assert (∀ k, srv_sim s (s <| st_tick := k |>)) as Htick by (intros k; solve_sim).
  unfold h_accept. wsteps. apply wp_tick. destruct (net_accept (st_tick s)) as [cfd|] eqn:Hfd.
  2: { apply Hend; [by apply srv_inv_tick|done|done|done|apply Nat.le_add_r]. }
  wsteps. apply wp_tick. wsteps. apply wp_tick. case_match.
  { wsteps. apply Hend; [|done|done|done|apply Nat.le_add_r]. eapply srv_inv_sim; [|exact HI]. solve_sim. }
  wsteps. match goal with |- wp _ _ ?s' => set (s1 := s') end.
  assert (srv_inv none ∅ ids P s1) as HI1 by (eapply srv_inv_sim; [|exact HI]; solve_sim).
  assert (roomy (S n) s1) as Hr1.
  { assert (roomy (S n) s) as [R1 R2 R3] by (eapply roomy_mono; [|exact Hr]; unfold EVENT_OBJECTS, LINE_BUF_SIZE; lia). by split. }
  assert (t ∈ ms_items (tubes s1)) as Hin.
  { destruct (srv_inv_listed _ _ _ _ _ t HI1) as (? & _); [|done]. cbn [none lc_refs]. change (refs s1 t) with (refs s t). unfold refs.
    pose proof (count_nonneg (λ C, c_use C = Some t) (st_conns s)). pose proof (count_nonneg (λ J, j_tube J = Some t) (st_jobs s)).
    pose proof (count_nonneg (watches t) (st_conns s)). rewrite bool_decide_eq_true_2 by exact Ht. simpl. lia. }
  eapply wp_make_conn; [exact HI1|exact Hin|eapply roomy_room; [exact HI1|exact Hr1]| |].
  - intros k. wsteps. apply Hend; [|done|done|done|apply Nat.le_add_r]. eapply srv_inv_sim; [|exact HI1]. solve_sim.
  - intros c C s2 HI2 Hfresh HC2 Hnb HJ2 Hq2 Hz2.
    assert (st_conns s2 !! c = Some C) as HC by (rewrite HC2; apply lookup_insert_eq).
    unfold upd_conn. wsteps. set (C3 := C <| c_fd := cfd |>). set (s3 := s2 <| st_conns ::= <[c := C3]> |>).
    assert (srv_inv none ∅ ids P s3) as HI3 by (eapply newborn_settle; [done..|by eapply Hacc]).
    assert (size (st_conns s3) = (size (st_conns s) + 1)%nat) as Hsz.
    { unfold s3. rsimpl. rewrite HC2, insert_insert_eq, map_size_insert_None by exact Hfresh.
      change (st_conns s1) with (st_conns s). lia. }
    (* the socket is watched, or closed at once *)
    assert (st_conns s3 !! c = Some C3) as HC3 by apply lookup_insert_eq.
    apply (wp_mono _ (λ _ s4, shuffled s3 s4 ∧ epollq s4 = epollq s3)).
    { unfold sockwant. wsteps. rewrite bool_decide_eq_false_2 by done. rewrite andb_false_r.
      destruct (negb (c_added C3)); wsteps; apply wp_tick; wsteps.
      - split; [|done]. etrans; [by apply (shuffled_conn s3 c C3 (C3 <| c_added := true |>))|apply shuffled_tick].
      - split; [apply shuffled_tick|done]. }
    intros r s4 [Hs4 Hq4].
    assert (∀ s5, srv_sim s4 s5 → st_jobs s5 = st_jobs s4 → epollq s5 = epollq s4 → z_core s5 = z_core s4 →
      st_conns s5 = st_conns s4 → wp epollq_apply (λ _ s', resting n s') s5) as Hgo.
    { intros s5 HS5 HJ5 Hq5 Hz5 HC5. apply Hend.
      - eapply srv_inv_sim; [exact HS5|]. eapply srv_inv_sim; [by apply shuffled_sim|exact HI3].
      - rewrite HJ5, (shuffled_jobs _ _ Hs4). exact HJ2.
      - rewrite Hq5, Hq4. transitivity (epollq s2); [done|]. by rewrite Hq2.
      - rewrite Hz5. transitivity (z_core s3); [|exact Hz2]. destruct Hs4 as [He _].
        exact (f_equal z_core He).
      - rewrite HC5, <- size_dom, (shuffled_dom _ _ Hs4), size_dom, Hsz. done. }
    apply wp_bind. destruct (negb r); wstep; apply Hgo; try done.
Qed.

(** An event that epoll can report. *)
Definition possible (e : socket * ascii) (s : St) : Prop :=
  ∀ c ev, e = (SockConn c, ev) → is_Some (st_conns s !! c).

(** The server is ready for the next event, or one connection is left in the heap
    of timers only. *)
Definition served (n : nat) (e : socket * ascii) (s' : St) : Prop :=
  resting n s' ∨ at_ease n s' ∧ ∃ c, e.1 = SockConn c ∧ st_conns s' !! c = None ∧ c ∈ elems (srv_conns s').
Lemma wp_sock_f n e s :
  (∀ k fd, e_epoll_ctl k fd = true) → (∀ k fd, net_accept k = Some fd → fd ≠ 0) →
  resting (n + EVENT_OBJECTS) s → possible e s → wp (sock_f e) (λ _ s', served n e s') s.
Proof.
  intros Hctl Hacc Hs He. destruct e as [[|c] ev]; simpl.
  - eapply wp_mono; [by apply wp_h_accept|]. intros [] s' ?. by left.
  - destruct (He c ev eq_refl) as [C HC]. eapply wp_mono; [by eapply wp_prothandle|].
    intros [] s' [[?|[? ?]] ?]; [by left|right; eauto].
Qed.

End events.

(** ** The example state satisfies the hypotheses *)

Section witnesses.
Import QueueSpec.Demo Safety.Example.
#[local] Instance net : Net := {|
  net_accept := λ _, Some 7; net_fcntl := λ _, true; net_next := λ _, None; net_init := λ _, true;
|}.

Lemma example_resting : resting (0 + EVENT_OBJECTS) state.
Proof.
  split; [exists ids, P; exact holds|]. split.
  - intros j J HJ. by keys HJ.
  - reflexivity.
  - split; [by vm_compute..|by vm_compute].
  - by eexists.
Qed.

End witnesses.
