(* ===== verification/Waning.v ===== *)
(** Why a turn of [prottick] ends: the frames of the operations on jobs with
    respect to [energy], the bound on what is left to do.

    Giving a job back may hand it to another connection, which is then put in the
    heap of timers; [energy] counts that in advance, so that [process_queue]
    keeps it.  The same frames say that the jobs of the connections that wait
    stay on time. *)
From S2P Require Import Prelude Heap Ms State Monad JobList JobHash Tube Job Wal Conn Queue QueueRep QueueOps QueueConn QueueProc Frames Parse Stats Dispatch Tame Server.
#[local] Open Scope Z_scope.

(** The state of [j] is being set. *)
Implicit Type x : option jobp.

(** What a job adds to the energy. *)
Definition weight (J : Job) : Z := if decide (r_state (j_r J) = Reserved) then 4 else 1.
Lemma weight_bounds J : 1 <= weight J <= 4.
Proof. unfold weight. case_decide; lia. Qed.

(** The same without that of the job of [x]. *)
Definition own_weight x (s : St) : Z :=
  match x with
  | Some j => match st_jobs s !! j with Some J => weight J - 1 | None => 0 end
  | None => 0
  end.
Definition energy_but x (s : St) : Z := energy s - own_weight x s.

Section waning.
Context {E : Env}.
Implicit Types (s : St) (j : jobp) (c : connp) (t : tubep) (J : Job) (C : Conn) (T : Tube).

(** No job of a connection that waits runs out of time. *)
Definition prompt_but x (s : St) : Prop :=
  ∀ c C j J k, x ≠ Some j → st_conns s !! c = Some C → conn_waiting C = true → st_jobs s !! j = Some J →
    r_state (j_r J) = Reserved → j_reserver J = Some c → e_clock k <= r_deadline_at (j_r J).
Definition prompt (s : St) : Prop := prompt_but None s.

Definition wanes x (n : nat) (s s' : St) : Prop :=
  energy_but x s' <= energy_but x s + Z.of_nat n ∧ (prompt_but x s → prompt_but x s').

#[export] Instance wanes_budget x : Budget (wanes x).
Proof.
  split; unfold wanes.
  - intros s. split; [lia|done].
  - intros n1 n2 s1 s2 s3 [H1 P1] [H2 P2]. split; [lia|auto].
  - intros n1 n2 s s' Hn [H1 P1]. split; [lia|done].
Qed.

(** ** The effects of updates *)

(** The record of [i] as [prompt_but] and [weight] see it. *)
Definition calmer J J' : Prop :=
  weight J' <= weight J ∧
  (r_state (j_r J') = Reserved → ∀ c, j_reserver J' = Some c →
     r_state (j_r J) = Reserved ∧ j_reserver J = Some c ∧ r_deadline_at (j_r J') = r_deadline_at (j_r J)).
Lemma calmer_same J J' :
  r_state (j_r J') = r_state (j_r J) → j_reserver J' = j_reserver J ∨ j_reserver J' = None →
  r_deadline_at (j_r J') = r_deadline_at (j_r J) → calmer J J'.
Proof.
  intros Hs Hr Hd. split; [unfold weight; rewrite Hs; done|]. intros ? c Hc. destruct Hr as [Hr|Hr]; [|congruence].
  split_and!; congruence.
Qed.

Lemma energy_job s j J J' :
  st_jobs s !! j = Some J → energy (s <| st_jobs ::= <[j := J']> |>) = energy s - weight J + weight J'.
Proof. intros HJ. unfold energy. rsimpl. rewrite (total_update _ _ _ _ _ HJ). unfold weight. repeat case_decide; lia. Qed.

Lemma wanes_job x s j J J' :
  st_jobs s !! j = Some J → x = Some j ∨ calmer J J' → wanes x 0 s (s <| st_jobs ::= <[j := J']> |>).
Proof.
  intros HJ Hx. split.
  - unfold energy_but. rewrite (energy_job _ _ _ _ HJ). unfold own_weight. rsimpl.
    destruct x as [i|]; [destruct (decide (i = j)) as [->|Hne]|].
    + rewrite lookup_insert_eq, HJ. lia.
    + rewrite lookup_insert_ne by done. destruct Hx as [?|[? _]]; [congruence|lia].
    + destruct Hx as [?|[? _]]; [done|lia].
  - intros Hp c C i I k Hi HC Hw. rsimpl. intros [[<- <-]|[_ HI]]%lookup_insert_Some Hst Hr; [|by eapply Hp].
    destruct Hx as [->|[_ Hc]]; [done|]. destruct (Hc Hst c Hr) as (H1 & H2 & ->). by eapply Hp.
Qed.
Lemma wanes_conn x s c C C' :
  st_conns s !! c = Some C → (conn_waiting C' = true → conn_waiting C = true) →
  wanes x 0 s (s <| st_conns ::= <[c := C']> |>).
Proof.
  intros HC Hw. split.
  - unfold energy_but, own_weight, energy. rsimpl. rewrite (total_update _ _ _ _ _ HC).
    destruct (conn_waiting C'), (conn_waiting C); simpl; try lia.
  - intros Hp d D i I k Hi. rsimpl. intros [[<- <-]|[_ HD]]%lookup_insert_Some Hwd; [|by eapply Hp].
    by eapply Hp, Hw.
Qed.
Lemma energy_tube s t T T' :
  st_tubes s !! t = Some T → energy (s <| st_tubes ::= <[t := T']> |>) =
    energy s + 4 * (Z.of_nat (ms_len (t_waiting_conns T')) - Z.of_nat (ms_len (t_waiting_conns T))).
Proof. intros HT. unfold energy. rsimpl. rewrite (total_update _ _ _ _ _ HT). lia. Qed.
Lemma wanes_tube x s t T T' :
  st_tubes s !! t = Some T → (ms_len (t_waiting_conns T') <= ms_len (t_waiting_conns T))%nat →
  wanes x 0 s (s <| st_tubes ::= <[t := T']> |>).
Proof.
  intros HT Hw. split; [|done]. unfold energy_but. rewrite (energy_tube _ _ _ _ HT).
  change (own_weight x (s <| st_tubes ::= <[t := T']> |>)) with (own_weight x s). lia.
Qed.

(** The fields that count are the same. *)
Record same_core (s s' : St) : Prop := {
  sc_jobs : st_jobs s' = st_jobs s;
  sc_conns : st_conns s' = st_conns s;
  sc_tubes : st_tubes s' = st_tubes s;
  sc_timers : srv_conns s' = srv_conns s;
}.
Lemma wanes_misc x s s' : same_core s s' → wanes x 0 s s'.
Proof.
  intros [HJ HC HT HS]. split; [|unfold prompt_but; by rewrite HJ, HC].
  unfold energy_but, own_weight, energy. rewrite HJ, HC, HT, HS. lia.
Qed.
(** The heaps of jobs change positions in jobs. *)
Lemma calmer_pos x s (m : gmap jobp Job) :
  same_but erase_pos (st_jobs s) m → wanes x 0 s (s <| st_jobs := m |>).
Proof.
  intros HJ. split.
  - unfold energy_but, own_weight, energy. rsimpl.
    rewrite (total_same_but _ erase_pos (st_jobs s) m); [|intros A B Heq|done].
    2: { assert (r_state (j_r B) = r_state (j_r A)) as -> by exact (f_equal (λ X, r_state (j_r X)) Heq). done. }
    destruct x as [i|]; [|lia]. destruct (st_jobs s !! i) as [B|] eqn:HB.
    + destruct (same_but_lookup _ _ _ _ _ HJ HB) as (B' & -> & Heq). unfold weight.
      assert (r_state (j_r B') = r_state (j_r B)) as -> by exact (f_equal (λ X, r_state (j_r X)) Heq). lia.
    + destruct (m !! i) as [B'|] eqn:HB'; [|lia].
      destruct (same_but_lookup_inv _ _ _ _ _ HJ HB') as (? & ? & _). congruence.
  - intros Hp c C i I k Hi HC Hw HI. rsimpl_in HI. rsimpl_in HC.
    destruct (same_but_lookup_inv _ _ _ _ _ HJ HI) as (B & HB & Heq).
    assert (j_r I = j_r B) as -> by exact (f_equal j_r Heq).
    assert (j_reserver I = j_reserver B) as -> by exact (f_equal j_reserver Heq). by eapply Hp.
Qed.
End waning.

(** ** The monad *)

Section leaves.
Context {E : Env}.
Lemma wane_job x j f : (∀ J, calmer J (f J)) → Keeps (wanes x) 0 (update st_jobs j f).
Proof. intros Hf. apply keeps_update. intros s J HJ. eapply wanes_job; [done|by right]. Qed.
Lemma wane_own j f : Keeps (wanes (Some j)) 0 (update st_jobs j f).
Proof. apply keeps_update. intros s J HJ. eapply wanes_job; [done|by left]. Qed.
Lemma wane_conn x c f : (∀ C, conn_waiting (f C) = conn_waiting C) → Keeps (wanes x) 0 (update st_conns c f).
Proof. intros Hf. apply keeps_update. intros s C HC. eapply wanes_conn; [done|by rewrite Hf]. Qed.
Lemma wane_tube x t f :
  (∀ T, ms_len (t_waiting_conns (f T)) = ms_len (t_waiting_conns T)) → Keeps (wanes x) 0 (update st_tubes t f).
Proof. intros Hf. apply keeps_update. intros s T HT. eapply wanes_tube; [done|by rewrite Hf]. Qed.
Lemma wane_misc x f : (∀ s, same_core s (f s)) → Keeps (wanes x) 0 (modify f).
Proof. intros Hf. apply keeps_modify. intros s. by apply wanes_misc. Qed.
End leaves.
#[export] Hint Extern 0 (Keeps (wanes (Some _)) _ (update st_jobs _ _)) => eapply wane_own : typeclass_instances.
#[export] Hint Extern 1 (Keeps (wanes _) _ (update st_jobs _ _)) =>
  eapply wane_job; intros ?; apply calmer_same; [done|first [by left|by right]|done] : typeclass_instances.
#[export] Hint Extern 1 (Keeps (wanes _) _ (update st_conns _ _)) => eapply wane_conn; done : typeclass_instances.
#[export] Hint Extern 1 (Keeps (wanes _) _ (update st_tubes _ _)) => eapply wane_tube; done : typeclass_instances.
#[export] Hint Extern 1 (Keeps (wanes _) _ (modify _)) => eapply wane_misc; by split : typeclass_instances.

Section operations.
Context {E : Env} {SI : SysInfo} {N : Net}.
Implicit Types (s : St) (j : jobp) (c : connp) (t : tubep) (J : Job) (C : Conn) (T : Tube).
Context (x : option jobp).

#[export] Instance tick_wanes : Keeps (wanes x) 0 tick.
Proof. intros s a s' [= _ <-]. by apply wanes_misc. Qed.
#[export] Instance nanoseconds_wanes : Keeps (wanes x) 0 nanoseconds.
Proof. unfold nanoseconds. keep. Qed.
#[export] Instance ub_wanes {A} : Keeps (wanes x) 0 (@ub A).
Proof. by intros s b s'. Qed.
#[export] Instance out_of_fuel_wanes {A} : Keeps (wanes x) 0 (@out_of_fuel A).
Proof. by intros s b s'. Qed.
#[export] Instance nonnull_wanes {A} (p : option A) : Keeps (wanes x) 0 (nonnull p).
Proof. apply (keeps_from_option (wanes x)). Qed.
#[export] Instance malloc_ok_wanes : Keeps (wanes x) 0 malloc_ok.
Proof. unfold malloc_ok. keep. Qed.

(** ** Lists *)

#[export] Instance get_link_wanes n : Keeps (wanes x) 0 (get_link n).
Proof. unfold get_link. keep. Qed.
#[export] Instance get_prev_wanes n : Keeps (wanes x) 0 (get_prev n).
Proof. unfold get_prev. keep. Qed.
#[export] Instance get_next_wanes n : Keeps (wanes x) 0 (get_next n).
Proof. unfold get_next. keep. Qed.
#[export] Instance put_link_wanes n pn : Keeps (wanes x) 0 (put_link n pn).
Proof. unfold put_link. keep. Qed.
#[export] Instance set_prev_wanes n v : Keeps (wanes x) 0 (set_prev n v).
Proof. unfold set_prev. keep. Qed.
#[export] Instance set_next_wanes n v : Keeps (wanes x) 0 (set_next n v).
Proof. unfold set_next. keep. Qed.
#[export] Instance job_list_reset_wanes head : Keeps (wanes x) 0 (job_list_reset head).
Proof. unfold job_list_reset. keep. Qed.
#[export] Instance job_list_is_empty_wanes head : Keeps (wanes x) 0 (job_list_is_empty head).
Proof. unfold job_list_is_empty. keep. Qed.
#[export] Instance job_list_remove_wanes n : Keeps (wanes x) 0 (job_list_remove n).
Proof. unfold job_list_remove. keep. Qed.
#[export] Instance job_list_insert_wanes head n : Keeps (wanes x) 0 (job_list_insert head n).
Proof. unfold job_list_insert. keep. Qed.
#[export] Instance job_of_node_wanes n : Keeps (wanes x) 0 (job_of_node n).
Proof. unfold job_of_node. keep. Qed.

(** ** The soonest job *)

#[export] Instance tube_of_wanes j : Keeps (wanes x) 0 (tube_of j).
Proof. unfold tube_of. keep. Qed.
#[export] Instance upd_tube_stat_wanes t f : Keeps (wanes x) 0 (upd_tube_stat t f).
Proof. unfold upd_tube_stat. keep. Qed.
#[export] Instance upd_global_stat_wanes f : Keeps (wanes x) 0 (upd_global_stat f).
Proof. unfold upd_global_stat. keep. Qed.
#[export] Instance has_reserved_job_wanes c : Keeps (wanes x) 0 (has_reserved_job c).
Proof. unfold has_reserved_job. keep. Qed.
#[export] Instance conn_set_soonestjob_wanes c j : Keeps (wanes x) 0 (conn_set_soonestjob c j).
Proof. unfold conn_set_soonestjob. keep. Qed.
#[export] Instance connsoonestjob_loop_wanes fuel c n : Keeps (wanes x) 0 (connsoonestjob_loop fuel c n).
Proof. revert c n. induction fuel as [|fuel IH]; intros; cbn [connsoonestjob_loop]; keep. Qed.
#[export] Instance connsoonestjob_wanes c : Keeps (wanes x) 0 (connsoonestjob c).
Proof. unfold connsoonestjob. keep. Qed.
#[export] Instance conntickat_wanes c : Keeps (wanes x) 0 (conntickat c).
Proof. unfold conntickat. keep. Qed.
#[export] Instance conndeadlinesoon_wanes c : Keeps (wanes x) 0 (conndeadlinesoon c).
Proof. unfold conndeadlinesoon. keep. Qed.
End operations.

(** ** Heaps *)

Section heaps.
Context {E : Env} {SI : SysInfo} {N : Net}.
Implicit Types (s : St) (j : jobp) (c : connp) (t : tubep) (J : Job) (C : Conn) (T : Tube).
Context (x : option jobp).
#[local] Opaque heapinsert heapremove.

(** [n] entries more, or fewer. *)
Lemma wanes_timers s h (m : gmap connp Conn) (d : Z) :
  same_but erase_tick (st_conns s) m → Z.of_nat (h_len h) <= Z.of_nat (h_len (srv_conns s)) + d →
  energy_but x (s <| st_conns := m |> <| srv_conns := h |>) <= energy_but x s + d ∧
  (prompt_but x s → prompt_but x (s <| st_conns := m |> <| srv_conns := h |>)).
Proof.
  intros Hm Hh. split.
  - unfold energy_but, own_weight, energy. rsimpl.
    rewrite (total_same_but _ erase_tick (st_conns s) m); [destruct x; lia| |done].
    intros A B Heq. assert (c_type B = c_type A) as Ht by exact (f_equal c_type Heq). unfold conn_waiting. by rewrite Ht.
  - intros Hp c C j J k Hj HC Hw. rsimpl_in HC. rsimpl.
    destruct (same_but_lookup_inv _ _ _ _ _ Hm HC) as (B & HB & Heq). eapply Hp; [done..|].
    assert (c_type C = c_type B) as Ht by exact (f_equal c_type Heq). unfold conn_waiting in *. by rewrite <- Ht.
Qed.
#[export] Instance conns_heapinsert_wanes c : Keeps (wanes x) 1 (conns_heapinsert c).
Proof.
  intros s r s'. unfold conns_heapinsert, gets, mbind, M_bind. simpl.
  destruct (timers_live s); simpl; [|done].
  destruct ((if (_ =? _)%nat then malloc_ok else mret true) s) as [ok' s1|] eqn:H1; [|done].
  assert (wanes x 0 s s1 ∧ st_conns s1 = st_conns s ∧ srv_conns s1 = srv_conns s) as (Hw & HC1 & Hh1).
  { revert H1. case_match; intros [= _ <-]; (split; [by apply wanes_misc|done]). }
  match goal with |- context [heapinsert ?a ?b ?d ?e] => destruct (heapinsert a b d e) as [[r1 [h m]]|] eqn:Hh end; simpl; [|done].
  intros [= _ <-]. apply (bu_trans 0 1 s s1); [exact Hw|].
  destruct (heapinsert_keeps conn_ops (same_but erase_tick) conn_setpos_same _ _ _ _ _ _ _ Hh) as [Hm _].
  pose proof (heapinsert_len conn_ops (same_but erase_tick) conn_setpos_same _ _ _ _ _ _ _ Hh) as Hl.
  apply wanes_timers; [by rewrite HC1|rewrite Hh1; lia].
Qed.
Lemma conns_heapremove_run k s r s' :
  conns_heapremove k s = Ret r s' →
  energy_but x s' <= energy_but x s - (if (h_len (srv_conns s) <=? k)%nat then 0 else 1) ∧
  (prompt_but x s → prompt_but x s').
Proof.
  unfold conns_heapremove, gets, mbind, M_bind. simpl.
  destruct (timers_live s); simpl; [|done].
  match goal with |- context [heapremove ?a ?b ?d] => destruct (heapremove a b d) as [[r1 [h m]]|] eqn:Hh end; simpl; [|done].
  intros [= _ <-].
  destruct (heapremove_keeps conn_ops (same_but erase_tick) conn_setpos_same _ _ _ _ _ _ Hh) as [Hm _].
  pose proof (heapremove_len conn_ops (same_but erase_tick) conn_setpos_same _ _ _ _ _ _ Hh) as Hl.
  apply (wanes_timers s h m (- (if (h_len (srv_conns s) <=? k)%nat then 0 else 1))); [done|]. case_match; lia.
Qed.
#[export] Instance conns_heapremove_wanes k : Keeps (wanes x) 0 (conns_heapremove k).
Proof. intros s r s' [He Hp]%conns_heapremove_run. split; [case_match; lia|done]. Qed.

Definition pos_same : relation (gmap jobp Job) := same_but erase_pos.
Lemma job_setpos_pos y k (e : gmap jobp Job) : pos_same e (job_setpos y k e).
Proof.
  unfold job_setpos, pos_same, same_but. apply map_eq. intros i. rewrite !lookup_fmap.
  destruct (decide (i = y)) as [->|]; [rewrite lookup_alter_eq|by rewrite lookup_alter_ne].
  by destruct (e !! y).
Qed.
Lemma wanes_heap s t T T' m :
  st_tubes s !! t = Some T → t_waiting_conns T' = t_waiting_conns T → pos_same (st_jobs s) m →
  wanes x 0 s (s <| st_jobs := m |> <| st_tubes ::= <[t := T']> |>).
Proof.
  intros HT Hw Hm. apply (bu_trans 0 0 s (s <| st_jobs := m |>)); [by apply calmer_pos|].
  eapply wanes_tube; [done|by rewrite Hw].
Qed.
Lemma tube_heapinsert_wanes sel `{!Setter sel} ops t j :
  (∀ T h, t_waiting_conns (T <| sel := h |>) = t_waiting_conns T) →
  (∀ y k (e : gmap jobp Job), pos_same e (setpos_fn ops y k e)) → Keeps (wanes x) 0 (tube_heapinsert sel ops t j).
Proof.
  intros Hw Hd s r s'. unfold tube_heapinsert, deref, gets, mbind, M_bind. simpl.
  destruct (st_tubes s !! t) as [T|] eqn:HT; simpl; [|done].
  destruct ((if (_ =? _)%nat then malloc_ok else mret true) s) as [ok' s1|] eqn:H1; [|done].
  assert (wanes x 0 s s1 ∧ st_tubes s1 = st_tubes s) as (Hw1 & HT1).
  { revert H1. case_match; intros [= _ <-]; (split; [by apply wanes_misc|done]). }
  match goal with |- context [heapinsert ?a ?b ?d ?e] => destruct (heapinsert a b d e) as [[r1 [h m]]|] eqn:Hh end; simpl; [|done].
  intros [= _ <-]. apply (bu_trans 0 0 s s1); [exact Hw1|].
  destruct (heapinsert_keeps ops pos_same Hd _ _ _ _ _ _ _ Hh) as [Hdom _].
  eapply wanes_heap; [by rewrite HT1|apply Hw|done].
Qed.
Lemma tube_heapremove_wanes sel `{!Setter sel} ops t k :
  (∀ T h, t_waiting_conns (T <| sel := h |>) = t_waiting_conns T) →
  (∀ y k (e : gmap jobp Job), pos_same e (setpos_fn ops y k e)) → Keeps (wanes x) 0 (tube_heapremove sel ops t k).
Proof.
  intros Hw Hd s r s'. unfold tube_heapremove, deref, gets, mbind, M_bind. simpl.
  destruct (st_tubes s !! t) as [T|] eqn:HT; simpl; [|done].
  match goal with |- context [heapremove ?a ?b ?d] => destruct (heapremove a b d) as [[r1 [h m]]|] eqn:Hh end; simpl; [|done].
  intros [= _ <-]. destruct (heapremove_keeps ops pos_same Hd _ _ _ _ _ _ Hh) as [Hdom _].
  by eapply wanes_heap.
Qed.
End heaps.
#[export] Hint Extern 1 (Keeps (wanes _) _ (tube_heapinsert _ _ _ _)) =>
  eapply tube_heapinsert_wanes; [done|apply job_setpos_pos] : typeclass_instances.
#[export] Hint Extern 1 (Keeps (wanes _) _ (tube_heapremove _ _ _ _)) =>
  eapply tube_heapremove_wanes; [done|apply job_setpos_pos] : typeclass_instances.

(** ** Schedules, replies, and the end of waiting *)

(** The connections do not change. *)
Definition conns_kept (n : nat) (s s' : St) : Prop := st_conns s' = st_conns s.
#[export] Instance conns_kept_budget : Budget conns_kept.
Proof. split; unfold conns_kept; [done|congruence|done]. Qed.
#[export] Instance tube_conns_kept t f : Keeps conns_kept 0 (update st_tubes t f).
Proof. by apply keeps_update. Qed.

Section serving.
Context {E : Env} {SI : SysInfo} {N : Net}.
Implicit Types (s : St) (j : jobp) (c : connp) (t : tubep) (J : Job) (C : Conn) (T : Tube).
Context (x : option jobp).

#[export] Instance connsched_wanes c : Keeps (wanes x) 1 (connsched c).
Proof.
  unfold connsched. apply (keeps_bind (wanes x)); [exact _|intros C].
  apply (keeps_bind (wanes x)); [keep|intros []]. apply (keeps_bind (wanes x)); [exact _|intros tickat].
  apply (keeps_bind (wanes x)); [exact _|intros []]. case_match; [|apply (keeps_up (wanes x)); exact _].
  apply (keeps_bind_last (wanes x)); [exact _|intros r; exact _].
Qed.
#[export] Instance epollq_add_wanes c rw : Keeps (wanes x) 1 (epollq_add c rw).
Proof.
  unfold epollq_add. apply (keeps_bind (wanes x)); [exact _|intros []].
  apply (keeps_bind_last (wanes x)); [exact _|intros []]. keep.
Qed.
#[export] Instance reply_wanes c line len state : Keeps (wanes x) 1 (reply (Some c) line len state).
Proof. unfold reply. apply (keeps_bind_last (wanes x)); [exact _|intros []; exact _]. Qed.
#[export] Instance reply_msg_wanes c m : Keeps (wanes x) 1 (reply_msg c m).
Proof. unfold reply_msg. exact _. Qed.
#[export] Instance reply_line_wanes c state line : Keeps (wanes x) 1 (reply_line c state line).
Proof. unfold reply_line, reply_serr. cbv zeta. case_match; exact _. Qed.
#[export] Instance reply_job_wanes c j m : Keeps (wanes x) 1 (reply_job c j m).
Proof.
  unfold reply_job. apply (keeps_bind (wanes x)); [exact _|intros []].
  apply (keeps_bind (wanes x)); [exact _|intros []]. apply (keeps_bind (wanes x)); [exact _|intros J]. exact _.
Qed.

(** One connection less waits for a tube. *)
Lemma wanes_taken s t T (a : Ms connp) c :
  st_tubes s !! t = Some T → c :: ms_items a ≡ₚ ms_items (t_waiting_conns T) →
  energy_but x (s <| st_tubes ::= <[t := T <| t_waiting_conns := a |>]> |>) + 4 = energy_but x s.
Proof.
  intros HT Hp. apply Permutation_length in Hp. simpl in Hp. unfold energy_but. rewrite (energy_tube _ _ _ _ HT).
  change (own_weight x (s <| st_tubes ::= <[t := T <| t_waiting_conns := a |>]> |>)) with (own_weight x s).
  rsimpl. unfold ms_len. lia.
Qed.

Definition unwait_tube c t : M unit :=
  upd_tube_stat t (fun st => st <| waiting_ct ::= decr64 |>);;
  T ← deref st_tubes t;
  match ms_remove c (t_waiting_conns T) with
  | Some (_, a) => update st_tubes t (fun T => T <| t_waiting_conns := a |>)
  | None => mret tt
  end.
#[export] Instance unwait_tube_wanes c t : Keeps (wanes x) 0 (unwait_tube c t).
Proof.
  unfold unwait_tube. apply (keeps_bind (wanes x)); [exact _|intros []].
  apply keeps_bind_deref. intros s T [] s' HT. destruct (decide (c ∈ ms_items (t_waiting_conns T))) as [Hin|Hin].
  - destruct (ms_remove_Some c _ Hin) as (a & -> & Hp & _). intros (T' & HT' & ->)%update_Ret.
    assert (T' = T) as -> by congruence. eapply wanes_tube; [done|].
    apply Permutation_length in Hp. simpl in Hp. rsimpl. unfold ms_len. lia.
  - rewrite ms_remove_None by done. intros [= <-]. apply bu_refl.
Qed.
Lemma unwait_tube_conns c t : Keeps conns_kept 0 (unwait_tube c t).
Proof.
  unfold unwait_tube, upd_tube_stat. apply (keeps_bind conns_kept); [exact _|intros []].
  apply (keeps_bind conns_kept); [exact _|intros T]. repeat case_match; exact _.
Qed.

Lemma remove_waiting_run c s s' :
  remove_waiting_conn c s = Ret tt s' →
  wanes x 0 s s' ∧ (∀ C', st_conns s' !! c = Some C' → conn_waiting C' = false) ∧
  (∀ C, st_conns s !! c = Some C → conn_waiting C = true → energy_but x s' + 1 <= energy_but x s).
Proof.
  unfold remove_waiting_conn. intros (C & s0 & [HC ->]%deref_Ret & Hrun)%bind_Ret. revert Hrun.
  destruct (conn_waiting C) eqn:Hw; cbn [negb].
  2: { intros [= <-]. split_and!; [apply bu_refl|congruence|congruence]. }
  intros ([] & s1 & (C0 & HC0 & ->)%update_Ret & Hrun)%bind_Ret. assert (C0 = C) as -> by congruence.
  set (s1 := s <| st_conns ::= _ |>) in *.
  assert (Keeps (wanes x) 0 (upd_global_stat (fun st => st <| waiting_ct ::= decr64 |>);;
    forM (ms_items (c_watch C)) (unwait_tube c))) as Hk.
  { apply (keeps_bind (wanes x)); [exact _|intros []]. apply (keeps_forM (wanes x)). intros t. exact _. }
  assert (Keeps conns_kept 0 (upd_global_stat (fun st => st <| waiting_ct ::= decr64 |>);;
    forM (ms_items (c_watch C)) (unwait_tube c))) as Hk2.
  { apply (keeps_bind conns_kept); [by apply keeps_modify|intros []]. apply (keeps_forM conns_kept). intros t. apply unwait_tube_conns. }
  specialize (Hk _ _ _ Hrun) as [He Hp]. specialize (Hk2 _ _ _ Hrun). unfold conns_kept in Hk2.
  change (C <| c_type ::= fun n => Z.land n (Z.lnot CONN_TYPE_WAITING) |>) with (unwait C) in *.
  pose proof (unwait_waiting C) as Hu.
  assert (energy_but x s1 + 1 = energy_but x s) as He1.
  { unfold energy_but, own_weight, energy, s1. rsimpl. rewrite (total_update _ _ _ _ _ HC), Hu, Hw. destruct x; simpl; lia. }
  assert (wanes x 0 s s1) as [_ Hp1] by (eapply wanes_conn; [done|by rewrite Hu]).
  split_and!.
  - split; [lia|auto].
  - intros C'. rewrite Hk2. unfold s1. rsimpl. rewrite lookup_insert_eq. by intros [= <-].
  - intros C1 HC1 _. lia.
Qed.
#[export] Instance remove_waiting_conn_wanes c : Keeps (wanes x) 0 (remove_waiting_conn c).
Proof. intros s [] s' Hrun. by apply remove_waiting_run in Hrun as [? _]. Qed.
End serving.

(** ** Handing jobs to the connections that wait *)

(** Jobs do not change, nor does the set of connections that wait. *)
Definition mute (n : nat) (s s' : St) : Prop :=
  st_jobs s' = st_jobs s ∧ ∀ c C', st_conns s' !! c = Some C' →
    ∃ C, st_conns s !! c = Some C ∧ conn_waiting C' = conn_waiting C.
#[export] Instance mute_budget : Budget mute.
Proof.
  split; unfold mute.
  - eauto.
  - intros n1 n2 s1 s2 s3 [J1 C1] [J2 C2]. split; [congruence|].
    intros c C3 (C & HC & ->)%C2. by apply C1.
  - done.
Qed.
Lemma mute_conn c f : (∀ C, conn_waiting (f C) = conn_waiting C) → Keeps mute 0 (update st_conns c f).
Proof.
  intros Hf. apply keeps_update. intros s C HC. split; [done|]. intros d D. rsimpl.
  intros [[<- <-]|[_ ?]]%lookup_insert_Some; eauto.
Qed.
Lemma mute_modify f : (∀ s, st_jobs (f s) = st_jobs s ∧ st_conns (f s) = st_conns s) → Keeps mute 0 (modify f).
Proof. intros Hf. apply keeps_modify. intros s. destruct (Hf s) as [H1 H2]. split; [done|]. rewrite H2. eauto. Qed.
#[export] Instance tube_mute t f : Keeps mute 0 (update st_tubes t f).
Proof. apply keeps_update. intros s T HT. split; [done|]. rsimpl. eauto. Qed.
#[export] Hint Extern 1 (Keeps mute _ (update st_conns _ _)) => eapply mute_conn; done : typeclass_instances.
#[export] Hint Extern 1 (Keeps mute _ (modify _)) => eapply mute_modify; done : typeclass_instances.
#[export] Instance nonnull_mute {A} (p : option A) : Keeps mute 0 (nonnull p).
Proof. apply (keeps_from_option mute). Qed.
#[export] Instance ub_mute {A} : Keeps mute 0 (@ub A).
Proof. by intros s b s'. Qed.

Section reserve.
Context {E : Env} {SI : SysInfo} {N : Net}.
Implicit Types (s : St) (j : jobp) (c : connp) (t : tubep) (J : Job) (C : Conn) (T : Tube).

Lemma job_list_insert_mute head n : Keeps mute 0 (job_list_insert head n).
Proof.
  unfold job_list_insert, job_list_is_empty, set_prev, set_next, get_next, get_prev, get_link, put_link. keep.
Qed.
Lemma set_soonest_mute c j : Keeps mute 0 (conn_set_soonestjob c j).
Proof. unfold conn_set_soonestjob. keep. Qed.

Lemma conn_reserve_own c j : Keeps (wanes (Some j)) 0 (conn_reserve_job c j).
Proof. unfold conn_reserve_job, upd_rec. keep. Qed.

Lemma conn_reserve_prompt c j s s' :
  conn_reserve_job c j s = Ret tt s' → (∀ C, st_conns s !! c = Some C → conn_waiting C = false) →
  ∀ d D J, st_conns s' !! d = Some D → st_jobs s' !! j = Some J → j_reserver J = Some d → conn_waiting D = false.
Proof.
  unfold conn_reserve_job, upd_rec.
  intros (t & s1 & (J1 & s0 & [_ ->]%deref_Ret & Ht)%bind_Ret & ([] & s2 & H2 & ([] & s3 & (J3 & _ & ->)%update_Ret & Hrun)%bind_Ret)%bind_Ret)%bind_Ret Hw.
  apply (keeps_from_option mute) in Ht as [_ M1]. apply (tube_mute t) in H2 as [_ M2].
  apply bind_Ret in Hrun as (now & s4 & [= <- <-] & Hrun).
  apply bind_Ret in Hrun as ([] & s5 & (J5 & _ & ->)%update_Ret & Hrun).
  apply bind_Ret in Hrun as ([] & s6 & (J6 & _ & ->)%update_Ret & Hrun).
  apply bind_Ret in Hrun as (r & s7 & [_ M7]%job_list_insert_mute & Hrun).
  apply bind_Ret in Hrun as ([] & s8 & (J8 & _ & ->)%update_Ret & Hrun).
  apply bind_Ret in Hrun as ([] & s9 & H9 & [HJ M10]%set_soonest_mute).
  apply (mute_conn c (fun C => C <| c_pending_timeout := -1 |>)) in H9 as [HJ9 M9]; [|done].
  intros d D J HD HJd Hr.
  rewrite HJ, HJ9 in HJd. rsimpl_in HJd. rewrite lookup_insert_eq in HJd. apply (inj Some) in HJd as <-. rsimpl_in Hr.
  injection Hr as <-. destruct (M10 _ _ HD) as (D1 & HD1 & ->). destruct (M9 _ _ HD1) as (D2 & HD2 & ->).
  rsimpl_in HD2. destruct (M7 _ _ HD2) as (D3 & HD3 & ->). rsimpl_in HD3.
  destruct (M2 _ _ HD3) as (D4 & HD4 & ->). destruct (M1 _ _ HD4) as (D5 & HD5 & ->). by apply Hw.
Qed.

Lemma conn_reserve_wanes c j s s' :
  conn_reserve_job c j s = Ret tt s' → (∀ C, st_conns s !! c = Some C → conn_waiting C = false) →
  wanes None 3 s s'.
Proof.
  intros Hrun Hw. pose proof (conn_reserve_own _ _ _ _ _ Hrun) as [He Hp]. split.
  - unfold energy_but, own_weight in *.
    assert (∀ s, 0 <= match st_jobs s !! j with Some J => weight J - 1 | None => 0 end <= 3) as Hb.
    { intros s0. destruct (st_jobs s0 !! j) as [J|]; [pose proof (weight_bounds J)|]; lia. }
    pose proof (Hb s). pose proof (Hb s'). lia.
  - intros Hs d D i I k _ HD Hwd HI Hst Hr. destruct (decide (i = j)) as [->|Hne].
    + rewrite (conn_reserve_prompt _ _ _ _ Hrun Hw _ _ _ HD HI Hr) in Hwd. done.
    + apply (Hp ltac:(intros d0 D0 j0 J0 k0 _; by apply Hs) d D i I); [congruence|done..].
Qed.
End reserve.

Section queue.
Context {E : Env} {SI : SysInfo} {N : Net}.
Implicit Types (s : St) (j : jobp) (c : connp) (t : tubep) (J : Job) (C : Conn) (T : Tube).

#[export] Instance remove_ready_job_wanes x o : Keeps (wanes x) 0 (remove_ready_job o).
Proof. unfold remove_ready_job. keep. Qed.
#[export] Instance next_awaited_job_loop_wanes x l now o : Keeps (wanes x) 0 (next_awaited_job_loop l now o).
Proof. revert now o. induction l as [|y l IH]; intros; cbn [next_awaited_job_loop]; keep. Qed.
#[export] Instance next_awaited_job_wanes x now : Keeps (wanes x) 0 (next_awaited_job now).
Proof. unfold next_awaited_job. keep. Qed.
#[export] Instance soonest_delayed_job_loop_wanes x l o : Keeps (wanes x) 0 (soonest_delayed_job_loop l o).
Proof. revert o. induction l as [|y l IH]; intros; cbn [soonest_delayed_job_loop]; keep. Qed.
#[export] Instance soonest_delayed_job_wanes x : Keeps (wanes x) 0 soonest_delayed_job.
Proof. unfold soonest_delayed_job. keep. Qed.

(** A connection gives its place in a waiting set for the job. *)
#[export] Instance process_one_wanes j : Keeps (wanes None) 0 (process_one j).
Proof.
  unfold process_one. apply (keeps_bind (wanes None)); [exact _|]. intros [j'|]; [|exact _].
  apply (keeps_bind (wanes None)); [exact _|intros t]. apply keeps_bind_deref. intros s T [] s' HT.
  destruct (decide (ms_items (t_waiting_conns T) = [])) as [Hnil|Hne].
  - rewrite ms_take_None by done. intros ([] & s1 & (T1 & HT1 & ->)%update_Ret & [= <-])%bind_Ret.
    assert (T1 = T) as -> by congruence. by eapply wanes_tube.
  - destruct (ms_take_Some _ Hne) as (c & a & -> & Hp & _).
    intros ([] & s1 & (T1 & HT1 & ->)%update_Ret & Hrun)%bind_Ret. assert (T1 = T) as -> by congruence.
    pose proof (wanes_taken None s t T a c HT Hp) as He. set (s1 := s <| st_tubes ::= _ |>) in *.
    apply bind_Ret in Hrun as ([] & s2 & H2 & Hrun). apply bind_Ret in Hrun as ([] & s3 & H3 & Hrun).
    apply bind_Ret in Hrun as ([] & s4 & H4 & Hrun).
    apply (upd_global_stat_wanes None) in H2 as [E2 P2]. apply (remove_waiting_run None) in H3 as ([E3 P3] & Hw & _).
    apply conn_reserve_wanes in H4 as [E4 P4]; [|done]. apply (reply_job_wanes None) in Hrun as [E5 P5].
    split; [lia|]. intros Hs. apply P5, P4, P3, P2. exact Hs.
Qed.
#[export] Instance process_queue_loop_wanes fuel now : Keeps (wanes None) 0 (process_queue_loop fuel now).
Proof. revert now. induction fuel as [|fuel IH]; intros; cbn [process_queue_loop]; keep. Qed.
#[export] Instance process_queue_wanes : Keeps (wanes None) 0 process_queue.
Proof. unfold process_queue. keep. Qed.

(** ** A job is given back *)

Lemma enqueue_insert_own j : Keeps (wanes (Some j)) 0 (enqueue_insert j 0).
Proof. unfold enqueue_insert, upd_rec. cbn [negb Z.eqb]. keep. Qed.
Lemma bury_own j : Keeps (wanes (Some j)) 0 (bury_job j false).
Proof. unfold bury_job, bury_insert, upd_rec. cbn [negb]. keep. Qed.

(** [j] is not reserved any more. *)
Definition freed j s : Prop := ∀ J, st_jobs s !! j = Some J → r_state (j_r J) ≠ Reserved.
Lemma freed_energy j s : freed j s → energy s <= energy_but (Some j) s.
Proof.
  intros Hf. unfold energy_but, own_weight. destruct (st_jobs s !! j) as [J|] eqn:HJ; [|lia].
  unfold weight. rewrite decide_False by (by apply Hf). lia.
Qed.
Lemma freed_prompt j s : freed j s → prompt_but (Some j) s → prompt s.
Proof. intros Hf Hp c C i I k _ HC Hw HI Hst. eapply Hp; [|done..]. intros [= ->]. by apply (Hf I). Qed.

(** [r] relates the states before and after [j] was given back. *)
Definition given_back j s s' : Prop := energy s' <= energy_but (Some j) s ∧ (prompt_but (Some j) s → prompt s').
Lemma given_back_freed j s s' : wanes (Some j) 0 s s' → freed j s' → given_back j s s'.
Proof.
  intros [He Hp] Hf. pose proof (freed_energy _ _ Hf). split; [lia|]. intros Hs%Hp. by eapply freed_prompt.
Qed.
Lemma given_back_wanes j s s' : given_back j s s' → wanes None 0 s s'.
Proof.
  intros [He Hp]. split.
  - unfold energy_but, own_weight in *. destruct (st_jobs s !! j) as [J|]; [pose proof (weight_bounds J)|]; lia.
  - intros Hs. apply Hp. intros c C i I k _. by apply Hs.
Qed.
Lemma freed_mute j n s s' : mute n s s' → freed j s → freed j s'.
Proof. intros [HJ _] Hf J. rewrite HJ. apply Hf. Qed.
Lemma freed_set j f s a s' :
  (∀ J, r_state (j_r (f J)) ≠ Reserved) → update st_jobs j f s = Ret a s' → freed j s'.
Proof.
  intros Hf (J & _ & ->)%update_Ret. intros B. rsimpl. rewrite lookup_insert_eq. intros [= <-]. apply Hf.
Qed.

Lemma enqueue_insert_run j s s' : enqueue_insert j 0 s = Ret true s' → freed j s'.
Proof.
  unfold enqueue_insert, upd_rec. cbn [negb Z.eqb].
  intros ([] & s1 & _ & (t & s2 & _ & (r & s3 & _ & Hrun)%bind_Ret)%bind_Ret)%bind_Ret.
  destruct r; [|done]. cbn [negb] in Hrun. apply bind_Ret in Hrun as ([] & s4 & H4%(freed_set j) & Hrun); [|done].
  match type of Hrun with ?k _ = _ => assert (Keeps mute 0 k) as Hk by (unfold upd_global_stat, upd_tube_stat; keep) end.
  apply Hk in Hrun. by eapply freed_mute.
Qed.
Lemma enqueue_run j s b s' :
  enqueue_job j 0 false s = Ret b s' → if b then given_back j s s' else wanes (Some j) 0 s s'.
Proof.
  unfold enqueue_job. intros (r & s1 & H1 & Hrun)%bind_Ret.
  pose proof (enqueue_insert_own _ _ _ _ H1) as Hw. destruct r; cbn [negb] in Hrun; [|by injection Hrun as <- <-].
  apply enqueue_insert_run in H1. apply (given_back_freed _ _ _ Hw) in H1 as [He Hp].
  apply bind_Ret in Hrun as (ok & s2 & [= <- <-] & Hrun). cbn [negb] in Hrun.
  apply bind_Ret in Hrun as ([] & s3 & [He3 Hp3]%process_queue_wanes & [= <- <-]). unfold energy_but, own_weight in He3.
  split; [unfold own_weight in *; lia|]. intros Hs. by apply Hp3, Hp.
Qed.
Lemma bury_run j s b s' : bury_job j false s = Ret b s' → given_back j s s'.
Proof.
  intros Hrun. apply given_back_freed; [by eapply bury_own|]. revert Hrun. unfold bury_job, bury_insert, upd_rec.
  intros (ok & s1 & [= <- <-] & Hrun)%bind_Ret. cbn [negb] in Hrun.
  apply bind_Ret in Hrun as ([] & s2 & Hrun & [= _ <-]).
  apply bind_Ret in Hrun as (t & s3 & _ & Hrun). apply bind_Ret in Hrun as (r & s4 & _ & Hrun).
  apply bind_Ret in Hrun as ([] & s5 & _ & Hrun). apply bind_Ret in Hrun as ([] & s6 & _ & Hrun).
  apply bind_Ret in Hrun as ([] & s7 & H7%(freed_set j) & Hrun); [|done].
  apply bind_Ret in Hrun as ([] & s8 & (J8 & HJ8 & ->)%update_Ret & (J9 & HJ9 & ->)%update_Ret).
  apply H7 in HJ8. rsimpl_in HJ9. rewrite lookup_insert_eq in HJ9. injection HJ9 as <-.
  intros J. rsimpl. rewrite lookup_insert_eq. by intros [= <-].
Qed.

(** ** The other steps of a timeout *)

#[export] Instance set_out_job_wanes x c o : Keeps (wanes x) 0 (set_out_job c o).
Proof. unfold set_out_job. keep. Qed.
#[export] Instance remove_this_reserved_job_wanes x c o : Keeps (wanes x) 0 (remove_this_reserved_job c o).
Proof. unfold remove_this_reserved_job. keep. Qed.
End queue.

(** ** A copy of a job *)

Section copy.
Context {E : Env}.
Implicit Types (s : St) (j : jobp) (c : connp) (t : tubep) (J : Job) (C : Conn) (T : Tube).

#[export] Instance tube_free_wanes x t : Keeps (wanes x) 0 (tube_free t).
Proof.
  unfold tube_free. apply (keeps_bind (wanes x)); [exact _|intros s]. apply (keeps_bind (wanes x)); [keep|intros []].
  apply (keeps_bind (wanes x)).
  { apply keeps_update. intros s1 T HT. eapply wanes_tube; [done|]. apply Nat.le_0_l. }
  intros []. apply (keeps_bind (wanes x)); [exact _|intros []]. apply keeps_free. intros s1 T HT. split; [|done].
  unfold energy_but. change (own_weight x (s1 <| st_tubes ::= delete t |>)) with (own_weight x s1).
  unfold energy. rsimpl. rewrite (total_delete _ (st_tubes s1) t T) by done. lia.
Qed.
#[export] Instance tube_dref_wanes x o : Keeps (wanes x) 0 (tube_dref o).
Proof. unfold tube_dref. keep. Qed.
#[export] Instance tube_iref_wanes x o : Keeps (wanes x) 0 (tube_iref o).
Proof. unfold tube_iref. keep. Qed.
Lemma job_assign_tube_own j o : Keeps (wanes (Some j)) 0 (job_assign_tube j o).
Proof. unfold job_assign_tube, TUBE_ASSIGN. keep. Qed.

(** The ids that were given out. *)
Definition ids_kept (n : nat) (s s' : St) : Prop := next_id (st_table s') = next_id (st_table s).
#[export] Instance ids_kept_budget : Budget ids_kept.
Proof. split; unfold ids_kept; [done|congruence|done]. Qed.

Lemma malloc_Ret {V} (m : St → gmap positive V) `{!Setter m} v s r s' :
  malloc m v s = Ret r s' →
  (r = None ∧ s' = s <| st_tick ::= S |>) ∨
  ∃ p, r = Some p ∧ m (s <| st_tick ::= S |>) !! p = None ∧ s' = s <| st_tick ::= S |> <| m ::= <[p := v]> |>.
Proof.
  unfold malloc, tick, gets, modify, mbind, M_bind. simpl. destruct (e_malloc (st_tick s)) as [hint|]; intros [= <- <-]; [right|by left].
  eexists. split; [done|]. split; [|done]. unfold Datatypes.id. destruct (m _ !! hint) eqn:Hh; [|done]. apply not_elem_of_dom. apply is_fresh.
Qed.

Lemma job_copy_run j s r s' :
  job_copy (Some j) s = Ret r s' → wanes None 1 s s' ∧ ids_kept 0 s s'.
Proof.
  unfold job_copy. intros (J & s0 & [HJ ->]%deref_Ret & (n & s1 & Hm%malloc_Ret & Hrun)%bind_Ret)%bind_Ret.
  destruct Hm as [[-> ->]|(p & -> & Hp & ->)].
  { injection Hrun as <- <-. split; [|done]. apply (bu_mono 0); [lia|]. by apply wanes_misc. }
  set (J0 := J <| j_cap := _ |>) in *. set (s1 := s <| st_tick ::= S |> <| st_jobs ::= <[p := J0]> |>) in *.
  change (st_jobs s !! p = None) in Hp.
  assert (energy_but (Some p) s1 = energy s + 1 ∧ (prompt s → prompt_but (Some p) s1)) as [He Hpr].
  { split.
    - unfold energy_but, own_weight, s1, energy. rsimpl. rewrite lookup_insert_eq, total_insert by done. unfold weight. lia.
    - intros Hs c C i I k Hi HC Hw. unfold s1. rsimpl. rewrite lookup_insert_ne by congruence. intros HI. by eapply Hs. }
  apply bind_Ret in Hrun as ([] & s2 & H2 & Hrun). apply bind_Ret in Hrun as ([] & s3 & H3 & Hrun).
  apply bind_Ret in Hrun as ([] & s4 & H4 & Hrun). apply bind_Ret in Hrun as ([] & s5 & H5 & Hrun).
  apply bind_Ret in Hrun as ([] & s6 & H6 & [= <- <-]). split.
  - apply (freed_set p) in H6 as Hf; [|done].
    apply (job_list_reset_wanes (Some p)) in H2. apply wane_own in H3, H4, H6. apply job_assign_tube_own in H5.
    assert (wanes (Some p) 0 s1 s6) as [E6 P6].
    { apply (bu_trans 0 0 s1 s2); [done|]. apply (bu_trans 0 0 s2 s3); [done|]. apply (bu_trans 0 0 s3 s4); [done|].
      by apply (bu_trans 0 0 s4 s5). }
    pose proof (freed_energy _ _ Hf). split; [unfold energy_but, own_weight in *; lia|].
    intros Hs. eapply freed_prompt; [done|]. by apply P6, Hpr.
  - unfold ids_kept. assert (Keeps ids_kept 0 (job_assign_tube p (j_tube J))) as Hk.
    { assert (∀ t, Keeps ids_kept 0 (tube_free t)) as Hfree.
      { intros t. unfold tube_free. apply (keeps_bind ids_kept); [exact _|intros s8].
        apply (keeps_bind ids_kept); [case_match; [case_match; by apply keeps_modify|exact _]|intros []].
        apply (keeps_bind ids_kept); [by apply keeps_update|intros []].
        apply (keeps_bind ids_kept); [by apply keeps_modify|intros []]. by apply keeps_free. }
      unfold job_assign_tube, TUBE_ASSIGN. apply (keeps_bind ids_kept); [exact _|intros J1].
      apply (keeps_bind ids_kept).
      - unfold tube_dref. destruct (j_tube J1) as [t|]; [|exact _]. apply (keeps_bind ids_kept); [exact _|intros T].
        case_match; [exact _|]. apply (keeps_bind ids_kept); [by apply keeps_update|intros []]. case_match; [apply Hfree|exact _].
      - intros []. apply (keeps_bind ids_kept); [by apply keeps_update|intros []].
        unfold tube_iref. case_match; [by apply keeps_update|exact _]. }
    apply Hk in H5. unfold ids_kept in H5.
    unfold job_list_reset, put_link in H2. injection H2 as <-. apply update_Ret in H3 as (? & _ & ->).
    apply update_Ret in H4 as (? & _ & ->). apply update_Ret in H6 as (? & _ & ->). exact H5.
Qed.
#[export] Instance job_copy_wanes j : Keeps (wanes None) 1 (job_copy (Some j)).
Proof. intros s r s' Hrun. by apply job_copy_run in Hrun as [? _]. Qed.
End copy.
