(* ===== verification/Timeouts.v ===== *)
(** The timeouts of a connection on the invariant of the server: the jobs it had
    for too long are given back, and it is told when it waited for too long. *)
From S2P Require Import Prelude Heap Ms State Monad JobList JobHash Tube Job Wal Conn Queue QueueRep QueueOps QueueConn QueueProc Process Runs Owners QueueCmds QueueLoops Refs Life Sound Parse ParseSpec Stats Dispatch Commands Putting Frames Tame Safety Server Handlers Loop Pending Waning.
#[local] Open Scope Z_scope.

(** A run, and what holds after it. *)
Lemma wp_ran {A} (m : M A) (Q : A → St → Prop) s : wp m Q s → wp m (λ a s', Q a s' ∧ m s = Ret a s') s.
Proof. intros (a & s' & Hs & HQ)%wp_Ret. apply wp_Ret. eauto. Qed.

(** ** What is left of the rest of the state, whatever is allocated *)

Record lasting (s s' : St) : Prop := {
  ls_sized : sized s';
  ls_dom : dom (st_conns s') = dom (st_conns s);
  ls_next : 0 <= next_id (st_table s) → 0 <= next_id (st_table s') <= next_id (st_table s);
  ls_linked : linked ∅ s → linked ∅ s';
  ls_default : default_tube s' = default_tube s;
}.
Definition lasts (n : nat) (s s' : St) : Prop := sized s → lasting s s'.
#[export] Instance lasts_budget : Budget lasts.
Proof.
  split.
  - intros s Hs. by split.
  - intros n1 n2 s1 s2 s3 H1 H2 Hs. destruct (H1 Hs) as [Z1 D1 N1 L1 T1]. destruct (H2 Z1) as [Z2 D2 N2 L2 T2].
    split; [done|congruence|lia|auto|congruence].
  - by intros n1 n2 s s' _.
Qed.
#[export] Instance keeps_steady_lasts {A} (m : M A) : Keeps steady 0 m → Keeps lasts 0 m | 20.
Proof. intros Hm s a s' Hrun Hs. destruct (Hm _ _ _ Hrun Hs) as [Z D _ N L T]. split; try done. lia. Qed.

Lemma count_timeout_lasts f : Keeps lasts 0 (modify (fun s => s <| timeout_ct ::= f |>)).
Proof. apply keeps_modify. intros s Hs. split; rsimpl; first [done|lia]. Qed.
#[local] Existing Instance count_timeout_lasts.
#[local] Hint Constants Opaque : typeclass_instances.

Section frames.
Context {E : Env} {SI : SysInfo} {N : Net}.

#[export] Instance set_out_job_steady c o : Keeps steady 0 (set_out_job c o).
Proof. unfold set_out_job. keep. Qed.
#[export] Instance job_copy_lasts j : Keeps lasts 0 (job_copy (Some j)).
Proof.
  intros s r s' Hrun Hs. pose proof (job_copy_run _ _ _ _ Hrun) as [_ Hn]. unfold ids_kept in Hn.
  assert (Keeps steady 1 (job_copy (Some j))) as Hk by exact _.
  destruct (Hk _ _ _ Hrun Hs) as [Z D _ _ L T]. split; try done. lia.
Qed.
#[export] Instance conn_timeout_loop_lasts fuel c : Keeps lasts 0 (conn_timeout_loop fuel c).
Proof. induction fuel as [|fuel IH]; cbn [conn_timeout_loop]; keep. Qed.
#[export] Instance conn_timeout_lasts c : Keeps lasts 0 (conn_timeout c).
Proof. unfold conn_timeout. keep. Qed.
End frames.

Section timeouts.
Context {E : Env} {SI : SysInfo} {N : Net}.
Implicit Types (P : places) (ids : gmap Z jobp) (s : St) (j : jobp) (t : tubep) (c : connp) (C : Conn) (J : Job).

Lemma jobs_energy s : Z.of_nat (h_len (srv_conns s)) + Z.of_nat (size (st_jobs s)) <= energy s.
Proof.
  unfold energy. pose proof (total_size (λ J, if decide (r_state (j_r J) = Reserved) then 4 else 1) (st_jobs s) 1) as H1.
  pose proof (total_size (λ T, 4 * Z.of_nat (ms_len (t_waiting_conns T))) (st_tubes s) 0 ltac:(intros; cbv beta; lia)).
  pose proof (total_size (λ C, Z.b2z (conn_waiting C)) (st_conns s) 0 ltac:(intros C; cbv beta; destruct (conn_waiting C); simpl; lia)).
  assert (∀ J, 1 <= if decide (r_state (j_r J) = Reserved) then 4 else 1) as Hw by (intros J; case_decide; lia).
  specialize (H1 Hw). lia.
Qed.
Lemma wanes_energy s s' n : wanes None n s s' → energy s' <= energy s + Z.of_nat n.
Proof. intros [H _]. unfold energy_but, own_weight in H. lia. Qed.

(** ** The schedule of a connection *)

Lemma srv_inv_resched X ids P s s' c :
  srv_inv none X ids P s → unspoken X c s → queue_rep P ids ∅ s' → sched_step c s s' → known P s' c →
  srv_inv none ∅ ids P s'.
Proof.
  intros HI HX HR Hs Hk. eapply srv_inv_sched; [done|done|done|by apply sched_io|done|].
  by eapply (same_but_mono erase_sched), ss_conns.
Qed.

Lemma wp_soonest_srv ids P s c (Q : option jobp → St → Prop) :
  srv_inv none ∅ ids P s → is_Some (st_conns s !! c) →
  (∀ r s', srv_inv none ∅ ids P s' → sched_step c s s' →
     match r with Some j => P !! j = Some (InReserved c) | None => ∀ j, P !! j ≠ Some (InReserved c) end → Q r s') →
  wp (connsoonestjob c) Q s.
Proof.
  intros HI [C HC] HQ. eapply wp_connsoonestjob; [apply HI|set_solver|done|].
  intros r. cbv zeta. intros HR Hs Hr. apply HQ; [|done|by destruct r; [apply Hr|]].
  eapply srv_inv_resched; [done|by left|done|done|]. intros C'. unfold with_soonest. rsimpl.
  rewrite lookup_insert_eq. intros HC'. apply (inj Some) in HC' as <-. intros Hn. simpl in Hn. rsimpl. by rewrite Hn in Hr.
Qed.
Lemma wp_connsched_srv X ids P s c (Q : unit → St → Prop) :
  srv_inv none X ids P s → unspoken X c s → is_Some (st_conns s !! c) →
  (∀ s', srv_inv none ∅ ids P s' → sched_step c s s' → Q tt s') → wp (connsched c) Q s.
Proof.
  intros HI HX Hc HQ. eapply wp_connsched; [eapply unspoken_rep; [done|apply HI]|set_solver|done|].
  intros s' HR Hs Hk. apply HQ; [|done]. by eapply srv_inv_resched.
Qed.
Lemma sched_waiting c s s' c' C :
  sched_step c s s' → st_conns s !! c' = Some C → ∃ C', st_conns s' !! c' = Some C' ∧ erase_sched C' = erase_sched C.
Proof. intros Hs HC. eapply same_but_lookup; [apply Hs|done]. Qed.
Lemma erase_sched_waiting C C' : erase_sched C' = erase_sched C → conn_waiting C' = conn_waiting C.
Proof. intros He. unfold conn_waiting. assert (c_type C' = c_type C) as -> by exact (f_equal c_type He). done. Qed.

(** ** The job that is being sent *)

Lemma job_copy_some s j s' : (∀ k, is_Some (e_malloc k)) → job_copy (Some j) s ≠ Ret None s'.
Proof.
  intros Hmem Hrun. unfold job_copy in Hrun.
  apply bind_Ret in Hrun as (J & s0 & [HJ ->]%deref_Ret & Hrun). apply bind_Ret in Hrun as (n & s1 & Hm & Hrun).
  unfold malloc, tick, gets, mbind, M_bind in Hm. simpl in Hm. destruct (Hmem (st_tick s)) as [hint Hh]. rewrite Hh in Hm.
  injection Hm as <- _.
  do 5 (apply bind_Ret in Hrun as ([] & ? & _ & Hrun)). done.
Qed.

Lemma wp_out_copied ids P s c C j J (Q : unit → St → Prop) :
  srv_inv none ∅ ids P s → st_conns s !! c = Some C → P !! j = Some (InReserved c) → st_jobs s !! j = Some J →
  (∀ k, is_Some (e_malloc k)) → energy s + 2 * Z.of_nat (size (st_conns s)) + 1 < UINT32_MAX →
  (∀ C' s', srv_inv none ∅ ids P s' → st_conns s' !! c = Some C' → conn_waiting C' = conn_waiting C →
     st_jobs s' !! j = Some J → unowned ∅ (st_conns s') j → Q tt s') →
  wp (if decide (c_out_job C = Some j) then n ← job_copy (Some j); set_out_job c n else mret tt) Q s.
Proof.
  intros HI HC HP HJ Hmem Hroom HQ. pose proof (conn_own _ _ _ _ _ HI HC) as HO.
  assert (∀ c' C', st_conns s !! c' = Some C' → c_in_job C' ≠ Some j ∧ (c' ≠ c → c_out_job C' ≠ Some j)) as Hown.
  { intros c' C' HC'. pose proof (conn_own _ _ _ _ _ HI HC') as HO'. split.
    - intros Hj. destruct (oc_in _ _ _ _ HO' j Hj) as (_ & _ & ? & _). congruence.
    - intros Hne Hj. destruct (oc_out _ _ _ _ HO' j Hj) as (_ & [?|[? _]]); congruence. }
  case_decide as Hout.
  2: { wsteps. eapply HQ; [done|done|done|done|]. intros c' C' _ HC'. destruct (Hown c' C' HC') as [? H2]. split; [done|].
       destruct (decide (c' = c)) as [->|Hne]; [congruence|by apply H2]. }
  apply wp_bind. eapply wp_mono; [apply wp_ran; eapply (wp_job_copy _ _ _ _ _ _ _ (λ r s', r = None ∨ ∃ n, r = Some n ∧
      st_jobs s !! n = None ∧ srv_inv none ∅ ids P s' ∧ st_jobs s' = <[n := copy_of J]> (st_jobs s) ∧ life_step s s'));
    [done|done| |by left|intros; right; eauto 10]|].
  { intros t _. pose proof (refs_le s t). pose proof (jobs_energy s). cbn [none lc_refs]. lia. }
  intros r s' [[->|(n & -> & Hn & HI' & HJ' & HL)] Hrun]; [by apply job_copy_some in Hrun|].
  assert (n ≠ j) as Hnj by congruence. pose proof (lf_conns _ _ HL) as HCs.
  unfold set_out_job. eapply wp_update; [by rewrite HCs|]. set (C' := C <| c_out_job := Some n |>).
  assert (P !! n = None) as HPn by (by eapply fresh_place; [apply HI|]).
  eapply (HQ C'); [|rsimpl; apply lookup_insert_eq|done|rsimpl; by rewrite HJ', lookup_insert_ne|].
  - eapply srv_inv_settle; [by apply srv_inv_enter|by rewrite HCs|done..| | | |].
    + exact (ow_wait _ _ _ _ (sv_owns _ _ _ _ _ HI) c C HC).
    + destruct (conn_own _ _ _ _ _ HI' ltac:(by rewrite HCs)) as [KI KO KD KS KB KE]. split; try done.
      intros i [= <-]. split; [apply (KO j Hout)|]. right. split; [done|]. eexists. rewrite HJ', lookup_insert_eq. done.
    + intros i Hi. rewrite HCs. by eapply in_unowned.
    + intros i [= <-] c' D _ HD. rewrite HCs in HD. eapply (fresh_unowned none ∅ ids P s n HI Hn c'); [set_solver|done].
  - intros c' D _. rsimpl. rewrite HCs. intros [[<- <-]|[Hne HD]]%lookup_insert_Some.
    + split; [apply (Hown c C HC)|]. unfold C'. rsimpl. congruence.
    + split; [apply (Hown c' D HD)|]. by apply (Hown c' D HD).
Qed.

(** ** A job is taken from its connection and given back *)

(** What the proof of termination follows. *)
Definition spent (n : Z) s s' : Prop := energy s' + n <= energy s ∧ (prompt s → prompt s').
Lemma wanes_spent n s s' : wanes None n s s' → spent (- Z.of_nat n) s s'.
Proof. intros Hw. pose proof (wanes_energy _ _ _ Hw). split; [lia|apply Hw]. Qed.
Lemma spent_trans n1 n2 s1 s2 s3 : spent n1 s1 s2 → spent n2 s2 s3 → spent (n1 + n2) s1 s3.
Proof. intros [H1 P1] [H2 P2]. split; [lia|auto]. Qed.

Lemma lasting_then {A} (m : M A) s1 s2 a s3 `{HK : !Keeps lasts 0 m} : lasting s1 s2 → m s2 = Ret a s3 → lasting s1 s3.
Proof.
  intros [Z1 D1 N1 L1 T1] Hrun. pose proof (HK _ _ _ Hrun) as H2. destruct (H2 Z1) as [Z2 D2 N2 L2 T2].
  split; [done|congruence|lia|auto|congruence].
Qed.
Lemma lasting_refl s : sized s → lasting s s.
Proof. apply (bu_refl (R := lasts)). Qed.

Definition idle_conn c s : Prop := ∃ C, st_conns s !! c = Some C ∧ conn_waiting C = false.
Lemma idle_stays X D P s P' s' c C :
  stays X D P s P' s' → st_conns s !! c = Some C → conn_waiting C = false → c_soonest_job C = None →
  ∃ C', st_conns s' !! c = Some C' ∧ conn_waiting C' = false ∧ c_soonest_job C' = None.
Proof.
  intros HS HC Hw Hs. destruct (tl_calm _ _ _ _ _ (st_tells _ _ _ _ _ _ HS) c C HC Hw Hs) as (C' & HC' & Hs').
  destruct (st_talks _ _ _ _ _ _ HS c C HC) as (C1 & HC1 & [Ht|[? _]]); [|congruence].
  assert (C1 = C') as -> by congruence. exists C'. split_and!; [done| |done]. injection Ht as _ _ Hw'. congruence.
Qed.

Section one_job.
Context (ids : gmap Z jobp) (P : places) (s : St) (c : connp) (C : Conn) (j : jobp) (J : Job).
Context (HI : srv_inv none ∅ ids P s) (HC : st_conns s !! c = Some C) (Hw : conn_waiting C = false).
Context (HP : P !! j = Some (InReserved c)) (HJ : st_jobs s !! j = Some J) (Hu : unowned ∅ (st_conns s) j) (Hz : sized s).

Lemma wp_resched P' s1 s' (k : M unit) (Q : unit → St → Prop) :
  moving {[c]} {[j]} ids P s P' s' → is_Some (P' !! j) →
  (∃ C', st_conns s' !! c = Some C' ∧ conn_waiting C' = false ∧ c_soonest_job C' = None) →
  spent 0 s s1 → energy_but (Some j) s1 + 3 = energy s1 → (prompt s1 → prompt_but (Some j) s1) →
  given_back j s1 s' → lasting s s' →
  (∀ P' s', srv_inv none ∅ ids P' s' → idle_conn c s' → spent 2 s s' → lasting s s' → wp k Q s') →
  wp (connsched c;; k) Q s'.
Proof.
  intros HM Hj (C' & HC' & Hw' & Hs') [E1 P1] He Hp [E2 P2] Hl HQ.
  assert (srv_inv none {[c]} ids P' s') as HI'.
  { eapply (srv_inv_moving none ∅ {[c]} {[j]}); [done|done|set_solver|].
    intros y ->%elem_of_singleton. split; [by apply placed_idle|done]. }
  apply wp_bind. eapply wp_mono; [apply wp_ran, (wp_connsched_srv {[c]} ids P' s' c (λ _ s2, srv_inv none ∅ ids P' s2 ∧ sched_step c s' s2));
    [done|right; eauto|eauto|by auto]|].
  intros [] s2 [[HI2 Hs2] Hrun]. apply (connsched_wanes None) in Hrun as Hw2.
  eapply HQ; [exact HI2| | |].
  - destruct (sched_waiting _ _ _ _ _ Hs2 HC') as (C2 & HC2 & Hw3%erase_sched_waiting). exists C2. split; congruence.
  - pose proof (wanes_energy _ _ _ Hw2). split; [lia|]. intros Hs. apply Hw2, P2, Hp, P1, Hs.
  - exact (lasting_then (connsched c) _ _ _ _ Hl Hrun).
Qed.

Lemma wp_timeout_job (k : M unit) (Q : unit → St → Prop) :
  (∀ P' s', srv_inv none ∅ ids P' s' → idle_conn c s' → spent 2 s s' → lasting s s' → wp k Q s') →
  wp (x ← remove_this_reserved_job c (Some j);
      x ← nonnull x;
      r ← enqueue_job x 0 false;
      (if r : bool then mret true else bury_job j false);;
      connsched c;; k) Q s.
Proof.
  intros HQ. pose proof (lo_use _ (sv_log _ _ _ _ _ HI)) as Hnl.
  destruct (qr_place _ _ _ _ (qi_rep _ _ _ _ (sv_queue _ _ _ _ _ HI)) j _ HP) as (J0 & _ & _ & HJ0 & [Hst _] & _).
  assert (J0 = J) as -> by congruence. clear HJ0. apply wp_bind.
  eapply wp_mono; [apply wp_ran, (wp_unreserve _ _ _ _ _ _ _ _ (λ r s', r = Some j ∧ ∃ t Jb', j_r Jb' = j_r J ∧
    moving {[c]} {[j]} ids P s (delete j P) s' ∧ loose (delete j P) s' j t Jb' ∧
    st_conns s' !! c = Some (C <| c_soonest_job := None |>)) HI HC Hw HJ HP); eauto 10|].
  intros r s1 [(-> & t & Jb' & Hr & HM1 & HL1 & HC1) Hrun1]. apply (remove_this_reserved_job_wanes None) in Hrun1 as Hw1.
  apply (lasting_then _ _ _ _ _ (lasting_refl _ Hz)) in Hrun1 as Hl1.
  pose proof (moving_log _ _ _ _ _ _ _ HM1 Hnl) as Hnl1.
  assert (spent 0 s s1) as Hsp1 by (by apply (wanes_spent 0)).
  assert (energy_but (Some j) s1 + 3 = energy s1 ∧ (prompt s1 → prompt_but (Some j) s1)) as [He1 Hp1].
  { unfold energy_but, own_weight. rewrite (lo_job _ _ _ _ _ HL1). unfold weight. rewrite Hr, Hst, decide_True by done.
    split; [lia|]. intros Hs c' C' i I k0 _. by apply Hs. }
  apply wp_bind, wp_ret, wp_bind.
  eapply wp_mono; [apply wp_ran, (wp_enqueue_moving {[c]} ids (delete j P) s1 j t Jb' 0 false (λ r s', if r then
      ∃ P', moving {[c]} {[j]} ids (delete j P) s1 P' s' ∧ is_Some (P' !! j)
    else ∃ Jb2, moving {[c]} {[j]} ids (delete j P) s1 (delete j P) s' ∧ loose (delete j P) s' j t Jb2)); [apply HM1|done|done|eauto|eauto]|].
  intros b s2 [Hpost Hrun2]. apply (lasting_then _ _ _ _ _ Hl1) in Hrun2 as Hl2. apply enqueue_run in Hrun2. destruct b.
  - destruct Hpost as (P' & HM2 & Hj2). apply wp_bind, wp_ret. eapply (wp_resched P' s1); [|done| |done..].
    + eapply moving_trans; [exact HM1|exact HM2|apply unheld_none, HL1].
    + eapply idle_stays; [apply HM2|exact HC1|done|done].
  - destruct Hpost as (Jb2 & HM2 & HL2). pose proof (moving_log _ _ _ _ _ _ _ HM2 Hnl1) as Hnl2. apply wp_bind.
    eapply wp_mono; [apply wp_ran, (wp_bury_moving {[c]} ids (delete j P) s2 j t Jb2 false (λ _ s',
      ∃ P', moving {[c]} {[j]} ids (delete j P) s2 P' s' ∧ is_Some (P' !! j))); [apply HM2|done|done|eauto]|].
    intros b s3 [(P' & HM3 & Hj3) Hrun3]. apply (lasting_then _ _ _ _ _ Hl2) in Hrun3 as Hl3. apply bury_run in Hrun3 as [E3 P3].
    assert (moving {[c]} {[j]} ids (delete j P) s1 P' s3) as HM13.
    { eapply moving_trans; [exact HM2|exact HM3|apply unheld_none, HL2]. }
    eapply (wp_resched P' s1); [|done| |done..| |done|done].
    + eapply moving_trans; [exact HM1|exact HM13|apply unheld_none, HL1].
    + eapply idle_stays; [apply HM13|exact HC1|done|done].
    + destruct Hrun2 as [E2 P2]. split; [lia|]. intros Hs. by apply P3, P2.
Qed.
End one_job.

(** ** The loop *)

Section loop.
Context (Hmem : ∀ k, is_Some (e_malloc k)).

Definition ample s : Prop := energy s + 2 * Z.of_nat (size (st_conns s)) + 1 < UINT32_MAX.
Lemma ample_spent n s s' : 0 <= n → spent n s s' → dom (st_conns s') = dom (st_conns s) → ample s → ample s'.
Proof.
  intros Hn [He _] Hd. unfold ample. assert (size (st_conns s') = size (st_conns s)) as -> by (rewrite <- !size_dom; by rewrite Hd). lia.
Qed.

(** The connection does not wait: its jobs that are overdue are given back, and
    none of them can come back to it. *)
Lemma wp_conn_timeout_loop fuel c s :
  sound s → sized s → idle_conn c s → energy s <= Z.of_nat fuel → ample s →
  wp (conn_timeout_loop fuel c) (λ _ s', sound s' ∧ idle_conn c s' ∧ spent 0 s s') s.
Proof.
  revert s. induction fuel as [|fuel IH]; intros s (ids & P & HI) Hz (C & HC & Hw) Hf Ha;
    cbn [conn_timeout_loop]; apply wp_bind;
    (eapply wp_mono; [eapply (wp_kept lasts 0); [exact _|]; eapply (wp_kept (wanes None) 0); [exact _|];
      apply (wp_soonest_srv ids P s c (λ r s', srv_inv none ∅ ids P s' ∧ sched_step c s s' ∧
        match r with Some j => P !! j = Some (InReserved c) | None => ∀ j, P !! j ≠ Some (InReserved c) end)); eauto|]);
    intros r s1 [[(HI1 & Hs1 & Hr) Hw1] Hl1]; specialize (Hl1 Hz);
    apply (wanes_spent 0) in Hw1; destruct (sched_waiting _ _ _ _ _ Hs1 HC) as (C1 & HC1 & Hwt1%erase_sched_waiting);
    rewrite Hw in Hwt1; destruct r as [j|].
  2,4: apply wp_ret; split_and!; [by exists ids, P|by exists C1|done].
  all: destruct (qr_place _ _ _ _ (qi_rep _ _ _ _ (sv_queue _ _ _ _ _ HI1)) j _ Hr) as (J & _ & _ & HJ & [Hst _] & _).
  all: apply wp_bind; eapply wp_deref; [exact HJ|]; apply wp_bind, wp_nanoseconds; intros now.
  all: set (s2 := s1 <| st_tick ::= S |>).
  all: assert (srv_inv none ∅ ids P s2) as HI2 by (by apply srv_inv_tick).
  all: assert (spent 0 s s2) as Hsp2 by (eapply (spent_trans 0 0); [exact Hw1|apply (wanes_spent 0); by apply wanes_misc]).
  all: apply wp_if; intros _; [apply wp_ret; split_and!; [by exists ids, P|by exists C1|done]|].
  { exfalso. destruct Hsp2 as [He2 _]. pose proof (jobs_energy s2) as Hen. change (st_jobs s2) with (st_jobs s1) in Hen.
    assert (size (st_jobs s1) ≠ 0)%nat; [|lia]. intros H0%map_size_empty_inv. by rewrite H0 in HJ. }
  apply wp_bind. eapply wp_deref; [exact HC1|].
  assert (ample s2) as Ha2 by (eapply (ample_spent 0); [lia|exact Hsp2|apply Hl1|done]).
  apply wp_bind. eapply wp_mono.
  { eapply (wp_kept lasts 0); [keep|]. eapply (wp_kept (wanes None) 1); [|].
    2: { eapply (wp_out_copied ids P s2 c C1 j J (λ _ s', ∃ C', srv_inv none ∅ ids P s' ∧ st_conns s' !! c = Some C' ∧
      conn_waiting C' = conn_waiting C1 ∧ st_jobs s' !! j = Some J ∧ unowned ∅ (st_conns s') j)); eauto 10. }
    case_decide; [|apply (keeps_up (wanes None)); exact _]. apply (keeps_bind_last (wanes None)); [exact _|intros n; exact _]. }
  intros [] s3 [[(C3 & HI3 & HC3 & Hw3 & HJ3 & Hu3) Hwn3] Hl3]. apply wanes_spent in Hwn3.
  destruct (st_jobs s3 !! j) as [J3|] eqn:HJ3'; [|done]. injection HJ3 as ->.
  apply wp_bind, wp_modify. unfold upd_rec. apply wp_bind. eapply wp_update; [exact HJ3'|].
  match goal with |- wp _ _ ?s' => set (s4 := s') end.
  assert (srv_inv none ∅ ids P s4) as HI4 by (eapply srv_inv_sim; [|exact HI3]; solve_sim).
  assert (spent 0 s3 s4) as Hsp4.
  { apply (wanes_spent 0). unfold s4. apply (bu_trans 0 0 s3 (s3 <| timeout_ct ::= incr64 |>)); [by apply wanes_misc|].
    eapply wanes_job; [exact HJ3'|right]. apply calmer_same; [done|by left|done]. }
  assert (lasting s s4) as Hl4.
  { destruct (Hl3 (ls_sized _ _ Hl1)) as [Z D N0 L T]. destruct Hl1 as [Z1 D1 N1 L1 T1].
    split; unfold s4; rsimpl; [|exact (eq_trans D D1)| |intros HL; exact (L (L1 HL))|exact (eq_trans T T1)].
    2: { change (st_table s2) with (st_table s1) in N0. lia. }
    intros y Y HY. rsimpl_in HY. apply lookup_insert_Some in HY as [[<- <-]|[_ HY]]; [exact (Z j J HJ3')|by eapply Z]. }
  eapply (wp_timeout_job ids P s4 c C3 j); [exact HI4|exact HC3|congruence|exact Hr|apply lookup_insert_eq|exact Hu3|apply Hl4|].
  intros P' s5 HI5 Hc5 Hsp5 Hl5. eapply wp_mono; [apply IH; [by exists ids, P'|apply Hl5|done| |]|].
  - destruct Hsp2, Hwn3, Hsp4, Hsp5. lia.
  - eapply (ample_spent 0 s); [lia| | |done].
    + destruct Hsp2, Hwn3, Hsp4, Hsp5. split; [lia|auto].
    + rewrite (ls_dom _ _ Hl5). apply Hl4.
  - intros [] s6 (HS & Hc & Hsp6). split_and!; [done|done|]. destruct Hsp2, Hwn3, Hsp4, Hsp5, Hsp6. split; [lia|auto 10].
Qed.

(** The connection waits: none of its jobs is overdue. *)
Lemma wp_clock (Q : Z → St → Prop) s : Q (e_clock (st_tick s)) (s <| st_tick ::= S |>) → wp nanoseconds Q s.
Proof. done. Qed.
Lemma prompt_job ids P s c C j J k :
  srv_inv none ∅ ids P s → prompt s → st_conns s !! c = Some C → conn_waiting C = true →
  P !! j = Some (InReserved c) → st_jobs s !! j = Some J → e_clock k <= r_deadline_at (j_r J).
Proof.
  intros HI Hp HC Hw HP HJ.
  destruct (qr_place _ _ _ _ (qi_rep _ _ _ _ (sv_queue _ _ _ _ _ HI)) j _ HP) as (J' & _ & _ & HJ' & [Hst Hr] & _).
  assert (J' = J) as -> by congruence. by eapply Hp.
Qed.

(** [c] waits, with its jobs. *)
Definition waits ids P c s : Prop :=
  srv_inv none ∅ ids P s ∧ ∃ C, st_conns s !! c = Some C ∧ conn_waiting C = true.
Lemma waits_sched ids P c s s' :
  waits ids P c s → srv_inv none ∅ ids P s' → sched_step c s s' → waits ids P c s'.
Proof.
  intros [_ (C & HC & Hw)] HI Hs. split; [done|]. destruct (sched_waiting _ _ _ _ _ Hs HC) as (C' & HC' & He%erase_sched_waiting).
  exists C'. split; congruence.
Qed.

Lemma wp_soonest_waits ids P c s :
  waits ids P c s → wp (connsoonestjob c) (λ r s', waits ids P c s' ∧ spent 0 s s' ∧
    ∀ j, r = Some j → P !! j = Some (InReserved c)) s.
Proof.
  intros HW. pose proof HW as (HI & C & HC & _).
  eapply wp_mono; [eapply (wp_kept (wanes None) 0); [exact _|]; apply (wp_soonest_srv ids P s c (λ r s', waits ids P c s' ∧
    ∀ j, r = Some j → P !! j = Some (InReserved c))); [done|eauto|]|].
  - intros r s' HI' Hs Hr. split; [by eapply waits_sched|]. by intros j ->.
  - intros r s' [[H1 H2] Hw%(wanes_spent 0)]. done.
Qed.
Lemma waits_tick ids P c s : waits ids P c s → waits ids P c (s <| st_tick ::= S |>).
Proof. intros [HI HC]. split; [by apply srv_inv_tick|exact HC]. Qed.
Lemma spent_tick s : spent 0 s (s <| st_tick ::= S |>).
Proof. apply (wanes_spent 0). by apply wanes_misc. Qed.

Lemma wp_deadline_waits ids P c s :
  waits ids P c s → wp (conndeadlinesoon c) (λ _ s', waits ids P c s' ∧ spent 0 s s') s.
Proof.
  intros HW. unfold conndeadlinesoon. apply wp_bind, wp_clock, wp_bind.
  eapply wp_mono; [apply wp_soonest_waits, waits_tick, HW|]. intros r s' (HW' & Hs & Hr).
  assert (spent 0 s s') as Hs' by (by eapply (spent_trans 0 0); [apply spent_tick|]).
  destruct r as [j|]; [|by apply wp_ret].
  destruct (reserved_live _ _ _ _ c j (qi_rep _ _ _ _ (sv_queue _ _ _ _ _ (proj1 HW'))) (Hr j eq_refl)) as [J HJ].
  apply wp_bind. eapply wp_deref; [exact HJ|]. by apply wp_ret.
Qed.
Lemma wp_timeout_waits fuel ids P c s :
  waits ids P c s → prompt s → wp (conn_timeout_loop fuel c) (λ _ s', waits ids P c s' ∧ spent 0 s s') s.
Proof.
  intros HW Hp. destruct fuel; cbn [conn_timeout_loop]; apply wp_bind;
    (eapply wp_mono; [apply wp_soonest_waits, HW|]); intros r s' (HW' & Hs & Hr);
    (destruct r as [j|]; [|by apply wp_ret]);
    destruct (reserved_live _ _ _ _ c j (qi_rep _ _ _ _ (sv_queue _ _ _ _ _ (proj1 HW'))) (Hr j eq_refl)) as [J HJ];
    apply wp_bind; (eapply wp_deref; [exact HJ|]); apply wp_bind, wp_clock;
    pose proof HW' as (HI' & C & HC & Hw);
    rewrite (proj2 (Z.leb_le _ _)) by (eapply prompt_job; [exact HI'|by apply Hs|done..|by apply Hr|done]);
    apply wp_ret; (split; [by apply waits_tick|]); by eapply (spent_trans 0 0); [|apply spent_tick].
Qed.

(** It stops waiting and is told why. *)
Lemma wp_stop_waiting ids P c s m :
  waits ids P c s → wp (remove_waiting_conn c;; reply_msg c m) (λ _ s', sound s' ∧ spent 0 s s') s.
Proof.
  intros (HI & C & HC & Hw). apply wp_bind.
  eapply wp_mono; [apply wp_ran; apply (wp_remove_waiting none ∅ ids P c C s (λ _ s', ∃ C', srv_inv none ∅ ids P s' ∧
    st_conns s' = <[c := C']> (st_conns s) ∧ conn_waiting C' = false ∧ (C' = unwait C ∨ C' = C)) HI HC); eauto 10|].
  intros [] s1 [(C1 & HI1 & HC1 & Hw1 & HCC) ([_ Hp] & _ & He)%(remove_waiting_run None)].
  specialize (He C HC Hw). unfold energy_but, own_weight in He.
  assert (st_conns s1 !! c = Some C1) as HC1' by (rewrite HC1; apply lookup_insert_eq).
  eapply wp_mono; [eapply (wp_kept (wanes None) 1); [exact _|]; eapply (reply_msg_safe ∅ ids P s1 c HI1); [by left|]|].
  - exists C1. split; [done|]. eapply own_rest; [by eapply conn_own|done|].
    pose proof (conn_wait_state _ _ _ _ _ HI HC Hw) as Hst. right; right. by destruct HCC as [-> | ->].
  - intros [] s2 [HS Hw2]. split; [exact HS|]. pose proof (wanes_energy _ _ _ Hw2). split; [lia|]. intros Hs. by apply Hw2, Hp.
Qed.

(** Every timeout of a connection. *)
Lemma wp_conn_timeout c s :
  sound s → sized s → is_Some (st_conns s !! c) → prompt s → ample s →
  wp (conn_timeout c) (λ _ s', sound s' ∧ spent 0 s s') s.
Proof.
  intros HS Hz [C HC] Hp Ha. unfold conn_timeout. apply wp_bind. eapply wp_deref; [exact HC|]. apply wp_bind.
  destruct (conn_waiting C) eqn:Hw.
  - destruct HS as (ids & P & HI). assert (waits ids P c s) as HW by (split; [done|eauto]).
    eapply wp_mono; [apply wp_deadline_waits, HW|]. intros soon s1 [HW1 Hs1]. apply wp_bind, wp_gets, wp_bind.
    eapply wp_mono; [apply wp_timeout_waits; [exact HW1|by apply Hs1]|]. intros [] s2 [HW2 Hs2].
    assert (spent 0 s s2) as Hs02 by (by eapply (spent_trans 0 0)).
    apply wp_if; intros _.
    { eapply wp_mono; [by eapply wp_stop_waiting|]. intros [] s3 [H3 Hs3]. split; [done|]. by eapply (spent_trans 0 0). }
    pose proof HW2 as (HI2 & C2 & HC2 & Hw2). apply wp_bind. eapply wp_deref; [exact HC2|]. rewrite Hw2. cbn [andb].
    apply wp_if; intros _; [|apply wp_ret; split; [by exists ids, P|done]].
    unfold upd_conn. apply wp_bind. eapply wp_update; [exact HC2|]. set (C3 := C2 <| c_pending_timeout := -1 |>).
    eapply wp_mono; [apply (wp_stop_waiting ids P); split; [eapply srv_inv_sim; [by eapply conn_sim|done]|exists C3; split; [apply lookup_insert_eq|done]]|].
    intros [] s4 [H4 Hs4]. split; [done|]. eapply (spent_trans 0 0); [exact Hs02|]. eapply (spent_trans 0 0); [|exact Hs4].
    apply (wanes_spent 0). by eapply wanes_conn.
  - apply wp_ret, wp_bind, wp_gets, wp_bind. eapply wp_mono; [apply wp_conn_timeout_loop; [done|done|by exists C| |done]|].
    + pose proof (jobs_energy s). assert (energy s <= Z.of_nat (Z.to_nat (energy s))) by lia. done.
    + intros [] s1 (HS1 & (C1 & HC1 & Hw1) & Hs1). apply wp_bind. eapply wp_deref; [exact HC1|]. rewrite Hw1. by apply wp_ret.
Qed.
End loop.
End timeouts.
