(* ===== verification/Ticks.v ===== *)
(** The periodic work of [prottick]: promoting the delayed jobs that are due, and
    unpausing tubes. *)
From S2P Require Import Prelude Heap Ms State Monad JobList JobHash Tube Job Wal Conn Queue Parse Stats Dispatch Server QueueRep QueueOps QueueConn QueueProc Process Runs QueueCmds QueueLoops QueueSpec.
#[local] Open Scope Z_scope.

Section ticks.
Context {E : Env} {SI : SysInfo} {N : Net}.
Implicit Types (P : places) (ids : gmap Z jobp) (X : gset connp) (s : St).
Implicit Types (j : jobp) (t : tubep) (c : connp) (D : gset jobp).

(** ** Delayed jobs *)

Definition is_delay (p : place) : Prop := match p with InDelay _ => True | _ => False end.
#[local] Instance is_delay_dec p : Decision (is_delay p).
Proof. destruct p; simpl; solve_decision. Defined.
Definition delayed_jobs P : gset jobp := jobs_at is_delay P.

Lemma elem_of_delayed P j : j ∈ delayed_jobs P ↔ delayed P j.
Proof.
  unfold delayed_jobs, delayed. rewrite elem_of_jobs_at.
  split; [intros ([] & ? & []); eauto|intros [t ?]; by exists (InDelay t)].
Qed.

(** The delayed jobs whose deadline is over. *)
Definition due now P s j : Prop := delayed P j ∧ deadline (st_jobs s) j <= now.

(** The jobs that are still delayed have not changed, and the ones given back
    are not delayed. *)
Lemma drains_delayed X D P s P' s' j :
  drains X D P s P' s' → (delayed P j → is_Some (st_jobs s !! j)) → (j ∈ D → ∃ Jb t, st_jobs s !! j = Some Jb ∧ j_tube Jb = Some t) →
  (delayed P' j ↔ (j ∉ D) ∧ delayed P j) ∧
  (delayed P' j → deadline (st_jobs s') j = deadline (st_jobs s) j).
Proof.
  intros [HS L] Hlive HD. pose proof (st_move _ _ _ _ _ _ HS) as O. destruct (decide (j ∈ D)) as [Hj|Hj].
  - assert (¬ delayed P' j) as Hn.
    { intros [t' HP']. destruct (HD Hj) as (Jb & t & HJb & Ht).
      destruct (L j Jb t Hj HJb Ht) as [H|[H|(c' & C & H & _)]]; congruence. }
    tauto.
  - destruct (O j Hj) as [Heq|(t & c & H1 & H2 & _)].
    + unfold delayed in *. rewrite Heq. split; [tauto|]. intros Ht.
      pose proof (st_same _ _ _ _ _ _ HS j Hj (Hlive Ht) Heq) as He. unfold deadline.
      destruct (st_jobs s' !! j) as [A|], (st_jobs s !! j) as [B|]; try done.
      apply (inj Some) in He. assert (j_r A = j_r B) as -> by exact (f_equal j_r He). done.
    + unfold delayed. split; [split|]; [intros [? ?]|intros [_ [? ?]]|intros [? ?]]; congruence.
Qed.

(** [r] is [period], or less when a delayed job is due earlier. *)
Definition earliest now period P s (r : Z) : Prop :=
  r <= period ∧ (∀ j, delayed P j → r <= deadline (st_jobs s) j - now) ∧
  (r = period ∨ ∃ j, delayed P j ∧ r = deadline (st_jobs s) j - now).

Lemma wp_tick_delayed_loop fuel X ids P s now period (Q : Z → St → Prop) :
  queue_inv X ids P s → (size (delayed_jobs P) <= fuel)%nat →
  (∀ D P' s' r, queue_inv X ids P' s' → drains X D P s P' s' → qframe s s' →
     (∀ j, j ∈ D ↔ due now P s j) → earliest now period P' s' r → Q r s') →
  wp (tick_delayed_loop fuel now period) Q s.
Proof.
  revert P s. induction fuel as [|fuel IH]; intros P s HI Hf HQ;
    cbn [tick_delayed_loop]; apply wp_bind;
    (eapply wp_soonest_delayed_job; [apply HI|]); intros [j|] Hsoon; simpl in Hsoon.
  2,4: wsteps; apply (HQ ∅ P); [done|by apply quiet_drains|done| |split_and!; [lia| |by left]];
    [intros j; unfold due; specialize (Hsoon j); set_solver|intros j Hj; by destruct (Hsoon j)].
  all: destruct Hsoon as [[t Hj] Hmin].
  all: destruct (qr_place _ _ _ _ (qi_rep _ _ _ _ HI) j _ Hj) as (Jb & t' & T & HJb & [_ Ht] & Ht' & _).
  all: assert (t' = t) as -> by congruence.
  all: assert (deadline (st_jobs s) j = r_deadline_at (j_r Jb)) as Hdl by (unfold deadline; by rewrite HJb).
  all: wsteps; destruct (Z.ltb_spec 0 (r_deadline_at (j_r Jb) - now)) as [Hd|Hd].
  1,3: wsteps; apply (HQ ∅ P); [done|by apply quiet_drains|done| |].
  1,3: intros x; unfold due; split; [set_solver|intros [Hx%Hmin Hle]; lia].
  1,2: unfold earliest; split_and!; [lia|intros x Hx%Hmin; lia|];
    destruct (decide (period <= r_deadline_at (j_r Jb) - now)); [left; lia|right; exists j];
    (split; [by exists t|lia]).
  { assert (j ∈ delayed_jobs P) as Hin by (apply elem_of_delayed; by exists t).
    assert (size (delayed_jobs P) = 0%nat) as Hz by lia. apply size_empty_inv in Hz. set_solver. }
  wsteps. eapply wp_undelay; [done..|]. intros s1 Jb1 HI1 HL1 Hs1 Ho1 _.
  eapply wp_give_back; [done..|]. intros P2 s2 HI2 Hd2 HF2.
  rewrite <- (right_id_L ∅ (∪) {[j]}) in Hd2.
  assert (drains X ({[j]} ∪ ∅) P s P2 s2) as Hd02.
  { eapply drains_after_take; [done..|apply unheld_empty]. }
  assert (∀ x, (delayed P2 x ↔ x ≠ j ∧ delayed P x) ∧
    (delayed P2 x → deadline (st_jobs s2) x = deadline (st_jobs s) x)) as Hdel.
  { intros x. destruct (drains_delayed _ _ _ _ _ _ x Hd02) as [H1 H2].
    - intros [tx Hx]. destruct (qr_place _ _ _ _ (qi_rep _ _ _ _ HI) x _ Hx) as (? & _ & _ & ? & _). eauto.
    - intros Hx. assert (x = j) as -> by set_solver. eauto.
    - rewrite H1. split; [set_solver|]. by rewrite <- H1. }
  eapply IH; [done| |].
  - assert (size (delayed_jobs P2) < size (delayed_jobs P))%nat; [|lia].
    eapply (jobs_at_drain _ P P2 j); [exact Hj|done|]. intros x.
    change (x ∈ delayed_jobs P2 → x ≠ j ∧ x ∈ delayed_jobs P). rewrite !elem_of_delayed.
    intros Hx. by apply Hdel.
  - intros D P' s' r HI' Hd' HF' HD He.
    apply (HQ ({[j]} ∪ ∅ ∪ D) P'); [done| |eauto with queue| |done].
    { eapply drains_trans; [exact Hd02|done|]. intros x c' C' [[t' Hx] _]%HD Hx'. congruence. }
    intros x. rewrite !elem_of_union, HD, elem_of_singleton. unfold due.
    destruct (Hdel x) as [H1 H2]. destruct (decide (x = j)) as [->|Hne].
    + split; [intros _|by left; left]. split; [by exists t|lia].
    + rewrite H1. split.
      * intros [[?|?]|[[_ Hx] Hle]]; [done|set_solver|]. split; [done|]. rewrite <- H2; [done|by apply H1].
      * intros [Hx Hle]. right. split; [done|]. rewrite H2; [done|by apply H1].
Qed.

(** C12: the first loop of [prottick] terminates within one turn per job.  Exactly
    the delayed jobs whose deadline is over leave the delay heaps: each becomes
    ready or buried in its tube, or is handed to a connection that waited for its
    tube.  Other jobs move only from ready to a connection that waited; and the
    result is the time until the next delayed job is due, at most [period]. *)
Theorem tick_promotes_due X ids P s now period :
  queue_inv X ids P s →
  ∃ r P' s', returns (tick_delayed_loop (size (st_jobs s)) now period) s r s' ∧
    queue_inv X ids P' s' ∧
    (∀ j t, due now P s j → P !! j = Some (InDelay t) → lands s P' j t) ∧
    (∀ j, ¬ due now P s j → fair_move P P' s j) ∧
    earliest now period P' s' r.
Proof.
  intros HI.
  assert (wp (tick_delayed_loop (size (st_jobs s)) now period) (λ r s', ∃ P', queue_inv X ids P' s' ∧
    (∀ j t, due now P s j → P !! j = Some (InDelay t) → lands s P' j t) ∧
    (∀ j, ¬ due now P s j → fair_move P P' s j) ∧ earliest now period P' s' r) s) as Hwp.
  { eapply wp_tick_delayed_loop; [done| |].
    - unfold delayed_jobs. eapply jobs_at_le, HI.
    - intros D P' s' r HI' [HS HL] _ HD He. exists P'. split_and!; [done| | |done].
      + intros j t Hj Ht. destruct (qr_place _ _ _ _ (qi_rep _ _ _ _ HI) j _ Ht) as (J & t' & T & HJ & [_ ?] & Ht' & _).
        assert (t' = t) as -> by congruence. eapply HL; [by apply HD|done..].
      + intros j Hj. eapply st_move; [done|]. by rewrite HD. }
  apply wp_Ret in Hwp as (r & s' & ? & P' & ?). by exists r, P', s'.
Qed.
End ticks.

Section witnesses.
Import QueueSpec.Demo.
(** At time 200 job 2, whose deadline is 102, is due. *)
Lemma tick_promotes_due_witness :
  ∃ r P' s', returns (tick_delayed_loop (size (st_jobs state)) 200 1000) state r s' ∧
    queue_inv ∅ ids P' s' ∧
    (∀ j t, due 200 P state j → P !! j = Some (InDelay t) → lands state P' j t) ∧
    (∀ j, ¬ due 200 P state j → fair_move P P' state j) ∧
    earliest 200 1000 P' s' r.
Proof. exact (tick_promotes_due ∅ ids P state 200 1000 inv). Defined.
End witnesses.
