(* ===== verification/Turns.v ===== *)
(** A turn of the server: [prottick] and then one event.  Each of the three loops
    of [prottick] ends and keeps the invariant of the server, so that turns can
    follow one another. *)
From S2P Require Import Prelude Heap Ms State Monad JobList JobHash Tube Job Wal Conn Queue QueueRep QueueOps QueueConn QueueProc Process Runs Owners QueueCmds QueueLoops Refs Life Sound Parse ParseSpec Stats Dispatch Commands Reserving Putting Frames Tame QueueSpec Safety Server Handlers Loop Pending Events Waning Timeouts Ticks.
#[local] Open Scope Z_scope.

Section frames.
Context {E : Env} {SI : SysInfo} {N : Net}.
#[local] Hint Constants Opaque : typeclass_instances.


Lemma give_back_wanes j s b s' :
  (r ← enqueue_job j 0 false; if r : bool then mret true else bury_job j false) s = Ret b s' → wanes None 0 s s'.
Proof.
  intros (r & s1 & H1%enqueue_run & Hrun)%bind_Ret. apply (given_back_wanes j). destruct r.
  - by injection Hrun as _ <-.
  - apply bury_run in Hrun as [He Hp]. destruct H1 as [E1 P1]. split; [lia|auto].
Qed.
#[export] Instance tick_delayed_loop_steady fuel now period : Keeps steady 0 (tick_delayed_loop fuel now period).
Proof. revert period. induction fuel as [|fuel IH]; intros; cbn [tick_delayed_loop]; keep. Qed.
#[export] Instance tick_pause_loop_steady fuel i now period : Keeps steady 0 (tick_pause_loop fuel i now period).
Proof. revert i period. induction fuel as [|fuel IH]; intros; cbn [tick_pause_loop]; keep. Qed.
#[export] Instance tick_delayed_loop_wanes fuel now period : Keeps (wanes None) 0 (tick_delayed_loop fuel now period).
Proof.
  revert period. induction fuel as [|fuel IH]; intros; cbn [tick_delayed_loop];
    (apply (keeps_bind (wanes None)); [exact _|intros [j|]; [|exact _]]);
    (apply (keeps_bind (wanes None)); [exact _|intros J]); cbv zeta; (case_match; [exact _|]); [exact _|].
  apply (keeps_bind (wanes None)); [exact _|intros t]. apply (keeps_bind (wanes None)); [keep|intros r].
  intros s z s' (b & s1 & H1 & (b' & s2 & H2 & H3)%bind_Ret)%bind_Ret.
  apply (bu_trans 0 0 s s2); [|by eapply IH]. apply (give_back_wanes j s b').
  unfold mbind, M_bind. by rewrite H1.
Qed.
#[export] Instance tick_pause_loop_wanes fuel i now period : Keeps (wanes None) 0 (tick_pause_loop fuel i now period).
Proof. revert i period. induction fuel as [|fuel IH]; intros; cbn [tick_pause_loop]; keep. Qed.
#[export] Instance tick_conns_loop_lasts fuel now period : Keeps lasts 0 (tick_conns_loop fuel now period).
Proof. revert period. induction fuel as [|fuel IH]; intros; cbn [tick_conns_loop]; keep. Qed.
End frames.

Section turns.
Context {E : Env} {SI : SysInfo} {N : Net}.
Implicit Types (P : places) (ids : gmap Z jobp) (s : St) (c : connp) (C : Conn) (n : nat).

(** ** Delayed jobs *)

Lemma wp_ticked_delayed s now period :
  sound s → wp (tick_delayed_loop (size (st_jobs s)) now period) (λ _ s', sound s') s.
Proof.
  intros (ids & P & HI). pose proof (sv_queue _ _ _ _ _ HI) as HQ.
  eapply wp_tick_delayed_loop; [exact HQ|eapply jobs_at_le, HQ|].
  intros D P' s' r HI' Hd HF HD _. exists ids, P'.
  eapply (srv_inv_moving none ∅ ∅ D); [exact HI|split; [done|apply Hd|by apply qframe_sframe]|done|].
  intros j Hj. destruct (proj1 (HD j) Hj) as [[t Ht] _]. split.
  - destruct (qr_place _ _ _ _ (qi_rep _ _ _ _ HQ) j _ Ht) as (J & t' & T & HJ & _ & Ht' & _).
    apply placed_idle. destruct (dr_lands _ _ _ _ _ _ Hd j J t' Hj HJ Ht') as [->|[->|(? & ? & -> & _)]]; eauto.
  - eapply owns_placed; [exact Ht|done|apply HI].
Qed.

(** ** Paused tubes *)

Lemma process_queue_frame x ids P s :
  srv_inv x ∅ ids P s → wp process_queue (λ _ s', (∃ P', srv_inv x ∅ ids P' s') ∧ ms_items (tubes s') = ms_items (tubes s)) s.
Proof.
  intros HI. eapply wp_process_queue_inv; [apply HI|]. intros P' s' Hs HI'.
  assert (moving ∅ ∅ ids P s P' s') as HM by (by apply moving_serve). split; [exists P'|apply (sf_set _ _ (mo_frame _ _ _ _ _ _ _ HM))].
  eapply (srv_inv_moving _ ∅ ∅ ∅); [exact HI|exact HM|done|]. by intros j ?%not_elem_of_empty.
Qed.
(** A tube goes on. *)
Lemma resumed_sim s t T : st_tubes s !! t = Some T → srv_sim s (s <| st_tubes ::= <[t := T <| t_pause := 0 |>]> |>).
Proof. intros HT. solve_sim. Qed.

Lemma wp_ticked_pause fuel i now period s :
  sound s → (ms_len (tubes s) < i + fuel)%nat →
  wp (tick_pause_loop fuel i now period) (λ _ s', sound s') s.
Proof.
  revert i period s. induction fuel as [|fuel IH]; intros i period s (ids & P & HI) Hf; cbn [tick_pause_loop];
    apply wp_bind, wp_gets; unfold Datatypes.id; (destruct (ms_items (tubes s) !! i) as [t|] eqn:Ht; [|apply wp_ret; by exists ids, P]).
  { apply lookup_lt_Some in Ht. unfold ms_len in Hf. lia. }
  destruct (proj2 (qr_tubes _ _ _ _ (qi_rep _ _ _ _ (sv_queue _ _ _ _ _ HI))) t) as [T HT]; [by eapply list_elem_of_lookup_2|].
  apply wp_bind. eapply wp_deref; [exact HT|]. cbv zeta. apply wp_if; intros _.
  2: { apply wp_if; intros _; (apply IH; [by exists ids, P|lia]). }
  apply wp_bind. eapply wp_update; [exact HT|]. set (s1 := s <| st_tubes ::= _ |>).
  assert (srv_inv none ∅ ids P s1) as HI1 by (eapply srv_inv_sim; [by apply resumed_sim|done]).
  apply wp_bind. eapply wp_mono; [eapply process_queue_frame, HI1|].
  intros [] s2 [[P2 HI2] Htb]. apply IH; [by exists ids, P2|]. unfold ms_len. rewrite Htb. unfold ms_len in Hf. change (tubes s1) with (tubes s). lia.
Qed.

(** ** Timers *)

Lemma timers_head Cs (h : Heap connp) :
  timers Cs h → h_len h ≠ 0%nat → ∃ c C, h_data h !! 0%nat = Some c ∧ Cs !! c = Some C.
Proof.
  intros [[Hlen Hcap] Hl] Hn. destruct (h_data h) as [|c l] eqn:Hd; [simpl in *; lia|].
  destruct (Hl c) as [C HC]; [unfold elems; rewrite Hd; destruct (h_len h); [lia|by left]|]. by exists c, C.
Qed.

Lemma conns_step_sim s s' : conns_step s s' → srv_sim s s'.
Proof.
  intros [Hz Hj Ht Hl Hc Hh].
  split; split; rewrite ?Hj, ?Ht; try done; try (by eapply (same_but_mono erase_tick)).
  - exact (f_equal (λ s, ms_items (tubes s)) Hz).
  - exact (f_equal st_table Hz).
  - exact (f_equal (λ s, ms_items (tubes s)) Hz).
  - exact (f_equal default_tube Hz).
  - exact (f_equal srv_wal Hz).
Qed.
Lemma lasting_conn s s1 c C C' :
  lasting s s1 → st_conns s1 !! c = Some C → c_next C' = c_next C → lasting s (s1 <| st_conns ::= <[c := C']> |>).
Proof.
  intros [Z D N0 L T] HC Hn. destruct (steady_conn s1 c C C' HC Hn Z) as [Z1 D1 _ N1 L1 T1].
  split; [done|congruence|lia|auto|congruence].
Qed.

Section loop.
Context (Hmem : ∀ k, is_Some (e_malloc k)).

Lemma wp_ticked_conns fuel now period s :
  sound s → sized s → prompt s → ample s → energy s <= Z.of_nat fuel →
  wp (tick_conns_loop fuel now period) (λ _ s', sound s' ∧ spent 0 s s') s.
Proof.
  revert period s. induction fuel as [|fuel IH]; intros period s HS Hz Hp Ha Hf; cbn [tick_conns_loop];
    apply wp_bind, wp_gets; unfold Datatypes.id; (case_match eqn:Hlen; [apply wp_ret; split; [done|by apply (wanes_spent 0), bu_refl]|]);
    apply Nat.eqb_neq in Hlen; destruct HS as (ids & P & HI);
    pose proof (qr_conns _ _ _ _ (qi_rep _ _ _ _ (sv_queue _ _ _ _ _ HI))) as Htm;
    destruct (timers_head _ _ Htm Hlen) as (c & C & Hc & HC); rewrite Hc;
    apply wp_bind, wp_ret, wp_bind; (eapply wp_deref; [exact HC|]); cbv zeta;
    (apply wp_if; intros _; [apply wp_ret; split; [by exists ids, P|by apply (wanes_spent 0), bu_refl]|]).
  { exfalso. pose proof (jobs_energy s). lia. }
  apply wp_bind. eapply wp_mono; [apply wp_ran; eapply (wp_kept lasts 0); [exact _|];
    apply (wp_conns_heapremove 0%nat (λ _ s', conns_step s s')); [exact Htm|done]|].
  intros r s1 [[Hs1 Hl1] [He1 Hp1]%(conns_heapremove_run None)]. specialize (Hl1 Hz).
  rewrite (proj2 (Nat.leb_gt _ _)) in He1 by lia. unfold energy_but, own_weight in He1.
  assert (srv_inv none ∅ ids P s1) as HI1 by (eapply srv_inv_sim; [by apply conns_step_sim|exact HI]).
  destruct (same_but_lookup _ _ _ _ _ (cs_conns _ _ Hs1) HC) as (C1 & HC1 & _).
  unfold upd_conn. apply wp_bind. eapply wp_update; [exact HC1|]. set (C2 := C1 <| c_in_conns := false |>).
  set (s2 := s1 <| st_conns ::= _ |>).
  assert (sound s2) as HS2 by (exists ids, P; eapply srv_inv_sim; [by eapply conn_sim|done]).
  assert (lasting s s2) as Hl2 by (by eapply lasting_conn).
  assert (spent 1 s s2) as Hsp2.
  { assert (wanes None 0 s1 s2) as Hw by (by eapply wanes_conn). pose proof (wanes_energy _ _ _ Hw). split; [lia|]. intros _. by apply Hw, Hp1. }
  apply wp_bind. eapply wp_mono; [apply wp_ran, wp_conn_timeout; [exact Hmem|exact HS2|apply Hl2| |by apply Hsp2|]|].
  { exists C2. unfold s2. rsimpl. apply lookup_insert_eq. }
  { eapply (ample_spent 1 s); [lia|exact Hsp2|apply Hl2|done]. }
  intros [] s3 [[HS3 Hsp3] Hrun3]. apply (lasting_then (conn_timeout c) _ _ _ _ Hl2) in Hrun3 as Hl3.
  assert (spent 1 s s3) as Hsp by (by apply (spent_trans 1 0 s s2)).
  eapply wp_mono; [apply IH; [done|apply Hl3|by apply Hsp| |destruct Hsp; lia]|].
  - eapply (ample_spent 1 s); [lia|exact Hsp|apply Hl3|done].
  - intros z s4 [HS4 Hsp4]. split; [done|]. destruct Hsp, Hsp4. split; [lia|auto].
Qed.

(** ** The whole of [prottick] *)

Lemma shuffled_wanes x s s' : shuffled s s' → wanes x 0 s s'.
Proof.
  intros [He HC].
  assert (st_jobs s' = st_jobs s) as HJ by exact (f_equal st_jobs He).
  assert (st_tubes s' = st_tubes s) as HT by exact (f_equal st_tubes He).
  assert (srv_conns s' = srv_conns s) as Hh by exact (f_equal srv_conns He).
  assert (∀ A B, e_next B = e_next A → conn_waiting B = conn_waiting A) as Hw.
  { intros A B Hab. unfold conn_waiting. assert (c_type B = c_type A) as -> by exact (f_equal c_type Hab). done. }
  split.
  - unfold energy_but, own_weight, energy. rewrite HJ, HT, Hh.
    rewrite (total_same_but _ e_next (st_conns s) (st_conns s')); [lia|intros A B Hab; by rewrite (Hw A B Hab)|done].
  - intros Hp c C j J k Hj HC'. destruct (same_but_lookup_inv _ _ _ _ _ HC HC') as (C0 & HC0 & Hab).
    rewrite HJ, (Hw C0 C Hab). by eapply Hp.
Qed.
Lemma shuffled_lasting s s' : shuffled s s' → linked ∅ s' → sized s → lasting s s'.
Proof.
  intros Hs Hl Hz. destruct (shuffled_steady _ _ Hs Hl Hz) as [Z D _ N0 L T]. split; [done..|lia|done|done].
Qed.

(** Room for [n] objects is left if there was room for what the turn can make. *)
Lemma roomy_lasting n s s' :
  lasting s s' → energy s' <= energy s → roomy (n + Z.to_nat (energy s)) s → roomy n s'.
Proof.
  intros [_ HD HN _ _] He [H1 H2 H3]. specialize (HN (proj1 H1)).
  assert (size (st_conns s') = size (st_conns s)) as HC by (rewrite <- !size_dom; by rewrite HD).
  pose proof (jobs_energy s'). pose proof (jobs_energy s). split; lia.
Qed.
Lemma roomy_ample n s : roomy (n + Z.to_nat (energy s)) s → ample s.
Proof. intros [_ _ H]. pose proof (jobs_energy s). unfold ample. lia. Qed.

(** A turn has been taken so far. *)
Record onward s s' : Prop := {
  on_sound : sound s';
  on_lasting : lasting s s';
  on_spent : spent 0 s s';
}.
Lemma wp_onward {A} (m : M A) s s1 :
  onward s s1 → Keeps steady 0 m → Keeps (wanes None) 0 m → wp m (λ _ s', sound s') s1 → wp m (λ _ s', onward s s') s1.
Proof.
  intros [HS HL Hsp] Hm Hw Hwp. eapply wp_mono; [by apply wp_ran, (wp_kept (wanes None) 0)|].
  intros a s' [[HS' Hw'] Hrun]. split; [done|exact (lasting_then m _ _ _ _ HL Hrun)|].
  apply (spent_trans 0 0 s s1); [done|by apply (wanes_spent 0)].
Qed.

Context (Hctl : ∀ k fd, e_epoll_ctl k fd = true).

Lemma wp_prottick n s :
  resting (n + Z.to_nat (energy s)) s → prompt s → wp prottick (λ _ s', resting n s' ∧ onward s s') s.
Proof.
  intros [HS [Hz Hq Hr Hd]] Hp. unfold prottick.
  assert (linked ∅ s) as Hl by (by apply linked_empty).
  assert (onward s s) as Hon by (split; [done|by apply lasting_refl|by apply (wanes_spent 0), bu_refl]).
  apply wp_bind. eapply wp_mono; [eapply wp_onward; [exact Hon|exact _..|]|].
  { apply wp_nanoseconds. intros now. destruct HS as (ids & P & HI). exists ids, P. by apply srv_inv_tick. }
  intros now s1 H1. apply wp_bind, wp_gets, wp_bind. unfold Datatypes.id.
  eapply wp_mono; [eapply wp_onward; [exact H1|exact _..|apply wp_ticked_delayed, H1]|].
  intros p2 s2 H2. apply wp_bind, wp_gets, wp_bind. unfold Datatypes.id. eapply wp_mono; [eapply wp_onward; [exact H2|exact _..|apply wp_ticked_pause; [apply H2|lia]]|].
  intros p3 s3 H3. apply wp_bind, wp_gets, wp_bind. unfold Datatypes.id. destruct H3 as [HS3 HL3 Hsp3].
  eapply wp_mono; [apply wp_ran, wp_ticked_conns; [exact HS3|apply HL3|by apply Hsp3| |]|].
  { eapply (ample_spent 0 s); [done|exact Hsp3|apply HL3|by eapply roomy_ample]. }
  { pose proof (jobs_energy s3). lia. }
  intros p4 s4 [[HS4 Hsp4] Hrun4]. apply (lasting_then (tick_conns_loop _ _ _) _ _ _ _ HL3) in Hrun4 as HL4.
  assert (spent 0 s s4) as Hsp by (by apply (spent_trans 0 0 s s3)).
  apply wp_bind, wp_epollq_apply; [exact Hctl|by apply HL4|]. intros s5 Hs5 Hq5. apply wp_ret.
  assert (spent 0 s s5) as Hsp5 by (apply (spent_trans 0 0 s s4); [done|by apply (wanes_spent 0), shuffled_wanes]).
  assert (lasting s s5) as HL5.
  { destruct HL4 as [Z4 D4 N4 L4 T4]. destruct (shuffled_lasting _ _ Hs5) as [Z5 D5 N5 _ T5]; [by apply linked_empty|exact Z4|].
    split; [done|congruence|lia|intros _; by apply linked_empty|congruence]. }
  assert (sound s5) as HS5 by (by eapply sound_shuffled).
  split; [split; [done|split; [apply HL5|done| |]]|by split].
  - eapply roomy_lasting; [exact HL5|destruct Hsp5; lia|done].
  - rewrite (ls_default _ _ HL5). done.
Qed.

(** ** A turn *)

End loop.
End turns.

(** ** The example state satisfies the hypotheses *)

Section witnesses.
Import QueueSpec.Demo Safety.Example.
(** The worker of the example closes its connection. *)
#[local] Instance net : Net := {|
  net_accept := λ _, Some 7; net_fcntl := λ _, true; net_next := λ _, Some (SockConn 2%positive, "h"%char); net_init := λ _, true;
|}.

(** Its timer has expired, and so has the job that it holds. *)
Definition late : St :=
  state <| st_conns := <[2%positive := conn2 <| c_in_conns := true |>]> conns |>
    <| srv_conns := mkHeap 2 1 [2%positive] |>.
Lemma late_sim : srv_sim state late.
Proof.
  apply conns_step_sim. split; try done.
  intros _. split; [split; simpl; lia|]. intros c Hc.
  assert (c = 2%positive) as -> by (by apply list_elem_of_singleton in Hc).
  by exists conn2.
Qed.
Lemma late_conn c C : st_conns late !! c = Some C → c = 1%positive ∧ C = conn1 ∨ conn_waiting C = false.
Proof.
  change (<[2%positive := conn2 <| c_in_conns := true |>]> conns !! c = Some C → c = 1%positive ∧ C = conn1 ∨ conn_waiting C = false).
  intros [ [_ <-] | [_ HC] ]%lookup_insert_Some; [by right|].
  apply conns_inv in HC as [?|[_ ->]]; auto.
Qed.
Lemma late_prompt : prompt late.
Proof.
  intros c C j J k _ [[-> ->]|Hn]%late_conn Hw HJ Hst Hr; [|congruence].
  change (jobs !! j = Some J) in HJ. keys HJ.
Qed.
Lemma late_resting : resting (0 + EVENT_OBJECTS + Z.to_nat (energy late)) late.
Proof.
  split; [exists ids, P; eapply srv_inv_sim; [exact late_sim|exact holds]|]. split.
  - intros j J HJ. change (jobs !! j = Some J) in HJ. by keys HJ.
  - reflexivity.
  - split; [by vm_compute..|by vm_compute].
  - by eexists.
Qed.

End witnesses.
