(* ===== verification/ServerSpec.v ===== *)
(** The stream of a connection: the bytes received are split between the
    commands and the bodies of jobs without loss; and a complete session run by
    the model. *)
From S2P Require Import Prelude Heap Ms State Monad JobList JobHash Tube Job Wal Conn Queue Parse Stats Dispatch Server.
#[local] Open Scope Z_scope.

(** ** The bytes after a command *)

Section stream.
Context {E : Env} {SI : SysInfo}.
Implicit Types (s : St) (c : connp) (C : Conn) (j : jobp) (J : Job).

(** The bytes received and not yet used. *)
Definition pending C : bytes := take (c_cmd_read C - c_cmd_len C) (drop (c_cmd_len C) (c_cmd C)).

(** The buffer holds a command of [c_cmd_len] bytes. *)
Record buffered C : Prop := {
  bf_len : (0 < c_cmd_len C <= c_cmd_read C)%nat;
  bf_read : (c_cmd_read C <= length (c_cmd C))%nat;
  bf_fd : c_fd C ≠ 0;
}.

Lemma take_shifted (l e : bytes) a b n :
  (a + b = n)%nat → (n <= length e)%nat → (length e <= length l)%nat →
  take a e ++ take b (take b (drop a e) ++ drop b l) = take n e.
Proof.
  intros <- Hn Hl. rewrite take_app_le by (rewrite length_take, length_drop; lia).
  rewrite take_take, Nat.min_id. by rewrite take_take_drop.
Qed.

(** C22: after a [put], [fill_extra_data] moves the first bytes that follow the
    command into the body of the job, at most its size, and the rest to the
    start of the command buffer: no byte is lost, duplicated or written beyond
    the body, and bytes stay in the buffer only when the body is complete. *)
Theorem fill_extra_data_splits s c C j J :
  st_conns s !! c = Some C → buffered C → c_in_job C = Some j → st_jobs s !! j = Some J →
  0 <= r_body_size (j_r J) <= j_cap J →
  ∃ s' C' J', fill_extra_data c s = Ret tt s' ∧
    st_conns s' = <[c := C']> (st_conns s) ∧ st_jobs s' = <[j := J']> (st_jobs s) ∧
    j_body J' ++ take (c_cmd_read C') (c_cmd C') = pending C ∧
    c_in_job_read C' = Z.of_nat (length (j_body J')) ∧
    c_in_job_read C' <= r_body_size (j_r J) ∧
    (c_in_job_read C' < r_body_size (j_r J) → c_cmd_read C' = 0%nat) ∧
    c_cmd_len C' = 0%nat ∧ length (c_cmd C') = length (c_cmd C).
Proof.
  intros HC [Hlen Hread Hfd] Hj HJ [Hb Hcap].
  set (extra := drop (c_cmd_len C) (c_cmd C)).
  set (eb := Z.of_nat (c_cmd_read C) - Z.of_nat (c_cmd_len C)).
  set (n := Z.min eb (r_body_size (j_r J))).
  set (k := Z.to_nat (eb - n)).
  assert (length extra = length (c_cmd C) - c_cmd_len C)%nat as Hex by apply length_drop.
  assert (wp (fill_extra_data c) (λ _ s', ∃ C' J',
    s' = s <| st_jobs ::= <[j := J']> |> <| st_conns ::= <[c := C']> |> ∧
    J' = J <| j_body := take (Z.to_nat n) extra |> ∧
    C' = C <| c_in_job_read := n |>
           <| c_cmd := take k (drop (Z.to_nat n) extra) ++ drop k (c_cmd C) |>
           <| c_cmd_read := k |> <| c_cmd_len := 0%nat |>) s) as Hwp.
  { unfold fill_extra_data. wsteps. rewrite (proj2 (Z.eqb_neq _ _)) by done.
    rewrite (proj2 (Nat.eqb_neq _ _)) by lia. cbv zeta. rewrite Hj. wsteps.
    fold eb. fold n. rewrite (proj2 (Z.ltb_ge _ _)) by lia. unfold upd_conn. wsteps.
    eexists _, _. split; [|done]. unfold rupd, set_st_conns, set_st_jobs. destruct s; simpl.
    f_equal. by rewrite insert_insert_eq. }
  apply wp_Ret in Hwp as ([] & s' & Heq & C' & J' & -> & -> & ->).
  eexists _, _, _. split; [exact Heq|]. rsimpl. split_and!; try done; rsimpl.
  - unfold pending. fold extra.
    replace (c_cmd_read C - c_cmd_len C)%nat with (Z.to_nat n + k)%nat by lia.
    apply take_shifted; [done|lia|lia].
  - rewrite length_take. lia.
  - lia.
  - lia.
  - rewrite length_app, length_take, !length_drop. lia.
Qed.

(** In bit-bucket mode [fill_extra_data] throws away the first bytes that
    follow the command, at most those that remain to skip, and keeps the rest
    at the start of the command buffer. *)
Theorem fill_extra_data_skips s c C :
  st_conns s !! c = Some C → buffered C → c_in_job C = None → 0 <= c_in_job_read C →
  ∃ s' C' n, fill_extra_data c s = Ret tt s' ∧
    st_conns s' = <[c := C']> (st_conns s) ∧ st_jobs s' = st_jobs s ∧
    take (c_cmd_read C') (c_cmd C') = drop n (pending C) ∧
    c_in_job_read C' = c_in_job_read C - Z.of_nat n ∧ 0 <= c_in_job_read C' ∧
    (0 < c_in_job_read C' → c_cmd_read C' = 0%nat) ∧ c_cmd_len C' = 0%nat.
Proof.
  intros HC [Hlen Hread Hfd] Hj Hr.
  set (extra := drop (c_cmd_len C) (c_cmd C)).
  set (eb := Z.of_nat (c_cmd_read C) - Z.of_nat (c_cmd_len C)).
  set (n := Z.min eb (c_in_job_read C)).
  set (k := Z.to_nat (eb - n)).
  assert (length extra = length (c_cmd C) - c_cmd_len C)%nat as Hex by apply length_drop.
  assert (wp (fill_extra_data c) (λ _ s', ∃ C',
    s' = s <| st_conns ::= <[c := C']> |> ∧
    C' = C <| c_in_job_read := c_in_job_read C - n |>
           <| c_cmd := take k (drop (Z.to_nat n) extra) ++ drop k (c_cmd C) |>
           <| c_cmd_read := k |> <| c_cmd_len := 0%nat |>) s) as Hwp.
  { unfold fill_extra_data. wsteps. rewrite (proj2 (Z.eqb_neq _ _)) by done.
    rewrite (proj2 (Nat.eqb_neq _ _)) by lia. cbv zeta. rewrite Hj. fold eb.
    destruct (Z.eqb_spec (c_in_job_read C) 0) as [H0|H0]; cbn [negb].
    - assert (n = 0) as Hn0 by lia. unfold upd_conn. wsteps. eexists. split; [done|].
      assert (c_in_job_read C - n = c_in_job_read C) as Heq by lia.
      unfold k. rewrite Heq, Hn0. by destruct C.
    - fold n. unfold upd_conn. wsteps. eexists. split; [|done].
      unfold rupd, set_st_conns. destruct s; simpl. f_equal. by rewrite insert_insert_eq. }
  apply wp_Ret in Hwp as ([] & s' & Heq & C' & -> & ->).
  eexists _, _, (Z.to_nat n). split; [exact Heq|]. rsimpl. split_and!; try done; rsimpl; try lia.
  - unfold pending. fold extra.
    rewrite take_app_le by (rewrite length_take, length_drop; lia).
    rewrite take_take, Nat.min_id, skipn_firstn_comm. f_equal. lia.
Qed.
End stream.

(** ** A session *)

Module Session.
Definition line (s : string) : bytes := bs s ++ crlf.

(** Two clients: descriptor 5 is a producer, 6 a worker.  Every read of a
    descriptor gives all it ever sends. *)
Definition env : Env := {|
  e_clock := λ n, 1000 * Z.of_nat n;
  e_malloc := λ _, Some 1%positive;
  e_read := λ _ fd _, IoOk (if fd =? 5 then line "put 0 0 10 5" ++ line "hello" else line "reserve");
  e_write := λ _ _ d, IoOk (length d);
  e_epoll_ctl := λ _ _, true;
  e_falloc := λ _ _, true;
|}.
Definition sys : SysInfo := {|
  si_pid := 1; si_version := []; si_instance_hex := []; si_nodename := []; si_os_version := [];
  si_machine := []; si_rusage := λ _, ((0, 0), (0, 0));
|}.
(** The first [accept] gives descriptor 5, the second 6. *)
Definition net : Net := {|
  net_accept := λ n, if (n <? 8)%nat then Some 5 else Some 6;
  net_fcntl := λ _, true;
  net_next := λ _, None;
  net_init := λ _, true;
|}.
#[export] Existing Instances env sys net.

Definition boot : St :=
  mkSt ∅ ∅ ∅ ∅ ∅ ∅ table_init (mkConnCounts 0 0 0 0) ms_init None 0 0 [] stats_zero false 0 None
    65535 (mkWal 0 false None None None 0 0 0 0 0 0 false 0 0) heap_empty [] 0.

Definition session : M unit :=
  prot_init;;
  h_accept;;
  h_accept;;
  s ← gets Datatypes.id;
  (** the worker waits, the producer puts, both replies are sent *)
  let by_fd fd := fst <$> head (filter (λ x, c_fd x.2 = fd) (map_to_list (st_conns s))) in
  producer ← nonnull (by_fd 5);
  worker ← nonnull (by_fd 6);
  prothandle worker "r";;
  prothandle producer "r";;
  prothandle worker "w";;
  prothandle producer "w".
End Session.

(** A worker that waits is sent the job that a producer puts, body and all,
    and the producer is told its id: the whole server, from start-up to the
    bytes written, run by the model. *)
Theorem session_delivers :
  ∃ s, Session.session Session.boot = Ret tt s ∧
    st_trace s = [EvWrite 5 (Session.line "INSERTED 1");
                  EvWrite 6 (Session.line "RESERVED 1 5" ++ Session.line "hello")].
Proof. eexists. split; vm_compute; reflexivity. Qed.

(** ** Examples *)

Module Example.
(** A buffer that holds a [put], the body, and the next command. *)
Definition buffer : bytes := bs "put 0 0 1 2" ++ crlf ++ bs "hi" ++ crlf ++ bs "quit" ++ crlf.
Definition conn (in_job : option jobp) (in_job_read : Z) : Conn :=
  conn_zero <| c_fd := 5 |> <| c_cmd := buffer |> <| c_cmd_len := 13%nat |>
    <| c_cmd_read := length buffer |> <| c_in_job := in_job |> <| c_in_job_read := in_job_read |>.
Definition job : Job :=
  job_zero <| j_cap := 4 |> <| j_r ::= fun r => r <| r_body_size := 4 |> |>.
Definition state (C : Conn) : St :=
  Session.boot <| st_conns := {[1%positive := C]} |> <| st_jobs := {[1%positive := job]} |>.
Lemma conn_buffered p n : buffered (conn p n).
Proof. split; [cbn; lia|reflexivity|done]. Qed.
End Example.

Lemma fill_extra_data_splits_witness (C := Example.conn (Some 1%positive) 0)
    (s := Example.state C) :
  ∃ s' C' J', fill_extra_data 1%positive s = Ret tt s' ∧
    st_conns s' = <[1%positive := C']> (st_conns s) ∧
    st_jobs s' = <[1%positive := J']> (st_jobs s) ∧
    j_body J' ++ take (c_cmd_read C') (c_cmd C') = pending C ∧
    c_in_job_read C' = Z.of_nat (length (j_body J')) ∧
    c_in_job_read C' <= r_body_size (j_r Example.job) ∧
    (c_in_job_read C' < r_body_size (j_r Example.job) → c_cmd_read C' = 0%nat) ∧
    c_cmd_len C' = 0%nat ∧ length (c_cmd C') = length (c_cmd C).
Proof.
  apply (fill_extra_data_splits s 1%positive C 1%positive Example.job);
    [reflexivity|apply Example.conn_buffered|reflexivity|reflexivity|vm_compute; split; discriminate].
Defined.

Lemma fill_extra_data_skips_witness (C := Example.conn None 3) (s := Example.state C) :
  ∃ s' C' n, fill_extra_data 1%positive s = Ret tt s' ∧
    st_conns s' = <[1%positive := C']> (st_conns s) ∧ st_jobs s' = st_jobs s ∧
    take (c_cmd_read C') (c_cmd C') = drop n (pending C) ∧
    c_in_job_read C' = c_in_job_read C - Z.of_nat n ∧ 0 <= c_in_job_read C' ∧
    (0 < c_in_job_read C' → c_cmd_read C' = 0%nat) ∧ c_cmd_len C' = 0%nat.
Proof.
  apply (fill_extra_data_skips s 1%positive C);
    [reflexivity|apply Example.conn_buffered|reflexivity|vm_compute; discriminate].
Defined.
