(* ===== verification/Findings.v ===== *)
(** Behaviours of the code that differ from what it means to do, or from what
    its comments say, each shown by running the model. *)
From S2P Require Import Prelude Heap Ms State Monad JobList JobHash Tube Job Wal Conn Queue QueueRep QueueOps QueueConn QueueProc Process QueueCmds QueueSpec Parse Stats Dispatch Server ServerSpec.
#[local] Open Scope Z_scope.

(** Elements that are taken from a set of odd size without insertions do
    not come oldest first, as the comment in [ms_take] says. *)
Theorem ms_take_not_oldest_first :
  ms_takes 7 (mkMs [1; 2; 3; 4; 5; 6; 7] 8 0) = [1; 2; 3; 4; 6; 7; 5].
Proof. vm_compute. reflexivity. Qed.

(** ** A log whose device fails *)

Module FailingLog.
(** The state of QueueSpec with a log in use. *)
Definition wal_on : Wal :=
  mkWal 1000 true (Some 1%positive) (Some 1%positive) (Some 1%positive) 1 2 100 0 0 0 false 0 0.
Definition file1 : File := mkFile None 1 1 true 9 800 196.
Definition state : St :=
  Demo.state <| srv_wal := wal_on |> <| st_files := {[1%positive := file1]} |>
    <| st_flinks := {[FHead 1%positive := (None, None)]} |>.
(** Writes to the log fail. *)
Definition env : Env := {|
  e_clock := λ n, 1000 * Z.of_nat n;
  e_malloc := λ _, Some 1%positive;
  e_read := λ _ _ _, IoErr EAGAIN;
  e_write := λ _ _ _, IoErr EOTHER;
  e_epoll_ctl := λ _ _, true;
  e_falloc := λ _ _, true;
|}.
(** What [enqueue_incoming_job] does with the result of [enqueue_job]. *)
Definition put : M bool :=
  r ← @enqueue_job env 5%positive 0 true;
  if r : bool then mret true else @bury_job env 5%positive false.
End FailingLog.


(** ** Out of memory *)

Module NoMemory.
(** The second allocation fails. *)
Definition env : Env := {|
  e_clock := λ n, 1000 * Z.of_nat n;
  e_malloc := λ n, if (n =? 1)%nat then None else Some 7%positive;
  e_read := λ _ _ _, IoErr EAGAIN;
  e_write := λ _ _ d, IoOk (length d);
  e_epoll_ctl := λ _ _, true;
  e_falloc := λ _ _, true;
|}.
End NoMemory.

(** When the set of tubes cannot grow, [make_and_insert_tube] returns NULL
    but the new tube, which has no reference yet, is not freed: [tube_dref]
    does nothing on a tube without references. *)
Theorem make_and_insert_tube_leaks :
  ∃ s, @make_and_insert_tube NoMemory.env (bs "new") Demo.state = Ret None s ∧
    ms_items (tubes s) = [1%positive] ∧ t_name <$> st_tubes s !! 7%positive = Some (bs "new").
Proof. eexists. split; [vm_compute; reflexivity|]. split; vm_compute; reflexivity. Qed.

(** ** Large tables *)

(** [_get_job_hash_index] returns an [int]; when the table has more than
    [2^31] buckets the index of some ids is negative. *)
Theorem job_hash_index_negative :
  _get_job_hash_index 3000000000
    (Demo.state <| st_table := mkJobTable 1 18 ∅ 3224575537 0 false |>) =
  Ret (-1294967296) (Demo.state <| st_table := mkJobTable 1 18 ∅ 3224575537 0 false |>).
Proof. vm_compute. reflexivity. Qed.

(** ** Timers *)

Module TiedTimeouts.
Import ServerSpec.Session.
(** Two workers, descriptors 5 and 6, send the same command in the same
    nanosecond; a reply to the first one cannot be written.  The clock stands
    still, and is ten seconds later from the hundredth system call on. *)
Definition env : Env := {|
  e_clock := λ n, if (n <? 100)%nat then 1000 else 20000000000;
  e_malloc := λ _, Some 1%positive;
  e_read := λ _ _ _, IoOk (line "reserve-with-timeout 10");
  e_write := λ _ fd d, if fd =? 5 then IoErr EOTHER else IoOk (length d);
  e_epoll_ctl := λ _ _, true;
  e_falloc := λ _ _, true;
|}.
Definition later : M unit := modify (λ s, s <| st_tick := 100%nat |>).
(** The workers [1] and [2] wait; the first one half-closes its connection,
    which is closed when the answer cannot be sent; then the timeouts are due. *)
Definition waiting : M unit :=
  @prot_init env net;; @h_accept env net;; @h_accept env net;;
  @prothandle env sys 1%positive "r";; @prothandle env sys 2%positive "r".
Definition hangup : M unit :=
  @prothandle env sys 1%positive "h";; @prothandle env sys 1%positive "w".
End TiedTimeouts.


(** ** A reply in progress *)

Module CopyFails.
(** The connection [2] of the example is being sent the job [4], which it holds
    and whose time is over; no memory is left. *)
Definition env : Env := {|
  e_clock := λ _, 1000000000000;
  e_malloc := λ _, None;
  e_read := λ _ _ _, IoErr EAGAIN;
  e_write := λ _ _ d, IoOk (length d);
  e_epoll_ctl := λ _ _, true;
  e_falloc := λ _ _, true;
|}.
Definition state : St :=
  Demo.state <| st_conns ::= <[2%positive := Demo.conn2 <| c_state := STATE_SEND_JOB |>
                                 <| c_out_job := Some 4%positive |>]> |>.
End CopyFails.

(** [conn_timeout] replaces a job that is being sent by a copy; when the copy
    cannot be made, the connection is left in the state STATE_SEND_JOB without
    a job, and the next write follows a null pointer. *)
Theorem failed_copy_is_sent :
  ∃ s C, @conn_timeout CopyFails.env 2%positive CopyFails.state = Ret tt s ∧
    st_conns s !! 2%positive = Some C ∧ c_state C = STATE_SEND_JOB ∧ c_out_job C = None ∧
    @io_send_job CopyFails.env 2%positive s = Stop Undefined.
Proof.
  do 2 eexists. split; [vm_compute; reflexivity|]. split; [vm_compute; reflexivity|].
  split; [reflexivity|]. split; [reflexivity|]. vm_compute. reflexivity.
Qed.

(** ** A worker that waits for its own job *)

Module OwnJob.
(** The connection [2] of the example, which holds the job [4], waits for jobs
    of the tube of [4]; the time of [4] is over. *)
Definition env : Env := {|
  e_clock := λ _, 1000000000000;
  e_malloc := λ _, Some 9%positive;
  e_read := λ _ _ _, IoErr EAGAIN;
  e_write := λ _ _ d, IoOk (length d);
  e_epoll_ctl := λ _ _, true;
  e_falloc := λ _ _, true;
|}.
Definition state : St :=
  Demo.state <| st_conns ::= <[2%positive := Demo.conn2 <| c_state := STATE_WAIT |> <| c_type := 6 |>]> |>
    <| st_tubes ::= <[1%positive := Demo.tube1 <| t_ready := heap_empty |>
                        <| t_waiting_conns := mkMs [2%positive] 1 0 |>]> |>.
End OwnJob.

(** [conn_timeout] gives the expired job back, which hands it to the same
    connection again, and then overwrites the answer with DEADLINE_SOON: the
    client holds a job that it is never told of. *)
Theorem own_job_taken_silently :
  ∃ s C J, @conn_timeout OwnJob.env 2%positive OwnJob.state = Ret tt s ∧
    st_conns s !! 2%positive = Some C ∧ c_state C = STATE_SEND_WORD ∧ c_reply C = MSG_DEADLINE_SOON ∧
    st_jobs s !! 4%positive = Some J ∧ r_state (j_r J) = Reserved ∧ j_reserver J = Some 2%positive ∧
    r_reserve_ct (j_r J) = 1.
Proof.
  do 3 eexists. split; [vm_compute; reflexivity|]. split; [vm_compute; reflexivity|].
  split; [reflexivity|]. split; [reflexivity|]. split; [vm_compute; reflexivity|]. by split_and!.
Qed.

(** ** The queue of epoll updates *)

Module QueuedTwice.
Definition conn (fd : Z) : Conn := conn_zero <| c_fd := fd |> <| c_pending_timeout := -1 |>.
Definition state : St :=
  Demo.state <| st_conns := {[1%positive := conn 5; 2%positive := conn 6; 3%positive := conn 7]} |>
    <| st_links ::= <[NReserved 3 := (NReserved 3, NReserved 3)]> |>
    <| st_links ::= <[NReserved 2 := (NReserved 2, NReserved 2)]> |>.
Definition updates : M unit :=
  @epollq_add ServerSpec.Session.env 1%positive "w";; @epollq_add ServerSpec.Session.env 2%positive "w";;
  @epollq_add ServerSpec.Session.env 3%positive "w";; @epollq_add ServerSpec.Session.env 2%positive "w";;
  @epollq_apply ServerSpec.Session.env.
End QueuedTwice.

