(* ===== verification/Recover.v ===== *)
(** Recovery from the write-ahead log: the reading half of [file.c], [walread]
    and [walinit] of [walg.c], and [srv_acquire_wal] of [serv.c].

    [Disk] holds the log directory: its entries and the contents of its files.
    A file being read is the bytes not read yet and the number of reads that
    succeed before the device fails. *)
From S2P Require Import Prelude Heap Ms State Monad JobList JobHash Tube Job Wal Conn Queue Parse Stats Dispatch Server.
#[local] Open Scope Z_scope.

Record input := mkInput { in_data : bytes; in_ok : nat }.

Class Disk := {
  (** the lock of the directory can be taken *)
  disk_lock : bool;
  (** [None]: the directory cannot be opened *)
  disk_entries : option (list bytes);
  (** [None]: the file cannot be opened *)
  disk_open : Z → option input;
}.

(** ** Decoding *)

Fixpoint of_le (b : bytes) : Z :=
  match b with [] => 0 | c :: b => code c + 256 * of_le b end.
(** The little-endian integer of [n] bytes at offset [off]. *)
Definition field (b : bytes) (off n : nat) : Z := of_le (take n (drop off b)).

Definition jobstate_of (z : Z) : option jobstate :=
  match z with
  | 0 => Some Invalid | 1 => Some Ready | 2 => Some Reserved | 3 => Some Buried
  | 4 => Some Delayed | 5 => Some Copy | _ => None
  end.

(** [None]: the state is not one of the enumeration. *)
Definition decode_jobrec (b : bytes) : option Jobrec :=
  st ← jobstate_of (field b 76 1);
  Some (mkJobrec (field b 0 8) (field b 8 4) (wrap_i64 (field b 16 8))
    (wrap_i64 (field b 24 8)) (wrap_i32 (field b 32 4)) (wrap_i64 (field b 40 8))
    (wrap_i64 (field b 48 8)) (field b 56 4) (field b 60 4) (field b 64 4) (field b 68 4)
    (field b 72 4) st).

(** [struct Jobrec5]: the times are in microseconds and unsigned. *)
Definition Jobrec5size : Z := 77.
Definition usec (z : Z) : Z := wrap_i64 (wrap_u64 (z * 1000)).
Definition decode_jobrec5 (b : bytes) : option Jobrec :=
  st ← jobstate_of (field b 76 1);
  Some (mkJobrec (field b 0 8) (field b 8 4) (usec (field b 16 8)) (usec (field b 24 8))
    (wrap_i32 (field b 32 4)) (usec (field b 40 8)) (usec (field b 48 8)) (field b 56 4)
    (field b 60 4) (field b 64 4) (field b 68 4) (field b 72 4) st).

(** The arguments of [make_job_with_id] in [readrec5] are not converted. *)
Record version := Version {
  v_lensize : nat;
  v_recsize : Z;
  v_decode : bytes → option Jobrec;
}.
Definition version7 := Version 4 sizeof_Jobrec decode_jobrec.
Definition version5 := Version 8 Jobrec5size decode_jobrec5.

(** ** Reading *)

(** [read]: [None] is the result -1. *)
Definition fread (inp : input) (n : nat) : option bytes * input :=
  match in_ok inp with
  | O => (None, inp)
  | S k => (Some (take n (in_data inp)), mkInput (drop n (in_data inp)) k)
  end.

(** [None]: an error or a short read, [*err] is set. *)
Definition readfull (inp : input) (n : nat) : option bytes * input :=
  let '(r, inp) := fread inp n in
  (match r with
   | Some d => if (length d =? n)%nat then Some d else None
   | None => None
   end, inp).

(** What a record reader returns: whether to go on, [*err], the rest. *)
Record rresult := RR { rr_more : bool; rr_err : bool; rr_inp : input }.

Section operations.
Context {E : Env} {SI : SysInfo} {N : Net} {D : Disk}.

Definition drop_job (j : option jobp) : M unit :=
  match j with
  | None => mret tt
  | Some j =>
      job_list_remove (Some (NJob j));;
      J ← deref st_jobs j;
      filermjob (j_file J) j;;
      job_free (Some j)
  end.

(** [Error:] *)
Definition read_error (j : option jobp) (inp : input) : M rresult :=
  drop_job j;; mret (RR false true inp).

(** The record of a live job, with its tube name when [namelen] is not 0. *)
Definition read_live (f : filep) (l : node) (j : option jobp) (name : bytes)
    (namelen sz : Z) (jr : Jobrec) (inp : input) : M rresult :=
  s ← gets id;
  let new := bool_decide (j = None) in
  if new && (job_data_size_limit s <? wrap_u64 (r_body_size jr)) then read_error j inp
  else
    j ← (match j with
         | Some j => mret j
         | None =>
             t ← tube_find_or_make (cstr name);
             j ← make_job_with_id (r_pri jr) (r_delay jr) (r_ttr jr) (r_body_size jr) t
                   (r_id jr);
             j ← nonnull j;
             job_list_reset (NJob j);;
             mret j
         end);
    update st_jobs j (fun J => J <| j_r := jr |>);;
    job_list_insert l (NJob j);;
    let finish sz inp :=
      update st_jobs j (fun J => J <| j_walused ::= fun n => n + sz |>);;
      upd_wal (fun w => w <| w_alive ::= fun n => n + sz |>);;
      mret (RR true false inp) in
    if namelen =? 0 then finish sz inp
    else
      J ← deref st_jobs j;
      if negb (r_body_size jr =? r_body_size (j_r J)) then read_error (Some j) inp
      else
        let n := Z.to_nat (r_body_size jr) in
        let '(body, inp) := readfull inp n in
        (if (r_body_size jr <? 0) || (j_cap J <? r_body_size jr) then ub else mret tt);;
        match body with
        | None => read_error (Some j) inp
        | Some d =>
            update st_jobs j (fun J => J <| j_body := d |>);;
            if (n =? 0)%nat then read_error (Some j) inp
            else
              J ← deref st_jobs j;
              filermjob (j_file J) j;;
              fileaddjob f j;;
              finish (sz + r_body_size jr) inp
        end.

(** A reader returns 0 also for a read of length 0. *)
Definition readrec_with (v : version) (f : filep) (l : node) (inp : input) : M rresult :=
  let '(r, inp) := fread inp (v_lensize v) in
  match r with
  | None => mret (RR false true inp)
  | Some d =>
      if negb (length d =? v_lensize v)%nat then mret (RR false false inp)
      else
        let namelen := if (v_lensize v =? 4)%nat then wrap_i32 (of_le d) else of_le d in
        if Z.of_nat MAX_TUBE_NAME_LEN <=? namelen then mret (RR false true inp)
        else if namelen <? 0 then mret (RR false true inp)
        else
          let '(name, inp) := if namelen =? 0 then (Some [], inp)
                              else readfull inp (Z.to_nat namelen) in
          match name with
          | None => mret (RR false true inp)
          | Some name =>
              let '(rec, inp) := readfull inp (Z.to_nat (v_recsize v)) in
              match rec with
              | None => mret (RR false true inp)
              | Some rec =>
                  if field rec 0 8 =? 0 then mret (RR false false inp)
                  else
                    j ← job_find (field rec 0 8);
                    if bool_decide (j = None) && (namelen =? 0)
                    then mret (RR true false inp)
                    else
                      let sz := Z.of_nat (v_lensize v) + namelen + v_recsize v in
                      match v_decode v rec with
                      | None => read_error j inp
                      | Some jr =>
                          match r_state jr with
                          | Reserved =>
                              read_live f l j name namelen sz
                                (jr <| r_state := Ready |>) inp
                          | Ready | Buried | Delayed =>
                              read_live f l j name namelen sz jr inp
                          | Invalid => drop_job j;; mret (RR true false inp)
                          | Copy => read_error j inp
                          end
                      end
              end
          end
  end.

Definition readrec := readrec_with version7.
Definition readrec5 := readrec_with version5.

(** [while (readrec(f, list, &err));]: [err] accumulates. *)
Fixpoint read_loop (fuel : nat) (rec : input → M rresult) (inp : input) (err : bool)
    : M bool :=
  match fuel with
  | O => out_of_fuel
  | S fuel =>
      r ← rec inp;
      let err := err || rr_err r in
      if rr_more r then read_loop fuel rec (rr_inp r) err else mret err
  end.

(** [true] is the result 1: errors occurred. *)
Definition fileread (f : filep) (l : node) (inp : input) : M bool :=
  let '(v, inp) := readfull inp 4 in
  match v with
  | None => mret true
  | Some v =>
      let run rec :=
        fileincref (Some f);;
        err ← read_loop (S (length (in_data inp))) rec inp false;
        filedecref (Some f);;
        mret err in
      if of_le v =? Walver then run (readrec f l)
      else if of_le v =? 5 then run (readrec5 f l)
      else mret true
  end.

(** ** The log directory *)

(** [strtol], truncated to [int]; the end of the string is the rest. *)
Definition strtol_int (s : bytes) : Z * bytes :=
  let s1 := drop_while is_space s in
  let '(neg, s2) := match s1 with
                    | "-"%char :: r => (true, r)
                    | "+"%char :: r => (false, r)
                    | _ => (false, s1)
                    end in
  match s2 with
  | c :: _ =>
      if is_digit c then
        let '(v, rest) := scan_digits s2 0 in
        let v := if neg : bool then Z.max (- v) (- INT64_MAX - 1) else Z.min v INT64_MAX in
        (wrap_i32 v, rest)
      else (0, s)
  | [] => (0, s)
  end.

Definition binlog_base : bytes := bs "binlog.".

Fixpoint scan_entries (l : list bytes) (min max : Z) : Z * Z :=
  match l with
  | [] => (min, max)
  | e :: l =>
      if TEST_CMD e binlog_base then
        let '(n, p) := strtol_int (drop (length binlog_base) e) in
        if bool_decide (p = []) then scan_entries l (Z.min n min) (Z.max n max)
        else scan_entries l min max
      else scan_entries l min max
  end.

Definition walscandir : M Z :=
  match disk_entries with
  | None => mret 1073741824
  | Some l =>
      let '(min, max) := scan_entries l 1073741824 0 in
      upd_wal (fun w => w <| w_next := wrap_i32 (max + 1) |>);;
      mret min
  end.

(** [for (i = min; i < w->next; i++)] *)
Fixpoint walread_loop (fuel : nat) (l : node) (i : Z) (err : bool) : M bool :=
  w ← get_wal;
  if negb (i <? w_next w) then mret err
  else match fuel with
       | O => out_of_fuel
       | S fuel =>
           f ← malloc st_files file_zero;
           match f with
           | None => exit 1
           | Some f =>
               modify (fun s => s <| st_flinks ::= <[FHead f := (None, None)]> |>);;
               ok ← fileinit f i;
               if negb ok then exit 1
               else
                 match disk_open i with
                 | None =>
                     modify (fun s => s <| st_flinks ::= delete (FHead f) |>);;
                     free st_files f;;
                     walread_loop fuel l (i + 1) err
                 | Some inp =>
                     fileadd f;;
                     e ← fileread f l inp;
                     walread_loop fuel l (i + 1) (err || e)
                 end
           end
       end.

Definition walread (l : node) (min : Z) : M bool :=
  w ← get_wal; walread_loop (Z.to_nat (w_next w - min)) l min false.

Definition walinit (l : node) : M unit :=
  min ← walscandir;
  walread l min;;
  ok ← makenextfile;
  if negb ok then exit 1
  else upd_wal (fun w => w <| w_cur := w_tail w |>).

Definition srv_acquire_wal : M unit :=
  w ← get_wal;
  if negb (w_use w) then mret tt
  else if negb disk_lock then exit 10
  else
    job_list_reset NReplay;;
    walinit NReplay;;
    ok ← prot_replay;
    if negb ok then exit 1
    else modify (fun s => s <| st_links ::= delete NReplay |>).
End operations.
