(* ===== verification/Startup.v ===== *)
(** [main.c], and the start of [srvserve] ([serv.c]): from the command line to
    the event loop.

    [Host] holds the results of the calls that [main] makes besides those of
    [Net], [Disk] and [Sys]. *)
From S2P Require Import Prelude Heap Ms State Monad JobList JobHash Tube Job Wal Conn Queue Parse Stats Dispatch Server.
From S2P Require Import Recover Options Sockets.
#[local] Open Scope Z_scope.

Class Host := {
  (** what is open and on the disk when the process starts *)
  host_kernel : Kernel;
  (** [getpwnam]: [None] is an error, [Some false] an unknown user *)
  host_user : bytes → option bool;
  (** [setgid], [setuid], [sigemptyset], [sigaction], [epoll_create] and
      [epoll_ctl] on the listening socket succeed *)
  host_ok : nat → bool;
  (** the process is the first one of its container *)
  host_pid1 : bool;
}.

Section operations.
Context {E : Env} {SI : SysInfo} {N : Net} {D : Disk} {Y : Sys} {H : Host}.

(** The variables when [main] is called, with the settings [o]. *)
Definition started (o : Options) : St :=
  let wal := mkWal (o_filesize o) (o_use o) None None None 0 0 0 0 0 0
               (o_wantsync o) (o_syncrate o) 0 in
  mkSt ∅ ∅ ∅ ∅ ∅ ∅ table_init (mkConnCounts 0 0 0 0) ms_init None 0 0 [] stats_zero false 0 None
    (o_job_data_size_limit o) wal heap_empty [] 0.

(** A call that must succeed. *)
Definition host_call (code : Z) : M unit :=
  n ← tick; if host_ok n then mret tt else exit code.

Definition su (user : bytes) : M unit :=
  match host_user user with
  | None => exit 32
  | Some false => exit 33
  | Some true => host_call 34;; host_call 34
  end.

(** [enter_drain_mode] is installed for SIGUSR1, and for the first process an
    exit for SIGTERM. *)
Definition set_sig_handlers : M unit :=
  host_call 111;; host_call 111;; host_call 111;;
  if host_pid1 then host_call 111 else mret tt.

(** The first [turns] turns of the loop. *)
Fixpoint serve (turns : nat) : M unit :=
  match turns with
  | O => mret tt
  | S turns => srvserve_step;; serve turns
  end.

Definition srvserve (turns : nat) : M unit :=
  host_call 1;; host_call 2;; serve turns.

Definition main (turns : nat) (argv : list bytes) : res unit :=
  match optparse (tail argv) srv with
  | inl r => Stop r
  | inr o =>
      let '(fd, _) := make_server_socket (o_addr o) (o_port o) host_kernel in
      match fd with
      | None => Stop (Exit 111)
      | Some _ =>
          (prot_init;;
           (match o_user o with Some user => su user | None => mret tt end);;
           set_sig_handlers;;
           srv_acquire_wal;;
           srvserve turns) (started o)
      end
  end.
End operations.
