(* ===== verification/StartupSpec.v ===== *)
(** A restart: what one run of the server writes in its log is served by the
    next run, both run by the model from the command line on. *)
From S2P Require Import Prelude Heap Ms State Monad JobList JobHash Tube Job Wal Conn Queue Parse Stats Dispatch Server.
From S2P Require Import ServerSpec Recover Options Sockets Startup.
#[local] Open Scope Z_scope.

Module Restart.
(** The only client has descriptor 1000 and sends [input]. *)
Definition env (input : bytes) : Env := {|
  e_clock := λ n, 1000 * Z.of_nat n;
  e_malloc := λ _, Some 1%positive;
  e_read := λ _ _ _, IoOk input;
  e_write := λ _ _ d, IoOk (length d);
  e_epoll_ctl := λ _ _, true;
  e_falloc := λ _ _, true;
|}.
(** The first turn accepts the client, the next ones are its events. *)
Definition net (first : nat) : Net := {|
  net_accept := λ _, Some 1000;
  net_fcntl := λ _, true;
  net_next := λ n, Some (if (n <=? first)%nat then SockListen else SockConn 1%positive, "r"%char);
  net_init := λ _, true;
|}.
Definition sys : Sys := {|
  sys_ok := λ _, true; sys_fd := λ _, 3%nat; sys_getaddrinfo := λ _ _, Some [AF_INET]; sys_systemd := None;
|}.
Definition host : Host := {|
  host_kernel := mkKernel ∅ ∅ 0; host_user := λ _, None; host_ok := λ _, true; host_pid1 := false;
|}.
(** The directory with the file [binlog.1], or without it. *)
Definition disk (log : option bytes) : Disk := {|
  disk_lock := true;
  disk_entries := Some (match log with Some _ => [bs "binlog.1"] | None => [] end);
  disk_open := λ i, if i =? 1 then (λ d, mkInput d 100) <$> log else None;
|}.
Definition run (first : nat) (log : option bytes) (input : bytes) : res unit :=
  @main (env input) Session.sys (net first) (disk log) sys host 4
    [bs "beanstalkd"; bs "-b"; bs "dir"; bs "-z10"] .

(** What was written to a descriptor, or to the log files. *)
Definition written (p : Z → bool) (r : res unit) : bytes :=
  match r with
  | Ret _ s => concat (map (λ e, match e with EvWrite fd d => if p fd then d else [] | _ => [] end)
                         (rev (st_trace s)))
  | Stop _ => []
  end.
Definition sent := written (λ fd, fd =? 1000).
Definition logged := written (λ fd, fd <? 1000).
Import Session.
Definition first_run : res unit :=
  run 16 None (line "use t" ++ line "put 7 0 10 5" ++ line "hello").
Definition second_run (log : bytes) : res unit :=
  run 22 (Some log) (line "watch t" ++ line "reserve").
(** What the worker of the second run is sent. *)
Definition answers (served : bool) : bytes :=
  line "WATCHING 2" ++ if served then line "RESERVED 1 5" ++ line "hello" else [].
End Restart.

(** Every torn log, and the whole one. *)
Lemma restart_prefixes :
  forallb (λ n, bool_decide (Restart.sent (Restart.second_run (take n (Restart.logged Restart.first_run))) =
                             Restart.answers (96 <=? n)%nat)) (seq 0 97) = true ∧
  length (Restart.logged Restart.first_run) = 96%nat.
Proof. split; vm_compute; reflexivity. Qed.

