(* ===== verification/Codec.v ===== *)
(** The encoding of job records in the log: what [filewrite] writes is what
    [readrec] decodes. *)
From S2P Require Import Prelude Heap Ms State Monad Wal Parse Recover.
#[local] Open Scope Z_scope.

(** The values the fields of [struct Jobrec] can hold. *)
Definition u32 (z : Z) : Prop := 0 <= z < 2 ^ 32.
Definition i32 (z : Z) : Prop := - 2 ^ 31 <= z < 2 ^ 31.
Definition u64 (z : Z) : Prop := 0 <= z < 2 ^ 64.
Definition i64 (z : Z) : Prop := - 2 ^ 63 <= z < 2 ^ 63.

Record rec_in_range (r : Jobrec) : Prop := {
  rr_id : u64 (r_id r);
  rr_pri : u32 (r_pri r);
  rr_delay : i64 (r_delay r);
  rr_ttr : i64 (r_ttr r);
  rr_size : i32 (r_body_size r);
  rr_created : i64 (r_created_at r);
  rr_deadline : i64 (r_deadline_at r);
  rr_counts : u32 (r_reserve_ct r) ∧ u32 (r_timeout_ct r) ∧ u32 (r_release_ct r) ∧
    u32 (r_bury_ct r) ∧ u32 (r_kick_ct r);
}.

Section codec.
Implicit Types (b : bytes) (n off : nat) (z : Z).

Lemma length_le_bytes n z : length (le_bytes n z) = n.
Proof. revert z. induction n as [|n IH]; intros z; simpl; [done|]. by rewrite IH. Qed.

Lemma code_byte z : code (ascii_of_N (Z.to_N (z mod 256))) = z mod 256.
Proof.
  pose proof (Z.mod_pos_bound z 256 ltac:(lia)). unfold code.
  rewrite N_ascii_embedding; lia.
Qed.

Lemma of_le_bytes n z : of_le (le_bytes n z) = z mod 2 ^ (8 * Z.of_nat n).
Proof.
  revert z. induction n as [|n IH]; intros z; cbn [le_bytes of_le].
  - by rewrite Z.mod_1_r.
  - rewrite code_byte, IH.
    replace (8 * Z.of_nat (S n)) with (8 + 8 * Z.of_nat n) by lia.
    rewrite Z.pow_add_r by lia. change (2 ^ 8) with 256.
    assert (0 < 2 ^ (8 * Z.of_nat n)) by (apply Z.pow_pos_nonneg; lia).
    rewrite Z.rem_mul_r by lia. lia.
Qed.

Lemma field_here n z b : field (le_bytes n z ++ b) 0 n = z mod 2 ^ (8 * Z.of_nat n).
Proof.
  unfold field. rewrite drop_0. rewrite <- (length_le_bytes n z) at 1.
  rewrite take_app_length. apply of_le_bytes.
Qed.

Lemma field_skip k z b off n : (k <= off)%nat → field (le_bytes k z ++ b) off n = field b (off - k) n.
Proof.
  intros H. unfold field. rewrite drop_app_ge by (by rewrite length_le_bytes).
  by rewrite length_le_bytes.
Qed.

Lemma wrap_i64_mod z : i64 z → wrap_i64 (z mod 2 ^ 64) = z.
Proof.
  unfold i64, wrap_i64. change (2 ^ 64) with 18446744073709551616.
  change (2 ^ 63) with 9223372036854775808. intros H. rewrite Z.mod_mod by lia.
  destruct (Z.le_gt_cases 0 z).
  - rewrite Z.mod_small by lia. by rewrite (proj2 (Z.ltb_lt _ _)) by lia.
  - rewrite <- (Z.mod_unique z 18446744073709551616 (-1) (z + 18446744073709551616)) by lia.
    rewrite (proj2 (Z.ltb_ge _ _)) by lia. lia.
Qed.

Lemma wrap_i32_mod z : i32 z → wrap_i32 (z mod 2 ^ 32) = z.
Proof.
  unfold i32, wrap_i32. change (2 ^ 32) with 4294967296. change (2 ^ 31) with 2147483648.
  intros H. rewrite Z.mod_mod by lia. destruct (Z.le_gt_cases 0 z).
  - rewrite Z.mod_small by lia. by rewrite (proj2 (Z.ltb_lt _ _)) by lia.
  - rewrite <- (Z.mod_unique z 4294967296 (-1) (z + 4294967296)) by lia.
    rewrite (proj2 (Z.ltb_ge _ _)) by lia. lia.
Qed.

Lemma length_encode r : length (encode_jobrec r) = 80%nat.
Proof. unfold encode_jobrec. by rewrite !length_app, !length_le_bytes. Qed.

(** A field of the image: skip what precedes it. *)
Ltac solve_field :=
  unfold encode_jobrec; repeat (rewrite field_skip by (cbv; lia)); cbn [Nat.sub];
  rewrite field_here; try done; apply Z.mod_small; assumption.

Lemma state_field r : field (encode_jobrec r) 76 1 = jobstate_byte (r_state r).
Proof.
  unfold encode_jobrec. repeat (rewrite field_skip by (cbv; lia)). cbn [Nat.sub].
  rewrite field_here. by destruct (r_state r).
Qed.

Lemma jobstate_of_byte st : jobstate_of (jobstate_byte st) = Some st.
Proof. by destruct st. Qed.

End codec.

Definition example_rec : Jobrec :=
  mkJobrec 7 1024 0 60000000000 7 1700000000000000000 0 1 0 0 0 0 Ready.

